(* ===== verification/_CoqProject ===== *)
-Q . S2P
Prelude.v
DispatchQueue.v
DispatchQueueFacts.v
DispatchQueueSpec.v
DispatchQueueMerge.v
EventQueue.v
CoreJob.v
CoreJobFacts.v
CoreJobSpec.v
CoreThread.v
CoreThreadFacts.v
CoreThreadSpec.v
ThreadPool.v
ThreadPoolFacts.v
ThreadPoolSpec.v
Parallel.v
ParallelFacts.v
ParallelSpec.v
AutoFilter.v
Decoration.v
AutoPacket.v
AutoPacketFacts.v
AutoPacketSpec.v
PacketFactory.v
PacketFactoryFacts.v
PacketFactorySpec.v
PacketFactoryProgress.v
PacketFactoryClients.v
AutoPacketGraphFacts.v
AutoPacketExamples.v
Once.v
CoreContext.v
CoreContextFacts.v
ContextLifecycle.v
ContextEnumerator.v
ContextClients.v
ContextTree.v
EnumeratorFacts.v
ContextExamples.v
TypeMemos.v
TypeFacts.v
TypeOperations.v
TypeSlots.v
AutowiringSpec.v
TypeExamples.v
Marshaller.v
ConfigManager.v
ConfigManagerFacts.v
ConfigManagerSpec.v
ConfigManagerErrors.v
AutoSignal.v
AutoSignalFacts.v
ObjectPool.v
ObjectPoolFacts.v
TeardownNotifier.v
Optional.v
OptionalFacts.v
ContextMap.v
ContextMapFacts.v
ContextMapSpec.v
HeteroBlock.v
HeteroBlockFacts.v
HeteroBlockSpec.v
