(* ===== verification/Prelude.v ===== *)
(** * Autowiring: a verification library for the C++ IoC framework under src/src/autowiring

    Autowiring is a dependency-injection framework: contexts form a tree, hold
    objects and fill the slots of objects that wait for others; packets route data
    between filters; dispatch queues, pools, signals and configuration managers
    serve both.  This library models the run-time state of these parts the way the
    code keeps it (pointers, counters, lists, memos) and proves what each part
    promises to its clients.

    ** Conventions

    Code that changes state is a function of the state-and-exception monad [M]
    below: the state survives a throw, and [Stuck] stands for undefined behaviour
    (null and freed pointers), for waiting that only another thread can end, and for
    fuel that ran out.  Recursion through client callbacks and up or down trees
    takes fuel: theorems that say what an operation does include that it ends with
    the fuel named (the depth of the tree, a bound on the work left); safety
    theorems hold for any fuel.  Callbacks of clients are arguments of the
    definitions: the theorems are proved for all callbacks that keep the invariant,
    and then for programs, inductive types of client calls whose callbacks are again
    programs ([DispatchQueueSpec], [AutoPacketSpec], [ContextClients]).  Code that several
    threads run is a list of threads, each the list of what it has left to do; a step
    is a critical section or an access outside of one, and the theorems are for every
    schedule, a list of thread numbers; the counting lemmas at the end of this file
    relate what the threads have left to counters.  Machine integers are [Z] with
    their wrap-around ([size_t], the integral configuration fields).  Locks are modelled where they matter to the result (the [m_lock] of a
    runnable, the mutex of a pool, the state of a signal, the lock of a [parallel]); elsewhere an operation is
    one critical section.

    ** Parts

    - DispatchQueue.{h,cpp}, DispatchThunk.h.  [DispatchQueue]: the linked list of
      thunks at addresses of a heap, the heap of delayed thunks, the 64-bit count.
      [DispatchQueueFacts]: the invariant that relates the pointers to a list.
      [DispatchQueueSpec]: the queue refines two lists, the ready and the delayed
      lambdas, for all client programs.  [DispatchQueueMerge]: appending queues and
      retrying, with the runs in which the code goes wrong.
    - [EventQueue]: the interface between a queue and the run loops around it, a class
      of operations and a class of laws, with DispatchQueue.cpp as its instance.  The
      three parts that follow are proved against the interface.
    - CoreJob.{h,cpp}, BasicThread.{h,cpp}, CoreThread.{h,cpp}, CoreRunnable.cpp:
      [CoreJob] runs the lambdas of its queue one at a time in threads of its own,
      [CoreThread] in one thread with the states of a BasicThread; [CoreJobFacts],
      [CoreThreadFacts]: their invariants; [CoreJobSpec], [CoreThreadSpec]: calls in
      order, nothing left at rest, how they stop, what an exception does.
    - ThreadPool.{h,cpp}, SystemThreadPoolStl.{h,cpp}, NullPool.{h,cpp}: [ThreadPool],
      [ThreadPoolFacts], [ThreadPoolSpec]: the pool of threads, its tokens and count.
    - Parallel.{h,cpp}: [Parallel], [ParallelFacts], [ParallelSpec]: jobs, their
      results by type, and the barrier.
    - altitude.h, AutoFilterArgument.h, AutoFilterDescriptor.{h,cpp}, SatCounter.h:
      [AutoFilter].  DecorationDisposition.h: [Decoration], with the state machine
      of a decoration.
    - AutoPacket.{h,cpp}: [AutoPacket] (recipients, decorating, marking, removing,
      immediate decorations, cycle detection), which uses [AutoFilter] and
      [Decoration].  [AutoPacketFacts], [AutoPacketSpec]: memory safety, and filters
      are called at most once with their inputs present, under re-entrant filters.
      [AutoPacketGraphFacts]: DetectCycle throws exactly if there is a cycle.
      [AutoPacketExamples]: complete decorations are final; runs that go wrong.
    - AutoPacketFactory.{h,cpp}, AutoPacketInternal.cpp: [PacketFactory], whose packets
      are those of [AutoPacket]; [PacketFactoryFacts], [PacketFactorySpec]: lifetimes
      and winding down; [PacketFactoryProgress]: its calls end; [PacketFactoryClients]:
      client programs, and runs that go wrong.
    - once.{h,cpp}: [Once].
    - CoreContext.{h,cpp}, CoreRunnable.{h,cpp}, CurrentContextPusher.cpp, Bolt.h.
      [CoreContext]: the tree, creation, initiation, shutdown, runnables, exception
      filters, notices to bolts.  [CoreContextFacts]: the invariant of the world
      under re-entrant callbacks.  [ContextLifecycle], [ContextTree]: the exact
      effect of the lifecycle operations and the relation of the states of parents
      and children.  [ContextClients]: safety for client programs.  [ContextExamples]:
      exception filters; runs that go wrong.
    - ContextEnumerator.{h,cpp}: [ContextEnumerator]; [EnumeratorFacts]: enumeration
      is preorder.
    - The type memos of CoreContext.{h,cpp} with MemoEntry.h, CoreObjectDescriptor.h,
      AutowirableSlot.{h,cpp}, AnySharedPointer.h, Autowired.h.  [TypeMemos]: finding
      by type, injecting, adding, deferred updates, slots, on the tree of
      [CoreContext] and the flags of [Once].  [TypeFacts], [TypeOperations],
      [TypeSlots]: every operation ends and keeps the invariant.  [AutowiringSpec]:
      a slot is filled exactly if its object is in sight, for all clients.
      [TypeExamples]: runs where that ends.
    - marshaller.h, config.h: [Marshaller]: integers, booleans, strings, atomics and
      double-buffered config fields, to and from strings.
    - ConfigManager.{h,cpp}, registration.h: [ConfigManager], with [ConfigManagerFacts]
      (the links of entries, and how values spread along them), [ConfigManagerSpec]
      (refinement of a tree of overrides) and [ConfigManagerErrors] (fields that
      refuse a value).  It uses [Marshaller], and the protocol of a signal as one
      thread sees it.
    - auto_signal.h, atomic_list.{h,cpp}: [AutoSignal], any number of threads, a step
      per access to the shared state; [AutoSignalFacts]: exclusion, conservation of
      calls, and the schedule that loses one.
    - ObjectPool.h, ObjectPoolMonitor.{h,cpp}: [ObjectPool], the critical sections of
      any number of threads; [ObjectPoolFacts]: objects are neither lost nor shared,
      the outstanding count is exact.
    - TeardownNotifier.{h,cpp}: [TeardownNotifier], a list that any number of threads
      push on with compare-and-exchange.
    - ContextMap.h: [ContextMap], [ContextMapFacts], [ContextMapSpec]: contexts by key,
      the handlers that evict them, and the lock.
    - HeteroBlock.h: [HeteroBlock], [HeteroBlockFacts], [HeteroBlockSpec]: objects of
      several types, with their headers, in one allocation.
    - optional.h: [Optional]; [OptionalFacts]: it refines [option].

    ** Theorems

    Refinements: [dispatch_queue_refines], [autowiring_sound_complete],
    [config_refines], [optional_refines], [ContextMap_Enumerate].  Invariants over all clients, threads or schedules:
    [context_lifecycle], [signal_conserves_calls], [objects_conserved],
    [parallel_conserves], [ContextMap_evicts], [completed_decoration_is_final].  Safety of re-entrant clients: [dq_clients_safe],
    [context_clients_safe], [filters_called_at_most_once], [signal_exclusive],
    [packet_factory_lifetimes], [HeteroBlock_lifetimes].  Order of calls, for any number
    of threads: [CoreJob_calls_in_order], [CoreThread_calls_in_order],
    [ThreadPool_calls_in_order].  Liveness, that a state in which no thread can go on
    has no work left: [CoreJob_calls_all], [CoreThread_quiescent],
    [ThreadPool_quiescent], [parallel_progress], [ContextMap_progress],
    [packet_factory_winds_down]; termination: [packet_factory_calls_end].
    Functional correctness of single operations, on every branch: cycle detection,
    enumeration, creation, initiation and shutdown, merging, marshalling (round
    trip, typing, bounds).  The theorems named after a failure ([lost_signal],
    [append_empty_breaks_pend], [refused_registration_wedges], ...) prove that the
    code does what it does not mean to, in general or at a concrete run.

    ** Not modelled

    - In the type memos: the subscription of packet filters, configuration and the
      newObject signal at the end of AddInternal; AutoInit and the factories at the
      end of Inject; Await.
    - AutoPacketGraph; ManualThreadPool and the pools of Windows; priorities and names
      of threads, and what the operating system does to schedule them; waits with a
      timeout.
    - Memory orders weaker than sequential consistency; spurious wake-ups; addresses
      that are used again (pools, thunks, counters get fresh ones).
    - Floating-point marshallers; the contents of metadata; the start-up lists of
      ConfigRegistry and TypeRegistry, which are parameters.
    - Template code that selects types at compile time (CallExtractor, Decompose,
      auto_arg); calls into operating systems; autonet, tests, benchmarks, examples;
      the third-party code under contrib. *)
From stdpp Require Import base gmap list strings sorting.
From Stdlib Require Import ZArith Lia.

#[global] Set Default Goal Selector "!".

Declare Scope aw_scope.
Delimit Scope aw_scope with aw.
Create HintDb aw.
Create Rewrite HintDb aw.

(** ** Exceptions and outcomes

    The C++ code reports errors by throwing; a throw unwinds but keeps every
    store made before it.  [exn] lists the exception types the library throws
    or catches by type, plus [user_exception] for whatever client code throws. *)
Inductive exn :=
  | autowiring_error (what : string)
  | dispatch_aborted_exception (what : string)
  | runtime_error (what : string)
  | range_error (what : string)
  | invalid_argument (what : string)
  | out_of_range (what : string)
  | bad_weak_ptr
  | bad_alloc
  | user_exception (tag : nat).

#[export] Instance exn_eq_dec : EqDecision exn.
Proof. solve_decision. Defined.

(** Why a run has no C++ result: it dereferenced a pointer the language gives
    no meaning to, it waits for another thread, or the model's fuel ran out. *)
Inductive stuck_reason :=
  | undefined_behavior
  | blocked
  | out_of_fuel.

#[export] Instance stuck_reason_eq_dec : EqDecision stuck_reason.
Proof. solve_decision. Defined.

Inductive outcome (A : Type) :=
  | Ret (a : A)
  | Throw (e : exn)
  | Stuck (r : stuck_reason).
Arguments Ret {A} a.
Arguments Throw {A} e.
Arguments Stuck {A} r.

#[export] Instance outcome_eq_dec `{EqDecision A} : EqDecision (outcome A).
Proof. solve_decision. Defined.

(** ** The state-and-exception monad: the state survives a throw. *)
Definition M (S A : Type) : Type := S → outcome A * S.

#[export] Instance M_ret {S} : MRet (M S) := λ A a s, (Ret a, s).
#[export] Instance M_bind {S} : MBind (M S) := λ A B k m s,
  match m s with
  | (Ret a, s') => k a s'
  | (Throw e, s') => (Throw e, s')
  | (Stuck r, s') => (Stuck r, s')
  end.

Section ops.
  Context {S : Type}.

Definition get : M S S := λ s, (Ret s, s).
Definition put (s : S) : M S unit := λ _, (Ret tt, s).
Definition gets {A} (f : S → A) : M S A := λ s, (Ret (f s), s).
Definition modify (f : S → S) : M S unit := λ s, (Ret tt, f s).
Definition throw {A} (e : exn) : M S A := λ s, (Throw e, s).
Definition stuck {A} (r : stuck_reason) : M S A := λ s, (Stuck r, s).

(** [try { m } catch (e) { h(e) }]. *)
Definition try_catch {A} (m : M S A) (h : exn → M S A) : M S A := λ s,
  match m s with
  | (Throw e, s') => h e s'
  | r => r
  end.

(** [MakeAtExit(f), m]: the destructor runs [f] whether [m] returns or throws. *)
Definition at_exit {A} (f : M S unit) (m : M S A) : M S A := λ s,
  match m s with
  | (Ret a, s') => match f s' with
                   | (Ret _, s'') => (Ret a, s'')
                   | (Throw e, s'') => (Throw e, s'')
                   | (Stuck r, s'') => (Stuck r, s'')
                   end
  | (Throw e, s') => match f s' with
                     | (Stuck r, s'') => (Stuck r, s'')
                     | (_, s'') => (Throw e, s'')
                     end
  | (Stuck r, s') => (Stuck r, s')
  end.

(** A pointer dereference: [None] is null or freed memory. *)
Definition deref {A} (o : option A) : M S A :=
  match o with Some a => mret a | None => stuck undefined_behavior end.

Definition when (b : bool) (m : M S unit) : M S unit := if b then m else mret tt.

(** [for (auto& x : l) body(x)]. *)
Fixpoint for_each {A} (body : A → M S unit) (l : list A) : M S unit :=
  match l with
  | [] => mret tt
  | x :: l' => body x;; for_each body l'
  end.
End ops.

Definition is_ret {A} (o : outcome A) : bool :=
  match o with Ret _ => true | _ => false end.

(** ** Invariant reasoning about monadic code *)
Definition preserves {S A} (I : S → Prop) (m : M S A) : Prop :=
  ∀ s, I s → I (m s).2.

Section preserves.
  Context {S : Type} (I : S → Prop).

Lemma preserves_ret {A} (a : A) : preserves I (mret a).
Proof. intros s H. exact H. Qed.

Lemma preserves_throw {A} e : preserves I (throw (A:=A) e).
Proof. intros s H. exact H. Qed.

Lemma preserves_stuck {A} r : preserves I (stuck (A:=A) r).
Proof. intros s H. exact H. Qed.

Lemma preserves_get : preserves I get.
Proof. intros s H. exact H. Qed.

Lemma preserves_gets {A} (f : S → A) : preserves I (gets f).
Proof. intros s H. exact H. Qed.

Lemma preserves_deref {A} (o : option A) : preserves I (deref o).
Proof. destruct o; intros s H; exact H. Qed.

Lemma preserves_modify f : (∀ s, I s → I (f s)) → preserves I (modify f).
Proof. intros H s Hs. by apply H. Qed.

Lemma preserves_bind {A B} (m : M S A) (k : A → M S B) :
  preserves I m → (∀ a, preserves I (k a)) → preserves I (m ≫= k).
Proof.
  intros Hm Hk s Hs. specialize (Hm s Hs).
  unfold mbind, M_bind. destruct (m s) as [[a|e|r] s']; simpl in *; [by apply Hk|done|done].
Qed.

Lemma preserves_catch {A} (m : M S A) h :
  preserves I m → (∀ e, preserves I (h e)) → preserves I (try_catch m h).
Proof.
  intros Hm Hh s Hs. specialize (Hm s Hs).
  unfold try_catch. destruct (m s) as [[a|e|r] s']; simpl in *; [done|by apply Hh|done].
Qed.

Lemma preserves_at_exit {A} f (m : M S A) :
  preserves I f → preserves I m → preserves I (at_exit f m).
Proof.
  intros Hf Hm s Hs. specialize (Hm s Hs). unfold at_exit.
  destruct (m s) as [[a|e|r] s']; simpl in *; [| |done];
    specialize (Hf s' Hm); destruct (f s') as [[]?]; done.
Qed.

Lemma preserves_when b m : preserves I m → preserves I (when b m).
Proof. destruct b; [done|intros _; apply preserves_ret]. Qed.

Lemma preserves_for_each {A} (body : A → M S unit) l :
  (∀ x, x ∈ l → preserves I (body x)) → preserves I (for_each body l).
Proof.
  induction l as [|x l IH]; intros H; simpl; [apply preserves_ret|].
  apply preserves_bind; [apply H; left|intros _; apply IH].
  intros y Hy. apply H. by right.
Qed.
End preserves.

#[export] Hint Resolve preserves_ret preserves_throw preserves_stuck preserves_get
  preserves_gets preserves_deref preserves_when : aw.
#[export] Hint Resolve preserves_bind preserves_catch preserves_at_exit preserves_for_each : aw.

(** ** Running monadic code symbolically *)
(** Unfolds one layer of monadic glue in the goal or in a hypothesis. *)
Ltac munfold :=
  unfold mbind, M_bind, mret, M_ret, get, put, gets, modify, throw, stuck, deref, when in *.

Section run.
  Context {S : Type}.

Lemma bind_Ret {A B} (m : M S A) (k : A → M S B) s a s' :
  m s = (Ret a, s') → (m ≫= k) s = k a s'.
Proof. intros H. unfold mbind, M_bind. by rewrite H. Qed.

Lemma bind_Throw {A B} (m : M S A) (k : A → M S B) s e s' :
  m s = (Throw e, s') → (m ≫= k) s = (Throw e, s').
Proof. intros H. unfold mbind, M_bind. by rewrite H. Qed.

Lemma bind_assoc {A B C} (m : M S A) (k : A → M S B) (h : B → M S C) s :
  ((m ≫= k) ≫= h) s = (m ≫= (λ a, k a ≫= h)) s.
Proof. unfold mbind, M_bind. by destruct (m s) as [[] ?]. Qed.

Lemma for_each_app {A} (body : A → M S unit) l1 l2 s :
  for_each body (l1 ++ l2) s = (for_each body l1;; for_each body l2) s.
Proof.
  revert s. induction l1 as [|x l1 IH]; intros s; simpl; [done|].
  rewrite bind_assoc. munfold.
  destruct (body x s) as [[] ?]; [apply IH|done|done].
Qed.
End run.

(** ** Triples: partial correctness with exceptions, excluding undefined behaviour *)
Definition triple {S A} (P : S → Prop) (m : M S A) (Q : A → S → Prop) (X : exn → S → Prop) : Prop :=
  ∀ s, P s → match m s with
             | (Ret a, s') => Q a s'
             | (Throw e, s') => X e s'
             | (Stuck undefined_behavior, _) => False
             | (Stuck _, _) => True
             end.

(** The invariant [I] holds again whenever [m] ends, and [m] stays defined. *)
Definition safe {S A} (I : S → Prop) (m : M S A) : Prop :=
  triple I m (λ _, I) (λ _, I).

Section triple.
  Context {S : Type}.

Lemma triple_ret {A} (P : S → Prop) (a : A) X : triple P (mret a) (λ r s, r = a ∧ P s) X.
Proof. intros s H. by split. Qed.

Lemma triple_bind {A B} P (m : M S A) (k : A → M S B) Q R X :
  triple P m Q X → (∀ a, triple (Q a) (k a) R X) → triple P (m ≫= k) R X.
Proof.
  intros Hm Hk s Hs. specialize (Hm s Hs). munfold.
  destruct (m s) as [[a|e|r] s']; [by apply Hk|done|by destruct r].
Qed.

Lemma triple_conseq {A} (P P' : S → Prop) (m : M S A) (Q Q' : A → S → Prop) X X' :
  triple P' m Q' X' → (∀ s, P s → P' s) → (∀ a s, Q' a s → Q a s) → (∀ e s, X' e s → X e s) →
  triple P m Q X.
Proof.
  intros Hm HP HQ HX s Hs. specialize (Hm s (HP s Hs)).
  destruct (m s) as [[a|e|r] s']; [by apply HQ|by apply HX|done].
Qed.

Lemma triple_catch {A} P (m : M S A) h Q X Y :
  triple P m Q Y → (∀ e, triple (Y e) (h e) Q X) → triple P (try_catch m h) Q X.
Proof.
  intros Hm Hh s Hs. specialize (Hm s Hs). unfold try_catch.
  destruct (m s) as [[a|e|r] s']; [done|by apply Hh|by destruct r].
Qed.

Lemma triple_at_exit {A} P f (m : M S A) Q X Q' X' :
  triple P m Q X →
  (∀ a, triple (Q a) f (λ _, Q' a) X') →
  (∀ e, triple (X e) f (λ _, X' e) (λ _, X' e)) →
  triple P (at_exit f m) Q' X'.
Proof.
  intros Hm HQ HX s Hs. specialize (Hm s Hs). unfold at_exit.
  destruct (m s) as [[a|e|r] s']; [| |done].
  - specialize (HQ a s' Hm). by destruct (f s') as [[|?|[]] ?].
  - specialize (HX e s' Hm). by destruct (f s') as [[|?|[]] ?].
Qed.

Lemma safe_ret {A} I (a : A) : safe (S:=S) I (mret a).
Proof. intros s H. exact H. Qed.

Lemma safe_bind {A B} I (m : M S A) (k : A → M S B) :
  safe I m → (∀ a, safe I (k a)) → safe I (m ≫= k).
Proof. apply triple_bind. Qed.

Lemma safe_modify (I : S → Prop) f : (∀ s, I s → I (f s)) → safe I (modify f).
Proof. intros H s Hs. by apply H. Qed.

Lemma safe_throw {A} I e : safe (S:=S) I (throw (A:=A) e).
Proof. intros s H. exact H. Qed.

Lemma safe_stuck {A} I r : r ≠ undefined_behavior → safe (S:=S) I (stuck (A:=A) r).
Proof. intros H s Hs. by destruct r. Qed.

Lemma safe_when I b m : safe (S:=S) I m → safe I (when b m).
Proof. destruct b; [done|intros _; apply safe_ret]. Qed.

(** Reading the state: the continuation may use what it read. *)
Lemma triple_get {B} P (k : S → M S B) Q X :
  (∀ s, P s → triple (λ s', s' = s ∧ P s') (k s) Q X) → triple P (get ≫= k) Q X.
Proof. intros H s Hs. exact (H s Hs s (conj eq_refl Hs)). Qed.

Lemma triple_pre {A} (P P' : S → Prop) (m : M S A) Q X :
  triple P' m Q X → (∀ s, P s → P' s) → triple P m Q X.
Proof. intros Hm HP. by eapply triple_conseq. Qed.

(** As [triple_get], for a continuation that needs only [P] afterwards. *)
Lemma triple_read {B} P (k : S → M S B) Q X :
  (∀ s, P s → triple P (k s) Q X) → triple P (get ≫= k) Q X.
Proof. intros H s Hs. exact (H s Hs s Hs). Qed.

(** A pure part of the precondition. *)
Lemma triple_pure {A} (φ : Prop) P (m : M S A) Q X :
  (φ → triple P m Q X) → triple (λ s, φ ∧ P s) m Q X.
Proof. intros H s [Hφ Hs]. exact (H Hφ s Hs). Qed.

Lemma triple_preserves {A} P I (m : M S A) Q X :
  triple P m Q X → preserves I m →
  triple (λ s, P s ∧ I s) m (λ a s, Q a s ∧ I s) (λ e s, X e s ∧ I s).
Proof.
  intros Hm Hi s [Hs Hs']. specialize (Hm s Hs). specialize (Hi s Hs').
  destruct (m s) as [[a|e|[]] s']; try done; by split.
Qed.

Lemma safe_for_each {A} I (body : A → M S unit) l :
  (∀ x, safe I (body x)) → safe I (for_each body l).
Proof.
  intros H. induction l as [|x l IH]; simpl; [apply safe_ret|].
  apply safe_bind; [apply H|done].
Qed.
End triple.

#[export] Hint Resolve safe_ret safe_bind safe_throw safe_when safe_for_each : aw.

(** ** Total correctness: [m] runs to a result in [Q] or to an exception in [X] *)
Definition wp {S A} (m : M S A) (Q : A → S → Prop) (X : exn → S → Prop) (s : S) : Prop :=
  match m s with
  | (Ret a, s') => Q a s'
  | (Throw e, s') => X e s'
  | (Stuck _, _) => False
  end.

Section wp.
  Context {S : Type}.

Lemma wp_ret {A} (a : A) Q X (s : S) : Q a s → wp (mret a) Q X s.
Proof. done. Qed.

Lemma wp_bind {A B} (m : M S A) (k : A → M S B) Q X s :
  wp m (λ a, wp (k a) Q X) X s → wp (m ≫= k) Q X s.
Proof. unfold wp at 1 3. munfold. by destruct (m s) as [[] ?]. Qed.

Lemma wp_conseq {A} (m : M S A) (Q Q' : A → S → Prop) (X X' : exn → S → Prop) s :
  wp m Q' X' s → (∀ a s', Q' a s' → Q a s') → (∀ e s', X' e s' → X e s') → wp m Q X s.
Proof. unfold wp. intros H HQ HX. destruct (m s) as [[] ?]; [by apply HQ|by apply HX|done]. Qed.

Lemma wp_run {A} (m : M S A) a s s' (Q : A → S → Prop) X : m s = (Ret a, s') → Q a s' → wp m Q X s.
Proof. intros E H. unfold wp. by rewrite E. Qed.

Lemma wp_bind_run {A B} (m : M S A) (k : A → M S B) a s s' Q X :
  m s = (Ret a, s') → wp (k a) Q X s' → wp (m ≫= k) Q X s.
Proof. intros E H. apply wp_bind. by eapply wp_run. Qed.

Lemma wp_throw {A} e (Q : A → S → Prop) (X : exn → S → Prop) s : X e s → wp (throw e) Q X s.
Proof. done. Qed.

Lemma wp_catch {A} (m : M S A) h Q X s : wp m Q (λ e, wp (h e) Q X) s → wp (try_catch m h) Q X s.
Proof. unfold wp at 1 3, try_catch. by destruct (m s) as [[] ?]. Qed.

(** The invariant of a loop speaks of what is still to come. *)
Lemma wp_for_each {A} (body : A → M S unit) (I : list A → S → Prop) X l s :
  (∀ x l' s, I (x :: l') s → wp (body x) (λ _, I l') X s) → I l s → wp (for_each body l) (λ _, I []) X s.
Proof.
  intros H. revert s. induction l as [|x l IH]; intros s Hs; simpl; [by apply wp_ret|].
  apply wp_bind. eapply wp_conseq; [by apply H|intros []; apply IH|done].
Qed.
End wp.

(** ** [size_t]: 64-bit unsigned arithmetic with wrap-around, on [Z]. *)
Definition size_mod : Z := 2 ^ 64.
Definition size_max : Z := size_mod - 1.
Definition sz_wrap (z : Z) : Z := z `mod` size_mod.
Definition sz_add (a b : Z) : Z := sz_wrap (a + b).
Definition sz_sub (a b : Z) : Z := sz_wrap (a - b).
Definition sz_inc (a : Z) : Z := sz_add a 1.
Definition sz_dec (a : Z) : Z := sz_sub a 1.
Definition in_size (z : Z) : Prop := (0 ≤ z < size_mod)%Z.

Lemma sz_wrap_id z : in_size z → sz_wrap z = z.
Proof. intros H. by apply Z.mod_small. Qed.

Lemma sz_wrap_range z : in_size (sz_wrap z).
Proof. apply Z.mod_pos_bound. reflexivity. Qed.

Lemma sz_inc_id z : in_size (z + 1) → sz_inc z = (z + 1)%Z.
Proof. apply sz_wrap_id. Qed.

Lemma sz_dec_id z : in_size (z - 1) → sz_dec z = (z - 1)%Z.
Proof. apply sz_wrap_id. Qed.

(** Decrementing zero wraps to the maximum, as the unsigned C++ type does. *)
Lemma sz_dec_zero : sz_dec 0 = size_max.
Proof. reflexivity. Qed.

Lemma sz_inc_dec z : in_size z → sz_dec (sz_inc z) = z.
Proof.
  intros H. unfold sz_dec, sz_inc, sz_sub, sz_add, sz_wrap.
  rewrite Zminus_mod_idemp_l. replace (z + 1 - 1)%Z with z by lia. by apply Z.mod_small.
Qed.

#[export] Hint Resolve sz_wrap_range : aw.
#[export] Hint Rewrite sz_inc_dec using done : aw.

(** ** Lists *)
Lemma last_app_cons {A} (l1 l2 : list A) x : last (l1 ++ x :: l2) = last (x :: l2).
Proof. rewrite last_app. destruct (last (x :: l2)) eqn:E; [done|]. by apply last_None in E. Qed.

Lemma sorted_weaken {A} (R R' : relation A) l :
  (∀ x y, R x y → R' x y) → Sorted R l → Sorted R' l.
Proof.
  intros H. induction 1 as [|x l Hl IH Hx]; constructor; [done|].
  destruct Hx; constructor. by apply H.
Qed.

(** ** Counting the elements of a list *)
Definition cnt {A} (P : A → bool) (l : list A) : nat := length (List.filter P l).

#[global] Arguments cnt : simpl never.

Lemma cnt_cons {A} (P : A → bool) x l : cnt P (x :: l) = (if P x then 1 else 0) + cnt P l.
Proof. unfold cnt. cbn. by destruct (P x). Qed.

Lemma cnt_nil {A} (P : A → bool) : cnt P [] = 0.
Proof. done. Qed.

Lemma cnt_app {A} (P : A → bool) l1 l2 : cnt P (l1 ++ l2) = cnt P l1 + cnt P l2.
Proof. unfold cnt. by rewrite List.filter_app, length_app. Qed.

Lemma cnt_perm {A} (P : A → bool) l1 l2 : l1 ≡ₚ l2 → cnt P l1 = cnt P l2.
Proof. induction 1; rewrite ?cnt_cons; lia. Qed.

Lemma cnt_elem {A} (P : A → bool) x l : x ∈ l → P x = true → cnt P l ≠ 0.
Proof. intros [l' ->%(cnt_perm P)]%elem_of_Permutation Hx. rewrite cnt_cons, Hx. lia. Qed.

Lemma cnt_insert {A} (P : A → bool) (l : list A) n x y : l !! n = Some x →
  cnt P (<[n := y]> l) + (if P x then 1 else 0) = cnt P l + (if P y then 1 else 0).
Proof.
  intros Hn. pose proof (lookup_lt_Some _ _ _ Hn). rewrite <-(take_drop_middle l n x Hn) at 2. rewrite insert_take_drop by done.
  rewrite !cnt_app, !cnt_cons. lia.
Qed.

Lemma cnt_delete {A} (P : A → bool) (l : list A) k x : l !! k = Some x → cnt P l = (if P x then 1 else 0) + cnt P (delete k l).
Proof. intros Hk. rewrite <-cnt_cons. apply cnt_perm. by apply delete_Permutation. Qed.

Lemma cnt_none {A} (P : A → bool) l : (∀ x, x ∈ l → P x = false) → cnt P l = 0.
Proof. induction l as [|x l IH]; intros H; [done|]. rewrite cnt_cons, (H x) by left. apply IH. intros y ?. apply H. by right. Qed.

(** A list of lists of which one is replaced. *)
Lemma concat_insert {A} (ll : list (list A)) n l : ll !! n = Some l → ∃ c, concat ll ≡ₚ l ++ c ∧ ∀ l', concat (<[n := l']> ll) ≡ₚ l' ++ c.
Proof.
  intros Hn. pose proof (lookup_lt_Some _ _ _ Hn). exists (concat (take n ll) ++ concat (drop (S n) ll)). split; [|intros l'].
  - rewrite <-(take_drop_middle ll n l Hn) at 1. rewrite concat_app. cbn. by rewrite !app_assoc, (Permutation_app_comm _ l).
  - rewrite insert_take_drop by done. rewrite concat_app. cbn. by rewrite !app_assoc, (Permutation_app_comm _ l').
Qed.
