(* ===== verification/DispatchQueue.v ===== *)
(** * DispatchQueue: src/src/autowiring/DispatchQueue.{h,cpp} and DispatchThunk.h

    A dispatch queue is a hand-written singly linked list of thunks
    ([m_pHead], [m_pTail], [m_pFlink]) plus a priority queue of delayed thunks.
    The model keeps the pointers: thunks live at addresses of a heap, a freed or
    null pointer is [Stuck undefined_behavior] when dereferenced, and [m_count]
    is a 64-bit counter kept apart from the list as in the code.

    Lambdas are client code: [run_fx f] is what calling the lambda [f] does to
    the queue.  [steady_clock n] is the [n]-th reading of the clock.  [cv_wait]
    is one wait on [m_queueUpdated]: the lock is released, other threads act on
    the queue, and the wait returns.  Locks are not part of the state: every
    region the code runs under [m_dispatchLock] is one atomic step here. *)
From stdpp Require Import base gmap list sorting strings.
From Stdlib Require Import ZArith Lia.
From S2P Require Import Prelude.

Definition addr : Type := nat.
Definition fx : Type := nat.
Definition time_point : Type := Z.

(** [DispatchThunkBase] / [DispatchThunk<_Fx>]: the lambda and the forward link. *)
Record DispatchThunk := mkThunk { m_fx : fx; m_pFlink : option addr }.

#[export] Instance DispatchThunk_eq_dec : EqDecision DispatchThunk.
Proof. solve_decision. Defined.

(** [DispatchThunkDelayed]: ready time and owned thunk. *)
Record DispatchThunkDelayed := mkDelayed { m_readyAt : time_point; m_thunk : addr }.

(** [std::priority_queue<DispatchThunkDelayed>]: [operator<] is reversed, so
    [top] is an entry with the least ready time.  Entries are kept in the order
    in which they would be popped; among equal times the oldest comes first. *)
Fixpoint pq_push (e : DispatchThunkDelayed) (l : list DispatchThunkDelayed) :=
  match l with
  | [] => [e]
  | x :: l' => if Z.ltb (m_readyAt e) (m_readyAt x) then e :: l else x :: pq_push e l'
  end.

(** [DispatchThunkDelayed::operator<], the reversed comparison. *)
Definition DispatchThunkDelayed_lt (l r : DispatchThunkDelayed) : bool :=
  Z.ltb (m_readyAt r) (m_readyAt l).

Record DispatchQueue := mkDQ {
  onAborted : bool;
  m_dispatchCap : Z;
  m_count : Z;
  m_version : Z;
  m_pHead : option addr;
  m_pTail : option addr;
  m_delayedQueue : list DispatchThunkDelayed;
  (* the memory holding this queue's thunks, and the next address to hand out *)
  heap : gmap addr DispatchThunk;
  next_addr : addr;
  (* history: lambdas called so far, [notify_all] calls, clock readings *)
  called : list fx;
  notified : nat;
  reads : nat }.

Definition set_aborted b q := mkDQ b (m_dispatchCap q) (m_count q) (m_version q) (m_pHead q) (m_pTail q) (m_delayedQueue q) (heap q) (next_addr q) (called q) (notified q) (reads q).
Definition set_cap c q := mkDQ (onAborted q) c (m_count q) (m_version q) (m_pHead q) (m_pTail q) (m_delayedQueue q) (heap q) (next_addr q) (called q) (notified q) (reads q).
Definition set_count c q := mkDQ (onAborted q) (m_dispatchCap q) c (m_version q) (m_pHead q) (m_pTail q) (m_delayedQueue q) (heap q) (next_addr q) (called q) (notified q) (reads q).
Definition set_version v q := mkDQ (onAborted q) (m_dispatchCap q) (m_count q) v (m_pHead q) (m_pTail q) (m_delayedQueue q) (heap q) (next_addr q) (called q) (notified q) (reads q).
Definition set_head p q := mkDQ (onAborted q) (m_dispatchCap q) (m_count q) (m_version q) p (m_pTail q) (m_delayedQueue q) (heap q) (next_addr q) (called q) (notified q) (reads q).
Definition set_tail p q := mkDQ (onAborted q) (m_dispatchCap q) (m_count q) (m_version q) (m_pHead q) p (m_delayedQueue q) (heap q) (next_addr q) (called q) (notified q) (reads q).
Definition set_delayed d q := mkDQ (onAborted q) (m_dispatchCap q) (m_count q) (m_version q) (m_pHead q) (m_pTail q) d (heap q) (next_addr q) (called q) (notified q) (reads q).
Definition set_heap h q := mkDQ (onAborted q) (m_dispatchCap q) (m_count q) (m_version q) (m_pHead q) (m_pTail q) (m_delayedQueue q) h (next_addr q) (called q) (notified q) (reads q).
Definition set_next n q := mkDQ (onAborted q) (m_dispatchCap q) (m_count q) (m_version q) (m_pHead q) (m_pTail q) (m_delayedQueue q) (heap q) n (called q) (notified q) (reads q).
Definition set_called l q := mkDQ (onAborted q) (m_dispatchCap q) (m_count q) (m_version q) (m_pHead q) (m_pTail q) (m_delayedQueue q) (heap q) (next_addr q) l (notified q) (reads q).
Definition set_notified n q := mkDQ (onAborted q) (m_dispatchCap q) (m_count q) (m_version q) (m_pHead q) (m_pTail q) (m_delayedQueue q) (heap q) (next_addr q) (called q) n (reads q).
Definition set_reads n q := mkDQ (onAborted q) (m_dispatchCap q) (m_count q) (m_version q) (m_pHead q) (m_pTail q) (m_delayedQueue q) (heap q) (next_addr q) (called q) (notified q) n.

(** [DispatchQueue(void)] and [DispatchQueue(size_t)]. *)
Definition DispatchQueue_cap (dispatchCap : Z) : DispatchQueue :=
  mkDQ false dispatchCap 0 1 None None [] ∅ 0 [] 0 0.
Definition DispatchQueue_new : DispatchQueue := DispatchQueue_cap 1024.

Inductive cv_status := no_timeout | timeout.

Section DispatchQueue.
  Context (run_fx : fx → M DispatchQueue unit).
  Context (OnPended : M DispatchQueue unit).
  Context (steady_clock : nat → time_point).

(** ** Memory *)

(** [new DispatchThunk<_Fx>(fx)]: the link starts null. *)
Definition new_thunk (f : fx) : M DispatchQueue addr := λ q,
  (Ret (next_addr q),
   set_next (S (next_addr q)) (set_heap (<[next_addr q := mkThunk f None]> (heap q)) q)).

(** [p->m_pFlink]. *)
Definition load_flink (p : addr) : M DispatchQueue (option addr) :=
  q ← get; t ← deref (heap q !! p); mret (m_pFlink t).

(** [p->m_pFlink = v]. *)
Definition store_flink (p : addr) (v : option addr) : M DispatchQueue unit :=
  q ← get; t ← deref (heap q !! p);
  put (set_heap (<[p := mkThunk (m_fx t) v]> (heap q)) q).

(** [delete p]. *)
Definition delete_thunk (p : addr) : M DispatchQueue unit :=
  q ← get; _ ← deref (heap q !! p); put (set_heap (delete p (heap q)) q).

(** [( *p )()]. *)
Definition call_thunk (p : addr) : M DispatchQueue unit :=
  q ← get; t ← deref (heap q !! p);
  put (set_called (called q ++ [m_fx t]) q);; run_fx (m_fx t).

Definition notify_all : M DispatchQueue unit := modify (λ q, set_notified (S (notified q)) q).

Definition now : M DispatchQueue time_point := λ q,
  (Ret (steady_clock (reads q)), set_reads (S (reads q)) q).

(** [for (cur = p; cur;) { next = cur->m_pFlink; delete cur; cur = next; }],
    counting the entries it traverses. *)
Fixpoint delete_chain (fuel : nat) (p : option addr) : M DispatchQueue Z :=
  match p with
  | None => mret 0%Z
  | Some cur =>
    match fuel with
    | 0 => stuck out_of_fuel
    | S fuel' => next ← load_flink cur; delete_thunk cur;;
                 n ← delete_chain fuel' next; mret (sz_inc n)
    end
  end.

(** [~DispatchQueue]: frees the ready list, then the priority queue's thunks. *)
Definition DispatchQueue_dtor (fuel : nat) : M DispatchQueue unit :=
  q ← get; _ ← delete_chain fuel (m_pHead q);
  q ← get; for_each (λ d, delete_thunk (m_thunk d)) (m_delayedQueue q).

(** ** Pending *)

(** Linked-list insertion at the tail shared by the pending operations. *)
Definition PendExisting (thunk : addr) : M DispatchQueue unit :=
  modify (λ q, set_count (sz_inc (m_count q)) q);;
  q ← get;
  match m_pHead q with
  | Some _ => tail ← deref (m_pTail q); store_flink tail (Some thunk)
  | None => modify (set_head (Some thunk));; notify_all
  end;;
  modify (set_tail (Some thunk));;
  OnPended.

Definition Pend (f : fx) : M DispatchQueue unit :=
  thunk ← new_thunk f; PendExisting thunk.

Definition AddExisting (thunk : addr) : M DispatchQueue unit :=
  q ← get;
  if Z.ltb (m_count q) (m_dispatchCap q) then PendExisting thunk
  else delete_thunk thunk.

(** [template<class _Fx> bool operator+=(_Fx&& fx)]. *)
Definition operator_pend (f : fx) : M DispatchQueue bool :=
  thunk ← new_thunk f;
  q ← get;
  if Z.leb (m_dispatchCap q) (m_count q) then
    delete_thunk thunk;; mret false
  else
    modify (λ q, set_count (sz_inc (m_count q)) q);;
    q ← get;
    match m_pHead q with
    | Some _ =>
      tail ← deref (m_pTail q); store_flink tail (Some thunk);;
      modify (set_tail (Some thunk));; OnPended
    | None =>
      modify (λ q, set_head (Some thunk) (set_tail (Some thunk) q));;
      OnPended;; notify_all
    end;;
    mret true.

(** [void operator+=(DispatchThunkDelayed&& rhs)]. *)
Definition operator_pend_delayed (readyAt : time_point) (thunk : addr) : M DispatchQueue unit :=
  modify (λ q, set_delayed (pq_push (mkDelayed readyAt thunk) (m_delayedQueue q)) q);;
  q ← get;
  top ← deref (head (m_delayedQueue q));
  when (Z.eqb (m_readyAt top) readyAt && Z.eqb (m_count q) 0) notify_all.

(** [DispatchThunkDelayedExpressionAbs::operator,]. *)
Definition DelayedExpressionAbs (wakeup : time_point) (f : fx) : M DispatchQueue unit :=
  thunk ← new_thunk f; operator_pend_delayed wakeup thunk.

(** [DispatchThunkDelayedExpressionRel::operator,]: a zero delay is an ordinary pend. *)
Definition DelayedExpressionRel (delay : Z) (f : fx) : M DispatchQueue unit :=
  if Z.eqb delay 0 then _ ← operator_pend f; mret tt
  else t ← now; thunk ← new_thunk f; operator_pend_delayed (t + delay)%Z thunk.

(** ** Dispatching *)

(** The [for] loop of [PromoteReadyDispatchersUnsafe]: [t] is the one clock reading. *)
Fixpoint promote_loop (t : time_point) (d : list DispatchThunkDelayed) : M DispatchQueue unit :=
  match d with
  | [] => mret tt
  | top :: d' =>
    if Z.ltb (m_readyAt top) t then
      q ← get;
      match m_pHead q with
      | Some _ => tail ← deref (m_pTail q); store_flink tail (Some (m_thunk top))
      | None => modify (set_head (Some (m_thunk top)))
      end;;
      modify (λ q, set_delayed d' (set_count (sz_inc (m_count q)) (set_tail (Some (m_thunk top)) q)));;
      promote_loop t d'
    else mret tt
  end.

Definition PromoteReadyDispatchersUnsafe : M DispatchQueue bool :=
  q ← get;
  t ← now;
  promote_loop t (m_delayedQueue q);;
  q' ← get;
  mret (negb (Nat.eqb (length (m_delayedQueue q)) (length (m_delayedQueue q')))).

(** [if (!--m_count) notify_all()]. *)
Definition release_count : M DispatchQueue unit :=
  modify (λ q, set_count (sz_dec (m_count q)) q);;
  q ← get; when (Z.eqb (m_count q) 0) notify_all.

Definition DispatchEventUnsafe : M DispatchQueue unit :=
  q ← get;
  thunk ← deref (m_pHead q);
  next ← load_flink thunk;
  modify (set_head next);;
  at_exit (delete_thunk thunk) (at_exit release_count (call_thunk thunk)).

Definition TryDispatchEventUnsafe : M DispatchQueue unit :=
  q ← get;
  pThunk ← deref (m_pHead q);
  next ← load_flink pThunk;
  modify (set_head next);;
  try_catch (call_thunk pThunk)
    (λ e, q ← get; store_flink pThunk (m_pHead q);;
          modify (set_head (Some pThunk));; throw e);;
  release_count;;
  delete_thunk pThunk.

(** [!m_pHead && !PromoteReadyDispatchersUnsafe()], short-circuiting. *)
Definition nothing_ready : M DispatchQueue bool :=
  q ← get;
  match m_pHead q with
  | Some _ => mret false
  | None => b ← PromoteReadyDispatchersUnsafe; mret (negb b)
  end.

Definition DispatchEvent : M DispatchQueue bool :=
  b ← nothing_ready;
  if b : bool then mret false else DispatchEventUnsafe;; mret true.

Definition TryDispatchEvent : M DispatchQueue bool :=
  b ← nothing_ready;
  if b : bool then mret false else TryDispatchEventUnsafe;; mret true.

Fixpoint DispatchAllEvents (fuel : nat) : M DispatchQueue Z :=
  match fuel with
  | 0 => stuck out_of_fuel
  | S fuel' => b ← DispatchEvent;
               if b : bool then n ← DispatchAllEvents fuel'; mret (n + 1)%Z else mret 0%Z
  end.

(** ** Aborting *)

(** The dispatcher loop of [ClearQueueInternal].  The result is the value of
    [pHead] when the loop ends: null when the chain is exhausted, the thunk that
    threw when a foreign exception breaks out.  The handler that swallows a
    [dispatch_aborted_exception] runs before [pHead] is advanced. *)
Fixpoint rundown_loop (fuel : nat) (pHead : option addr) : M DispatchQueue (option addr) :=
  match pHead with
  | None => mret None
  | Some p =>
    match fuel with
    | 0 => stuck out_of_fuel
    | S fuel' =>
      r ← try_catch
        (next ← load_flink p; call_thunk p;; delete_thunk p;;
         modify (λ q, set_count (sz_dec (m_count q)) q);; mret (Some next))
        (λ e, match e with
              | dispatch_aborted_exception _ => mret (Some (Some p))
              | _ => mret None
              end);
      match r with
      | Some pHead' => rundown_loop fuel' pHead'
      | None => mret (Some p)
      end
    end
  end.

Definition ClearQueueInternal (fuel : nat) (executeDispatchers : bool) : M DispatchQueue unit :=
  q ← get;
  let pHead := m_pHead q in
  let delayedQueue := m_delayedQueue q in
  put (set_delayed [] (set_tail None (set_head None (set_cap 0 (set_aborted true q)))));;
  for_each (λ d, delete_thunk (m_thunk d)) delayedQueue;;
  pHead ← (if executeDispatchers then rundown_loop fuel pHead else mret pHead);
  nTraversed ← delete_chain fuel pHead;
  modify (λ q, set_count (sz_sub (m_count q) nTraversed) q);;
  notify_all.

Definition Abort (fuel : nat) : M DispatchQueue unit := ClearQueueInternal fuel false.
Definition Rundown (fuel : nat) : M DispatchQueue unit := ClearQueueInternal fuel true.

Definition Cancel : M DispatchQueue bool :=
  q ← get;
  match m_pHead q with
  | Some p =>
    next ← load_flink p;
    modify (λ q, set_count (sz_dec (m_count q)) (set_head next q));;
    delete_thunk p;; mret true
  | None =>
    match m_delayedQueue q with
    | f :: d' => modify (set_delayed d');; delete_thunk (m_thunk f);; mret true
    | [] => mret false
    end
  end.

(** [AreAnyDispatchersReady], [GetDispatchQueueLength]. *)
Definition AreAnyDispatchersReady (q : DispatchQueue) : bool := bool_decide (is_Some (m_pHead q)).
Definition GetDispatchQueueLength (q : DispatchQueue) : Z :=
  sz_add (m_count q) (Z.of_nat (length (m_delayedQueue q))).

Definition WakeAllWaitingThreads : M DispatchQueue unit :=
  modify (λ q, set_version (sz_inc (m_version q)) q);; notify_all.

(** ** Waiting *)
Context (cv_wait : option time_point → M DispatchQueue cv_status).

Definition SuggestSoonestWakeupTimeUnsafe (latestTime : time_point) (q : DispatchQueue) : time_point :=
  match m_delayedQueue q with
  | [] => latestTime
  | top :: _ => Z.min (m_readyAt top) latestTime
  end.

Fixpoint wait_loop (fuel : nat) (wakeTime : time_point) : M DispatchQueue bool :=
  q ← get;
  match m_pHead q with
  | Some _ => mret true
  | None =>
    match fuel with
    | 0 => stuck out_of_fuel
    | S fuel' =>
      let wakeTime := SuggestSoonestWakeupTimeUnsafe wakeTime q in
      status ← cv_wait (Some wakeTime);
      q ← get;
      if onAborted q then
        throw (dispatch_aborted_exception "Dispatch queue was aborted while waiting for an event")
      else
        promoted ← PromoteReadyDispatchersUnsafe;
        if promoted : bool then mret true
        else match status with
             | timeout => mret false
             | no_timeout => wait_loop fuel' wakeTime
             end
    end
  end.

Definition WaitForEventUnsafe (fuel : nat) (wakeTime : time_point) : M DispatchQueue bool :=
  q ← get;
  if onAborted q then
    throw (dispatch_aborted_exception "Dispatch queue was aborted prior to waiting for an event")
  else
    ready ← wait_loop fuel wakeTime;
    if ready : bool then DispatchEventUnsafe;; mret true else mret false.

(** The predicate loop of [m_queueUpdated.wait(lk, pred)] in [WaitForEvent(void)]. *)
Fixpoint wait_unbounded (fuel : nat) (version : Z) : M DispatchQueue unit :=
  q ← get;
  if onAborted q then
    throw (dispatch_aborted_exception "Dispatch queue was aborted while waiting for an event")
  else if negb (bool_decide (m_delayedQueue q = [])) || bool_decide (is_Some (m_pHead q))
          || negb (Z.eqb version (m_version q)) then mret tt
  else match fuel with
       | 0 => stuck blocked
       | S fuel' => cv_wait None;; wait_unbounded fuel' version
       end.

Definition WaitForEvent (fuel : nat) : M DispatchQueue unit :=
  q ← get;
  if onAborted q then
    throw (dispatch_aborted_exception "Dispatch queue was aborted prior to waiting for an event")
  else
    wait_unbounded fuel (m_version q);;
    q ← get;
    match m_pHead q with
    | Some _ => DispatchEventUnsafe
    | None => match m_delayedQueue q with
              | top :: _ => _ ← WaitForEventUnsafe fuel (m_readyAt top); mret tt
              | [] => mret tt
              end
    end.

(** [WaitForEvent(time_point)]: [time_point::max()] means no deadline. *)
Definition WaitForEventUntil (time_max : time_point) (fuel : nat) (wakeTime : time_point)
    : M DispatchQueue bool :=
  if Z.eqb wakeTime time_max then WaitForEvent fuel;; mret true
  else WaitForEventUnsafe fuel wakeTime.

(** [WaitForEvent(std::chrono::milliseconds)]. *)
Definition WaitForEventFor (time_max : time_point) (fuel : nat) (delay : Z)
    : M DispatchQueue bool :=
  t ← now; WaitForEventUntil time_max fuel (t + delay)%Z.

(** The lambda [f] that a barrier pends sets [*complete]: it was called since
    the history had length [n]. *)
Definition complete (f : fx) (n : nat) (q : DispatchQueue) : bool :=
  bool_decide (f ∈ drop n (called q)).

(** [m_queueUpdated.wait_for(lk, timeout, pred)] and [m_queueUpdated.wait(lk, pred)]. *)
Fixpoint wait_pred (fuel : nat) (deadline : option time_point) (pred : DispatchQueue → bool)
    : M DispatchQueue bool :=
  q ← get;
  if pred q then mret true
  else match fuel with
       | 0 => stuck blocked
       | S fuel' =>
         status ← cv_wait deadline;
         match status with
         | timeout => q ← get; mret (pred q)
         | no_timeout => wait_pred fuel' deadline pred
         end
       end.

(** [bool Barrier(std::chrono::nanoseconds)], pending the lambda [f]. *)
Definition Barrier_for (fuel : nat) (f : fx) (delay : Z) : M DispatchQueue bool :=
  q ← get;
  if Z.eqb delay 0 then mret (Z.eqb (m_count q) 0)
  else if onAborted q then
    throw (dispatch_aborted_exception "Dispatch queue was aborted before a timed wait was attempted")
  else
    thunk ← new_thunk f;
    PendExisting thunk;;
    t ← now;
    rv ← wait_pred fuel (Some (t + delay)%Z) (λ s, onAborted s || complete f (length (called q)) s);
    q' ← get;
    if onAborted q' then
      throw (dispatch_aborted_exception "Dispatch queue was aborted during a timed wait")
    else mret rv.

(** [void Barrier(void)], pending the lambda [f]. *)
Definition Barrier (fuel : nat) (f : fx) : M DispatchQueue unit :=
  q ← get;
  _ ← operator_pend f;
  _ ← wait_pred fuel None (λ s, onAborted s || complete f (length (called q)) s);
  q' ← get;
  if onAborted q' then
    throw (dispatch_aborted_exception "Dispatch queue was aborted while a barrier was invoked")
  else mret tt.
End DispatchQueue.

(** ** Merging: [void operator+=(DispatchQueue&& rhs)]

    Both queues' thunks live in one memory; [lhs] takes over [rhs]'s part. *)
Definition operator_append (OnPended : M DispatchQueue unit) (rhs : DispatchQueue)
    : M DispatchQueue DispatchQueue :=
  modify (λ q, set_next (max (next_addr q) (next_addr rhs)) (set_heap (heap q ∪ heap rhs) q));;
  q ← get;
  match m_pHead q with
  | Some _ => tail ← deref (m_pTail q); store_flink tail (m_pHead rhs)
  | None => modify (set_head (m_pHead rhs))
  end;;
  modify (λ q, set_count (sz_add (m_count q) (m_count rhs)) (set_tail (m_pTail rhs) q));;
  for_each (λ d, modify (λ q, set_delayed (pq_push d (m_delayedQueue q)) q)) (m_delayedQueue rhs);;
  notify_all;;
  OnPended;;
  mret (set_heap ∅ (set_delayed [] (set_count 0 (set_tail None (set_head None rhs))))).

(** [DispatchQueue(DispatchQueue&& q)]. *)
Definition DispatchQueue_move (OnPended : M DispatchQueue unit) (q : DispatchQueue)
    : outcome DispatchQueue * DispatchQueue :=
  let self := set_aborted (onAborted q) (DispatchQueue_cap (m_dispatchCap q)) in
  if onAborted self then (Ret q, self) else operator_append OnPended q self.
