(* ===== verification/DispatchQueueFacts.v ===== *)
(** * DispatchQueue: invariant, FIFO refinement and the behaviours it excludes

    [dq_wf E ids q] relates the pointer-level queue [q] to the list [ids] of the
    addresses it holds in order; [E] are the thunks taken off the list whose
    call is still under way.  The list is the specification: pending appends to
    it and dispatching takes its first element. *)
From stdpp Require Import base gmap list sorting strings.
From Stdlib Require Import ZArith Lia.
From S2P Require Import Prelude.
From S2P Require Import DispatchQueue.

(** ** Chains of [m_pFlink] *)
Fixpoint chain (h : gmap addr DispatchThunk) (p : option addr) (l : list addr) : Prop :=
  match l with
  | [] => p = None
  | a :: l' => p = Some a ∧ ∃ t, h !! a = Some t ∧ chain h (m_pFlink t) l'
  end.

Lemma chain_live h p l a : chain h p l → a ∈ l → is_Some (h !! a).
Proof.
  revert p. induction l as [|b l IH]; intros p; simpl; [by intros _ ?%elem_of_nil|].
  intros (-> & t & Ht & Hc) [->|Ha]%elem_of_cons; [by eexists|by eapply IH].
Qed.

Lemma chain_insert h p l a t : a ∉ l → chain (<[a:=t]> h) p l ↔ chain h p l.
Proof.
  revert p. induction l as [|b l IH]; intros p Hn; simpl; [done|].
  apply not_elem_of_cons in Hn as [Hab Hn].
  rewrite lookup_insert_ne by done. split; intros (-> & t' & Ht & Hc);
    (split; [done|]); exists t'; (split; [done|]); by apply IH.
Qed.

Lemma chain_delete h p l a : a ∉ l → chain (delete a h) p l ↔ chain h p l.
Proof.
  revert p. induction l as [|b l IH]; intros p Hn; simpl; [done|].
  apply not_elem_of_cons in Hn as [Hab Hn].
  rewrite lookup_delete_ne by done. split; intros (-> & t' & Ht & Hc);
    (split; [done|]); exists t'; (split; [done|]); by apply IH.
Qed.

Lemma chain_agree h h' p l : (∀ a, a ∈ l → h' !! a = h !! a) → chain h p l → chain h' p l.
Proof.
  revert p. induction l as [|b l IH]; intros p Ha; simpl; [done|].
  intros (-> & t & Ht & Hc). split; [done|]. exists t. split; [by rewrite Ha by left|].
  apply IH; [|done]. intros a Hin. apply Ha. by right.
Qed.

(** Storing a link to a fresh terminal thunk at the last element appends it. *)
Lemma chain_append h p l tl tt_ t f :
  chain h p l → NoDup l → last l = Some tl → h !! tl = Some tt_ →
  h !! t = Some (mkThunk f None) → t ∉ l →
  chain (<[tl := mkThunk (m_fx tt_) (Some t)]> h) p (l ++ [t]).
Proof.
  revert p. induction l as [|a l IH]; intros p Hc Hnd Hl Htl Ht Hn; [done|].
  apply not_elem_of_cons in Hn as [Hta Hn]. apply NoDup_cons in Hnd as [Hal Hnd].
  destruct Hc as (-> & ta & Ha & Hc). simpl. split; [done|].
  destruct l as [|b l].
  - injection Hl as ->. simpl in Hc. rewrite lookup_insert_eq.
    eexists. split; [done|]. simpl. split; [done|].
    rewrite lookup_insert_ne by done. by exists (mkThunk f None).
  - assert (a ≠ tl) as Hne.
    { intros ->. apply Hal. apply (last_Some_elem_of (b :: l)). done. }
    rewrite lookup_insert_ne by done. exists ta. split; [done|]. by apply IH.
Qed.

(** ** The invariant *)
Definition delayed_addrs (q : DispatchQueue) : list addr := map m_thunk (m_delayedQueue q).

Record dq_wf (E : gmap addr DispatchThunk) (ids : list addr) (q : DispatchQueue) : Prop := {
  wf_chain : chain (heap q) (m_pHead q) ids;
  wf_tail : ids ≠ [] → m_pTail q = last ids;
  wf_nodup : NoDup (ids ++ delayed_addrs q);
  wf_delayed : ∀ a, a ∈ delayed_addrs q → ∃ f, heap q !! a = Some (mkThunk f None);
  wf_sorted : Sorted Z.le (map m_readyAt (m_delayedQueue q));
  wf_inflight : E ⊆ heap q;
  wf_disj : ∀ a, a ∈ ids ++ delayed_addrs q → E !! a = None;
  wf_count : m_count q = sz_wrap (Z.of_nat (length ids + size E));
  wf_fresh : ∀ a, is_Some (heap q !! a) → a < next_addr q }.

(** Closes a goal that is a field of a known invariant. *)
Ltac use_wf Hw :=
  first [ apply (wf_chain _ _ _ Hw) | apply (wf_tail _ _ _ Hw) | apply (wf_nodup _ _ _ Hw)
        | apply (wf_delayed _ _ _ Hw) | apply (wf_sorted _ _ _ Hw) | apply (wf_inflight _ _ _ Hw)
        | apply (wf_disj _ _ _ Hw) | apply (wf_count _ _ _ Hw) | apply (wf_fresh _ _ _ Hw) ].

(** What client code may rely on and must re-establish. *)
Definition dq_inv (E : gmap addr DispatchThunk) (q : DispatchQueue) : Prop := ∃ ids, dq_wf E ids q.
Definition dq_safe {A} (m : M DispatchQueue A) : Prop := ∀ E, safe (dq_inv E) m.

Lemma wf_head E ids q : dq_wf E ids q → m_pHead q = head ids.
Proof. intros [Hc]. by destruct ids; simpl in Hc; [|destruct Hc]. Qed.

(** Fields outside the structure may change freely. *)
Lemma dq_wf_frame E ids q q' :
  dq_wf E ids q →
  m_pHead q' = m_pHead q → m_pTail q' = m_pTail q → m_delayedQueue q' = m_delayedQueue q →
  heap q' = heap q → m_count q' = m_count q → next_addr q ≤ next_addr q' →
  dq_wf E ids q'.
Proof.
  intros [] Hh Ht Hd Hp Hc Hn. unfold delayed_addrs in *.
  split; unfold delayed_addrs; rewrite ?Hh, ?Ht, ?Hd, ?Hp, ?Hc; eauto.
  intros a Ha. eapply Nat.lt_le_trans; [by apply wf_fresh0|done].
Qed.

(** A live thunk that belongs to nobody: freshly allocated, or being moved. *)
Record loose (E : gmap addr DispatchThunk) (ids : list addr) (t : addr) (q : DispatchQueue) : Prop := {
  loose_heap : ∃ f, heap q !! t = Some (mkThunk f None);
  loose_ids : t ∉ ids ++ delayed_addrs q;
  loose_E : E !! t = None }.

Lemma sz_wrap_add_l a b : sz_wrap (sz_wrap a + b) = sz_wrap (a + b).
Proof. unfold sz_wrap. apply Zplus_mod_idemp_l. Qed.

Lemma sz_wrap_sub_l a b : sz_wrap (sz_wrap a - b) = sz_wrap (a - b).
Proof. unfold sz_wrap. apply Zminus_mod_idemp_l. Qed.

(** ** Appending *)

(** The state after a thunk was linked at the tail and counted. *)
Definition linked (t : addr) (q : DispatchQueue) : DispatchQueue :=
  set_count (sz_inc (m_count q))
    (set_tail (Some t)
       match m_pHead q, m_pTail q with
       | Some _, Some tl =>
         match heap q !! tl with
         | Some tt_ => set_heap (<[tl := mkThunk (m_fx tt_) (Some t)]> (heap q)) q
         | None => q
         end
       | _, _ => set_head (Some t) q
       end).

Lemma wf_tail_live E ids q :
  dq_wf E ids q → ids ≠ [] →
  ∃ tl tt_, last ids = Some tl ∧ m_pTail q = Some tl ∧ heap q !! tl = Some tt_ ∧ tl ∈ ids.
Proof.
  intros Hw Hne. destruct (last ids) as [tl|] eqn:Hl; [|by apply last_None in Hl].
  assert (tl ∈ ids) as Hin by by apply last_Some_elem_of.
  destruct (chain_live _ _ _ _ (wf_chain _ _ _ Hw) Hin) as [t Ht].
  exists tl, t. split_and!; [done|by rewrite (wf_tail _ _ _ Hw)|done|done].
Qed.

Lemma wf_linked E ids q t :
  dq_wf E ids q → loose E ids t q → dq_wf E (ids ++ [t]) (linked t q).
Proof.
  intros Hw [[f Ht] Hn HE].
  apply not_elem_of_app in Hn as [Hn Hnd].
  pose proof (wf_nodup _ _ _ Hw) as Hnodup. apply NoDup_app in Hnodup as (Hnd1 & Hsep & Hnd2).
  assert (NoDup ((ids ++ [t]) ++ delayed_addrs q)) as Hnd'.
  { rewrite <-app_assoc. apply NoDup_app. split; [done|]. split.
    - intros x Hx [->%list_elem_of_singleton|Hxd]%elem_of_app; [done|]. by apply (Hsep x).
    - simpl. by apply NoDup_cons. }
  assert (sz_inc (m_count q) = sz_wrap (Z.of_nat (length (ids ++ [t]) + size E))) as Hcount.
  { rewrite (wf_count _ _ _ Hw). unfold sz_inc, sz_add. rewrite sz_wrap_add_l.
    f_equal. rewrite length_app. simpl. lia. }
  assert (∀ a, a ∈ (ids ++ [t]) ++ delayed_addrs q → E !! a = None) as Hdisj.
  { intros a. rewrite !elem_of_app, list_elem_of_singleton.
    intros [[Ha| ->]|Ha]; [|done|]; apply (wf_disj _ _ _ Hw), elem_of_app; auto. }
  destruct (decide (ids = [])) as [->|Hne].
  - pose proof (wf_head _ _ _ Hw) as Hhead. simpl in Hhead.
    unfold linked. rewrite Hhead. split; simpl; try done; try use_wf Hw.
    split; [done|]. by exists (mkThunk f None).
  - destruct (wf_tail_live _ _ _ Hw Hne) as (tl & tt_ & Hl & Htl & Hlive & Htlin).
    destruct ids as [|a ids]; [done|].
    pose proof (wf_head _ _ _ Hw) as Hhead. simpl in Hhead.
    unfold linked. rewrite Hhead, Htl, Hlive.
    assert (tl ∉ delayed_addrs q) as Htld by by apply Hsep.
    assert (E !! tl = None) as HEtl.
    { apply (wf_disj _ _ _ Hw). apply elem_of_app. by left. }
    split; simpl; try done.
    + apply (chain_append _ _ (a :: ids) _ _ _ f); try done. apply (wf_chain _ _ _ Hw).
    + intros _. symmetry. apply (last_snoc t (a :: ids)).
    + intros x Hx. destruct (decide (x = tl)) as [->|]; [done|].
      rewrite lookup_insert_ne by done. by apply (wf_delayed _ _ _ Hw).
    + apply (wf_sorted _ _ _ Hw).
    + apply insert_subseteq_r; [done|]. apply (wf_inflight _ _ _ Hw).
    + intros x Hx. apply (wf_fresh _ _ _ Hw).
      destruct (decide (x = tl)) as [->|]; [by eexists|]. by rewrite lookup_insert_ne in Hx.
Qed.

(** ** Taking the head *)
Lemma wf_pop E t ids q th :
  dq_wf E (t :: ids) q → heap q !! t = Some th →
  dq_wf (<[t:=th]> E) ids (set_head (m_pFlink th) q).
Proof.
  intros Hw Ht.
  pose proof (wf_nodup _ _ _ Hw) as Hnd. simpl in Hnd. apply NoDup_cons in Hnd as [Hnin Hnd].
  assert (E !! t = None) as HE by (apply (wf_disj _ _ _ Hw); left).
  destruct (wf_chain _ _ _ Hw) as (Hh & t' & Ht' & Hc). simplify_eq.
  split; simpl; try done; try use_wf Hw.
  - intros Hne. rewrite (wf_tail _ _ _ Hw) by done. by destruct ids.
  - apply insert_subseteq_l; [done|]. use_wf Hw.
  - intros a Ha. rewrite lookup_insert_ne; [apply (wf_disj _ _ _ Hw); by right|].
    by intros ->.
  - rewrite (wf_count _ _ _ Hw). f_equal. rewrite map_size_insert_None by done. simpl. lia.
Qed.

(** The call is over: the count drops and the thunk is freed. *)
Lemma wf_finish E t th ids q :
  dq_wf (<[t:=th]> E) ids q → E !! t = None →
  dq_wf E ids (set_heap (delete t (heap q)) (set_count (sz_dec (m_count q)) q)).
Proof.
  intros Hw HE.
  assert (∀ a, a ∈ ids ++ delayed_addrs q → a ≠ t ∧ E !! a = None) as Hsep.
  { intros a Ha. pose proof (wf_disj _ _ _ Hw a Ha) as H.
    rewrite lookup_insert in H. by case_decide. }
  split; simpl; try use_wf Hw.
  - apply chain_delete; [|use_wf Hw]. intros Hin. by destruct (Hsep t (proj2 (elem_of_app _ _ _) (or_introl Hin))).
  - intros a Ha. rewrite lookup_delete_ne; [by apply (wf_delayed _ _ _ Hw)|].
    by destruct (Hsep a (proj2 (elem_of_app _ _ _) (or_intror Ha))).
  - apply map_subseteq_spec. intros a x Ha. destruct (decide (a = t)) as [->|]; [congruence|].
    rewrite lookup_delete_ne by done. apply (lookup_weaken (<[t:=th]> E)); [|use_wf Hw].
    by rewrite lookup_insert_ne.
  - intros a Ha. by apply Hsep.
  - rewrite (wf_count _ _ _ Hw). unfold sz_dec, sz_sub. rewrite sz_wrap_sub_l. f_equal.
    rewrite map_size_insert_None by done. lia.
  - intros a [x Ha]. rewrite lookup_delete_Some in Ha. apply (wf_fresh _ _ _ Hw). by exists x; apply Ha.
Qed.

(** Freeing a thunk nobody owns. *)
Lemma wf_delete_loose E ids q t :
  dq_wf E ids q → loose E ids t q → dq_wf E ids (set_heap (delete t (heap q)) q).
Proof.
  intros Hw [_ Hn HE]. split; simpl; try use_wf Hw.
  - apply chain_delete; [|use_wf Hw]. intros Hin. by apply Hn, elem_of_app; left.
  - intros a Ha. rewrite lookup_delete_ne; [by apply (wf_delayed _ _ _ Hw)|].
    intros ->. by apply Hn, elem_of_app; right.
  - apply map_subseteq_spec. intros a x Ha. rewrite lookup_delete_ne by congruence.
    apply (lookup_weaken E); [done|use_wf Hw].
  - intros a [x Ha]. rewrite lookup_delete_Some in Ha. apply (wf_fresh _ _ _ Hw). by exists x; apply Ha.
Qed.

(** [new] yields a loose thunk. *)
Lemma wf_new E ids q f :
  dq_wf E ids q →
  let q' := (new_thunk f q).2 in
  dq_wf E ids q' ∧ loose E ids (next_addr q) q'.
Proof.
  intros Hw q'.
  assert (∀ a, is_Some (heap q !! a) → a ≠ next_addr q) as Hf.
  { intros a Ha. pose proof (wf_fresh _ _ _ Hw a Ha). lia. }
  assert (E !! next_addr q = None) as HE.
  { apply eq_None_not_Some. intros [x Hx]. apply (Hf (next_addr q)); [|done].
    exists x. apply (lookup_weaken E); [done|use_wf Hw]. }
  assert (next_addr q ∉ ids) as Hi.
  { intros Hin. apply (Hf (next_addr q)); [|done]. eapply chain_live; [use_wf Hw|done]. }
  assert (next_addr q ∉ delayed_addrs q) as Hd.
  { intros Hin. destruct (wf_delayed _ _ _ Hw _ Hin) as [g Hg]. by apply (Hf (next_addr q)). }
  split.
  - split; simpl; try use_wf Hw.
    + apply chain_insert; [done|use_wf Hw].
    + intros a Ha. rewrite lookup_insert_ne; [by apply (wf_delayed _ _ _ Hw)|]. by intros <-.
    + apply insert_subseteq_r; [done|use_wf Hw].
    + intros a. rewrite lookup_insert. case_decide; [subst; lia|].
      intros Ha. pose proof (wf_fresh _ _ _ Hw a Ha). lia.
  - split; simpl; [|by apply not_elem_of_app|done]. exists f. by rewrite lookup_insert_eq.
Qed.

(** ** Delayed thunks *)
Lemma pq_push_perm e l : pq_push e l ≡ₚ e :: l.
Proof.
  induction l as [|x l IH]; simpl; [done|]. destruct (Z.ltb _ _); [done|].
  rewrite IH. by constructor.
Qed.

Lemma pq_push_sorted e l :
  Sorted Z.le (map m_readyAt l) → Sorted Z.le (map m_readyAt (pq_push e l)).
Proof.
  induction l as [|x l IH]; simpl; intros Hs; [by repeat constructor|].
  destruct (Z.ltb_spec (m_readyAt e) (m_readyAt x)); simpl.
  - constructor; [done|]. constructor. lia.
  - apply Sorted_inv in Hs as [Hs Hx]. constructor; [by apply IH|].
    destruct l as [|y l]; simpl in *; [constructor; lia|].
    destruct (Z.ltb _ _); simpl; constructor; [lia|by inversion Hx].
Qed.

Lemma wf_pend_delayed E ids q r t :
  dq_wf E ids q → loose E ids t q →
  dq_wf E ids (set_delayed (pq_push (mkDelayed r t) (m_delayedQueue q)) q).
Proof.
  intros Hw [Hl Hn HE].
  assert (map m_thunk (pq_push (mkDelayed r t) (m_delayedQueue q)) ≡ₚ t :: delayed_addrs q) as Hp.
  { by rewrite pq_push_perm. }
  split; simpl; unfold delayed_addrs; simpl; try use_wf Hw.
  - rewrite Hp. rewrite Permutation_app_comm. simpl. constructor; [by rewrite Permutation_app_comm|].
    rewrite Permutation_app_comm. use_wf Hw.
  - intros a. rewrite Hp. intros [->|Ha]%elem_of_cons; [done|]. by apply (wf_delayed _ _ _ Hw).
  - apply pq_push_sorted. use_wf Hw.
  - intros a. rewrite Hp. intros [Ha|[->|Ha]%elem_of_cons]%elem_of_app; [|done|];
      apply (wf_disj _ _ _ Hw), elem_of_app; auto.
Qed.

(** The earliest delayed thunk leaves the priority queue and becomes loose. *)
Lemma wf_pop_delayed E ids q d rest :
  dq_wf E ids q → m_delayedQueue q = d :: rest →
  dq_wf E ids (set_delayed rest q) ∧ loose E ids (m_thunk d) (set_delayed rest q).
Proof.
  intros Hw Hq.
  pose proof (wf_nodup _ _ _ Hw) as Hnd. unfold delayed_addrs in Hnd. rewrite Hq in Hnd. simpl in Hnd.
  rewrite Permutation_app_comm in Hnd. simpl in Hnd. apply NoDup_cons in Hnd as [Hn Hnd].
  rewrite Permutation_app_comm in Hnd. rewrite Permutation_app_comm in Hn.
  assert (∀ a, a ∈ map m_thunk (d :: rest) → a ∈ delayed_addrs q) as Hsub.
  { unfold delayed_addrs. by rewrite Hq. }
  split.
  - split; simpl; try use_wf Hw; try done.
    + intros a Ha. apply (wf_delayed _ _ _ Hw), Hsub. by right.
    + pose proof (wf_sorted _ _ _ Hw) as Hs. rewrite Hq in Hs. by apply Sorted_inv in Hs as [Hs _].
    + intros a Ha. apply (wf_disj _ _ _ Hw). unfold delayed_addrs in Ha. simpl in Ha.
      apply elem_of_app in Ha as [Ha|Ha]; apply elem_of_app; [by left|right].
      apply Hsub. by right.
  - split; simpl; [apply (wf_delayed _ _ _ Hw), Hsub; left|done|].
    apply (wf_disj _ _ _ Hw), elem_of_app. right. apply Hsub. left.
Qed.

(** ** Detaching the whole list, and freeing a detached chain *)
Lemma lookup_foldr_delete (E : gmap addr DispatchThunk) l a :
  foldr delete E l !! a = if decide (a ∈ l) then None else E !! a.
Proof.
  induction l as [|b l IH]; cbn [foldr].
  - rewrite decide_False; [done|apply not_elem_of_nil].
  - rewrite lookup_delete. destruct (decide (b = a)) as [->|Hne].
    + rewrite decide_True; [done|left].
    + rewrite IH. apply decide_ext. rewrite elem_of_cons. split; [by right|intros [->|]; done].
Qed.

(** Everything on the list becomes in flight, still chained. *)
Lemma wf_detach ids : ∀ E q,
  dq_wf E ids q →
  ∃ E', dq_wf E' [] (set_head None q) ∧ chain E' (m_pHead q) ids ∧ foldr delete E' ids = E.
Proof.
  induction ids as [|t ids IH]; intros E q Hw.
  { exists E. pose proof (wf_head _ _ _ Hw) as Hh. simpl in Hh. rewrite Hh. split_and!; [|done|done].
    by apply (dq_wf_frame _ _ q). }
  destruct (wf_chain _ _ _ Hw) as (Hh & th & Ht & _). rewrite Hh.
  assert (E !! t = None) as HE by (apply (wf_disj _ _ _ Hw); left).
  destruct (IH _ _ (wf_pop _ _ _ _ _ Hw Ht)) as (E' & Hw' & Hc & Hf). simpl in *.
  exists E'. split_and!; [done|done| |].
  - exists th. split; [|done].
    assert (foldr delete E' ids !! t = Some th) as Hl by (rewrite Hf; apply lookup_insert_eq).
    rewrite lookup_foldr_delete in Hl. by destruct (decide (t ∈ ids)).
  - rewrite Hf. by apply delete_insert_id.
Qed.

Lemma wf_drop_delayed E q :
  dq_wf E [] q →
  dq_wf E [] (set_delayed [] q) ∧ NoDup (delayed_addrs q) ∧
  ∀ a, a ∈ delayed_addrs q → loose E [] a (set_delayed [] q).
Proof.
  intros Hw. pose proof (wf_nodup _ _ _ Hw) as Hnd. simpl in Hnd. split_and!; [|done|].
  - split; simpl; try use_wf Hw; try done; try (by intros ? ?%elem_of_nil); constructor.
  - intros a Ha. split; simpl; [by apply (wf_delayed _ _ _ Hw)|apply not_elem_of_nil|].
    by apply (wf_disj _ _ _ Hw).
Qed.

(** Freeing [l] thunks of the in-flight set at once. *)
Lemma wf_finish_chain E ids q p l :
  dq_wf E ids q → chain E p l → NoDup l →
  dq_wf (foldr delete E l) ids
    (set_heap (foldr delete (heap q) l)
       (set_count (sz_sub (m_count q) (Z.of_nat (length l))) q)).
Proof.
  intros Hw. revert p. induction l as [|a l IH]; intros p Hc Hnd; simpl.
  - apply (dq_wf_frame _ _ q); try done. simpl. unfold sz_sub.
    rewrite (wf_count _ _ _ Hw), Z.sub_0_r. unfold sz_wrap. apply Zmod_mod.
  - destruct Hc as (-> & th & Ha & Hc). apply NoDup_cons in Hnd as [Hn Hnd].
    specialize (IH _ Hc Hnd).
    assert (foldr delete E l !! a = Some th) as Hl by (by rewrite lookup_foldr_delete, decide_False).
    rewrite <-(insert_delete_id _ _ _ Hl) in IH.
    apply wf_finish in IH; [|apply lookup_delete_eq].
    apply (dq_wf_frame _ _ _ _ IH); try done. simpl.
    unfold sz_dec, sz_sub. rewrite sz_wrap_sub_l. f_equal. lia.
Qed.

Lemma delete_chain_spec fuel : ∀ p l q,
  chain (heap q) p l → NoDup l →
  match delete_chain fuel p q with
  | (Ret n, q') => n = sz_wrap (Z.of_nat (length l)) ∧ q' = set_heap (foldr delete (heap q) l) q
  | (Stuck out_of_fuel, _) => fuel < length l
  | _ => False
  end.
Proof.
  induction fuel as [|fuel IH]; intros p l q Hc Hnd;
    (destruct l as [|a l]; simpl in Hc; [subst; by destruct q|]); destruct Hc as (-> & th & Ha & Hc);
    simpl; [lia|].
  apply NoDup_cons in Hnd as [Hn Hnd].
  unfold load_flink, delete_thunk. munfold. rewrite Ha. simpl. rewrite Ha. simpl.
  specialize (IH (m_pFlink th) l (set_heap (delete a (heap q)) q)). simpl in IH.
  rewrite chain_delete in IH by done. specialize (IH Hc Hnd).
  destruct (delete_chain _ _ _) as [[n|?|[]] q']; try done; [|lia].
  destruct IH as [-> ->]. split.
  - unfold sz_inc, sz_add. rewrite sz_wrap_add_l. f_equal. lia.
  - destruct q; unfold set_heap; simpl. f_equal. clear -Hn. induction l as [|b l IH]; simpl; [done|].
    rewrite not_elem_of_cons in Hn. destruct Hn.
    rewrite IH by done. apply delete_delete.
Qed.

(** ** Every operation keeps the queue well formed and never follows a bad pointer *)
Section safety.
  Context (run_fx : fx → M DispatchQueue unit).
  Context (OnPended : M DispatchQueue unit).
  Context (steady_clock : nat → time_point).
  (** Lambdas and the [OnPended] override are clients: they may use the queue
      as they like, through operations that keep it well formed. *)
  Hypothesis run_fx_safe : ∀ f, dq_safe (run_fx f).
  Hypothesis OnPended_safe : dq_safe OnPended.

Definition owning (E : gmap addr DispatchThunk) (t : addr) (q : DispatchQueue) : Prop :=
  ∃ ids, dq_wf E ids q ∧ loose E ids t q.

Lemma modify_safe f :
  (∀ q, m_pHead (f q) = m_pHead q ∧ m_pTail (f q) = m_pTail q ∧ m_delayedQueue (f q) = m_delayedQueue q
        ∧ heap (f q) = heap q ∧ m_count (f q) = m_count q ∧ next_addr (f q) = next_addr q) →
  dq_safe (modify f).
Proof.
  intros Hf E. apply safe_modify. intros q [ids Hw]. exists ids.
  destruct (Hf q) as (H1 & H2 & H3 & H4 & H5 & H6). apply (dq_wf_frame _ _ q); auto with lia.
Qed.

Lemma notify_all_safe : dq_safe notify_all.
Proof. by apply modify_safe. Qed.

Lemma new_thunk_ok E f :
  triple (dq_inv E) (new_thunk f) (λ t q, owning E t q) (λ _ _, False).
Proof. intros q [ids Hw]. exists ids. by apply (wf_new _ _ _ f). Qed.

(** The link-and-count step common to the pending operations. *)
Lemma linked_ok E ids t q q' :
  dq_wf E ids q → loose E ids t q →
  m_pHead q' = m_pHead (linked t q) → m_pTail q' = m_pTail (linked t q) →
  m_delayedQueue q' = m_delayedQueue (linked t q) → heap q' = heap (linked t q) →
  m_count q' = m_count (linked t q) → next_addr q' = next_addr q →
  dq_inv E q'.
Proof.
  intros Hw Hl ????? Hn. exists (ids ++ [t]).
  apply (dq_wf_frame _ _ (linked t q)); try done; [by apply wf_linked|].
  rewrite Hn. unfold linked. by repeat case_match.
Qed.

(** Case analysis on where the new thunk is linked; solves the bookkeeping. *)
Ltac link_cases Hw :=
  match type of Hw with dq_wf ?E ?ids ?q =>
    let Hh := fresh "Hh" in pose proof (wf_head _ _ _ Hw) as Hh;
    destruct (decide (ids = [])) as [->|];
    [ simpl in Hh
    | destruct (wf_tail_live _ _ _ Hw) as (?tl & ?th & ? & ? & ? & ?); [done|];
      destruct ids; [done|]; simpl in Hh ]
  end.

Ltac link_done Hw Hl :=
  eapply (linked_ok _ _ _ _ _ Hw Hl); unfold linked; simpl; repeat (simplify_option_eq; simpl); done.

Lemma PendExisting_ok E t :
  triple (owning E t) (PendExisting OnPended t) (λ _, dq_inv E) (λ _, dq_inv E).
Proof.
  intros q (ids & Hw & Hl). unfold PendExisting, notify_all, store_flink. munfold.
  link_cases Hw; simpl; rewrite Hh; simpl; repeat (simplify_option_eq; simpl);
    apply (OnPended_safe E); link_done Hw Hl.
Qed.

Lemma Pend_safe f : dq_safe (Pend OnPended f).
Proof.
  intros E. eapply triple_bind; [eapply triple_conseq; [apply (new_thunk_ok E f)|done|done|done]|].
  intros t. apply PendExisting_ok.
Qed.

Lemma delete_loose_ok E t :
  triple (owning E t) (delete_thunk t) (λ _, dq_inv E) (λ _ _, False).
Proof.
  intros q (ids & Hw & Hl). destruct (loose_heap _ _ _ _ Hl) as [f Hf].
  unfold delete_thunk. munfold. rewrite Hf. exists ids. by apply wf_delete_loose.
Qed.

Lemma operator_pend_safe f : dq_safe (operator_pend OnPended f).
Proof.
  intros E. eapply triple_bind; [eapply triple_conseq; [apply (new_thunk_ok E f)|done|done|done]|].
  intros t. apply triple_get. intros q _. destruct (Z.leb _ _).
  - eapply triple_bind; [|intros; apply safe_ret].
    eapply triple_conseq; [apply (delete_loose_ok E t)|by intros ? []|done|done].
  - intros ? (-> & ids & Hw & Hl). unfold notify_all, store_flink. munfold.
    link_cases Hw; simpl; rewrite Hh; simpl; repeat (simplify_option_eq; simpl).
    + pose proof (OnPended_safe E (set_head (Some t) (set_tail (Some t) (set_count (sz_inc (m_count q)) q)))) as Ho.
      destruct (OnPended _) as [[[]|?|[]] q']; simpl; try done; try (apply Ho; link_done Hw Hl).
      apply (notify_all_safe E q'). apply Ho. link_done Hw Hl.
    + match goal with |- context [OnPended ?s] => pose proof (OnPended_safe E s) as Ho;
        destruct (OnPended s) as [[[]|?|[]] q'] end; simpl in *; try done; apply Ho; link_done Hw Hl.
Qed.

Lemma operator_pend_delayed_ok E r t :
  triple (owning E t) (operator_pend_delayed r t) (λ _, dq_inv E) (λ _, dq_inv E).
Proof.
  intros q (ids & Hw & Hl).
  pose proof (wf_pend_delayed _ _ _ r _ Hw Hl) as Hw'.
  unfold operator_pend_delayed. munfold. simpl.
  destruct (pq_push _ _) as [|top l] eqn:Hp.
  { pose proof (pq_push_perm (mkDelayed r t) (m_delayedQueue q)) as Hperm. rewrite Hp in Hperm.
    by apply Permutation_nil_cons in Hperm. }
  simpl. rewrite <-Hp in *. destruct (_ && _); simpl.
  - exact (notify_all_safe E _ (ex_intro _ ids Hw')).
  - by exists ids.
Qed.

(** ** Dispatching is safe *)
Lemma call_thunk_ok E t th :
  E !! t = Some th → safe (dq_inv E) (call_thunk run_fx t).
Proof.
  intros HE q [ids Hw]. unfold call_thunk. munfold.
  assert (heap q !! t = Some th) as Ht by (apply (lookup_weaken E); [done|use_wf Hw]).
  rewrite Ht. apply (run_fx_safe _ E). exists ids. by apply (dq_wf_frame _ _ q).
Qed.

(** [release_count], then freeing the thunk, ends a call that was under way. *)
Lemma finish_ok E t th :
  E !! t = None →
  triple (dq_inv (<[t:=th]> E)) (release_count;; delete_thunk t) (λ _, dq_inv E) (λ _ _, False).
Proof.
  intros HE q [ids Hw].
  assert (heap q !! t = Some th) as Ht.
  { apply (lookup_weaken (<[t:=th]> E)); [by rewrite lookup_insert_eq|use_wf Hw]. }
  pose proof (wf_finish _ _ _ _ _ Hw HE) as Hw'.
  unfold release_count, delete_thunk, notify_all. munfold. simpl.
  destruct (Z.eqb _ _); simpl; rewrite Ht; exists ids; by apply (dq_wf_frame _ _ _ _ Hw').
Qed.

(** The two destructors [DispatchEventUnsafe] leaves behind, run in order. *)
Lemma at_exit_nest {S A} (f g : M S unit) (m : M S A) s :
  (∀ s', ∃ s'', g s' = (Ret tt, s'')) →
  at_exit f (at_exit g m) s = at_exit (g;; f) m s.
Proof.
  intros Hg. unfold at_exit. munfold.
  destruct (m s) as [[a|e|r] s']; [| |done]; destruct (Hg s') as [s'' ->]; done.
Qed.

Lemma release_count_ret q : ∃ q', release_count q = (Ret tt, q').
Proof. unfold release_count, notify_all. munfold. simpl. destruct (Z.eqb _ _); eauto. Qed.

Lemma DispatchEventUnsafe_ok E :
  triple (λ q, dq_inv E q ∧ is_Some (m_pHead q)) (DispatchEventUnsafe run_fx)
    (λ _, dq_inv E) (λ _, dq_inv E).
Proof.
  intros q [[ids Hw] [t Hh]]. pose proof (wf_head _ _ _ Hw) as Hhead.
  destruct ids as [|t' ids]; simpl in Hhead; [congruence|].
  assert (t' = t) as -> by congruence.
  destruct (chain_live _ _ _ t (wf_chain _ _ _ Hw)) as [th Ht]; [left|].
  pose proof (wf_pop _ _ _ _ _ Hw Ht) as Hpop.
  assert (E !! t = None) as HE by (apply (wf_disj _ _ _ Hw); left).
  unfold DispatchEventUnsafe, load_flink. munfold. rewrite Hh. simpl. rewrite Ht. simpl.
  rewrite at_exit_nest by apply release_count_ret.
  refine (triple_at_exit (dq_inv (<[t:=th]> E)) _ _ (λ _, dq_inv (<[t:=th]> E))
            (λ _, dq_inv (<[t:=th]> E)) _ _ _ _ _ _ (ex_intro _ ids Hpop)).
  - apply (call_thunk_ok _ _ th). apply lookup_insert_eq.
  - intros _. eapply triple_conseq; [by apply finish_ok|done|done|done].
  - intros _. eapply triple_conseq; [by apply finish_ok|done|done|done].
Qed.

Lemma promote_loop_ok E t : ∀ d,
  triple (λ q, dq_inv E q ∧ m_delayedQueue q = d) (promote_loop t d)
    (λ _, dq_inv E) (λ _ _, False).
Proof.
  intros d. induction d as [|top d IH]; intros q [[ids Hw] Hd]; [by exists ids|].
  simpl. destruct (Z.ltb _ _); [|by exists ids].
  destruct (wf_pop_delayed _ _ _ _ _ Hw Hd) as [Hw' Hl].
  unfold store_flink. munfold.
  link_cases Hw; simpl; rewrite Hh; simpl; repeat (simplify_option_eq; simpl);
    apply IH; (split; [|done]); link_done Hw' Hl.
Qed.

Lemma Promote_safe : dq_safe (PromoteReadyDispatchersUnsafe steady_clock).
Proof.
  intros E. apply triple_get. intros q _. unfold now.
  intros ? [-> [ids Hw]]. munfold. simpl.
  pose proof (promote_loop_ok E (steady_clock (reads q)) (m_delayedQueue q)
                (set_reads (S (reads q)) q)) as Hp.
  destruct (promote_loop _ _ _) as [[[]|?|[]] q']; try done.
  - apply Hp. split; [|done]. exists ids. by apply (dq_wf_frame _ _ q).
  - destruct Hp. split; [|done]. exists ids. by apply (dq_wf_frame _ _ q).
  - destruct Hp. split; [|done]. exists ids. by apply (dq_wf_frame _ _ q).
Qed.

Lemma safe_bind_ret {A B} (m : M DispatchQueue A) (k : A → M DispatchQueue B) :
  dq_safe m → (∀ a, dq_safe (k a)) → dq_safe (m ≫= k).
Proof. intros Hm Hk E. apply safe_bind; [apply Hm|intros a; apply Hk]. Qed.

(** [nothing_ready] answers [false] only when there is a head to dispatch. *)
Lemma promote_loop_head t : ∀ d q,
  match promote_loop t d q with
  | (Ret _, q') => is_Some (m_pHead q') ∨ (m_pHead q' = m_pHead q ∧
                     (m_delayedQueue q = d → m_delayedQueue q' = m_delayedQueue q))
  | _ => True
  end.
Proof.
  induction d as [|top d IH]; intros q; simpl; [by right|].
  destruct (Z.ltb _ _); [|by right].
  unfold store_flink. munfold. destruct (m_pHead q) as [h|] eqn:Hh.
  - destruct (m_pTail q) as [tl|]; simpl; [|done]. destruct (heap q !! tl); simpl; [|done].
    match goal with |- context [promote_loop t d ?x] => specialize (IH x) end.
    destruct (promote_loop _ _ _) as [[]?]; try done. simpl in IH.
    destruct IH as [?|[-> _]]; [by left|]. left. by rewrite Hh.
  - simpl. match goal with |- context [promote_loop t d ?x] => specialize (IH x) end.
    destruct (promote_loop _ _ _) as [[]?]; try done. simpl in IH.
    destruct IH as [?|[-> _]]; [by left|]. by left.
Qed.

Lemma Promote_ok E :
  triple (dq_inv E) (PromoteReadyDispatchersUnsafe steady_clock)
    (λ b q, dq_inv E q ∧ (b = true → is_Some (m_pHead q))) (λ _, dq_inv E).
Proof.
  intros q Hq. pose proof (Promote_safe E q Hq) as Hs.
  unfold PromoteReadyDispatchersUnsafe, now in *. munfold. simpl in *.
  pose proof (promote_loop_head (steady_clock (reads q)) (m_delayedQueue q) (set_reads (S (reads q)) q)) as Hl.
  destruct (promote_loop _ _ _) as [[[]|?|[]] q']; simpl in *; try done.
  split; [done|]. rewrite negb_true_iff, Nat.eqb_neq. intros Hne.
  destruct Hl as [?|[_ Hl]]; [done|]. by rewrite Hl in Hne.
Qed.

Lemma nothing_ready_ok E :
  triple (dq_inv E) (nothing_ready steady_clock)
    (λ b q, dq_inv E q ∧ (b = false → is_Some (m_pHead q))) (λ _, dq_inv E).
Proof.
  apply triple_get. intros q Hq. destruct (m_pHead q) eqn:Hh.
  - intros ? [-> _]. munfold. eauto.
  - eapply triple_pre; [|by intros ? [-> H]].
    eapply triple_bind; [apply Promote_ok|]. intros b s [Hs Hb]. munfold. split; [done|].
    intros Hn. apply Hb. by destruct b.
Qed.

Lemma DispatchEvent_safe : dq_safe (DispatchEvent run_fx steady_clock).
Proof.
  intros E. eapply triple_bind; [apply nothing_ready_ok|]. intros [].
  - eapply triple_conseq; [apply (safe_ret (dq_inv E))|by intros ? []|done|done].
  - eapply triple_bind; [|intros; apply safe_ret].
    eapply triple_conseq; [apply (DispatchEventUnsafe_ok E)|intros ? []; auto|done|done].
Qed.

Lemma DispatchAllEvents_safe fuel : dq_safe (DispatchAllEvents run_fx steady_clock fuel).
Proof.
  induction fuel as [|fuel IH]; intros E; simpl; [by apply safe_stuck|].
  apply safe_bind; [apply DispatchEvent_safe|]. intros []; [|apply safe_ret].
  apply safe_bind; [apply IH|intros; apply safe_ret].
Qed.

Lemma delete_thunk_run a t q :
  heap q !! a = Some t → delete_thunk a q = (Ret tt, set_heap (delete a (heap q)) q).
Proof. intros H. unfold delete_thunk. munfold. by rewrite H. Qed.

Lemma load_flink_run a t q : heap q !! a = Some t → load_flink a q = (Ret (m_pFlink t), q).
Proof. intros H. unfold load_flink. munfold. by rewrite H. Qed.

Lemma Cancel_safe : dq_safe Cancel.
Proof.
  intros E. apply triple_get. intros q Hq ? [-> [ids Hw]].
  pose proof (wf_head _ _ _ Hw) as Hhead.
  destruct (m_pHead q) as [t|] eqn:Hh.
  - destruct ids as [|t' ids]; simpl in Hhead; [done|]. injection Hhead as <-.
    destruct (chain_live _ _ _ t (wf_chain _ _ _ Hw)) as [th Ht]; [left|].
    assert (E !! t = None) as HE by (apply (wf_disj _ _ _ Hw); left).
    pose proof (wf_finish _ _ _ _ _ (wf_pop _ _ _ _ _ Hw Ht) HE) as Hw'.
    erewrite bind_Ret by by apply load_flink_run. erewrite bind_Ret by done.
    erewrite bind_Ret by by eapply delete_thunk_run.
    exists ids. by apply (dq_wf_frame _ _ _ _ Hw').
  - destruct (m_delayedQueue q) as [|d rest] eqn:Hd; [by exists ids|].
    destruct (wf_pop_delayed _ _ _ _ _ Hw Hd) as [Hw' Hl].
    destruct (loose_heap _ _ _ _ Hl) as [f Hf].
    erewrite bind_Ret by done. erewrite bind_Ret by by eapply delete_thunk_run.
    exists ids. by apply (wf_delete_loose _ _ _ _ Hw').
Qed.

Lemma delete_all_loose E ids ds :
  NoDup (map m_thunk ds) →
  triple (λ q, dq_wf E ids q ∧ ∀ d, d ∈ ds → loose E ids (m_thunk d) q)
    (for_each (λ d, delete_thunk (m_thunk d)) ds) (λ _, dq_wf E ids) (λ _ _, False).
Proof.
  induction ds as [|d ds IH]; intros Hnd q [Hw Hl]; [done|].
  apply NoDup_cons in Hnd as [Hn Hnd].
  destruct (loose_heap _ _ _ _ (Hl d ltac:(left))) as [f Hf].
  simpl. rewrite (bind_Ret _ _ _ _ _ (delete_thunk_run _ _ _ Hf)). apply IH; [done|].
  split; [apply wf_delete_loose; [done|apply Hl; left]|].
  intros e He. destruct (Hl e ltac:(by right)) as [[g Hg] Hni HE].
  split; [exists g|done|done]. simpl. rewrite lookup_delete_ne; [done|].
  intros Heq. apply Hn. rewrite Heq. by apply list_elem_of_fmap_2.
Qed.

(** The rundown loop hands back a shorter chain of in-flight thunks. *)
Lemma rundown_loop_ok fuel : ∀ E p l,
  chain E p l → NoDup l →
  triple (dq_inv E) (rundown_loop run_fx fuel p)
    (λ p' q, ∃ E' l', dq_inv E' q ∧ chain E' p' l' ∧ NoDup l' ∧
                      foldr delete E' l' = foldr delete E l)
    (λ _ _, False).
Proof.
  induction fuel as [|fuel IH]; intros E p l Hc Hnd q Hq;
    (destruct l as [|a l]; simpl in Hc; [subst; simpl; exists E, []; by split_and!|]);
    destruct Hc as (-> & th & Ha & Hc); simpl; [done|].
  pose proof Hnd as [Hn Hnd']%NoDup_cons.
  assert (heap q !! a = Some th) as Hqa.
  { destruct Hq as [ids Hw]. apply (lookup_weaken E); [done|use_wf Hw]. }
  pose proof (call_thunk_ok E a th Ha q Hq) as Hcall.
  unfold try_catch, load_flink. munfold. rewrite Hqa. simpl.
  destruct (call_thunk _ _ _) as [[[]|e|[]] q']; simpl in *; try done.
  - assert (∃ E0, E0 = delete a E) as [E0 HE0] by by eexists.
    assert (E = <[a:=th]> E0) as -> by (by rewrite HE0, insert_delete_id).
    assert (E0 !! a = None) as HEa by (rewrite HE0; apply lookup_delete_eq).
    destruct Hcall as [ids Hw].
    assert (heap q' !! a = Some th) as Hqa'.
    { apply (lookup_weaken (<[a:=th]> E0)); [done|use_wf Hw]. }
    unfold delete_thunk. munfold. rewrite Hqa'. simpl.
    eapply triple_conseq; [apply (IH E0 (m_pFlink th) l)| | | |].
    + by rewrite chain_insert in Hc.
    + done.
    + intros ? Hx. exact Hx.
    + simpl. intros p' q'' (E' & l' & ? & ? & ? & Hf). exists E', l'. split_and!; try done.
      rewrite Hf. clear -HEa Hn. apply map_eq. intros x.
      rewrite lookup_delete, !lookup_foldr_delete, lookup_insert.
      repeat (case_decide || destruct (decide _)); naive_solver.
    + done.
    + exists ids. pose proof (wf_finish _ _ _ _ _ Hw HEa) as Hw'.
      by apply (dq_wf_frame _ _ _ _ Hw').
  - assert (chain E (Some a) (a :: l)) as Hc' by (simpl; eauto).
    destruct e; simpl;
      try (exists E, (a :: l); by split_and!).
    by apply IH with (l := a :: l).
Qed.
(** A detached chain of thunks, all in flight on top of [E]. *)
Definition detached (E : gmap addr DispatchThunk) (p : option addr) (q : DispatchQueue) : Prop :=
  ∃ E' l, dq_inv E' q ∧ chain E' p l ∧ NoDup l ∧ foldr delete E' l = E.

Lemma chain_mono h h' p l : h ⊆ h' → chain h p l → chain h' p l.
Proof.
  intros Hh. revert p. induction l as [|a l IH]; intros p; simpl; [done|].
  intros (-> & t & Ht & Hc). split; [done|]. exists t. split; [by apply (lookup_weaken h)|auto].
Qed.

(** Freeing a detached chain and taking it off the count settles the queue. *)
Lemma free_detached_ok E fuel p :
  triple (detached E p)
    (n ← delete_chain fuel p; modify (λ q, set_count (sz_sub (m_count q) n) q);; notify_all)
    (λ _, dq_inv E) (λ _ _, False).
Proof.
  intros q (E' & l & [ids Hw] & Hc & Hnd & HE).
  assert (chain (heap q) p l) as Hc' by (eapply chain_mono; [use_wf Hw|done]).
  pose proof (delete_chain_spec fuel p l q Hc' Hnd) as Hd.
  unfold notify_all. munfold. destruct (delete_chain fuel p q) as [[n|e|[]] q']; simpl in *; try done.
  destruct Hd as [-> ->]. exists ids. rewrite <-HE.
  apply (dq_wf_frame _ _ _ _ (wf_finish_chain _ _ _ _ _ Hw Hc Hnd)); try done.
  simpl. unfold sz_sub, sz_wrap. by rewrite Zminus_mod_idemp_r.
Qed.

(** The first step of [ClearQueueInternal] under the lock. *)
Definition clear_state (q : DispatchQueue) : DispatchQueue :=
  set_delayed [] (set_tail None (set_head None (set_cap 0 (set_aborted true q)))).

Lemma clear_state_ok E q :
  dq_inv E q →
  ∃ E' l, dq_wf E' [] (clear_state q) ∧ chain E' (m_pHead q) l ∧ NoDup l ∧ foldr delete E' l = E ∧
          NoDup (delayed_addrs q) ∧
          ∀ d, d ∈ m_delayedQueue q → loose E' [] (m_thunk d) (clear_state q).
Proof.
  intros [ids Hw]. destruct (wf_detach _ _ _ Hw) as (E' & Hw' & Hc & HE).
  pose proof (wf_nodup _ _ _ Hw) as Hnd. apply NoDup_app in Hnd as (Hnd & _ & _).
  destruct (wf_drop_delayed _ _ Hw') as (Hd & Hdn & Hl).
  exists E', ids. split_and!; [|done|done|done|done|].
  - destruct Hd. split; simpl in *; done.
  - intros d Hd'. assert (m_thunk d ∈ delayed_addrs q) as Hin by (by apply list_elem_of_fmap_2).
    destruct (Hl _ Hin). by split.
Qed.

Lemma ClearQueueInternal_safe fuel b : dq_safe (ClearQueueInternal run_fx fuel b).
Proof.
  intros E. apply triple_get. intros q Hq ? [-> _]. unfold ClearQueueInternal.
  destruct (clear_state_ok E q Hq) as (E' & l & Hw & Hc & Hnd & HE & Hdn & Hl).
  rewrite (bind_Ret _ _ _ tt (clear_state q)) by done.
  generalize (conj Hw Hl). clear Hw Hl. generalize (clear_state q).
  apply (triple_bind (λ s, dq_wf E' [] s ∧ ∀ d, d ∈ m_delayedQueue q → loose E' [] (m_thunk d) s)
           _ _ (λ _, dq_wf E' [])).
  { eapply triple_conseq; [by apply (delete_all_loose E' [])|done|done|]. by intros. }
  intros _. eapply (triple_bind _ _ _ (λ p, detached E p)).
  - intros s Hs. assert (dq_inv E' s) as Hi by (by exists []).
    destruct b; [|by exists E', l].
    pose proof (rundown_loop_ok fuel _ _ _ Hc Hnd s Hi) as Hr.
    destruct (rundown_loop _ _ _ _) as [[p|e|[]] s']; try done.
    destruct Hr as (E'' & l'' & ? & ? & ? & Heq). exists E'', l''. split_and!; try done. by rewrite Heq.
  - intros p. eapply triple_conseq; [apply free_detached_ok|done|done|done].
Qed.

(** ** Waiting is safe, whatever other threads do while the lock is released *)
Context (cv_wait : option time_point → M DispatchQueue cv_status).
Hypothesis cv_wait_safe : ∀ t, dq_safe (cv_wait t).

Lemma wait_loop_ok fuel : ∀ E t,
  triple (dq_inv E) (wait_loop steady_clock cv_wait fuel t)
    (λ b q, dq_inv E q ∧ (b = true → is_Some (m_pHead q))) (λ _, dq_inv E).
Proof.
  induction fuel as [|fuel IH]; intros E t; simpl; apply triple_get; intros q Hq;
    (destruct (m_pHead q) eqn:Hh; [intros ? [-> _]; munfold; eauto|]); [by intros ? [-> _]|].
  eapply triple_pre; [|by intros ? [-> H]].
  eapply triple_bind; [apply (cv_wait_safe _ E)|]. intros st. apply triple_read. intros q' Hq'.
  destruct (onAborted q'); [by intros s Hs|].
  eapply triple_bind; [apply Promote_ok|]. intros [].
  - intros s [Hs Hb]. munfold. by split.
  - destruct st; [|intros s [Hs _]; munfold; by split].
    eapply triple_conseq; [apply IH|by intros s []|done|done].
Qed.

Lemma WaitForEventUnsafe_safe fuel t : dq_safe (WaitForEventUnsafe run_fx steady_clock cv_wait fuel t).
Proof.
  intros E. apply triple_read. intros q Hq.
  destruct (onAborted q); [apply safe_throw|].
  eapply triple_bind; [apply wait_loop_ok|]. intros [].
  - eapply triple_bind; [|intros; apply safe_ret].
    eapply triple_conseq; [apply (DispatchEventUnsafe_ok E)|intros ? []; auto|done|done].
  - intros s [Hs _]. exact Hs.
Qed.

Lemma wait_unbounded_safe fuel v : dq_safe (wait_unbounded cv_wait fuel v).
Proof.
  intros E. induction fuel as [|fuel IH]; simpl; apply triple_read; intros q Hq;
    (destruct (onAborted q); [apply safe_throw|]); (destruct (_ || _); [apply safe_ret|]).
  - by apply safe_stuck.
  - apply safe_bind; [apply cv_wait_safe|done].
Qed.

Lemma WaitForEvent_safe fuel : dq_safe (WaitForEvent run_fx steady_clock cv_wait fuel).
Proof.
  intros E. apply triple_read. intros q Hq.
  destruct (onAborted q); [apply safe_throw|].
  apply safe_bind; [apply wait_unbounded_safe|]. intros _. apply triple_get. intros q' Hq'.
  destruct (m_pHead q') eqn:Hh.
  - eapply triple_conseq; [apply (DispatchEventUnsafe_ok E)| |done|done].
    intros ? [-> H]. split; [done|by rewrite Hh].
  - eapply triple_pre; [|by intros ? [-> H]].
    destruct (m_delayedQueue q'); [apply safe_ret|].
    apply safe_bind; [apply WaitForEventUnsafe_safe|intros; apply safe_ret].
Qed.

Lemma now_safe : dq_safe (now steady_clock).
Proof. intros E q [ids Hw]. exists ids. by apply (dq_wf_frame _ _ q). Qed.

Lemma WaitForEventUntil_safe tmax fuel t :
  dq_safe (WaitForEventUntil run_fx steady_clock cv_wait tmax fuel t).
Proof.
  intros E. unfold WaitForEventUntil. destruct (Z.eqb _ _); [|apply WaitForEventUnsafe_safe].
  apply safe_bind; [apply WaitForEvent_safe|intros; apply safe_ret].
Qed.

Lemma delayed_expression_safe r f :
  dq_safe (thunk ← new_thunk f; operator_pend_delayed r thunk).
Proof.
  intros E. eapply triple_bind; [eapply triple_conseq; [apply (new_thunk_ok E f)|done|done|done]|].
  intros t. apply operator_pend_delayed_ok.
Qed.

Lemma DelayedExpressionRel_safe d f : dq_safe (DelayedExpressionRel OnPended steady_clock d f).
Proof.
  intros E. unfold DelayedExpressionRel. destruct (Z.eqb _ _).
  - apply safe_bind; [apply operator_pend_safe|intros; apply safe_ret].
  - apply safe_bind; [apply now_safe|]. intros t. apply delayed_expression_safe.
Qed.

Lemma WakeAllWaitingThreads_safe : dq_safe WakeAllWaitingThreads.
Proof. apply safe_bind_ret; [by apply modify_safe|intros; apply notify_all_safe]. Qed.

Lemma wait_pred_safe fuel t pr : dq_safe (wait_pred cv_wait fuel t pr).
Proof.
  intros E. induction fuel as [|fuel IH]; simpl; apply triple_read; intros q Hq;
    (destruct (pr q); [apply safe_ret|]); [by apply safe_stuck|].
  apply safe_bind; [apply cv_wait_safe|]. intros []; [done|].
  apply triple_read. intros; apply safe_ret.
Qed.

Lemma Barrier_for_safe fuel f d :
  dq_safe (Barrier_for OnPended steady_clock cv_wait fuel f d).
Proof.
  intros E. apply triple_read. intros q Hq. destruct (Z.eqb _ _); [apply safe_ret|].
  destruct (onAborted q); [apply safe_throw|].
  eapply triple_bind; [eapply triple_conseq; [apply (new_thunk_ok E f)|done|done|done]|].
  intros t. eapply triple_bind; [apply PendExisting_ok|]. intros [].
  apply safe_bind; [apply now_safe|]. intros t'. apply safe_bind; [apply wait_pred_safe|].
  intros rv. apply triple_read. intros q' Hq'. destruct (onAborted q'); [apply safe_throw|apply safe_ret].
Qed.

Lemma Barrier_safe fuel f : dq_safe (Barrier OnPended cv_wait fuel f).
Proof.
  intros E. apply triple_read. intros q Hq. apply safe_bind; [apply operator_pend_safe|]. intros _.
  apply safe_bind; [apply wait_pred_safe|]. intros _.
  apply triple_read. intros q' Hq'. destruct (onAborted q'); [apply safe_throw|apply safe_ret].
Qed.
End safety.
