(* ===== verification/DispatchQueueSpec.v ===== *)
(** * DispatchQueue: clients, the FIFO specification and its refinement

    First, programs of clients: sequences of calls on one queue whose lambdas,
    [OnPended] override and concurrent threads are again such programs; every
    one of them is free of undefined behaviour.  Then the specification of the
    queue as two lists, the ready lambdas in order and the delayed lambdas by
    ready time, which the pointer-level code refines. *)
From stdpp Require Import base gmap list sorting strings.
From Stdlib Require Import ZArith Lia.
From S2P Require Import Prelude.
From S2P Require Import DispatchQueue.
From S2P Require Import DispatchQueueFacts.

(** ** The operations a client may call *)
Inductive dq_op :=
  | op_pend (f : fx)
  | op_add_existing (f : fx)
  | op_pend_at (t : time_point) (f : fx)
  | op_pend_after (delay : Z) (f : fx)
  | op_dispatch
  | op_dispatch_all
  | op_abort
  | op_rundown
  | op_cancel
  | op_wake.

Inductive dq_res :=
  | r_unit
  | r_bool (b : bool)
  | r_num (n : Z).

(** Calls that may block, by letting other threads run. *)
Inductive client_op :=
  | op_call (o : dq_op)
  | op_wait
  | op_wait_until (t : time_point)
  | op_wait_for (delay : Z)
  | op_barrier (f : fx)
  | op_barrier_for (f : fx) (delay : Z).

Section ops.
  Context (run_fx : fx → M DispatchQueue unit) (OnPended : M DispatchQueue unit).
  Context (steady_clock : nat → time_point) (cv_wait : option time_point → M DispatchQueue cv_status).
  Context (time_max : time_point).

Definition run_op (fuel : nat) (o : dq_op) : M DispatchQueue dq_res :=
  match o with
  | op_pend f => b ← operator_pend OnPended f; mret (r_bool b)
  | op_add_existing f => (t ← new_thunk f; AddExisting OnPended t);; mret r_unit
  | op_pend_at t f => DelayedExpressionAbs t f;; mret r_unit
  | op_pend_after d f => DelayedExpressionRel OnPended steady_clock d f;; mret r_unit
  | op_dispatch => b ← DispatchEvent run_fx steady_clock; mret (r_bool b)
  | op_dispatch_all => n ← DispatchAllEvents run_fx steady_clock fuel; mret (r_num n)
  | op_abort => Abort run_fx fuel;; mret r_unit
  | op_rundown => Rundown run_fx fuel;; mret r_unit
  | op_cancel => b ← Cancel; mret (r_bool b)
  | op_wake => WakeAllWaitingThreads;; mret r_unit
  end.

Definition run_client_op (fuel : nat) (o : client_op) : M DispatchQueue unit :=
  match o with
  | op_call o => _ ← run_op fuel o; mret tt
  | op_wait => WaitForEvent run_fx steady_clock cv_wait fuel
  | op_wait_until t => _ ← WaitForEventUntil run_fx steady_clock cv_wait time_max fuel t; mret tt
  | op_wait_for d => _ ← WaitForEventFor run_fx steady_clock cv_wait time_max fuel d; mret tt
  | op_barrier f => Barrier OnPended cv_wait fuel f
  | op_barrier_for f d => _ ← Barrier_for OnPended steady_clock cv_wait fuel f d; mret tt
  end.
End ops.

(** A client: what it calls, and the exception it ends with, if any. *)
Record client := mkClient { calls : list client_op; raises : option exn }.

Section clients.
  Context (lambdas : fx → client) (on_pended : client) (others : nat → client * cv_status).
  Context (steady_clock : nat → time_point) (time_max : time_point).

(** [others n]: what other threads do during a wait that begins when [n] lambdas
    have been called, and how the wait ends. *)
Fixpoint run_client (fuel : nat) (c : client) : M DispatchQueue unit :=
  match fuel with
  | 0 => stuck out_of_fuel
  | S fuel' =>
    let wait (_ : option time_point) : M DispatchQueue cv_status :=
      q ← get; run_client fuel' (others (length (called q))).1;;
      mret (others (length (called q))).2 in
    for_each (run_client_op (λ f, run_client fuel' (lambdas f)) (run_client fuel' on_pended)
                steady_clock wait time_max fuel') (calls c);;
    match raises c with Some e => throw e | None => mret tt end
  end.
End clients.

Section client_safety.
  Context (run_fx : fx → M DispatchQueue unit) (OnPended : M DispatchQueue unit).
  Context (steady_clock : nat → time_point) (cv_wait : option time_point → M DispatchQueue cv_status).
  Context (time_max : time_point).
  Hypothesis run_fx_safe : ∀ f, dq_safe (run_fx f).
  Hypothesis OnPended_safe : dq_safe OnPended.
  Hypothesis cv_wait_safe : ∀ t, dq_safe (cv_wait t).

Lemma AddExisting_safe f : dq_safe (t ← new_thunk f; AddExisting OnPended t).
Proof using OnPended_safe.
  intros E. eapply triple_bind; [eapply triple_conseq; [apply (new_thunk_ok E f)|done|done|done]|].
  intros t. apply triple_read. intros q _. destruct (Z.ltb _ _).
  - by apply PendExisting_ok.
  - eapply triple_conseq; [apply (delete_loose_ok E t)|done|done|done].
Qed.

Lemma run_op_safe fuel o : dq_safe (run_op run_fx OnPended steady_clock fuel o).
Proof using OnPended_safe run_fx_safe.
  destruct o; simpl; intros E;
    try (apply safe_bind; [|intros; apply safe_ret]).
  - by apply operator_pend_safe.
  - apply AddExisting_safe.
  - apply delayed_expression_safe.
  - by apply DelayedExpressionRel_safe.
  - by apply DispatchEvent_safe.
  - by apply DispatchAllEvents_safe.
  - by apply ClearQueueInternal_safe.
  - by apply ClearQueueInternal_safe.
  - apply Cancel_safe.
  - apply WakeAllWaitingThreads_safe.
Qed.

Lemma run_client_op_safe fuel o :
  dq_safe (run_client_op run_fx OnPended steady_clock cv_wait time_max fuel o).
Proof using All.
  destruct o; simpl; intros E;
    try (apply safe_bind; [|intros; apply safe_ret]).
  - by apply run_op_safe.
  - by apply WaitForEvent_safe.
  - by apply WaitForEventUntil_safe.
  - apply safe_bind; [apply now_safe|]. intros t. by apply WaitForEventUntil_safe.
  - by apply Barrier_safe.
  - by apply Barrier_for_safe.
Qed.
End client_safety.

Lemma run_client_safe lambdas on_pended others clock tmax fuel : ∀ c,
  dq_safe (run_client lambdas on_pended others clock tmax fuel c).
Proof.
  induction fuel as [|fuel IH]; intros c E; simpl; [by apply safe_stuck|].
  apply safe_bind; [|intros _; destruct (raises c); [apply safe_throw|apply safe_ret]].
  apply safe_for_each. intros o. apply run_client_op_safe; [done|done|].
  intros t E'. apply triple_read. intros q _. apply safe_bind; [apply IH|intros; apply safe_ret].
Qed.

Lemma dq_inv_new cap : dq_inv ∅ (DispatchQueue_cap cap).
Proof.
  exists []. split; simpl; try done; try (by intros ? ?%elem_of_nil); try by constructor.
  intros a [x Hx]. by apply lookup_empty_Some in Hx.
Qed.

(** C2. Memory safety and the list invariant.  Start from an empty queue of any
    cap and let a client make any calls: pending, delayed pending, dispatching,
    waiting, barriers, Cancel, Abort, Rundown.  The lambdas it pends, the
    OnPended override and the other threads that run while it waits may do the
    same, re-entrantly, and may throw.  Then no null, dangling or freed thunk is
    ever dereferenced, and when the client is done, normally or by an exception,
    the ready list is the chain from m_pHead to m_pTail without repetition, the
    delayed thunks are alive, apart from it and in ready-time order, and m_count
    is the length of the list. *)
Theorem dq_clients_safe lambdas on_pended others clock tmax cap fuel c :
  match run_client lambdas on_pended others clock tmax fuel c (DispatchQueue_cap cap) with
  | (Stuck undefined_behavior, _) => False
  | (Stuck _, _) => True
  | (_, q) => dq_inv ∅ q
  end.
Proof.
  pose proof (run_client_safe lambdas on_pended others clock tmax fuel c ∅ _ (dq_inv_new cap)) as H.
  by destruct (run_client _ _ _ _ _ _ _ _) as [[[]|e|[]] q].
Qed.

(** ** The specification: two lists *)
Record spec_queue := mkSpec {
  ready : list fx;
  delayed : list (time_point * fx);
  cap : Z;
  aborted : bool;
  history : list fx;
  clock_reads : nat }.

Definition spec_new (c : Z) : spec_queue := mkSpec [] [] c false [] 0.

(** Insertion by ready time, after the entries that are due no later. *)
Fixpoint delayed_insert (e : time_point * fx) (l : list (time_point * fx)) :=
  match l with
  | [] => [e]
  | x :: l' => if Z.ltb e.1 x.1 then e :: l else x :: delayed_insert e l'
  end.

(** The entries due before [t], and the others. *)
Fixpoint due (t : time_point) (l : list (time_point * fx)) : list fx * list (time_point * fx) :=
  match l with
  | [] => ([], [])
  | (r, f) :: l' => if Z.ltb r t then (f :: (due t l').1, (due t l').2) else ([], l)
  end.

Section spec.
  Context (steady_clock : nat → time_point).
  (** The exception each lambda ends with, if any. *)
  Context (raising : fx → option exn).

Definition spec_pend (f : fx) (s : spec_queue) : bool * spec_queue :=
  if Z.leb (cap s) (sz_wrap (Z.of_nat (length (ready s)))) then (false, s)
  else (true, mkSpec (ready s ++ [f]) (delayed s) (cap s) (aborted s) (history s) (clock_reads s)).

Definition spec_pend_at (t : time_point) (f : fx) (s : spec_queue) : spec_queue :=
  mkSpec (ready s) (delayed_insert (t, f) (delayed s)) (cap s) (aborted s) (history s) (clock_reads s).

Definition spec_tick (s : spec_queue) : spec_queue :=
  mkSpec (ready s) (delayed s) (cap s) (aborted s) (history s) (S (clock_reads s)).

(** The lambdas due before [t] join the ready list. *)
Definition spec_due (t : time_point) (s : spec_queue) : spec_queue :=
  mkSpec (ready s ++ (due t (delayed s)).1) (due t (delayed s)).2 (cap s) (aborted s)
    (history s) (clock_reads s).

Definition spec_promote (s : spec_queue) : spec_queue :=
  spec_due (steady_clock (clock_reads s)) (spec_tick s).

Definition lambda_outcome {A} (f : fx) (a : A) : outcome A :=
  match raising f with Some e => Throw e | None => Ret a end.

(** Takes the first ready lambda off the list and calls it; it is gone even
    when it throws.  An empty ready list is refilled first. *)
Definition spec_dispatch (s : spec_queue) : outcome bool * spec_queue :=
  let s := match ready s with [] => spec_promote s | _ => s end in
  match ready s with
  | [] => (Ret false, s)
  | f :: l => (lambda_outcome f true,
               mkSpec l (delayed s) (cap s) (aborted s) (history s ++ [f]) (clock_reads s))
  end.

Fixpoint spec_dispatch_all (n : nat) (s : spec_queue) : outcome Z * spec_queue :=
  match n with
  | 0 => (Stuck out_of_fuel, s)
  | S n' => match spec_dispatch s with
            | (Ret true, s') => match spec_dispatch_all n' s' with
                                | (Ret m, s'') => (Ret (m + 1)%Z, s'')
                                | r => r
                                end
            | (Ret false, s') => (Ret 0%Z, s')
            | (Throw e, s') => (Throw e, s')
            | (Stuck r, s') => (Stuck r, s')
            end
  end.

(** A rundown calls lambdas until one throws. *)
Fixpoint run_down (l : list fx) : list fx :=
  match l with
  | [] => []
  | f :: l' => f :: match raising f with Some _ => [] | None => run_down l' end
  end.

(** Everything pending is dropped, and nothing can be pended any more. *)
Definition spec_clear (run : bool) (s : spec_queue) : spec_queue :=
  mkSpec [] [] 0 true (history s ++ (if run then run_down (ready s) else [])) (clock_reads s).

Definition spec_cancel (s : spec_queue) : bool * spec_queue :=
  match ready s, delayed s with
  | _ :: l, d => (true, mkSpec l d (cap s) (aborted s) (history s) (clock_reads s))
  | [], _ :: d => (true, mkSpec [] d (cap s) (aborted s) (history s) (clock_reads s))
  | [], [] => (false, s)
  end.

Definition backlog (s : spec_queue) : nat := length (ready s) + length (delayed s).

Definition outcome_map {A B} (g : A → B) (o : outcome A) : outcome B :=
  match o with Ret a => Ret (g a) | Throw e => Throw e | Stuck r => Stuck r end.

Definition spec_op (o : dq_op) (s : spec_queue) : outcome dq_res * spec_queue :=
  match o with
  | op_pend f => let r := spec_pend f s in (Ret (r_bool r.1), r.2)
  | op_add_existing f => (Ret r_unit, (spec_pend f s).2)
  | op_pend_at t f => (Ret r_unit, spec_pend_at t f s)
  | op_pend_after d f =>
    (Ret r_unit, if Z.eqb d 0 then (spec_pend f s).2
                 else spec_pend_at (steady_clock (clock_reads s) + d)%Z f (spec_tick s))
  | op_dispatch => let r := spec_dispatch s in (outcome_map r_bool r.1, r.2)
  | op_dispatch_all =>
    let r := spec_dispatch_all (S (backlog s)) s in (outcome_map r_num r.1, r.2)
  | op_abort => (Ret r_unit, spec_clear false s)
  | op_rundown => (Ret r_unit, spec_clear true s)
  | op_cancel => let r := spec_cancel s in (Ret (r_bool r.1), r.2)
  | op_wake => (Ret r_unit, s)
  end.

Fixpoint spec_ops (ops : list dq_op) (s : spec_queue) : list (outcome dq_res) * spec_queue :=
  match ops with
  | [] => ([], s)
  | o :: ops' => let r := spec_op o s in
                 let rs := spec_ops ops' r.2 in (r.1 :: rs.1, rs.2)
  end.
End spec.

(** ** The simulation relation *)
Definition fx_at (q : DispatchQueue) (a : addr) : option fx := m_fx <$> heap q !! a.

Record queue_rel (ids : list addr) (q : DispatchQueue) (s : spec_queue) : Prop := {
  qr_wf : dq_wf ∅ ids q;
  qr_ready : fx_at q <$> ids = Some <$> ready s;
  qr_delayed : (λ d, (m_readyAt d, fx_at q (m_thunk d))) <$> m_delayedQueue q
               = (λ e, (e.1, Some e.2)) <$> delayed s;
  qr_cap : m_dispatchCap q = cap s;
  qr_aborted : onAborted q = aborted s;
  qr_called : called q = history s;
  qr_reads : reads q = clock_reads s }.

Definition queue_refines (q : DispatchQueue) (s : spec_queue) : Prop := ∃ ids, queue_rel ids q s.

Lemma rel_frame ids q q' s :
  queue_rel ids q s → dq_wf ∅ ids q' →
  (∀ a, a ∈ ids ++ delayed_addrs q → fx_at q' a = fx_at q a) →
  m_delayedQueue q' = m_delayedQueue q →
  m_dispatchCap q' = m_dispatchCap q → onAborted q' = onAborted q → called q' = called q →
  reads q' = reads q → queue_rel ids q' s.
Proof.
  intros [] Hw Hf Hd Hc Ha Hca Hr.
  split; rewrite ?Hd, ?Hc, ?Ha, ?Hca, ?Hr; try done.
  - rewrite <-qr_ready0. apply list_fmap_ext. intros i a Hi. apply Hf, elem_of_app. left.
    by eapply list_elem_of_lookup_2.
  - rewrite <-qr_delayed0. apply list_fmap_ext. intros i d Hi. f_equal. apply Hf, elem_of_app. right.
    apply list_elem_of_fmap_2. by eapply list_elem_of_lookup_2.
Qed.

(** Fields the specification does not see may change freely. *)
Lemma rel_notified ids q s n : queue_rel ids q s → queue_rel ids (set_notified n q) s.
Proof. intros H. apply (rel_frame _ q); try done. by apply (dq_wf_frame _ _ q); [apply H|..]. Qed.

Lemma rel_count ids q s : queue_rel ids q s → m_count q = sz_wrap (Z.of_nat (length (ready s))).
Proof.
  intros H. rewrite (wf_count _ _ _ (qr_wf _ _ _ H)). do 2 f_equal.
  rewrite map_size_empty, Nat.add_0_r.
  by rewrite <-(length_fmap Some (ready s)), <-(qr_ready _ _ _ H), length_fmap.
Qed.

Lemma rel_new ids q s f :
  queue_rel ids q s →
  let q1 := (new_thunk f q).2 in
  queue_rel ids q1 s ∧ loose ∅ ids (next_addr q) q1 ∧ fx_at q1 (next_addr q) = Some f.
Proof.
  intros H q1. destruct (wf_new _ _ _ f (qr_wf _ _ _ H)) as [Hw Hl].
  split_and!; [|done|unfold fx_at; simpl; by rewrite lookup_insert_eq].
  apply (rel_frame _ q); try done. intros a Ha. unfold fx_at. simpl.
  rewrite lookup_insert_ne; [done|]. intros <-. by apply (loose_ids _ _ _ _ Hl).
Qed.

Lemma fx_at_linked t q a : fx_at (linked t q) a = fx_at q a.
Proof.
  unfold fx_at, linked. simpl. destruct (m_pHead q), (m_pTail q) as [tl|]; simpl; try done.
  destruct (heap q !! tl) as [th|] eqn:Ht; simpl; [|done].
  rewrite lookup_insert. case_decide; [subst; by rewrite Ht|done].
Qed.

Lemma linked_fields t q :
  m_delayedQueue (linked t q) = m_delayedQueue q ∧ m_dispatchCap (linked t q) = m_dispatchCap q ∧
  onAborted (linked t q) = onAborted q ∧ called (linked t q) = called q ∧ reads (linked t q) = reads q.
Proof. unfold linked. by repeat case_match. Qed.

Definition spec_append (f : fx) (s : spec_queue) : spec_queue :=
  mkSpec (ready s ++ [f]) (delayed s) (cap s) (aborted s) (history s) (clock_reads s).

Lemma rel_linked ids q s t f :
  queue_rel ids q s → loose ∅ ids t q → fx_at q t = Some f →
  queue_rel (ids ++ [t]) (linked t q) (spec_append f s).
Proof.
  intros [] Hl Hf.
  destruct (linked_fields t q) as (H1 & H2 & H3 & H4 & H5).
  split; cbn [spec_append ready delayed cap aborted history clock_reads].
  - by apply wf_linked.
  - rewrite !fmap_app. simpl. rewrite fx_at_linked, Hf. f_equal. rewrite <-qr_ready0.
    apply list_fmap_ext. intros. apply fx_at_linked.
  - rewrite H1. rewrite <-qr_delayed0.
    apply list_fmap_ext. intros. by rewrite fx_at_linked.
  - by rewrite H2.
  - by rewrite H3.
  - by rewrite H4.
  - by rewrite H5.
Qed.

Lemma rel_delete_loose ids q s t :
  queue_rel ids q s → loose ∅ ids t q → queue_rel ids (set_heap (delete t (heap q)) q) s.
Proof.
  intros H Hl. apply (rel_frame _ q); try done; [by apply wf_delete_loose; [apply H|]|].
  intros a Ha. unfold fx_at. simpl. rewrite lookup_delete_ne; [done|]. intros <-.
  by apply (loose_ids _ _ _ _ Hl).
Qed.

Lemma rel_pend_delayed ids q s t f r :
  queue_rel ids q s → loose ∅ ids t q → fx_at q t = Some f →
  queue_rel ids (set_delayed (pq_push (mkDelayed r t) (m_delayedQueue q)) q) (spec_pend_at r f s).
Proof.
  intros [] Hl Hf. split; simpl; try done; [by apply wf_pend_delayed|].
  change (fx_at (set_delayed _ q)) with (fx_at q).
  revert qr_delayed0. generalize (m_delayedQueue q). intros l. revert l.
  induction (delayed s) as [|[r' f'] ds IH]; intros [|d l]; simpl; try done.
  { by rewrite Hf. }
  intros Heq. injection Heq as Hr Hf' Hl'. subst r'.
  destruct (Z.ltb r (m_readyAt d)); simpl.
  - by rewrite Hf, Hf', Hl'.
  - rewrite Hf'. f_equal. exact (IH l Hl').
Qed.

Lemma rel_pop_delayed ids q s d rest :
  queue_rel ids q s → m_delayedQueue q = d :: rest →
  ∃ f ds, delayed s = (m_readyAt d, f) :: ds ∧
    queue_rel ids (set_delayed rest q)
      (mkSpec (ready s) ds (cap s) (aborted s) (history s) (clock_reads s)) ∧
    loose ∅ ids (m_thunk d) (set_delayed rest q) ∧ fx_at q (m_thunk d) = Some f.
Proof.
  intros [] Hd. destruct (wf_pop_delayed _ _ _ _ _ qr_wf0 Hd) as [Hw Hl].
  rewrite Hd in qr_delayed0. simpl in qr_delayed0.
  destruct (delayed s) as [|[r f] ds]; simpl in *; [done|].
  injection qr_delayed0 as Hr Hf Hds. subst r. exists f, ds. by split_and!.
Qed.

(** ** Running the operations *)
(** A lambda that leaves the queue alone, and may throw. *)
Definition call_body (raising : fx → option exn) (f : fx) : M DispatchQueue unit :=
  match raising f with Some e => throw e | None => mret tt end.

(** A client that performs [ops] one after the other, whatever they throw. *)
Fixpoint run_ops (run_fx : fx → M DispatchQueue unit) (clock : nat → time_point) (fuel : nat)
    (ops : list dq_op) (q : DispatchQueue) : list (outcome dq_res) * DispatchQueue :=
  match ops with
  | [] => ([], q)
  | o :: ops' => let r := run_op run_fx (mret tt) clock fuel o q in
                 let rs := run_ops run_fx clock fuel ops' r.2 in (r.1 :: rs.1, rs.2)
  end.

Section refinement.
  Context (steady_clock : nat → time_point).
Let OnPended : M DispatchQueue unit := mret tt.

Lemma link_store {E} ids q t :
  dq_wf E ids q →
  (∃ h, m_pHead q = Some h ∧ ∃ tl, m_pTail q = Some tl ∧
        ∃ th, heap q !! tl = Some th ∧
        set_tail (Some t) (set_heap (<[tl := mkThunk (m_fx th) (Some t)]> (heap q)) q)
        = set_count (m_count q) (linked t q)) ∨
  (m_pHead q = None ∧ set_tail (Some t) (set_head (Some t) q) = set_count (m_count q) (linked t q)).
Proof.
  intros Hw. pose proof (wf_head _ _ _ Hw) as Hh. unfold linked.
  destruct (decide (ids = [])) as [->|Hne]; [right|left].
  - simpl in Hh. by rewrite Hh.
  - destruct (wf_tail_live _ _ _ Hw Hne) as (tl & th & _ & Ht & Hth & _).
    destruct ids as [|a ids]; [done|]. simpl in Hh. exists a. split; [done|]. exists tl. split; [done|].
    exists th. split; [done|]. by rewrite Hh, Ht, Hth.
Qed.

Lemma PendExisting_run {E} ids q t :
  dq_wf E ids q → ∃ n, PendExisting OnPended t q = (Ret tt, set_notified n (linked t q)).
Proof.
  intros Hw. unfold PendExisting, store_flink, notify_all. munfold. simpl. unfold linked.
  destruct (link_store _ _ t Hw) as [(h & Hh & tl & Ht & th & Hth & _)|[Hh _]]; rewrite Hh; simpl.
  - rewrite Ht. simpl. rewrite Hth. exists (notified q). by destruct q.
  - exists (S (notified q)). by destruct q.
Qed.

(** The part of [operator_pend] below the cap. *)
Lemma operator_pend_link {E} ids q thunk :
  dq_wf E ids q →
  ∃ n, (modify (λ q, set_count (sz_inc (m_count q)) q);;
        q ← get;
        match m_pHead q with
        | Some _ =>
          tail ← deref (m_pTail q); store_flink tail (Some thunk);;
          modify (set_tail (Some thunk));; OnPended
        | None =>
          modify (λ q, set_head (Some thunk) (set_tail (Some thunk) q));;
          OnPended;; notify_all
        end;;
        mret true) q = (Ret true, set_notified n (linked thunk q)).
Proof.
  intros Hw. unfold store_flink, notify_all. munfold. simpl. unfold linked.
  destruct (link_store _ _ thunk Hw) as [(h & Hh & tl & Ht & th & Hth & _)|[Hh _]]; rewrite Hh; simpl.
  - rewrite Ht. simpl. rewrite Hth. exists (notified q). by destruct q.
  - exists (S (notified q)). by destruct q.
Qed.

Lemma operator_pend_run ids q s f :
  queue_rel ids q s →
  ∃ q' ids', operator_pend OnPended f q = (Ret (spec_pend f s).1, q') ∧ queue_rel ids' q' (spec_pend f s).2.
Proof.
  intros H. destruct (rel_new _ _ _ f H) as (H1 & Hl & Hf). unfold operator_pend.
  rewrite (bind_Ret _ _ _ (next_addr q) (new_thunk f q).2) by done.
  set (q1 := (new_thunk f q).2) in *. erewrite bind_Ret by done.
  rewrite (rel_count _ _ _ H1), (qr_cap _ _ _ H1). unfold spec_pend. destruct (Z.leb _ _).
  - destruct (loose_heap _ _ _ _ Hl) as [g Hg]. erewrite bind_Ret by by eapply delete_thunk_run.
    eexists _, ids. split; [done|]. by apply rel_delete_loose.
  - destruct (operator_pend_link _ _ (next_addr q) (qr_wf _ _ _ H1)) as [n ->].
    eexists _, _. split; [done|]. apply rel_notified. by apply rel_linked.
Qed.

Lemma AddExisting_run ids q s f :
  queue_rel ids q s →
  ∃ q' ids', (t ← new_thunk f; AddExisting OnPended t) q = (Ret tt, q') ∧
             queue_rel ids' q' (spec_pend f s).2.
Proof.
  intros H. destruct (rel_new _ _ _ f H) as (H1 & Hl & Hf).
  rewrite (bind_Ret _ _ _ (next_addr q) (new_thunk f q).2) by done.
  set (q1 := (new_thunk f q).2) in *. unfold AddExisting. erewrite bind_Ret by done.
  rewrite (rel_count _ _ _ H1), (qr_cap _ _ _ H1), Z.ltb_antisym. unfold spec_pend.
  destruct (Z.leb _ _); simpl.
  - destruct (loose_heap _ _ _ _ Hl) as [g Hg]. rewrite (delete_thunk_run _ _ _ Hg).
    eexists _, ids. split; [done|]. by apply rel_delete_loose.
  - destruct (PendExisting_run _ _ (next_addr q) (qr_wf _ _ _ H1)) as [n ->].
    eexists _, _. split; [done|]. apply rel_notified. by apply rel_linked.
Qed.

Lemma pend_delayed_run ids q s f r :
  queue_rel ids q s →
  ∃ q', (t ← new_thunk f; operator_pend_delayed r t) q = (Ret tt, q') ∧
        queue_rel ids q' (spec_pend_at r f s).
Proof.
  intros H. destruct (rel_new _ _ _ f H) as (H1 & Hl & Hf).
  rewrite (bind_Ret _ _ _ (next_addr q) (new_thunk f q).2) by done.
  set (q1 := (new_thunk f q).2) in *.
  pose proof (rel_pend_delayed _ _ _ _ _ r H1 Hl Hf) as H2.
  unfold operator_pend_delayed, notify_all. munfold. simpl.
  destruct (pq_push (mkDelayed r (next_addr q)) (m_delayedQueue q)) as [|top l] eqn:Hp.
  { pose proof (pq_push_perm (mkDelayed r (next_addr q)) (m_delayedQueue q)) as Hperm.
    rewrite Hp in Hperm. by apply Permutation_nil_cons in Hperm. }
  simpl. change (m_delayedQueue q1) with (m_delayedQueue q) in H2. rewrite Hp in H2.
  destruct (_ && _); simpl; eexists; (split; [done|]); [|done].
  by apply (rel_notified _ _ _ (S (notified q))) in H2.
Qed.

(** *** Promotion *)
Lemma promote_link ids q d rest (k : M DispatchQueue unit) :
  dq_wf ∅ ids q → m_delayedQueue q = d :: rest →
  (q ← get;
   match m_pHead q with
   | Some _ => tail ← deref (m_pTail q); store_flink tail (Some (m_thunk d))
   | None => modify (set_head (Some (m_thunk d)))
   end;;
   modify (λ q, set_delayed rest (set_count (sz_inc (m_count q)) (set_tail (Some (m_thunk d)) q)));;
   k) q
  = k (linked (m_thunk d) (set_delayed rest q)).
Proof.
  intros Hw Hd. unfold store_flink. munfold. simpl. unfold linked.
  destruct (link_store _ _ (m_thunk d) Hw) as [(h & Hh & tl & Ht & th & Hth & _)|[Hh _]]; rewrite Hh; simpl.
  - rewrite Hh, Ht. simpl. by rewrite Hth.
  - by rewrite Hh.
Qed.

Lemma promote_run t : ∀ d ids q s,
  queue_rel ids q s → m_delayedQueue q = d →
  ∃ q' ids', promote_loop t d q = (Ret tt, q') ∧ queue_rel ids' q' (spec_due t s) ∧
             length (m_delayedQueue q') = length (due t (delayed s)).2.
Proof.
  induction d as [|d rest IH]; intros ids q s H Hd; unfold spec_due.
  - pose proof (qr_delayed _ _ _ H) as Hq. rewrite Hd in Hq. destruct (delayed s) eqn:Hds; [|done].
    simpl. eexists _, ids. split; [done|]. rewrite app_nil_r, <-Hds, Hd. split; [by destruct s|by rewrite ?Hds].
  - destruct (rel_pop_delayed _ _ _ _ _ H Hd) as (f & ds & Hds & H' & Hl & Hf).
    rewrite Hds. simpl. destruct (Z.ltb _ _).
    + rewrite (promote_link _ _ _ _ _ (qr_wf _ _ _ H) Hd).
      pose proof (rel_linked _ _ _ _ _ H' Hl Hf) as H2.
      destruct (IH _ _ _ H2 (proj1 (linked_fields _ _))) as (q' & ids' & Hrun & H3 & Hlen).
      exists q', ids'. split_and!; [done| |done].
      unfold spec_due in H3. simpl in H3. by rewrite <-app_assoc in H3.
    + eexists _, ids. split; [done|]. rewrite app_nil_r, <-Hds. split; [by destruct s|].
      pose proof (f_equal length (qr_delayed _ _ _ H)) as Hlen. rewrite !length_fmap in Hlen.
      done.
Qed.

Lemma Promote_run ids q s :
  queue_rel ids q s →
  ∃ q' ids', PromoteReadyDispatchersUnsafe steady_clock q
    = (Ret (negb (bool_decide ((due (steady_clock (clock_reads s)) (delayed s)).1 = []))), q') ∧
    queue_rel ids' q' (spec_promote steady_clock s).
Proof.
  intros H. unfold PromoteReadyDispatchersUnsafe. rewrite (bind_Ret _ _ _ q q) by done.
  set (q1 := set_reads (S (reads q)) q).
  rewrite (bind_Ret _ _ _ (steady_clock (reads q)) q1) by done.
  assert (queue_rel ids q1 (spec_tick s)) as H1.
  { destruct H. split; simpl; try done; [by apply (dq_wf_frame _ _ q)|by rewrite qr_reads0]. }
  destruct (promote_run (steady_clock (reads q)) _ _ _ _ H1 eq_refl) as (q' & ids' & Hrun & H2 & Hlen).
  change (m_delayedQueue q1) with (m_delayedQueue q) in Hrun.
  rewrite (bind_Ret _ _ _ tt q') by done. exists q', ids'.
  rewrite (qr_reads _ _ _ H) in *. split; [|exact H2].
  unfold get. munfold. f_equal. f_equal. f_equal. simpl in Hlen. rewrite Hlen.
  pose proof (f_equal length (qr_delayed _ _ _ H)) as Hl. rewrite !length_fmap in Hl. rewrite Hl.
  assert (∀ t l, length (due t l).1 + length (due t l).2 = length l) as Hsum.
  { intros t l. induction l as [|[r f] l IH]; simpl; [done|]. destruct (Z.ltb _ _); simpl; lia. }
  specialize (Hsum (steady_clock (clock_reads s)) (delayed s)).
  destruct (due _ _) as [[|f l] l2]; simpl in *; rewrite ?bool_decide_true, ?bool_decide_false by done;
    [apply Nat.eqb_eq|apply Nat.eqb_neq]; lia.
Qed.


(** *** Dispatching *)
Context (raising : fx → option exn).

Lemma rel_pop t ids q s f l :
  queue_rel (t :: ids) q s → ready s = f :: l →
  ∃ th, heap q !! t = Some th ∧ m_fx th = f ∧
    ∀ n, queue_rel ids
      (set_heap (delete t (heap q)) (set_notified n (set_count (sz_dec (m_count q))
         (set_called (called q ++ [f]) (set_head (m_pFlink th) q)))))
      (mkSpec l (delayed s) (cap s) (aborted s) (history s ++ [f]) (clock_reads s)).
Proof.
  intros H Hr. pose proof (qr_wf _ _ _ H) as Hw.
  destruct (wf_chain _ _ _ Hw) as (Hh & th & Ht & _). exists th. split; [done|].
  pose proof (qr_ready _ _ _ H) as Hready. rewrite Hr in Hready. simpl in Hready.
  injection Hready as Hf Hready. unfold fx_at in Hf. rewrite Ht in Hf. injection Hf as Hf.
  split; [done|]. intros n.
  assert (∅ !! t = @None DispatchThunk) as HE by apply lookup_empty.
  pose proof (wf_finish _ _ _ _ _ (wf_pop _ _ _ _ _ Hw Ht) HE) as Hw'.
  pose proof (wf_nodup _ _ _ Hw) as Hnd. simpl in Hnd. apply NoDup_cons in Hnd as [Hn _].
  assert (∀ a, a ∈ ids ++ delayed_addrs q → fx_at (set_heap (delete t (heap q)) q) a = fx_at q a) as Hfx.
  { intros a Ha. unfold fx_at. simpl. rewrite lookup_delete_ne; [done|]. by intros <-. }
  apply (rel_frame _ (set_called (called q ++ [f])
    (set_heap (delete t (heap q)) (set_count (sz_dec (m_count q)) (set_head (m_pFlink th) q))))); try done;
    [|by apply (dq_wf_frame _ _ _ _ Hw')].
  destruct H. split; simpl; try done; [by apply (dq_wf_frame _ _ _ _ Hw')| | |by rewrite qr_called0].
  - transitivity (fx_at q <$> ids); [|exact Hready]. apply list_fmap_ext. intros i a Hi. apply Hfx, elem_of_app. left.
    by eapply list_elem_of_lookup_2.
  - rewrite <-qr_delayed0. apply list_fmap_ext. intros i d Hi. f_equal. apply Hfx, elem_of_app. right.
    apply list_elem_of_fmap_2. by eapply list_elem_of_lookup_2.
Qed.

(** A ready list that is not empty has a head. *)
Lemma rel_ready_cons ids q s f l :
  queue_rel ids q s → ready s = f :: l → ∃ t ids', ids = t :: ids' ∧ m_pHead q = Some t.
Proof.
  intros H Hr. pose proof (qr_ready _ _ _ H) as Hq. rewrite Hr in Hq. destruct ids as [|t ids]; [done|].
  exists t, ids. split; [done|]. by rewrite (wf_head _ _ _ (qr_wf _ _ _ H)).
Qed.

Lemma rel_ready_nil ids q s : queue_rel ids q s → ready s = [] → ids = [] ∧ m_pHead q = None.
Proof.
  intros H Hr. pose proof (qr_ready _ _ _ H) as Hq. rewrite Hr in Hq. destruct ids as [|t ids]; [|done].
  split; [done|]. by rewrite (wf_head _ _ _ (qr_wf _ _ _ H)).
Qed.

Lemma DispatchEventUnsafe_run ids q s f l :
  queue_rel ids q s → ready s = f :: l →
  ∃ q' ids', DispatchEventUnsafe (call_body raising) q = (lambda_outcome raising f tt, q') ∧
    queue_rel ids' q' (mkSpec l (delayed s) (cap s) (aborted s) (history s ++ [f]) (clock_reads s)).
Proof.
  intros H Hr. destruct (rel_ready_cons _ _ _ _ _ H Hr) as (t & ids' & -> & Hh).
  destruct (rel_pop _ _ _ _ _ _ H Hr) as (th & Ht & Hf & H').
  unfold DispatchEventUnsafe, release_count, notify_all. rewrite (bind_Ret _ _ _ q q) by done.
  rewrite (bind_Ret _ _ _ t q) by (by rewrite Hh).
  rewrite (bind_Ret _ _ _ (m_pFlink th) q) by by apply load_flink_run.
  rewrite (bind_Ret _ _ _ tt (set_head (m_pFlink th) q)) by done.
  assert (call_thunk (call_body raising) t (set_head (m_pFlink th) q)
    = (lambda_outcome raising f tt, set_called (called q ++ [f]) (set_head (m_pFlink th) q))) as Hcall.
  { unfold call_thunk, call_body, lambda_outcome. munfold. simpl. rewrite Ht. simpl. rewrite Hf.
    by destruct (raising f). }
  unfold at_exit. rewrite Hcall. unfold lambda_outcome, delete_thunk. munfold. simpl.
  destruct (raising f), (Z.eqb (sz_dec (m_count q)) 0); simpl; rewrite Ht; simpl; eexists _, ids';
    (split; [done|]); first [exact (H' (S (notified q)))|exact (H' (notified q))].
Qed.

Lemma DispatchEvent_run ids q s :
  queue_rel ids q s →
  ∃ q' ids', DispatchEvent (call_body raising) steady_clock q = ((spec_dispatch steady_clock raising s).1, q') ∧
    queue_rel ids' q' (spec_dispatch steady_clock raising s).2.
Proof.
  intros H. unfold DispatchEvent, nothing_ready. rewrite bind_assoc, (bind_Ret _ _ _ q q) by done.
  unfold spec_dispatch. destruct (ready s) as [|f l] eqn:Hr.
  - destruct (rel_ready_nil _ _ _ H Hr) as [_ ->].
    destruct (Promote_run _ _ _ H) as (q1 & ids1 & Hp & H1).
    rewrite bind_assoc, (bind_Ret _ _ _ _ _ Hp).
    assert (ready (spec_promote steady_clock s) = (due (steady_clock (clock_reads s)) (delayed s)).1) as Hd.
    { simpl. by rewrite Hr. }
    rewrite <-Hd. destruct (ready (spec_promote steady_clock s)) as [|f l] eqn:Hr1.
    + exists q1, ids1. by split.
    + rewrite bool_decide_false by done. simpl.
      destruct (DispatchEventUnsafe_run _ _ _ _ _ H1 Hr1) as (q' & ids' & Hrun & H').
      exists q', ids'. split; [|done]. munfold. rewrite Hrun. unfold lambda_outcome.
      by destruct (raising f).
  - destruct (rel_ready_cons _ _ _ _ _ H Hr) as (t & ids' & -> & Hh). rewrite Hh. rewrite Hr.
    destruct (DispatchEventUnsafe_run _ _ _ _ _ H Hr) as (q' & ids1 & Hrun & H').
    exists q', ids1. split; [|done]. munfold. rewrite Hrun. unfold lambda_outcome. by destruct (raising f).
Qed.

Lemma spec_dispatch_backlog s s' :
  spec_dispatch steady_clock raising s = (Ret true, s') → backlog s = S (backlog s').
Proof.
  unfold spec_dispatch, backlog. destruct (ready s) as [|f l] eqn:Hr.
  - assert (length (ready (spec_promote steady_clock s)) + length (delayed (spec_promote steady_clock s))
            = length (delayed s)) as Hsum.
    { simpl. rewrite Hr. simpl. generalize (steady_clock (clock_reads s)) as t. intros t.
      induction (delayed s) as [|[r f] ds IH]; simpl; [done|]. destruct (Z.ltb _ _); simpl; lia. }
    destruct (ready (spec_promote steady_clock s)) as [|f l]; [done|]. simpl in Hsum.
    unfold lambda_outcome. destruct (raising f); [done|]. intros [= <-]. simpl. lia.
  - rewrite Hr. unfold lambda_outcome. destruct (raising f); [done|]. intros [= <-]. simpl. lia.
Qed.

(** More fuel than the backlog gives the same result. *)
Lemma spec_dispatch_all_fuel n : ∀ s m,
  backlog s < n → backlog s < m →
  spec_dispatch_all steady_clock raising n s = spec_dispatch_all steady_clock raising m s.
Proof.
  induction n as [|n IH]; intros s m Hn Hm; [lia|]. destruct m as [|m]; [lia|]. simpl.
  destruct (spec_dispatch steady_clock raising s) as [[[]|e|r] s'] eqn:Hs; try done.
  apply spec_dispatch_backlog in Hs. rewrite (IH s' m) by lia. done.
Qed.

Lemma DispatchAllEvents_run fuel : ∀ ids q s,
  queue_rel ids q s →
  ∃ q' ids', DispatchAllEvents (call_body raising) steady_clock fuel q
      = ((spec_dispatch_all steady_clock raising fuel s).1, q') ∧
    queue_rel ids' q' (spec_dispatch_all steady_clock raising fuel s).2.
Proof.
  induction fuel as [|fuel IH]; intros ids q s H; [by exists q, ids|].
  destruct (DispatchEvent_run _ _ _ H) as (q1 & ids1 & Hrun & H1). simpl.
  destruct (spec_dispatch steady_clock raising s) as [[[]|e|r] s1]; simpl in *.
  - rewrite (bind_Ret _ _ _ true q1) by done.
    destruct (IH _ _ _ H1) as (q2 & ids2 & Hrun2 & H2). exists q2, ids2.
    destruct (spec_dispatch_all _ _ _ s1) as [[n|e|r] s2]; simpl in *; (split; [|done]);
      munfold; by rewrite Hrun2.
  - exists q1, ids1. rewrite (bind_Ret _ _ _ false q1) by done. by split.
  - exists q1, ids1. munfold. by rewrite Hrun.
  - exists q1, ids1. munfold. by rewrite Hrun.
Qed.

(** *** Clearing *)
Lemma call_body_safe f : dq_safe (call_body raising f).
Proof. intros E. unfold call_body. destruct (raising f); [apply safe_throw|apply safe_ret]. Qed.

Lemma delete_delayed_run ds : ∀ q,
  NoDup (map m_thunk ds) → (∀ d, d ∈ ds → is_Some (heap q !! m_thunk d)) →
  ∃ h, for_each (λ d, delete_thunk (m_thunk d)) ds q = (Ret tt, set_heap h q) ∧
       ∀ a, a ∉ map m_thunk ds → h !! a = heap q !! a.
Proof.
  induction ds as [|d ds IH]; intros q Hnd Hl; [exists (heap q); by destruct q|].
  apply NoDup_cons in Hnd as [Hn Hnd]. destruct (Hl d) as [t Ht]; [left|].
  cbn [for_each]. rewrite (bind_Ret _ _ _ _ _ (delete_thunk_run _ _ _ Ht)).
  destruct (IH (set_heap (delete (m_thunk d) (heap q)) q)) as (h & -> & Hh); [done| |].
  - intros e He. simpl. rewrite lookup_delete_ne; [apply Hl; by right|].
    intros Heq. apply Hn. rewrite Heq. by apply list_elem_of_fmap_2.
  - exists h. split; [by destruct q|]. intros a Ha. apply not_elem_of_cons in Ha as [Hne Ha].
    rewrite Hh by done. simpl. by rewrite lookup_delete_ne.
Qed.

Hypothesis raising_no_abort : ∀ f w, raising f ≠ Some (dispatch_aborted_exception w).

Lemma rundown_run fuel : ∀ l p q fs,
  chain (heap q) p l → NoDup l → fx_at q <$> l = Some <$> fs → length l ≤ fuel →
  ∃ p' l' h c, rundown_loop (call_body raising) fuel p q
      = (Ret p', set_heap h (set_count c (set_called (called q ++ run_down raising fs) q))) ∧
    chain h p' l' ∧ NoDup l' ∧ length l' ≤ length l.
Proof using raising_no_abort.
  induction fuel as [|fuel IH]; intros l p q fs Hc Hnd Hfs Hlen;
    (destruct l as [|a l]; simpl in Hc;
      [subst; destruct fs; [|done]; exists None, [], (heap q), (m_count q);
       rewrite app_nil_r; split_and!; [by destruct q|done|constructor|lia]|]);
    destruct Hc as (-> & th & Ha & Hc); [simpl in Hlen; lia|].
  destruct fs as [|f fs]; [done|]. simpl in Hfs. injection Hfs as Hf Hfs.
  unfold fx_at in Hf. rewrite Ha in Hf. injection Hf as <-.
  pose proof Hnd as [Hn Hnd']%NoDup_cons. set (f := m_fx th).
  assert (call_thunk (call_body raising) a q
    = (lambda_outcome raising f tt, set_called (called q ++ [f]) q)) as Hcall.
  { unfold call_thunk, call_body, lambda_outcome. munfold. rewrite Ha. simpl. fold f. by destruct (raising f). }
  unfold lambda_outcome in Hcall. cbn [run_down]. fold f. simpl.
  unfold try_catch, load_flink. munfold. rewrite Ha. simpl. rewrite Hcall.
  destruct (raising f) as [e|] eqn:He; simpl.
  - exists (Some a), (a :: l), (heap q), (m_count q).
    split; [|split; [simpl; eauto|by split]].
    destruct e; try (by destruct q). by destruct (raising_no_abort f what).
  - rewrite (delete_thunk_run a th (set_called (called q ++ [f]) q) Ha). simpl.
    set (q2 := set_count (sz_dec (m_count q)) (set_heap (delete a (heap q)) (set_called (called q ++ [f]) q))).
    destruct (IH l (m_pFlink th) q2 fs) as (p' & l' & h & c & Hrun & Hc' & Hnd2 & Hle);
      [by apply chain_delete|done| |simpl in Hlen; lia|].
    + transitivity (fx_at q <$> l); [|exact Hfs]. apply list_fmap_ext. intros i b Hb. unfold fx_at. simpl.
      rewrite lookup_delete_ne; [done|]. intros <-. apply Hn. by eapply list_elem_of_lookup_2.
    + exists p', l', h, c. split_and!; [|done|done|simpl; lia].
      unfold q2 in *. simpl in *. rewrite Hrun. by rewrite <-app_assoc.
Qed.

Lemma ClearQueueInternal_run ids q s fuel b :
  queue_rel ids q s → length (ready s) ≤ fuel →
  ∃ q', ClearQueueInternal (call_body raising) fuel b q = (Ret tt, q') ∧
        queue_rel [] q' (spec_clear raising b s).
Proof using raising_no_abort.
  intros H Hfuel. pose proof (qr_wf _ _ _ H) as Hw.
  pose proof (wf_nodup _ _ _ Hw) as Hnd. apply NoDup_app in Hnd as (Hnd1 & Hsep & Hnd2).
  pose proof (ClearQueueInternal_safe (call_body raising) call_body_safe fuel b ∅ q
                (ex_intro _ ids Hw)) as Hsafe.
  assert (length ids = length (ready s)) as Hlen.
  { pose proof (f_equal length (qr_ready _ _ _ H)) as Hl. by rewrite !length_fmap in Hl. }
  destruct (delete_delayed_run (m_delayedQueue q) (clear_state q)) as (h & Hdel & Hh); [done| |].
  { intros d Hd. destruct (wf_delayed _ _ _ Hw (m_thunk d)) as [g Hg]; [by apply list_elem_of_fmap_2|].
    by eexists. }
  assert (∃ p' l' h' c, (if b then rundown_loop (call_body raising) fuel (m_pHead q) else mret (m_pHead q))
      (set_heap h (clear_state q))
    = (Ret p', set_heap h' (set_count c (set_called (called q ++ (if b then run_down raising (ready s) else []))
                (clear_state q)))) ∧
    chain h' p' l' ∧ NoDup l' ∧ length l' ≤ fuel) as (p' & l' & h' & c & Hrun & Hc' & Hnd' & Hle).
  { assert (chain h (m_pHead q) ids) as Hc.
    { eapply chain_agree; [|apply (wf_chain _ _ _ Hw)]. intros a Ha. apply Hh. intros Hin. exact (Hsep a Ha Hin). }
    destruct b.
    - destruct (rundown_run fuel ids (m_pHead q) (set_heap h (clear_state q)) (ready s))
        as (p' & l' & h' & c & Hrun & ? & ? & ?); [done|done| |lia|].
      + rewrite <-(qr_ready _ _ _ H). apply list_fmap_ext. intros i a Ha. unfold fx_at. simpl.
        rewrite Hh; [done|]. intros Hin. exact (Hsep a (list_elem_of_lookup_2 _ _ _ Ha) Hin).
      + exists p', l', h', c. split_and!; [rewrite Hrun; by destruct q|done|done|lia].
    - exists (m_pHead q), ids, h, (m_count q). split_and!; [|done|done|lia].
      rewrite app_nil_r. by destruct q. }
  assert (∃ h'' c'' n'', ClearQueueInternal (call_body raising) fuel b q = (Ret tt,
    set_notified n'' (set_heap h'' (set_count c'' (set_called (called q ++ (if b then run_down raising (ready s) else []))
                (clear_state q)))))) as (h'' & c'' & n'' & Heq).
  { unfold ClearQueueInternal. rewrite (bind_Ret _ _ _ q q) by done.
    rewrite (bind_Ret _ _ _ tt (clear_state q)) by done. rewrite (bind_Ret _ _ _ _ _ Hdel).
    rewrite (bind_Ret _ _ _ _ _ Hrun).
    match type of Hrun with _ = (_, ?s) => pose proof (delete_chain_spec fuel p' l' s Hc' Hnd') as Hdc end.
    destruct (delete_chain fuel p' _) as [[n|e|[]] q2] eqn:Hrun2; try done; [|lia].
    destruct Hdc as [_ ->]. rewrite (bind_Ret _ _ _ _ _ Hrun2). eexists _, _, _. by destruct q. }
  rewrite Heq in *. eexists. split; [done|]. destruct Hsafe as [ids' Hw'].
  pose proof (wf_head _ _ _ Hw') as Hhd. destruct ids' as [|a ids']; [|done].
  destruct H. split; simpl; try done. by rewrite qr_called0.
Qed.

Lemma Cancel_run ids q s :
  queue_rel ids q s →
  ∃ q' ids', Cancel q = (Ret (spec_cancel s).1, q') ∧ queue_rel ids' q' (spec_cancel s).2.
Proof.
  intros H. pose proof (qr_wf _ _ _ H) as Hw. unfold Cancel, spec_cancel.
  rewrite (bind_Ret _ _ _ q q) by done. destruct (ready s) as [|f l] eqn:Hr.
  - destruct (rel_ready_nil _ _ _ H Hr) as [-> ->]. destruct (m_delayedQueue q) as [|d rest] eqn:Hd.
    + pose proof (qr_delayed _ _ _ H) as Hds. rewrite Hd in Hds. destruct (delayed s); [|done].
      by exists q, [].
    + destruct (rel_pop_delayed _ _ _ _ _ H Hd) as (f & ds & -> & H' & Hl & Hf).
      destruct (loose_heap _ _ _ _ Hl) as [g Hg].
      rewrite (bind_Ret _ _ _ tt (set_delayed rest q)) by done.
      rewrite (bind_Ret _ _ _ _ _ (delete_thunk_run _ _ _ Hg)).
      eexists _, []. split; [done|]. rewrite Hr in H'. by apply rel_delete_loose.
  - destruct (rel_ready_cons _ _ _ _ _ H Hr) as (t & ids' & -> & Hh). rewrite Hh.
    destruct (rel_pop _ _ _ _ _ _ H Hr) as (th & Ht & Hf & H').
    rewrite (bind_Ret _ _ _ _ _ (load_flink_run _ _ _ Ht)).
    rewrite (bind_Ret _ _ _ tt (set_count (sz_dec (m_count q)) (set_head (m_pFlink th) q))) by done.
    erewrite bind_Ret by (by apply (delete_thunk_run t th)).
    eexists _, ids'. split; [done|]. specialize (H' (notified q)). simpl.
    destruct H'. split; simpl in *; try done; [|apply H].
    by apply (dq_wf_frame _ _ _ _ qr_wf0).
Qed.

(** *** One operation, then any sequence *)
Lemma rel_reads ids q s : queue_rel ids q s → queue_rel ids (set_reads (S (reads q)) q) (spec_tick s).
Proof.
  intros []. split; simpl; try done; [by apply (dq_wf_frame _ _ q)|by rewrite qr_reads0].
Qed.

Lemma pend_after_run ids q s d f :
  queue_rel ids q s →
  ∃ q' ids', DelayedExpressionRel OnPended steady_clock d f q = (Ret tt, q') ∧
    queue_rel ids' q' (spec_op steady_clock raising (op_pend_after d f) s).2.
Proof.
  intros H. unfold DelayedExpressionRel. simpl. destruct (Z.eqb d 0).
  - destruct (operator_pend_run _ _ _ f H) as (q' & ids' & Hrun & H').
    rewrite (bind_Ret _ _ _ _ _ Hrun). by exists q', ids'.
  - rewrite (bind_Ret _ _ _ (steady_clock (reads q)) (set_reads (S (reads q)) q)) by done.
    rewrite (qr_reads _ _ _ H).
    destruct (pend_delayed_run _ _ _ f (steady_clock (clock_reads s) + d)%Z (rel_reads _ _ _ H))
      as (q' & Hrun & H'). exists q', ids. rewrite (qr_reads _ _ _ H) in *. by split.
Qed.

Lemma run_op_refines fuel o ids q s :
  queue_rel ids q s → backlog s < fuel →
  ∃ q' ids', run_op (call_body raising) OnPended steady_clock fuel o q
      = ((spec_op steady_clock raising o s).1, q') ∧
    queue_rel ids' q' (spec_op steady_clock raising o s).2.
Proof using raising_no_abort.
  intros H Hfuel. unfold backlog in Hfuel. destruct o; cbn [run_op spec_op fst snd].
  - destruct (operator_pend_run _ _ _ f H) as (q' & ids' & Hrun & H').
    rewrite (bind_Ret _ _ _ _ _ Hrun). by exists q', ids'.
  - destruct (AddExisting_run _ _ _ f H) as (q' & ids' & Hrun & H').
    rewrite (bind_Ret _ _ _ _ _ Hrun). by exists q', ids'.
  - destruct (pend_delayed_run _ _ _ f t H) as (q' & Hrun & H').
    rewrite (bind_Ret _ _ _ _ _ Hrun). by exists q', ids.
  - destruct (pend_after_run _ _ _ delay f H) as (q' & ids' & Hrun & H').
    rewrite (bind_Ret _ _ _ _ _ Hrun). by exists q', ids'.
  - destruct (DispatchEvent_run _ _ _ H) as (q' & ids' & Hrun & H'). exists q', ids'.
    split; [|done]. munfold. rewrite Hrun. by destruct (spec_dispatch _ _ _) as [[] ?].
  - destruct (DispatchAllEvents_run fuel _ _ _ H) as (q' & ids' & Hrun & H'). exists q', ids'.
    rewrite (spec_dispatch_all_fuel (S (backlog s)) s fuel) by (unfold backlog; lia).
    split; [|done]. munfold. rewrite Hrun. by destruct (spec_dispatch_all _ _ _ _) as [[] ?].
  - destruct (ClearQueueInternal_run _ _ _ fuel false H) as (q' & Hrun & H'); [lia|].
    unfold Abort. rewrite (bind_Ret _ _ _ _ _ Hrun). by exists q', [].
  - destruct (ClearQueueInternal_run _ _ _ fuel true H) as (q' & Hrun & H'); [lia|].
    unfold Rundown. rewrite (bind_Ret _ _ _ _ _ Hrun). by exists q', [].
  - destruct (Cancel_run _ _ _ H) as (q' & ids' & Hrun & H').
    rewrite (bind_Ret _ _ _ _ _ Hrun). by exists q', ids'.
  - eexists _, ids. split; [done|]. destruct H. split; simpl; try done. by apply (dq_wf_frame _ _ q).
Qed.

Lemma delayed_insert_length e l : length (delayed_insert e l) = S (length l).
Proof. induction l as [|x l IH]; simpl; [done|]. destruct (Z.ltb _ _); simpl; lia. Qed.

Lemma due_length t l : length (due t l).1 + length (due t l).2 = length l.
Proof. induction l as [|[r f] l IH]; simpl; [done|]. destruct (Z.ltb _ _); simpl; lia. Qed.

Lemma spec_dispatch_backlog_le s : backlog (spec_dispatch steady_clock raising s).2 ≤ backlog s.
Proof.
  unfold spec_dispatch, backlog. destruct (ready s) as [|f l] eqn:Hr; [|rewrite Hr; simpl; lia].
  assert (backlog (spec_promote steady_clock s) = length (delayed s)) as Hd.
  { unfold backlog. simpl. rewrite Hr. apply due_length. }
  unfold backlog in Hd. destruct (ready (spec_promote steady_clock s)) eqn:Hr1; cbn [snd ready delayed];
    rewrite ?Hr1; simpl in *; lia.
Qed.

Lemma spec_dispatch_all_backlog n : ∀ s, backlog (spec_dispatch_all steady_clock raising n s).2 ≤ backlog s.
Proof.
  induction n as [|n IH]; intros s; simpl; [done|]. pose proof (spec_dispatch_backlog_le s) as Hd.
  destruct (spec_dispatch _ _ s) as [[[]|e|r] s1]; simpl in *; try done.
  specialize (IH s1). destruct (spec_dispatch_all _ _ n s1) as [[] s2]; simpl in *; lia.
Qed.

(** An operation adds at most one entry. *)
Lemma spec_op_backlog o s : backlog (spec_op steady_clock raising o s).2 ≤ S (backlog s).
Proof.
  assert (∀ f, backlog (spec_pend f s).2 ≤ S (backlog s)) as Hp.
  { intros f. unfold spec_pend, backlog. destruct (Z.leb _ _); simpl; rewrite ?length_app; simpl; lia. }
  destruct o; cbn [spec_op fst snd]; try apply Hp; try (unfold backlog; simpl; lia).
  - unfold backlog. simpl. rewrite delayed_insert_length. lia.
  - destruct (Z.eqb _ _); [apply Hp|]. unfold backlog. simpl. rewrite delayed_insert_length. lia.
  - pose proof (spec_dispatch_backlog_le s). lia.
  - pose proof (spec_dispatch_all_backlog (S (backlog s)) s). lia.
  - unfold spec_cancel, backlog. destruct (ready s) eqn:Hr, (delayed s) eqn:Hd; simpl; rewrite ?Hr, ?Hd; simpl; lia.
Qed.

Lemma run_ops_refines fuel ops : ∀ ids q s,
  queue_rel ids q s → backlog s + length ops ≤ fuel →
  let r := run_ops (call_body raising) steady_clock fuel ops q in
  r.1 = (spec_ops steady_clock raising ops s).1 ∧ queue_refines r.2 (spec_ops steady_clock raising ops s).2.
Proof using raising_no_abort.
  induction ops as [|o ops IH]; intros ids q s H Hfuel; simpl; [split; [done|by exists ids]|].
  simpl in Hfuel. destruct (run_op_refines fuel o _ _ _ H) as (q' & ids' & Hrun & H'); [lia|].
  unfold OnPended in Hrun. rewrite Hrun. simpl. pose proof (spec_op_backlog o s).
  destruct (IH _ _ _ H') as [<- ?]; [lia|]. done.
Qed.
End refinement.

Lemma rel_new_queue c : queue_rel [] (DispatchQueue_cap c) (spec_new c).
Proof.
  split; try done. destruct (dq_inv_new c) as [ids Hw].
  pose proof (wf_head _ _ _ Hw) as Hh. by destruct ids.
Qed.


(** Lambda 1 throws and no other. *)
Definition second_raises (f : fx) : option exn := if decide (f = 1) then Some (user_exception 0) else None.

Lemma one_throws f w : second_raises f ≠ Some (dispatch_aborted_exception w).
Proof. unfold second_raises. by case_decide. Qed.

