(* ===== verification/DispatchQueueMerge.v ===== *)
(** * DispatchQueue: merging, retrying, and the runs that go wrong

    [operator_append] (the overload of [+=] that takes another queue) and
    [TryDispatchEvent] are correct under conditions the code does not check;
    this file proves them under those conditions and exhibits the runs outside
    them, with the one of [Rundown] that never ends. *)
From stdpp Require Import base gmap list sorting strings.
From Stdlib Require Import ZArith Lia.
From S2P Require Import Prelude.
From S2P Require Import DispatchQueue.
From S2P Require Import DispatchQueueFacts.
From S2P Require Import DispatchQueueSpec.

(** ** Merging two queues *)
Lemma chain_concat h p1 l1 p2 l2 tl th :
  chain h p1 l1 → chain h p2 l2 → NoDup (l1 ++ l2) → last l1 = Some tl → h !! tl = Some th →
  chain (<[tl := mkThunk (m_fx th) p2]> h) p1 (l1 ++ l2).
Proof.
  intros Hc1 Hc2 Hnd. revert p1 Hc1 Hnd. induction l1 as [|a l1 IH]; intros p1 Hc1 Hnd Hl Hth; [done|].
  simpl in Hnd. apply NoDup_cons in Hnd as [Hn Hnd]. destruct Hc1 as (-> & ta & Ha & Hc1).
  simpl. split; [done|]. destruct l1 as [|b l1].
  - injection Hl as ->. rewrite lookup_insert_eq. eexists. split; [done|]. simpl.
    apply chain_insert; [done|]. simpl in Hn. done.
  - assert (a ≠ tl) as Hne.
    { intros ->. apply Hn, elem_of_app. left. by apply last_Some_elem_of. }
    rewrite lookup_insert_ne by done. exists ta. split; [done|]. by apply IH.
Qed.

(** Both queues' thunks in one memory. *)
Definition joined (q rhs : DispatchQueue) : DispatchQueue :=
  set_next (max (next_addr q) (next_addr rhs)) (set_heap (heap q ∪ heap rhs) q).

Definition spliced (q rhs : DispatchQueue) : DispatchQueue :=
  set_count (sz_add (m_count q) (m_count rhs))
    (set_tail (m_pTail rhs)
       match m_pHead q, m_pTail q with
       | Some _, Some tl =>
         match heap q !! tl with
         | Some th => set_heap (<[tl := mkThunk (m_fx th) (m_pHead rhs)]> (heap q)) q
         | None => q
         end
       | _, _ => set_head (m_pHead rhs) q
       end).

Section splice.
  Context (ids1 ids2 : list addr) (q rhs : DispatchQueue).
  Hypothesis (H1 : dq_wf ∅ ids1 q) (H2 : dq_wf ∅ ids2 rhs).
  Hypothesis Hdisj : heap q ##ₘ heap rhs.
  Hypothesis Hne : ids2 ≠ [].
Let h := heap q ∪ heap rhs.

Lemma owned_live E ids s a : dq_wf E ids s → a ∈ ids ++ delayed_addrs s → is_Some (heap s !! a).
Proof.
  intros Hw [Ha|Ha]%elem_of_app; [eapply chain_live; [apply Hw|done]|].
  by destruct (wf_delayed _ _ _ Hw a Ha) as [? ->].
Qed.

Lemma joined_l : heap q ⊆ h.
Proof. apply map_union_subseteq_l. Qed.

Lemma joined_r : heap rhs ⊆ h.
Proof using Hdisj. by apply map_union_subseteq_r. Qed.

Lemma splice_sep a : a ∈ ids1 ++ delayed_addrs q → a ∉ ids2 ++ delayed_addrs rhs.
Proof using H1 H2 Hdisj.
  intros Ha Hb. destruct (owned_live _ _ _ a H1 Ha) as [x Hx], (owned_live _ _ _ a H2 Hb) as [y Hy].
  by eapply map_disjoint_spec.
Qed.

Lemma splice_nodup : NoDup ((ids1 ++ ids2) ++ delayed_addrs q).
Proof using H1 H2 Hdisj.
  rewrite <-app_assoc, (Permutation_app_comm ids2), app_assoc. apply NoDup_app.
  split; [apply H1|]. pose proof (wf_nodup _ _ _ H2) as Hn2.
  split; [|by apply NoDup_app in Hn2 as (? & _)].
  intros a Ha Hb. apply (splice_sep a Ha), elem_of_app. by left.
Qed.

Lemma splice_delayed_out a : a ∈ delayed_addrs rhs → a ∉ (ids1 ++ ids2) ++ delayed_addrs q.
Proof using H1 H2 Hdisj.
  intros Ha. rewrite !elem_of_app. pose proof (wf_nodup _ _ _ H2) as Hn2.
  apply NoDup_app in Hn2 as (_ & Hn2 & _).
  intros [[Hx|Hx]|Hx]; [|by apply (Hn2 a)|]; apply (splice_sep a); rewrite elem_of_app; auto.
Qed.

Lemma splice_count : sz_add (m_count q) (m_count rhs)
  = sz_wrap (Z.of_nat (length (ids1 ++ ids2) + size (∅ : gmap addr DispatchThunk))).
Proof using H1 H2.
  rewrite (wf_count _ _ _ H1), (wf_count _ _ _ H2), map_size_empty, length_app. unfold sz_add, sz_wrap.
  rewrite <-Z.add_mod by done. f_equal. lia.
Qed.

Lemma splice_fresh a : is_Some (h !! a) → a < max (next_addr q) (next_addr rhs).
Proof using H1 H2.
  intros [x Hx]. apply lookup_union_Some_raw in Hx as [Hx|[_ Hx]];
    [pose proof (wf_fresh _ _ _ H1 a (ex_intro _ x Hx))|pose proof (wf_fresh _ _ _ H2 a (ex_intro _ x Hx))]; lia.
Qed.

Lemma splice_tail : m_pTail rhs = last (ids1 ++ ids2).
Proof using H2 Hne.
  rewrite (wf_tail _ _ _ H2) by done. destruct ids2 as [|x l]; [done|]. by rewrite last_app_cons.
Qed.

(** A delayed thunk of either queue, seen in the joined memory. *)
Lemma joined_delayed E ids s a :
  dq_wf E ids s → heap s ⊆ h → a ∈ delayed_addrs s → ∃ f, h !! a = Some (mkThunk f None).
Proof.
  intros Hw Hs Ha. destruct (wf_delayed _ _ _ Hw a Ha) as [f Hf]. exists f. by apply (lookup_weaken (heap s)).
Qed.

Lemma spliced_empty :
  ids1 = [] →
  spliced (joined q rhs) rhs = set_count (sz_add (m_count q) (m_count rhs))
    (set_tail (m_pTail rhs) (set_head (m_pHead rhs) (joined q rhs))).
Proof using H1.
  intros ->. pose proof (wf_head _ _ _ H1) as Hh. unfold spliced. simpl in *. by rewrite Hh.
Qed.

Lemma spliced_cons :
  ids1 ≠ [] → ∃ tl th, last ids1 = Some tl ∧ tl ∈ ids1 ∧ h !! tl = Some th ∧
  spliced (joined q rhs) rhs = set_count (sz_add (m_count q) (m_count rhs))
    (set_tail (m_pTail rhs) (set_heap (<[tl := mkThunk (m_fx th) (m_pHead rhs)]> h) (joined q rhs))).
Proof using H1.
  intros Hn. destruct (wf_tail_live _ _ _ H1 Hn) as (tl & th & Hlast & Htl & Hth & Hin).
  assert (h !! tl = Some th) as Hth' by (apply (lookup_weaken (heap q)); [done|apply joined_l]).
  exists tl, th. split_and!; [done|done|done|]. destruct ids1 as [|x l]; [done|].
  pose proof (wf_head _ _ _ H1) as Hh. simpl in Hh.
  unfold spliced. simpl. rewrite Hh, Htl. fold h. by rewrite Hth'.
Qed.

Lemma wf_spliced_empty : ids1 = [] → dq_wf ∅ ids2 (spliced (joined q rhs) rhs).
Proof using H1 H2 Hdisj Hne.
  intros He. rewrite (spliced_empty He).
  pose proof splice_nodup as Hnd. pose proof splice_count as Hc. pose proof splice_tail as Ht.
  pose proof splice_fresh as Hfr. subst ids1. split; simpl; try done.
  - eapply chain_mono; [exact joined_r|apply H2].
  - intros a Ha. apply (joined_delayed _ _ q a H1 joined_l Ha).
  - apply H1.
  - apply map_empty_subseteq.
Qed.

Lemma wf_spliced_cons : ids1 ≠ [] → dq_wf ∅ (ids1 ++ ids2) (spliced (joined q rhs) rhs).
Proof using H1 H2 Hdisj Hne.
  intros Hn. destruct (spliced_cons Hn) as (tl & th & Hlast & Hin & Hth & ->).
  pose proof splice_nodup as Hnd. pose proof (wf_nodup _ _ _ H1) as Hn1.
  split; simpl; try done; [| | | |apply map_empty_subseteq|apply splice_count|].
  - apply (chain_concat h _ ids1 _ _ _ th); try done; [| |by apply NoDup_app in Hnd as (? & _)].
    + eapply chain_mono; [exact joined_l|apply H1].
    + eapply chain_mono; [exact joined_r|apply H2].
  - intros _. apply splice_tail.
  - intros a Ha. rewrite lookup_insert_ne; [exact (joined_delayed _ _ q a H1 joined_l Ha)|].
    intros ->. apply NoDup_app in Hn1 as (_ & Hn1 & _). by apply (Hn1 a).
  - apply H1.
  - intros a [y Hy]. apply splice_fresh. destruct (decide (a = tl)) as [->|]; [by eexists|].
    rewrite lookup_insert_ne in Hy by done. by eexists.
Qed.

(** Splicing the chains concatenates the lists and leaves [rhs]'s delayed thunks loose. *)
Lemma wf_spliced :
  dq_wf ∅ (ids1 ++ ids2) (spliced (joined q rhs) rhs) ∧
  ∀ a, a ∈ delayed_addrs rhs → loose ∅ (ids1 ++ ids2) a (spliced (joined q rhs) rhs).
Proof using H1 H2 Hdisj Hne.
  destruct (decide (ids1 = [])) as [He|Hn].
  - split; [rewrite He; by apply wf_spliced_empty|]. rewrite (spliced_empty He).
    intros a Ha. split; simpl; [|by apply splice_delayed_out|done].
    exact (joined_delayed _ _ rhs a H2 joined_r Ha).
  - split; [by apply wf_spliced_cons|].
    destruct (spliced_cons Hn) as (tl & th & Hlast & Hin & Hth & ->).
    intros a Ha. split; simpl; [|by apply splice_delayed_out|done].
    rewrite lookup_insert_ne; [exact (joined_delayed _ _ rhs a H2 joined_r Ha)|].
    intros ->. apply (splice_sep a); rewrite elem_of_app; auto.
Qed.
End splice.

(** *** Taking over the delayed thunks *)
Lemma push_all_run ds : ∀ q, for_each (λ d, modify (λ q, set_delayed (pq_push d (m_delayedQueue q)) q)) ds q
  = (Ret tt, set_delayed (foldl (λ l d, pq_push d l) (m_delayedQueue q) ds) q).
Proof.
  induction ds as [|d ds IH]; intros q; cbn [for_each foldl]; [by destruct q|].
  rewrite (bind_Ret _ _ _ tt (set_delayed (pq_push d (m_delayedQueue q)) q)) by done. by rewrite IH.
Qed.

Lemma wf_push_all ids ds : ∀ q,
  dq_wf ∅ ids q → NoDup (map m_thunk ds) → (∀ d, d ∈ ds → loose ∅ ids (m_thunk d) q) →
  dq_wf ∅ ids (set_delayed (foldl (λ l d, pq_push d l) (m_delayedQueue q) ds) q).
Proof.
  induction ds as [|[r t] ds IH]; intros q Hw Hnd Hl; cbn [foldl]; [by apply (dq_wf_frame _ _ q)|].
  apply NoDup_cons in Hnd as [Hn Hnd].
  pose proof (wf_pend_delayed _ _ _ r t Hw (Hl _ ltac:(left))) as Hw'.
  apply (IH _ Hw' Hnd). intros d Hd. destruct (Hl d ltac:(by right)) as [Hh Hi HE].
  split; [done| |done]. unfold delayed_addrs in *. cbn [m_delayedQueue set_delayed].
  rewrite elem_of_app, pq_push_perm. simpl. rewrite elem_of_app in Hi. rewrite elem_of_cons.
  intros [Hx|[Hx|Hx]]; [tauto| |tauto]. apply Hn. cbn [m_thunk] in Hx |- *. rewrite <-Hx.
  by apply list_elem_of_fmap_2.
Qed.

Lemma push_all_perm ds : ∀ l, foldl (λ l d, pq_push d l) l ds ≡ₚ l ++ ds.
Proof.
  induction ds as [|d ds IH]; intros l; cbn [foldl]; [by rewrite app_nil_r|].
  rewrite IH, pq_push_perm. simpl. by rewrite <-Permutation_middle.
Qed.

(** The splice of the two lists, as the code performs it. *)
Lemma splice_run {A} ids1 q rhs (k : M DispatchQueue A) :
  dq_wf ∅ ids1 q →
  (q' ← get;
   match m_pHead q' with
   | Some _ => tail ← deref (m_pTail q'); store_flink tail (m_pHead rhs)
   | None => modify (set_head (m_pHead rhs))
   end;;
   modify (λ s, set_count (sz_add (m_count s) (m_count rhs)) (set_tail (m_pTail rhs) s));;
   k) (joined q rhs) = k (spliced (joined q rhs) rhs).
Proof.
  intros Hw. pose proof (wf_head _ _ _ Hw) as Hh. unfold store_flink. munfold. simpl. unfold spliced. simpl.
  destruct (decide (ids1 = [])) as [->|Hn]; [simpl in Hh; by rewrite Hh|].
  destruct (wf_tail_live _ _ _ Hw Hn) as (tl & th & _ & Htl & Hth & _).
  destruct ids1 as [|a l]; [done|]. simpl in Hh. rewrite Hh, Htl. simpl.
  by rewrite (lookup_weaken _ _ _ _ Hth (map_union_subseteq_l _ _)).
Qed.

Lemma fx_at_spliced q rhs a : fx_at (spliced (joined q rhs) rhs) a = m_fx <$> (heap q ∪ heap rhs) !! a.
Proof.
  unfold fx_at, spliced. simpl. destruct (m_pHead q), (m_pTail q) as [tl|]; simpl; try done.
  destruct ((heap q ∪ heap rhs) !! tl) as [th|] eqn:Ht; simpl; [|done].
  rewrite lookup_insert. case_decide; [subst; by rewrite Ht|done].
Qed.

(** Merging.  Appending a queue with at least one ready lambda to another
    yields a well-formed queue whose ready list is the concatenation, whose
    delayed thunks are those of both queues, whose count is the sum and whose
    lambdas are unchanged, and leaves the other queue empty. *)
Theorem append_concatenates ids1 ids2 q rhs :
  dq_wf ∅ ids1 q → dq_wf ∅ ids2 rhs → heap q ##ₘ heap rhs → ids2 ≠ [] →
  ∃ rhs' q', operator_append (mret tt) rhs q = (Ret rhs', q') ∧
    dq_wf ∅ (ids1 ++ ids2) q' ∧
    m_delayedQueue q' ≡ₚ m_delayedQueue q ++ m_delayedQueue rhs ∧
    m_count q' = sz_add (m_count q) (m_count rhs) ∧
    (∀ a, fx_at q' a = m_fx <$> (heap q ∪ heap rhs) !! a) ∧
    m_pHead rhs' = None ∧ m_pTail rhs' = None ∧ m_delayedQueue rhs' = [] ∧ m_count rhs' = 0%Z.
Proof.
  intros H1 H2 Hd Hne. destruct (wf_spliced _ _ _ _ H1 H2 Hd Hne) as [Hw Hl].
  assert (m_delayedQueue (spliced (joined q rhs) rhs) = m_delayedQueue q) as Hdq.
  { unfold spliced. by repeat case_match. }
  pose proof (wf_push_all _ (m_delayedQueue rhs) _ Hw) as Hpush.
  pose proof (wf_nodup _ _ _ H2) as Hn2. apply NoDup_app in Hn2 as (_ & _ & Hn2).
  specialize (Hpush Hn2 (λ d Hdd, Hl _ (list_elem_of_fmap_2 _ _ _ Hdd))).
  eexists _, _. split.
  - unfold operator_append. rewrite (bind_Ret _ _ _ tt (joined q rhs)) by done.
    rewrite (splice_run _ _ _ _ H1). rewrite (bind_Ret _ _ _ _ _ (push_all_run _ _)). reflexivity.
  - split; [by apply (dq_wf_frame _ _ _ _ Hpush)|]. cbn [m_delayedQueue set_delayed set_notified set_heap set_tail set_head set_count].
    split_and!; try done; [rewrite <-Hdq; apply push_all_perm|]. intros a. exact (fx_at_spliced q rhs a).
Qed.

(** Appending an empty queue to one that holds lambdas leaves the tail
    pointer null behind a non-null head: the next lambda pended below the cap
    dereferences it. *)
Theorem append_empty_breaks_pend ids q f :
  dq_wf ∅ ids q → ids ≠ [] → (m_count q < m_dispatchCap q)%Z →
  ((_ ← operator_append (mret tt) DispatchQueue_new; operator_pend (mret tt) f) q).1
  = Stuck undefined_behavior.
Proof.
  intros Hw Hne Hcap. unfold operator_append. rewrite bind_assoc.
  rewrite (bind_Ret _ _ _ tt (joined q DispatchQueue_new)) by done.
  unfold mbind at 1, M_bind at 1. rewrite (splice_run _ _ _ _ Hw).
  destruct (wf_tail_live _ _ _ Hw Hne) as (tl & th & _ & Htl & Hth & _).
  destruct ids as [|a l]; [done|]. pose proof (wf_head _ _ _ Hw) as Hh. simpl in Hh.
  assert (sz_add (m_count q) 0 = m_count q) as Hc.
  { rewrite (wf_count _ _ _ Hw). unfold sz_add, sz_wrap. by rewrite Z.add_0_r, Zmod_mod. }
  unfold spliced. simpl. rewrite Hh, Htl. rewrite (lookup_weaken _ _ _ _ Hth (map_union_subseteq_l _ _)).
  unfold operator_pend, notify_all. munfold. simpl. rewrite Hc.
  rewrite (proj2 (Z.leb_gt _ _) Hcap). simpl. by rewrite Hh.
Qed.

(** ** Retrying *)
(** [TryDispatchEvent] on the specification: a lambda that throws stays first. *)
Definition spec_try_dispatch (clock : nat → time_point) (raising : fx → option exn)
    (s : spec_queue) : outcome bool * spec_queue :=
  let s := match ready s with [] => spec_promote clock s | _ => s end in
  match ready s with
  | [] => (Ret false, s)
  | f :: l =>
    match raising f with
    | Some e => (Throw e, mkSpec (f :: l) (delayed s) (cap s) (aborted s) (history s ++ [f]) (clock_reads s))
    | None => (Ret true, mkSpec l (delayed s) (cap s) (aborted s) (history s ++ [f]) (clock_reads s))
    end
  end.

Lemma TryDispatchEventUnsafe_run raising ids q s f l :
  queue_rel ids q s → ready s = f :: l →
  ∃ q' ids', TryDispatchEventUnsafe (call_body raising) q = (lambda_outcome raising f tt, q') ∧
    queue_rel ids' q' (mkSpec (match raising f with Some _ => f :: l | None => l end)
                         (delayed s) (cap s) (aborted s) (history s ++ [f]) (clock_reads s)).
Proof.
  intros H Hr. destruct (rel_ready_cons _ _ _ _ _ H Hr) as (t & ids' & -> & Hh).
  destruct (rel_pop _ _ _ _ _ _ H Hr) as (th & Ht & Hf & H').
  unfold TryDispatchEventUnsafe, release_count, notify_all. rewrite (bind_Ret _ _ _ q q) by done.
  rewrite (bind_Ret _ _ _ t q) by (by rewrite Hh).
  rewrite (bind_Ret _ _ _ (m_pFlink th) q) by by apply load_flink_run.
  rewrite (bind_Ret _ _ _ tt (set_head (m_pFlink th) q)) by done.
  assert (call_thunk (call_body raising) t (set_head (m_pFlink th) q)
    = (lambda_outcome raising f tt, set_called (called q ++ [f]) (set_head (m_pFlink th) q))) as Hcall.
  { unfold call_thunk, call_body, lambda_outcome. munfold. simpl. rewrite Ht. simpl. rewrite Hf.
    by destruct (raising f). }
  unfold try_catch, store_flink, delete_thunk. munfold. rewrite Hcall. unfold lambda_outcome.
  destruct (raising f) as [e|]; simpl.
  - rewrite Ht. simpl. eexists _, (t :: ids'). split; [done|].
    assert (mkThunk (m_fx th) (m_pFlink th) = th) as -> by by destruct th.
    rewrite (insert_id _ _ _ Ht). rewrite <-Hh.
    split; simpl; try apply H; [apply (dq_wf_frame _ _ q); try done; apply H| |by rewrite (qr_called _ _ _ H)].
    pose proof (qr_ready _ _ _ H) as Hq. rewrite Hr in Hq. exact Hq.
  - destruct (Z.eqb (sz_dec (m_count q)) 0); simpl; rewrite Ht; simpl; eexists _, ids';
    (split; [done|]); first [exact (H' (S (notified q)))|exact (H' (notified q))].
Qed.

(** Retry.  [TryDispatchEvent] on lambdas that leave the queue alone: one that
    throws is back at the front of the list, with the count and everything
    behind it unchanged, and the exception reaches the caller; one that returns
    is removed; an empty queue with nothing due gives [false]. *)
Theorem try_dispatch_retries clock raising ids q s :
  queue_rel ids q s →
  ∃ q' ids', TryDispatchEvent (call_body raising) clock q = ((spec_try_dispatch clock raising s).1, q') ∧
    queue_rel ids' q' (spec_try_dispatch clock raising s).2.
Proof.
  intros H. unfold TryDispatchEvent, nothing_ready. rewrite bind_assoc, (bind_Ret _ _ _ q q) by done.
  unfold spec_try_dispatch. destruct (ready s) as [|f l] eqn:Hr.
  - destruct (rel_ready_nil _ _ _ H Hr) as [_ ->].
    destruct (Promote_run clock _ _ _ H) as (q1 & ids1 & Hp & H1).
    rewrite bind_assoc, (bind_Ret _ _ _ _ _ Hp).
    assert (ready (spec_promote clock s) = (due (clock (clock_reads s)) (delayed s)).1) as Hd.
    { simpl. by rewrite Hr. }
    rewrite <-Hd. destruct (ready (spec_promote clock s)) as [|f l] eqn:Hr1.
    + exists q1, ids1. by split.
    + rewrite bool_decide_false by done. simpl.
      destruct (TryDispatchEventUnsafe_run raising _ _ _ _ _ H1 Hr1) as (q' & ids' & Hrun & H').
      exists q', ids'. munfold. rewrite Hrun. unfold lambda_outcome. by destruct (raising f).
  - destruct (rel_ready_cons _ _ _ _ _ H Hr) as (t & ids' & -> & Hh). rewrite Hh. rewrite Hr.
    destruct (TryDispatchEventUnsafe_run raising _ _ _ _ _ H Hr) as (q' & ids1 & Hrun & H').
    exists q', ids1. munfold. rewrite Hrun. unfold lambda_outcome. by destruct (raising f).
Qed.

(** ** Runs that go wrong *)
Lemma rundown_aborted_loop w p fuel : ∀ s,
  is_Some (heap s !! p) → ∃ s',
  rundown_loop (call_body (λ _, Some (dispatch_aborted_exception w))) fuel (Some p) s
    = (Stuck out_of_fuel, s').
Proof.
  induction fuel as [|n IH]; intros s [th Hth]; [by exists s|].
  destruct (IH (set_called (called s ++ [m_fx th]) s)) as [s' Hs']; [by exists th|].
  exists s'. simpl. unfold try_catch, load_flink, call_thunk, call_body. munfold. rewrite Hth. simpl.
  rewrite Hth. simpl. exact Hs'.
Qed.

(** A lambda that throws dispatch_aborted_exception during Rundown is called
    again and again: whatever the number of iterations allowed, the loop does
    not end. *)
Theorem rundown_aborted_lambda_diverges clock fuel w :
  (run_ops (call_body (λ _, Some (dispatch_aborted_exception w))) clock fuel
     [op_pend 0; op_rundown] DispatchQueue_new).1 = [Ret (r_bool true); Stuck out_of_fuel].
Proof.
  simpl. f_equal. f_equal. unfold Rundown, ClearQueueInternal. munfold. simpl.
  match goal with |- context [rundown_loop _ fuel (Some 0) ?s] => set (q := s) end.
  destruct (rundown_aborted_loop w 0 fuel q) as [s' ->]; [by eexists|]. done.
Qed.

(** A lambda that runs nested operations, then throws. *)
Definition nested_throw (f : fx) : M DispatchQueue unit :=
  match f with
  | 0 => _ ← operator_pend (mret tt) 1; _ ← DispatchEvent (λ _, mret tt) (λ _, 0%Z);
         throw (user_exception 0)
  | _ => mret tt
  end.

(** [TryDispatchEvent] restores the head but not the tail: when the lambda
    that throws had itself pended and dispatched, the tail still names the thunk
    that was freed meanwhile, and the next pend writes through it. *)
Theorem try_dispatch_stale_tail :
  let m := (_ ← operator_pend (mret tt) 0;
            try_catch (_ ← TryDispatchEvent nested_throw (λ _, 0%Z); mret tt) (λ _, mret tt)) in
  (m DispatchQueue_new).1 = Ret tt ∧
  ((m;; operator_pend (mret tt) 2) DispatchQueue_new).1 = Stuck undefined_behavior.
Proof. vm_compute. split; reflexivity. Qed.

(** ** Witnesses *)
(** A queue with the lambdas [l], allocating from address [base] on. *)
Definition queue_of (base : addr) (l : list fx) : DispatchQueue :=
  (run_ops (call_body (λ _, None)) (λ _, 0%Z) (length l) (op_pend <$> l) (set_next base (DispatchQueue_cap 8))).2.

Definition spec_of (l : list fx) : spec_queue :=
  (spec_ops (λ _, 0%Z) (λ _, None) (op_pend <$> l) (spec_new 8)).2.

Lemma queue_of_refines base l : queue_refines (queue_of base l) (spec_of l).
Proof.
  apply (run_ops_refines (λ _, 0%Z) (λ _, None) ltac:(done) _ _ [] _ (spec_new 8)); [|simpl; by rewrite length_fmap].
  apply (rel_frame _ (DispatchQueue_cap 8)); try done; [apply rel_new_queue|].
  apply (dq_wf_frame _ _ (DispatchQueue_cap 8)); try done; [apply rel_new_queue|simpl; lia].
Qed.

Lemma ready_ids ids q s : queue_rel ids q s → length ids = length (ready s).
Proof. intros H. by rewrite <-(length_fmap (fx_at q) ids), (qr_ready _ _ _ H), length_fmap. Qed.

Lemma append_concatenates_witness :
  ∃ rhs' q', operator_append (mret tt) (queue_of 10 [3; 4]) (queue_of 0 [1; 2]) = (Ret rhs', q') ∧
    m_count q' = 4%Z ∧ fx_at q' 11 = Some 4.
Proof.
  destruct (queue_of_refines 0 [1; 2]) as [ids1 H1], (queue_of_refines 10 [3; 4]) as [ids2 H2].
  assert (heap (queue_of 0 [1; 2]) ##ₘ heap (queue_of 10 [3; 4])) as Hd.
  { apply map_disjoint_dom, (bool_decide_unpack _). vm_compute. exact I. }
  assert (ids2 ≠ []) as Hn by (intros ->; by pose proof (ready_ids _ _ _ H2)).
  destruct (append_concatenates ids1 ids2 _ _ (qr_wf _ _ _ H1) (qr_wf _ _ _ H2) Hd Hn)
    as (rhs' & q' & E & _ & _ & Hc & Hf & _).
  exists rhs', q'. split; [exact E|]. split; [rewrite Hc; reflexivity|rewrite Hf; reflexivity].
Defined.

Lemma append_empty_breaks_pend_witness :
  ((_ ← operator_append (mret tt) DispatchQueue_new; operator_pend (mret tt) 5) (queue_of 0 [1; 2])).1
  = Stuck undefined_behavior.
Proof.
  destruct (queue_of_refines 0 [1; 2]) as [ids H].
  apply (append_empty_breaks_pend ids); [apply (qr_wf _ _ _ H)| |reflexivity].
  intros ->. by pose proof (ready_ids _ _ _ H).
Defined.

Lemma try_dispatch_retries_witness :
  (TryDispatchEvent (call_body (λ _, Some (user_exception 0))) (λ _, 0%Z) (queue_of 0 [1; 2])).1
  = Throw (user_exception 0) ∧
  (spec_try_dispatch (λ _, 0%Z) (λ _, Some (user_exception 0)) (spec_of [1; 2])).2
  = mkSpec [1; 2] [] 8 false [1] 0.
Proof.
  destruct (queue_of_refines 0 [1; 2]) as [ids H].
  destruct (try_dispatch_retries (λ _, 0%Z) (λ _, Some (user_exception 0)) ids _ _ H) as (q' & ids' & E & _).
  split; [rewrite E; reflexivity|reflexivity].
Defined.
