(* ===== verification/EventQueue.v ===== *)
(** * What threads may rely on of a dispatch queue

    [EventQueue]: the operations of a queue that a run loop uses, split where the
    code gives up [m_dispatchLock], so that other threads can act in between; the
    laws speak of the lambdas that are ready, of the thunks being called, of those
    that a rundown took off the list, and of whether the queue still accepts lambdas.  DispatchQueue.cpp implements it. *)
From stdpp Require Import base gmap list sorting strings.
From Stdlib Require Import ZArith Lia.
From S2P Require Import Prelude.
From S2P Require Import DispatchQueue.
From S2P Require Import DispatchQueueFacts.
From S2P Require Import DispatchQueueSpec.

(** [operator+=] and [Pend] up to [OnPended]; taking the first lambda to call it, and
    what is left to do after the call; [Abort]; [Rundown] up to its loop, the turns of
    the loop before and after the call, and what follows the loop;
    [AreAnyDispatchersReady], [IsAborted]; the loop that deletes from [m_pHead]. *)
Class EventQueue (Q : Type) := {
  eq_new : Q;
  eq_pend : fx → M Q bool;
  eq_pend_always : fx → M Q unit;
  eq_take : M Q (option (addr * fx));
  eq_finish : addr → M Q unit;
  eq_abort : M Q unit;
  eq_close : M Q (option addr);
  eq_call : addr → M Q (fx * option addr);
  eq_done : addr → M Q unit;
  eq_rest : option addr → M Q unit;
  eq_delete : M Q unit;
  eq_ready : Q → bool;
  eq_aborted : Q → bool }.

(** A list taken off the queue: the address and the lambda of each thunk. *)
Definition detached_list : Type := list (addr * fx).

(** [eq_holds E D fs open q]: the thunks [E] are being called, those of [D] were taken
    off the list, the lambdas [fs] are ready in this order, and lambdas are accepted if
    [open]. *)
Class EventQueueLaws (Q : Type) `{EventQueue Q} := {
  eq_holds : list addr → detached_list → list fx → bool → Q → Prop;
  eq_new_holds : eq_holds [] [] [] true eq_new;
  eq_calling_perm E E' D fs o q : E ≡ₚ E' → eq_holds E D fs o q → eq_holds E' D fs o q;
  eq_pend_holds E D fs o q f : eq_holds E D fs o q →
    ∃ b q', eq_pend f q = (Ret b, q') ∧ eq_holds E D (if b then fs ++ [f] else fs) o q' ∧ (o = false → b = false);
  eq_pend_always_holds E D fs o q f : eq_holds E D fs o q →
    ∃ q', eq_pend_always f q = (Ret tt, q') ∧ eq_holds E D (fs ++ [f]) o q';
  eq_take_empty E D o q : eq_holds E D [] o q → ∃ q', eq_take q = (Ret None, q') ∧ eq_holds E D [] o q';
  eq_take_first E D f fs o q : eq_holds E D (f :: fs) o q →
    ∃ t q', eq_take q = (Ret (Some (t, f)), q') ∧ eq_holds (t :: E) D fs o q';
  eq_finish_holds E D t fs o q : eq_holds (t :: E) D fs o q → ∃ q', eq_finish t q = (Ret tt, q') ∧ eq_holds E D fs o q';
  eq_abort_holds E D fs o q : eq_holds E D fs o q → ∃ q', eq_abort q = (Ret tt, q') ∧ eq_holds E D [] false q';
  eq_close_holds E fs o q : eq_holds E [] fs o q →
    ∃ D q', eq_close q = (Ret (head D.*1), q') ∧ D.*2 = fs ∧ eq_holds E D [] false q';
  eq_call_holds E t f D fs o q : eq_holds E ((t, f) :: D) fs o q →
    ∃ q', eq_call t q = (Ret (f, head D.*1), q') ∧ eq_holds E ((t, f) :: D) fs o q';
  eq_done_holds E t f D fs o q : eq_holds E ((t, f) :: D) fs o q → ∃ q', eq_done t q = (Ret tt, q') ∧ eq_holds E D fs o q';
  eq_rest_holds E D fs o q : eq_holds E D fs o q → ∃ q', eq_rest (head D.*1) q = (Ret tt, q') ∧ eq_holds E [] fs o q';
  eq_ready_holds E D fs o q : eq_holds E D fs o q → eq_ready q = bool_decide (fs ≠ []);
  eq_aborted_holds E D fs o q : eq_holds E D fs o q → eq_aborted q = negb o }.

(** ** DispatchQueue is an event queue *)
Section instance.
  Context (steady_clock : nat → time_point).

(** [DispatchEvent] up to the call of the lambda. *)
Definition take : M DispatchQueue (option (addr * fx)) :=
  b ← nothing_ready steady_clock;
  if b : bool then mret None
  else
    q ← get;
    thunk ← deref (m_pHead q);
    next ← load_flink thunk;
    modify (set_head next);;
    q ← get; t ← deref (heap q !! thunk);
    put (set_called (called q ++ [m_fx t]) q);;
    mret (Some (thunk, m_fx t)).

(** What [DispatchEventUnsafe] does when the lambda is done. *)
Definition finish (thunk : addr) : M DispatchQueue unit := release_count;; delete_thunk thunk.

(** [ClearQueueInternal] under the lock, with the destructors of delayed thunks. *)
Definition close : M DispatchQueue (option addr) :=
  q ← get;
  put (set_delayed [] (set_tail None (set_head None (set_cap 0 (set_aborted true q)))));;
  for_each (λ d, delete_thunk (m_thunk d)) (m_delayedQueue q);;
  mret (m_pHead q).

(** A turn of its loop, before and after the call. *)
Definition rundown_call (p : addr) : M DispatchQueue (fx * option addr) :=
  next ← load_flink p;
  q ← get; t ← deref (heap q !! p);
  put (set_called (called q ++ [m_fx t]) q);;
  mret (m_fx t, next).
Definition rundown_done (p : addr) : M DispatchQueue unit :=
  delete_thunk p;; modify (λ q, set_count (sz_dec (m_count q)) q).

(** What follows the loop. *)
Definition rundown_rest (fuel : nat) (p : option addr) : M DispatchQueue unit :=
  nTraversed ← delete_chain fuel p;
  modify (λ q, set_count (sz_sub (m_count q) nTraversed) q);;
  notify_all.

(** Every thunk has an address below [next_addr]. *)
Definition fuel_of (q : DispatchQueue) : nat := S (next_addr q).

#[export] Instance dispatch_event_queue : EventQueue DispatchQueue := {
  eq_new := DispatchQueue_new;
  eq_pend := operator_pend (mret tt);
  eq_pend_always := Pend (mret tt);
  eq_take := take;
  eq_finish := finish;
  eq_abort := q ← get; Abort (λ _, mret tt) (fuel_of q);
  eq_close := close;
  eq_call := rundown_call;
  eq_done := rundown_done;
  eq_rest := λ p, q ← get; rundown_rest (fuel_of q) p;
  eq_delete := q ← get; _ ← delete_chain (fuel_of q) (m_pHead q); mret tt;
  eq_ready := AreAnyDispatchersReady;
  eq_aborted := onAborted }.

(** The split is that of the code. *)
Lemma DispatchEvent_take run_fx q : DispatchEvent run_fx steady_clock q =
  (r ← take; match r with
             | None => mret false
             | Some (thunk, f) => at_exit (finish thunk) (run_fx f);; mret true
             end) q.
Proof.
  unfold DispatchEvent, take. munfold. destruct (nothing_ready steady_clock q) as [[[]|e|r] q1]; try done.
  unfold DispatchEventUnsafe, load_flink. munfold. destruct (m_pHead q1) as [p|]; [|done]. cbn.
  destruct (heap q1 !! p) as [th|] eqn:Hp; [|done]. cbn. rewrite Hp. cbn.
  rewrite at_exit_nest by apply release_count_ret. unfold at_exit, call_thunk. munfold. cbn. rewrite Hp. done.
Qed.

(** [Rundown] in these steps, one lambda after the other. *)
Fixpoint rundown (run_fx : fx → M DispatchQueue unit) (fuel : nat) (p : option addr) : M DispatchQueue (option addr) :=
  match p, fuel with
  | None, _ => mret None
  | Some _, 0 => stuck out_of_fuel
  | Some t, S fuel' =>
    r ← try_catch (x ← rundown_call t; run_fx x.1;; rundown_done t;; mret (Some x.2))
      (λ e, match e with dispatch_aborted_exception _ => mret (Some (Some t)) | _ => mret None end);
    match r with Some p' => rundown run_fx fuel' p' | None => mret (Some t) end
  end.

Lemma bind_agree {A B} (m1 m2 : M DispatchQueue A) (k1 k2 : A → M DispatchQueue B) q :
  m1 q = m2 q → (∀ x q', k1 x q' = k2 x q') → (m1 ≫= k1) q = (m2 ≫= k2) q.
Proof. intros E Hk. munfold. rewrite E. by destruct (m2 q) as [[x|e|r] q1]. Qed.

Lemma rundown_split run_fx fuel : ∀ p q, rundown run_fx fuel p q = rundown_loop run_fx fuel p q.
Proof.
  induction fuel as [|fuel IH]; intros [t|] q; try done. cbn [rundown rundown_loop].
  apply bind_agree; [|by intros [p'|] q'].
  unfold try_catch, rundown_call, rundown_done, load_flink, call_thunk. munfold. destruct (heap q !! t) as [th|] eqn:Ht; cbn; [|done]. rewrite Ht. cbn.
  destruct (run_fx (m_fx th) _) as [[u|e|r] q1]; [|done..]. by destruct (delete_thunk t q1) as [[]].
Qed.

Lemma Rundown_split run_fx fuel q : Rundown run_fx fuel q =
  (p ← close; p ← rundown run_fx fuel p; rundown_rest fuel p) q.
Proof.
  unfold Rundown, ClearQueueInternal, close. munfold. destruct (for_each _ _ _) as [[u|e|r] q1]; [|done..]. by rewrite rundown_split.
Qed.
End instance.

(** ** DispatchQueue keeps the laws *)
Section laws.
  Context (steady_clock : nat → time_point).

(** [m]: the thunks being called, and those taken off the list.  No lambda is delayed. *)
Record holds (E : list addr) (D : detached_list) (fs : list fx) (open : bool) (m : gmap addr DispatchThunk) (ids : list addr) (q : DispatchQueue) : Prop := {
  ho_wf : dq_wf m ids q;
  ho_delayed : m_delayedQueue q = [];
  ho_calling : NoDup (E ++ D.*1);
  ho_calls : ∀ a, a ∈ E ++ D.*1 ↔ is_Some (m !! a);
  ho_chain : chain m (head D.*1) D.*1;
  ho_lambdas : ∀ t f, (t, f) ∈ D → m_fx <$> m !! t = Some f;
  ho_ready : fx_at q <$> ids = Some <$> fs;
  ho_cap : open = false → m_dispatchCap q = 0%Z;
  ho_open : onAborted q = negb open }.

Definition queue_holds (E : list addr) (D : detached_list) (fs : list fx) (open : bool) (q : DispatchQueue) : Prop :=
  ∃ m ids, holds E D fs open m ids q.

(** The links of thunks and the counters do not matter. *)
Lemma holds_frame E D fs o m ids q q' : holds E D fs o m ids q → dq_wf m ids q' → m_delayedQueue q' = m_delayedQueue q →
  m_dispatchCap q' = m_dispatchCap q → onAborted q' = onAborted q → (∀ a, a ∈ ids → fx_at q' a = fx_at q a) → holds E D fs o m ids q'.
Proof.
  intros [H1 H2 H3 H4 H7 H8 H5 H6 H9] Hw Hd Hc Ha Hf. split; try done; [congruence| |by rewrite Hc|by rewrite Ha].
  rewrite <-H5. apply list_fmap_ext. intros i a Hia. apply Hf. by eapply list_elem_of_lookup_2.
Qed.

Lemma holds_new E D fs o m ids q f : holds E D fs o m ids q → let q1 := (new_thunk f q).2 in
  holds E D fs o m ids q1 ∧ loose m ids (next_addr q) q1 ∧ fx_at q1 (next_addr q) = Some f.
Proof.
  intros H q1. destruct (wf_new _ _ _ f (ho_wf _ _ _ _ _ _ _ H)) as [Hw Hl]. split_and!; [|done|unfold fx_at; simpl; by rewrite lookup_insert_eq].
  apply (holds_frame _ _ _ _ _ _ q); try done. intros a Ha. unfold fx_at. simpl. rewrite lookup_insert_ne; [done|]. intros <-.
  apply (loose_ids _ _ _ _ Hl), elem_of_app. by left.
Qed.

Lemma holds_notified E D fs o m ids q n : holds E D fs o m ids q → holds E D fs o m ids (set_notified n q).
Proof. intros H. apply (holds_frame _ _ _ _ _ _ q); try done. by apply (dq_wf_frame _ _ q); [apply H|..]. Qed.

Lemma holds_linked E D fs o m ids q t f : holds E D fs o m ids q → loose m ids t q → fx_at q t = Some f →
  holds E D (fs ++ [f]) o m (ids ++ [t]) (linked t q).
Proof.
  intros [H1 H2 H3 H4 H7 H8 H5 H6 H9] Hl Hf. destruct (linked_fields t q) as (Ed & Ec & Ea & _).
  split; try done; [by apply wf_linked|congruence| |by rewrite Ec|congruence].
  rewrite !fmap_app. simpl. rewrite fx_at_linked, Hf, <-H5. f_equal. apply list_fmap_ext. intros. apply fx_at_linked.
Qed.

Lemma holds_unlinked E D fs o m ids q t : holds E D fs o m ids q → loose m ids t q → holds E D fs o m ids (set_heap (delete t (heap q)) q).
Proof.
  intros H Hl. apply (holds_frame _ _ _ _ _ _ q); try done; [by apply wf_delete_loose; [apply H|]|]. intros a Ha. unfold fx_at. simpl.
  rewrite lookup_delete_ne; [done|]. intros <-. apply (loose_ids _ _ _ _ Hl), elem_of_app. by left.
Qed.

Lemma pend_holds E D fs o q f : queue_holds E D fs o q →
  ∃ b q', operator_pend (mret tt) f q = (Ret b, q') ∧ queue_holds E D (if b then fs ++ [f] else fs) o q' ∧ (o = false → b = false).
Proof.
  intros (m & ids & H). destruct (holds_new _ _ _ _ _ _ _ f H) as (H1 & Hl & Hf). unfold operator_pend.
  rewrite (bind_Ret _ _ _ (next_addr q) (new_thunk f q).2) by done. set (q1 := (new_thunk f q).2) in *. erewrite bind_Ret by done.
  destruct (Z.leb_spec (m_dispatchCap q1) (m_count q1)) as [Hc|Hc].
  - destruct (loose_heap _ _ _ _ Hl) as [g Hg]. erewrite bind_Ret by by eapply delete_thunk_run.
    exists false. eexists. split; [done|]. split; [|done]. exists m, ids. by apply holds_unlinked.
  - destruct (operator_pend_link _ _ (next_addr q) (ho_wf _ _ _ _ _ _ _ H1)) as [n ->]. exists true. eexists. split; [done|]. split.
    + exists m, (ids ++ [next_addr q]). by apply holds_notified, holds_linked.
    + intros Ho. rewrite (ho_cap _ _ _ _ _ _ _ H1 Ho), (wf_count _ _ _ (ho_wf _ _ _ _ _ _ _ H1)) in Hc.
      destruct (sz_wrap_range (Z.of_nat (length ids + size m))). lia.
Qed.

Lemma pend_always_holds E D fs o q f : queue_holds E D fs o q →
  ∃ q', Pend (mret tt) f q = (Ret tt, q') ∧ queue_holds E D (fs ++ [f]) o q'.
Proof.
  intros (m & ids & H). destruct (holds_new _ _ _ _ _ _ _ f H) as (H1 & Hl & Hf). unfold Pend.
  rewrite (bind_Ret _ _ _ (next_addr q) (new_thunk f q).2) by done.
  destruct (PendExisting_run _ _ (next_addr q) (ho_wf _ _ _ _ _ _ _ H1)) as [n ->]. eexists. split; [done|].
  exists m, (ids ++ [next_addr q]). by apply holds_notified, holds_linked.
Qed.

Lemma take_empty E D o q : queue_holds E D [] o q → ∃ q', take steady_clock q = (Ret None, q') ∧ queue_holds E D [] o q'.
Proof.
  intros (m & ids & H). pose proof (ho_ready _ _ _ _ _ _ _ H) as Hr. destruct ids as [|a ids]; [|done].
  pose proof (wf_head _ _ _ (ho_wf _ _ _ _ _ _ _ H)) as Hh. unfold take, nothing_ready, PromoteReadyDispatchersUnsafe, now. munfold. cbn in *.
  rewrite Hh, (ho_delayed _ _ _ _ _ _ _ H). cbn. rewrite (ho_delayed _ _ _ _ _ _ _ H). cbn. eexists. split; [done|]. exists m, [].
  apply (holds_frame _ _ _ _ _ _ q); try done. by apply (dq_wf_frame _ _ q); [apply H|..].
Qed.

Lemma take_first E D f fs o q : queue_holds E D (f :: fs) o q →
  ∃ t q', take steady_clock q = (Ret (Some (t, f)), q') ∧ queue_holds (t :: E) D fs o q'.
Proof.
  intros (m & ids & [Hw H2 H3 H4 H7 H8 Hr H6 H9]). destruct ids as [|t ids]; [done|]. rewrite !fmap_cons in Hr. injection Hr as Hf Hr.
  unfold fx_at in Hf. destruct (heap q !! t) as [th|] eqn:Ht; [|done]. injection Hf as Hf.
  pose proof (wf_head _ _ _ Hw) as Hh. cbn in Hh. pose proof (wf_pop _ _ _ _ _ Hw Ht) as Hw'.
  assert (m !! t = None) as Hmt by (apply (wf_disj _ _ _ Hw), elem_of_app; left; left).
  assert (t ∉ E ++ D.*1) as Hnew by (rewrite H4, Hmt; by intros []).
  exists t. unfold take, nothing_ready, load_flink. munfold. cbn. rewrite Hh. cbn. rewrite Hh. cbn. rewrite Ht. cbn. rewrite Ht. cbn. rewrite Hf.
  eexists. split; [done|]. exists (<[t:=th]> m), ids. split; try done.
  - by apply (dq_wf_frame _ _ (set_head (m_pFlink th) q)).
  - by apply NoDup_cons.
  - intros a. cbn [app]. rewrite elem_of_cons, H4, lookup_insert_is_Some'. naive_solver.
  - apply chain_insert; [|done]. intros ?. apply Hnew, elem_of_app. by right.
  - intros t' f' Hin. rewrite lookup_insert_ne; [by apply H8|]. intros <-. apply Hnew, elem_of_app. right. by apply list_elem_of_fmap_2 with (f := fst) in Hin.
Qed.

(** A thunk that is in flight goes. *)
Lemma holds_deleted E D E' D' fs o m ids q t : holds E D fs o m ids q → E ++ D.*1 ≡ₚ t :: E' ++ D'.*1 → (∀ x, x ∈ D' → x ∈ D) →
  chain m (head D'.*1) D'.*1 →
  heap q !! t = m !! t ∧ is_Some (m !! t) ∧ queue_holds E' D' fs o (set_heap (delete t (heap q)) (set_count (sz_dec (m_count q)) q)).
Proof.
  intros [Hw H2 H3 H4 H7 H8 Hr H6 H9] Hp Hsub Hch. rewrite Hp in H3. apply NoDup_cons in H3 as [Ht H3].
  assert (is_Some (m !! t)) as [th Hth] by (apply H4; rewrite Hp; left).
  assert (heap q !! t = Some th) as Hq by (eapply lookup_weaken; [exact Hth|use_wf Hw]). split_and!; [congruence|by exists th|].
  rewrite <-(insert_delete_id m t th Hth) in Hw. pose proof (wf_finish _ _ _ _ _ Hw (lookup_delete_eq _ _)) as Hw'.
  exists (delete t m), ids. split; try done.
  - intros a. rewrite lookup_delete_is_Some, <-H4, Hp, elem_of_cons. split; [|naive_solver]. intros Ha. split; [by intros ->|by right].
  - apply chain_delete; [|done]. intros ?. apply Ht, elem_of_app. by right.
  - intros t' f' Hin. rewrite lookup_delete_ne; [by apply H8, Hsub|]. intros <-. apply Ht, elem_of_app. right. by apply list_elem_of_fmap_2 with (f := fst) in Hin.
  - rewrite <-Hr. apply list_fmap_ext. intros i a Ha. unfold fx_at. cbn. rewrite lookup_delete_ne; [done|]. intros ->.
    apply list_elem_of_lookup_2 in Ha. pose proof (wf_disj _ _ _ Hw a) as Hd. rewrite lookup_insert_eq in Hd.
    discriminate Hd. apply elem_of_app. by left.
Qed.

Lemma queue_holds_notified E D fs o q n : queue_holds E D fs o q → queue_holds E D fs o (set_notified n q).
Proof. intros (m & ids & H). exists m, ids. by apply holds_notified. Qed.

Lemma calling_perm E E' D fs o q : E ≡ₚ E' → queue_holds E D fs o q → queue_holds E' D fs o q.
Proof.
  intros Hp (m & ids & [H1 H2 H3 H4 H7 H8 H5 H6 H9]). exists m, ids. split; try done; [by rewrite <-Hp|]. intros a. by rewrite <-H4, Hp.
Qed.

Lemma finish_holds E D t fs o q : queue_holds (t :: E) D fs o q → ∃ q', finish t q = (Ret tt, q') ∧ queue_holds E D fs o q'.
Proof.
  intros (m & ids & H). destruct (holds_deleted _ _ E D _ _ _ _ _ t H) as (Hq & [th Hth] & H'); [done|done|apply H|]. rewrite Hth in Hq.
  assert (∃ n, finish t q = (Ret tt, set_notified n (set_heap (delete t (heap q)) (set_count (sz_dec (m_count q)) q)))) as [n ->].
  { unfold finish, release_count, delete_thunk, notify_all. munfold. cbn. destruct (Z.eqb _ _); cbn; rewrite Hq; [by exists (S (notified q))|by exists (notified q); destruct q]. }
  eexists. split; [done|]. by apply queue_holds_notified.
Qed.

Lemma chain_tail m t f (D : detached_list) : chain m (head ((t, f) :: D).*1) ((t, f) :: D).*1 →
  ∃ th, m !! t = Some th ∧ m_pFlink th = head D.*1 ∧ chain m (head D.*1) D.*1.
Proof.
  intros (_ & th & Hth & Hc). exists th. assert (m_pFlink th = head D.*1) as E by (destruct D as [|[t' f'] D]; [done|by destruct Hc]). split_and!; [done..|]. by rewrite <-E.
Qed.

Lemma done_holds E t f D fs o q : queue_holds E ((t, f) :: D) fs o q → ∃ q', rundown_done t q = (Ret tt, q') ∧ queue_holds E D fs o q'.
Proof.
  intros (m & ids & H). destruct (chain_tail _ _ _ _ (ho_chain _ _ _ _ _ _ _ H)) as (th & Hth & _ & Hc).
  destruct (holds_deleted _ _ E D _ _ _ _ _ t H) as (Hq & _ & H'); [cbn; by rewrite Permutation_middle|by right|done|]. rewrite Hth in Hq.
  eexists. split; [|exact H']. unfold rundown_done, delete_thunk. munfold. cbn. by rewrite Hq.
Qed.

Lemma call_holds E t f D fs o q : queue_holds E ((t, f) :: D) fs o q →
  ∃ q', rundown_call t q = (Ret (f, head D.*1), q') ∧ queue_holds E ((t, f) :: D) fs o q'.
Proof.
  intros (m & ids & H). destruct (chain_tail _ _ _ _ (ho_chain _ _ _ _ _ _ _ H)) as (th & Hth & El & Hc).
  pose proof (ho_lambdas _ _ _ _ _ _ _ H t f ltac:(left)) as Ef. rewrite Hth in Ef. injection Ef as Ef.
  assert (heap q !! t = Some th) as Hq by (eapply lookup_weaken; [exact Hth|apply H]).
  eexists. split; [unfold rundown_call, load_flink; munfold; cbn; rewrite Hq; cbn; rewrite Hq; cbn; by rewrite El, Ef|].
  exists m, ids. apply (holds_frame _ _ _ _ _ _ q); try done. by apply (dq_wf_frame _ _ q); [apply H|..].
Qed.

(** Chains are shorter than the fuel. *)
Lemma short_list q l : NoDup l → (∀ a, a ∈ l → is_Some (heap q !! a)) → (∀ a, is_Some (heap q !! a) → a < next_addr q) → length l < fuel_of q.
Proof.
  intros Hnd Hl Hf. unfold fuel_of. assert (l ⊆ seq 0 (next_addr q)) as Hsub by (intros a Ha; apply elem_of_seq; specialize (Hf a (Hl a Ha)); lia).
  apply (NoDup_submseteq _ _ Hnd), submseteq_length in Hsub. rewrite length_seq in Hsub. lia.
Qed.

Lemma chain_short E D fs o m ids q : holds E D fs o m ids q → length ids < fuel_of q.
Proof.
  intros H. pose proof (wf_nodup _ _ _ (ho_wf _ _ _ _ _ _ _ H)) as Hnd. apply NoDup_app in Hnd as [Hnd _].
  apply short_list; [done| |apply (ho_wf _ _ _ _ _ _ _ H)]. intros a. eapply chain_live. apply (ho_wf _ _ _ _ _ _ _ H).
Qed.

Lemma rest_holds E D fs o q : queue_holds E D fs o q →
  ∃ q', (q ← get; rundown_rest (fuel_of q) (head D.*1)) q = (Ret tt, q') ∧ queue_holds E [] fs o q'.
Proof.
  intros (m & ids & [Hw H2 H3 H4 H7 H8 Hr H6 H9]). pose proof H3 as Hnd. apply NoDup_app in Hnd as (_ & Hdis & Hnd).
  assert (chain (heap q) (head D.*1) D.*1) as Hc by (eapply chain_mono; [use_wf Hw|done]).
  pose proof (delete_chain_spec (fuel_of q) _ _ q Hc Hnd) as Hdel. rewrite (bind_Ret _ _ _ q q) by done. unfold rundown_rest, notify_all.
  assert (length D.*1 < fuel_of q) as Hlen by (apply short_list; [done|by intros a; eapply chain_live|use_wf Hw]).
  destruct (delete_chain (fuel_of q) (head D.*1) q) as [[n|e|[]] q2] eqn:Hrun; try done; [|lia]. destruct Hdel as [-> ->].
  rewrite (bind_Ret _ _ _ _ _ Hrun). eexists. split; [munfold; done|]. exists (foldr delete m D.*1), ids. split; cbn; try done.
  - apply (dq_wf_frame _ _ _ _ (wf_finish_chain _ _ _ _ _ Hw H7 Hnd)); try done. cbn. unfold sz_sub, sz_wrap. by rewrite Zminus_mod_idemp_r.
  - rewrite app_nil_r. by apply NoDup_app in H3 as [? _].
  - intros a. rewrite app_nil_r, lookup_foldr_delete. case_decide as Ha; [|rewrite <-H4, elem_of_app; naive_solver].
    split; [|by intros []]. intros Hin. by destruct (Hdis a Hin).
  - by intros t f ?%elem_of_nil.
  - rewrite <-Hr. apply list_fmap_ext. intros i a Ha. unfold fx_at. cbn. rewrite lookup_foldr_delete, decide_False; [done|].
    intros Hin. apply list_elem_of_lookup_2 in Ha. pose proof (wf_disj _ _ _ Hw a ltac:(apply elem_of_app; by left)) as Hd.
    assert (is_Some (m !! a)) as [? ?] by (apply H4, elem_of_app; by right). congruence.
Qed.

Lemma abort_holds E D fs o q : queue_holds E D fs o q →
  ∃ q', (q ← get; Abort (λ _, mret tt) (fuel_of q)) q = (Ret tt, q') ∧ queue_holds E D [] false q'.
Proof.
  intros (m & ids & H). pose proof (chain_short _ _ _ _ _ _ _ H) as Hfuel. destruct H as [Hw H2 H3 H4 H7 H8 Hr H6 H9].
  pose proof (ClearQueueInternal_safe (λ _, mret tt) (λ f E, safe_ret _ _) (fuel_of q) false m q (ex_intro _ ids Hw)) as Hsafe.
  pose proof (wf_nodup _ _ _ Hw) as Hnd. apply NoDup_app in Hnd as [Hnd _].
  set (q1 := set_delayed [] (set_tail None (set_head None (set_cap 0 (set_aborted true q))))).
  pose proof (delete_chain_spec (fuel_of q) (m_pHead q) ids q1 (wf_chain _ _ _ Hw) Hnd) as Hdel.
  destruct (delete_chain (fuel_of q) (m_pHead q) q1) as [[n|e|[]] q2] eqn:Hrun; try done; [|lia]. destruct Hdel as [_ ->].
  assert (∃ c h n, ClearQueueInternal (λ _, mret tt) (fuel_of q) false q = (Ret tt, set_notified n (set_count c (set_heap h q1)))) as (c & h & k & E1).
  { unfold ClearQueueInternal. rewrite (bind_Ret _ _ _ q q) by done. rewrite (bind_Ret _ _ _ tt q1) by done. rewrite H2. cbn [for_each].
    rewrite (bind_Ret _ _ _ tt q1) by done. rewrite (bind_Ret _ _ _ (m_pHead q) q1) by done. rewrite (bind_Ret _ _ _ _ _ Hrun). by eexists _, _, _. }
  erewrite bind_Ret by done. unfold Abort. rewrite E1 in *. eexists. split; [done|]. destruct Hsafe as [ids' Hw'].
  pose proof (wf_head _ _ _ Hw') as Hh. destruct ids' as [|a ids']; [|done]. by exists m, [].
Qed.

Lemma close_holds E fs o q : queue_holds E [] fs o q →
  ∃ D q', close q = (Ret (head D.*1), q') ∧ D.*2 = fs ∧ queue_holds E D [] false q'.
Proof.
  intros (m & ids & [Hw H2 H3 H4 H7 H8 Hr H6 H9]). rewrite app_nil_r in H3, H4.
  destruct (wf_detach _ _ _ Hw) as (m' & Hw' & Hc & Em). destruct (wf_drop_delayed _ _ Hw') as (Hd & _).
  pose proof (f_equal length Hr) as Hlen. rewrite !length_fmap in Hlen. exists (zip ids fs).
  pose proof (wf_nodup _ _ _ Hw) as Hnd. apply NoDup_app in Hnd as [Hnd _].
  assert ((zip ids fs).*1 = ids) as E1 by (apply fst_zip; lia). rewrite E1.
  assert (∀ a, m !! a = if decide (a ∈ ids) then None else m' !! a) as Hm by (intros a; by rewrite <-Em, lookup_foldr_delete).
  eexists. split_and!; [unfold close; munfold; rewrite H2; cbn; by rewrite (wf_head _ _ _ Hw)|apply snd_zip; lia|]. exists m', []. split; cbn; try done.
  - destruct Hd. split; cbn in *; try done.
  - rewrite E1. apply NoDup_app. split_and!; [done| |done]. intros a Ha%H4 Hi. rewrite Hm, decide_True in Ha by done. by destruct Ha.
  - intros a. rewrite E1, elem_of_app, H4, Hm. case_decide as Ha; [|naive_solver]. split; [|by right]. intros _. by eapply chain_live.
  - rewrite E1. by rewrite <-(wf_head _ _ _ Hw).
  - intros t f (k & Hk)%list_elem_of_lookup. apply lookup_zip_Some in Hk as [Hk1 Hk2].
    assert (is_Some (m' !! t)) as [th Hth] by (eapply chain_live; [exact Hc|by eapply list_elem_of_lookup_2]).
    assert (heap q !! t = Some th) as Hq by (eapply lookup_weaken; [exact Hth|apply (wf_inflight _ _ _ Hw')]).
    assert ((fx_at q <$> ids) !! k = Some (Some f)) as Hf by (rewrite Hr; by rewrite list_lookup_fmap, Hk2).
    rewrite list_lookup_fmap, Hk1 in Hf. unfold fx_at in Hf. cbn in Hf. rewrite Hq in Hf. injection Hf as Hf. rewrite Hth. cbn. by rewrite Hf.
Qed.

(** A new queue, of any limit. *)
Lemma queue_holds_cap cap : queue_holds [] [] [] true (DispatchQueue_cap cap).
Proof.
  exists ∅, []. split; try done; [|constructor|by intros a; rewrite lookup_empty, elem_of_nil; split; [|intros []]|by intros t f ?%elem_of_nil].
  destruct (dq_inv_new cap) as [ids Hw]. pose proof (wf_head _ _ _ Hw) as Hh. by destruct ids.
Qed.

#[export] Instance dispatch_event_laws : @EventQueueLaws DispatchQueue (dispatch_event_queue steady_clock).
Proof.
  refine {| eq_holds := queue_holds |}.
  - apply queue_holds_cap.
  - intros E E'. apply calling_perm.
  - apply pend_holds.
  - apply pend_always_holds.
  - apply take_empty.
  - apply take_first.
  - intros E D t. apply finish_holds.
  - apply abort_holds.
  - apply close_holds.
  - apply call_holds.
  - apply done_holds.
  - apply rest_holds.
  - intros E D fs o q (m & ids & H). cbn. unfold AreAnyDispatchersReady. rewrite (wf_head _ _ _ (ho_wf _ _ _ _ _ _ _ H)).
    pose proof (ho_ready _ _ _ _ _ _ _ H) as Hr. apply bool_decide_ext. destruct ids, fs; cbn in *; naive_solver.
  - intros E D fs o q (m & ids & H). apply (ho_open _ _ _ _ _ _ _ H).
Defined.
End laws.
