(* ===== verification/CoreJob.v ===== *)
(** * CoreJob: a dispatch queue whose lambdas run in asynchronous calls

    src/src/autowiring/CoreJob.{h,cpp} with the part of CoreRunnable.cpp it uses,
    for any number of threads.  A step of a thread is a critical section of the
    code, or an access outside of one that others can see.  The thread that
    std::async starts to dispatch is one more thread; lambdas are programs of
    client calls that it goes through step by step.  A critical section that waits for a
    thread to end is one step as well, taken when that thread has ended.

    Clients do not pend delayed lambdas here, nor use [Cancel] and [Rundown]. *)
From stdpp Require Import base gmap list.
From Stdlib Require Import ZArith Lia.
From S2P Require Import Prelude.
From S2P Require Import DispatchQueue.
From S2P Require Import EventQueue.
Local Open Scope nat_scope.

(** What clients call: [operator+=], [Start] in a context that is still alive or not,
    [Stop], [DoAdditionalWait]. *)
Inductive job_op :=
  | jo_pend (f : fx)
  | jo_start (alive : bool)
  | jo_stop (graceful : bool)
  | jo_wait.

(** The steps of these calls, and of [DispatchAllAndClearCurrent]. *)
Inductive instr :=
  | i_pend (f : fx)
  | i_start (alive : bool) | i_on_start | i_unlock
  | i_stop (graceful : bool) | i_on_stop | i_abort | i_stopped | i_release
  | i_wait | i_join (event : nat)
  | i_dispatch | i_finish (thunk : addr) | i_rethrow | i_check | i_leave.

#[export] Instance instr_eq_dec : EqDecision instr.
Proof. solve_decision. Defined.

Definition instr_of (o : job_op) : instr :=
  match o with
  | jo_pend f => i_pend f
  | jo_start alive => i_start alive
  | jo_stop graceful => i_stop graceful
  | jo_wait => i_wait
  end.

(** A client lambda: what it calls, and whether it throws at the end.  The lambda
    that [OnStop] pends calls [Abort]. *)
Inductive lambda := l_client (calls : list job_op) (throws : bool) | l_abort.

Section job.
  Context {Q : Type} `{EventQueue Q}.
  Context (lambdas : fx → lambda) (abort_fx : fx).

(** [m_lock] is the mutex of CoreRunnable; an event is the number of the thread that
    was started for it.  [accepted] and [called] are the lambdas linked and called so
    far. *)
Record job := mkJob {
  queue : Q;
  m_running : bool;
  m_curEvent : option nat;
  m_curEventInTeardown : bool;
  m_wasStarted : bool;
  m_outstanding : bool;
  m_shouldStop : bool;
  m_lock : bool;
  threads : list (list instr);
  accepted : list fx;
  called : list fx }.

Definition set_queue x j := mkJob x (m_running j) (m_curEvent j) (m_curEventInTeardown j) (m_wasStarted j) (m_outstanding j) (m_shouldStop j) (m_lock j) (threads j) (accepted j) (called j).
Definition set_running x j := mkJob (queue j) x (m_curEvent j) (m_curEventInTeardown j) (m_wasStarted j) (m_outstanding j) (m_shouldStop j) (m_lock j) (threads j) (accepted j) (called j).
Definition set_event x j := mkJob (queue j) (m_running j) x (m_curEventInTeardown j) (m_wasStarted j) (m_outstanding j) (m_shouldStop j) (m_lock j) (threads j) (accepted j) (called j).
Definition set_teardown x j := mkJob (queue j) (m_running j) (m_curEvent j) x (m_wasStarted j) (m_outstanding j) (m_shouldStop j) (m_lock j) (threads j) (accepted j) (called j).
Definition set_started x j := mkJob (queue j) (m_running j) (m_curEvent j) (m_curEventInTeardown j) x (m_outstanding j) (m_shouldStop j) (m_lock j) (threads j) (accepted j) (called j).
Definition set_outstanding x j := mkJob (queue j) (m_running j) (m_curEvent j) (m_curEventInTeardown j) (m_wasStarted j) x (m_shouldStop j) (m_lock j) (threads j) (accepted j) (called j).
Definition set_stop x j := mkJob (queue j) (m_running j) (m_curEvent j) (m_curEventInTeardown j) (m_wasStarted j) (m_outstanding j) x (m_lock j) (threads j) (accepted j) (called j).
Definition set_lock x j := mkJob (queue j) (m_running j) (m_curEvent j) (m_curEventInTeardown j) (m_wasStarted j) (m_outstanding j) (m_shouldStop j) x (threads j) (accepted j) (called j).
Definition set_threads x j := mkJob (queue j) (m_running j) (m_curEvent j) (m_curEventInTeardown j) (m_wasStarted j) (m_outstanding j) (m_shouldStop j) (m_lock j) x (accepted j) (called j).
Definition set_accepted x j := mkJob (queue j) (m_running j) (m_curEvent j) (m_curEventInTeardown j) (m_wasStarted j) (m_outstanding j) (m_shouldStop j) (m_lock j) (threads j) x (called j).
Definition set_called x j := mkJob (queue j) (m_running j) (m_curEvent j) (m_curEventInTeardown j) (m_wasStarted j) (m_outstanding j) (m_shouldStop j) (m_lock j) (threads j) (accepted j) x.

Definition job_new (programs : list (list job_op)) : job :=
  mkJob eq_new false None true false false false false (map (map instr_of) programs) [] [].

Local Abbreviation M := (M job).

(** An operation of the queue, as part of a step of the job. *)
Definition on_queue {A} (m : Prelude.M Q A) : M A := λ j,
  let '(r, q) := m (queue j) in (r, set_queue q j).

(** [future->wait()], and the destructor of a future that std::async returned: the
    thread has come to its end. *)
Definition wait_for (event : nat) : M unit :=
  j ← get; match threads j !! event with Some [] => mret tt | _ => stuck blocked end.

(** [new std::future<void>(std::async(...))]. *)
Definition async : M unit :=
  j ← get;
  modify (set_event (Some (length (threads j))));;
  modify (set_threads (threads j ++ [[i_dispatch]])).

(** [CoreJob::OnPended]. *)
Definition OnPended : M unit :=
  j ← get;
  if negb (m_curEventInTeardown j) then mret tt
  else if negb (m_running j) then mret tt
  else if negb (m_outstanding j) then on_queue eq_delete
  else
    modify (set_teardown false);;
    match m_curEvent j with Some e => modify (set_event None);; wait_for e | None => mret tt end;;
    async.

Definition accept (f : fx) : M unit := modify (λ j, set_accepted (accepted j ++ [f]) j).

(** [DispatchQueue::operator+=] and [Pend], with the [OnPended] of the job. *)
Definition operator_pend (f : fx) : M unit :=
  b ← on_queue (eq_pend f); when b (accept f;; OnPended).
Definition Pend (f : fx) : M unit := on_queue (eq_pend_always f);; accept f;; OnPended.

Definition lock : M unit := j ← get; if m_lock j then stuck blocked else mret tt.

(** [CoreRunnable::Start] up to [OnStart], whose first statements belong to this
    step; the lock is kept until [i_unlock]. *)
Definition Start (alive : bool) : M (list instr) :=
  lock;; j ← get;
  if m_wasStarted j || m_outstanding j || m_shouldStop j then mret []
  else
    modify (set_started true);; modify (set_lock true);;
    if alive then modify (set_outstanding true);; modify (set_running true);; mret [i_on_start; i_unlock]
    else modify (set_stop true);; mret [i_abort; i_stopped; i_unlock].

(** The rest of [CoreJob::OnStart]. *)
Definition OnStart : M unit := j ← get; when (eq_ready (queue j)) OnPended.

(** [CoreRunnable::Stop] up to [OnStop], and after it. *)
Definition Stop (graceful : bool) : M (list instr) :=
  lock;; j ← get;
  if m_shouldStop j then modify (set_outstanding false);; mret []
  else modify (set_stop true);; mret (if graceful then [i_on_stop; i_release] else [i_abort; i_stopped; i_release]).
Definition Stop_release : M unit := lock;; modify (set_outstanding false).

(** [DoAdditionalWait], with or without a timeout: the destructor of the future waits
    for the thread in either case. *)
Definition DoAdditionalWait : M (list instr) :=
  j ← get;
  match m_curEvent j with
  | Some e => modify (set_event None);; mret [i_join e]
  | None => mret []
  end.

(** The call of a lambda, and what follows it in [DispatchEventUnsafe]. *)
Definition call (f : fx) (thunk : addr) : list instr :=
  match lambdas f with
  | l_abort => [i_abort; i_stopped; i_finish thunk; i_dispatch]
  | l_client calls throws => map instr_of calls ++ [i_finish thunk; if throws then i_rethrow else i_dispatch]
  end.

(** One turn of [DispatchAllEvents] in [DispatchAllAndClearCurrent], up to the call of
    the lambda. *)
Definition dispatch : M (list instr) :=
  t ← on_queue eq_take;
  match t with
  | None => mret [i_check]
  | Some (thunk, f) =>
    modify (λ j, set_called (called j ++ [f]) j);;
    mret (call f thunk)
  end.

(** The end of its loop. *)
Definition check : M (list instr) :=
  j ← get;
  if eq_ready (queue j) then mret [i_dispatch] else modify (set_teardown true);; mret [i_leave].

(** A step; its result is what the thread does next, before the rest of its code. *)
Definition exec (i : instr) : M (list instr) :=
  match i with
  | i_pend f => operator_pend f;; mret []
  | i_start alive => Start alive
  | i_on_start => OnStart;; mret []
  | i_unlock => modify (set_lock false);; mret []
  | i_stop graceful => Stop graceful
  | i_on_stop => Pend abort_fx;; mret []
  | i_abort => on_queue eq_abort;; mret []
  | i_stopped => modify (set_running false);; mret []
  | i_release => Stop_release;; mret []
  | i_wait => DoAdditionalWait
  | i_join e => wait_for e;; mret []
  | i_dispatch => dispatch
  | i_finish thunk => on_queue (eq_finish thunk);; mret []
  | i_check => check
  | i_rethrow | i_leave => mret []
  end.

(** Thread [n] takes a step. *)
Definition step (n : nat) (j : job) : outcome job :=
  match threads j !! n with
  | Some (i :: rest) =>
    match exec i j with
    | (Ret l, j') => Ret (set_threads (<[n := l ++ rest]> (threads j')) j')
    | (Throw e, _) => Throw e
    | (Stuck r, _) => Stuck r
    end
  | _ => Stuck blocked
  end.

(** A schedule: a thread that cannot take a step is passed over. *)
Fixpoint run (schedule : list nat) (j : job) : outcome job :=
  match schedule with
  | [] => Ret j
  | n :: schedule' =>
    match step n j with
    | Ret j' => run schedule' j'
    | Stuck blocked => run schedule' j
    | r => r
    end
  end.
End job.
