(* ===== verification/CoreJobFacts.v ===== *)
(** * CoreJob: the invariant of the run loop

    Whatever the threads do, at most one asynchronous call dispatches, and lambdas
    that are ready are never left to nobody.  The theorems are in CoreJobSpec.v. *)
From stdpp Require Import base gmap list.
From Stdlib Require Import ZArith Lia.
From S2P Require Import Prelude.
From S2P Require Import DispatchQueue.
From S2P Require Import EventQueue.
From S2P Require Import CoreJob.
Local Open Scope nat_scope.

Section facts.
  Context {Q : Type} `{EventQueueLaws Q}.
  Context (lambdas : fx → lambda) (abort_fx : fx).
  Local Abbreviation job := (CoreJob.job (Q := Q)).
  Local Abbreviation exec := (CoreJob.exec lambdas abort_fx).

(** ** Clients *)
(** The lambda that aborts is pended by [OnStop] alone. *)
Definition op_ok (o : job_op) : Prop := match o with jo_pend f => lambdas f ≠ l_abort | _ => True end.

(** Lambdas do not stop their job, nor wait for it. *)
Definition body_op (o : job_op) : Prop :=
  match o with jo_pend f => lambdas f ≠ l_abort | jo_start _ => True | jo_stop _ | jo_wait => False end.

Definition lambdas_ok : Prop :=
  lambdas abort_fx = l_abort ∧ ∀ f calls throws, lambdas f = l_client calls throws → Forall body_op calls.

Definition is_stop (i : instr) : bool := match i with i_stop _ | i_release => true | _ => false end.
Definition stops (l : list instr) : nat := length (List.filter is_stop l).

(** [programs]: only thread [stopper] stops the job, once. *)
Definition programs_ok (stopper : nat) (programs : list (list job_op)) : Prop :=
  ∀ n p, programs !! n = Some p → Forall op_ok p ∧ stops (map instr_of p) ≤ (if decide (n = stopper) then 1 else 0).

Context (ok : lambdas_ok) (stopper clients : nat) (stopper_client : stopper < clients).

(** ** The code of threads *)
(** The steps left of a call under way; in an asynchronous call, if [worker]. *)
Inductive rest_of_call (worker : bool) : list instr → Prop :=
  | x_none : rest_of_call worker []
  | x_start : rest_of_call worker [i_on_start; i_unlock]
  | x_unlock : rest_of_call worker [i_unlock]
  | x_failed_1 : rest_of_call worker [i_abort; i_stopped; i_unlock]
  | x_failed_2 : rest_of_call worker [i_stopped; i_unlock]
  | x_abort_1 : worker = true → rest_of_call worker [i_abort; i_stopped]
  | x_abort_2 : worker = true → rest_of_call worker [i_stopped]
  | x_graceful : worker = false → rest_of_call worker [i_on_stop; i_release]
  | x_stop_1 : worker = false → rest_of_call worker [i_abort; i_stopped; i_release]
  | x_stop_2 : worker = false → rest_of_call worker [i_stopped; i_release]
  | x_release : worker = false → rest_of_call worker [i_release]
  | x_join e : worker = false → rest_of_call worker [i_join e].

Definition op_of (worker : bool) : job_op → Prop := if worker then body_op else op_ok.

Definition code (worker : bool) (l : list instr) : Prop :=
  ∃ x ops, l = x ++ map instr_of ops ∧ rest_of_call worker x ∧ Forall (op_of worker) ops.

(** Who dispatches: nobody; thread [n], with the thunk it calls; nobody, but the last
    one ended by an exception. *)
Inductive activity := a_idle | a_busy (n : nat) (t : option addr) | a_dead.

Definition calling (a : activity) : list addr := match a with a_busy _ (Some t) => [t] | _ => [] end.

Definition passive (l : list instr) : Prop := l = [] ∨ l = [i_leave].

Definition busy (t : option addr) (l : list instr) : Prop :=
  match t with
  | None => l = [i_dispatch] ∨ l = [i_check] ∨ l = [i_rethrow]
  | Some t => ∃ body z, l = body ++ [i_finish t; z] ∧ code true body ∧ (z = i_dispatch ∨ z = i_rethrow)
  end.

Definition thread_ok (a : activity) (n : nat) (l : list instr) : Prop :=
  if decide (n < clients) then code false l
  else match a with
       | a_busy m t => if decide (n = m) then busy t l else passive l
       | _ => passive l
       end.

(** ** The invariant *)
Definition code_has (i : instr) (j : job) : Prop := ∃ n l, threads j !! n = Some l ∧ i ∈ l.
Definition worker_has (i : instr) (j : job) : Prop := ∃ n l, clients ≤ n ∧ threads j !! n = Some l ∧ i ∈ l.

Definition abort_ready (fs : list fx) : Prop := ∃ f, f ∈ fs ∧ lambdas f = l_abort.

(** The queue is closed, or will be. *)
Definition aborting (fs : list fx) (o : bool) (j : job) : Prop := o = false ∨ abort_ready fs ∨ code_has i_abort j.

(** The same, without the help of a client. *)
Definition halting (a : activity) (fs : list fx) (o : bool) (j : job) : Prop :=
  o = false ∨ a ≠ a_idle ∧ (abort_ready fs ∨ worker_has i_abort j).

(** A lambda that throws was called. *)
Definition thrown (j : job) : Prop := ∃ f calls, f ∈ called j ∧ lambdas f = l_client calls true.

Record core (a : activity) (fs : list fx) (o : bool) (j : job) : Prop := {
  v_queue : eq_holds (calling a) [] fs o (queue j);
  v_thread : ∀ n l, threads j !! n = Some l → thread_ok a n l;
  v_stops : ∀ n l, threads j !! n = Some l → stops l ≤ (if decide (n = stopper) then 1 else 0);
  v_active : ∀ n t, a = a_busy n t → clients ≤ n < length (threads j);
  v_teardown : m_curEventInTeardown j = true ↔ a = a_idle;
  v_event : ∀ e, m_curEvent j = Some e → clients ≤ e < length (threads j);
  v_clients : clients ≤ length (threads j);
  v_called : called j `prefix_of` accepted j;
  v_order : if o then accepted j = called j ++ fs else fs = [];
  v_on_stop : code_has i_on_stop j → m_shouldStop j = true ∧ ¬ aborting fs o j;
  v_aborting : aborting fs o j → m_shouldStop j = true;
  v_stop_left : ∀ g, code_has (i_stop g) j → m_shouldStop j = true → m_running j = false;
  v_release : ∀ n l, threads j !! n = Some l → i_release ∈ l →
    i_on_stop ∈ l ∨ i_abort ∈ l ∨ m_running j = false ∨ halting a fs o j;
  v_release_stop : code_has i_release j → m_shouldStop j = true;
  v_outstanding : m_running j = true → m_outstanding j = false → halting a fs o j;
  v_started : m_running j = true → m_wasStarted j = true;
  v_join : ∀ e, code_has (i_join e) j → clients ≤ e < length (threads j);
  v_lock : m_lock j = true → code_has i_unlock j;
  v_thrown : a = a_dead ∨ code_has i_rethrow j → thrown j }.

(** Ready lambdas are about to be dispatched. *)
Definition awake (a : activity) (fs : list fx) (j : job) : Prop :=
  m_running j = true → a = a_idle → fs = [] ∨ code_has i_on_start j.

Definition inv (a : activity) (fs : list fx) (o : bool) (j : job) : Prop := core a fs o j ∧ awake a fs j.

(** ** Code *)
Lemma op_of_ok w o : op_of w o → op_ok o.
Proof. destruct w; [|done]. by destruct o. Qed.

Lemma rest_of_call_tail w i x : rest_of_call w (i :: x) → rest_of_call w x.
Proof. inversion 1; subst; by constructor. Qed.

Lemma code_tail w i l : code w (i :: l) → code w l.
Proof.
  intros (x & ops & El & Hx & Hops). destruct x as [|i' x]; cbn in El.
  - destruct ops as [|o ops]; [done|]. injection El as -> ->. apply Forall_cons in Hops as [_ Hops]. exists [], ops. by split_and!; [|constructor|].
  - injection El as <- ->. exists x, ops. by split_and!; [|eapply rest_of_call_tail|].
Qed.

Lemma code_ops w ops : Forall (op_of w) ops → code w (map instr_of ops).
Proof. intros Hops. exists [], ops. by split_and!; [|constructor|]. Qed.

(** A step is the first of a call, or is left of a call under way. *)
Lemma code_cons w i l : code w (i :: l) →
  (∃ o ops, i = instr_of o ∧ l = map instr_of ops ∧ op_of w o ∧ Forall (op_of w) ops) ∨
  ∃ x ops, l = x ++ map instr_of ops ∧ rest_of_call w (i :: x) ∧ Forall (op_of w) ops.
Proof.
  intros (x & ops & El & Hx & Hops). destruct x as [|i' x]; cbn in El.
  - destruct ops as [|o ops]; [done|]. injection El as -> ->. apply Forall_cons in Hops as [Ho Hops]. left. by exists o, ops.
  - injection El as <- ->. right. by exists x, ops.
Qed.

(** Steps of calls come from the first step of a call. *)
Lemma elem_of_ops i ops : i ∈ map instr_of ops → ∃ o, o ∈ ops ∧ i = instr_of o.
Proof. intros (o & -> & Ho)%list_elem_of_fmap. by exists o. Qed.

Lemma not_in_ops i ops : (∀ o, i ≠ instr_of o) → i ∉ map instr_of ops.
Proof. intros Hi (o & _ & Ho)%elem_of_ops. by apply (Hi o). Qed.

Definition of_call (i : instr) : Prop := match i with i_dispatch | i_finish _ | i_rethrow | i_check | i_leave => False | _ => True end.

Lemma code_calls w l i : code w l → i ∈ l → of_call i.
Proof.
  intros (x & ops & -> & Hx & _) [Hi|(o & _ & ->)%elem_of_ops]%elem_of_app; [|by destruct o].
  inversion Hx; subst; set_solver.
Qed.

Lemma job_stops_app l1 l2 : stops (l1 ++ l2) = stops l1 + stops l2.
Proof. unfold stops. by rewrite List.filter_app, length_app. Qed.

Lemma stops_elem l i : i ∈ l → is_stop i = true → 0 < stops l.
Proof.
  intros Hi Hs. unfold stops. apply elem_of_Permutation in Hi as [l' Hl]. clear -Hl Hs.
  assert (List.filter is_stop l ≡ₚ List.filter is_stop (i :: l')) as ->%Permutation_length.
  { clear Hs. induction Hl as [|x l1 l2 _ IH|x y l1|l1 l2 l3 _ IH1 _ IH2]; cbn; [done| | |by etrans].
    - destruct (is_stop x); [by constructor|done].
    - destruct (is_stop x), (is_stop y); try done. constructor. }
  cbn. rewrite Hs. cbn. lia.
Qed.

(** ** Steps that change the code of one thread *)
Lemma code_has_set i j j' n l l' : threads j !! n = Some l → threads j' = <[n := l']> (threads j) → (i ∈ l → i ∈ l') → code_has i j → code_has i j'.
Proof.
  intros Hn Et Hl (m & lm & Hm & Hi). pose proof (lookup_lt_Some _ _ _ Hn). destruct (decide (m = n)) as [Em|Hne].
  - assert (lm = l) as Elm by congruence. exists n, l'. rewrite Et, list_lookup_insert_eq by done. split_and!; try done; [..|apply Hl; congruence]; congruence.
  - exists m, lm. rewrite Et, list_lookup_insert_ne by congruence. done.
Qed.

Lemma worker_has_set i j j' n l l' : threads j !! n = Some l → threads j' = <[n := l']> (threads j) → (i ∈ l → i ∈ l') → worker_has i j → worker_has i j'.
Proof.
  intros Hn Et Hl (m & lm & Hc & Hm & Hi). pose proof (lookup_lt_Some _ _ _ Hn). destruct (decide (m = n)) as [Em|Hne].
  - assert (lm = l) as Elm by congruence. exists n, l'. rewrite Et, list_lookup_insert_eq by done. split_and!; try done; [..|apply Hl; congruence]; congruence.
  - exists m, lm. rewrite Et, list_lookup_insert_ne by congruence. done.
Qed.

(** Back to the thread before the step. *)
Lemma code_has_back i j j' n l l' : threads j !! n = Some l → threads j' = <[n := l']> (threads j) → (i ∈ l' → i ∈ l) → code_has i j' → code_has i j.
Proof.
  intros Hn Et Hl (m & lm & Hm & Hi). rewrite Et in Hm. apply list_lookup_insert_Some in Hm as [(_ & <- & _)|[_ Hm]]; [|by exists m, lm].
  exists n, l. split; [done|]. by apply Hl.
Qed.

Lemma aborting_back fs o j j' n l l' : threads j !! n = Some l → threads j' = <[n := l']> (threads j) → (i_abort ∈ l' → i_abort ∈ l) →
  aborting fs o j' → aborting fs o j.
Proof. intros Hn Et Hl [?|[?|Hx]]; [by left|by right; left|]. right. right. by eapply code_has_back. Qed.

Lemma halting_set a fs o j j' n l l' : threads j !! n = Some l → threads j' = <[n := l']> (threads j) → (i_abort ∈ l → i_abort ∈ l') →
  halting a fs o j → halting a fs o j'.
Proof. intros Hn Et Hl [?|[? [?|Hx]]]; [by left|right; split; [done|by left]|]. right. split; [done|]. right. by eapply worker_has_set. Qed.

Lemma thrown_tail {A} (a a' : A) (i i' : instr) rest (P : Prop) : a = a' ∨ i' ∈ rest → a = a' ∨ i' ∈ i :: rest ∨ P.
Proof. intros [?|?]; [by left|right; left; by right]. Qed.

Lemma core_update a fs o j a' fs' o' j' n l l' :
  core a fs o j → threads j !! n = Some l → threads j' = <[n := l']> (threads j) →
  m_wasStarted j' = m_wasStarted j → m_shouldStop j' = m_shouldStop j → (∀ e, m_curEvent j' = Some e → m_curEvent j = Some e) →
  (m_running j' = true → m_running j = true) →
  eq_holds (calling a') [] fs' o' (queue j') → called j' `prefix_of` accepted j' → (if o' then accepted j' = called j' ++ fs' else fs' = []) →
  (∀ m lm, threads j' !! m = Some lm → thread_ok a' m lm) → (∀ m t, a' = a_busy m t → clients ≤ m < length (threads j)) →
  (m_curEventInTeardown j' = true ↔ a' = a_idle) →
  stops l' ≤ stops l → (i_on_stop ∈ l' → i_on_stop ∈ l) → (∀ g, i_stop g ∈ l' → i_stop g ∈ l) →
  (i_release ∈ l' → i_release ∈ l ∧ (i_on_stop ∈ l ∨ i_abort ∈ l → i_on_stop ∈ l' ∨ i_abort ∈ l' ∨ m_running j' = false ∨ halting a' fs' o' j')) →
  (∀ e, i_join e ∈ l' → i_join e ∈ l ∨ clients ≤ e < length (threads j)) →
  (m_lock j' = true → m_lock j = true ∧ (i_unlock ∈ l → i_unlock ∈ l')) →
  ((aborting fs' o' j' → aborting fs o j) ∨ m_shouldStop j = true ∧ ¬ code_has i_on_stop j') →
  (halting a fs o j → halting a' fs' o' j') →
  (m_running j' = true → m_outstanding j' = false → m_outstanding j = false ∨ halting a' fs' o' j') →
  (∀ f, f ∈ called j → f ∈ called j') → (a' = a_dead ∨ i_rethrow ∈ l' → a = a_dead ∨ i_rethrow ∈ l ∨ thrown j') →
  core a' fs' o' j'.
Proof.
  intros [V1 V2 V3 V4 V5 V6 V7 V8 V9 V10 V11 V12 V13 V18 V14 V15 V17 V16 V19] Hn Et Ew Es Ee Hrun Hq Hp Ho Hth Hact Htd Hst Hos His Hre Hjo Hlk Hab Hhalt Hout Hcalled Hthr.
  split; rewrite ?Et, ?Es, ?Ew, ?length_insert; try done; auto.
  - intros m lm Hm. apply Hth. by rewrite Et.
  - intros m lm [(-> & <- & _)|[_ Hm]]%list_lookup_insert_Some; [|by apply V3]. specialize (V3 _ _ Hn). lia.
  - intros Hc. destruct Hab as [Hab|[? Hno]]; [|done]. apply (code_has_back _ _ _ _ _ _ Hn Et Hos), V10 in Hc as [? Hc]. auto.
  - intros Ha. destruct Hab as [Hab|[? _]]; [|done]. auto.
  - intros g Hc Hs. apply (code_has_back _ _ _ _ _ _ Hn Et (His g)) in Hc. specialize (V12 g Hc Hs).
    destruct (m_running j'); [|done]. by rewrite Hrun in V12.
  - intros m lm [(-> & <- & _)|[_ Hm]]%list_lookup_insert_Some Hr.
    + destruct (Hre Hr) as [Hr' Hk]. destruct (V13 _ _ Hn Hr') as [?|[?|[Hf|?]]]; [auto..| |auto].
      right. right. left. destruct (m_running j'); [|done]. by rewrite Hrun in Hf.
    + destruct (V13 _ _ Hm Hr) as [?|[?|[Hf|?]]]; [auto..| |auto].
      right. right. left. destruct (m_running j'); [|done]. by rewrite Hrun in Hf.
  - intros Hc. apply V18. eapply code_has_back; [exact Hn|exact Et| |exact Hc]. intros Hr. by apply Hre.
  - intros Hr Hf. destruct (Hout Hr Hf) as [?|?]; auto.
  - intros e (m & lm & Hm & Hi). rewrite Et in Hm. apply list_lookup_insert_Some in Hm as [(_ & <- & _)|[_ Hm]].
    + destruct (Hjo e Hi) as [?|?]; [|done]. apply V17. by exists n, l.
    + apply V17. by exists m, lm.
  - intros Hl. destruct (Hlk Hl) as [Hl' Hu]. by eapply (code_has_set _ _ _ _ _ _ Hn Et), V16.
  - assert (a = a_dead ∨ code_has i_rethrow j → thrown j') as Hold. { intros (f & calls & ? & ?)%V19. exists f, calls. auto. }
    intros Hx. assert (a = a_dead ∨ code_has i_rethrow j ∨ thrown j') as [?|[?|?]]; [|auto|auto|done].
    assert (a' = a_dead ∨ i_rethrow ∈ l' ∨ code_has i_rethrow j) as [?|[?|?]]; [|destruct Hthr as [?|[?|?]]; auto..|auto].
    + destruct Hx as [?|(m & lm & Hm & Hi)]; [auto|]. rewrite Et in Hm.
      apply list_lookup_insert_Some in Hm as [(_ & <- & _)|[_ Hm]]; [auto|]. right. right. by exists m, lm.
    + right. left. by exists n, l.
    + right. left. by exists n, l.
Qed.

(** ** Starting to dispatch *)
Definition spawned (j : job) : job :=
  set_threads (threads j ++ [[i_dispatch]]) (set_event (Some (length (threads j))) (set_teardown false j)).

Lemma OnPended_cases a j : (m_curEventInTeardown j = true ↔ a = a_idle) →
  (m_running j = true → m_outstanding j = false → a ≠ a_idle) →
  (OnPended j = (Ret tt, j) ∧ (m_running j = true → a ≠ a_idle)) ∨
  (OnPended j = (Ret tt, spawned j) ∧ a = a_idle ∧ m_running j = true) ∨
  ((OnPended j).1 = Stuck blocked ∧ a = a_idle ∧ ∃ e, m_curEvent j = Some e ∧ threads j !! e ≠ Some []).
Proof.
  intros Ht Hout. unfold OnPended. munfold. destruct (m_curEventInTeardown j); cbn.
  2: { left. split; [done|]. intros _ ->. by pose proof (proj2 Ht eq_refl). }
  assert (a = a_idle) as -> by by apply Ht. destruct (m_running j) eqn:Hr; cbn; [|left; by split].
  destruct (m_outstanding j) eqn:Ho; cbn; [|by destruct Hout]. right. destruct (m_curEvent j) as [e|] eqn:He; cbn; [|left].
  - unfold wait_for. munfold. cbn. destruct (threads j !! e) as [[|]|] eqn:Hl; cbn; [left|right..].
    + split; [|done]. unfold async. munfold. cbn. done.
    + split_and!; [done..|]. exists e. by rewrite Hl.
    + split_and!; [done..|]. exists e. by rewrite Hl.
  - split; [|done]. unfold async. munfold. by destruct j.
Qed.

Lemma app_code_has i j l : code_has i (set_threads (threads j ++ [l]) j) ↔ code_has i j ∨ i ∈ l.
Proof.
  split.
  - intros (n & l' & Hn & Hi). cbn in Hn. apply lookup_app_Some in Hn as [Hn|[_ Hn]]; [left; by exists n, l'|].
    apply list_lookup_singleton_Some in Hn as [_ <-]. by right.
  - intros [(n & l' & Hn & Hi)|Hi]; [exists n, l'|exists (length (threads j)), l]; cbn; (split; [|done]).
    + by apply lookup_app_l_Some.
    + by rewrite lookup_app_r, Nat.sub_diag.
Qed.

Lemma spawn_code_has i j : i ≠ i_dispatch → code_has i (spawned j) ↔ code_has i j.
Proof.
  intros Hi. change (code_has i (spawned j)) with (code_has i (set_threads (threads j ++ [[i_dispatch]]) j)). rewrite app_code_has.
  split; [|by left]. by intros [?|?%list_elem_of_singleton].
Qed.

Lemma core_spawn fs o j : core a_idle fs o j → core (a_busy (length (threads j)) None) fs o (spawned j).
Proof.
  intros [V1 V2 V3 V4 V5 V6 V7 V8 V9 V10 V11 V12 V13 V18 V14 V15 V17 V16 V19].
  assert (∀ n l, (threads j ++ [[i_dispatch]]) !! n = Some l → threads j !! n = Some l ∨ n = length (threads j) ∧ l = [i_dispatch]) as Hold.
  { intros n l [?|[Hge Hn]]%lookup_app_Some; [by left|]. apply list_lookup_singleton_Some in Hn as [Hn <-]. right. split; [lia|done]. }
  assert (aborting fs o (spawned j) ↔ aborting fs o j) as Hab by (unfold aborting; by rewrite spawn_code_has).
  assert (halting a_idle fs o j → halting (a_busy (length (threads j)) None) fs o (spawned j)) as Hhalt by (intros [?|[]]; [by left|done]).
  split; cbn; try done.
  - intros n l [Hn|[-> ->]]%Hold.
    + specialize (V2 _ _ Hn). unfold thread_ok in *. case_decide; [done|]. rewrite decide_False; [done|]. apply lookup_lt_Some in Hn. lia.
    + unfold thread_ok. rewrite decide_False by lia. rewrite decide_True by done. by left.
  - intros n l [Hn|[-> ->]]%Hold; [by apply V3|]. cbn. lia.
  - intros n t [= <- _]. rewrite length_app. cbn. lia.
  - intros e [= <-]. rewrite length_app. cbn. lia.
  - rewrite length_app. lia.
  - rewrite spawn_code_has, Hab by done. done.
  - by rewrite Hab.
  - intros g. rewrite spawn_code_has by done. apply V12.
  - intros n l [Hn|[-> ->]]%Hold Hr; [|by apply list_elem_of_singleton in Hr]. destruct (V13 _ _ Hn Hr) as [?|[?|[?|?]]]; auto.
  - rewrite spawn_code_has by done. done.
  - auto.
  - intros e. rewrite spawn_code_has by done. intros He%V17. rewrite length_app. lia.
  - rewrite spawn_code_has by done. done.
  - intros [|Hx]; [done|]. rewrite spawn_code_has in Hx by done. apply V19. by right.
Qed.

(** ** The steps of calls *)
(** A thread in the midst of calls: its calls, and what a worker does after the
    lambda. *)
Lemma thread_call a n i l : thread_ok a n (i :: l) → of_call i →
  ∃ w tail z, l = tail ++ z ∧ code w (i :: tail) ∧ (∀ i', of_call i' → i' ∉ z) ∧
    (if w : bool then clients ≤ n ∧ ∃ t, a = a_busy n (Some t) else n < clients ∧ z = []) ∧
    ∀ l', code w l' → thread_ok a n (l' ++ z).
Proof.
  unfold thread_ok. case_decide as Hn; intros Hl Hi.
  - exists false, l, []. rewrite app_nil_r. split_and!; [done|done|by intros i' _ ?%elem_of_nil|done|done|]. intros l' Hl'. by rewrite app_nil_r.
  - assert (∀ z, passive (i :: z) → False) as Hp by (intros z [[=]|[= -> _]]; done).
    destruct a as [|m t|]; [by destruct (Hp l)| |by destruct (Hp l)]. case_decide as Hm; [|by destruct (Hp l)]. subst m. destruct t as [t|].
    2: { destruct Hl as [[= -> _]|[[= -> _]|[= -> _]]]; done. }
    destruct Hl as (body & z & El & Hb & Hz). destruct body as [|i' body]; [by injection El as -> _|]. injection El as <- ->.
    exists true, body, [i_finish t; z]. split_and!; [done|done| |lia|by exists t|].
    + intros i' Hi' [->|[->|Hx]%elem_of_cons]%elem_of_cons; [done|by destruct Hz as [-> | ->]|by apply elem_of_nil in Hx].
    + intros l' Hl'. exists l', z. by split_and!.
Qed.

Lemma thread_tail a n i l : thread_ok a n (i :: l) → of_call i → thread_ok a n l.
Proof. intros Hl Hi. destruct (thread_call _ _ _ _ Hl Hi) as (w & tail & z & -> & Hc & _ & _ & Hk). by eapply Hk, code_tail. Qed.

Lemma threads_update a a' (j : job) n l' : (∀ m lm, threads j !! m = Some lm → thread_ok a m lm) → thread_ok a' n l' →
  (∀ m lm, m ≠ n → thread_ok a m lm → thread_ok a' m lm) → ∀ m lm, <[n := l']> (threads j) !! m = Some lm → thread_ok a' m lm.
Proof. intros Hth Hl Ho m lm Hm. destruct (decide (m = n)) as [Em|Hne].
  - subst m. pose proof (lookup_lt_Some _ _ _ Hm) as Hlt. rewrite length_insert in Hlt. rewrite list_lookup_insert_eq in Hm by done. congruence.
  - rewrite list_lookup_insert_ne in Hm by congruence. auto.
Qed.

Definition goes (n : nat) (l : list instr) (j : job) : job := set_threads (<[n := l]> (threads j)) j.

(** When the step [i] has to wait. *)
Definition waits (a : activity) (i : instr) (j : job) : Prop :=
  match i with
  | i_join e => threads j !! e ≠ Some []
  | i_start _ | i_stop _ | i_release => m_lock j = true
  | i_pend _ | i_on_start | i_on_stop => a = a_idle ∧ ∃ e, m_curEvent j = Some e ∧ threads j !! e ≠ Some []
  | _ => False
  end.

(** The step [i] of thread [n] keeps the invariant. *)
Definition steps (a : activity) (fs : list fx) (o : bool) (j : job) (n : nat) (i : instr) (rest : list instr) : Prop :=
  match exec i j with
  | (Ret l, j') => ∃ a' fs' o', inv a' fs' o' (goes n (l ++ rest) j')
  | (Stuck blocked, _) => waits a i j
  | _ => False
  end.

Section step.
  Context (a : activity) (fs : list fx) (o : bool) (j : job) (n : nat) (rest : list instr).

(** The step is done, and nothing follows from it but that the lambdas may be others. *)
Lemma core_drop i a' fs' o' j' :
  core a fs o j → threads j !! n = Some (i :: rest) → of_call i → i ≠ i_on_stop → i ≠ i_abort → i ≠ i_unlock →
  threads j' = threads j → m_wasStarted j' = m_wasStarted j → m_shouldStop j' = m_shouldStop j → (∀ e, m_curEvent j' = Some e → m_curEvent j = Some e) →
  m_running j' = m_running j → m_lock j' = m_lock j → m_outstanding j' = m_outstanding j → m_curEventInTeardown j' = m_curEventInTeardown j →
  a' = a → eq_holds (calling a) [] fs' o' (queue j') → called j' `prefix_of` accepted j' → (if o' then accepted j' = called j' ++ fs' else fs' = []) →
  o' = o → (abort_ready fs' ↔ abort_ready fs) → called j' = called j → core a' fs' o' (goes n rest j').
Proof.
  intros Hc Hn Hi H1 H2 H3 Et Ew Es Ee Er El Eo Ed -> Hq Hp Hord -> Habort Ec.
  assert (∀ i', i' ∈ rest → i' ∈ i :: rest) as Hin by by right.
  assert (∀ i', i' ≠ i → i' ∈ i :: rest → i' ∈ rest) as Hout by (intros i' ? [|]%elem_of_cons; done).
  eapply (core_update a fs o j a fs' o (goes n rest j') n (i :: rest) rest Hc Hn); cbn; rewrite ?Et, ?Er, ?El, ?Eo, ?Ed; try done; auto.
  - apply (threads_update a); [apply Hc|eapply thread_tail; [by apply Hc|done]|done].
  - apply Hc.
  - apply Hc.
  - unfold stops. destruct (is_stop i); cbn [length]; lia.
  - intros Hr. split; [by apply Hin|]. intros [?|?]; auto 6.
  - left. intros [?|[?|Hx]]; [by left|right; left; by apply Habort|]. right. right.
    eapply code_has_back; [exact Hn| |apply Hin|exact Hx]. cbn. by rewrite Et.
  - intros [?|[? [?|Hx]]]; [by left|right; split; [done|]; left; by apply Habort|]. right. split; [done|]. right.
    eapply worker_has_set; [exact Hn| |by apply Hout|exact Hx]. cbn. by rewrite Et.
  - by rewrite Ec.
  - apply thrown_tail.
Qed.

Lemma awake_goes i l j' : awake a fs j → threads j !! n = Some (i :: rest) → threads j' = threads j → m_running j' = m_running j →
  (i_on_start ∈ i :: rest → i_on_start ∈ l) → awake a fs (goes n l j').
Proof.
  intros Hw Hn Et Er Hi. unfold awake. cbn. rewrite Er. intros Hr Ha. destruct (Hw Hr Ha) as [?|Hx]; [by left|]. right.
  eapply code_has_set; [exact Hn| |exact Hi|exact Hx]. cbn. by rewrite Et.
Qed.

Lemma awake_busy l j' : a ≠ a_idle → awake a fs (goes n l j').
Proof. by intros Ha _ ?. Qed.

(** The first step of a call is one the client may make. *)
Lemma op_first o' : core a fs o j → threads j !! n = Some (instr_of o' :: rest) → op_ok o'.
Proof.
  intros Hc Hn. destruct (thread_call a n (instr_of o') rest) as (w & tail & z & -> & Hcode & _); [by apply Hc|by destruct o'|].
  apply code_cons in Hcode as [(o2 & ops & Eo & _ & Ho & _)|(x & ops & _ & Hx & _)].
  - apply op_of_ok in Ho. by destruct o', o2; simplify_eq/=.
  - destruct o'; inversion Hx.
Qed.

Lemma on_queue_run {A} (m : M Q A) r q : m (queue j) = (r, q) → on_queue m j = (r, set_queue q j).
Proof. intros E. unfold on_queue. by rewrite E. Qed.

(** Waiting leaves nothing behind. *)
Lemma outstanding_open : core a fs o j → o = true → a = a_idle → m_running j = true → m_outstanding j = true.
Proof.
  intros Hc -> -> Hr. destruct (m_outstanding j) eqn:Ho; [done|]. by destruct (v_outstanding _ _ _ _ Hc Hr Ho) as [|[]].
Qed.
End step.

(** [OnPended] after lambda [f] was linked. *)
Definition linked_state (q : Q) (f : fx) (j : job) : job := set_accepted (accepted j ++ [f]) (set_queue q j).

Lemma linked_order a fs o j f : core a fs o j → o = true →
  called j `prefix_of` accepted j ++ [f] ∧ accepted j ++ [f] = called j ++ fs ++ [f].
Proof. intros Hc ->. pose proof (v_order _ _ _ _ Hc) as E. cbn in E. rewrite E. split; [by do 2 apply prefix_app_r|by rewrite app_assoc]. Qed.

Lemma pend_ok a fs o j n rest f : inv a fs o j → threads j !! n = Some (i_pend f :: rest) → steps a fs o j n (i_pend f) rest.
Proof.
  intros [Hc Hw] Hn. pose proof (op_first _ _ _ _ _ _ (jo_pend f) Hc Hn) as Hf. cbn in Hf.
  destruct (eq_pend_holds _ _ _ _ _ f (v_queue _ _ _ _ Hc)) as (b & q & E & Hq & Hb).
  unfold steps. cbn [exec]. unfold operator_pend. rewrite bind_assoc, (bind_Ret _ _ _ _ _ (on_queue_run _ _ _ _ E)).
  assert (∀ a' j', core a' fs o j' → threads j' !! n = Some (i_pend f :: rest) → eq_holds (calling a') [] (fs ++ [f]) o q → b = true →
    core a' (fs ++ [f]) o (goes n rest (linked_state q f j'))) as Hlinked.
  { intros a' j' Hc' Hn' Hq' ->. assert (o = true) as Ho by (destruct o; [done|by discriminate Hb]). destruct (linked_order _ _ _ _ f Hc' Ho).
    apply (core_drop a' fs o j' n rest (i_pend f)); try done; [by rewrite Ho|]. split.
    - intros (g & [?| ->%list_elem_of_singleton]%elem_of_app & ?); [by exists g|done].
    - intros (g & ? & ?). exists g. split; [|done]. apply elem_of_app. by left. }
  destruct b.
  - assert (o = true) as Ho by (destruct o; [done|by discriminate Hb]).
    cbn [when]. rewrite bind_assoc. unfold accept. erewrite bind_Ret by done. change (set_accepted _ _) with (linked_state q f j).
    destruct (OnPended_cases a (linked_state q f j)) as [[E1 Hi]|[(E1 & -> & Hr)|(E1 & -> & e & He & Hl)]].
    + apply Hc.
    + intros Hr Hout Ha. pose proof (outstanding_open _ _ _ _ Hc Ho Ha Hr). cbn in Hout. congruence.
    + rewrite (bind_Ret _ _ _ _ _ E1). exists a, (fs ++ [f]), o. split; [by apply Hlinked|]. intros Hr Ha. by destruct (Hi Hr).
    + rewrite (bind_Ret _ _ _ _ _ E1). exists (a_busy (length (threads j)) None), (fs ++ [f]), o. split; [|done].
      change (spawned (linked_state q f j)) with (linked_state q f (spawned j)). apply Hlinked; [by apply core_spawn| |done|done].
      by apply lookup_app_l_Some.
    + munfold. destruct (OnPended _) as [[] ?]; cbn in E1; try done. injection E1 as ->. split; [done|]. by exists e.
  - cbn [when]. erewrite bind_Ret by done. exists a, fs, o. split.
    + apply (core_drop a fs o j n rest (i_pend f)); try done; apply Hc.
    + eapply awake_goes; try done. by intros [|]%elem_of_cons.
Qed.

Lemma on_stop_shape a n l : thread_ok a n l → i_on_stop ∈ l → ∃ ops, l = i_on_stop :: i_release :: map instr_of ops.
Proof.
  intros Hl Hi. assert (∀ w l', code w l' → i_on_stop ∈ l' → w = false ∧ ∃ ops, l' = i_on_stop :: i_release :: map instr_of ops) as Hcode.
  { intros w l' (x & ops & -> & Hx & _) [Hin|Hin]%elem_of_app; [|by apply not_in_ops in Hin; [|by intros []]].
    inversion Hx; subst; first [by split; [|exists ops]|set_solver]. }
  unfold thread_ok in Hl. case_decide; [by destruct (Hcode _ _ Hl Hi)|].
  assert (¬ passive l) as Hp by (intros [-> | ->]; set_solver).
  destruct a as [|m t|]; [done| |done]. case_decide; [|done]. destruct t as [t|]; [|destruct Hl as [-> |[-> | ->]]; set_solver].
  destruct Hl as (body & z & -> & Hb & Hz). apply elem_of_app in Hi as [Hi|Hi]; [by destruct (Hcode _ _ Hb Hi)|]. destruct Hz as [-> | ->]; set_solver.
Qed.

(** Only one thread stops the job. *)
Lemma stops_here a fs o j n l m lm i i' : core a fs o j → threads j !! n = Some l → i ∈ l → is_stop i = true →
  threads j !! m = Some lm → i' ∈ lm → is_stop i' = true → m = n.
Proof.
  intros Hc Hn Hi Hs Hm Hi' Hs'. pose proof (v_stops _ _ _ _ Hc _ _ Hn) as H1. pose proof (v_stops _ _ _ _ Hc _ _ Hm) as H2.
  pose proof (stops_elem _ _ Hi Hs). pose proof (stops_elem _ _ Hi' Hs'). do 2 case_decide; subst; lia || done.
Qed.

Lemma on_stop_once a fs o j n rest : core a fs o j → threads j !! n = Some (i_on_stop :: rest) → ¬ code_has i_on_stop (goes n rest j).
Proof.
  intros Hc Hn (m & lm & Hm & Hi). cbn in Hm. destruct (on_stop_shape a n (i_on_stop :: rest)) as [ops [= ->]]; [by apply Hc|left|].
  apply list_lookup_insert_Some in Hm as [(_ & <- & _)|[Hne Hm]].
  - apply elem_of_cons in Hi as [|Hi]; [done|]. by apply not_in_ops in Hi; [|intros []].
  - destruct (on_stop_shape a m lm) as [ops' ->]; [by apply Hc|done|]. destruct Hne. symmetry.
    eapply (stops_here _ _ _ _ n _ m _ i_release i_release Hc Hn); [by right; left|done|exact Hm|by right; left|done].
Qed.

Lemma on_stop_ok a fs o j n rest : inv a fs o j → threads j !! n = Some (i_on_stop :: rest) → steps a fs o j n i_on_stop rest.
Proof.
  intros [Hc Hw] Hn. destruct (v_on_stop _ _ _ _ Hc) as [Hstop Hna]; [exists n, (i_on_stop :: rest); split; [done|left]|].
  assert (o = true) as Ho by (destruct o; [done|]; destruct Hna; by left).
  destruct (eq_pend_always_holds _ _ _ _ _ abort_fx (v_queue _ _ _ _ Hc)) as (q & E & Hq).
  unfold steps. cbn [exec]. unfold Pend. rewrite bind_assoc, (bind_Ret _ _ _ _ _ (on_queue_run _ _ _ _ E)), bind_assoc. unfold accept.
  erewrite bind_Ret by done. change (set_accepted _ _) with (linked_state q abort_fx j).
  assert (abort_ready (fs ++ [abort_fx])) as Hr by (exists abort_fx; split; [apply elem_of_app; right; left|apply ok]).
  assert (∀ a' j', core a' fs o j' → threads j' !! n = Some (i_on_stop :: rest) → eq_holds (calling a') [] (fs ++ [abort_fx]) o q →
    m_shouldStop j' = true → (m_running j' = true → a' ≠ a_idle) → core a' (fs ++ [abort_fx]) o (goes n rest (linked_state q abort_fx j'))) as Hlinked.
  { intros a' j' Hc' Hn' Hq' Hs' Hrun. destruct (linked_order _ _ _ _ abort_fx Hc' Ho).
    eapply (core_update a' fs o j' a' _ o _ n _ rest Hc' Hn'); cbn; try done; auto.
    - by rewrite Ho.
    - apply (threads_update a'); [apply Hc'|eapply thread_tail; [by apply Hc'|done]|done].
    - apply Hc'.
    - apply Hc'.
    - by right.
    - by right.
    - intros Hre. split; [by right|]. intros _. right. right. destruct (m_running j') eqn:Hj; [right; right|by left]. split; [by apply Hrun|by left].
    - intros e. left. by right.
    - intros Hl. split; [done|]. by intros [|]%elem_of_cons.
    - right. split; [done|]. by apply (on_stop_once _ _ _ _ _ _ Hc').
    - intros [?|[? Hx]]; [by left|right]. split; [done|]. by left.
    - apply thrown_tail. }
  destruct (OnPended_cases a (linked_state q abort_fx j)) as [[E1 Hi]|[(E1 & -> & Hrun)|(E1 & -> & e & He & Hl)]].
  - apply Hc.
  - intros Hrun Hout Ha. pose proof (outstanding_open _ _ _ _ Hc Ho Ha Hrun). cbn in Hout. congruence.
  - rewrite (bind_Ret _ _ _ _ _ E1). exists a, (fs ++ [abort_fx]), o. split; [by apply Hlinked|]. intros Hrun Ha. by destruct (Hi Hrun).
  - rewrite (bind_Ret _ _ _ _ _ E1). exists (a_busy (length (threads j)) None), (fs ++ [abort_fx]), o. split; [|done].
    change (spawned (linked_state q abort_fx j)) with (linked_state q abort_fx (spawned j)). apply Hlinked; [by apply core_spawn| |done|done|done].
    by apply lookup_app_l_Some.
  - munfold. destruct (OnPended _) as [[] ?]; cbn in E1; try done. injection E1 as ->. split; [done|]. by exists e.
Qed.

Lemma i_abort_ok a fs o j n rest : inv a fs o j → threads j !! n = Some (i_abort :: rest) → steps a fs o j n i_abort rest.
Proof.
  intros [Hc Hw] Hn. destruct (eq_abort_holds _ _ _ _ _ (v_queue _ _ _ _ Hc)) as (q & E & Hq).
  unfold steps. cbn [exec]. rewrite (bind_Ret _ _ _ _ _ (on_queue_run _ _ _ _ E)). exists a, [], false. split; [|by intros ??; left].
  eapply (core_update a fs o j a [] false _ n _ rest Hc Hn); cbn; try done; auto.
  - apply Hc.
  - apply (threads_update a); [apply Hc|eapply thread_tail; [by apply Hc|done]|done].
  - apply Hc.
  - apply Hc.
  - by right.
  - by right.
  - intros Hr. split; [by right|]. intros _. right. right. right. by left.
  - intros e. left. by right.
  - intros Hl. split; [done|]. by intros [|]%elem_of_cons.
  - left. intros _. right. right. exists n, (i_abort :: rest). split; [done|left].
  - intros _. by left.
  - apply thrown_tail.
Qed.

Lemma stopped_ok a fs o j n rest : inv a fs o j → threads j !! n = Some (i_stopped :: rest) → steps a fs o j n i_stopped rest.
Proof.
  intros [Hc Hw] Hn. unfold steps. cbn [exec]. erewrite bind_Ret by done. exists a, fs, o. split; [|done].
  eapply (core_update a fs o j a fs o _ n _ rest Hc Hn); cbn; try done; auto; try apply Hc.
  - apply (threads_update a); [apply Hc|eapply thread_tail; [by apply Hc|done]|done].
  - by right.
  - by right.
  - intros Hr. split; [by right|]. intros _. by right; right; left.
  - intros e. left. by right.
  - intros Hl. split; [done|]. by intros [|]%elem_of_cons.
  - left. eapply aborting_back; [exact Hn|done|]. by right.
  - eapply halting_set; [exact Hn|done|]. by intros [|]%elem_of_cons.
  - apply thrown_tail.
Qed.

Lemma job_unlock_ok a fs o j n rest : inv a fs o j → threads j !! n = Some (i_unlock :: rest) → steps a fs o j n i_unlock rest.
Proof.
  intros [Hc Hw] Hn. unfold steps. cbn [exec]. erewrite bind_Ret by done. exists a, fs, o. split.
  2: { eapply awake_goes; try done. by intros [|]%elem_of_cons. }
  eapply (core_update a fs o j a fs o _ n _ rest Hc Hn); cbn; try done; auto; try apply Hc.
  - apply (threads_update a); [apply Hc|eapply thread_tail; [by apply Hc|done]|done].
  - by right.
  - by right.
  - intros Hr. split; [by right|]. intros [[[=]|?]%elem_of_cons|[[=]|?]%elem_of_cons]; auto.
  - intros e. left. by right.
  - left. eapply aborting_back; [exact Hn|done|]. by right.
  - eapply halting_set; [exact Hn|done|]. by intros [|]%elem_of_cons.
  - apply thrown_tail.
Qed.

Lemma on_start_ok a fs o j n rest : inv a fs o j → threads j !! n = Some (i_on_start :: rest) → steps a fs o j n i_on_start rest.
Proof.
  intros [Hc Hw] Hn. unfold steps. cbn [exec]. unfold OnStart. rewrite bind_assoc. erewrite bind_Ret by done.
  rewrite (eq_ready_holds _ _ _ _ _ (v_queue _ _ _ _ Hc)).
  assert (∀ a' j', core a' fs o j' → threads j' !! n = Some (i_on_start :: rest) → core a' fs o (goes n rest j')) as Hdrop.
  { intros a' j' Hc' Hn'. apply (core_drop a' fs o j' n rest i_on_start); try done; apply Hc'. }
  case_bool_decide as Hfs; cbn [when].
  - assert (o = true) as Ho by (destruct o; [done|]; by pose proof (v_order _ _ _ _ Hc)).
    destruct (OnPended_cases a j) as [[E1 Hi]|[(E1 & -> & Hrun)|(E1 & -> & e & He & Hl)]].
    + apply Hc.
    + intros Hrun Hout Ha. pose proof (outstanding_open _ _ _ _ Hc Ho Ha Hrun). congruence.
    + rewrite (bind_Ret _ _ _ _ _ E1). exists a, fs, o. split; [by apply Hdrop|]. intros Hrun Ha. by destruct (Hi Hrun).
    + rewrite (bind_Ret _ _ _ _ _ E1). exists (a_busy (length (threads j)) None), fs, o. split; [|done].
      apply Hdrop; [by apply core_spawn|]. by apply lookup_app_l_Some.
    + munfold. destruct (OnPended _) as [[] ?]; cbn in E1; try done. injection E1 as ->. split; [done|]. by exists e.
  - erewrite bind_Ret by done. exists a, fs, o. split; [by apply Hdrop|]. intros _ _. left. destruct fs; [done|]. by destruct Hfs.
Qed.

Lemma join_ok a fs o j n e rest : inv a fs o j → threads j !! n = Some (i_join e :: rest) → steps a fs o j n (i_join e) rest.
Proof.
  intros [Hc Hw] Hn. unfold steps. cbn [exec]. unfold wait_for. rewrite bind_assoc. erewrite bind_Ret by done.
  destruct (threads j !! e) as [[|]|] eqn:He; cbn; [|by rewrite He..]. exists a, fs, o. split.
  - apply (core_drop a fs o j n rest (i_join e)); try done; apply Hc.
  - eapply awake_goes; try done. by intros [|]%elem_of_cons.
Qed.

Lemma wait_ok a fs o j n rest : inv a fs o j → threads j !! n = Some (i_wait :: rest) → steps a fs o j n i_wait rest.
Proof.
  intros [Hc Hw] Hn. unfold steps. cbn [exec]. unfold DoAdditionalWait. erewrite bind_Ret by done.
  destruct (m_curEvent j) as [e|] eqn:He; cbn.
  2: { exists a, fs, o. split; [apply (core_drop a fs o j n rest i_wait); try done; apply Hc|]. eapply awake_goes; try done. by intros [|]%elem_of_cons. }
  exists a, fs, o. split; [|eapply awake_goes; try done; intros [|]%elem_of_cons; [done|by right]].
  destruct (thread_call a n i_wait rest) as (w & tail & z & -> & Hcode & Hz & Hw' & Hk); [by apply Hc|done|].
  destruct (code_cons _ _ _ Hcode) as [([] & ops & [=] & -> & Hop & Hops)|(x & ops & _ & Hx & _)]; [|inversion Hx].
  destruct w; [done|]. destruct Hw' as [_ ->]. rewrite app_nil_r in *.
  assert (∀ i, (∀ o, i ≠ instr_of o) → i ∉ i_join e :: map instr_of ops ∨ i = i_join e) as Hno.
  { intros i Hi. destruct (decide (i = i_join e)); [by right|left]. intros [|?]%elem_of_cons; [done|]. by eapply not_in_ops. }
  assert (∀ i, i ≠ i_wait → i ∈ i_wait :: map instr_of ops → i ∈ i_join e :: map instr_of ops) as Hout by (intros i ? [|]%elem_of_cons; [done|by right]).
  assert (∀ i, i ≠ i_join e → i ∈ i_join e :: map instr_of ops → i ∈ i_wait :: map instr_of ops) as Hin by (intros i ? [|]%elem_of_cons; [done|by right]).
  eapply (core_update a fs o j a fs o _ n _ (i_join e :: map instr_of ops) Hc Hn); cbn; try done; auto; try apply Hc.
  - apply (threads_update a); [apply Hc| |done]. rewrite <-(app_nil_r (i_join e :: _)). apply Hk.
    exists [i_join e], ops. by split_and!; [|by apply x_join|].
  - intros Hr. split; [by apply Hin|]. intros [?|?]; auto.
  - intros e' [[= ->]|?]%elem_of_cons; [right; by apply Hc|left; by right].
  - left. eapply aborting_back; [exact Hn|done|]. by apply Hin.
  - eapply halting_set; [exact Hn|done|]. by apply Hout.
  - intros [?|?]; [by left|right; left; by apply Hin].
Qed.

(** ** Starting and stopping *)
Lemma halting_aborting a fs o j : halting a fs o j → aborting fs o j.
Proof. intros [?|[_ [?|(n & l & _ & ?)]]]; [by left|by right; left|]. right. right. by exists n, l. Qed.

Lemma code_has_in i (j j' : job) n l' : threads j' = <[n := l']> (threads j) → code_has i j' → i ∈ l' ∨ ∃ m l, m ≠ n ∧ threads j !! m = Some l ∧ i ∈ l.
Proof. intros Et (m & lm & Hm & Hi). rewrite Et in Hm. apply list_lookup_insert_Some in Hm as [(_ & <- & _)|[Hne Hm]]; [by left|right]. exists m, lm. by split_and!. Qed.

(** Before [m_shouldStop] is set, nothing aborts the queue. *)
Lemma core_begin a fs o j j' n l l' :
  core a fs o j → m_shouldStop j = false → threads j !! n = Some l → threads j' = <[n := l']> (threads j) →
  queue j' = queue j → called j' = called j → accepted j' = accepted j → m_curEvent j' = m_curEvent j →
  m_curEventInTeardown j' = m_curEventInTeardown j → thread_ok a n l' → stops l' ≤ stops l → (∀ e, i_join e ∈ l' → i_join e ∈ l) →
  (i_on_stop ∈ l' → m_shouldStop j' = true ∧ i_abort ∉ l') → (i_abort ∈ l' → m_shouldStop j' = true) →
  (m_shouldStop j' = true → m_running j' = true → ∀ g, i_stop g ∉ l' ∧ ∀ m lm, m ≠ n → threads j !! m = Some lm → i_stop g ∉ lm) →
  (i_release ∈ l' → m_shouldStop j' = true ∧ (i_on_stop ∈ l' ∨ i_abort ∈ l')) →
  (m_running j' = true → m_outstanding j' = true ∨ m_running j = true ∧ m_outstanding j' = m_outstanding j) →
  (m_running j' = true → m_wasStarted j' = true) → (m_lock j' = true → i_unlock ∈ l') → (i_rethrow ∈ l' → i_rethrow ∈ l) →
  core a fs o j'.
Proof.
  intros Hc Hs Hn Et Eq Ec Ea Ee Ed Hth Hst Hjo Hos Hab Hsl Hre Hout Hsta Hlk Hthr.
  assert (¬ aborting fs o j) as Hna by (intros ?%(v_aborting _ _ _ _ Hc); congruence).
  assert (∀ i, (i = i_on_stop ∨ i = i_abort ∨ i = i_release) → code_has i j' → i ∈ l') as Hnew.
  { intros i Hi [?|(m & lm & _ & Hm & Him)]%(code_has_in _ _ _ _ _ Et); [done|]. assert (code_has i j) as Hx by by exists m, lm.
    destruct Hi as [-> |[-> | ->]]; [apply (v_on_stop _ _ _ _ Hc) in Hx as [Hx _]|destruct Hna; by right; right|apply (v_release_stop _ _ _ _ Hc) in Hx]; congruence. }
  assert (aborting fs o j' → i_abort ∈ l') as Hab'. { intros [?|[?|Hx]]; [by destruct Hna; left|by destruct Hna; right; left|]. apply Hnew; auto. }
  destruct Hc as [V1 V2 V3 V4 V5 V6 V7 V8 V9 V10 V11 V12 V13 V18 V14 V15 V17 V16 V19].
  split; rewrite ?Et, ?Eq, ?Ec, ?Ea, ?Ee, ?Ed, ?length_insert; try done.
  - by apply (threads_update a).
  - intros m lm [(-> & <- & _)|[_ Hm]]%list_lookup_insert_Some; [|by apply V3]. specialize (V3 _ _ Hn). lia.
  - intros Hx%Hnew; [|auto]. split; [by apply Hos|]. intros Hx'%Hab'. by apply Hos in Hx as [_ []].
  - intros Hx%Hab'. auto.
  - intros g Hx Hs'. destruct (m_running j') eqn:Hr; [|done]. destruct (Hsl Hs' eq_refl g) as [H1 H2].
    apply (code_has_in _ _ _ _ _ Et) in Hx as [?|(m & lm & ? & Hm & ?)]; [done|]. by destruct (H2 m lm).
  - intros m lm Hm Hi. apply list_lookup_insert_Some in Hm as [(_ & <- & _)|[Hne Hm]]; [destruct (Hre Hi) as [_ [?|?]]; auto|].
    assert (m_shouldStop j = true) by (apply V18; by exists m, lm). congruence.
  - intros Hx%Hnew; [|auto]. by apply Hre.
  - intros Hr Ho. destruct (Hout Hr) as [?|[Hr' Ho']]; [congruence|]. destruct Hna. apply (halting_aborting a), V14; congruence.
  - intros e [Hi|(m & lm & _ & Hm & Hi)]%(code_has_in _ _ _ _ _ Et); apply V17; [exists n, l; auto|by exists m, lm].
  - intros Hl. exists n, l'. rewrite Et, list_lookup_insert_eq by by eapply lookup_lt_Some. auto.
  - unfold thrown. rewrite Ec. intros [?|[?|(m & lm & _ & Hm & Hi)]%(code_has_in _ _ _ _ _ Et)]; apply V19; [by left|right..].
    + exists n, l. auto.
    + by exists m, lm.
Qed.

(** A thread about to call [c]. *)
Lemma thread_first a n c rest : thread_ok a n (instr_of c :: rest) →
  ∃ w, op_of w c ∧ (∀ i, of_call i → i ∈ rest → ∃ c', i = instr_of c') ∧ ∀ x, rest_of_call w x → thread_ok a n (x ++ rest).
Proof.
  intros Hl. destruct (thread_call _ _ _ _ Hl) as (w & tail & z & -> & Hc & Hz & _ & Hk); [by destruct c|].
  apply code_cons in Hc as [(c' & ops & Ec & -> & Hop & Hops)|(x & ops & _ & Hx & _)]; [|destruct c; inversion Hx].
  exists w. split_and!.
  - by destruct c, c'; simplify_eq/=.
  - intros i Hi [(c2 & _ & ->)%elem_of_ops|Hin]%elem_of_app; [by exists c2|]. by destruct (Hz i Hi).
  - intros x Hx. rewrite app_assoc. apply Hk. by exists x, ops.
Qed.

Lemma stops_cons i l : stops (i :: l) = (if is_stop i then 1 else 0) + stops l.
Proof. unfold stops. cbn. by destruct (is_stop i). Qed.

(** The call [c] goes on with [x]. *)
Lemma core_call a fs o j j' n c x rest :
  core a fs o j → m_shouldStop j = false → threads j !! n = Some (instr_of c :: rest) → threads j' = <[n := x ++ rest]> (threads j) →
  queue j' = queue j → called j' = called j → accepted j' = accepted j → m_curEvent j' = m_curEvent j →
  m_curEventInTeardown j' = m_curEventInTeardown j → (∀ w, op_of w c → rest_of_call w x) → stops x ≤ stops [instr_of c] →
  (∀ e, i_join e ∉ x) → (∀ g, i_stop g ∉ x) → (i_on_stop ∈ x → m_shouldStop j' = true ∧ i_abort ∉ x) → (i_abort ∈ x → m_shouldStop j' = true) →
  (m_shouldStop j' = true → m_running j' = true → is_stop (instr_of c) = true) →
  (i_release ∈ x → m_shouldStop j' = true ∧ (i_on_stop ∈ x ∨ i_abort ∈ x)) →
  (m_running j' = true → m_outstanding j' = true ∨ m_running j = true ∧ m_outstanding j' = m_outstanding j) →
  (m_running j' = true → m_wasStarted j' = true) → (m_lock j' = true → i_unlock ∈ x) → i_rethrow ∉ x →
  core a fs o j'.
Proof.
  intros Hc Hs Hn Et Eq Ec Ea Ee Ed Hx Hst Hjo Hsx Hos Hab Hsl Hre Hout Hsta Hlk Hthr.
  destruct (thread_first a n c rest) as (w & Hw & Hrest & Hk); [by apply Hc|].
  assert (∀ i, of_call i → (∀ c, i ≠ instr_of c) → i ∈ x ++ rest → i ∈ x) as Hno.
  { intros i Hi Hi' [?|[c' ->]%Hrest]%elem_of_app; [done|by edestruct Hi'|done]. }
  eapply (core_begin a fs o j j' n _ (x ++ rest) Hc Hs Hn); try done.
  - auto.
  - rewrite job_stops_app, stops_cons. rewrite stops_cons in Hst. unfold stops in Hst at 2. cbn in Hst. lia.
  - intros e [He|He]%elem_of_app; [by destruct (Hjo e)|by right].
  - intros Hi%Hno; [|done|by intros []]. destruct (Hos Hi). split; [done|]. by intros Hi'%Hno; [|done|by intros []].
  - intros Hi%Hno; [auto|done|by intros []].
  - intros Hs' Hr g. pose proof (Hsl Hs' Hr) as Hcs. pose proof (v_stops _ _ _ _ Hc _ _ Hn) as H1. rewrite stops_cons, Hcs in H1.
    split; [|intros m lm Hne Hm Hg; destruct Hne; by eapply (stops_here _ _ _ _ n _ m lm (instr_of c) (i_stop g) Hc Hn); [left|..]].
    intros [?|Hg]%elem_of_app; [by destruct (Hsx g)|]. pose proof (stops_elem _ _ Hg eq_refl). case_decide; lia.
  - intros Hi%Hno; [|done|by intros []]. destruct (Hre Hi) as [? [?|?]]; (split; [done|]); [left|right]; apply elem_of_app; by left.
  - intros Hl. apply elem_of_app. auto.
  - intros [?|?]%elem_of_app; [done|by right].
Qed.

Lemma job_start_ok a fs o j n alive rest : inv a fs o j → threads j !! n = Some (i_start alive :: rest) → steps a fs o j n (i_start alive) rest.
Proof.
  intros [Hc Hw] Hn. unfold steps. cbn [exec]. unfold Start, lock. munfold. destruct (m_lock j) eqn:Hlk; [done|]. cbn.
  destruct (m_wasStarted j) eqn:Hst, (m_outstanding j) eqn:Hout, (m_shouldStop j) eqn:Hs; cbn.
  1-7: exists a, fs, o; split; [apply (core_drop a fs o j n rest (i_start alive)); try done; apply Hc|];
    eapply awake_goes; try done; by intros [|]%elem_of_cons.
  assert (m_running j = false) as Hrun by (destruct (m_running j) eqn:Hr; [by apply (v_started _ _ _ _ Hc) in Hr; congruence|done]).
  destruct alive; cbn; exists a, fs, o; split; try by intros ??.
  2: { intros _ _. right. eexists n, _. split; [by apply list_lookup_insert_eq; eapply lookup_lt_Some|left]. }
  - apply (core_call a fs o j _ n (jo_start true) [i_on_start; i_unlock] rest Hc Hs Hn); cbn; try done; try set_solver; auto.
    + intros. constructor.
    + congruence.
  - apply (core_call a fs o j _ n (jo_start false) [i_abort; i_stopped; i_unlock] rest Hc Hs Hn); cbn; try done; try set_solver; auto.
    intros. constructor.
  - intros Hr. cbn in Hr. congruence.
Qed.

Lemma stop_ok a fs o j n graceful rest : inv a fs o j → threads j !! n = Some (i_stop graceful :: rest) → steps a fs o j n (i_stop graceful) rest.
Proof.
  intros [Hc Hw] Hn. unfold steps. cbn [exec]. unfold Stop, lock. munfold. destruct (m_lock j) eqn:Hlk; [done|]. cbn.
  destruct (m_shouldStop j) eqn:Hs; cbn; exists a, fs, o.
  - pose proof (v_stop_left _ _ _ _ Hc graceful) as Hrun. assert (m_running j = false) as Hr.
    { apply Hrun; [|done]. exists n, (i_stop graceful :: rest). split; [done|left]. }
    assert (∀ i, i ∈ rest → i ∈ i_stop graceful :: rest) as Hin by by right.
    split; [|by intros Hx; cbn in Hx; congruence].
    eapply (core_update a fs o j a fs o _ n _ rest Hc Hn); cbn; try done; auto; try apply Hc.
    + apply (threads_update a); [apply Hc|eapply thread_tail; [by apply Hc|done]|done].
    + intros Hl. split; [done|]. by intros [|]%elem_of_cons.
    + left. eapply aborting_back; [exact Hn|done|]. by right.
    + eapply halting_set; [exact Hn|done|]. by intros [|]%elem_of_cons.
    + congruence.
    + apply thrown_tail.
  - split. 2: { eapply awake_goes; try done. intros [|Hx]%elem_of_cons; [done|]. apply elem_of_app. by right. }
    destruct graceful.
    + apply (core_call a fs o j _ n (jo_stop true) [i_on_stop; i_release] rest Hc Hs Hn); cbn; try done; try set_solver; auto.
      * intros [] ?; [done|by constructor].
      * apply Hc.
      * congruence.
    + apply (core_call a fs o j _ n (jo_stop false) [i_abort; i_stopped; i_release] rest Hc Hs Hn); cbn; try done; try set_solver; auto.
      * intros [] ?; [done|by constructor].
      * apply Hc.
      * congruence.
Qed.

Lemma job_release_ok a fs o j n rest : inv a fs o j → threads j !! n = Some (i_release :: rest) → steps a fs o j n i_release rest.
Proof.
  intros [Hc Hw] Hn. unfold steps. cbn [exec]. unfold Stop_release, lock. munfold. destruct (m_lock j) eqn:Hlk; [done|]. cbn.
  assert (∀ i, i ∈ rest → ∃ c, i = instr_of c) as Hrest.
  { destruct (thread_call a n i_release rest) as (w & tail & z & -> & Hcode & _ & Hz & _); [by apply Hc|done|].
    apply code_cons in Hcode as [([] & ? & [=] & _)|(x & ops & -> & Hx & _)]. inversion Hx; subst. destruct Hz as [_ ->].
    intros i [(c & _ & ->)%elem_of_ops|[]%elem_of_nil]%elem_of_app. by exists c. }
  assert (∀ i, i ∈ i_release :: rest → i = i_release ∨ ∃ c, i = instr_of c) as Hi by (intros i [|]%elem_of_cons; auto).
  assert (m_running j = false ∨ halting a fs o j) as Hh.
  { destruct (v_release _ _ _ _ Hc _ _ Hn) as [Hx|[Hx|?]]; [left| | |done]; apply Hi in Hx as [|[[] ?]]; done. }
  exists a, fs, o. split; [|eapply awake_goes; try done; by intros [|]%elem_of_cons].
  eapply (core_update a fs o j a fs o _ n _ rest Hc Hn); cbn; try done; auto; try apply Hc.
  - apply (threads_update a); [apply Hc|eapply thread_tail; [by apply Hc|done]|done].
  - by right.
  - by right.
  - by intros [[] ?]%Hrest.
  - intros e. left. by right.
  - intros Hl. congruence.
  - left. eapply aborting_back; [exact Hn|done|]. by right.
  - eapply halting_set; [exact Hn|done|]. by intros [|]%elem_of_cons.
  - intros Hr _. right. destruct Hh as [?|Hh]; [congruence|]. eapply halting_set; [exact Hn|done| |exact Hh]. by intros [|]%elem_of_cons.
  - apply thrown_tail.
Qed.

(** ** The steps of the asynchronous call *)
Lemma worker_thread a fs o j n i rest : core a fs o j → threads j !! n = Some (i :: rest) → ¬ of_call i → i ≠ i_leave →
  clients ≤ n ∧ ∃ t, a = a_busy n t ∧ busy t (i :: rest).
Proof.
  intros Hc Hn Hi Hne. pose proof (v_thread _ _ _ _ Hc _ _ Hn) as Hl. unfold thread_ok in Hl. case_decide as Hlt.
  { destruct Hi. eapply code_calls; [exact Hl|left]. }
  assert (¬ passive (i :: rest)) as Hp by (by intros [|[=]]).
  destruct a as [|m t|]; [done| |done]. case_decide; [|done]. subst m. split; [lia|]. by exists t.
Qed.

(** What an asynchronous call never does. *)
Definition foreign (i : instr) : Prop := match i with i_stop _ | i_release | i_on_stop | i_join _ => True | _ => False end.

Definition works (n : nat) (a : activity) (l : list instr) : Prop :=
  match a with a_busy m t => m = n ∧ busy t l | _ => passive l end.

Lemma works_foreign n a l i : works n a l → foreign i → i ∉ l.
Proof.
  intros Hl Hi Hin. assert (passive l → False) as Hp by (intros [-> | ->]; [by apply elem_of_nil in Hin|apply list_elem_of_singleton in Hin as ->; done]).
  destruct a as [|m [t|]|]; [auto| | |auto]; destruct Hl as [_ Hl].
  - destruct Hl as (body & z & -> & (x & ops & -> & Hx & Hops) & Hz). rewrite !elem_of_app, !elem_of_cons, elem_of_nil in Hin.
    destruct Hin as [[Hin|(c & Hc & ->)%elem_of_ops]|[->|[->|[]]]]; [inversion Hx; subst; set_solver| |done|by destruct Hz as [-> | ->]].
    rewrite Forall_forall in Hops. specialize (Hops _ Hc). by destruct c.
  - destruct Hl as [-> |[-> | ->]]; apply list_elem_of_singleton in Hin as ->; done.
Qed.

Lemma works_thread n a l m lm t : works n a l → m ≠ n → thread_ok (a_busy n t) m lm → thread_ok a m lm.
Proof.
  unfold thread_ok. intros Ha Hne. case_decide; [done|]. rewrite decide_False by done. destruct a as [|m' t'|]; [done| |done].
  destruct Ha as [-> _]. by rewrite decide_False.
Qed.

Lemma works_stops n a l : works n a l → stops l = 0.
Proof.
  intros Hl. assert (∀ i, i ∈ l → is_stop i = false) as Hs.
  { intros i Hi. destruct (is_stop i) eqn:E; [|done]. destruct (works_foreign _ _ _ i Hl); [by destruct i|done]. }
  clear Hl. induction l as [|i l IH]; [done|]. rewrite stops_cons, Hs by left. apply IH. intros i' Hi. apply Hs. by right.
Qed.

(** A step of the thread that dispatches. *)
Lemma core_worker n t fs o j a' fs' j' l l' :
  core (a_busy n t) fs o j → threads j !! n = Some l → clients ≤ n → threads j' = <[n := l']> (threads j) →
  m_wasStarted j' = m_wasStarted j → m_shouldStop j' = m_shouldStop j → m_curEvent j' = m_curEvent j →
  m_running j' = m_running j → m_lock j' = m_lock j → m_outstanding j' = m_outstanding j →
  eq_holds (calling a') [] fs' o (queue j') → called j' `prefix_of` accepted j' → (if o then accepted j' = called j' ++ fs' else fs' = []) →
  (m_curEventInTeardown j' = true ↔ a' = a_idle) → works n a' l' → (i_unlock ∈ l → i_unlock ∈ l') →
  (aborting fs' o j' → aborting fs o j) → (halting (a_busy n t) fs o j → halting a' fs' o j') →
  (∀ f, f ∈ called j → f ∈ called j') → (a' = a_dead ∨ i_rethrow ∈ l' → i_rethrow ∈ l ∨ thrown j') → core a' fs' o j'.
Proof.
  intros Hc Hn Hcn Et Ew Es Ee Er El Eo Hq Hp Hord Htd Hw Hu Hab Hhalt Hcalled Hthr. assert (∀ i, foreign i → i ∉ l') as Hf by (intros i Hi; by eapply works_foreign).
  eapply (core_update _ fs o j a' fs' o j' n l l' Hc Hn Et Ew Es); rewrite ?Ee, ?Er, ?El, ?Eo; try done; auto.
  - rewrite Et. apply (threads_update (a_busy n t)); [apply Hc| |].
    + unfold thread_ok. rewrite decide_False by lia. destruct a' as [|m t'|]; [done| |done]. destruct Hw as [-> ?]. by rewrite decide_True.
    + intros m lm. by eapply works_thread.
  - intros m t' ->. destruct Hw as [-> _]. split; [done|]. by eapply lookup_lt_Some.
  - rewrite (works_stops _ _ _ Hw). lia.
  - intros Hi. by destruct (Hf i_on_stop I Hi).
  - intros g Hi. by destruct (Hf (i_stop g) I Hi).
  - intros Hi. by destruct (Hf i_release I Hi).
  - intros e Hi. by destruct (Hf (i_join e) I Hi).
Qed.

(** Nobody but the thread that dispatches aborts for it. *)
Lemma worker_abort n t fs o j l : core (a_busy n t) fs o j → threads j !! n = Some l → worker_has i_abort j → i_abort ∈ l.
Proof.
  intros Hc Hn (m & lm & Hcm & Hm & Hi). destruct (decide (m = n)) as [->|Hne]; [congruence|].
  pose proof (v_thread _ _ _ _ Hc _ _ Hm) as Hl. unfold thread_ok in Hl. rewrite !decide_False in Hl by (lia || done).
  destruct Hl as [-> | ->]; [by apply elem_of_nil in Hi|by apply list_elem_of_singleton in Hi].
Qed.

Lemma busy_head t i rest : busy t (i :: rest) → ¬ of_call i →
  match t with
  | Some t => i = i_finish t ∧ (rest = [i_dispatch] ∨ rest = [i_rethrow])
  | None => rest = [] ∧ (i = i_dispatch ∨ i = i_check ∨ i = i_rethrow)
  end.
Proof.
  intros Hb Hi. destruct t as [t|]; [|destruct Hb as [[= -> ->]|[[= -> ->]|[= -> ->]]]; auto].
  destruct Hb as (body & z & El & Hb & Hz). destruct body as [|i' body]; [injection El as -> ->; split; [done|]; by destruct Hz as [-> | ->]; [left|right]|].
  injection El as -> ->. destruct Hi. eapply code_calls; [exact Hb|left].
Qed.

Lemma leave_ok a fs o j n rest : inv a fs o j → threads j !! n = Some (i_leave :: rest) → steps a fs o j n i_leave rest.
Proof.
  intros [Hc Hw] Hn. unfold steps. cbn. exists a, fs, o. split; [|eapply awake_goes; try done; by intros [|]%elem_of_cons].
  pose proof (v_thread _ _ _ _ Hc _ _ Hn) as Hl. assert (clients ≤ n ∧ rest = [] ∧ thread_ok a n []) as (Hcn & -> & Hk).
  { unfold thread_ok in *. case_decide as Hlt; [destruct (code_calls _ _ i_leave Hl); left|]. split; [lia|].
    assert (passive (i_leave :: rest) → rest = []) as Hp by (by intros [|[= ->]]). destruct a as [|m t|]; [split; [auto|by left]| |split; [auto|by left]].
    case_decide; [|split; [auto|by left]]. apply busy_head in Hl; [|by intros []]. destruct t; [by destruct Hl|by destruct Hl as [_ [|[|]]]]. }
  eapply (core_update a fs o j a fs o _ n _ [] Hc Hn); cbn; try done; auto; try apply Hc.
  - by apply (threads_update a); [apply Hc|..].
  - by intros Hi%elem_of_nil.
  - by intros g Hi%elem_of_nil.
  - by intros Hi%elem_of_nil.
  - by intros e Hi%elem_of_nil.
  - intros Hl'. split; [done|]. by intros Hi%list_elem_of_singleton.
  - left. eapply aborting_back; [exact Hn|done|]. by intros Hi%elem_of_nil.
  - eapply halting_set; [exact Hn|done|]. by intros Hi%list_elem_of_singleton.
  - apply thrown_tail.
Qed.

Lemma halting_busy a a' fs o j : a' ≠ a_idle → halting a fs o j → halting a' fs o j.
Proof. intros Ha [?|[_ ?]]; [by left|by right]. Qed.

Lemma busy_teardown n t fs o j : core (a_busy n t) fs o j → ∀ a, a ≠ a_idle → m_curEventInTeardown j = true ↔ a = a_idle.
Proof. intros Hc a Ha. split; [|done]. by intros Ht%(v_teardown _ _ _ _ Hc). Qed.

(** A step of the thread that dispatches, which does not abort. *)
Lemma worker_aborting fs o j j' n i l l' : threads j !! n = Some (i :: l) → threads j' = <[n := l']> (threads j) → (i_abort ∈ l' → i_abort ∈ l) →
  aborting fs o j' → aborting fs o j.
Proof. intros Hn Et Hl. eapply aborting_back; [exact Hn|exact Et|]. intros ?%Hl. by right. Qed.

Lemma rethrow_ok a fs o j n rest : inv a fs o j → threads j !! n = Some (i_rethrow :: rest) → steps a fs o j n i_rethrow rest.
Proof.
  intros [Hc Hw] Hn. destruct (worker_thread _ _ _ _ _ _ _ Hc Hn) as (Hcn & t & -> & Hb); [by intros []|done|].
  apply busy_head in Hb; [|by intros []]. destruct t as [t|]; [by destruct Hb|]. destruct Hb as [-> _].
  exists a_dead, fs, o. split; [|done]. eapply (core_worker n None fs o j a_dead fs _ _ [] Hc Hn Hcn); cbn; try done; try apply Hc.
  - by eapply busy_teardown.
  - by left.
  - by intros Hi%list_elem_of_singleton.
  - eapply worker_aborting; [exact Hn|done|by intros Hi%elem_of_nil].
  - intros Hh. apply (halting_busy (a_busy n None)); [done|]. eapply halting_set; [exact Hn|done| |exact Hh]. by intros Hi%list_elem_of_singleton.
  - intros _. left. left.
Qed.

Lemma job_finish_ok a fs o j n t rest : inv a fs o j → threads j !! n = Some (i_finish t :: rest) → steps a fs o j n (i_finish t) rest.
Proof.
  intros [Hc Hw] Hn. destruct (worker_thread _ _ _ _ _ _ _ Hc Hn) as (Hcn & t' & -> & Hb); [by intros []|done|].
  apply busy_head in Hb; [|by intros []]. destruct t' as [t'|]; [|by destruct Hb as [_ [|[|]]]]. destruct Hb as [[= ->] Hr].
  destruct (eq_finish_holds _ _ _ _ _ _ (v_queue _ _ _ _ Hc)) as (q & E & Hq).
  unfold steps. cbn [exec]. rewrite (bind_Ret _ _ _ _ _ (on_queue_run _ _ _ _ E)). exists (a_busy n None), fs, o. split; [|done].
  eapply (core_worker n (Some t') fs o j (a_busy n None) fs _ _ rest Hc Hn Hcn); cbn; try done; try apply Hc.
  - by eapply busy_teardown.
  - split; [done|]. destruct Hr as [-> | ->]; auto.
  - by intros [|]%elem_of_cons.
  - by eapply worker_aborting.
  - intros Hh. apply (halting_busy (a_busy n (Some t'))); [done|]. eapply halting_set; [exact Hn|done| |exact Hh]. by intros [|]%elem_of_cons.
  - intros [|?]; [done|]. left. by right.
Qed.

Lemma check_ok a fs o j n rest : inv a fs o j → threads j !! n = Some (i_check :: rest) → steps a fs o j n i_check rest.
Proof.
  intros [Hc Hw] Hn. destruct (worker_thread _ _ _ _ _ _ _ Hc Hn) as (Hcn & t & -> & Hb); [by intros []|done|].
  apply busy_head in Hb; [|by intros []]. destruct t as [t|]; [by destruct Hb|]. destruct Hb as [-> _].
  unfold steps. cbn [exec]. unfold check. erewrite bind_Ret by done. rewrite (eq_ready_holds _ _ _ _ _ (v_queue _ _ _ _ Hc)).
  case_bool_decide as Hfs; cbn.
  - exists (a_busy n None), fs, o. split; [|done].
    eapply (core_worker n None fs o j (a_busy n None) fs _ _ [i_dispatch] Hc Hn Hcn); cbn; try done; try apply Hc.
    + split; [done|by left].
    + by intros Hi%list_elem_of_singleton.
    + eapply worker_aborting; [exact Hn|done|by intros Hi%list_elem_of_singleton].
    + eapply halting_set; [exact Hn|done|by intros Hi%list_elem_of_singleton].
    + by intros [|?%list_elem_of_singleton].
  - exists a_idle, fs, o. split; [|intros _ _; by left].
    eapply (core_worker n None fs o j a_idle fs _ _ [i_leave] Hc Hn Hcn); cbn; try done; try apply Hc.
    + by right.
    + by intros Hi%list_elem_of_singleton.
    + eapply worker_aborting; [exact Hn|done|by intros Hi%list_elem_of_singleton].
    + intros [Ho|[_ [(f & Hf & _)|Hx]]]; [by left|rewrite Hfs in Hf; by apply elem_of_nil in Hf|].
      by apply (worker_abort _ _ _ _ _ _ Hc Hn), list_elem_of_singleton in Hx.
    + by intros [|?%list_elem_of_singleton].
Qed.

Lemma call_busy f t : busy (Some t) (call lambdas f t).
Proof.
  unfold call. destruct (lambdas f) as [calls throws|] eqn:E.
  - exists (map instr_of calls), (if throws then i_rethrow else i_dispatch). split_and!; [done| |by destruct throws; [right|left]].
    apply code_ops. destruct ok as [_ Hok]. by eapply Hok.
  - exists [i_abort; i_stopped], i_dispatch. split_and!; [done| |by left].
    exists [i_abort; i_stopped], []. split_and!; [done|by constructor|done].
Qed.

Lemma call_abort f t : i_abort ∈ call lambdas f t ↔ lambdas f = l_abort.
Proof.
  unfold call. destruct (lambdas f) as [calls throws|]; [|split; [done|left]]. split; [|done].
  rewrite elem_of_app, !elem_of_cons, elem_of_nil. intros [(c & _ & Hi)%elem_of_ops|[|[Hi|]]]; [by destruct c|done|by destruct throws|done].
Qed.

Lemma call_rethrow f t : i_rethrow ∈ call lambdas f t → ∃ calls, lambdas f = l_client calls true.
Proof.
  unfold call. destruct (lambdas f) as [calls throws|]; rewrite ?elem_of_app, !elem_of_cons, elem_of_nil; [|by intros [|[|[|[|]]]]].
  intros [(c & _ & Hi)%elem_of_ops|[|[Hi|]]]; [by destruct c|done| |done]. destruct throws; [by exists calls|done].
Qed.

Lemma dispatch_ok a fs o j n rest : inv a fs o j → threads j !! n = Some (i_dispatch :: rest) → steps a fs o j n i_dispatch rest.
Proof.
  intros [Hc Hw] Hn. destruct (worker_thread _ _ _ _ _ _ _ Hc Hn) as (Hcn & t & -> & Hb); [by intros []|done|].
  apply busy_head in Hb; [|by intros []]. destruct t as [t|]; [by destruct Hb|]. destruct Hb as [-> _].
  unfold steps. cbn [exec]. unfold dispatch. destruct fs as [|f fs].
  - destruct (eq_take_empty _ _ _ _ (v_queue _ _ _ _ Hc)) as (q & E & Hq). rewrite (bind_Ret _ _ _ _ _ (on_queue_run _ _ _ _ E)). cbn.
    exists (a_busy n None), [], o. split; [|done].
    eapply (core_worker n None [] o j (a_busy n None) [] _ _ [i_check] Hc Hn Hcn); cbn; try done; try apply Hc.
    + split; [done|by right; left].
    + by intros Hi%list_elem_of_singleton.
    + eapply worker_aborting; [exact Hn|done|by intros Hi%list_elem_of_singleton].
    + eapply halting_set; [exact Hn|done|by intros Hi%list_elem_of_singleton].
    + by intros [|?%list_elem_of_singleton].
  - assert (o = true) as Ho by (destruct o; [done|]; by pose proof (v_order _ _ _ _ Hc)).
    assert (accepted j = called j ++ f :: fs) as Hacc by (pose proof (v_order _ _ _ _ Hc) as E; by rewrite Ho in E).
    destruct (eq_take_first _ _ _ _ _ _ (v_queue _ _ _ _ Hc)) as (t & q & E & Hq). rewrite (bind_Ret _ _ _ _ _ (on_queue_run _ _ _ _ E)).
    erewrite bind_Ret by done. cbn. exists (a_busy n (Some t)), fs, o. split; [|done].
    eapply (core_worker n None _ o j (a_busy n (Some t)) fs _ _ _ Hc Hn Hcn); cbn; try done; try apply Hc.
    + rewrite Hacc. by apply prefix_app, prefix_cons, prefix_nil.
    + rewrite Ho, <-app_assoc. exact Hacc.
    + by eapply busy_teardown.
    + rewrite app_nil_r. split; [done|]. apply call_busy.
    + by intros Hi%list_elem_of_singleton.
    + rewrite app_nil_r. intros [?|[(g & Hg & ?)|Hx]]; [by left|right; left; exists g; split; [by right|done]|].
      apply (code_has_in i_abort j _ n (call lambdas f t)) in Hx as [Hx%call_abort|(m & lm & _ & ? & ?)]; [| |done].
      * right. left. exists f. split; [left|done].
      * right. right. by exists m, lm.
    + rewrite app_nil_r. intros [?|[_ [(g & Hg & Ha)|Hx]]]; [by left|right; split; [done|]..].
      * apply elem_of_cons in Hg as [->|Hg]; [right|left; by exists g]. eexists n, _. split; [done|]. split; [by apply list_lookup_insert_eq; eapply lookup_lt_Some|].
        by apply call_abort.
      * by apply (worker_abort _ _ _ _ _ _ Hc Hn), list_elem_of_singleton in Hx.
    + intros g Hg. apply elem_of_app. by left.
    + rewrite app_nil_r. intros [|[calls Ef]%call_rethrow]; [done|]. right. exists f, calls. split; [|done]. apply elem_of_app. right. left.
Qed.

(** ** All steps *)
Lemma steps_ok a fs o j n i rest : inv a fs o j → threads j !! n = Some (i :: rest) → steps a fs o j n i rest.
Proof.
  destruct i; [apply pend_ok|apply job_start_ok|apply on_start_ok|apply job_unlock_ok|apply stop_ok|apply on_stop_ok|apply i_abort_ok|apply stopped_ok|
    apply job_release_ok|apply wait_ok|apply join_ok|apply dispatch_ok|apply job_finish_ok|apply rethrow_ok|apply check_ok|apply leave_ok].
Qed.

Lemma step_inv a fs o j n : inv a fs o j →
  match step lambdas abort_fx n j with
  | Ret j' => ∃ a' fs' o', inv a' fs' o' j'
  | Stuck blocked => ∀ i rest, threads j !! n = Some (i :: rest) → waits a i j
  | _ => False
  end.
Proof.
  intros Hi. unfold step. destruct (threads j !! n) as [[|i rest]|] eqn:Hn; [done| |done].
  pose proof (steps_ok _ _ _ _ _ _ _ Hi Hn) as Hs. unfold steps in Hs.
  destruct (exec i j) as [[l|e|[]] j']; try done. by intros ?? [= <- <-].
Qed.

Lemma run_inv schedule a fs o j : inv a fs o j → match run lambdas abort_fx schedule j with Ret j' => ∃ a' fs' o', inv a' fs' o' j' | _ => False end.
Proof.
  revert a fs o j. induction schedule as [|n schedule IH]; intros a fs o j Hi; [by exists a, fs, o|]. cbn.
  pose proof (step_inv _ _ _ _ n Hi) as Hs. destruct (step _ _ n j) as [j'|e|[]]; try done; [|by eapply IH].
  destruct Hs as (a' & fs' & o' & Hi'). by eapply IH.
Qed.

Lemma job_inv_new programs : length programs = clients → programs_ok stopper programs → inv a_idle [] true (job_new programs).
Proof.
  intros Hlen Hp. assert (∀ n l, map (map instr_of) programs !! n = Some l → ∃ p, programs !! n = Some p ∧ l = map instr_of p) as Hth.
  { intros n l. rewrite list_lookup_fmap. destruct (programs !! n) as [p|]; [intros [= <-]; by exists p|done]. }
  assert (∀ i, (∀ c, i ≠ instr_of c) → ¬ code_has i (job_new programs)) as Hno.
  { intros i Hi (n & l & (p & _ & ->)%Hth & (c & _ & ->)%elem_of_ops). by apply (Hi c). }
  split; [|by left]. split; cbn; try done.
  - apply eq_new_holds.
  - intros n l (p & Hn & ->)%Hth. unfold thread_ok. rewrite decide_True by (rewrite <-Hlen; by eapply lookup_lt_Some). by apply code_ops, (Hp n).
  - intros n l (p & Hn & ->)%Hth. by apply Hp.
  - rewrite length_map. lia.
  - intros Hx. by destruct (Hno i_on_stop); [intros []|].
  - intros [?|[(f & Hf & _)|Hx]]; [done|by apply elem_of_nil in Hf|]. by destruct (Hno i_abort); [intros []|].
  - intros n l Hn Hr. by destruct (Hno i_release); [intros []|exists n, l].
  - intros Hx. by destruct (Hno i_release); [intros []|].
  - intros e Hx. by destruct (Hno (i_join e)); [intros []|].
  - intros [|Hx]; [done|]. by destruct (Hno i_rethrow); [intros []|].
Qed.
End facts.
