(* ===== verification/CoreJobSpec.v ===== *)
(** * CoreJob: what clients may rely on

    For every queue that keeps the laws of EventQueue.v, all programs of the client
    threads, and all schedules. *)
From stdpp Require Import base gmap list.
From Stdlib Require Import ZArith Lia.
From S2P Require Import Prelude.
From S2P Require Import DispatchQueue.
From S2P Require Import EventQueue.
From S2P Require Import CoreJob.
From S2P Require Import CoreJobFacts.
Local Open Scope nat_scope.

Section theorems.
  Context {Q : Type} `{EventQueueLaws Q}.
  Context (lambdas : fx → lambda) (abort_fx : fx).
  Local Abbreviation job := (CoreJob.job (Q := Q)).
  Local Abbreviation step := (CoreJob.step lambdas abort_fx).
  Local Abbreviation run := (CoreJob.run lambdas abort_fx).
  Context (ok : lambdas_ok lambdas abort_fx) (stopper clients : nat) (stopper_client : stopper < clients).
  Local Abbreviation inv := (CoreJobFacts.inv lambdas stopper clients).

(** Calling a lambda. *)
Definition calls_now (j : job) (n : nat) (t : addr) : Prop := ∃ l, threads j !! n = Some l ∧ i_finish t ∈ l.

Lemma reached programs schedule j : length programs = clients → programs_ok lambdas stopper programs →
  run schedule (job_new programs) = Ret j → ∃ a fs o, inv a fs o j.
Proof.
  intros Hlen Hp Hr. pose proof (run_inv lambdas abort_fx ok stopper _ stopper_client schedule a_idle [] true (job_new programs)) as Hi.
  rewrite Hr in Hi. by apply Hi, job_inv_new.
Qed.

Lemma calls_now_busy a fs o j n t : inv a fs o j → calls_now j n t → a = a_busy n (Some t).
Proof.
  pose proof (code_calls lambdas abort_fx ok stopper clients stopper_client) as Hcalls. intros [Hc _] (l & Hn & Hi). pose proof (v_thread _ _ _ _ _ _ _ Hc _ _ Hn) as Hl. unfold thread_ok in Hl. case_decide.
  { by apply (Hcalls _ _ _ Hl) in Hi. }
  assert (passive l → False) as Hp by (intros [-> | ->]; [by apply elem_of_nil in Hi|by apply list_elem_of_singleton in Hi]).
  destruct a as [|m [t'|]|]; try done; [|]; (case_decide as Hm; [|done]).
  - destruct Hl as (body & z & -> & Hb & Hz). rewrite elem_of_app, !elem_of_cons, elem_of_nil in Hi.
    destruct Hi as [Hi|[[= ->]|[Ez|[]]]]; [by apply (Hcalls _ _ _ Hb) in Hi|congruence|]. destruct Hz; congruence.
  - destruct Hl as [-> |[-> | ->]]; by apply list_elem_of_singleton in Hi.
Qed.

(** C7. Whatever threads do with a [CoreJob] - pend lambdas, start it in a live or a
    dead context, wait, and one of them stop it, gracefully or not, while lambdas pend
    lambdas and throw - nothing undefined happens in any interleaving of their critical
    sections: no thunk is used after it was deleted, no lambda is called by two
    threads at a time, and lambdas are called at most once, in the order in which they
    were accepted. *)
Theorem CoreJob_calls_in_order (programs : list (list job_op)) (schedule : list nat) :
  length programs = clients → programs_ok lambdas stopper programs →
  ∃ j, run schedule (job_new programs) = Ret j ∧ called j `prefix_of` accepted j ∧
    ∀ n m t t', calls_now j n t → calls_now j m t' → n = m ∧ t = t'.
Proof.
  intros Hlen Hp. pose proof (run_inv lambdas abort_fx ok stopper _ stopper_client schedule a_idle [] true (job_new programs)) as Hi.
  destruct (run schedule (job_new programs)) as [j|e|r] eqn:Hr; try by destruct Hi; apply job_inv_new.
  destruct Hi as (a & fs & o & Hi); [by apply job_inv_new|]. exists j. split_and!; [done|apply Hi|].
  intros n m t t' H1%(calls_now_busy _ _ _ _ _ _ Hi) H2%(calls_now_busy _ _ _ _ _ _ Hi). split; congruence.
Qed.

(** ** Progress *)
Section blocked.
  Context (a : activity) (fs : list fx) (o : bool) (j : job) (holds : inv a fs o j).
  Context (stuck : ∀ n, step n j = Stuck blocked).

Lemma blocked_waits n i rest : threads j !! n = Some (i :: rest) → waits a i j.
Proof.
  intros Hn. pose proof (step_inv lambdas abort_fx ok stopper clients stopper_client _ _ _ _ n holds) as Hs.
  rewrite stuck in Hs. by apply (Hs _ rest).
Qed.

(** Who holds the lock waits for nothing but an end of the last asynchronous call. *)
Lemma unlock_shape n l : thread_ok lambdas clients a n l → i_unlock ∈ l →
  ∃ i rest, l = i :: rest ∧ (i = i_on_start ∨ i = i_unlock ∨ i = i_abort ∨ i = i_stopped).
Proof.
  intros Hl Hi. assert (∀ w l', code lambdas w l' → i_unlock ∈ l' → ∃ i rest, l' = i :: rest ∧ (i = i_on_start ∨ i = i_unlock ∨ i = i_abort ∨ i = i_stopped)) as Hcode.
  { intros w l' (x & ops & -> & Hx & _) [Hin|(c & _ & Ec)%elem_of_ops]%elem_of_app; [|by destruct c].
    inversion Hx; subst; first [by eexists _, _; split; [done|auto]|set_solver]. }
  unfold thread_ok in Hl. case_decide; [by eapply Hcode|].
  assert (¬ passive l) as Hp by (intros [-> | ->]; set_solver).
  destruct a as [|m t|]; [done| |done]. case_decide; [|done]. destruct t as [t|]; [|destruct Hl as [-> |[-> | ->]]; set_solver].
  destruct Hl as (body & z & -> & Hb & Hz). apply elem_of_app in Hi as [Hi|Hi]; [|destruct Hz as [-> | ->]; set_solver].
  destruct (Hcode _ _ Hb Hi) as (i & rest & -> & ?). by exists i, (rest ++ [i_finish t; z]).
Qed.

Lemma lock_waits : m_lock j = true → waits a i_on_start j.
Proof.
  intros Hl. destruct holds as [Hc _]. destruct (v_lock _ _ _ _ _ _ _ Hc Hl) as (n & l & Hn & Hi).
  destruct (unlock_shape n l) as (i & rest & -> & Hcase); [by apply Hc|done|]. pose proof (blocked_waits _ _ _ Hn) as Hw.
  by destruct Hcase as [-> |[-> |[-> | ->]]].
Qed.

Lemma nobody_busy n t : a ≠ a_busy n t.
Proof.
  intros Ea. destruct holds as [Hc _]. destruct (v_active _ _ _ _ _ _ _ Hc n t Ea) as [Hcn Hlt].
  apply lookup_lt_is_Some_2 in Hlt as [l Hn]. pose proof (v_thread _ _ _ _ _ _ _ Hc _ _ Hn) as Hl.
  unfold thread_ok in Hl. rewrite Ea, decide_False, decide_True in Hl by (lia || done).
  assert (∀ i, waits a i j → m_lock j = true ∨ ∃ e, i = i_join e) as Hw.
  { intros i Hw. rewrite Ea in Hw. destruct i; cbn in Hw; try (by destruct Hw as [[=] _]); auto. right. by eexists. }
  destruct l as [|i rest]; [destruct t as [t|]; [destruct Hl as ([] & ? & ? & _)|by destruct Hl as [|[|]]]; done|].
  destruct (Hw i) as [Hlk|[e ->]]; [by eapply blocked_waits| |].
  - apply lock_waits in Hlk. cbn in Hlk. by rewrite Ea in Hlk; destruct Hlk.
  - destruct (works_foreign lambdas abort_fx ok stopper clients stopper_client n a (i_join e :: rest) (i_join e)); [by rewrite Ea|done|left].
Qed.

Lemma all_done : a ≠ a_dead → a = a_idle ∧ ∀ n l, threads j !! n = Some l → l = [].
Proof.
  intros Hd. assert (a = a_idle) as Ea. { pose proof nobody_busy as Hb. clear -Hd Hb. destruct a as [|n t|]; [done|by destruct (Hb n t)|done]. }
  split; [done|]. pose proof holds as [Hc _]. assert (∀ n l, clients ≤ n → threads j !! n = Some l → l = []) as Hworkers.
  { intros n l Hcn Hn. pose proof (v_thread _ _ _ _ _ _ _ Hc _ _ Hn) as Hl. unfold thread_ok in Hl. rewrite Ea, decide_False in Hl by lia.
    destruct Hl as [?|Hl]; [done|]. rewrite Hl in Hn. by apply blocked_waits in Hn. }
  assert (∀ e, clients ≤ e < length (threads j) → threads j !! e = Some []) as Hended.
  { intros e [Hcn Hlt]. apply lookup_lt_is_Some_2 in Hlt as [l Hn]. by rewrite Hn, (Hworkers _ _ Hcn Hn). }
  assert (∀ e, m_curEvent j = Some e → threads j !! e = Some []) as Hevent by (intros e He; apply Hended; by eapply v_event).
  assert (m_lock j = false) as Hlock.
  { destruct (m_lock j) eqn:Hlk; [|done]. apply lock_waits in Hlk as [_ (e & He & Hne)]. by rewrite (Hevent e He) in Hne. }
  intros n [|i rest] Hn; [done|]. pose proof (blocked_waits _ _ _ Hn) as Hw.
  destruct i; cbn in Hw; try congruence; try done; try (destruct Hw as [_ (e & He & Hne)]; by rewrite (Hevent e He) in Hne).
  destruct Hw. apply Hended. eapply (v_join _ _ _ _ _ _ _ Hc). exists n, (i_join event :: rest). split; [done|left].
Qed.
End blocked.

(** C8. The job is never deadlocked and never forgets a lambda: whenever no thread can
    take a step - each one is at its end, or would wait for a lock or for the end of an
    asynchronous call - all threads are at their end, and if the job runs and nobody
    stopped it, every lambda that was accepted was called.  The exception is a job one
    of whose lambdas threw. *)
Theorem CoreJob_calls_all (programs : list (list job_op)) (schedule : list nat) (j : job) :
  length programs = clients → programs_ok lambdas stopper programs →
  run schedule (job_new programs) = Ret j → (∀ n, step n j = Stuck blocked) →
  (∀ f calls, f ∈ called j → lambdas f ≠ l_client calls true) →
  (∀ n l, threads j !! n = Some l → l = []) ∧ (m_running j = true → m_shouldStop j = false → called j = accepted j).
Proof.
  intros Hlen Hp Hr Hstuck Hth. destruct (reached _ _ _ Hlen Hp Hr) as (a & fs & o & Hi).
  destruct (all_done _ _ _ _ Hi Hstuck) as [-> Hdone].
  { intros ->. destruct Hi as [Hc _]. destruct (v_thrown _ _ _ _ _ _ _ Hc) as (f & calls & Hf & E); [by left|]. by destruct (Hth f calls Hf). }
  split; [done|]. intros Hrun Hs. destruct Hi as [Hc Hw]. destruct (Hw Hrun) as [->|(n & l & Hn & Hi)]; [done| |].
  - assert (o = true) as ->. { destruct o; [done|]. rewrite (v_aborting _ _ _ _ _ _ _ Hc) in Hs; [done|by left]. }
    pose proof (v_order _ _ _ _ _ _ _ Hc) as E. cbn in E. by rewrite app_nil_r in E.
  - rewrite (Hdone _ _ Hn) in Hi. by apply elem_of_nil in Hi.
Qed.

(** ** After an exception *)
(** No thread dispatches, and [OnPended] starts none. *)
Definition dead (j : job) : Prop := m_curEventInTeardown j = false ∧ ¬ code_has i_dispatch j ∧ ¬ code_has i_check j.

Definition keeps {A} (m : M job A) : Prop := ∀ j r j', m j = (r, j') → m_curEventInTeardown j = false →
  m_curEventInTeardown j' = false ∧ threads j' = threads j ∧ called j' = called j.

Lemma keeps_ret {A} (x : A) : keeps (mret x).
Proof. by intros j r j' [= _ <-]. Qed.

Lemma keeps_get : keeps get.
Proof. by intros j r j' [= _ <-]. Qed.

Lemma keeps_stuck {A} r : keeps (A := A) (stuck r).
Proof. by intros j r' j' [= _ <-]. Qed.

Lemma job_keeps_bind {A B} (m : M job A) (k : A → M job B) : keeps m → (∀ x, keeps (k x)) → keeps (m ≫= k).
Proof.
  intros Hm Hk j r j' E Ht. munfold. destruct (m j) as [[x|e|s] j1] eqn:E1; destruct (Hm _ _ _ E1 Ht) as (H1 & H2 & H3).
  - destruct (Hk x _ _ _ E H1) as (? & ? & ?). split_and!; congruence.
  - injection E as _ <-. done.
  - injection E as _ <-. done.
Qed.

Lemma keeps_on_queue {A} (m : M Q A) : keeps (on_queue m).
Proof. intros j r j' E Ht. unfold on_queue in E. destruct (m (queue j)) as [r' q]. by injection E as _ <-. Qed.

Lemma keeps_OnPended : keeps OnPended.
Proof. intros j r j' E Ht. unfold OnPended in E. munfold. rewrite Ht in E. by injection E as _ <-. Qed.

Lemma keeps_modify (f : job → job) : (∀ j, m_curEventInTeardown (f j) = m_curEventInTeardown j ∧ threads (f j) = threads j ∧ called (f j) = called j) →
  keeps (modify f).
Proof. intros Hf j r j' [= _ <-] Ht. destruct (Hf j) as (-> & -> & ->). done. Qed.

Lemma keeps_exec i : i ≠ i_dispatch → i ≠ i_check → keeps (exec lambdas abort_fx i).
Proof.
  intros H1 H2. destruct i; try done; cbn; unfold operator_pend, Start, OnStart, Stop, Stop_release, Pend, DoAdditionalWait, lock, wait_for, accept, when;
  repeat first [apply keeps_ret|apply keeps_get|apply keeps_stuck|apply keeps_on_queue|apply keeps_OnPended|by apply keeps_modify|apply job_keeps_bind; [|intros ?]|case_match].
Qed.

Definition rests (l : list instr) : Prop := i_dispatch ∉ l ∧ i_check ∉ l.
Definition yields (m : M job (list instr)) : Prop := ∀ j l j', m j = (Ret l, j') → rests l.

Lemma yields_ret l : rests l → yields (mret l).
Proof. by intros Hl j l' j' [= <- _]. Qed.

Lemma yields_bind {A} (m : M job A) k : (∀ x, yields (k x)) → yields (m ≫= k).
Proof. intros Hk j l j' E. munfold. destruct (m j) as [[x|e|s] j1]; try done. by eapply Hk. Qed.

Lemma yields_exec i : i ≠ i_dispatch → i ≠ i_check → yields (exec lambdas abort_fx i).
Proof.
  intros H1 H2. destruct i; try done; cbn; unfold Start, Stop, DoAdditionalWait;
  repeat first [apply yields_bind; intros ?|case_match|apply yields_ret; split; set_solver].
Qed.

Lemma dead_step n j j' : dead j → step n j = Ret j' → dead j' ∧ called j' = called j.
Proof.
  intros (Ht & Hd & Hk) E. unfold step in E. destruct (threads j !! n) as [[|i rest]|] eqn:Hn; try done.
  assert (∀ i', i' ∈ i :: rest → code_has i' j) as Hhas by (intros i' Hi'; by exists n, (i :: rest)).
  assert (i ≠ i_dispatch) as H1 by (intros ->; apply Hd, Hhas; left). assert (i ≠ i_check) as H2 by (intros ->; apply Hk, Hhas; left).
  destruct (exec lambdas abort_fx i j) as [[l|e|r] j1] eqn:E1; try done. injection E as <-.
  destruct (keeps_exec _ H1 H2 _ _ _ E1 Ht) as (Ht' & Et & Ec). pose proof (yields_exec _ H1 H2 _ _ _ E1) as [Hl1 Hl2].
  assert (∀ i', i' ∉ l → code_has i' (set_threads (<[n:=l ++ rest]> (threads j1)) j1) → code_has i' j) as Hback.
  { intros i' Hi' [Hin|(m & lm & _ & Hm & Hin)]%(code_has_in i' j _ n (l ++ rest)); [|by exists m, lm|cbn; by rewrite Et].
    apply Hhas. apply elem_of_app in Hin as [?|?]; [done|by right]. }
  split; [|done]. split_and!; [done|by intros ?%Hback..].
Qed.

Lemma dead_run schedule j j' : dead j → run schedule j = Ret j' → called j' = called j.
Proof.
  revert j. induction schedule as [|n schedule IH]; intros j Hd E; cbn in E; [by injection E as ->|].
  destruct (step n j) as [j1|e|[]] eqn:E1; try done; [|by apply IH]. destruct (dead_step _ _ _ Hd E1) as [Hd1 Ec].
  rewrite <-Ec. by apply IH.
Qed.

Lemma dispatcher n t fs o j m i : inv (a_busy n t) fs o j → (∃ l, threads j !! m = Some l ∧ i ∈ l) → i = i_dispatch ∨ i = i_check → m = n.
Proof.
  pose proof (code_calls lambdas abort_fx ok stopper clients stopper_client) as Hcalls. intros [Hc _] (l & Hm & Hi) Hcase.
  pose proof (v_thread _ _ _ _ _ _ _ Hc _ _ Hm) as Hl. unfold thread_ok in Hl.
  case_decide; [by apply (Hcalls _ _ _ Hl) in Hi; destruct Hcase as [-> | ->]|]. case_decide; [done|].
  destruct Hl as [-> | ->]; [by apply elem_of_nil in Hi|]. apply list_elem_of_singleton in Hi as ->. by destruct Hcase.
Qed.

(** An exception of a lambda ends the job for good: once the thread that called it
    lets the exception out of [DispatchAllAndClearCurrent], which skips the assignment
    that would allow for the next asynchronous call, no schedule of any threads ever
    calls a lambda again, whatever is pended, started or stopped. *)
Theorem CoreJob_exception_is_final (programs : list (list job_op)) (schedule : list nat) (j : job) (n : nat) (rest : list instr) :
  length programs = clients → programs_ok lambdas stopper programs →
  run schedule (job_new programs) = Ret j → threads j !! n = Some (i_rethrow :: rest) →
  ∃ j1, step n j = Ret j1 ∧ ∀ schedule' j2, run schedule' j1 = Ret j2 → called j2 = called j.
Proof.
  intros Hlen Hp Hr Hn. destruct (reached _ _ _ Hlen Hp Hr) as (a & fs & o & Hi).
  destruct (worker_thread lambdas abort_fx ok stopper clients stopper_client _ _ _ _ _ _ _ (proj1 Hi) Hn) as (Hcn & t & -> & Hb); [by intros []|done|].
  apply (busy_head lambdas abort_fx ok stopper clients stopper_client) in Hb; [|by intros []]. destruct t as [t|]; [by destruct Hb|]. destruct Hb as [-> _].
  eexists. unfold CoreJob.step. rewrite Hn. split; [done|]. intros schedule' j2 E. apply dead_run in E; [done|].
  assert (∀ i, i = i_dispatch ∨ i = i_check → ¬ code_has i (goes n [] j)) as Hno.
  { intros i Hcase [Hx|(m & lm & Hne & Hm & Hx)]%(code_has_in i j _ n []); [by apply elem_of_nil in Hx| |done].
    destruct Hne. eapply (dispatcher _ _ _ _ _ m i Hi); [by exists lm|done]. }
  split_and!; [|by apply Hno; left|by apply Hno; right]. cbn. destruct Hi as [Hc _]. pose proof (v_teardown _ _ _ _ _ _ _ Hc) as Ht.
  destruct (m_curEventInTeardown j); [|done]. by destruct Ht as [Ht _]; specialize (Ht eq_refl).
Qed.

End theorems.

(** ** Examples, with DispatchQueue.cpp as the queue *)
(** Lambda 0 is that of [OnStop], 9 throws, 5 pends 3 and starts the job again. *)
Definition demo (f : fx) : lambda :=
  match f with 0 => l_abort | 9 => l_client [] true | 5 => l_client [jo_pend 3; jo_start true] false | _ => l_client [] false end.

Definition demo_run (schedule : list nat) (programs : list (list job_op)) : outcome job :=
  let _ := dispatch_event_queue (λ _, 0%Z) in run demo 0 schedule (job_new programs).

Lemma demo_ok : lambdas_ok demo 0.
Proof.
  split; [done|]. intros f calls throws E. do 10 (destruct f as [|f]; [try done; injection E as <- _; repeat first [apply Forall_nil_2|apply Forall_cons_2; [done|]]|]).
  injection E as <- _. apply Forall_nil_2.
Qed.

Definition demo_programs : list (list job_op) := [[jo_start true; jo_pend 5; jo_stop true; jo_wait]; [jo_pend 2; jo_start false; jo_pend 7]].

Lemma demo_programs_ok : programs_ok demo 0 demo_programs.
Proof. intros [|[|n]] p [= <-]; (split; [repeat first [apply Forall_nil_2|apply Forall_cons_2; [done|]]|vm_compute; lia]). Qed.

Definition demo_schedule : list nat := concat (replicate 30 [0; 1; 2; 3; 4]).

Lemma CoreJob_calls_in_order_witness : ∃ j, demo_run demo_schedule demo_programs = Ret j ∧ called j `prefix_of` accepted j ∧
  ∀ n m t t', calls_now j n t → calls_now j m t' → n = m ∧ t = t'.
Proof.
  apply (@CoreJob_calls_in_order _ _ (dispatch_event_laws (λ _, 0%Z)) demo 0 demo_ok 0 2 ltac:(lia) demo_programs demo_schedule); [done|].
  apply demo_programs_ok.
Defined.

(** Where a schedule leads. *)
Definition demo_after (schedule : list nat) (programs : list (list job_op)) : job :=
  match demo_run schedule programs with Ret j => j | _ => let _ := dispatch_event_queue (λ _, 0%Z) in job_new [] end.

Definition demo_running : list (list job_op) := [[jo_start true; jo_pend 5; jo_wait]; [jo_pend 2; jo_start false; jo_pend 7]].

Lemma CoreJob_calls_all_witness : let j := demo_after demo_schedule demo_running in called j = [2; 5; 7; 3] ∧ called j = accepted j.
Proof.
  split; [by vm_compute|].
  apply (@CoreJob_calls_all _ _ (dispatch_event_laws (λ _, 0%Z)) demo 0 demo_ok 0 2 ltac:(lia) demo_running demo_schedule); [done| |by vm_compute| | |by vm_compute..].
  - intros [|[|n]] p [= <-]; (split; [repeat first [apply Forall_nil_2|apply Forall_cons_2; [done|]]|vm_compute; lia]).
  - assert (threads (demo_after demo_schedule demo_running) = [[]; []; []]) as E by by vm_compute.
    intros n. unfold step. rewrite E. by destruct n as [|[|[|n]]].
  - assert (called (demo_after demo_schedule demo_running) = [2; 5; 7; 3]) as -> by by vm_compute. intros f calls Hf. by set_unfold; destruct Hf as [->|[->|[->|[->|[]]]]].
Defined.

Definition demo_throwing : list (list job_op) := [[jo_start true; jo_pend 9; jo_pend 2]].

Lemma CoreJob_exception_is_final_witness : let j := demo_after [0; 0; 0; 0; 1; 1] demo_throwing in
  called j = [9] ∧ called (demo_after [0; 0; 0; 0; 1; 1; 1; 0; 1] demo_throwing) = [9] ∧
  ∃ j1, (let _ := dispatch_event_queue (λ _, 0%Z) in step demo 0 1 j) = Ret j1 ∧
    ∀ schedule' j2, (let _ := dispatch_event_queue (λ _, 0%Z) in run demo 0 schedule' j1) = Ret j2 → called j2 = called j.
Proof.
  split_and!; [by vm_compute..|].
  apply (@CoreJob_exception_is_final _ _ (dispatch_event_laws (λ _, 0%Z)) demo 0 demo_ok 0 1 ltac:(lia) demo_throwing [0; 0; 0; 0; 1; 1]
    (demo_after [0; 0; 0; 0; 1; 1] demo_throwing) 1 []); [done| |by vm_compute..].
  intros [|n] p [= <-]; (split; [repeat first [apply Forall_nil_2|apply Forall_cons_2; [done|]]|vm_compute; lia]).
Defined.

(** Two threads must not stop a job at the same time.  The second call of [Stop]
    clears [m_outstanding] while the first one is about to pend the lambda that aborts;
    [OnPended] then deletes the queue, whose [m_pHead] and [m_pTail] keep on pointing at
    the thunk that it deleted, and whatever lambda is pended next is linked to that. *)
Theorem CoreJob_two_stops_dangle (lambdas : fx → lambda) (abort_fx f : fx) (clock : nat → time_point) (graceful : bool) (calls calls' : list job_op) :
  let _ := dispatch_event_queue clock in
  match run lambdas abort_fx [0; 0; 0; 0; 1; 0; 0] (job_new [jo_start true :: jo_stop true :: jo_pend f :: calls; jo_stop graceful :: calls']) with
  | Ret j => m_running j = true ∧ m_pHead (queue j) = Some 0 ∧ heap (queue j) !! 0 = None ∧ step lambdas abort_fx 0 j = Stuck undefined_behavior
  | _ => False
  end.
Proof. by vm_compute. Qed.
