(* ===== verification/CoreThread.v ===== *)
(** * CoreThread: a thread that runs a dispatch queue

    src/src/autowiring/CoreThread.cpp, BasicThread.cpp and the part of
    CoreRunnable.cpp they use, for any number of client threads.  A step of a thread
    is a critical section of the code, or an access outside of one that others can
    see; the locks [m_lock], [m_threadLock] and the one of the state block are free
    between steps, while [m_stoppingLock] is held during the rundown.  The thread that
    [OnStart] makes is one more thread; lambdas are programs of client calls that it
    goes through step by step.

    Clients do not pend delayed lambdas here, nor call [Abort], [Cancel] or [Rundown]
    themselves. *)
From stdpp Require Import base gmap list.
From Stdlib Require Import ZArith Lia.
From S2P Require Import Prelude.
From S2P Require Import DispatchQueue.
From S2P Require Import EventQueue.
Local Open Scope nat_scope.

(** What clients call: [operator+=], [Start] in a context that is still alive or not,
    [Stop], [Wait]. *)
Inductive thread_op :=
  | to_pend (f : fx)
  | to_start (alive : bool)
  | to_stop (graceful : bool)
  | to_wait.

(** The steps of these calls, and of [DoRun]. *)
Inductive instr :=
  | i_pend (f : fx)
  | i_start (alive : bool)
  | i_stop (graceful : bool) | i_on_stop (graceful : bool) | i_on_stop_queue (graceful : bool) | i_on_stop_completed | i_release
  | i_wait | i_wait_completed
  | i_abort
  | i_run | i_wait_event | i_finish (thunk : addr) | i_raise (shuts_down : bool)
  | i_cleanup | i_rundown (pHead : option addr) | i_done (thunk : addr) (next : option addr) | i_rest (pHead : option addr)
  | i_base_cleanup | i_complete.

#[export] Instance instr_eq_dec : EqDecision instr.
Proof. solve_decision. Defined.

Definition instr_of (o : thread_op) : instr :=
  match o with
  | to_pend f => i_pend f
  | to_start alive => i_start alive
  | to_stop graceful => i_stop graceful
  | to_wait => i_wait
  end.

(** A client lambda: what it calls, and whether it throws at the end; [Some true] when
    [SignalShutdown] of the context then stops this thread, [Some false] when the
    context was told to shut down before.  The lambda that [OnStop] pends calls
    [Abort]. *)
Inductive lambda := l_client (calls : list thread_op) (throws : option bool) | l_abort.

Section thread.
  Context {Q : Type} `{EventQueue Q}.
  Context (lambdas : fx → lambda) (abort_fx : fx).

(** The two flags [m_wasStarted] are those of CoreRunnable and of BasicThread.
    [m_stoppingLock]: whether the rundown holds it.  [accepted] and [called] are the
    lambdas linked and called so far. *)
Record thread := mkThread {
  queue : Q;
  m_wasStarted : bool;
  m_outstanding : bool;
  m_shouldStop : bool;
  basic_wasStarted : bool;
  m_running : bool;
  m_completed : bool;
  m_stoppingLock : bool;
  m_onStopCompleted : bool;
  threads : list (list instr);
  accepted : list fx;
  called : list fx }.

Definition set_queue x w := mkThread x (m_wasStarted w) (m_outstanding w) (m_shouldStop w) (basic_wasStarted w) (m_running w) (m_completed w) (m_stoppingLock w) (m_onStopCompleted w) (threads w) (accepted w) (called w).
Definition set_started x w := mkThread (queue w) x (m_outstanding w) (m_shouldStop w) (basic_wasStarted w) (m_running w) (m_completed w) (m_stoppingLock w) (m_onStopCompleted w) (threads w) (accepted w) (called w).
Definition set_outstanding x w := mkThread (queue w) (m_wasStarted w) x (m_shouldStop w) (basic_wasStarted w) (m_running w) (m_completed w) (m_stoppingLock w) (m_onStopCompleted w) (threads w) (accepted w) (called w).
Definition set_stop x w := mkThread (queue w) (m_wasStarted w) (m_outstanding w) x (basic_wasStarted w) (m_running w) (m_completed w) (m_stoppingLock w) (m_onStopCompleted w) (threads w) (accepted w) (called w).
Definition set_basic_started x w := mkThread (queue w) (m_wasStarted w) (m_outstanding w) (m_shouldStop w) x (m_running w) (m_completed w) (m_stoppingLock w) (m_onStopCompleted w) (threads w) (accepted w) (called w).
Definition set_running x w := mkThread (queue w) (m_wasStarted w) (m_outstanding w) (m_shouldStop w) (basic_wasStarted w) x (m_completed w) (m_stoppingLock w) (m_onStopCompleted w) (threads w) (accepted w) (called w).
Definition set_completed x w := mkThread (queue w) (m_wasStarted w) (m_outstanding w) (m_shouldStop w) (basic_wasStarted w) (m_running w) x (m_stoppingLock w) (m_onStopCompleted w) (threads w) (accepted w) (called w).
Definition set_stopping_lock x w := mkThread (queue w) (m_wasStarted w) (m_outstanding w) (m_shouldStop w) (basic_wasStarted w) (m_running w) (m_completed w) x (m_onStopCompleted w) (threads w) (accepted w) (called w).
Definition set_on_stop_completed x w := mkThread (queue w) (m_wasStarted w) (m_outstanding w) (m_shouldStop w) (basic_wasStarted w) (m_running w) (m_completed w) (m_stoppingLock w) x (threads w) (accepted w) (called w).
Definition set_threads x w := mkThread (queue w) (m_wasStarted w) (m_outstanding w) (m_shouldStop w) (basic_wasStarted w) (m_running w) (m_completed w) (m_stoppingLock w) (m_onStopCompleted w) x (accepted w) (called w).
Definition set_accepted x w := mkThread (queue w) (m_wasStarted w) (m_outstanding w) (m_shouldStop w) (basic_wasStarted w) (m_running w) (m_completed w) (m_stoppingLock w) (m_onStopCompleted w) (threads w) x (called w).
Definition set_called x w := mkThread (queue w) (m_wasStarted w) (m_outstanding w) (m_shouldStop w) (basic_wasStarted w) (m_running w) (m_completed w) (m_stoppingLock w) (m_onStopCompleted w) (threads w) (accepted w) x.

Definition thread_new (programs : list (list thread_op)) : thread :=
  mkThread eq_new false false false false false false false false (map (map instr_of) programs) [] [].

Local Abbreviation M := (M thread).

(** An operation of the queue, as part of a step of the thread. *)
Definition on_queue {A} (m : Prelude.M Q A) : M A := λ w,
  let '(r, q) := m (queue w) in (r, set_queue q w).

Definition accept (f : fx) : M unit := modify (λ w, set_accepted (accepted w ++ [f]) w).
Definition record_call (f : fx) : M unit := modify (λ w, set_called (called w ++ [f]) w).

(** [operator+=] and [Pend]. *)
Definition operator_pend (f : fx) : M unit := b ← on_queue (eq_pend f); when b (accept f).
Definition Pend (f : fx) : M unit := on_queue (eq_pend_always f);; accept f.

(** [BasicThread::OnStart], in a context that is alive. *)
Definition OnStart : M unit :=
  modify (set_running true);; modify (set_basic_started true);;
  w ← get; modify (set_threads (threads w ++ [[i_run]])).

(** [BasicThread::OnStop]; the rest of [CoreThread::OnStop]. *)
Definition BasicThread_OnStop : M unit := w ← get; if basic_wasStarted w then mret tt else modify (set_completed true).
Definition OnStop_queue (graceful : bool) : M unit := if graceful then Pend abort_fx else on_queue eq_abort.
Definition OnStop_completed : M unit :=
  w ← get; if m_stoppingLock w then stuck blocked else modify (set_on_stop_completed true).

(** [CoreRunnable::Start], which holds its lock from the beginning to the end. *)
Definition Start (alive : bool) : M unit :=
  w ← get;
  if m_wasStarted w || m_outstanding w || m_shouldStop w then mret tt
  else
    modify (set_started true);; modify (set_outstanding true);;
    if alive then OnStart
    else
      modify (set_stop true);; modify (set_outstanding false);;
      BasicThread_OnStop;; OnStop_queue false;; OnStop_completed.

(** [CoreRunnable::Stop] up to [OnStop], and after it. *)
Definition Stop (graceful : bool) : M (list instr) :=
  w ← get;
  if m_shouldStop w then modify (set_outstanding false);; mret []
  else modify (set_stop true);; mret [i_on_stop graceful].
Definition Stop_release : M unit := modify (set_outstanding false).

(** [CoreRunnable::Wait] up to [DoAdditionalWait]; [BasicThread::DoAdditionalWait]. *)
Definition Wait : M unit := w ← get; if m_shouldStop w && negb (m_outstanding w) then mret tt else stuck blocked.
Definition DoAdditionalWait : M unit := w ← get; if m_completed w then mret tt else stuck blocked.

(** The loop of [Run]. *)
Definition Run : M (list instr) := w ← get; mret (if m_shouldStop w then [i_cleanup] else [i_wait_event]).

(** The call of a lambda, and what follows it in [DispatchEventUnsafe] and in [DoRun]. *)
Definition call (f : fx) (thunk : addr) : list instr :=
  match lambdas f with
  | l_abort => [i_abort; i_finish thunk; i_run]
  | l_client calls throws => map instr_of calls ++ [i_finish thunk; match throws with None => i_run | Some b => i_raise b end]
  end.

(** [WaitForEvent]; its exception ends [Run]. *)
Definition WaitForEvent : M (list instr) :=
  w ← get;
  if eq_aborted (queue w) then mret [i_cleanup]
  else
    t ← on_queue eq_take;
    match t with
    | None => stuck blocked
    | Some (thunk, f) => record_call f;; mret (call f thunk)
    end.

(** [CoreThread::DoRunLoopCleanup] up to the loop of [Rundown]. *)
Definition DoRunLoopCleanup : M (list instr) :=
  w ← get;
  if m_stoppingLock w then stuck blocked
  else if m_shouldStop w && negb (m_onStopCompleted w) then stuck blocked
  else modify (set_stopping_lock true);; pHead ← on_queue eq_close; mret [i_rundown pHead].

(** The call of a lambda in [Rundown]; an exception ends its loop. *)
Definition rundown_call (f : fx) (thunk : addr) (next : option addr) : list instr :=
  match lambdas f with
  | l_abort => [i_abort; i_done thunk next]
  | l_client calls throws => map instr_of calls ++ [match throws with None => i_done thunk next | Some _ => i_rest (Some thunk) end]
  end.

Definition Rundown (pHead : option addr) : M (list instr) :=
  match pHead with
  | None => mret [i_rest None]
  | Some thunk => x ← on_queue (eq_call thunk); record_call x.1;; mret (rundown_call x.1 thunk x.2)
  end.

Definition Rundown_rest (pHead : option addr) : M unit := on_queue (eq_rest pHead);; modify (set_stopping_lock false).

(** A step; its result is what the thread does next, before the rest of its code. *)
Definition exec (i : instr) : M (list instr) :=
  match i with
  | i_pend f => operator_pend f;; mret []
  | i_start alive => Start alive;; mret []
  | i_stop graceful => Stop graceful
  | i_on_stop graceful => BasicThread_OnStop;; mret [i_on_stop_queue graceful]
  | i_on_stop_queue graceful => OnStop_queue graceful;; mret [i_on_stop_completed]
  | i_on_stop_completed => OnStop_completed;; mret [i_release]
  | i_release => Stop_release;; mret []
  | i_wait => Wait;; mret [i_wait_completed]
  | i_wait_completed => DoAdditionalWait;; mret []
  | i_abort => on_queue eq_abort;; mret []
  | i_run => Run
  | i_wait_event => WaitForEvent
  | i_finish thunk => on_queue (eq_finish thunk);; mret []
  | i_raise shuts_down => mret (if shuts_down : bool then [i_stop false; i_cleanup] else [i_cleanup])
  | i_cleanup => DoRunLoopCleanup
  | i_rundown pHead => Rundown pHead
  | i_done thunk next => on_queue (eq_done thunk);; mret [i_rundown next]
  | i_rest pHead => Rundown_rest pHead;; mret [i_base_cleanup]
  | i_base_cleanup => modify (set_running false);; mret [i_stop false; i_complete]
  | i_complete => modify (set_completed true);; mret []
  end.

(** Thread [n] takes a step. *)
Definition step (n : nat) (w : thread) : outcome thread :=
  match threads w !! n with
  | Some (i :: rest) =>
    match exec i w with
    | (Ret l, w') => Ret (set_threads (<[n := l ++ rest]> (threads w')) w')
    | (Throw e, _) => Throw e
    | (Stuck r, _) => Stuck r
    end
  | _ => Stuck blocked
  end.

(** A schedule: a thread that cannot take a step is passed over. *)
Fixpoint run (schedule : list nat) (w : thread) : outcome thread :=
  match schedule with
  | [] => Ret w
  | n :: schedule' =>
    match step n w with
    | Ret w' => run schedule' w'
    | Stuck blocked => run schedule' w
    | r => r
    end
  end.
End thread.
