(* ===== verification/CoreThreadFacts.v ===== *)
(** * CoreThread: the invariant of the run loop and of its end

    The order of lambdas, the phases of the thread that dispatches, and who has yet
    to do what when the thread is told to stop.  The theorems are in
    CoreThreadSpec.v. *)
From stdpp Require Import base gmap list.
From Stdlib Require Import ZArith Lia.
From S2P Require Import Prelude.
From S2P Require Import DispatchQueue.
From S2P Require Import EventQueue.
From S2P Require Import CoreThread.
Local Open Scope nat_scope.

Section facts.
  Context {Q : Type} `{EventQueueLaws Q}.
  Context (lambdas : fx → lambda) (abort_fx : fx).
  Local Abbreviation thread := (CoreThread.thread (Q := Q)).
  Local Abbreviation exec := (CoreThread.exec lambdas abort_fx).

(** ** Clients *)
(** [gentle]: what clients refrain from in addition: starting the thread in a context
    that is gone, stopping it other than gracefully, lambdas that throw. *)
Context (gentle : Prop).

Definition aborts (f : fx) : Prop := lambdas f = l_abort.

(** The lambda that aborts is pended by [OnStop] alone. *)
Definition op_ok (o : thread_op) : Prop :=
  match o with
  | to_pend f => ¬ aborts f
  | to_start alive => gentle → alive = true
  | to_stop graceful => gentle → graceful = true
  | to_wait => True
  end.

(** Lambdas do not wait for their thread. *)
Definition body_op (o : thread_op) : Prop := op_ok o ∧ o ≠ to_wait.

Definition lambda_ok (l : lambda) : Prop :=
  match l with
  | l_abort => True
  | l_client calls throws => Forall body_op calls ∧ throws ≠ Some false ∧ (gentle → throws = None)
  end.

Definition lambdas_ok : Prop := aborts abort_fx ∧ ∀ f, lambda_ok (lambdas f).
Definition programs_ok (programs : list (list thread_op)) : Prop := Forall (Forall op_ok) programs.

Context (ok : lambdas_ok) (clients : nat).

(** ** The code of threads *)
(** A step of a call, in a lambda if [worker]. *)
Definition call_step (worker : bool) (i : instr) : Prop :=
  match i with
  | i_pend f => ¬ aborts f
  | i_start alive => gentle → alive = true
  | i_stop graceful => gentle → graceful = true
  | i_on_stop _ | i_on_stop_queue _ | i_on_stop_completed | i_release => True
  | i_wait | i_wait_completed => worker = false
  | i_abort => worker = true
  | _ => False
  end.

Definition op_of (worker : bool) : thread_op → Prop := if worker then body_op else op_ok.

Definition calls_code (worker : bool) (l : list instr) : Prop :=
  l = [] ∨ ∃ i ops, l = i :: map instr_of ops ∧ call_step worker i ∧ Forall (op_of worker) ops.

(** What the thread that dispatches is about: nothing, as it is not there; looking
    whether to go on; waiting for a lambda; calling one; an exception; waiting for
    [OnStop]; the rundown of a list, and a call in it; what is left of it; the end. *)
Inductive phase :=
  | p_none | p_run | p_event | p_call (t : addr) | p_raise | p_cleanup
  | p_rundown (D : detached_list) | p_rcall (t : addr) (f : fx) (D : detached_list) | p_rest (D : detached_list)
  | p_base | p_end | p_done.

Definition calling (p : phase) : list addr := match p with p_call t => [t] | _ => [] end.
Definition detached (p : phase) : detached_list :=
  match p with p_rundown D | p_rest D => D | p_rcall t f D => (t, f) :: D | _ => [] end.
(** Lambdas that the rundown has yet to call. *)
Definition remaining (p : phase) : list fx := match p with p_rundown D | p_rcall _ _ D => D.*2 | _ => [] end.
(** The rundown is under way; it began. *)
Definition locked (p : phase) : bool := match p with p_rundown _ | p_rcall _ _ _ | p_rest _ => true | _ => false end.
Definition late (p : phase) : bool := match p with p_rundown _ | p_rcall _ _ _ | p_rest _ | p_base | p_end | p_done => true | _ => false end.
Definition alive (p : phase) : bool := match p with p_none => false | _ => true end.

Definition then_ (z : list instr) (l : list instr) : Prop := ∃ body, l = body ++ z ∧ calls_code true body.

Definition worker_code (p : phase) (l : list instr) : Prop :=
  match p with
  | p_none => False
  | p_run => l = [i_run]
  | p_event => l = [i_wait_event]
  | p_call t => then_ [i_finish t; i_run] l ∨ ¬ gentle ∧ then_ [i_finish t; i_raise true] l
  | p_raise => ¬ gentle ∧ (l = [i_raise true] ∨ l = [i_stop false; i_cleanup])
  | p_cleanup => then_ [i_cleanup] l
  | p_rundown D => l = [i_rundown (head D.*1)]
  | p_rcall t f D => then_ [i_done t (head D.*1)] l ∨ ¬ gentle ∧ then_ [i_rest (Some t)] l
  | p_rest D => l = [i_rest (head D.*1)] ∧ (gentle → D = [])
  | p_base => l = [i_base_cleanup]
  | p_end => l = [i_stop false; i_complete] ∨ then_ [i_complete] l
  | p_done => l = []
  end.

Definition thread_code (p : phase) (n : nat) (l : list instr) : Prop :=
  if decide (n < clients) then calls_code false l else worker_code p l.

Record shape (p : phase) (w : thread) : Prop := {
  s_code : ∀ n l, threads w !! n = Some l → thread_code p n l;
  s_length : length (threads w) = (if alive p then 1 else 0) + clients }.

(** ** Who has yet to do what *)
Definition early (i : instr) : bool := match i with i_on_stop _ | i_on_stop_queue _ => true | _ => false end.
Definition stopping (i : instr) : bool := match i with i_on_stop _ | i_on_stop_queue _ | i_on_stop_completed => true | _ => false end.
Definition releasing (i : instr) : bool := match i with i_on_stop _ | i_on_stop_queue _ | i_on_stop_completed | i_release => true | _ => false end.
Definition entering (i : instr) : bool := match i with i_on_stop _ => true | _ => false end.
Definition aborting (i : instr) : bool := match i with i_abort => true | _ => false end.
Definition hard (i : instr) : bool := match i with i_on_stop graceful | i_on_stop_queue graceful => negb graceful | _ => false end.
Definition hard_stop (i : instr) : bool := match i with i_stop graceful => negb graceful | _ => false end.

(** [c]: the steps all threads have yet to take. *)
Record inv (c : list instr) (p : phase) (fs : list fx) (o : bool) (w : thread) : Prop := {
  v_queue : eq_holds (calling p) (detached p) fs o (queue w);
  v_stops : cnt stopping c = (if m_shouldStop w && negb (m_onStopCompleted w) then 1 else 0);
  v_on_completed : m_onStopCompleted w = true → m_shouldStop w = true;
  v_early : cnt early c ≠ 0 → o = true ∧ abort_fx ∉ accepted w;
  v_closed : o = false → m_shouldStop w = true;
  v_order : if o then accepted w = called w ++ fs ∧ remaining p = [] else fs = [] ∧ called w ++ remaining p `prefix_of` accepted w;
  v_aborts : abort_fx ∈ accepted w → m_shouldStop w = true;
  v_abort : cnt aborting c ≠ 0 → abort_fx ∈ called w;
  v_cleanup : p = p_cleanup → m_shouldStop w = true;
  v_late : late p = true → m_onStopCompleted w = true;
  v_lock : m_stoppingLock w = locked p;
  v_started : basic_wasStarted w = alive p;
  v_was_started : alive p = true → m_wasStarted w = true;
  v_out : m_shouldStop w = true → m_outstanding w = true → cnt releasing c ≠ 0;
  v_never : p = p_none → m_shouldStop w = true → m_completed w = true ∨ cnt entering c ≠ 0;
  v_completed : m_completed w = true → p = p_none ∧ m_shouldStop w = true ∨ p = p_done;
  v_done : p = p_done → m_completed w = true;
  v_wake : p = p_event → m_shouldStop w = true → cnt early c ≠ 0 ∨ o = false ∨ fs ≠ [];
  v_hard : gentle → cnt hard c = 0 ∧ (cnt hard_stop c ≠ 0 → m_shouldStop w = true);
  v_pended : gentle → m_shouldStop w = true → cnt early c ≠ 0 ∨ abort_fx ∈ accepted w;
  v_kept : gentle → accepted w = called w ++ remaining p ++ fs ∨ abort_fx ∈ called w;
  v_only : ∀ f, f ∈ accepted w → aborts f → f = abort_fx;
  v_shut : late p = true → o = false }.

Lemma thread_inv_perm c c' p fs o w : c ≡ₚ c' → inv c p fs o w → inv c' p fs o w.
Proof. intros Hp []. by split; rewrite <-?(cnt_perm _ _ _ Hp). Qed.

(** The counts of a step. *)
Lemma cnt_ops P ops : (∀ o, P (instr_of o) = false) → cnt P (map instr_of ops) = 0.
Proof. intros HP. apply cnt_none. intros i (o & -> & _)%list_elem_of_fmap. apply HP. Qed.

Lemma early_stopping c : cnt early c ≤ cnt stopping c.
Proof. induction c as [|i c IH]; [done|]. rewrite !cnt_cons. destruct i; cbn; lia. Qed.

Lemma on_queue_runs {A} (m : M Q A) r q (w : thread) : m (queue w) = (r, q) → on_queue m w = (r, set_queue q w).
Proof. intros E. unfold on_queue. by rewrite E. Qed.

Lemma cnt_pos {A} (P : A → bool) l : cnt P l ≠ 0 → ∃ x, x ∈ l ∧ P x = true.
Proof.
  induction l as [|x l IH]; [done|]. rewrite cnt_cons. destruct (P x) eqn:E; [intros _; exists x; split; [left|done]|].
  intros (y & ? & ?)%IH. exists y. split; [by right|done].
Qed.

(** Counts what is known of a list of steps. *)
Ltac count := repeat match goal with H : context [cnt _ (_ :: _)] |- _ => rewrite cnt_cons in H end; rewrite ?cnt_cons, ?cnt_nil in *; cbn in *.

(** ** Steps of calls *)
(** When a step has to wait. *)
Definition waits_at (i : instr) (w : thread) : Prop :=
  match i with
  | i_wait => m_shouldStop w = false ∨ m_outstanding w = true
  | i_wait_completed => m_completed w = false
  | _ => False
  end.

Definition call_goes_on (worker : bool) (i : instr) (c : list instr) (p : phase) (w : thread) : Prop :=
  match exec i w with
  | (Ret l, w') => ∃ p' fs' o', inv (l ++ c) p' fs' o' w' ∧ (l = [] ∨ ∃ i', l = [i'] ∧ call_step worker i') ∧
      (p' = p ∧ threads w' = threads w ∨ p = p_none ∧ p' = p_run ∧ threads w' = threads w ++ [[i_run]])
  | (Stuck blocked, _) => waits_at i w
  | _ => False
  end.

Lemma goes_on_same worker i c p fs o w l w' : exec i w = (Ret l, w') → inv (l ++ c) p fs o w' → (l = [] ∨ ∃ i', l = [i'] ∧ call_step worker i') →
  threads w' = threads w → call_goes_on worker i c p w.
Proof. intros E Hi Hl Et. unfold call_goes_on. rewrite E. exists p, fs, o. split_and!; [done|done|by left]. Qed.

Lemma call_pend worker f c p fs o w : inv (i_pend f :: c) p fs o w → call_step worker (i_pend f) → call_goes_on worker (i_pend f) c p w.
Proof.
  intros [V1 V2 V3 V4 V5 V6 V7 V8 V9 V10 V11 V12 V13 V14 V15 V16 V17 V18 V19 V20 V21 V22 V23] Hf. cbn in Hf.
  destruct (eq_pend_holds _ _ _ _ _ f V1) as (b & q & E & Hq & Hb).
  assert (exec (i_pend f) w = (Ret [], if b then set_accepted (accepted w ++ [f]) (set_queue q w) else set_queue q w)) as Ee.
  { cbn [CoreThread.exec]. unfold operator_pend. rewrite bind_assoc, (bind_Ret _ _ _ _ _ (on_queue_runs _ _ _ _ E)). by destruct b. }
  apply (goes_on_same _ _ _ _ (if b then fs ++ [f] else fs) o _ _ _ Ee); [|by left|by destruct b].
  count. destruct b; [|by split]. assert (abort_fx ∉ [f]) as Hne by (intros Ef%list_elem_of_singleton; apply Hf; rewrite <-Ef; apply ok).
  assert (o = true) as -> by (destruct o; [done|by discriminate Hb]). destruct V6 as [Eo Er].
  split; cbn; try done.
  - intros He. destruct (V4 He) as [_ Ha]. split; [done|]. by intros [?|Hx]%elem_of_app.
  - split; [|done]. by rewrite Eo, app_assoc.
  - intros [?|Hx]%elem_of_app; [by apply V7|done].
  - intros Hp Hs. destruct (V18 Hp Hs) as [?|[?|?]]; auto. right. right. by destruct fs.
  - intros Hg Hs. destruct (V20 Hg Hs) as [?|?]; [by left|right]. apply elem_of_app. by left.
  - intros Hg. left. rewrite Eo, Er. cbn. by rewrite <-app_assoc.
  - intros f' [?| ->%list_elem_of_singleton]%elem_of_app; [by apply V22|done].
Qed.

Lemma call_stop worker g c p fs o w : inv (i_stop g :: c) p fs o w → (gentle → m_shouldStop w = false → g = true) → call_goes_on worker (i_stop g) c p w.
Proof.
  intros [V1 V2 V3 V4 V5 V6 V7 V8 V9 V10 V11 V12 V13 V14 V15 V16 V17 V18 V19 V20 V21 V22 V23] Hg.
  destruct (m_shouldStop w) eqn:Hs.
  - eapply (goes_on_same _ _ _ _ fs o); [cbn [exec]; unfold Stop; munfold; by rewrite Hs| |by left|done].
    count. split; cbn; rewrite ?Hs; try done. intros G. destruct (V19 G) as [? ?]. split; [lia|auto].
  - eapply (goes_on_same _ _ _ _ fs o); [cbn [exec]; unfold Stop; munfold; by rewrite Hs| |right; by exists (i_on_stop g)|done].
    assert (m_onStopCompleted w = false) as Hc by (destruct (m_onStopCompleted w); [by specialize (V3 eq_refl)|done]).
    assert (o = true) as -> by (destruct o; [done|by specialize (V5 eq_refl)]).
    assert (abort_fx ∉ accepted w) as Ha by (intros Hin; by specialize (V7 Hin)).
    count. split; cbn; rewrite ?cnt_cons, ?Hc; cbn; try done; try lia.
    + intros Hl%V10. congruence.
    + intros Hp. by specialize (V16 Hp) as [[]|]; [|right].
    + intros G. destruct (V19 G) as [? ?]. rewrite Hg by done. cbn. split; [lia|done].
Qed.

(** [OnStop]. *)
Lemma call_on_stop worker g c p fs o w : inv (i_on_stop g :: c) p fs o w → call_goes_on worker (i_on_stop g) c p w.
Proof.
  intros [V1 V2 V3 V4 V5 V6 V7 V8 V9 V10 V11 V12 V13 V14 V15 V16 V17 V18 V19 V20 V21 V22 V23]. count.
  assert (m_shouldStop w = true ∧ m_onStopCompleted w = false) as [Hs Hc] by (destruct (m_shouldStop w), (m_onStopCompleted w); cbn in *; done || lia).
  assert (∃ w', exec (i_on_stop g) w = (Ret [i_on_stop_queue g], w') ∧ (w' = w ∧ basic_wasStarted w = true ∨ w' = set_completed true w ∧ basic_wasStarted w = false)) as (w' & E & Ew).
  { cbn [CoreThread.exec]. unfold BasicThread_OnStop. munfold. destruct (basic_wasStarted w); eexists; (split; [done|auto]). }
  eapply (goes_on_same _ _ _ _ fs o _ _ _ E); [|right; by eexists|by destruct Ew as [[-> _]|[-> _]]].
  destruct Ew as [[-> Hb]|[-> Hb]]; split; cbn; rewrite ?cnt_cons; cbn; try done; try (intros; lia).
  - intros ->. by rewrite V12 in Hb.
  - intros _. left. split; [|done]. rewrite V12 in Hb. by destruct p.
Qed.

Lemma call_on_stop_completed worker c p fs o w : inv (i_on_stop_completed :: c) p fs o w → call_goes_on worker i_on_stop_completed c p w.
Proof.
  intros [V1 V2 V3 V4 V5 V6 V7 V8 V9 V10 V11 V12 V13 V14 V15 V16 V17 V18 V19 V20 V21 V22 V23]. count.
  assert (m_shouldStop w = true ∧ m_onStopCompleted w = false) as [Hs Hc] by (destruct (m_shouldStop w), (m_onStopCompleted w); cbn in *; done || lia).
  assert (m_stoppingLock w = false) as Hl.
  { rewrite V11. destruct (locked p) eqn:E; [|done]. assert (late p = true) as Hl by (by destruct p). by rewrite V10 in Hc. }
  eapply (goes_on_same _ _ _ _ fs o); [cbn [CoreThread.exec]; unfold OnStop_completed; munfold; by rewrite Hl| |right; by eexists|done].
  split; cbn; rewrite ?cnt_cons; cbn; try done; try (intros; lia).
  rewrite Hs in *. cbn. rewrite Hc in V2. cbn in V2. lia.
Qed.

Lemma call_release worker c p fs o w : inv (i_release :: c) p fs o w → call_goes_on worker i_release c p w.
Proof.
  intros [V1 V2 V3 V4 V5 V6 V7 V8 V9 V10 V11 V12 V13 V14 V15 V16 V17 V18 V19 V20 V21 V22 V23]. count.
  eapply (goes_on_same _ _ _ _ fs o); [done| |by left|done]. by split; cbn.
Qed.

Lemma call_wait worker c p fs o w : inv (i_wait :: c) p fs o w → call_step worker i_wait → call_goes_on worker i_wait c p w.
Proof.
  intros [V1 V2 V3 V4 V5 V6 V7 V8 V9 V10 V11 V12 V13 V14 V15 V16 V17 V18 V19 V20 V21 V22 V23] Hw. count.
  destruct (m_shouldStop w && negb (m_outstanding w)) eqn:E.
  - eapply (goes_on_same _ _ _ _ fs o); [cbn [CoreThread.exec]; unfold Wait; munfold; by rewrite E| |right; by exists i_wait_completed|done].
    by split; cbn; rewrite ?cnt_cons; cbn.
  - unfold call_goes_on. cbn [CoreThread.exec]. unfold Wait. munfold. rewrite E. cbn. destruct (m_shouldStop w), (m_outstanding w); auto.
Qed.

Lemma call_wait_completed worker c p fs o w : inv (i_wait_completed :: c) p fs o w → call_goes_on worker i_wait_completed c p w.
Proof.
  intros [V1 V2 V3 V4 V5 V6 V7 V8 V9 V10 V11 V12 V13 V14 V15 V16 V17 V18 V19 V20 V21 V22 V23]. count.
  destruct (m_completed w) eqn:E.
  - eapply (goes_on_same _ _ _ _ fs o); [cbn [CoreThread.exec]; unfold DoAdditionalWait; munfold; by rewrite E| |by left|done].
    by split; cbn; rewrite ?E.
  - unfold call_goes_on. cbn [CoreThread.exec]. unfold DoAdditionalWait. munfold. by rewrite E.
Qed.

(** The queue is aborted. *)
Lemma called_accepted (w : thread) p fs (o : bool) : (if o then accepted w = called w ++ fs ∧ remaining p = [] else fs = [] ∧ called w ++ remaining p `prefix_of` accepted w) →
  called w ++ remaining p `prefix_of` accepted w ∧ ∀ f, f ∈ called w → f ∈ accepted w.
Proof.
  destruct o; intros [E E'].
  - split; [rewrite E', E, app_nil_r; by apply prefix_app_r|]. intros f Hf. rewrite E. apply elem_of_app. by left.
  - split; [done|]. destruct E' as [k ->]. intros f Hf. apply elem_of_app. left. apply elem_of_app. by left.
Qed.

Lemma call_abort_thread worker c p fs o w : inv (i_abort :: c) p fs o w → call_step worker i_abort → call_goes_on worker i_abort c p w.
Proof.
  intros [V1 V2 V3 V4 V5 V6 V7 V8 V9 V10 V11 V12 V13 V14 V15 V16 V17 V18 V19 V20 V21 V22 V23] Hw. count.
  destruct (eq_abort_holds _ _ _ _ _ V1) as (q & E & Hq). destruct (called_accepted _ _ _ _ V6) as [Hp Hin].
  assert (abort_fx ∈ called w) as Hc by (apply V8; lia). pose proof (Hin _ Hc) as Ha.
  eapply (goes_on_same _ _ _ _ [] false); [cbn [CoreThread.exec]; by rewrite (bind_Ret _ _ _ _ _ (on_queue_runs _ _ _ _ E))| |by left|done].
  split; cbn; try done; auto. intros He. by destruct (V4 He).
Qed.

Lemma call_on_stop_queue worker g c p fs o w : inv (i_on_stop_queue g :: c) p fs o w → call_goes_on worker (i_on_stop_queue g) c p w.
Proof.
  intros [V1 V2 V3 V4 V5 V6 V7 V8 V9 V10 V11 V12 V13 V14 V15 V16 V17 V18 V19 V20 V21 V22 V23]. count.
  assert (m_shouldStop w = true ∧ m_onStopCompleted w = false) as [Hs Hc] by (destruct (m_shouldStop w), (m_onStopCompleted w); cbn in *; done || lia).
  destruct V4 as [-> Ha]; [lia|]. destruct V6 as [Eo Er].
  assert (cnt early c = 0) as He.
  { rewrite Hs, Hc in V2. cbn in V2. clear -V2. assert (cnt early c ≤ cnt stopping c) as Hle; [|lia].
    induction c as [|i c IH]; [done|]. rewrite !cnt_cons. destruct i; cbn in *; rewrite cnt_cons in V2; cbn in V2; lia. }
  destruct g.
  - destruct (eq_pend_always_holds _ _ _ _ _ abort_fx V1) as (q & E & Hq).
    eapply (goes_on_same _ _ _ _ (fs ++ [abort_fx]) true);
      [cbn [CoreThread.exec OnStop_queue]; unfold Pend; by rewrite bind_assoc, (bind_Ret _ _ _ _ _ (on_queue_runs _ _ _ _ E))| |right; by eexists|done].
    assert (abort_fx ∈ accepted w ++ [abort_fx]) as Hin by (apply elem_of_app; right; left).
    split; cbn; rewrite ?cnt_cons; cbn; try done; try lia.
    + split; [|done]. by rewrite Eo, app_assoc.
    + intros _ _. right. right. by destruct fs.
    + intros _ _. by right.
    + intros _. left. rewrite Eo, Er. cbn. by rewrite <-app_assoc.
    + intros f [?|Hf%list_elem_of_singleton]%elem_of_app; [by apply V22|done].
  - destruct (eq_abort_holds _ _ _ _ _ V1) as (q & E & Hq).
    eapply (goes_on_same _ _ _ _ [] false); [cbn [CoreThread.exec OnStop_queue]; by rewrite (bind_Ret _ _ _ _ _ (on_queue_runs _ _ _ _ E))| |right; by eexists|done].
    assert (¬ gentle) as Hg by (intros G; destruct (V19 G); cbn in *; lia).
    split; cbn; rewrite ?cnt_cons; cbn; try done; try lia.
    + split; [done|]. rewrite Er, Eo, app_nil_r. by apply prefix_app_r.
Qed.

Lemma call_start worker b c p fs o w : inv (i_start b :: c) p fs o w → call_step worker (i_start b) → call_goes_on worker (i_start b) c p w.
Proof.
  intros HI Hb. pose proof HI as [V1 V2 V3 V4 V5 V6 V7 V8 V9 V10 V11 V12 V13 V14 V15 V16 V17 V18 V19 V20 V21 V22 V23]. count.
  destruct (m_wasStarted w || m_outstanding w || m_shouldStop w) eqn:E.
  { eapply (goes_on_same _ _ _ _ fs o); [cbn [CoreThread.exec]; unfold Start; munfold; by rewrite E| |by left|done]. by split. }
  apply orb_false_iff in E as [[Hw Ho]%orb_false_iff Hs].
  assert (p = p_none) as -> by (destruct p; [done|by rewrite V13 in Hw..]).
  assert (m_completed w = false) as Hc. { destruct (m_completed w); [|done]. destruct V16 as [[_ Hx]|Hx]; [done|congruence|done]. }
  assert (o = true) as -> by (destruct o; [done|by rewrite V5 in Hs]). destruct V6 as [Eo _].
  assert (cnt stopping c = 0) as Hst by (by rewrite Hs in V2).
  destruct b.
  - unfold call_goes_on. cbn [CoreThread.exec]. unfold Start, OnStart. munfold. rewrite Hw, Ho, Hs. cbn.
    exists p_run, fs, true. split_and!; [|by left|by right]. split; cbn; rewrite ?Hs, ?Hc; try done.
    + intros Hx%V3. congruence.
    + intros Ha%V7. congruence.
    + rewrite Hs in V19. exact V19.
  - destruct (eq_abort_holds _ _ _ _ _ V1) as (q & E & Hq). unfold call_goes_on. cbn [CoreThread.exec]. unfold Start, OnStop_queue, OnStop_completed, BasicThread_OnStop.
    munfold. rewrite Hw, Ho, Hs. cbn. rewrite V12. cbn. unfold on_queue. cbn. rewrite E. cbn. rewrite V11. cbn.
    exists p_none, [], false. split_and!; [|by left|by left]. cbn in Hb. assert (¬ gentle) as Hg by (intros G; by specialize (Hb G)). split; cbn; try done; auto.
    + intros He. pose proof (early_stopping c). lia.
    + split; [done|]. rewrite app_nil_r, Eo. by apply prefix_app_r.
Qed.

Lemma call_ok worker i c p fs o w : inv (i :: c) p fs o w → call_step worker i ∨ i = i_stop false ∧ (gentle → m_shouldStop w = true) → call_goes_on worker i c p w.
Proof.
  intros HI [Hc|[-> Hc]]; [|eapply call_stop; [exact HI|]; intros G; by rewrite Hc].
  destruct i; try done; [eapply call_pend|eapply call_start|eapply call_stop|eapply call_on_stop|eapply call_on_stop_queue|eapply call_on_stop_completed|
    eapply call_release|eapply call_wait|eapply call_wait_completed|eapply call_abort_thread]; done || by intros G _; apply Hc.
Qed.

(** ** Steps of the thread that dispatches *)
Definition worker_waits (i : instr) (p : phase) (fs : list fx) (o : bool) (w : thread) : Prop :=
  p = p_event ∧ i = i_wait_event ∧ fs = [] ∧ o = true ∨ p = p_cleanup ∧ i = i_cleanup ∧ m_onStopCompleted w = false.

Definition worker_goes_on (i : instr) (rest c : list instr) (p : phase) (fs : list fx) (o : bool) (w : thread) : Prop :=
  match exec i w with
  | (Ret l, w') => ∃ p' fs' o', inv (l ++ c) p' fs' o' w' ∧ threads w' = threads w ∧ worker_code p' (l ++ rest)
  | (Stuck blocked, _) => worker_waits i p fs o w
  | _ => False
  end.

Lemma then_now z : then_ z z.
Proof. exists []. split; [done|by left]. Qed.

Lemma then_body z ops : Forall body_op ops → then_ z (map instr_of ops ++ z).
Proof.
  intros Hops. exists (map instr_of ops). split; [done|]. destruct ops as [|o ops]; [by left|right].
  exists (instr_of o), ops. apply Forall_cons in Hops as [[Ho Hw] Hops]. split_and!; [done| |done]. by destruct o.
Qed.

Lemma then_abort z : then_ z (i_abort :: z).
Proof. exists [i_abort]. split; [done|right]. by exists i_abort, []. Qed.

(** The next step of such code. *)
Lemma then_cons z l i rest : then_ z l → l = i :: rest → l = z ∨ call_step true i ∧ then_ z rest ∧
  (∀ i', call_step true i' → then_ z (i' :: rest)).
Proof.
  intros (body & -> & [-> |(i0 & ops & -> & Hi & Hops)]) E; [by left|right]. injection E as -> <-. split; [done|]. split.
  - by apply then_body.
  - intros i' Hi'. exists (i' :: map instr_of ops). split; [done|right]. by exists i', ops.
Qed.

Lemma call_code f t : (aborts f → f = abort_fx) → worker_code (p_call t) (call lambdas f t).
Proof.
  intros Ha. destruct ok as [_ Hok]. specialize (Hok f). unfold call, aborts in *. cbn [worker_code].
  destruct (lambdas f) as [calls throws|]; [|left; by apply (then_abort [i_finish t; i_run])]. destruct Hok as (Hc & Hf & Hg).
  destruct throws as [[]|]; [right|done|left; by apply then_body]. split; [intros G; by specialize (Hg G)|by apply then_body].
Qed.

Lemma rundown_code f t D : worker_code (p_rcall t f D) (rundown_call lambdas f t (head D.*1)).
Proof.
  destruct ok as [_ Hok]. specialize (Hok f). unfold rundown_call. cbn [worker_code].
  destruct (lambdas f) as [calls throws|]; [|left; by apply (then_abort [i_done t _])]. destruct Hok as (Hc & Hf & Hg).
  destruct throws as [b|]; [right|left; by apply then_body]. split; [intros G; by specialize (Hg G)|by apply then_body].
Qed.

(** Steps that a lambda begins with are no part of a call under way. *)
Definition calm (l : list instr) : Prop :=
  cnt early l = 0 ∧ cnt stopping l = 0 ∧ cnt releasing l = 0 ∧ cnt entering l = 0 ∧ cnt hard l = 0 ∧ (gentle → cnt hard_stop l = 0).

Lemma calm_app l1 l2 : calm l1 → calm l2 → calm (l1 ++ l2).
Proof. unfold calm. rewrite !cnt_app. intros (?&?&?&?&?&Hg) (?&?&?&?&?&Hg'). split_and!; try lia. intros G. by rewrite Hg, Hg'. Qed.

Lemma calm_ops ops : Forall body_op ops → calm (map instr_of ops).
Proof.
  intros Hops. unfold calm. split_and!; try (apply cnt_ops; by intros []). intros G. apply cnt_none.
  intros i (o & -> & Ho)%list_elem_of_fmap. rewrite Forall_forall in Hops. destruct (Hops _ Ho) as [Hx _]. destruct o; try done. cbn in *. by rewrite Hx.
Qed.

Lemma call_calm f t : calm (call lambdas f t).
Proof.
  destruct ok as [_ Hok]. specialize (Hok f). unfold call. destruct (lambdas f) as [calls throws|]; [|done].
  apply calm_app; [by apply calm_ops, Hok|]. by destruct throws.
Qed.

Lemma rundown_calm f t next : calm (rundown_call lambdas f t next).
Proof.
  destruct ok as [_ Hok]. specialize (Hok f). unfold rundown_call. destruct (lambdas f) as [calls throws|]; [|done].
  apply calm_app; [by apply calm_ops, Hok|]. by destruct throws.
Qed.

Lemma call_aborting f t : cnt aborting (call lambdas f t) ≠ 0 → aborts f.
Proof. unfold call, aborts. destruct (lambdas f) as [calls throws|]; [|done]. rewrite cnt_app, cnt_ops by (by intros []). by destruct throws. Qed.

Lemma rundown_aborting f t next : cnt aborting (rundown_call lambdas f t next) ≠ 0 → aborts f.
Proof. unfold rundown_call, aborts. destruct (lambdas f) as [calls throws|]; [|done]. rewrite cnt_app, cnt_ops by (by intros []). by destruct throws. Qed.

Lemma thread_loop_ok c fs o w : inv (i_run :: c) p_run fs o w → worker_goes_on i_run [] c p_run fs o w.
Proof.
  intros [V1 V2 V3 V4 V5 V6 V7 V8 V9 V10 V11 V12 V13 V14 V15 V16 V17 V18 V19 V20 V21 V22 V23]. count.
  unfold worker_goes_on. cbn [CoreThread.exec]. unfold Run. munfold. destruct (m_shouldStop w) eqn:Hs.
  - exists p_cleanup, fs, o. split_and!; [|done|apply then_now]. split; cbn; rewrite ?cnt_cons, ?Hs; cbn; try done.
    intros Hc. by destruct (V16 Hc) as [[]|].
  - exists p_event, fs, o. split_and!; [|done|done]. split; cbn; rewrite ?cnt_cons, ?Hs; cbn; try done.
    intros Hc. by destruct (V16 Hc) as [[]|].
Qed.

(** Steps of the thread that dispatches stop nothing. *)
Definition neutral (i : instr) : bool :=
  match i with
  | i_run | i_wait_event | i_finish _ | i_raise _ | i_cleanup | i_rundown _ | i_done _ _ | i_rest _ | i_base_cleanup | i_complete => true
  | _ => false
  end.

Lemma inv_neutral i c p fs o w : neutral i = true → inv (i :: c) p fs o w ↔ inv c p fs o w.
Proof. intros Hi. by split; intros []; destruct i; try done; split; rewrite ?cnt_cons in *; cbn in *. Qed.

(** A lambda is called. *)
Lemma inv_call c p fs o w l f p' fs' q' :
  inv c p fs o w → calm l → (cnt aborting l ≠ 0 → aborts f) → f ∈ accepted w →
  eq_holds (calling p') (detached p') fs' o q' →
  (if o then accepted w = (called w ++ [f]) ++ fs' ∧ remaining p' = [] else fs' = [] ∧ (called w ++ [f]) ++ remaining p' `prefix_of` accepted w) →
  (gentle → accepted w = called w ++ remaining p ++ fs → accepted w = (called w ++ [f]) ++ remaining p' ++ fs') →
  late p' = late p → locked p' = locked p → alive p = true → alive p' = true → p' ≠ p_cleanup → p' ≠ p_event → p' ≠ p_done → p ≠ p_done →
  inv (l ++ c) p' fs' o (set_called (called w ++ [f]) (set_queue q' w)).
Proof.
  intros [V1 V2 V3 V4 V5 V6 V7 V8 V9 V10 V11 V12 V13 V14 V15 V16 V17 V18 V19 V20 V21 V22 V23] (C1 & C2 & C3 & C4 & C5 & C6) Hab Hf Hq Ho Hk Hla Hlo Hal Hal' Hc He Hd Hd'.
  split; cbn; rewrite ?cnt_app, ?C1, ?C2, ?C3, ?C4, ?C5; cbn; try done.
  - intros Hx. apply elem_of_app. destruct (decide (cnt aborting l = 0)) as [Hz|Hz]; [left; apply V8; lia|right].
    rewrite (V22 f) by auto. left.
  - by rewrite Hla.
  - by rewrite Hlo.
  - congruence.
  - intros _. by apply V13.
  - by intros ->.
  - intros Hx. destruct (V16 Hx) as [[-> _]|]; done.
  - intros G. destruct (V19 G) as [? ?]. split; [done|]. by rewrite C6.
  - intros G. destruct (V21 G) as [?|?]; [left; by apply Hk|right]. apply elem_of_app. by left.
  - by rewrite Hla.
Qed.

Lemma event_ok c fs o w : inv (i_wait_event :: c) p_event fs o w → worker_goes_on i_wait_event [] c p_event fs o w.
Proof.
  intros HI%inv_neutral; [|done]. pose proof HI as [V1 V2 V3 V4 V5 V6 V7 V8 V9 V10 V11 V12 V13 V14 V15 V16 V17 V18 V19 V20 V21 V22 V23]. count.
  unfold worker_goes_on. cbn [CoreThread.exec]. unfold WaitForEvent. rewrite (bind_Ret _ _ _ w w) by done.
  rewrite (eq_aborted_holds _ _ _ _ _ V1). destruct o; cbn [negb].
  - destruct V6 as [Eo Er]. destruct fs as [|f fs].
    + destruct (eq_take_empty _ _ _ _ V1) as (q & E & Hq). rewrite (bind_Ret _ _ _ _ _ (on_queue_runs _ _ _ _ E)). by left.
    + destruct (eq_take_first _ _ _ _ _ _ V1) as (t & q & E & Hq). rewrite (bind_Ret _ _ _ _ _ (on_queue_runs _ _ _ _ E)). erewrite bind_Ret by done.
      assert (f ∈ accepted w) as Hf by (rewrite Eo; apply elem_of_app; right; left).
      exists (p_call t), fs, true. split_and!; [|done|rewrite app_nil_r; by apply call_code, V22].
      apply (inv_call c p_event (f :: fs) true w _ f); try done; [apply call_calm|apply call_aborting|..].
      * split; [|done]. by rewrite <-app_assoc.
      * intros _ E1. by rewrite <-app_assoc.
  - exists p_cleanup, fs, false. split_and!; [|done|apply then_now]. split; cbn; rewrite ?cnt_cons; cbn; try done; auto.
    intros Hc. by destruct (V16 Hc) as [[]|].
Qed.

Lemma thread_finish_ok t rest c fs o w : inv (i_finish t :: c) (p_call t) fs o w → rest = [i_run] ∨ ¬ gentle ∧ rest = [i_raise true] →
  worker_goes_on (i_finish t) rest c (p_call t) fs o w.
Proof.
  intros [V1 V2 V3 V4 V5 V6 V7 V8 V9 V10 V11 V12 V13 V14 V15 V16 V17 V18 V19 V20 V21 V22 V23] Hrest. count.
  destruct (eq_finish_holds _ _ _ _ _ _ V1) as (q & E & Hq).
  unfold worker_goes_on. cbn [CoreThread.exec]. rewrite (bind_Ret _ _ _ _ _ (on_queue_runs _ _ _ _ E)).
  assert (m_completed w = true → False) as Hc by (intros Hc; by destruct (V16 Hc) as [[]|]).
  destruct Hrest as [-> |[Hg ->]].
  - exists p_run, fs, o. split_and!; [|done|done]. split; cbn; try done.
  - exists p_raise, fs, o. split_and!; [|done|split; [done|by left]]. split; cbn; try done.
Qed.

Lemma thread_raise_ok c fs o w : inv (i_raise true :: c) p_raise fs o w → ¬ gentle → worker_goes_on (i_raise true) [] c p_raise fs o w.
Proof.
  intros [V1 V2 V3 V4 V5 V6 V7 V8 V9 V10 V11 V12 V13 V14 V15 V16 V17 V18 V19 V20 V21 V22 V23] Hg. count.
  unfold worker_goes_on. cbn. exists p_raise, fs, o. split_and!; [|done|split; [done|by right]]. by split; cbn; rewrite ?cnt_cons; cbn.
Qed.

(** Once the thread is told to stop, it goes on to its end. *)
Lemma inv_raised c fs o w : inv c p_raise fs o w → m_shouldStop w = true → inv c p_cleanup fs o w.
Proof.
  intros [V1 V2 V3 V4 V5 V6 V7 V8 V9 V10 V11 V12 V13 V14 V15 V16 V17 V18 V19 V20 V21 V22 V23] Hs. split; cbn; try done.
  intros Hc. by destruct (V16 Hc) as [[]|].
Qed.

Lemma cleanup_ok c fs o w : inv (i_cleanup :: c) p_cleanup fs o w → worker_goes_on i_cleanup [] c p_cleanup fs o w.
Proof.
  intros [V1 V2 V3 V4 V5 V6 V7 V8 V9 V10 V11 V12 V13 V14 V15 V16 V17 V18 V19 V20 V21 V22 V23]. count. specialize (V9 eq_refl).
  unfold worker_goes_on. cbn [CoreThread.exec]. unfold DoRunLoopCleanup. rewrite (bind_Ret _ _ _ w w) by done. rewrite V11, V9. cbn [locked andb].
  destruct (m_onStopCompleted w) eqn:Hc; cbn [negb]; [|by right]. erewrite bind_Ret by done.
  destruct (eq_close_holds _ _ _ _ V1) as (D & q & E & ED & Hq). rewrite (bind_Ret _ _ _ (head D.*1) (set_queue q (set_stopping_lock true w))) by by apply on_queue_runs.
  rewrite V9 in V2, V14, V19, V20. cbn in V2. assert (cnt early c = 0) as He by (pose proof (early_stopping c); lia).
  exists (p_rundown D), [], false. split_and!; [|done|done]. split; cbn; rewrite ?cnt_cons, ?V9, ?Hc; cbn; try done.
  - split; [done|]. rewrite ED. destruct o; [destruct V6 as [-> _]; exists []; by rewrite app_nil_r|]. destruct V6 as [-> V6]. exact V6.
  - intros Hx. by destruct (V16 Hx) as [[]|].
  - intros G. rewrite ED, app_nil_r. exact (V21 G).
Qed.

Lemma rundown_ok D c fs o w : inv (i_rundown (head D.*1) :: c) (p_rundown D) fs o w → worker_goes_on (i_rundown (head D.*1)) [] c (p_rundown D) fs o w.
Proof.
  intros HI%inv_neutral; [|done]. pose proof HI as [V1 V2 V3 V4 V5 V6 V7 V8 V9 V10 V11 V12 V13 V14 V15 V16 V17 V18 V19 V20 V21 V22 V23]. count.
  unfold worker_goes_on. cbn [CoreThread.exec]. unfold Rundown. destruct D as [|[t f] D]; cbn [head fmap list_fmap fst].
  - exists (p_rest []), fs, o. split_and!; [|done|by split]. split; cbn; rewrite ?cnt_cons; cbn; try done.
    intros Hx. by destruct (V16 Hx) as [[]|].
  - destruct (eq_call_holds _ _ _ _ _ _ _ V1) as (q & E & Hq). rewrite (bind_Ret _ _ _ _ _ (on_queue_runs _ _ _ _ E)). erewrite bind_Ret by done. cbn [fst snd].
    assert (o = false) as -> by (destruct o; [by destruct V6|done]). destruct V6 as [-> Hp]. cbn in Hp.
    assert (f ∈ accepted w) as Hf by (destruct Hp as [k ->]; apply elem_of_app; left; apply elem_of_app; right; left).
    exists (p_rcall t f D), [], false. split_and!; [|done|rewrite app_nil_r; apply rundown_code].
    apply (inv_call c (p_rundown ((t, f) :: D)) [] false w _ f); try done; [apply rundown_calm|apply rundown_aborting|..].
    + split; [done|]. cbn. by rewrite <-app_assoc.
    + intros _. cbn. by rewrite <-app_assoc.
Qed.

(** The rundown goes on, with nothing new called. *)
Lemma inv_late c p p' fs o w q l : inv c p fs o w → late p = true → late p' = true → p' ≠ p_done → p ≠ p_done → calm l → cnt aborting l = 0 →
  eq_holds (calling p') (detached p') fs o q →
  (remaining p' = remaining p ∨ ¬ gentle ∧ remaining p' = []) → inv (l ++ c) p' fs o (set_stopping_lock (locked p') (set_queue q w)).
Proof.
  intros [V1 V2 V3 V4 V5 V6 V7 V8 V9 V10 V11 V12 V13 V14 V15 V16 V17 V18 V19 V20 V21 V22 V23] Hl Hl' Hd Hd' (C1 & C2 & C3 & C4 & C5 & C6) C7 Hq Hr.
  assert (alive p' = alive p) as Ha by (by destruct p, p').
  split; cbn; rewrite ?cnt_app, ?C1, ?C2, ?C3, ?C4, ?C5, ?C7, ?Ha; cbn; try done.
  - destruct Hr as [-> |[_ ->]]; [done|]. destruct o; [by destruct V6|]. destruct V6 as [? V6]. split; [done|]. rewrite app_nil_r.
    etrans; [|exact V6]. by apply prefix_app_r.
  - by intros ->.
  - auto.
  - by intros ->.
  - intros Hx. destruct (V16 Hx) as [[-> _]|]; done.
  - by intros ->.
  - intros G. destruct (V19 G) as [? ?]. by rewrite C6.
  - intros G. destruct Hr as [-> |[Hg _]]; [auto|done].
  - auto.
Qed.

Lemma same_lock (w : thread) b : m_stoppingLock w = b → set_stopping_lock b w = w.
Proof. intros <-. by destruct w. Qed.

Lemma rundown_done_ok t f D c fs o w : inv (i_done t (head D.*1) :: c) (p_rcall t f D) fs o w →
  worker_goes_on (i_done t (head D.*1)) [] c (p_rcall t f D) fs o w.
Proof.
  intros HI%inv_neutral; [|done]. destruct (eq_done_holds _ _ _ _ _ _ _ (v_queue _ _ _ _ _ HI)) as (q & E & Hq).
  unfold worker_goes_on. cbn [CoreThread.exec]. rewrite (bind_Ret _ _ _ _ _ (on_queue_runs _ _ _ _ E)).
  exists (p_rundown D), fs, o. split_and!; [|done|done].
  rewrite <-(same_lock (set_queue q w) true) by apply HI. by apply (inv_late _ _ (p_rundown D) _ _ _ q [i_rundown (head D.*1)] HI); auto.
Qed.

(** What follows the loop of the rundown. *)
Lemma rundown_rest_ok p c fs o w : inv (i_rest (head (detached p).*1) :: c) p fs o w → locked p = true → remaining p = [] ∨ ¬ gentle →
  worker_goes_on (i_rest (head (detached p).*1)) [] c p fs o w.
Proof.
  intros HI%inv_neutral Hl Hr; [|done]. destruct (eq_rest_holds _ _ _ _ _ (v_queue _ _ _ _ _ HI)) as (q & E & Hq).
  assert (calling p = []) as Ec by (by destruct p). rewrite Ec in Hq.
  unfold worker_goes_on. cbn [CoreThread.exec]. unfold Rundown_rest. rewrite bind_assoc, (bind_Ret _ _ _ _ _ (on_queue_runs _ _ _ _ E)).
  exists p_base, fs, o. split_and!; [|done|done].
  apply (inv_late _ _ p_base _ _ _ q [i_base_cleanup] HI); try done; [by destruct p..|]. destruct Hr as [->|]; auto.
Qed.

Lemma base_cleanup_ok c fs o w : inv (i_base_cleanup :: c) p_base fs o w → worker_goes_on i_base_cleanup [] c p_base fs o w.
Proof.
  intros [V1 V2 V3 V4 V5 V6 V7 V8 V9 V10 V11 V12 V13 V14 V15 V16 V17 V18 V19 V20 V21 V22 V23]. count.
  unfold worker_goes_on. cbn. exists p_end, fs, o. split_and!; [|done|by left].
  split; cbn; rewrite ?cnt_cons; cbn; try done.
  - intros Hx. by destruct (V16 Hx) as [[]|].
  - intros G. destruct (V19 G) as [? ?]. auto.
Qed.

Lemma complete_ok c fs o w : inv (i_complete :: c) p_end fs o w → worker_goes_on i_complete [] c p_end fs o w.
Proof.
  intros [V1 V2 V3 V4 V5 V6 V7 V8 V9 V10 V11 V12 V13 V14 V15 V16 V17 V18 V19 V20 V21 V22 V23]. count.
  unfold worker_goes_on. cbn. exists p_done, fs, o. split_and!; [|done|done]. split; cbn; try done. by right.
Qed.

(** A step of a call in a lambda. *)
Lemma body_step_ok p i rest c fs o w : alive p = true → inv (i :: rest ++ c) p fs o w →
  call_step true i ∨ i = i_stop false ∧ (gentle → m_shouldStop w = true) →
  (∀ l, l = [] ∨ (∃ i', l = [i'] ∧ call_step true i') → worker_code p (l ++ rest)) →
  worker_goes_on i rest (rest ++ c) p fs o w.
Proof.
  intros Hp HI Hi Hcode. pose proof (call_ok true _ _ _ _ _ _ HI Hi) as Hgo. unfold call_goes_on, worker_goes_on in *.
  destruct (exec i w) as [[l|e|[]] w'].
  - destruct Hgo as (p' & fs' & o' & HI' & Hl & [[-> Et]|[-> _]]); [|done]. exists p, fs', o'. split_and!; auto.
  - done.
  - destruct Hgo.
  - destruct Hi as [Hi|[-> _]]; [|by destruct Hgo]. exfalso. by destruct i; cbn in Hi, Hgo.
  - destruct Hgo.
Qed.

Lemma body_then_ok p z i rest c fs o w : alive p = true → inv (i :: rest ++ c) p fs o w → then_ z (i :: rest) → (∀ l, then_ z l → worker_code p l) →
  i :: rest = z ∨ worker_goes_on i rest (rest ++ c) p fs o w.
Proof.
  intros Hp HI Hz Hcode. destruct (then_cons _ _ _ _ Hz eq_refl) as [?|(Hi & Hrest & Hnext)]; [by left|right].
  apply body_step_ok; auto. intros l [-> |(i' & -> & Hi')]; apply Hcode; [done|by apply Hnext].
Qed.

(** The exception stops the thread. *)
Lemma raise_stop_ok c fs o w : inv (i_stop false :: i_cleanup :: c) p_raise fs o w → ¬ gentle →
  worker_goes_on (i_stop false) [i_cleanup] (i_cleanup :: c) p_raise fs o w.
Proof.
  intros HI Hg. pose proof (call_ok true _ _ _ _ _ _ HI ltac:(right; by split)) as Hgo.
  assert (m_shouldStop (exec (i_stop false) w).2 = true) as Hs by (cbn; unfold Stop; munfold; by destruct (m_shouldStop w) eqn:E).
  unfold call_goes_on, worker_goes_on in *. destruct (exec (i_stop false) w) as [[l|e|[]] w']; try by destruct Hgo.
  destruct Hgo as (p' & fs' & o' & HI' & Hl & [[-> Et]|[? _]]); [|done]. exists p_cleanup, fs', o'. split_and!; [by apply inv_raised|done|].
  exists l. split; [done|]. destruct Hl as [-> |(i' & -> & Hi')]; [by left|right]. by exists i', [].
Qed.

(** Any step of the thread that dispatches. *)
Lemma worker_ok p i rest c fs o w : inv (i :: rest ++ c) p fs o w → worker_code p (i :: rest) → worker_goes_on i rest (rest ++ c) p fs o w.
Proof.
  intros HI Hcode. destruct p as [| | |t| | |D|t f D|D| | |].
  - done.
  - injection Hcode as -> ->. by apply thread_loop_ok.
  - injection Hcode as -> ->. by apply event_ok.
  - destruct Hcode as [Hz|[Hg Hz]]; (destruct (body_then_ok (p_call t) _ i rest c fs o w eq_refl HI Hz) as [E|?];
      [intros l ?; cbn; auto|injection E as -> ->; apply thread_finish_ok; auto|done]).
  - destruct Hcode as [Hg [[= -> ->]|[= -> ->]]]; [by apply thread_raise_ok|by apply raise_stop_ok].
  - destruct (body_then_ok p_cleanup _ i rest c fs o w eq_refl HI Hcode) as [E|?]; [done| |done]. injection E as -> ->. by apply cleanup_ok.
  - injection Hcode as -> ->. by apply rundown_ok.
  - destruct Hcode as [Hz|[Hg Hz]]; (destruct (body_then_ok (p_rcall t f D) _ i rest c fs o w eq_refl HI Hz) as [E|?];
      [intros l ?; cbn; auto|injection E as -> ->|done]); [by apply rundown_done_ok|].
    apply (rundown_rest_ok (p_rcall t f D)); auto.
  - destruct Hcode as [[= -> ->] Hg]. apply (rundown_rest_ok (p_rest D)); auto.
  - injection Hcode as -> ->. by apply base_cleanup_ok.
  - destruct Hcode as [[= -> ->]|Hz].
    + apply body_step_ok; [done|exact HI| |].
      * right. split; [done|]. intros _. by apply (v_on_completed _ _ _ _ _ HI), (v_late _ _ _ _ _ HI).
      * intros l Hl. right. exists l. split; [done|]. destruct Hl as [-> |(i' & -> & Hi')]; [by left|right]. by exists i', [].
    + destruct (body_then_ok p_end _ i rest c fs o w eq_refl HI Hz) as [E|?]; [intros l ?; by right| |done]. injection E as -> ->. by apply complete_ok.
  - done.
Qed.

(** ** Steps of any thread *)
Definition thread_inv (p : phase) (fs : list fx) (o : bool) (w : thread) : Prop := inv (concat (threads w)) p fs o w ∧ shape p w.

(** When the next step [i] of thread [n] has to wait. *)
Definition waits (n : nat) (i : instr) (p : phase) (fs : list fx) (o : bool) (w : thread) : Prop :=
  if decide (n < clients) then waits_at i w else worker_waits i p fs o w.

Lemma inv_threads c p fs o w x : inv c p fs o w → inv c p fs o (set_threads x w).
Proof. intros []. by split. Qed.

Lemma client_code l ops : l = [] ∨ (∃ i', l = [i'] ∧ call_step false i') → Forall op_ok ops → calls_code false (l ++ map instr_of ops).
Proof.
  intros Hl Hops. destruct Hl as [-> |(i' & -> & Hi')]; [|right; by exists i', ops].
  destruct ops as [|o ops]; [by left|right]. apply Forall_cons in Hops as [Ho Hops]. exists (instr_of o), ops. split_and!; [done| |done]. by destruct o.
Qed.

Lemma shape_insert p p' w w' n l l' : shape p w → threads w !! n = Some l → threads w' = threads w → alive p' = alive p →
  thread_code p' n l' → (clients ≤ n ∨ p' = p) → shape p' (set_threads (<[n := l']> (threads w')) w').
Proof.
  intros [Hc Hlen] Hn Et Ha Hl' Hp. split; cbn; rewrite Et; [|by rewrite length_insert, Ha]. intros m lm Hm.
  destruct (decide (m = n)) as [-> |Hne]; [rewrite list_lookup_insert_eq in Hm by (by eapply lookup_lt_Some); by injection Hm as <-|].
  rewrite list_lookup_insert_ne in Hm by done. pose proof (Hc _ _ Hm) as Hx. destruct Hp as [Hp| ->]; [|done].
  unfold thread_code in *. case_decide; [done|]. apply lookup_lt_Some in Hm, Hn. rewrite Hlen in *. destruct (alive p); lia.
Qed.

Lemma client_step_inv n p fs o w i rest c : inv (i :: rest ++ c) p fs o w → shape p w → threads w !! n = Some (i :: rest) → n < clients →
  (∀ l, concat (<[n := l]> (threads w)) ≡ₚ l ++ c) →
  match exec i w with
  | (Ret l, w') => ∃ p' fs' o', thread_inv p' fs' o' (set_threads (<[n := l ++ rest]> (threads w')) w')
  | (Stuck blocked, _) => waits_at i w
  | _ => False
  end.
Proof.
  intros HI Hs Hn Hlt Hc. pose proof (s_code _ _ Hs _ _ Hn) as Hcode. unfold thread_code in Hcode. rewrite decide_True in Hcode by done.
  destruct Hcode as [?|(i0 & ops & [= <- ->] & Hi & Hops)]; [done|]. pose proof (call_ok false _ _ _ _ _ _ HI (or_introl Hi)) as Hgo.
  unfold call_goes_on in Hgo. destruct (exec i w) as [[l|e|[]] w']; try done. destruct Hgo as (p' & fs' & o' & HI' & Hl & Hcase).
  exists p', fs', o'. pose proof (client_code _ _ Hl Hops) as Hcode. destruct Hcase as [[-> Et]|(-> & -> & Et)].
  - split; [|apply (shape_insert p p w w' n _ _ Hs Hn Et); [done| |by right]; unfold thread_code; by rewrite decide_True].
    apply inv_threads, (thread_inv_perm (l ++ map instr_of ops ++ c)); [|done]. cbn. by rewrite Et, Hc, app_assoc.
  - pose proof (lookup_lt_Some _ _ _ Hn). assert (n < length (threads w)) as Hl' by done. split.
    + apply inv_threads, (thread_inv_perm (i_run :: l ++ map instr_of ops ++ c)); [|by apply inv_neutral]. cbn. rewrite Et, insert_app_l by done.
      rewrite concat_app, Hc. cbn. by rewrite <-Permutation_cons_append, app_assoc.
    + destruct Hs as [Hc' Hlen]. cbn in Hlen. split; cbn; rewrite Et; [|rewrite length_insert, length_app, Hlen; cbn; lia].
      intros m lm. rewrite insert_app_l by done. intros [Hm|[Hlen' Hm]]%lookup_app_Some.
      * destruct (decide (m = n)) as [-> |Hne]; unfold thread_code.
        { rewrite list_lookup_insert_eq in Hm by done. injection Hm as <-. by rewrite decide_True. }
        rewrite list_lookup_insert_ne in Hm by done. pose proof (Hc' _ _ Hm) as Hx. unfold thread_code in Hx. by case_decide.
      * rewrite length_insert in *. unfold thread_code. rewrite decide_False by lia. destruct (m - length (threads w)) as [|k]; [|done]. by injection Hm as <-.
Qed.

Lemma thread_step_inv n p fs o w : thread_inv p fs o w →
  match step lambdas abort_fx n w with
  | Ret w' => ∃ p' fs' o', thread_inv p' fs' o' w'
  | Stuck blocked => ∀ i rest, threads w !! n = Some (i :: rest) → waits n i p fs o w
  | _ => False
  end.
Proof.
  intros [HI Hs]. unfold step. destruct (threads w !! n) as [[|i rest]|] eqn:Hn; [done| |done].
  destruct (concat_insert _ _ _ Hn) as (c & Hc & Hc'). apply (thread_inv_perm _ _ _ _ _ _ Hc) in HI. cbn in HI. unfold waits.
  destruct (decide (n < clients)) as [Hlt|Hlt].
  - pose proof (client_step_inv _ _ _ _ _ _ _ _ HI Hs Hn Hlt Hc') as Hgo. destruct (exec i w) as [[l|e|[]] w']; try done. by intros i' rest' [= <- <-].
  - pose proof (s_code _ _ Hs _ _ Hn) as Hcode. unfold thread_code in Hcode. rewrite decide_False in Hcode by done.
    pose proof (worker_ok _ _ _ _ _ _ _ HI Hcode) as Hgo. unfold worker_goes_on in Hgo.
    destruct (exec i w) as [[l|e|[]] w']; try done; [|by intros i' rest' [= <- <-]].
    destruct Hgo as (p' & fs' & o' & HI' & Et & Hcode'). exists p', fs', o'. split.
    + apply inv_threads, (thread_inv_perm (l ++ rest ++ c)); [|done]. cbn. by rewrite Et, Hc', app_assoc.
    + apply (shape_insert p p' w w' n _ _ Hs Hn Et); [by destruct p, p'| |left; lia]. unfold thread_code. by rewrite decide_False.
Qed.

Lemma thread_run_inv schedule p fs o w : thread_inv p fs o w →
  match run lambdas abort_fx schedule w with Ret w' => ∃ p' fs' o', thread_inv p' fs' o' w' | _ => False end.
Proof.
  revert p fs o w. induction schedule as [|n schedule IH]; intros p fs o w Hi; cbn; [by exists p, fs, o|].
  pose proof (thread_step_inv n _ _ _ _ Hi) as Hs. destruct (step _ _ n w) as [w'|e|[]]; try done; [|by eapply IH].
  destruct Hs as (p' & fs' & o' & Hi'). by eapply IH.
Qed.

Lemma cnt_concat_ops P (programs : list (list thread_op)) : (∀ x, P (instr_of x) = false) → cnt P (concat (map (map instr_of) programs)) = 0.
Proof. intros HP. induction programs as [|ops programs IH]; [done|]. cbn. by rewrite cnt_app, IH, cnt_ops. Qed.

Lemma thread_inv_new programs : length programs = clients → programs_ok programs → thread_inv p_none [] true (thread_new programs).
Proof.
  intros Hlen Hp. split.
  - pose proof (λ P HP, cnt_concat_ops P programs HP) as Hz.
    split; cbn; rewrite ?Hz by (by intros []); try done.
    + apply eq_new_holds.
    + by intros ?%elem_of_nil.
    + intros G. split; [done|]. intros (i & Hi & Hh)%cnt_pos.
      apply list_elem_of_In, List.in_concat in Hi as (l & Hl%list_elem_of_In & Hi%list_elem_of_In). apply list_elem_of_fmap in Hl as (ops & -> & Hops).
      apply list_elem_of_fmap in Hi as (x & -> & Hx). unfold programs_ok in Hp. rewrite Forall_forall in Hp. specialize (Hp _ Hops).
      rewrite Forall_forall in Hp. specialize (Hp _ Hx). destruct x; try done. cbn in *. by rewrite Hp in Hh.
    + by left.
    + by intros f ?%elem_of_nil.
  - split; cbn; [|by rewrite length_map]. intros n l Hn. unfold thread_code.
    apply list_lookup_fmap_Some in Hn as (ops & -> & Hn). rewrite decide_True by (rewrite <-Hlen; by eapply lookup_lt_Some).
    apply (client_code []); [by left|]. unfold programs_ok in Hp. rewrite Forall_forall in Hp. by eapply Hp, list_elem_of_lookup_2.
Qed.
End facts.
