(* ===== verification/CoreThreadSpec.v ===== *)
(** * CoreThread: what clients may rely on

    For every queue that keeps the laws of EventQueue.v, all programs of any number of
    client threads, and all schedules. *)
From stdpp Require Import base gmap list.
From Stdlib Require Import ZArith Lia.
From S2P Require Import Prelude.
From S2P Require Import DispatchQueue.
From S2P Require Import EventQueue.
From S2P Require Import CoreThread.
From S2P Require Import CoreThreadFacts.
Local Open Scope nat_scope.

Section theorems.
  Context {Q : Type} `{EventQueueLaws Q}.
  Context (lambdas : fx → lambda) (abort_fx : fx) (gentle : Prop) (ok : lambdas_ok lambdas abort_fx gentle).
  Local Abbreviation thread := (CoreThread.thread (Q := Q)).
  Local Abbreviation exec := (CoreThread.exec lambdas abort_fx).
  Local Abbreviation step := (CoreThread.step lambdas abort_fx).
  Local Abbreviation run := (CoreThread.run lambdas abort_fx).

Lemma thread_reached programs schedule : programs_ok lambdas gentle programs →
  ∃ w p fs o, run schedule (thread_new programs) = Ret w ∧ thread_inv lambdas abort_fx gentle (length programs) p fs o w.
Proof.
  intros Hp. pose proof (thread_run_inv lambdas abort_fx gentle ok (length programs) schedule p_none [] true (thread_new programs)) as Hi.
  destruct (run schedule (thread_new programs)) as [w|e|r] eqn:Hr; try by destruct Hi; apply thread_inv_new.
  destruct Hi as (p & fs & o & Hi); [by apply thread_inv_new|]. by exists w, p, fs, o.
Qed.

Lemma called_prefix c p fs o w : inv lambdas abort_fx gentle c p fs o w → called w `prefix_of` accepted w.
Proof.
  intros HI. destruct (called_accepted _ _ _ _ (v_order _ _ _ _ _ _ _ _ HI)) as [[k ->] _]. rewrite <-app_assoc. by apply prefix_app_r.
Qed.

(** ** After the end *)
(** Steps of calls call no lambda, and never undo the end. *)
Lemma call_step_keeps worker i (w w' : thread) r : call_step lambdas gentle worker i → exec i w = (r, w') →
  called w' = called w ∧ (m_completed w = true → m_completed w' = true).
Proof.
  intros Hi E. destruct i; try done; cbn in E;
    unfold operator_pend, Start, OnStart, Stop, BasicThread_OnStop, OnStop_queue, Pend, OnStop_completed, Stop_release, Wait, DoAdditionalWait, accept, when, on_queue in E;
    munfold; repeat case_match; simplify_eq/=; auto.
  by split.
Qed.

Lemma completed_step clients p fs o (w w' : thread) n : thread_inv lambdas abort_fx gentle clients p fs o w → m_completed w = true →
  step n w = Ret w' → called w' = called w ∧ m_completed w' = true.
Proof.
  intros [HI Hs] Hc E. unfold CoreThread.step in E. destruct (threads w !! n) as [[|i rest]|] eqn:Hn; try done.
  pose proof (s_code _ _ _ _ _ Hs _ _ Hn) as Hcode. unfold thread_code in Hcode. case_decide.
  - destruct Hcode as [?|(i0 & ops & [= <- ->] & Hi & _)]; [done|]. destruct (exec i w) as [[l|e|r] w1] eqn:E1; try done. injection E as <-.
    destruct (call_step_keeps _ _ _ _ _ Hi E1) as [? ?]. cbn. auto.
  - by destruct (v_completed _ _ _ _ _ _ _ _ HI Hc) as [[-> _]| ->].
Qed.

Lemma completed_run clients schedule p fs o (w w' : thread) : thread_inv lambdas abort_fx gentle clients p fs o w → m_completed w = true →
  run schedule w = Ret w' → called w' = called w.
Proof.
  revert p fs o w. induction schedule as [|n schedule IH]; intros p fs o w Hi Hc E; cbn in E; [by injection E as ->|].
  pose proof (thread_step_inv lambdas abort_fx gentle ok clients n _ _ _ _ Hi) as Hn.
  destruct (CoreThread.step lambdas abort_fx n w) as [w1|e|[]] eqn:E1; try done; [|by eapply IH].
  destruct (completed_step _ _ _ _ _ _ _ Hi Hc E1) as [<- Hc1]. destruct Hn as (p1 & fs1 & o1 & Hi1). by eapply IH.
Qed.

(** ** Progress *)
Section blocked.
  Context (clients : nat) (p : phase) (fs : list fx) (o : bool) (w : thread) (holds : thread_inv lambdas abort_fx gentle clients p fs o w).
  Context (stuck : ∀ n, step n w = Stuck blocked).

Lemma thread_blocked n i rest : threads w !! n = Some (i :: rest) → waits clients n i p fs o w.
Proof.
  intros Hn. pose proof (thread_step_inv lambdas abort_fx gentle ok clients n _ _ _ _ holds) as Hs. rewrite stuck in Hs. by eapply Hs.
Qed.

(** What threads that cannot go on have before them. *)
Lemma blocked_code n l : threads w !! n = Some l → l = [] ∨
  n < clients ∧ (∃ i ops, l = i :: map instr_of ops ∧ waits_at i w) ∨ clients ≤ n ∧ (l = [i_wait_event] ∨ l = [i_cleanup]) ∧ worker_waits (default i_run (head l)) p fs o w.
Proof.
  intros Hn. destruct l as [|i rest]; [by left|right]. pose proof (thread_blocked _ _ _ Hn) as Hw. destruct holds as [HI Hs].
  pose proof (s_code _ _ _ _ _ Hs _ _ Hn) as Hcode. unfold waits, thread_code in *. case_decide as Hlt; [left|right].
  - split; [done|]. destruct Hcode as [?|(i0 & ops & [= <- ->] & _)]; [done|]. by exists i, ops.
  - split; [lia|]. split; [|done]. destruct Hw as [(-> & -> & _)|(-> & -> & _)]; [by left|right].
    destruct (then_cons _ _ _ _ _ _ Hcode eq_refl) as [?|([] & _)]; done.
Qed.

Lemma blocked_count P : (∀ x, P (instr_of x) = false) → P i_wait_completed = false → P i_wait_event = false → P i_cleanup = false → cnt P (concat (threads w)) = 0.
Proof.
  intros HP H1 H2 H3. apply cnt_none. intros i (l & Hl%list_elem_of_In & Hi%list_elem_of_In)%list_elem_of_In%List.in_concat.
  apply list_elem_of_lookup in Hl as [n Hn]. destruct (blocked_code _ _ Hn) as [-> |[(_ & j & ops & -> & Hj)|(_ & Hl & _)]].
  - by apply elem_of_nil in Hi.
  - apply elem_of_cons in Hi as [-> |(x & -> & _)%list_elem_of_fmap]; [|apply HP]. destruct j; try done. apply (HP to_wait).
  - destruct Hl as [-> | ->]; by apply list_elem_of_singleton in Hi as ->.
Qed.

Lemma worker_ended p' : worker_code lambdas gentle p' [] → p' = p_done.
Proof.
  assert (∀ i z, ¬ then_ lambdas gentle (i :: z) []) as Hz by (intros i z (body & E & _); by destruct body).
  destruct p'; cbn; naive_solver.
Qed.

(** A thread that was told to stop ends, and so do all that wait for it. *)
Lemma blocked_ended : m_shouldStop w = true → m_completed w = true ∧ ∀ n l, threads w !! n = Some l → l = [].
Proof.
  intros Hs. pose proof holds as [HI _]. pose proof (blocked_count stopping ltac:(by intros []) eq_refl eq_refl eq_refl) as Hst.
  pose proof (early_stopping (concat (threads w))) as Hea.
  assert (m_onStopCompleted w = true) as Hon.
  { pose proof (v_stops _ _ _ _ _ _ _ _ HI) as E. rewrite Hs, Hst in E. by destruct (m_onStopCompleted w). }
  assert (∀ i, ¬ worker_waits i p fs o w) as Hwork.
  { intros i [(Hp & _ & Hf & Ho)|(_ & _ & E)]; [|congruence]. destruct (v_wake _ _ _ _ _ _ _ _ HI Hp Hs) as [?|[?|?]]; [lia|congruence|done]. }
  assert (m_completed w = true) as Hc.
  { destruct (alive p) eqn:Ha.
    2: { assert (p = p_none) as Hp by (by destruct p). destruct (v_never _ _ _ _ _ _ _ _ HI Hp Hs) as [?|He]; [done|]. destruct He. apply (blocked_count entering); done || by intros []. }
    destruct holds as [_ [Hcode Hlen]]. rewrite Ha in Hlen.
    destruct (lookup_lt_is_Some_2 (threads w) clients ltac:(lia)) as [l Hl]. pose proof (Hcode _ _ Hl) as Hx. unfold thread_code in Hx.
    rewrite decide_False in Hx by lia. destruct (blocked_code _ _ Hl) as [-> |[[? _]|(_ & _ & Hw)]]; [|lia|by destruct (Hwork _ Hw)].
    by apply (v_done _ _ _ _ _ _ _ _ HI), (worker_ended _ Hx). }
  split; [done|]. intros n l Hn. destruct (blocked_code _ _ Hn) as [-> |[(_ & i & ops & _ & Hi)|(_ & _ & Hw)]]; [done| |by destruct (Hwork _ Hw)].
  destruct i; cbn in Hi; try done; [|congruence]. destruct Hi as [?|Hi]; [congruence|].
  destruct (v_out _ _ _ _ _ _ _ _ HI Hs Hi). apply (blocked_count releasing); done || by intros [].
Qed.
End blocked.
End theorems.

Section contracts.
  Context {Q : Type} `{EventQueueLaws Q}.
  Context (lambdas : fx → lambda) (abort_fx : fx).
  Local Abbreviation thread := (CoreThread.thread (Q := Q)).
  Local Abbreviation step := (CoreThread.step lambdas abort_fx).
  Local Abbreviation run := (CoreThread.run lambdas abort_fx).




(** C11. A graceful stop loses nothing: if all threads stop it gracefully only, in a
    context that is alive, and no lambda throws, then when the thread is at its end,
    everything accepted before the first call of [Stop] got to the queue was called. *)
Theorem CoreThread_graceful_stop (programs : list (list thread_op)) (schedule : list nat) (w : thread) :
  lambdas_ok lambdas abort_fx True → programs_ok lambdas True programs →
  run schedule (thread_new programs) = Ret w → m_completed w = true → basic_wasStarted w = true →
  ∃ before after, accepted w = before ++ abort_fx :: after ∧ abort_fx ∉ before ∧ before ++ [abort_fx] `prefix_of` called w.
Proof.
  intros Hok Hp Hr Hc Hb. destruct (thread_reached _ _ _ Hok programs schedule Hp) as (w' & p & fs & o & E' & HI & _).
  assert (w' = w) as -> by congruence. pose proof (called_prefix _ _ _ _ _ _ _ _ HI) as [k Ek].
  assert (p = p_done) as -> by (destruct (v_completed _ _ _ _ _ _ _ _ HI Hc) as [[-> _]|?]; [by rewrite (v_started _ _ _ _ _ _ _ _ HI) in Hb|done]).
  pose proof (v_late _ _ _ _ _ _ _ _ HI eq_refl) as Hon. pose proof (v_on_completed _ _ _ _ _ _ _ _ HI Hon) as Hs.
  pose proof (v_stops _ _ _ _ _ _ _ _ HI) as Hst. rewrite Hs, Hon in Hst. cbn in Hst. pose proof (early_stopping (concat (threads w))).
  assert (o = false) as -> by (by apply (v_shut _ _ _ _ _ _ _ _ HI)). destruct (v_order _ _ _ _ _ _ _ _ HI) as [-> _].
  assert (abort_fx ∈ called w) as (l1 & l2 & E & Hl1)%list_elem_of_split_l.
  { destruct (v_kept _ _ _ _ _ _ _ _ HI I) as [E|?]; [|done]. cbn in E. rewrite app_nil_r in E. rewrite <-E.
    destruct (v_pended _ _ _ _ _ _ _ _ HI I Hs); [lia|done]. }
  exists l1, (l2 ++ k). split_and!; [by rewrite Ek, E, <-app_assoc|done|]. exists l2. by rewrite E, <-app_assoc.
Qed.
End contracts.

(** ** Examples, with DispatchQueue.cpp as the queue *)
(** Lambda 0 is that of [OnStop], 5 pends 3 and stops the thread, 9 throws unless
    [gentle]. *)
Definition thread_demo (gentle : bool) (f : fx) : lambda :=
  match f with
  | 0 => l_abort
  | 5 => l_client [to_pend 3; to_stop true; to_pend 4] None
  | 9 => l_client [to_pend 6] (if gentle then None else Some true)
  | _ => l_client [] None
  end.

Lemma thread_demo_ok (gentle : bool) : lambdas_ok (thread_demo gentle) 0 (Is_true gentle).
Proof.
  split; [done|]. intros f. do 10 (destruct f as [|f]; [by destruct gentle; repeat constructor; try done|]). by repeat constructor.
Qed.

Definition thread_demo_run (gentle : bool) (schedule : list nat) (programs : list (list thread_op)) : outcome thread :=
  let _ := dispatch_event_queue (λ _, 0%Z) in run (thread_demo gentle) 0 schedule (thread_new programs).

(** Where a schedule leads. *)
Definition thread_demo_after (gentle : bool) (schedule : list nat) (programs : list (list thread_op)) : thread :=
  match thread_demo_run gentle schedule programs with Ret w => w | _ => let _ := dispatch_event_queue (λ _, 0%Z) in thread_new [] end.

Definition thread_demo_programs : list (list thread_op) := [[to_start true; to_pend 2; to_pend 5; to_wait]; [to_pend 1; to_stop true; to_pend 7]].
Definition thread_demo_schedule (k : nat) : list nat := concat (replicate k [0; 0; 0; 1; 2; 2]).

Lemma thread_demo_programs_ok gentle : programs_ok (thread_demo gentle) (Is_true gentle) thread_demo_programs.
Proof. by repeat constructor. Qed.


Definition thread_demo_ending : list nat := thread_demo_schedule 11 ++ [2; 2].


Definition thread_demo_waiting : list (list thread_op) := [[to_start true; to_pend 2; to_pend 7; to_wait]; [to_pend 1; to_pend 7]].


Definition thread_demo_gentle : list nat := concat (replicate 40 [0; 1; 2; 3]).

Lemma CoreThread_graceful_stop_witness : let w := thread_demo_after true thread_demo_gentle ([to_pend 9] :: thread_demo_programs) in
  ∃ before after, accepted w = before ++ 0 :: after ∧ 0 ∉ before ∧ before ++ [0] `prefix_of` called w.
Proof.
  apply (@CoreThread_graceful_stop _ _ (dispatch_event_laws (λ _, 0%Z)) (thread_demo true) 0 ([to_pend 9] :: thread_demo_programs)
    thread_demo_gentle).
  - apply (thread_demo_ok true).
  - by repeat constructor.
  - vm_compute. reflexivity.
  - vm_compute. reflexivity.
  - vm_compute. reflexivity.
Defined.

(** A thread that is stopped gracefully goes on accepting lambdas, and may call them. *)
Theorem CoreThread_graceful_stop_accepts : let w := thread_demo_after true (thread_demo_schedule 30 ++ concat (replicate 30 [3; 1])) ([to_pend 9] :: thread_demo_programs) in
  m_completed w = true ∧ accepted w = [9; 1; 2; 0; 5; 7] ∧ called w = [9; 1; 2; 0; 5; 7].
Proof. split_and!; vm_compute; reflexivity. Qed.

(** An exception in a context that was told to shut down before, but has not yet stopped
    this thread, begins the rundown without a call of [OnStop]; a lambda of the rundown
    that stops the thread then waits for the lock that its own thread holds. *)
Definition thread_quiet (graceful : bool) (f : fx) : lambda :=
  match f with 0 => l_abort | 8 => l_client [] (Some false) | _ => l_client [to_stop graceful] None end.

Definition thread_quiet_after (graceful : bool) : thread :=
  let _ := dispatch_event_queue (λ _, 0%Z) in
  match run (thread_quiet graceful) 0 ([0; 0; 0] ++ replicate 9 1) (thread_new [[to_start true; to_pend 8; to_pend 6]]) with
  | Ret w => w
  | _ => thread_new []
  end.

Theorem CoreThread_rundown_deadlocks (graceful : bool) :
  let w := thread_quiet_after graceful in
  m_stoppingLock w = true ∧ threads w = [[]; [i_on_stop_completed; i_done 1 None]] ∧
  ∀ n, (let _ := dispatch_event_queue (λ _, 0%Z) in step (thread_quiet graceful) 0 n w) = Stuck blocked.
Proof. split_and!; [by destruct graceful; vm_compute..|]. destruct graceful; intros [|[|n]]; vm_compute; reflexivity. Qed.
