(* ===== verification/ThreadPool.v ===== *)
(** * ThreadPool: workers that share a dispatch queue

    src/src/autowiring/ThreadPool.cpp, SystemThreadPoolStl.cpp and NullPool.cpp, for any
    number of client threads.  A step of a thread is a critical section of the queue, an
    access to an atomic, or the beginning or end of one of [m_lock]; the steps between
    the beginning and the end are done with [m_lock] held.  Worker threads are threads
    like those of clients; lambdas are programs of client calls that the worker goes
    through step by step.  A pool is started as long as some thread holds a token. *)
From stdpp Require Import base gmap list.
From Stdlib Require Import ZArith Lia.
From S2P Require Import Prelude.
From S2P Require Import DispatchQueue.
From S2P Require Import EventQueue.
Local Open Scope nat_scope.

(** What clients call: [Start], keeping its token; [Submit]; [SuggestThreadPoolSize]; a
    token goes; [Submit] and [MoveDispatchersToSuccessor] of a null pool whose successor
    is this pool. *)
Inductive pool_op :=
  | po_start
  | po_submit (f : fx)
  | po_suggest (nThreads : nat)
  | po_release
  | po_null_submit (f : fx)
  | po_null_move.

(** The steps of these calls, and of a worker. *)
Inductive instr :=
  | i_start | i_on_start | i_grow (nThreads : nat) | i_add_worker | i_increment | i_token | i_unlock
  | i_submit (f : fx) | i_submitted
  | i_suggest (nThreads : nat)
  | i_release | i_on_stop
  | i_null_submit (f : fx) | i_null_move
  | i_worker | i_abort | i_finish (thunk : addr) | i_leave.

Definition instr_of (o : pool_op) : instr :=
  match o with
  | po_start => i_start
  | po_submit f => i_submit f
  | po_suggest nThreads => i_suggest nThreads
  | po_release => i_release
  | po_null_submit f => i_null_submit f
  | po_null_move => i_null_move
  end.

(** A client lambda: what it calls, and whether it throws at the end; the lambda that
    [OnStop] pends calls [Abort]. *)
Inductive lambda := l_client (calls : list pool_op) (throws : bool) | l_abort.

(** A thread, with the tokens it holds. *)
Record pool_thread := mkThread { code : list instr; tokens : nat }.

Section pool.
  Context {Q : Type} `{EventQueue Q}.
  Context (lambdas : fx → lambda) (abort_fx : fx).

(** [m_lock]: whether a thread holds it.  [m_dispatchers] and [m_successor] are those of
    the null pool.  [accepted] and [called] are the lambdas linked and called so far. *)
Record pool := mkPool {
  m_toBeDone : Q;
  m_outstanding : Z;
  m_lock : bool;
  threads : list pool_thread;
  m_dispatchers : list fx;
  m_successor : bool;
  accepted : list fx;
  called : list fx }.

Definition set_queue x w := mkPool x (m_outstanding w) (m_lock w) (threads w) (m_dispatchers w) (m_successor w) (accepted w) (called w).
Definition set_outstanding x w := mkPool (m_toBeDone w) x (m_lock w) (threads w) (m_dispatchers w) (m_successor w) (accepted w) (called w).
Definition set_lock x w := mkPool (m_toBeDone w) (m_outstanding w) x (threads w) (m_dispatchers w) (m_successor w) (accepted w) (called w).
Definition set_threads x w := mkPool (m_toBeDone w) (m_outstanding w) (m_lock w) x (m_dispatchers w) (m_successor w) (accepted w) (called w).
Definition set_null x y w := mkPool (m_toBeDone w) (m_outstanding w) (m_lock w) (threads w) x y (accepted w) (called w).
Definition set_accepted x w := mkPool (m_toBeDone w) (m_outstanding w) (m_lock w) (threads w) (m_dispatchers w) (m_successor w) x (called w).
Definition set_called x w := mkPool (m_toBeDone w) (m_outstanding w) (m_lock w) (threads w) (m_dispatchers w) (m_successor w) (accepted w) x.

(** The queue of a new pool has no limit; its successor, if any, is this pool. *)
Definition pool_new (toBeDone : Q) (successor : bool) (programs : list (list pool_op)) : pool :=
  mkPool toBeDone 0 false (map (λ p, mkThread (map instr_of p) 0) programs) [] successor [] [].

(** [m_startToken] has not expired. *)
Definition IsStarted (w : pool) : bool := existsb (λ t, bool_decide (tokens t ≠ 0)) (threads w).

Local Abbreviation M := (M pool).

(** An operation of the queue, as part of a step of the pool. *)
Definition on_queue {A} (m : Prelude.M Q A) : M A := λ w,
  let '(r, q) := m (m_toBeDone w) in (r, set_queue q w).

Definition accept (f : fx) : M unit := modify (λ w, set_accepted (accepted w ++ [f]) w).
Definition record_call (f : fx) : M unit := modify (λ w, set_called (called w ++ [f]) w).
Definition add_existing (f : fx) : M unit := b ← on_queue (eq_pend f); when b (accept f).

(** The lock, until [i_unlock] or [i_token]. *)
Definition lock : M unit := w ← get; if m_lock w then stuck blocked else modify (set_lock true).

Section thread.
  Context (n : nat).

Definition this : M pool_thread := w ← get; deref (threads w !! n).
Definition set_tokens (k : nat) : M unit := modify (λ w, set_threads (alter (λ t, mkThread (code t) k) n (threads w)) w).

(** [ThreadPool::Start], up to [OnStartUnsafe]. *)
Definition Start : M (list instr) :=
  lock;;
  w ← get;
  if IsStarted w then mret [i_token] else mret [i_on_start; i_token].

(** [OnStartUnsafe] up to its loop, and a turn of the loop. *)
Definition OnStartUnsafe : M (list instr) :=
  w ← get; mret (if bool_decide (m_outstanding w = 0%Z) then [i_grow 2] else []).
Definition grow (nThreads : nat) : M (list instr) :=
  w ← get; mret (if bool_decide (m_outstanding w < Z.of_nat nThreads)%Z then [i_add_worker; i_grow nThreads] else []).

(** [AddWorkerThreadUnsafe]: the thread, and its count. *)
Definition AddWorkerThreadUnsafe : M (list instr) :=
  modify (λ w, set_threads (threads w ++ [mkThread [i_worker] 0]) w);; mret [i_increment].
Definition increment : M unit := modify (λ w, set_outstanding (sz_inc (m_outstanding w)) w).

(** The end of [Start]: the token, new or not. *)
Definition token : M unit := t ← this; set_tokens (S (tokens t));; modify (set_lock false).

(** A token goes; the last one calls [OnStop]. *)
Definition release : M (list instr) :=
  t ← this;
  match tokens t with
  | 0 => mret []
  | S k => set_tokens k;; w ← get; mret (if IsStarted w then [] else [i_on_stop])
  end.

(** [Submit], after the lambda was added. *)
Definition submitted : M (list instr) :=
  lock;;
  w ← get; mret (if bool_decide (m_outstanding w = 0%Z) && IsStarted w then [i_add_worker; i_unlock] else [i_unlock]).

Definition SuggestThreadPoolSize (nThreads : nat) : M (list instr) := lock;; mret [i_grow nThreads; i_unlock].

(** [NullPool::Submit], [NullPool::MoveDispatchersToSuccessor]. *)
Definition NullPool_Submit (f : fx) : M unit := modify (λ w, set_null (m_dispatchers w ++ [f]) (m_successor w) w).
Definition MoveDispatchersToSuccessor : M (list instr) :=
  w ← get;
  if m_successor w
  then modify (set_null [] false);; mret (flat_map (λ f, [i_submit f; i_submitted]) (m_dispatchers w))
  else mret [].

(** The call of a lambda, and what follows it in [DispatchEventUnsafe] and in the loop of
    the worker: every exception ends it. *)
Definition call (f : fx) (thunk : addr) : list instr :=
  match lambdas f with
  | l_abort => [i_abort; i_finish thunk; i_worker]
  | l_client calls throws => map instr_of calls ++ [i_finish thunk; if throws then i_leave else i_worker]
  end.

(** [WaitForEvent]. *)
Definition WaitForEvent : M (list instr) :=
  w ← get;
  if eq_aborted (m_toBeDone w) then mret [i_leave]
  else
    t ← on_queue eq_take;
    match t with
    | None => stuck blocked
    | Some (thunk, f) => record_call f;; mret (call f thunk)
    end.

(** A step; its result is what the thread does next, before the rest of its code. *)
Definition exec (i : instr) : M (list instr) :=
  match i with
  | i_start => Start
  | i_on_start => OnStartUnsafe
  | i_grow nThreads => grow nThreads
  | i_add_worker => AddWorkerThreadUnsafe
  | i_increment => increment;; mret []
  | i_token => token;; mret []
  | i_unlock => modify (set_lock false);; mret []
  | i_submit f => add_existing f;; mret [i_submitted]
  | i_submitted => submitted
  | i_suggest nThreads => SuggestThreadPoolSize nThreads
  | i_release => release
  | i_on_stop => add_existing abort_fx;; mret []
  | i_null_submit f => NullPool_Submit f;; mret []
  | i_null_move => MoveDispatchersToSuccessor
  | i_worker => WaitForEvent
  | i_abort => on_queue eq_abort;; mret []
  | i_finish thunk => on_queue (eq_finish thunk);; mret []
  | i_leave => modify (λ w, set_outstanding (sz_dec (m_outstanding w)) w);; mret []
  end.

(** Thread [n] takes a step. *)
Definition step (w : pool) : outcome pool :=
  match threads w !! n with
  | Some (mkThread (i :: rest) _) =>
    match exec i w with
    | (Ret l, w') => Ret (set_threads (alter (λ t, mkThread (l ++ rest) (tokens t)) n (threads w')) w')
    | (Throw e, _) => Throw e
    | (Stuck r, _) => Stuck r
    end
  | _ => Stuck blocked
  end.
End thread.

(** A schedule: a thread that cannot take a step is passed over. *)
Fixpoint run (schedule : list nat) (w : pool) : outcome pool :=
  match schedule with
  | [] => Ret w
  | n :: schedule' =>
    match step n w with
    | Ret w' => run schedule' w'
    | Stuck blocked => run schedule' w
    | r => r
    end
  end.
End pool.
