(* ===== verification/ThreadPoolFacts.v ===== *)
(** * ThreadPool: the invariant of its workers

    The order of lambdas, the count of workers, the thread that holds the lock, and the
    workers that a started pool has.  The theorems are in ThreadPoolSpec.v. *)
From stdpp Require Import base gmap list.
From Stdlib Require Import ZArith Lia.
From S2P Require Import Prelude.
From S2P Require Import DispatchQueue.
From S2P Require Import EventQueue.
From S2P Require Import ThreadPool.
Local Open Scope nat_scope.

Section facts.
  Context {Q : Type} `{EventQueueLaws Q}.
  Context (lambdas : fx → lambda) (abort_fx : fx).
  Local Abbreviation pool := (ThreadPool.pool (Q := Q)).
  Local Abbreviation exec := (ThreadPool.exec lambdas abort_fx).
  Local Abbreviation step := (ThreadPool.step lambdas abort_fx).
  Local Abbreviation run := (ThreadPool.run lambdas abort_fx).

(** ** Clients *)
(** [gentle]: lambdas do not throw. *)
Context (gentle : Prop).

Definition aborts (f : fx) : Prop := lambdas f = l_abort.

(** The lambda that aborts is pended by [OnStop] alone. *)
Definition op_ok (o : pool_op) : Prop := match o with po_submit f | po_null_submit f => ¬ aborts f | _ => True end.
Definition lambda_ok (l : lambda) : Prop := match l with l_abort => True | l_client calls throws => Forall op_ok calls ∧ (gentle → throws = false) end.
Definition lambdas_ok : Prop := aborts abort_fx ∧ ∀ f, lambda_ok (lambdas f).
Definition programs_ok (programs : list (list pool_op)) : Prop := Forall (Forall op_ok) programs.

Context (ok : lambdas_ok).

(** ** Counts of steps *)
Definition works (i : instr) : bool := match i with i_worker | i_leave => true | _ => false end.
Definition increments (i : instr) : bool := match i with i_increment => true | _ => false end.
Definition leaves (i : instr) : bool := match i with i_leave => true | _ => false end.
Definition aborting (i : instr) : bool := match i with i_abort => true | _ => false end.
Definition finishing (c : list instr) : list addr := omap (λ i, match i with i_finish t => Some t | _ => None end) c.

(** [c]: the steps all threads have yet to take. *)
Record inv (c : list instr) (fs : list fx) (o : bool) (w : pool) : Prop := {
  v_queue : eq_holds (finishing c) [] fs o (m_toBeDone w);
  v_count : m_outstanding w = sz_wrap (Z.of_nat (cnt works c) - Z.of_nat (cnt increments c));
  v_order : if o then accepted w = called w ++ fs else fs = [] ∧ called w `prefix_of` accepted w;
  v_only : ∀ f, f ∈ accepted w → aborts f → f = abort_fx;
  v_dispatchers : Forall (λ f, ¬ aborts f) (m_dispatchers w);
  v_abort : o = false ∨ cnt aborting c ≠ 0 → abort_fx ∈ called w;
  v_leave : gentle → o = true → cnt leaves c = 0;
  v_started : gentle → o = true → IsStarted w = true → cnt works c ≠ 0 }.

Lemma pool_inv_perm c c' fs o w : c ≡ₚ c' → inv c fs o w → inv c' fs o w.
Proof.
  intros Hp []. split; rewrite <-?(cnt_perm _ _ _ Hp); try done. eapply eq_calling_perm; [|done]. unfold finishing. by rewrite Hp.
Qed.

(** ** The code of threads *)
(** Steps of a thread that does not hold the lock. *)
Definition plain_step (i : instr) : Prop :=
  match i with
  | i_on_start | i_grow _ | i_add_worker | i_increment | i_token | i_unlock => False
  | i_submit f | i_null_submit f => ¬ aborts f
  | _ => True
  end.
Abbreviation plain := (Forall plain_step).

(** [F]: what holds when [Start] makes its token. *)
Definition ending (F : Prop) (l : list instr) : Prop := ∃ rest, plain rest ∧ (l = i_token :: rest ∧ F ∨ l = i_unlock :: rest).
Definition growing (l : list instr) : Prop := ∃ n l', l = i_grow n :: l' ∧ ending (0 < n) l'.

Inductive holding (F : Prop) : list instr → Prop :=
  | holding_end l : ending F l → holding F l
  | holding_start l : ending True l → holding F (i_on_start :: l)
  | holding_grow l : growing l → holding F l
  | holding_add l : growing l ∨ ending False l → holding F (i_add_worker :: l)
  | holding_inc l : growing l ∨ ending False l → holding F (i_increment :: l).

(** [h]: the thread that holds the lock. *)
Definition code_fits (F : Prop) (h : option nat) (n : nat) (l : list instr) : Prop := if decide (h = Some n) then holding F l else plain l.

Definition codes (w : pool) : list (list instr) := map code (threads w).

Record locks_ok (F : Prop) (h : option nat) (w : pool) : Prop := {
  l_lock : m_lock w = bool_decide (is_Some h);
  l_holder : ∀ n, h = Some n → is_Some (threads w !! n);
  l_code : ∀ n t, threads w !! n = Some t → code_fits F h n (code t) }.

Lemma ending_weaken (F F' : Prop) l : (F → F') → ending F l → ending F' l.
Proof. intros HF (rest & ? & [[? ?]|?]); exists rest; naive_solver. Qed.

Lemma holding_weaken (F F' : Prop) l : (F → F') → holding F l → holding F' l.
Proof. intros HF []; [apply holding_end; by eapply ending_weaken|by apply holding_start|by apply holding_grow|by apply holding_add|by apply holding_inc]. Qed.

(** What is known when [Start] makes its token. *)
Definition has_worker (c : list instr) (o : bool) : Prop := gentle → o = true → cnt works c ≠ 0.

Lemma plain_no_increment l : plain l → cnt increments l = 0.
Proof. intros Hl. apply cnt_none. intros i Hi. rewrite Forall_forall in Hl. specialize (Hl i Hi). by destruct i. Qed.

Lemma ending_no_increment F l : ending F l → cnt increments l = 0.
Proof. intros (rest & Hr%plain_no_increment & [[-> _]| ->]); by rewrite cnt_cons. Qed.

Lemma growing_no_increment l : growing l → cnt increments l = 0.
Proof. intros (n & l' & -> & Hl%ending_no_increment). by rewrite cnt_cons. Qed.

Lemma holding_increments F i l : holding F (i :: l) → cnt increments l = 0.
Proof.
  assert (∀ F' j l', ending F' (j :: l') → cnt increments l' = 0) as He.
  { intros F' j l' (rest & Hr%plain_no_increment & [[[= -> ->] _]|[= -> ->]]); done. }
  inversion 1 as [l0 He'|l0 He'|l0 Hg|l0 He'|l0 He']; subst.
  - by eapply He.
  - by eapply ending_no_increment.
  - destruct Hg as (n & l' & [= -> ->] & Hl). by eapply ending_no_increment.
  - destruct He' as [?%growing_no_increment|?%ending_no_increment]; done.
  - destruct He' as [?%growing_no_increment|?%ending_no_increment]; done.
Qed.

(** ** Steps *)
Lemma pool_queue_run {A} (m : M Q A) r q (w : pool) : m (m_toBeDone w) = (r, q) → on_queue m w = (r, set_queue q w).
Proof. intros E. unfold on_queue. by rewrite E. Qed.

Lemma started_tokens (w w' : pool) : map tokens (threads w') = map tokens (threads w) → IsStarted w' = IsStarted w.
Proof.
  unfold IsStarted. generalize (threads w). induction (threads w') as [|t l IH]; intros [|t' l']; try done. cbn. intros [= -> E]. by rewrite (IH _ E).
Qed.

Lemma started_spec (w : pool) : IsStarted w = true ↔ ∃ n t, threads w !! n = Some t ∧ tokens t ≠ 0.
Proof.
  unfold IsStarted. rewrite existsb_exists. split.
  - intros (t & [n Hn]%list_elem_of_In%list_elem_of_lookup & Ht%bool_decide_eq_true). by exists n, t.
  - intros (n & t & Hn & Ht). exists t. split; [by apply list_elem_of_In, (list_elem_of_lookup_2 _ n)|by apply bool_decide_eq_true].
Qed.

(** Steps that matter to none of the counts. *)
Definition neutral (i : instr) : Prop := works i = false ∧ increments i = false ∧ aborting i = false ∧ ∀ t, i ≠ i_finish t.

Lemma inv_drop i c fs o w : neutral i → inv (i :: c) fs o w ↔ inv c fs o w.
Proof.
  intros (N1 & N2 & N4 & N5). assert (leaves i = false) as N3 by (by destruct i).
  assert (finishing (i :: c) = finishing c) as Ef by (unfold finishing; destruct i; try done; by destruct (N5 thunk)).
  split; intros [V1 V2 V3 V4 V5 V6 V7 V8]; rewrite ?cnt_cons, ?N1, ?N2, ?N3, ?N4, ?Ef in *; split; rewrite ?cnt_cons, ?N1, ?N2, ?N3, ?N4, ?Ef; done.
Qed.

Lemma inv_app l c fs o w : Forall neutral l → inv c fs o w → inv (l ++ c) fs o w.
Proof. induction 1 as [|i l Hi Hl IH]; [done|]. intros HI. cbn. apply inv_drop; auto. Qed.

Lemma neutral_ops ops : Forall neutral (map instr_of ops).
Proof. apply Forall_forall. by intros i (o & -> & _)%list_elem_of_fmap; destruct o. Qed.

(** The queue refuses or takes a lambda. *)
Lemma add_existing_ok f c fs o w : inv c fs o w → (aborts f → f = abort_fx) →
  ∃ fs' w', add_existing f w = (Ret tt, w') ∧ inv c fs' o w' ∧ threads w' = threads w ∧ m_lock w' = m_lock w ∧ (o = false → accepted w' = accepted w ∧ called w' = called w).
Proof.
  intros [V1 V2 V3 V4 V5 V6 V7 V8] Hf. destruct (eq_pend_holds _ _ _ _ _ f V1) as (b & q & E & Hq & Hb).
  unfold add_existing. rewrite (bind_Ret _ _ _ _ _ (pool_queue_run _ _ _ _ E)). exists (if b then fs ++ [f] else fs). destruct b.
  - assert (o = true) as -> by (destruct o; [done|by specialize (Hb eq_refl)]). eexists. split_and!; [done| |done..].
    split; cbn; try done.
    + by rewrite V3, app_assoc.
    + intros f' [?| ->%list_elem_of_singleton]%elem_of_app; auto.
  - eexists. split_and!; [done| |done..]. by split.
Qed.

(** When a step has to wait. *)
Definition waits_at (i : instr) (fs : list fx) (o : bool) (w : pool) : Prop :=
  match i with
  | i_start | i_submitted | i_suggest _ => m_lock w = true
  | i_worker => fs = [] ∧ o = true
  | _ => False
  end.

(** The code of the thread that a step makes. *)
Definition made (i : instr) : list (list instr) := match i with i_add_worker => [[i_worker]] | _ => [] end.

Definition goes_on (n : nat) (i : instr) (c : list instr) (fs : list fx) (o : bool) (w : pool) : Prop :=
  match exec n i w with
  | (Ret l, w') => ∃ fs' o', inv (l ++ concat (made i) ++ c) fs' o' w' ∧ codes w' = codes w ++ made i ∧
      (has_worker (i :: c) o → has_worker (l ++ concat (made i) ++ c) o') ∧
      (o = false → o' = false ∧ accepted w' = accepted w ∧ called w' = called w)
  | (Stuck blocked, _) => waits_at i fs o w
  | _ => False
  end.

Lemma inv_frame c fs o w w' : inv c fs o w → m_toBeDone w' = m_toBeDone w → m_outstanding w' = m_outstanding w → accepted w' = accepted w → called w' = called w →
  Forall (λ f, ¬ aborts f) (m_dispatchers w') → (IsStarted w' = true → IsStarted w = true ∨ has_worker c o) → inv c fs o w'.
Proof.
  intros [V1 V2 V3 V4 V5 V6 V7 V8] E1 E2 E3 E4 Hd Hs. split; rewrite ?E1, ?E2, ?E3, ?E4; try done. intros G Ho Hst. destruct (Hs Hst) as [?|Hw]; auto.
Qed.

(** Steps that only go on. *)
Lemma goes_neutral n i l c fs o w w' : exec n i w = (Ret l, w') → neutral i → Forall neutral l → made i = [] → inv (i :: c) fs o w → codes w' = codes w →
  m_toBeDone w' = m_toBeDone w → m_outstanding w' = m_outstanding w → accepted w' = accepted w → called w' = called w →
  Forall (λ f, ¬ aborts f) (m_dispatchers w') → (IsStarted w' = true → IsStarted w = true ∨ has_worker c o) → goes_on n i c fs o w.
Proof.
  intros E Hi Hl Hm HI Hc E1 E2 E3 E4 Hd Hs. unfold goes_on. rewrite E, Hm. cbn. exists fs, o. apply inv_drop in HI; [|done]. split_and!; try done.
  - apply inv_app; [done|]. by eapply inv_frame.
  - by rewrite app_nil_r.
  - destruct Hi as (N & _). unfold has_worker. rewrite cnt_cons, cnt_app, N. intros Hw G Ho. specialize (Hw G Ho). lia.
Qed.

(** Steps of the queue. *)
Lemma goes_submit n f c fs o w : plain_step (i_submit f) → inv (i_submit f :: c) fs o w → goes_on n (i_submit f) c fs o w.
Proof.
  intros Hf HI. apply inv_drop in HI; [|done]. destruct (add_existing_ok f c fs o w HI ltac:(by intros ?%Hf)) as (fs' & w' & E & HI' & Et & El & Ha).
  unfold goes_on. cbn [ThreadPool.exec]. rewrite (bind_Ret _ _ _ _ _ E). cbn. exists fs', o. split_and!; [by apply inv_drop|by rewrite app_nil_r; unfold codes; rewrite Et|by unfold has_worker; rewrite !cnt_cons|].
  intros Ho. by destruct (Ha Ho).
Qed.

Lemma goes_on_stop n c fs o w : inv (i_on_stop :: c) fs o w → goes_on n i_on_stop c fs o w.
Proof.
  intros HI. apply inv_drop in HI; [|done]. destruct (add_existing_ok abort_fx c fs o w HI ltac:(done)) as (fs' & w' & E & HI' & Et & El & Ha).
  unfold goes_on. cbn [ThreadPool.exec]. rewrite (bind_Ret _ _ _ _ _ E). cbn. exists fs', o. split_and!; [done|by rewrite app_nil_r; unfold codes; rewrite Et|by unfold has_worker; rewrite !cnt_cons|].
  intros Ho. by destruct (Ha Ho).
Qed.

Lemma goes_abort n c fs o w : inv (i_abort :: c) fs o w → goes_on n i_abort c fs o w.
Proof.
  intros [V1 V2 V3 V4 V5 V6 V7 V8]. destruct (eq_abort_holds _ _ _ _ _ V1) as (q & E & Hq).
  unfold goes_on. cbn [ThreadPool.exec]. rewrite (bind_Ret _ _ _ _ _ (pool_queue_run _ _ _ _ E)). cbn. exists [], false.
  rewrite !cnt_cons in *. cbn in *. assert (abort_fx ∈ called w) as Ha by (apply V6; right; lia).
  split_and!; [|by rewrite app_nil_r|by intros ? ? ?|done]. split; cbn; try done. split; [done|]. destruct o; [rewrite V3; by apply prefix_app_r|by destruct V3].
Qed.

Lemma goes_finish n t c fs o w : inv (i_finish t :: c) fs o w → goes_on n (i_finish t) c fs o w.
Proof.
  intros [V1 V2 V3 V4 V5 V6 V7 V8]. destruct (eq_finish_holds _ _ _ _ _ _ V1) as (q & E & Hq).
  unfold goes_on. cbn [ThreadPool.exec]. rewrite (bind_Ret _ _ _ _ _ (pool_queue_run _ _ _ _ E)). cbn. exists fs, o.
  rewrite !cnt_cons in *. cbn in *. split_and!; [|by rewrite app_nil_r|done|done]. by split.
Qed.

Lemma call_facts f t : finishing (call lambdas f t) = [t] ∧ cnt works (call lambdas f t) = 1 ∧ cnt increments (call lambdas f t) = 0 ∧
  (cnt aborting (call lambdas f t) ≠ 0 → aborts f) ∧ (gentle → cnt leaves (call lambdas f t) = 0).
Proof.
  pose proof (proj2 ok f) as Hok. unfold call, aborts. destruct (lambdas f) as [calls throws|]; [|by rewrite !cnt_cons].
  destruct Hok as [_ Ht]. assert (∀ P, (∀ x, P (instr_of x) = false) → cnt P (map instr_of calls) = 0) as Hz.
  { intros P HP. apply cnt_none. intros i (x & -> & _)%list_elem_of_fmap. apply HP. }
  assert (finishing (map instr_of calls) = []) as Ef by (clear; induction calls as [|[]]; done).
  rewrite !cnt_app, !Hz by (by intros []). unfold finishing in *. rewrite omap_app, Ef, !cnt_cons, !cnt_nil. destruct throws; cbn; split_and!; try done.
  intros G. by specialize (Ht G).
Qed.

Lemma goes_worker n c fs o w : inv (i_worker :: c) fs o w → goes_on n i_worker c fs o w.
Proof.
  intros [V1 V2 V3 V4 V5 V6 V7 V8]. unfold goes_on. cbn [ThreadPool.exec]. unfold WaitForEvent. rewrite (bind_Ret _ _ _ w w) by done.
  rewrite !cnt_cons in *. cbn in *. rewrite (eq_aborted_holds _ _ _ _ _ V1). destruct o; cbn.
  - destruct fs as [|f fs].
    + destruct (eq_take_empty _ _ _ _ V1) as (q & E & Hq). by rewrite (bind_Ret _ _ _ _ _ (pool_queue_run _ _ _ _ E)).
    + destruct (eq_take_first _ _ _ _ _ _ V1) as (t & q & E & Hq). rewrite (bind_Ret _ _ _ _ _ (pool_queue_run _ _ _ _ E)). cbn. exists fs, true.
      destruct (call_facts f t) as (C1 & C2 & C3 & C4 & C5).
      split_and!; [|by rewrite app_nil_r|by unfold has_worker; rewrite cnt_app, C2, cnt_cons; cbn|done].
      split; cbn; rewrite ?cnt_app, ?C2, ?C3; try done.
      * unfold finishing in *. by rewrite omap_app, C1.
      * by rewrite <-app_assoc.
      * intros [?|Hx]; [done|]. apply elem_of_app. destruct (decide (cnt aborting (call lambdas f t) = 0)); [left; apply V6; right; lia|right].
        apply list_elem_of_singleton. symmetry. apply V4; [|by apply C4]. rewrite V3. apply elem_of_app. right. left.
      * intros G. rewrite C5 by done. by apply V7.
  - exists fs, false. split_and!; [|by rewrite app_nil_r|by intros ? ? ?|done]. split; cbn; rewrite ?cnt_cons; cbn; done.
Qed.

Lemma sz_wrap_shift a b : sz_wrap (sz_wrap a + b) = sz_wrap (a + b).
Proof. unfold sz_wrap. by rewrite Zplus_mod_idemp_l. Qed.

Lemma goes_leave n c fs o w : inv (i_leave :: c) fs o w → goes_on n i_leave c fs o w.
Proof.
  intros [V1 V2 V3 V4 V5 V6 V7 V8]. unfold goes_on. cbn. exists fs, o. rewrite !cnt_cons in *. cbn in *.
  assert (gentle → o = true → False) as Hg by (intros G Ho; specialize (V7 G Ho); lia).
  split_and!; [|by rewrite app_nil_r|by intros _ G Ho; destruct (Hg G Ho)|done]. split; cbn; try done; try (by intros G Ho; destruct (Hg G Ho)).
  rewrite V2. unfold sz_dec, sz_sub. rewrite <-Z.add_opp_r, sz_wrap_shift. f_equal. lia.
Qed.

Lemma goes_increment n c fs o w : inv (i_increment :: c) fs o w → goes_on n i_increment c fs o w.
Proof.
  intros [V1 V2 V3 V4 V5 V6 V7 V8]. unfold goes_on. cbn. exists fs, o. unfold has_worker. rewrite !cnt_cons in *. cbn in *.
  split_and!; [|by rewrite app_nil_r|done|done]. split; cbn; try done.
  rewrite V2. unfold sz_inc, sz_add. rewrite sz_wrap_shift. f_equal. lia.
Qed.

Lemma started_more (w : pool) : IsStarted (set_threads (threads w ++ [mkThread [i_worker] 0]) w) = IsStarted w.
Proof. unfold IsStarted. cbn. rewrite existsb_app. cbn. by rewrite orb_false_r. Qed.

Lemma goes_add_worker n c fs o w : inv (i_add_worker :: c) fs o w → goes_on n i_add_worker c fs o w.
Proof.
  intros [V1 V2 V3 V4 V5 V6 V7 V8]. unfold goes_on. cbn. exists fs, o. unfold has_worker. cbn [app concat made]. rewrite !cnt_cons in *. cbn in *.
  split_and!; [|unfold codes; cbn; by rewrite map_app|by intros; lia|done]. split; cbn; rewrite ?cnt_cons; cbn; try done.
  rewrite V2. f_equal. lia.
Qed.

(** Steps about tokens. *)
Lemma codes_alter n (f : pool_thread → pool_thread) (l : list pool_thread) : (∀ t, code (f t) = code t) → map code (alter f n l) = map code l.
Proof.
  intros Hf. revert n. induction l as [|t l IH]; intros [|n]; cbn; [done..| |by rewrite IH]. by rewrite Hf.
Qed.

Lemma this_run n t (w : pool) : threads w !! n = Some t → this n w = (Ret t, w).
Proof. intros Hn. unfold this. munfold. by rewrite Hn. Qed.

Lemma goes_token n t c fs o w : threads w !! n = Some t → has_worker c o → inv (i_token :: c) fs o w → goes_on n i_token c fs o w.
Proof.
  intros Hn Hf HI. set (w1 := set_lock false (set_threads (alter (λ u, mkThread (code u) (S (tokens t))) n (threads w)) w)).
  assert (exec n i_token w = (Ret [], w1)) as E by (cbn [ThreadPool.exec]; unfold token; by rewrite bind_assoc, (bind_Ret _ _ _ _ _ (this_run _ _ _ Hn))).
  apply (goes_neutral _ _ _ _ _ _ _ _ E); try done; [by apply codes_alter|apply HI|by right].
Qed.

Lemma started_fewer n t k (w w' : pool) : threads w !! n = Some t → tokens t = S k → threads w' = alter (λ t, mkThread (code t) k) n (threads w) → IsStarted w' = true → IsStarted w = true.
Proof.
  intros Hn Ht E. rewrite !started_spec, E. intros (m & u & Hm & Hu). destruct (decide (m = n)) as [-> |Hne].
  - exists n, t. split; [done|congruence].
  - rewrite list_lookup_alter_ne in Hm by done. by exists m, u.
Qed.

Lemma goes_release n t c fs o w : threads w !! n = Some t → inv (i_release :: c) fs o w → goes_on n i_release c fs o w.
Proof.
  intros Hn HI. destruct (tokens t) as [|k] eqn:Ht.
  - assert (exec n i_release w = (Ret [], w)) as E by (cbn [ThreadPool.exec]; unfold release; by rewrite (bind_Ret _ _ _ _ _ (this_run _ _ _ Hn)), Ht).
    apply (goes_neutral _ _ _ _ _ _ _ _ E); try done; [apply HI|by left].
  - set (w1 := set_threads (alter (λ u, mkThread (code u) k) n (threads w)) w).
    assert (exec n i_release w = (Ret (if IsStarted w1 then [] else [i_on_stop]), w1)) as E by (cbn [ThreadPool.exec]; unfold release; by rewrite (bind_Ret _ _ _ _ _ (this_run _ _ _ Hn)), Ht).
    apply (goes_neutral _ _ _ _ _ _ _ _ E); try done; [destruct (IsStarted w1); repeat constructor; done|by apply codes_alter|apply HI|].
    intros Hs. left. by apply (started_fewer n t k w w1).
Qed.

(** What the other steps do. *)
Definition lock_step (i : instr) (w : pool) : option (list instr) :=
  match i with
  | i_start => Some (if IsStarted w then [i_token] else [i_on_start; i_token])
  | i_submitted => Some (if bool_decide (m_outstanding w = 0%Z) && IsStarted w then [i_add_worker; i_unlock] else [i_unlock])
  | i_suggest nThreads => Some [i_grow nThreads; i_unlock]
  | _ => None
  end.

Lemma exec_lock_step n i w l : lock_step i w = Some l → exec n i w = if m_lock w then (Stuck blocked, w) else (Ret l, set_lock true w).
Proof.
  assert (IsStarted (set_lock true w) = IsStarted w) as Hs by done.
  destruct i; try done; intros [= <-]; cbn [ThreadPool.exec]; unfold Start, submitted, SuggestThreadPoolSize, lock; munfold; destruct (m_lock w); cbn; rewrite ?Hs; try done.
  unfold IsStarted. by destruct (existsb _ _).
Qed.

Lemma goes_lock n i l c fs o w : lock_step i w = Some l → inv (i :: c) fs o w → goes_on n i c fs o w.
Proof.
  intros Hi HI. pose proof (exec_lock_step n _ _ _ Hi) as E. destruct (m_lock w) eqn:El.
  - unfold goes_on. rewrite E. by destruct i.
  - assert (neutral i) as Hn by (by destruct i). assert (made i = []) as Hm by (by destruct i).
    assert (Forall neutral l) as Hl by (destruct i; try done; cbn in Hi; repeat case_match; simplify_eq; repeat (apply Forall_cons; split; [done|]); done).
    apply (goes_neutral _ _ _ _ _ _ _ _ E); try done; [apply HI|by left].
Qed.

Lemma goes_neutral_same n i l c fs o w : exec n i w = (Ret l, w) → neutral i → Forall neutral l → made i = [] → inv (i :: c) fs o w → goes_on n i c fs o w.
Proof. intros E Hi Hl Hm HI. apply (goes_neutral _ _ _ _ _ _ _ _ E); try done; [apply HI|by left]. Qed.

Lemma goes_null n i c fs o w : (∃ f, i = i_null_submit f ∧ ¬ aborts f) ∨ i = i_null_move → inv (i :: c) fs o w → goes_on n i c fs o w.
Proof.
  intros Hi HI. pose proof (v_dispatchers _ _ _ _ HI) as Hd. destruct Hi as [(f & -> & Hf)| ->].
  - by apply (goes_neutral _ _ [] _ _ _ _ (set_null (m_dispatchers w ++ [f]) (m_successor w) w)); try done; [apply Forall_app; split; [|apply Forall_singleton]|left].
  - destruct (m_successor w) eqn:Es.
    + assert (exec n i_null_move w = (Ret (flat_map (λ f, [i_submit f; i_submitted]) (m_dispatchers w)), set_null [] false w)) as E
        by (cbn [ThreadPool.exec]; unfold MoveDispatchersToSuccessor; munfold; by rewrite Es).
      apply (goes_neutral _ _ _ _ _ _ _ _ E); try done; [|by left]. clear. induction (m_dispatchers w); repeat (apply Forall_cons; split; [done|]); done.
    + apply (goes_neutral_same _ _ []); try done. cbn [ThreadPool.exec]. unfold MoveDispatchersToSuccessor. munfold. by rewrite Es.
Qed.

(** Any step. *)
Lemma exec_ok n i t c fs o w : threads w !! n = Some t → inv (i :: c) fs o w → (plain_step i ∨ ∀ f, i ≠ i_submit f ∧ i ≠ i_null_submit f) → (i = i_token → has_worker c o) → goes_on n i c fs o w.
Proof.
  intros Hn HI Hi Ht. pose proof (v_dispatchers _ _ _ _ HI) as Hd.
  destruct i; try (by eapply goes_token; auto); try (by eapply goes_release); auto using goes_add_worker, goes_increment, goes_on_stop, goes_worker, goes_abort, goes_finish, goes_leave.
  - by eapply goes_lock.
  - apply (goes_neutral_same _ _ (if bool_decide (m_outstanding w = 0%Z) then [i_grow 2] else [])); try done. by destruct (bool_decide _); [apply Forall_singleton|].
  - apply (goes_neutral_same _ _ (if bool_decide (m_outstanding w < Z.of_nat nThreads)%Z then [i_add_worker; i_grow nThreads] else [])); try done.
    by destruct (bool_decide _); [repeat (apply Forall_cons; split; [done|])|].
  - apply (goes_neutral _ _ [] _ _ _ _ (set_lock false w)); try done. by left.
  - destruct Hi as [Hi|Hi]; [by apply goes_submit|by destruct (Hi f)].
  - by eapply goes_lock.
  - by eapply goes_lock.
  - destruct Hi as [Hi|Hi]; [|by destruct (Hi f)]. apply goes_null; eauto.
  - apply goes_null; auto.
Qed.

(** ** The lock *)
Lemma call_plain f t : plain (call lambdas f t).
Proof.
  pose proof (proj2 ok f) as Hok. unfold call. destruct (lambdas f) as [calls throws|]; [|by repeat constructor]. destruct Hok as [Hc _].
  apply Forall_app. split; [|by destruct throws; repeat constructor]. induction Hc as [|x calls Hx Hc IH]; [done|]. cbn. apply Forall_cons. split; [|done]. by destruct x.
Qed.

Lemma on_queue_lock {A} (m : M Q A) (w w' : pool) r : on_queue m w = (r, w') → m_lock w' = m_lock w.
Proof. unfold on_queue. destruct (m (m_toBeDone w)). by intros [= _ <-]. Qed.

Lemma exec_plain n i w l w' : plain_step i → lock_step i w = None → Forall (λ f, ¬ aborts f) (m_dispatchers w) → exec n i w = (Ret l, w') → plain l ∧ m_lock w' = m_lock w.
Proof.
  intros Hi Hn Hd. destruct (threads w !! n) as [t|] eqn:Ht. all: destruct i; try done; cbn [ThreadPool.exec];
    unfold release, add_existing, NullPool_Submit, MoveDispatchersToSuccessor, WaitForEvent, this, set_tokens, accept, record_call, when, on_queue; munfold; rewrite ?Ht; munfold; intros E; simplify_eq/=;
    repeat (case_match; simplify_eq/=); try (split; [by repeat constructor|done]); (split; [|done]); try apply call_plain.
  all: induction Hd as [|f fs Hf Hd IH]; [done|]; cbn; by repeat (apply Forall_cons; split; [done|]).
Qed.

(** What is known where [Start] and [OnStartUnsafe] look. *)
Definition looks (F : Prop) (i : instr) (w : pool) : Prop :=
  match i with
  | i_start => IsStarted w = true → F
  | i_on_start => m_outstanding w ≠ 0%Z → F
  | i_grow nThreads => 0 < nThreads → ¬ (m_outstanding w < Z.of_nat nThreads)%Z → F
  | _ => True
  end.

Definition lock_moves (F : Prop) (h : option nat) (n : nat) (l : list instr) (w : pool) : Prop :=
  ∃ h', m_lock w = bool_decide (is_Some h') ∧ code_fits F h' n l ∧ ∀ m, m ≠ n → h' = Some m ↔ h = Some m.

Lemma lock_taken (F : Prop) i rest l w : lock_step i w = Some l → plain rest → looks F i w → holding F (l ++ rest).
Proof.
  intros Hl Hr Hf. destruct i; try done; cbn in Hl, Hf.
  - destruct (IsStarted w) eqn:Es; injection Hl as <-.
    + apply holding_end. exists rest. auto.
    + apply holding_start. exists rest. auto.
  - destruct (_ && _); injection Hl as <-.
    + apply holding_add. right. exists rest. auto.
    + apply holding_end. exists rest. auto.
  - injection Hl as <-. apply holding_grow. exists nThreads, (i_unlock :: rest). split; [done|]. exists rest. auto.
Qed.

Lemma exec_lock_free F h n i rest l w w' : h ≠ Some n → plain (i :: rest) → m_lock w = bool_decide (is_Some h) → Forall (λ f, ¬ aborts f) (m_dispatchers w) →
  looks F i w → exec n i w = (Ret l, w') → lock_moves F h n (l ++ rest) w'.
Proof.
  intros Hh [Hi Hr]%Forall_cons Hl Hd Hf E. destruct (lock_step i w) as [l'|] eqn:Hs.
  - rewrite (exec_lock_step n _ _ _ Hs) in E. destruct (m_lock w) eqn:Em; [done|]. injection E as <- <-. symmetry in Hl. apply bool_decide_eq_false in Hl.
    assert (h = None) as -> by (destruct h; [destruct Hl; by eexists|done]). exists (Some n). split_and!; [done| |].
    + unfold code_fits. rewrite decide_True by done. by eapply lock_taken.
    + intros m ?. split; congruence.
  - destruct (exec_plain _ _ _ _ _ Hi Hs Hd E) as [Hp Hm]. exists h. split_and!; [congruence| |done]. unfold code_fits. rewrite decide_False by done. by apply Forall_app.
Qed.

Lemma exec_lock_held F n i rest l w w' : holding F (i :: rest) → m_lock w = true → looks F i w → exec n i w = (Ret l, w') → is_Some (threads w !! n) → lock_moves F (Some n) n (l ++ rest) w'.
Proof.
  intros Hh Hm Hf E [t Hn]. 
  assert (∀ l', m_lock w' = true → holding F l' → lock_moves F (Some n) n l' w') as Hheld.
  { intros l' Hm' Hl'. exists (Some n). split_and!; [done|unfold code_fits; by rewrite decide_True|done]. }
  assert (∀ l', m_lock w' = false → plain l' → lock_moves F (Some n) n l' w') as Hfree.
  { intros l' Hm' Hl'. exists None. split_and!; [done|unfold code_fits; by rewrite decide_False|]. intros m ?. split; congruence. }
  assert (∀ l', growing l' ∨ ending False l' → holding F l') as Hnext.
  { intros l' [?|?]; [by apply holding_grow|apply holding_end; by eapply ending_weaken; [|done]]. }
  inversion Hh as [l0 He|l0 He|l0 Hg|l0 He|l0 He]; subst.
  - destruct He as (r & Hr & [[[= -> ->] HF]|[= -> ->]]); cbn [ThreadPool.exec] in E.
    + unfold token in E. rewrite bind_assoc, (bind_Ret _ _ _ _ _ (this_run _ _ _ Hn)) in E. injection E as <- <-. by apply Hfree.
    + injection E as <- <-. by apply Hfree.
  - cbn in E. injection E as <- <-. apply Hheld; [done|]. destruct (bool_decide_reflect (m_outstanding w = 0%Z)) as [H1|H1]; cbn.
    + apply holding_grow. exists 2, rest. split; [done|]. eapply ending_weaken; [|done]. lia.
    + apply holding_end. eapply ending_weaken; [|done]. auto.
  - destruct Hg as (k & l' & [= -> ->] & He). cbn in E. injection E as <- <-. apply Hheld; [done|]. case_bool_decide as Hk; cbn.
    + apply holding_add. left. by exists k, l'.
    + apply holding_end. eapply ending_weaken; [|done]. auto.
  - cbn in E. injection E as <- <-. apply Hheld; [done|]. by apply holding_inc.
  - cbn in E. injection E as <- <-. apply Hheld; [done|]. by apply Hnext.
Qed.

(** ** Steps of any thread *)
Definition steps_left (w : pool) : list instr := concat (codes w).
Definition pool_inv (h : option nat) (fs : list fx) (o : bool) (w : pool) : Prop :=
  inv (steps_left w) fs o w ∧ locks_ok (has_worker (steps_left w) o) h w.

Lemma pool_inv_threads c fs o w x : map tokens x = map tokens (threads w) → inv c fs o w → inv c fs o (set_threads x w).
Proof. intros Ht HI. eapply inv_frame; [exact HI|done..|apply HI|]. rewrite (started_tokens (set_threads x w) w) by done. by left. Qed.

Lemma tokens_alter n (f : pool_thread → pool_thread) (l : list pool_thread) : (∀ t, tokens (f t) = tokens t) → map tokens (alter f n l) = map tokens l.
Proof. intros Hf. revert n. induction l as [|t l IH]; intros [|n]; cbn; [done..| |by rewrite IH]. by rewrite Hf. Qed.

Lemma codes_next n l' (l : list pool_thread) : map code (alter (λ t, mkThread l' (tokens t)) n l) = <[n := l']> (map code l).
Proof. revert n. induction l as [|t l IH]; intros [|n]; cbn; [done..|]. by rewrite IH. Qed.

Lemma codes_lookup n (w : pool) l : codes w !! n = Some l → ∃ t, threads w !! n = Some t ∧ code t = l.
Proof. unfold codes. intros (t & -> & Ht)%list_lookup_fmap_Some. by exists t. Qed.

(** The thread that holds the lock has no increment before it, or takes that step. *)
Lemma no_increments F h n i rest w c : locks_ok F h w → codes w !! n = Some (i :: rest) → steps_left w ≡ₚ i :: rest ++ c →
  holding F (i :: rest) → h = Some n → increments i = false → cnt increments (steps_left w) = 0.
Proof.
  intros [_ _ Hl] Hn Hp Hh -> Hi. apply cnt_none. intros j (l & Hl' & Hj)%list_elem_of_In%List.in_concat.
  apply list_elem_of_In, list_elem_of_lookup in Hl' as [m Hm]. apply list_elem_of_In in Hj. destruct (increments j) eqn:Ej; [|done].
  destruct (codes_lookup _ _ _ Hm) as (t & Ht & <-). specialize (Hl _ _ Ht). unfold code_fits in Hl. case_decide as Hd.
  - injection Hd as <-. rewrite Hm in Hn. injection Hn as Hn. rewrite Hn in Hj. apply elem_of_cons in Hj as [-> |Hj]; [congruence|].
    destruct (cnt_elem increments j rest Hj Ej). by eapply holding_increments.
  - rewrite Forall_forall in Hl. specialize (Hl _ Hj). by destruct j.
Qed.

(** A worker is counted before the lock is given back. *)
Lemma unlocked_counted F h w : locks_ok F h w → m_lock w = false → cnt increments (steps_left w) = 0.
Proof.
  intros [Hm _ Hl] Hf. rewrite Hf in Hm. symmetry in Hm. apply bool_decide_eq_false in Hm. apply cnt_none. intros j (l & Hl' & Hj)%list_elem_of_In%List.in_concat.
  apply list_elem_of_In, list_elem_of_lookup in Hl' as [m Hc]. apply list_elem_of_In in Hj. destruct (codes_lookup _ _ _ Hc) as (t & Ht & <-).
  specialize (Hl _ _ Ht). unfold code_fits in Hl. case_decide as Hd; [destruct Hm; by rewrite Hd|]. rewrite Forall_forall in Hl. specialize (Hl _ Hj). by destruct j.
Qed.

Lemma holding_looks h n i rest w fs o c : pool_inv h fs o w → codes w !! n = Some (i :: rest) → steps_left w ≡ₚ i :: rest ++ c →
  looks (has_worker (steps_left w) o) i w.
Proof.
  intros [HI Hl] Hn Hp. pose proof (codes_lookup _ _ _ Hn) as (t & Ht & Hc). pose proof (l_code _ _ _ Hl _ _ Ht) as Hf. rewrite Hc in Hf.
  assert ((i = i_on_start ∨ ∃ k, i = i_grow k) → m_outstanding w ≠ 0%Z → has_worker (steps_left w) o) as Hw.
  { intros Hi Hout G Ho Hz. unfold code_fits in Hf. case_decide as Hd; [|apply Forall_cons in Hf as [Hx _]; by destruct Hi as [-> |[k ->]]].
    assert (cnt increments (steps_left w) = 0) as Hz'. { eapply no_increments; try done. by destruct Hi as [-> |[k ->]]. }
    apply Hout. by rewrite (v_count _ _ _ _ HI), Hz, Hz'. }
  destruct i; try done; cbn.
  - intros Hs G Ho. by apply (v_started _ _ _ _ HI).
  - intros Hout. apply Hw; auto.
  - intros Hk Hlt. apply Hw; [right; by eexists|]. lia.
Qed.

Lemma holding_head F i rest : holding F (i :: rest) → (∀ f, i ≠ i_submit f ∧ i ≠ i_null_submit f) ∧ (i = i_token → F).
Proof.
  inversion 1 as [l0 He|l0 He|l0 Hg|l0 He|l0 He]; subst; try done.
  - by destruct He as (r & _ & [[[= -> ->] ?]|[= -> ->]]).
  - by destruct Hg as (k & l' & [= -> ->] & _).
Qed.

(** What other threads have before them stays as it is. *)
Lemma locks_step (F F' : Prop) h h' n l i w w' : locks_ok F h w → (F → F') → m_lock w' = bool_decide (is_Some h') → code_fits F h' n l →
  (∀ m, m ≠ n → h' = Some m ↔ h = Some m) → n < length (codes w) → codes w' = <[n := l]> (codes w) ++ made i → locks_ok F' h' w'.
Proof.
  intros [L1 L2 L3] HF Hm Hfit Ho Hn Ec.
  assert (∀ m l, code_fits F h' m l → code_fits F' h' m l) as Hw.
  { intros m l'. unfold code_fits. case_decide; [|done]. by apply holding_weaken. }
  split; [done| |].
  - intros m Hh. apply lookup_lt_is_Some. assert (length (threads w') = length (codes w')) as -> by (unfold codes; by rewrite length_map).
    rewrite Ec, length_app, length_insert. destruct (decide (m = n)) as [-> |Hne]; [lia|]. apply Ho in Hh; [|done]. apply L2, lookup_lt_is_Some in Hh.
    unfold codes. rewrite length_map. lia.
  - intros m t Ht. apply Hw. assert (codes w' !! m = Some (code t)) as Hc by (unfold codes; by rewrite list_lookup_fmap, Ht).
    rewrite Ec in Hc. apply lookup_app_Some in Hc as [Hc|[Hlen Hc]].
    + apply list_lookup_insert_Some in Hc as [(-> & <- & _)|[Hne Hc]]; [done|]. destruct (codes_lookup _ _ _ Hc) as (u & Hu & <-).
      specialize (L3 _ _ Hu). unfold code_fits in *. destruct (decide (h = Some m)) as [E|E]; [rewrite decide_True by (by apply Ho); done|].
      rewrite decide_False; [done|]. rewrite Ho; done.
    + rewrite length_insert in Hlen, Hc. assert (code t = [i_worker]) as ->.
      { destruct i; try done. cbn in Hc. by destruct (m - _); [injection Hc as <-|]. }
      unfold code_fits. rewrite decide_False; [by repeat constructor|]. rewrite Ho by lia. intros Hh%L2%lookup_lt_is_Some.
      unfold codes in Hlen. rewrite length_map in Hlen. lia.
Qed.

Lemma pool_step_ok n h fs o w : pool_inv h fs o w →
  match step n w with
  | Ret w' => (∃ h' fs' o', pool_inv h' fs' o' w' ∧ (o = false → o' = false)) ∧ (o = false → accepted w' = accepted w ∧ called w' = called w)
  | Stuck blocked => ∀ i rest, codes w !! n = Some (i :: rest) → waits_at i fs o w
  | _ => False
  end.
Proof.
  intros Hpi. pose proof Hpi as [HI Hl]. unfold ThreadPool.step. destruct (threads w !! n) as [t|] eqn:Hn.
  2: { unfold codes. intros i rest (u & _ & Hu)%list_lookup_fmap_Some. congruence. }
  assert (codes w !! n = Some (code t)) as Hcn by (unfold codes; by rewrite list_lookup_fmap, Hn).
  destruct t as [[|i rest] k]; [cbn in Hcn; intros i rest; congruence|]. cbn in Hcn.
  destruct (concat_insert _ _ _ Hcn) as (c & Hp & Hp'). cbn in Hp. fold (steps_left w) in Hp.
  pose proof (holding_looks _ _ _ _ _ _ _ _ Hpi Hcn Hp) as Hlooks.
  pose proof (l_code _ _ _ Hl _ _ Hn) as Hfit. cbn in Hfit.
  apply (pool_inv_perm _ _ _ _ _ Hp) in HI.
  assert (has_worker (steps_left w) o ↔ has_worker (i :: rest ++ c) o) as HF by (unfold has_worker; by rewrite (cnt_perm _ _ _ Hp)).
  assert (goes_on n i (rest ++ c) fs o w) as Hgo.
  { eapply exec_ok; [done|done| |].
    - unfold code_fits in Hfit. case_decide; [right; by apply holding_head in Hfit as [? _]|left; by apply Forall_cons in Hfit as [? _]].
    - intros ->. unfold code_fits in Hfit. case_decide; [|by apply Forall_cons in Hfit as [[] _]]. apply holding_head in Hfit as [_ Hfit].
      assert (has_worker (i_token :: rest ++ c) o ↔ has_worker (rest ++ c) o) as <- by (unfold has_worker; by rewrite cnt_cons). by apply HF, Hfit. }
  assert (∀ l w1, exec n i w = (Ret l, w1) → lock_moves (has_worker (steps_left w) o) h n (l ++ rest) w1) as Hmove.
  { intros l w1 E. unfold code_fits in Hfit. case_decide as Hd.
    - subst h. eapply exec_lock_held; [done| |done..|by eexists]. rewrite (l_lock _ _ _ Hl). done.
    - eapply exec_lock_free; try done; [apply Hl|apply HI]. }
  unfold goes_on in Hgo. destruct (exec n i w) as [[l|e|[]] w1]; try done.
  - destruct Hgo as (fs' & o' & HI' & Ec & HF' & Ho). destruct (Hmove _ _ eq_refl) as (h' & Hm & Hfit' & Hothers). split; [|exact (λ E, proj2 (Ho E))].
    exists h', fs', o'. split; [|intros E; by destruct (Ho E)].
    set (w' := set_threads _ w1). assert (n < length (codes w)) as Hlt by (by eapply lookup_lt_Some).
    assert (codes w' = <[n := l ++ rest]> (codes w) ++ made i) as Ec' by (unfold w', codes in *; cbn; by rewrite codes_next, Ec, insert_app_l).
    assert (steps_left w' ≡ₚ l ++ concat (made i) ++ rest ++ c) as Hs.
    { unfold steps_left. rewrite Ec', concat_app, Hp'. rewrite <-!app_assoc. f_equiv. by rewrite !app_assoc, (Permutation_app_comm _ (concat (made i))), app_assoc. }
    assert (has_worker (steps_left w) o → has_worker (steps_left w') o') as HF2 by (rewrite HF; unfold has_worker at 2; by rewrite (cnt_perm _ _ _ Hs)).
    split.
    + apply (pool_inv_perm (l ++ concat (made i) ++ rest ++ c)); [by symmetry|]. apply pool_inv_threads; [|done]. by apply tokens_alter.
    + eapply locks_step; try done.
  - intros i' rest' Hcn'. rewrite Hcn in Hcn'. by injection Hcn' as <- <-.
Qed.

Lemma pool_run_inv schedule h fs o w : pool_inv h fs o w →
  ∃ w' h' fs' o', run schedule w = Ret w' ∧ pool_inv h' fs' o' w' ∧ (o = false → o' = false ∧ accepted w' = accepted w ∧ called w' = called w).
Proof.
  revert h fs o w. induction schedule as [|n schedule IH]; intros h fs o w Hi; cbn; [by exists w, h, fs, o|].
  pose proof (pool_step_ok n _ _ _ _ Hi) as Hs. destruct (step n w) as [w1|e|[]]; try done; [|by eapply IH].
  destruct Hs as [(h1 & fs1 & o1 & Hi1 & Ho1) Hk]. destruct (IH _ _ _ _ Hi1) as (w' & h' & fs' & o' & E & Hi' & Hk'). exists w', h', fs', o'.
  split_and!; [done..|]. intros Ho. destruct (Hk' (Ho1 Ho)) as (? & -> & ->). by destruct (Hk Ho) as [-> ->].
Qed.

Lemma program_code p : Forall op_ok p → plain (map instr_of p).
Proof. induction 1 as [|x p Hx Hp IH]; [done|]. apply Forall_cons. split; [|done]. by destruct x. Qed.

Lemma pool_inv_new toBeDone successor programs : programs_ok programs → eq_holds [] [] [] true toBeDone → pool_inv None [] true (pool_new toBeDone successor programs).
Proof.
  intros Hp Hq. assert (∀ P, (∀ x, P (instr_of x) = false) → cnt P (steps_left (pool_new toBeDone successor programs)) = 0) as Hz.
  { intros P HP. apply cnt_none. intros i (l & Hl%list_elem_of_In & Hi%list_elem_of_In)%list_elem_of_In%List.in_concat.
    unfold codes in Hl. cbn in Hl. rewrite map_map in Hl. apply list_elem_of_fmap in Hl as (p & -> & _). apply list_elem_of_fmap in Hi as (x & -> & _). apply HP. }
  assert (IsStarted (pool_new toBeDone successor programs) = false) as Hs by (unfold IsStarted; cbn; clear; by induction programs).
  assert (finishing (steps_left (pool_new toBeDone successor programs)) = []) as Hf.
  { unfold steps_left, codes. cbn. rewrite map_map. clear. induction programs as [|p programs IH]; [done|]. unfold finishing in *. cbn in *.
    rewrite omap_app, IH, app_nil_r. clear. induction p as [|[] p IHp]; done. }
  split; [|split; [done..|]].
  - split; rewrite ?Hf, ?Hz by (by intros []); cbn; try done.
    + by intros f ?%elem_of_nil.
    + by intros [?|?].
    + intros _ _ Hx. exfalso. change (IsStarted (pool_new toBeDone successor programs) = true) in Hx. congruence.
  - cbn. intros n t (p & -> & Hp')%list_lookup_fmap_Some. apply program_code. unfold programs_ok in Hp. rewrite Forall_forall in Hp. by eapply Hp, list_elem_of_lookup_2.
Qed.

(** ** When no thread can take a step *)
Section blocked.
  Context (h : option nat) (fs : list fx) (o : bool) (w : pool) (holds : pool_inv h fs o w).
  Context (stuck : ∀ n, step n w = Stuck blocked).

Lemma pool_blocked n i rest : codes w !! n = Some (i :: rest) → waits_at i fs o w.
Proof. intros Hn. pose proof (pool_step_ok n _ _ _ _ holds) as Hs. rewrite stuck in Hs. by eapply Hs. Qed.

Lemma holding_waits F l : holding F l → ∃ i rest, l = i :: rest ∧ ¬ waits_at i fs o w.
Proof.
  intros [l' (r & _ & [[-> _]| ->])|l' _|l' (k & r & -> & _)|l' _|l' _]; do 2 eexists; (split; [done|]); cbn; tauto.
Qed.

Lemma blocked_unlocked : m_lock w = false.
Proof.
  pose proof holds as [_ Hl]. rewrite (l_lock _ _ _ Hl). destruct (bool_decide_reflect (is_Some h)) as [[n Hh]|]; [|done]. destruct (l_holder _ _ _ Hl n Hh) as [t Ht].
  pose proof (l_code _ _ _ Hl _ _ Ht) as Hf. unfold code_fits in Hf. rewrite decide_True in Hf by done.
  destruct (holding_waits _ _ Hf) as (i & rest & Hc & []). apply (pool_blocked n i rest). unfold codes. by rewrite list_lookup_fmap, Ht, <-Hc.
Qed.

Lemma pool_blocked_code n l : codes w !! n = Some l → l = [] ∨ (∃ rest, l = i_worker :: rest) ∧ fs = [] ∧ o = true.
Proof.
  intros Hn. destruct l as [|i rest]; [by left|right]. pose proof (pool_blocked _ _ _ Hn) as Hw. pose proof blocked_unlocked as Hl.
  destruct i; cbn in Hw; try done; try congruence. by split; [eexists|].
Qed.

Lemma blocked_worker : cnt works (steps_left w) ≠ 0 → fs = [] ∧ o = true.
Proof.
  intros Hc. destruct (decide (fs = [] ∧ o = true)) as [?|Hno]; [done|]. destruct Hc. apply cnt_none. intros i (l & Hl & Hi)%list_elem_of_In%List.in_concat.
  apply list_elem_of_In, list_elem_of_lookup in Hl as [m Hm]. apply list_elem_of_In in Hi.
  destruct (pool_blocked_code _ _ Hm) as [-> |(_ & ? & ?)]; [by apply elem_of_nil in Hi|by destruct Hno].
Qed.
End blocked.
End facts.
