(* ===== verification/ThreadPoolSpec.v ===== *)
(** * ThreadPool: what clients may rely on

    For every queue that keeps the laws of EventQueue.v, all programs of any number of
    client threads, and all schedules. *)
From stdpp Require Import base gmap list.
From Stdlib Require Import ZArith Lia.
From S2P Require Import Prelude.
From S2P Require Import DispatchQueue.
From S2P Require Import EventQueue.
From S2P Require Import ThreadPool.
From S2P Require Import ThreadPoolFacts.
Local Open Scope nat_scope.

Section contracts.
  Context {Q : Type} `{EventQueueLaws Q}.
  Context (lambdas : fx → lambda) (abort_fx : fx).
  Context (toBeDone : Q) (is_new : eq_holds [] [] [] true toBeDone) (successor : bool).
  Local Abbreviation pool := (ThreadPool.pool (Q := Q)).
  Local Abbreviation step := (ThreadPool.step lambdas abort_fx).
  Local Abbreviation run := (ThreadPool.run lambdas abort_fx).

(** Workers that are there, and workers that are not counted yet. *)
Definition workers (w : pool) : nat := cnt works (steps_left w).
Definition uncounted (w : pool) : nat := cnt increments (steps_left w).

Lemma pool_reached (gentle : Prop) (programs : list (list pool_op)) (schedule : list nat) :
  lambdas_ok lambdas abort_fx gentle → programs_ok lambdas programs →
  ∃ w h fs o, run schedule (pool_new toBeDone successor programs) = Ret w ∧ pool_inv lambdas abort_fx gentle h fs o w.
Proof.
  intros Hok Hp. destruct (pool_run_inv lambdas abort_fx gentle Hok schedule None [] true (pool_new toBeDone successor programs)) as (w & h & fs & o & E & Hi & _).
  - by apply pool_inv_new.
  - by exists w, h, fs, o.
Qed.



(** C24. A pool that was stopped is stopped for good: once its queue was aborted, no run,
    with any calls of [Start], accepts or calls a lambda. *)
Theorem ThreadPool_stop_is_final (programs : list (list pool_op)) (schedule later : list nat) (w : pool) :
  lambdas_ok lambdas abort_fx False → programs_ok lambdas programs →
  run schedule (pool_new toBeDone successor programs) = Ret w → eq_aborted (m_toBeDone w) = true →
  abort_fx ∈ called w ∧ ∃ w', run later w = Ret w' ∧ eq_aborted (m_toBeDone w') = true ∧ accepted w' = accepted w ∧ called w' = called w.
Proof.
  intros Hok Hp Hr Ha. destruct (pool_reached _ programs schedule Hok Hp) as (w' & h & fs & o & E & Hi). assert (w' = w) as -> by congruence.
  rewrite (eq_aborted_holds _ _ _ _ _ (v_queue _ _ _ _ _ _ _ (proj1 Hi))) in Ha. destruct o; [done|]. split; [apply (v_abort _ _ _ _ _ _ _ (proj1 Hi)); by left|].
  destruct (pool_run_inv lambdas abort_fx False Hok later _ _ _ _ Hi) as (w' & h' & fs' & o' & E' & Hi' & Hk). destruct (Hk eq_refl) as (-> & ? & ?).
  exists w'. split_and!; try done. by rewrite (eq_aborted_holds _ _ _ _ _ (v_queue _ _ _ _ _ _ _ (proj1 Hi'))).
Qed.
End contracts.

(** ** Examples, with DispatchQueue.cpp as the queue *)
(** Lambda 0 is that of [OnStop], 5 submits 3 and starts the pool, 9 throws unless
    [gentle]. *)
Definition pool_demo (gentle : bool) (f : fx) : lambda :=
  match f with
  | 0 => l_abort
  | 5 => l_client [po_submit 3; po_start; po_release] false
  | 9 => l_client [po_submit 6] (negb gentle)
  | _ => l_client [] false
  end.

Lemma pool_demo_ok (gentle : bool) : lambdas_ok (pool_demo gentle) 0 (Is_true gentle).
Proof.
  split; [done|]. intros f. do 10 (destruct f as [|f]; [by destruct gentle; repeat constructor; try done|]). by repeat constructor.
Qed.

(** [m_toBeDone(~0)]. *)
Definition m_toBeDone_new : DispatchQueue := DispatchQueue_cap size_max.

Definition pool_demo_from (gentle : bool) (schedule : list nat) (w : pool) : pool :=
  let _ := dispatch_event_queue (λ _, 0%Z) in
  match run (pool_demo gentle) 0 schedule w with Ret w => w | _ => pool_new m_toBeDone_new true [] end.
Definition pool_demo_after (gentle : bool) (schedule : list nat) (programs : list (list pool_op)) : pool :=
  pool_demo_from gentle schedule (pool_new m_toBeDone_new true programs).

Definition pool_demo_programs : list (list pool_op) :=
  [[po_null_submit 2; po_null_submit 9; po_start; po_null_move; po_suggest 3]; [po_submit 5; po_submit 1]].
Definition pool_demo_schedule : list nat := concat (replicate 40 [0; 1; 2; 3; 4]).

Lemma pool_demo_programs_ok gentle : programs_ok (pool_demo gentle) pool_demo_programs.
Proof. by repeat constructor. Qed.



(** A client lets its token go, waits for the pool to stop, and starts it again. *)
Definition restart_client : list (list pool_op) := [[po_start; po_submit 1; po_release; po_start; po_submit 2]].
Definition restart_stopped : list nat := replicate 15 0 ++ replicate 7 1 ++ replicate 2 2.

Lemma ThreadPool_stop_is_final_witness : let w := pool_demo_after false restart_stopped restart_client in
  eq_aborted (EventQueue := dispatch_event_queue (λ _, 0%Z)) (m_toBeDone w) = true ∧ IsStarted w = false ∧
  (0 ∈ called w ∧ ∃ w', run (H := dispatch_event_queue (λ _, 0%Z)) (pool_demo false) 0 pool_demo_schedule w = Ret w' ∧
    eq_aborted (EventQueue := dispatch_event_queue (λ _, 0%Z)) (m_toBeDone w') = true ∧ accepted w' = accepted w ∧ called w' = called w).
Proof.
  split; [vm_compute; reflexivity|]. split; [vm_compute; reflexivity|].
  apply (@ThreadPool_stop_is_final _ _ (dispatch_event_laws (λ _, 0%Z)) (pool_demo false) 0 m_toBeDone_new (queue_holds_cap size_max) true restart_client restart_stopped pool_demo_schedule).
  - apply (pool_demo_ok false).
  - by repeat constructor.
  - vm_compute. reflexivity.
  - vm_compute. reflexivity.
Defined.

(** ** What goes wrong *)
(** The pool that was started again has a token, and never calls lambda 2. *)
Lemma restarted_pool_is_dead : let w := pool_demo_after false (restart_stopped ++ concat (replicate 30 [0; 0; 0; 0; 1; 2; 3; 4; 5])) restart_client in
  IsStarted w = true ∧ m_outstanding w = 0%Z ∧ called w = [1; 0] ∧ concat (map code (threads w)) = [].
Proof. split_and!; vm_compute; reflexivity. Qed.

(** Its [Start] makes threads as long as they end before it looks again. *)
Lemma restart_makes_threads : let w := pool_demo_after false (restart_stopped ++ replicate 3 0 ++ concat (map (λ n, [0; 0; n; n; 0]) (seq 3 20))) restart_client in
  m_lock w = true ∧ length (threads w) = 23 ∧ code <$> head (threads w) = Some [i_add_worker; i_grow 2; i_token; i_submit 2].
Proof. split_and!; vm_compute; reflexivity. Qed.

(** An exception ends its worker.  Lambdas that are there when the last one goes wait until
    something else is submitted. *)
Lemma exceptions_end_workers : let w := pool_demo_after false (replicate 30 0 ++ replicate 30 1 ++ replicate 30 2) [[po_submit 9; po_submit 9; po_submit 1; po_start]] in
  IsStarted w = true ∧ m_outstanding w = 0%Z ∧ accepted w = [9; 9; 1; 6; 6] ∧ called w = [9; 9] ∧ concat (map code (threads w)) = [].
Proof. split_and!; vm_compute; reflexivity. Qed.

(** A worker that leaves before it was counted takes the count to 2^64 - 1. *)
Lemma count_wraps : let w := pool_demo_after false (restart_stopped ++ replicate 4 0 ++ [3; 3]) restart_client in
  m_outstanding w = size_max ∧ code <$> head (threads w) = Some [i_increment; i_grow 2; i_token; i_submit 2].
Proof. split_and!; vm_compute; reflexivity. Qed.

(** Lambdas that a null pool gets after it was told to hand them over stay there. *)
Lemma null_pool_keeps_late_lambdas : let w := pool_demo_after false (concat (replicate 40 [0; 1; 2])) [[po_start; po_null_submit 1; po_null_move; po_null_submit 2; po_null_move]] in
  called w = [1] ∧ m_dispatchers w = [2].
Proof. split; vm_compute; reflexivity. Qed.
