(* ===== verification/Parallel.v ===== *)
(** * parallel: jobs for a number of threads, and their results

    src/src/autowiring/Parallel.h and Parallel.cpp, for any number of client threads and
    workers.  A step of a thread is a critical section of [m_lock] or of the queue, or
    an access outside of one; [stop] holds [m_lock] while it runs the queue down.  A
    thread that waits for a condition can take its step when the condition holds.
    Jobs are programs of client calls that the worker goes through step by step; they
    do not throw. *)
From stdpp Require Import base gmap list strings.
From Stdlib Require Import ZArith Lia.
From S2P Require Import Prelude.
From S2P Require Import DispatchQueue.
From S2P Require Import EventQueue.
Local Open Scope nat_scope.

(** [None]: [void]. *)
Definition type : Type := option nat.
Bind Scope nat_scope with type.

(** What clients call: [operator+=], [Pop], [Top], the loop over [all], [barrier],
    [stop]. *)
Inductive parallel_op := po_add (f : fx) | po_pop (T : type) | po_top (T : nat) | po_all (T : type) | po_barrier | po_stop.

(** The steps of these calls, and of a worker. *)
Inductive instr :=
  | i_add (f : fx) | i_count (f : fx) | i_link (f : fx)
  | i_pop (T : type) | i_pop_locked (T : type) | i_pop_wait (T : type)
  | i_top (T : nat) | i_top_locked (T : nat) | i_top_wait (T : nat)
  | i_all (T : type) | i_next (T : type)
  | i_barrier | i_barrier_wait
  | i_stop | i_stop_locked | i_rundown (pHead : option addr) | i_done (thunk : addr) (next : option addr)
  | i_worker | i_job (f : fx) | i_result (f : fx) | i_finish (thunk : addr).

Definition instr_of (o : parallel_op) : instr :=
  match o with
  | po_add f => i_add f | po_pop T => i_pop T | po_top T => i_top T | po_all T => i_all T | po_barrier => i_barrier | po_stop => i_stop
  end.

(** A job: what it calls, and the type and the value of its result. *)
Record job := mkJob { j_calls : list parallel_op; j_type : type; j_value : nat }.

Section parallel.
  Context {Q : Type} `{EventQueue Q}.
  Context (jobs : fx → job).

(** The status block, and whether [m_block] is set.  [added], [refused], [called]: jobs
    that were counted, that the queue refused, that were taken to be run.  [delivered]:
    jobs whose results were stored; [popped]: results that were taken; [seen]: results
    of [Top]. *)
Record parallel := mkParallel {
  dq : Q;
  m_queue : gmap nat (list nat);
  m_nVoidEntries : Z;
  m_outstandingCount : Z;
  m_lock : bool;
  m_block : bool;
  threads : list (list instr);
  added : list fx;
  refused : list fx;
  called : list fx;
  delivered : list fx;
  popped : list (type * nat);
  seen : list (nat * nat) }.

Definition set_dq x w := mkParallel x (m_queue w) (m_nVoidEntries w) (m_outstandingCount w) (m_lock w) (m_block w) (threads w) (added w) (refused w) (called w) (delivered w) (popped w) (seen w).
Definition set_results x y w := mkParallel (dq w) x y (m_outstandingCount w) (m_lock w) (m_block w) (threads w) (added w) (refused w) (called w) (delivered w) (popped w) (seen w).
Definition set_outstanding x w := mkParallel (dq w) (m_queue w) (m_nVoidEntries w) x (m_lock w) (m_block w) (threads w) (added w) (refused w) (called w) (delivered w) (popped w) (seen w).
Definition set_lock x w := mkParallel (dq w) (m_queue w) (m_nVoidEntries w) (m_outstandingCount w) x (m_block w) (threads w) (added w) (refused w) (called w) (delivered w) (popped w) (seen w).
Definition set_block x w := mkParallel (dq w) (m_queue w) (m_nVoidEntries w) (m_outstandingCount w) (m_lock w) x (threads w) (added w) (refused w) (called w) (delivered w) (popped w) (seen w).
Definition set_threads x w := mkParallel (dq w) (m_queue w) (m_nVoidEntries w) (m_outstandingCount w) (m_lock w) (m_block w) x (added w) (refused w) (called w) (delivered w) (popped w) (seen w).
Definition set_jobs a r c w := mkParallel (dq w) (m_queue w) (m_nVoidEntries w) (m_outstandingCount w) (m_lock w) (m_block w) (threads w) a r c (delivered w) (popped w) (seen w).
Definition set_seen d p s w := mkParallel (dq w) (m_queue w) (m_nVoidEntries w) (m_outstandingCount w) (m_lock w) (m_block w) (threads w) (added w) (refused w) (called w) d p s.

(** [concurrency] workers, before the threads of clients. *)
Definition parallel_new (concurrency : nat) (programs : list (list parallel_op)) : parallel :=
  mkParallel eq_new ∅ 0 0 false true (replicate concurrency [i_worker] ++ map (map instr_of) programs) [] [] [] [] [] [].

Local Abbreviation M := (M parallel).

Definition on_dq {A} (m : Prelude.M Q A) : M A := λ w,
  let '(r, q) := m (dq w) in (r, set_dq q w).

(** A critical section of [m_lock]. *)
Definition locked : M unit := w ← get; if m_lock w then stuck blocked else mret tt.

(** [auto block = m_block; if (!block) return;] *)
Definition with_block (l : list instr) : M (list instr) := w ← get; mret (if m_block w then l else []).

(** [operator+=]: the count, and the queue, which may refuse the lambda. *)
Definition count (f : fx) : M unit :=
  locked;; w ← get;
  modify (set_outstanding (sz_inc (m_outstandingCount w)));; modify (set_jobs (added w ++ [f]) (refused w) (called w)).
Definition link (f : fx) : M unit :=
  b ← on_dq (eq_pend f);
  w ← get; when (negb b) (modify (set_jobs (added w) (refused w ++ [f]) (called w))).

(** [m_queue[T]], which makes an entry. *)
Definition results (w : parallel) (T : nat) : list nat := default [] (m_queue w !! T).

(** Whether there is a result for [Pop]; what it takes. *)
Definition pop_ready (T : type) (w : parallel) : bool :=
  match T with
  | None => if m_block w then negb (bool_decide (m_nVoidEntries w = 0%Z)) else true
  | Some T => bool_decide (results w T ≠ [])
  end.
Definition pop_result (T : type) : M unit :=
  w ← get;
  match T with
  | None => modify (set_results (m_queue w) (sz_dec (m_nVoidEntries w)));; modify (set_seen (delivered w) (popped w ++ [(None, 0)]) (seen w))
  | Some T' =>
    match results w T' with
    | [] => stuck undefined_behavior
    | v :: l => modify (set_results (<[T' := l]> (m_queue w)) (m_nVoidEntries w));; modify (set_seen (delivered w) (popped w ++ [(Some T', v)]) (seen w))
    end
  end;;
  w ← get; modify (set_outstanding (sz_dec (m_outstandingCount w))).

(** [Pop], with its exception, up to where it waits; when it need not wait any more. *)
Definition Pop (T : type) : M (list instr) :=
  locked;;
  w ← get;
  if bool_decide (m_outstandingCount w = 0%Z) then throw (out_of_range "No outstanding jobs")
  else if pop_ready T w then pop_result T;; mret [] else mret [i_pop_wait T].
Definition Pop_wait (T : type) : M (list instr) :=
  locked;; w ← get; if pop_ready T w then pop_result T;; mret [] else stuck blocked.

(** [front()] of the results, which there have to be. *)
Definition front (T : nat) : M unit :=
  w ← get;
  match results w T with
  | [] => stuck undefined_behavior
  | v :: _ => modify (set_seen (delivered w) (popped w) (seen w ++ [(T, v)]))
  end.
Definition Top (T : nat) : M (list instr) :=
  locked;; w ← get; if bool_decide (results w T = []) then mret [i_top_wait T] else front T;; mret [].
Definition Top_wait (T : nat) : M (list instr) :=
  locked;; w ← get; if negb (m_block w) || bool_decide (results w T ≠ []) then front T;; mret [] else stuck blocked.

(** The loop over [all]: [m_remaining] refers to the count. *)
Definition next (T : type) : M (list instr) :=
  w ← get;
  mret (if bool_decide (m_outstandingCount w = 0%Z) then []
        else match T with Some T' => [i_top T'; i_pop T; i_next T] | None => [i_pop T; i_next T] end).

(** [barrier]. *)
Definition totalReady (w : parallel) : Z := sz_wrap (m_nVoidEntries w + Z.of_nat (map_fold (λ _ l n, length l + n) 0 (m_queue w))).
Definition barrier : M unit :=
  locked;; w ← get;
  if negb (m_block w) || bool_decide (m_outstandingCount w = totalReady w) then mret tt else stuck blocked.

(** [stop_unsafe] under the lock: [Rundown] of the queue, and the end. *)
Definition stop : M (list instr) :=
  locked;; w ← get;
  if m_block w then modify (set_lock true);; pHead ← on_dq eq_close; mret [i_rundown pHead] else mret [].
Definition rundown (pHead : option addr) : M (list instr) :=
  match pHead with
  | None => on_dq (eq_rest None);; modify (set_block false);; modify (set_lock false);; mret []
  | Some thunk =>
    x ← on_dq (eq_call thunk); w ← get;
    modify (set_jobs (added w) (refused w) (called w ++ [x.1]));; mret [i_job x.1; i_done thunk x.2]
  end.

(** [WaitForEvent]. *)
Definition WaitForEvent : M (list instr) :=
  w ← get;
  if eq_aborted (dq w) then mret []
  else
    t ← on_dq eq_take;
    match t with
    | None => stuck blocked
    | Some (thunk, f) => w ← get; modify (set_jobs (added w) (refused w) (called w ++ [f]));; mret [i_job f; i_finish thunk; i_worker]
    end.

(** The lambda of [operator+=]: the job, then its result under the lock. *)
Definition job_lambda (f : fx) : M (list instr) := with_block (map instr_of (j_calls (jobs f)) ++ [i_result f]).
Definition store_result (f : fx) : M unit :=
  locked;; w ← get;
  match j_type (jobs f) with
  | None => modify (set_results (m_queue w) (sz_inc (m_nVoidEntries w)))
  | Some T => modify (set_results (<[T := results w T ++ [j_value (jobs f)]]> (m_queue w)) (m_nVoidEntries w))
  end;;
  modify (set_seen (delivered w ++ [f]) (popped w) (seen w)).

(** A step; its result is what the thread does next, before the rest of its code. *)
Definition exec (i : instr) : M (list instr) :=
  match i with
  | i_add f => with_block [i_count f]
  | i_count f => count f;; mret [i_link f]
  | i_link f => link f;; mret []
  | i_pop T => with_block [i_pop_locked T]
  | i_pop_locked T => try_catch (Pop T) (λ _, mret [])
  | i_pop_wait T => Pop_wait T
  | i_top T => with_block [i_top_locked T]
  | i_top_locked T => Top T
  | i_top_wait T => Top_wait T
  | i_all T => with_block [i_next T]
  | i_next T => next T
  | i_barrier => with_block [i_barrier_wait]
  | i_barrier_wait => barrier;; mret []
  | i_stop => with_block [i_stop_locked]
  | i_stop_locked => stop
  | i_rundown pHead => rundown pHead
  | i_done thunk next => on_dq (eq_done thunk);; mret [i_rundown next]
  | i_worker => WaitForEvent
  | i_job f => job_lambda f
  | i_result f => store_result f;; mret []
  | i_finish thunk => on_dq (eq_finish thunk);; mret []
  end.

(** Thread [n] takes a step. *)
Definition step (n : nat) (w : parallel) : outcome parallel :=
  match threads w !! n with
  | Some (i :: rest) =>
    match exec i w with
    | (Ret l, w') => Ret (set_threads (<[n := l ++ rest]> (threads w')) w')
    | (Throw e, _) => Throw e
    | (Stuck r, _) => Stuck r
    end
  | _ => Stuck blocked
  end.

(** A schedule: a thread that cannot take a step is passed over. *)
Fixpoint run (schedule : list nat) (w : parallel) : outcome parallel :=
  match schedule with
  | [] => Ret w
  | n :: schedule' =>
    match step n w with
    | Ret w' => run schedule' w'
    | Stuck blocked => run schedule' w
    | r => r
    end
  end.
End parallel.
