(* ===== verification/ParallelFacts.v ===== *)
(** * parallel: the invariant of jobs and results

    Clients that do not call [stop].  Every job that was counted is in the queue, being
    run, refused, or has its result stored or taken.  The theorems are in
    ParallelSpec.v. *)
From stdpp Require Import base gmap list strings.
From Stdlib Require Import ZArith Lia.
From S2P Require Import Prelude.
From S2P Require Import DispatchQueue.
From S2P Require Import EventQueue.
From S2P Require Import Parallel.
Local Open Scope nat_scope.

(** ** The number of results in the queues *)
Definition stored (m : gmap nat (list nat)) : nat := map_fold (λ _ l n, length l + n) 0 m.

Lemma stored_insert T l m : stored (<[T := l]> m) + length (default [] (m !! T)) = stored m + length l.
Proof.
  assert (∀ m', m' !! T = None → stored (<[T := l]> m') = length l + stored m') as Hins.
  { intros m' Hm. unfold stored. rewrite (map_fold_insert_L (λ _ l n, length l + n)); [done|intros; lia|done]. }
  destruct (m !! T) as [l0|] eqn:E; cbn; [|rewrite Hins by done; lia].
  assert (stored m = length l0 + stored (delete T m)) as ->.
  { rewrite <-(insert_delete_id m T l0 E) at 1. unfold stored. rewrite (map_fold_insert_L (λ _ l n, length l + n)); [done|intros; lia|apply lookup_delete_eq]. }
  rewrite <-insert_delete_eq, Hins by apply lookup_delete_eq. lia.
Qed.

Section facts.
  Context {Q : Type} `{EventQueueLaws Q}.
  Context (jobs : fx → job).
  Local Abbreviation parallel := (Parallel.parallel (Q := Q)).
  Local Abbreviation exec := (Parallel.exec jobs).
  Local Abbreviation step := (Parallel.step jobs).
  Local Abbreviation run := (Parallel.run jobs).

(** ** Clients *)
Definition no_stop (ops : list parallel_op) : Prop := po_stop ∉ ops.
Definition jobs_ok : Prop := ∀ f, no_stop (j_calls (jobs f)).

Context (ok : jobs_ok).

(** Steps of clients that do not stop. *)
Definition calm (i : instr) : Prop := match i with i_stop | i_stop_locked | i_rundown _ | i_done _ _ => False | _ => True end.

Lemma parallel_calm_ops ops : no_stop ops → Forall calm (map instr_of ops).
Proof.
  intros Hn. apply Forall_forall. intros i (o & -> & Ho)%list_elem_of_fmap. by destruct o.
Qed.

(** ** Where jobs are *)
Definition finishing (c : list instr) : list addr := omap (λ i, match i with i_finish t => Some t | _ => None end) c.
Definition linking (c : list instr) : list fx := omap (λ i, match i with i_link f => Some f | _ => None end) c.
Definition running (c : list instr) : list fx := omap (λ i, match i with i_job f | i_result f => Some f | _ => None end) c.

(** The results of type [T]; those that were taken. *)
Definition values_of (T : nat) (l : list fx) : list nat := omap (λ f, if decide (j_type (jobs f) = Some T) then Some (j_value (jobs f)) else None) l.
Definition taken (T : nat) (l : list (type * nat)) : list nat := omap (λ x, if decide (x.1 = Some T) then Some x.2 else None) l.
Arguments values_of : simpl never.
Arguments taken : simpl never.
Definition is_void (f : fx) : bool := bool_decide (j_type (jobs f) = None).
Definition void_taken (x : type * nat) : bool := bool_decide (x.1 = None).

(** [c]: the steps all threads have yet to take; [fs]: the jobs in the queue; [voids]: the
    jobs without a value that are done. *)
Record inv (c : list instr) (fs : list fx) (voids : nat) (w : parallel) : Prop := {
  v_dq : eq_holds (finishing c) [] fs true (dq w);
  v_block : m_block w = true;
  v_lock : m_lock w = false;
  v_added : added w ≡ₚ called w ++ fs ++ refused w ++ linking c;
  v_called : called w ≡ₚ delivered w ++ running c;
  v_voids : m_nVoidEntries w = sz_wrap (Z.of_nat voids);
  v_void : cnt is_void (delivered w) = cnt void_taken (popped w) + voids;
  v_results : ∀ T, values_of T (delivered w) = taken T (popped w) ++ results w T;
  v_total : length (delivered w) = length (popped w) + voids + stored (m_queue w);
  v_count : m_outstandingCount w = sz_wrap (Z.of_nat (length (added w)) - Z.of_nat (length (popped w))) }.

Lemma jobs_inv_perm c c' fs voids w : c ≡ₚ c' → inv c fs voids w → inv c' fs voids w.
Proof.
  intros Hp [V1 V2 V3 V4 V5 V6 V7 V8 V9 V10]. assert (finishing c ≡ₚ finishing c') as H1 by (unfold finishing; by rewrite Hp).
  assert (linking c ≡ₚ linking c') as H2 by (unfold linking; by rewrite Hp). assert (running c ≡ₚ running c') as H3 by (unfold running; by rewrite Hp).
  split; try done; [by eapply eq_calling_perm|by rewrite <-H2|by rewrite <-H3].
Qed.

(** Steps that no list counts. *)
Definition neutral (i : instr) : bool := match i with i_finish _ | i_link _ | i_job _ | i_result _ => false | _ => true end.

Lemma jobs_inv_neutral l c fs voids w : Forall (λ i, neutral i = true) l → inv (l ++ c) fs voids w ↔ inv c fs voids w.
Proof.
  intros Hl. assert (finishing (l ++ c) = finishing c ∧ linking (l ++ c) = linking c ∧ running (l ++ c) = running c) as (E1 & E2 & E3).
  { unfold finishing, linking, running. rewrite !omap_app. induction Hl as [|i l Hi Hl IH]; [done|]. by destruct i. }
  split; intros []; split; rewrite ?E1, ?E2, ?E3 in *; done.
Qed.

Lemma parallel_neutral_ops ops : Forall (λ i, neutral i = true) (map instr_of ops).
Proof. apply Forall_forall. by intros i (o & -> & _)%list_elem_of_fmap; destruct o. Qed.

(** When a step has to wait. *)
Definition waits_at (i : instr) (fs : list fx) (w : parallel) : Prop :=
  match i with
  | i_pop_wait T => pop_ready T w = false
  | i_top_wait T => results w T = []
  | i_barrier_wait => m_outstandingCount w ≠ totalReady w
  | i_worker => fs = []
  | _ => False
  end.

Definition goes_on (i : instr) (c : list instr) (fs : list fx) (voids : nat) (w : parallel) : Prop :=
  match exec i w with
  | (Ret l, w') => ∃ fs' voids', inv (l ++ c) fs' voids' w' ∧ threads w' = threads w
  | (Stuck blocked, _) => waits_at i fs w
  | _ => False
  end.

(** Steps that only go on. *)
Lemma parallel_goes_same i l c fs voids w : exec i w = (Ret l, w) → neutral i = true → Forall (λ i, neutral i = true) l → inv (i :: c) fs voids w → goes_on i c fs voids w.
Proof.
  intros E Hi Hl HI. unfold goes_on. rewrite E. exists fs, voids. split; [|done]. apply jobs_inv_neutral; [done|]. apply (jobs_inv_neutral [i]); [|done]. by constructor.
Qed.

Lemma exec_with_block l (w : parallel) : m_block w = true → with_block l w = (Ret l, w).
Proof. intros Hb. unfold with_block. munfold. by rewrite Hb. Qed.

Lemma exec_locked {A} (k : M parallel A) (w : parallel) : m_lock w = false → (locked;; k) w = k w.
Proof. intros Hl. unfold locked. munfold. by rewrite Hl. Qed.

Lemma on_dq_run {A} (m : M Q A) r q (w : parallel) : m (dq w) = (r, q) → on_dq m w = (r, set_dq q w).
Proof. intros E. unfold on_dq. by rewrite E. Qed.

(** A job is counted, and linked. *)
Lemma goes_count f c fs voids w : inv (i_count f :: c) fs voids w → goes_on (i_count f) c fs voids w.
Proof.
  intros HI. apply (jobs_inv_neutral [i_count f]) in HI; [|by constructor]. destruct HI as [V1 V2 V3 V4 V5 V6 V7 V8 V9 V10].
  unfold goes_on. cbn [Parallel.exec]. unfold count. rewrite bind_assoc, exec_locked by done. cbn. exists fs, voids. split; [|done].
  split; cbn; try done.
  - unfold linking in *. cbn. rewrite V4, <-!app_assoc. do 3 f_equiv. by rewrite Permutation_app_comm.
  - rewrite V10, length_app. unfold sz_inc, sz_add, sz_wrap. rewrite Zplus_mod_idemp_l. f_equal. cbn. lia.
Qed.

Lemma goes_link f c fs voids w : inv (i_link f :: c) fs voids w → goes_on (i_link f) c fs voids w.
Proof.
  intros [V1 V2 V3 V4 V5 V6 V7 V8 V9 V10]. destruct (eq_pend_holds _ _ _ _ _ f V1) as (b & q & E & Hq & _).
  unfold goes_on. cbn [Parallel.exec]. unfold link. rewrite bind_assoc, (bind_Ret _ _ _ _ _ (on_dq_run _ _ _ _ E)). destruct b; cbn.
  - exists (fs ++ [f]), voids. split; [|done]. split; cbn; try done. rewrite V4. unfold linking. cbn. rewrite <-!app_assoc. apply Permutation_app_head, Permutation_app_head. cbn. symmetry. apply Permutation_middle.
  - exists fs, voids. split; [|done]. split; cbn; try done. rewrite V4. unfold linking. cbn. by rewrite <-!app_assoc.
Qed.

(** A worker takes a job, runs it and stores the result. *)
Lemma goes_take c fs voids w : inv (i_worker :: c) fs voids w → goes_on i_worker c fs voids w.
Proof.
  intros HI. apply (jobs_inv_neutral [i_worker]) in HI; [|by constructor]. destruct HI as [V1 V2 V3 V4 V5 V6 V7 V8 V9 V10].
  unfold goes_on. cbn [Parallel.exec]. unfold WaitForEvent. rewrite (bind_Ret _ _ _ w w) by done. rewrite (eq_aborted_holds _ _ _ _ _ V1). cbn.
  destruct fs as [|f fs].
  - destruct (eq_take_empty _ _ _ _ V1) as (q & E & Hq). by rewrite (bind_Ret _ _ _ _ _ (on_dq_run _ _ _ _ E)).
  - destruct (eq_take_first _ _ _ _ _ _ V1) as (t & q & E & Hq). rewrite (bind_Ret _ _ _ _ _ (on_dq_run _ _ _ _ E)). cbn. exists fs, voids. split; [|done].
    split; cbn; try done.
    + rewrite V4, <-!app_assoc. done.
    + unfold running in *. cbn. rewrite V5, <-app_assoc. f_equiv. by rewrite Permutation_app_comm.
Qed.

Lemma goes_job f c fs voids w : inv (i_job f :: c) fs voids w → goes_on (i_job f) c fs voids w.
Proof.
  intros HI. unfold goes_on. cbn [Parallel.exec]. unfold job_lambda. rewrite exec_with_block by apply HI. exists fs, voids. split; [|done].
  rewrite <-app_assoc. apply jobs_inv_neutral; [apply parallel_neutral_ops|]. destruct HI. by split.
Qed.

Lemma parallel_goes_finish t c fs voids w : inv (i_finish t :: c) fs voids w → goes_on (i_finish t) c fs voids w.
Proof.
  intros [V1 V2 V3 V4 V5 V6 V7 V8 V9 V10]. destruct (eq_finish_holds _ _ _ _ _ _ V1) as (q & E & Hq).
  unfold goes_on. cbn [Parallel.exec]. rewrite (bind_Ret _ _ _ _ _ (on_dq_run _ _ _ _ E)). exists fs, voids. split; [|done]. by split.
Qed.

(** The result of a job is stored. *)
Lemma sz_wrap_inc n : sz_inc (sz_wrap (Z.of_nat n)) = sz_wrap (Z.of_nat (S n)).
Proof. unfold sz_inc, sz_add, sz_wrap. rewrite Zplus_mod_idemp_l. f_equal. lia. Qed.

Lemma sz_wrap_dec n : sz_dec (sz_wrap (Z.of_nat (S n))) = sz_wrap (Z.of_nat n).
Proof. unfold sz_dec, sz_sub, sz_wrap. rewrite Zminus_mod_idemp_l. f_equal. lia. Qed.

Lemma values_of_snoc T l f : values_of T (l ++ [f]) = values_of T l ++ (if decide (j_type (jobs f) = Some T) then [j_value (jobs f)] else []).
Proof. unfold values_of. rewrite omap_app. f_equal. cbn. by destruct (decide _). Qed.

Lemma taken_snoc T l x : taken T (l ++ [x]) = taken T l ++ (if decide (x.1 = Some T) then [x.2] else []).
Proof. unfold taken. rewrite omap_app. f_equal. cbn. by destruct (decide _). Qed.

Lemma running_result f c (l d : list fx) : l ≡ₚ d ++ f :: c → l ≡ₚ (d ++ [f]) ++ c.
Proof. intros ->. by rewrite <-app_assoc. Qed.

Lemma goes_result f c fs voids w : inv (i_result f :: c) fs voids w → goes_on (i_result f) c fs voids w.
Proof.
  intros [V1 V2 V3 V4 V5 V6 V7 V8 V9 V10]. unfold goes_on. cbn [Parallel.exec]. unfold store_result. rewrite bind_assoc, exec_locked by done.
  assert (∀ P, cnt P [f] = if P f then 1 else 0) as Hc by (intros P; rewrite cnt_cons, cnt_nil; by destruct (P f)).
  destruct (j_type (jobs f)) as [T|] eqn:Et; cbn.
  - exists fs, voids. split; [|done]. split; cbn; try done.
    + by apply running_result.
    + rewrite cnt_app, Hc. unfold is_void at 2. rewrite Et. cbn. lia.
    + intros T'. rewrite values_of_snoc, Et, V8. unfold results. cbn. case_decide as Hne; [injection Hne as <-|].
      * by rewrite lookup_insert_eq, <-app_assoc.
      * rewrite lookup_insert_ne by congruence. by rewrite app_nil_r.
    + rewrite length_app, V9. pose proof (stored_insert T (results w T ++ [j_value (jobs f)]) (m_queue w)) as Hs. unfold results in *. rewrite length_app in Hs. cbn in *. lia.
  - exists fs, (S voids). split; [|done]. split; cbn; try done.
    + by apply running_result.
    + by rewrite V6, sz_wrap_inc.
    + rewrite cnt_app, Hc. unfold is_void at 2. rewrite Et. cbn. lia.
    + intros T'. rewrite values_of_snoc, Et, decide_False, app_nil_r by done. apply V8.
    + rewrite length_app, V9. cbn. lia.
Qed.

(** [Pop] takes a result. *)
Lemma pop_ok T c fs voids w : inv c fs voids w → pop_ready T w = true →
  ∃ voids' w', pop_result T w = (Ret tt, w') ∧ inv c fs voids' w' ∧ threads w' = threads w.
Proof.
  intros [V1 V2 V3 V4 V5 V6 V7 V8 V9 V10] Hr.
  assert (∀ x, sz_dec (m_outstandingCount w) = sz_wrap (Z.of_nat (length (added w)) - Z.of_nat (length (popped w ++ [x])))) as Hd.
  { intros x. rewrite V10, length_app. unfold sz_dec, sz_sub, sz_wrap. rewrite Zminus_mod_idemp_l. f_equal. cbn. lia. }
  assert (∀ x, cnt void_taken [x] = if void_taken x then 1 else 0) as Hc by (intros x; rewrite cnt_cons, cnt_nil; by destruct (void_taken x)).
  destruct T as [T|]; cbn in Hr.
  - apply bool_decide_eq_true in Hr. unfold pop_result. munfold. destruct (results w T) as [|v l] eqn:Er; [done|]. cbn. do 2 eexists. split; [done|]. split; [|done].
    split; cbn; try done.
    + rewrite cnt_app, Hc. cbn. lia.
    + intros T'. rewrite taken_snoc. cbn. rewrite V8. unfold results. cbn. case_decide as Hne; [injection Hne as <-|].
      * rewrite lookup_insert_eq. cbn. rewrite <-app_assoc. f_equal. exact Er.
      * rewrite lookup_insert_ne by congruence. by rewrite app_nil_r.
    + rewrite V9, length_app. pose proof (stored_insert T l (m_queue w)) as Hs. unfold results in Er. rewrite Er in Hs. cbn in *. lia.
  - rewrite V2 in Hr. apply negb_true_iff, bool_decide_eq_false in Hr. destruct voids as [|n]; [by rewrite V6 in Hr|].
    unfold pop_result. munfold. exists n. eexists. split; [done|]. split; [|done]. split; cbn; try done.
    + by rewrite V6, sz_wrap_dec.
    + rewrite cnt_app, Hc. cbn. lia.
    + intros T'. rewrite taken_snoc, decide_False, app_nil_r by done. apply V8.
    + rewrite V9, length_app. cbn. lia.
Qed.

Lemma jobs_inv_drop i c fs voids w : neutral i = true → inv (i :: c) fs voids w → inv c fs voids w.
Proof. intros Hi. apply (jobs_inv_neutral [i]). by constructor. Qed.

Lemma goes_pop T c fs voids w : inv (i_pop_locked T :: c) fs voids w → goes_on (i_pop_locked T) c fs voids w.
Proof.
  intros HI%jobs_inv_drop; [|done]. pose proof (v_lock _ _ _ _ HI) as Hl. unfold goes_on. cbn [Parallel.exec]. unfold try_catch, Pop. rewrite exec_locked by done.
  rewrite (bind_Ret _ _ _ w w) by done. destruct (bool_decide _); [by exists fs, voids|]. destruct (pop_ready T w) eqn:Hr.
  - destruct (pop_ok T c fs voids w HI Hr) as (voids' & w' & E & HI' & Et). rewrite (bind_Ret _ _ _ _ _ E). by exists fs, voids'.
  - cbn. exists fs, voids. split; [|done]. apply (jobs_inv_neutral [i_pop_wait T]); [by constructor|done].
Qed.

Lemma goes_pop_wait T c fs voids w : inv (i_pop_wait T :: c) fs voids w → goes_on (i_pop_wait T) c fs voids w.
Proof.
  intros HI%jobs_inv_drop; [|done]. pose proof (v_lock _ _ _ _ HI) as Hl. unfold goes_on. cbn [Parallel.exec]. unfold Pop_wait. rewrite exec_locked by done.
  rewrite (bind_Ret _ _ _ w w) by done. destruct (pop_ready T w) eqn:Hr; [|done].
  destruct (pop_ok T c fs voids w HI Hr) as (voids' & w' & E & HI' & Et). rewrite (bind_Ret _ _ _ _ _ E). by exists fs, voids'.
Qed.

Lemma front_ok T c fs voids w : inv c fs voids w → results w T ≠ [] → ∃ w', front T w = (Ret tt, w') ∧ inv c fs voids w' ∧ threads w' = threads w.
Proof.
  intros [V1 V2 V3 V4 V5 V6 V7 V8 V9 V10] Hr. unfold front. munfold. destruct (results w T) as [|v l]; [done|]. cbn. eexists. split; [done|]. by split.
Qed.

Lemma goes_top T c fs voids w : inv (i_top_locked T :: c) fs voids w → goes_on (i_top_locked T) c fs voids w.
Proof.
  intros HI%jobs_inv_drop; [|done]. pose proof (v_lock _ _ _ _ HI) as Hl. unfold goes_on. cbn [Parallel.exec]. unfold Top. rewrite exec_locked by done.
  rewrite (bind_Ret _ _ _ w w) by done. case_bool_decide as Hr.
  - cbn. exists fs, voids. split; [|done]. apply (jobs_inv_neutral [i_top_wait T]); [by constructor|done].
  - destruct (front_ok T c fs voids w HI Hr) as (w' & E & HI' & Et). rewrite (bind_Ret _ _ _ _ _ E). by exists fs, voids.
Qed.

Lemma goes_top_wait T c fs voids w : inv (i_top_wait T :: c) fs voids w → goes_on (i_top_wait T) c fs voids w.
Proof.
  intros HI%jobs_inv_drop; [|done]. pose proof (v_lock _ _ _ _ HI) as Hl. pose proof (v_block _ _ _ _ HI) as Hb. unfold goes_on. cbn [Parallel.exec]. unfold Top_wait. rewrite exec_locked by done.
  rewrite (bind_Ret _ _ _ w w) by done. rewrite Hb. cbn. case_bool_decide as Hr.
  - destruct (front_ok T c fs voids w HI Hr) as (w' & E & HI' & Et). rewrite (bind_Ret _ _ _ _ _ E). by exists fs, voids.
  - exact Hr.
Qed.

Lemma goes_barrier c fs voids w : inv (i_barrier_wait :: c) fs voids w → goes_on i_barrier_wait c fs voids w.
Proof.
  intros HI%jobs_inv_drop; [|done]. pose proof (v_lock _ _ _ _ HI) as Hl. pose proof (v_block _ _ _ _ HI) as Hb. unfold goes_on. cbn [Parallel.exec]. unfold barrier.
  rewrite bind_assoc, exec_locked by done. munfold. rewrite Hb. cbn. case_bool_decide as Hr; cbn; [by exists fs, voids|done].
Qed.

(** Any step. *)
Lemma exec_calm i c fs voids w : calm i → inv (i :: c) fs voids w → goes_on i c fs voids w.
Proof.
  intros Hi HI. pose proof (v_block _ _ _ _ HI) as Hb.
  destruct i; try done; auto using goes_count, goes_link, goes_pop, goes_pop_wait, goes_top, goes_top_wait, goes_barrier, goes_take, goes_job, goes_result, parallel_goes_finish.
  all: try (eapply parallel_goes_same; [by apply exec_with_block|done|by repeat constructor|done]).
  eapply parallel_goes_same; [done|done| |done]. destruct (bool_decide _); [done|]. destruct T; by repeat constructor.
Qed.

(** ** Steps of any thread *)
Definition jobs_inv (fs : list fx) (voids : nat) (w : parallel) : Prop := inv (concat (threads w)) fs voids w ∧ Forall (Forall calm) (threads w).

Lemma exec_stays_calm i w l w' : calm i → exec i w = (Ret l, w') → Forall calm l.
Proof.
  assert (∀ a (w0 : parallel) l0 w2, Forall calm a → with_block a w0 = (Ret l0, w2) → Forall calm l0) as Hb.
  { intros a w0 l0 w2 Ha. unfold with_block. munfold. intros [= <- _]. by destruct (m_block w0). }
  intros Hi. destruct i; try done; cbn [Parallel.exec].
  all: try (apply Hb; by repeat constructor).
  all: try (unfold count, link, barrier, store_result, Pop, Pop_wait, Top, Top_wait, try_catch, next, locked, front, on_dq, WaitForEvent; munfold; intros E; repeat (case_match; simplify_eq/=); by repeat constructor).
  apply Hb, Forall_app. split; [by apply parallel_calm_ops|by repeat constructor].
Qed.

Lemma jobs_step n fs voids w : jobs_inv fs voids w →
  match step n w with
  | Ret w' => ∃ fs' voids', jobs_inv fs' voids' w'
  | Stuck blocked => ∀ i rest, threads w !! n = Some (i :: rest) → waits_at i fs w
  | _ => False
  end.
Proof.
  intros [HI Hc]. unfold Parallel.step. destruct (threads w !! n) as [[|i rest]|] eqn:Hn; [done| |done].
  destruct (concat_insert _ _ _ Hn) as (c & Hp & Hp'). apply (jobs_inv_perm _ _ _ _ _ Hp) in HI. cbn in HI.
  rewrite Forall_lookup in Hc. pose proof (Hc _ _ Hn) as [Hi Hr]%Forall_cons. pose proof (exec_calm _ _ _ _ _ Hi HI) as Hgo.
  unfold goes_on in Hgo. destruct (exec i w) as [[l|e|[]] w1] eqn:E; try done; [|by intros i' rest' [= <- <-]].
  destruct Hgo as (fs' & voids' & HI' & Et). exists fs', voids'. split; cbn; rewrite Et.
  - apply (jobs_inv_perm (l ++ rest ++ c)); [by rewrite Hp', app_assoc|]. destruct HI'. by split.
  - apply Forall_lookup. intros m lm Hm. apply list_lookup_insert_Some in Hm as [(_ & <- & _)|[_ Hm]]; [|by eapply Hc].
    apply Forall_app. split; [by eapply exec_stays_calm|done].
Qed.

Lemma jobs_run schedule fs voids w : jobs_inv fs voids w → ∃ w' fs' voids', run schedule w = Ret w' ∧ jobs_inv fs' voids' w'.
Proof.
  revert fs voids w. induction schedule as [|n schedule IH]; intros fs voids w Hi; cbn; [by exists w, fs, voids|].
  pose proof (jobs_step n _ _ _ Hi) as Hs. destruct (step n w) as [w1|e|[]]; try done; [|by eapply IH].
  destruct Hs as (fs1 & voids1 & Hi1). by eapply IH.
Qed.

Lemma jobs_new concurrency programs : Forall no_stop programs → jobs_inv [] 0 (parallel_new concurrency programs).
Proof.
  intros Hp. assert (∀ l, l ∈ threads (parallel_new concurrency programs) → Forall (λ i, neutral i = true) l ∧ Forall calm l) as Hl.
  { intros l [Hl|Hl]%elem_of_app.
    - apply list_elem_of_lookup in Hl as (m & [-> _]%lookup_replicate). by repeat constructor.
    - apply list_elem_of_fmap in Hl as (p & -> & Hin). rewrite Forall_forall in Hp. split; [apply parallel_neutral_ops|by apply parallel_calm_ops, Hp]. }
  split; [|apply Forall_forall; intros l ?; by apply Hl].
  rewrite <-(app_nil_r (concat _)). apply jobs_inv_neutral.
  - apply Forall_forall. intros i (l & Hin & Hi)%list_elem_of_In%List.in_concat. apply list_elem_of_In in Hin, Hi. destruct (Hl _ Hin) as [Hn _]. rewrite Forall_forall in Hn. by apply Hn.
  - split; try done. apply eq_new_holds.
Qed.

(** Nothing that was counted is missing once results are as many. *)
Lemma all_stored c fs voids w : inv c fs voids w → (Z.of_nat (length (added w)) < size_mod)%Z → m_outstandingCount w = totalReady w ↔
  fs = [] ∧ refused w = [] ∧ linking c = [] ∧ running c = [].
Proof.
  intros [V1 V2 V3 V4 V5 V6 V7 V8 V9 V10] Hsize. apply Permutation_length in V4, V5. rewrite !length_app in V4. rewrite length_app in V5.
  unfold totalReady. rewrite V6, V10. fold (stored (m_queue w)). unfold sz_wrap at 2 3. rewrite Zplus_mod_idemp_l.
  fold (sz_wrap (Z.of_nat voids + Z.of_nat (stored (m_queue w)))). rewrite !sz_wrap_id by (unfold in_size; lia). split.
  - intros Hz. assert (length fs + length (refused w) + length (linking c) + length (running c) = 0) as Hl by lia.
    split_and!; apply nil_length_inv; lia.
  - intros (-> & Hr & Hk & Hg). rewrite Hr, Hk in V4. rewrite Hg in V5. cbn in *. lia.
Qed.

(** ** Who waits for what *)
(** Jobs that only add jobs. *)
Definition only_add (o : parallel_op) : Prop := match o with po_add _ => True | _ => False end.

Definition busy (i : instr) : Prop := match i with i_add _ | i_count _ | i_link _ | i_job _ | i_result _ | i_finish _ => True | _ => False end.
Definition later_step (i : instr) : Prop := match i with i_add _ | i_pop _ | i_top _ | i_all _ | i_next _ | i_barrier => True | _ => False end.
Definition client_step (i : instr) : Prop :=
  match i with
  | i_add _ | i_count _ | i_link _ | i_pop _ | i_pop_locked _ | i_pop_wait _ | i_top _ | i_top_locked _ | i_top_wait _ | i_all _ | i_next _ | i_barrier | i_barrier_wait => True
  | _ => False
  end.

Definition client_code (l : list instr) : Prop := l = [] ∨ ∃ i rest, l = i :: rest ∧ client_step i ∧ Forall later_step rest.
Definition worker_code (l : list instr) : Prop := ∃ body, l = body ++ [i_worker] ∧ Forall busy body.

(** [k] workers, then the clients. *)
Definition shape (k : nat) (w : parallel) : Prop := k ≤ length (threads w) ∧ ∀ n l, threads w !! n = Some l → if decide (n < k) then worker_code l else client_code l.

Lemma later_client l rest : (l = [] ∨ ∃ j l', l = j :: l' ∧ client_step j ∧ Forall later_step l') → Forall later_step rest → client_code (l ++ rest).
Proof.
  intros [-> |(j & l' & -> & Hj & Hl')] Hr.
  - destruct rest as [|i rest]; [by left|right]. apply Forall_cons in Hr as [Hi Hr]. exists i, rest. split_and!; [done|by destruct i|done].
  - right. exists j, (l' ++ rest). split_and!; [done|done|by apply Forall_app].
Qed.

Lemma later_ops ops : no_stop ops → Forall later_step (map instr_of ops).
Proof. intros Hn. apply Forall_forall. intros i (o & -> & Ho)%list_elem_of_fmap. by destruct o. Qed.

Lemma exec_client i w l w' : client_step i → exec i w = (Ret l, w') → l = [] ∨ ∃ j l', l = j :: l' ∧ client_step j ∧ Forall later_step l'.
Proof.
  intros Hi. destruct i; try done; cbn [Parallel.exec];
    unfold with_block, count, link, barrier, Pop, Pop_wait, Top, Top_wait, try_catch, next, locked, front, pop_result, on_dq; munfold; intros E; repeat (case_match; simplify_eq/=).
  all: try (by left).
  all: right; do 2 eexists; split; [done|split; [done|by repeat constructor]].
Qed.

Context (adds : ∀ f, Forall only_add (j_calls (jobs f))).

Lemma exec_busy i w l w' : busy i → exec i w = (Ret l, w') → Forall busy l.
Proof.
  assert (∀ f, Forall busy (map instr_of (j_calls (jobs f)))) as Hj.
  { intros f. apply Forall_forall. intros i' (o & -> & Ho)%list_elem_of_fmap. pose proof (adds f) as Ha. rewrite Forall_forall in Ha. specialize (Ha _ Ho). by destruct o. }
  intros Hi. destruct i; try done; cbn [Parallel.exec];
    unfold job_lambda, with_block, count, link, store_result, locked, on_dq; munfold; intros E; repeat (case_match; simplify_eq/=); try by repeat constructor.
  apply Forall_app. split; [done|by repeat constructor].
Qed.

Lemma exec_worker fs voids c w l w' : inv c fs voids w → exec i_worker w = (Ret l, w') → worker_code l.
Proof.
  intros HI. cbn [Parallel.exec]. unfold WaitForEvent. rewrite (bind_Ret _ _ _ w w) by done. rewrite (eq_aborted_holds _ _ _ _ _ (v_dq _ _ _ _ HI)). cbn.
  unfold on_dq. munfold. destruct (eq_take (dq w)) as [[[[t f]|]|e|r] q]; try done. intros [= <- _]. exists [i_job f; i_finish t]. split; [done|by repeat constructor].
Qed.

Lemma shape_step k n fs voids w w' : jobs_inv fs voids w → shape k w → step n w = Ret w' → shape k w'.
Proof.
  intros [HI Hcalm] [Hk Hs] E. unfold Parallel.step in E. destruct (threads w !! n) as [[|i rest]|] eqn:Hn; try done.
  destruct (exec i w) as [[l|e|r] w1] eqn:Ee; try done. injection E as <-.
  destruct (concat_insert _ _ _ Hn) as (c & Hp & Hp'). pose proof HI as HIc. apply (jobs_inv_perm _ _ _ _ _ Hp) in HIc. cbn in HIc.
  rewrite Forall_lookup in Hcalm. pose proof (Hcalm _ _ Hn) as [Hi _]%Forall_cons. pose proof (exec_calm _ _ _ _ _ Hi HIc) as Hgo. unfold goes_on in Hgo. rewrite Ee in Hgo.
  destruct Hgo as (_ & _ & _ & Et). split; cbn; rewrite Et; [by rewrite length_insert|].
  intros m lm Hm. apply list_lookup_insert_Some in Hm as [(<- & <- & _)|[_ Hm]]; [|by apply Hs]. specialize (Hs _ _ Hn). case_decide.
  - destruct Hs as ([|j body] & Hb & Hbusy); cbn in Hb; injection Hb as -> ->.
    + rewrite app_nil_r. by eapply exec_worker.
    + apply Forall_cons in Hbusy as [Hj Hbusy]. exists (l ++ body). split; [by rewrite app_assoc|]. apply Forall_app. split; [by eapply exec_busy|done].
  - destruct Hs as [?|(j & r & [= <- <-] & Hj & Hr)]; [done|]. apply later_client; [|done]. by eapply exec_client.
Qed.

Lemma shape_run k schedule fs voids w w' : jobs_inv fs voids w → shape k w → run schedule w = Ret w' → shape k w'.
Proof.
  revert fs voids w. induction schedule as [|n schedule IH]; intros fs voids w Hi Hs E; cbn in E; [by injection E as <-|].
  pose proof (jobs_step n _ _ _ Hi) as Hst. destruct (step n w) as [w1|e|[]] eqn:E1; try done; [|by eapply IH].
  destruct Hst as (fs1 & voids1 & Hi1). eapply IH; [exact Hi1|exact (shape_step _ _ _ _ _ _ Hi Hs E1)|done].
Qed.

Lemma shape_new concurrency programs : Forall no_stop programs → shape concurrency (parallel_new concurrency programs).
Proof.
  intros Hp. split; cbn; [rewrite length_app, length_replicate; lia|]. intros n l Hn. case_decide.
  - rewrite lookup_app_l, lookup_replicate_2 in Hn by (rewrite ?length_replicate; done). injection Hn as <-. by exists [].
  - rewrite lookup_app_r in Hn by (rewrite length_replicate; lia). apply list_lookup_fmap_Some in Hn as (p & -> & Hin%list_elem_of_lookup_2).
    rewrite Forall_forall in Hp. apply (later_client []); [by left|by apply later_ops, Hp].
Qed.

(** When no thread can take a step, workers have nothing to do. *)
Lemma stuck_parallel k fs voids w : 0 < k → jobs_inv fs voids w → shape k w → (∀ n, step n w = Stuck blocked) →
  fs = [] ∧ linking (concat (threads w)) = [] ∧ running (concat (threads w)) = [] ∧
  ∀ n l, threads w !! n = Some l → if decide (n < k) then l = [i_worker] else l = [] ∨ ∃ i rest, l = i :: rest ∧ client_step i ∧ waits_at i [] w.
Proof.
  intros Hk Hi [Hlen Hs] Hst.
  assert (∀ n i rest, threads w !! n = Some (i :: rest) → waits_at i fs w) as Hw by (intros n i rest Hn; pose proof (jobs_step n _ _ _ Hi) as Hx; rewrite Hst in Hx; by eapply Hx).
  assert (∀ n l, threads w !! n = Some l → if decide (n < k) then l = [i_worker] ∧ fs = [] else l = [] ∨ ∃ i rest, l = i :: rest ∧ client_step i ∧ Forall later_step rest ∧ waits_at i fs w) as Hcode.
  { intros n l Hn. specialize (Hs _ _ Hn). case_decide.
    - destruct Hs as ([|j body] & -> & Hb); [split; [done|by apply (Hw _ _ _ Hn)]|]. apply Forall_cons in Hb as [Hj _]. pose proof (Hw _ _ _ Hn) as Hx. by destruct j.
    - destruct Hs as [?|(i & rest & -> & Hc & Hr)]; [by left|right]. exists i, rest. split_and!; try done. by eapply Hw. }
  destruct (lookup_lt_is_Some_2 (threads w) 0 ltac:(lia)) as [l0 Hl0]. pose proof (Hcode _ _ Hl0) as Hl0'. rewrite decide_True in Hl0' by done. destruct Hl0' as [_ Hfs].
  assert (∀ {A} (g : instr → option A), (∀ i, later_step i → g i = None) → g i_worker = None → (∀ i, client_step i → waits_at i fs w → g i = None) → omap g (concat (threads w)) = []) as Hnone.
  { intros A g G1 G2 G3. destruct (omap g (concat (threads w))) as [|a l] eqn:E; [done|]. assert (a ∈ omap g (concat (threads w))) as Ha by (rewrite E; left).
    apply list_elem_of_omap in Ha as (i & Hin & Hg). apply list_elem_of_In, List.in_concat in Hin as (lm & Hm & Hin). apply list_elem_of_In in Hm, Hin.
    apply list_elem_of_lookup in Hm as [m Hm]. specialize (Hcode _ _ Hm). case_decide.
    - destruct Hcode as [-> _]. apply list_elem_of_singleton in Hin. congruence.
    - destruct Hcode as [-> |(j & rest & -> & Hj & Hr & Hwj)]; [by apply elem_of_nil in Hin|]. apply elem_of_cons in Hin as [-> |Hin]; [specialize (G3 _ Hj Hwj); congruence|].
      rewrite Forall_forall in Hr. specialize (G1 _ (Hr _ Hin)). congruence. }
  split_and!; [done|apply Hnone; [by intros []|done|by intros []]|apply Hnone; [by intros []|done|by intros []]|].
  intros n l Hn. specialize (Hcode _ _ Hn). case_decide; [by destruct Hcode|]. destruct Hcode as [?|(i & rest & -> & Hc & _ & Hx)]; [by left|right].
  exists i, rest. rewrite Hfs in Hx. done.
Qed.
End facts.
