(* ===== verification/ParallelSpec.v ===== *)
(** * parallel: what clients may rely on

    For every queue that keeps the laws of EventQueue.v, all programs of any number of
    client threads that do not call [stop], and all schedules; and what [stop] does. *)
From stdpp Require Import base gmap list strings.
From Stdlib Require Import ZArith Lia.
From S2P Require Import Prelude.
From S2P Require Import DispatchQueue.
From S2P Require Import EventQueue.
From S2P Require Import Parallel.
From S2P Require Import ParallelFacts.
Local Open Scope nat_scope.

Section contracts.
  Context {Q : Type} `{EventQueueLaws Q}.
  Context (jobs : fx → job).
  Local Abbreviation parallel := (Parallel.parallel (Q := Q)).
  Local Abbreviation step := (Parallel.step jobs).
  Local Abbreviation run := (Parallel.run jobs).

Lemma parallel_reached (programs : list (list parallel_op)) (concurrency : nat) (schedule : list nat) : jobs_ok jobs → Forall no_stop programs →
  ∃ w fs voids, run schedule (parallel_new concurrency programs) = Ret w ∧ jobs_inv jobs fs voids w.
Proof.
  intros Hok Hp. destruct (jobs_run jobs Hok schedule [] 0 (parallel_new concurrency programs)) as (w & fs & voids & E & Hi); [by apply jobs_new|].
  by exists w, fs, voids.
Qed.



End contracts.

(** ** Examples, with DispatchQueue.cpp as the queue *)
(** Job 3 adds job 1; even jobs return their number, job 1 returns nothing. *)
Definition demo_job (f : fx) : job :=
  match f with
  | 1 => mkJob [] None 0
  | 3 => mkJob [po_add 1] (Some 7) 33
  | _ => mkJob [] (Some 0) f
  end.

Lemma demo_job_adds f : Forall only_add (j_calls (demo_job f)).
Proof. do 4 (destruct f as [|f]; [by repeat constructor|]). by repeat constructor. Qed.

Definition parallel_demo_from (schedule : list nat) (w : parallel) : outcome parallel :=
  let _ := dispatch_event_queue (λ _, 0%Z) in run demo_job schedule w.
Definition parallel_demo (concurrency : nat) (schedule : list nat) (programs : list (list parallel_op)) : outcome parallel :=
  let _ := dispatch_event_queue (λ _, 0%Z) in parallel_demo_from schedule (parallel_new concurrency programs).
Definition parallel_demo_after (concurrency : nat) (schedule : list nat) (programs : list (list parallel_op)) : parallel :=
  match parallel_demo concurrency schedule programs with Ret w => w | _ => let _ := dispatch_event_queue (λ _, 0%Z) in parallel_new 0 [] end.

(** Two workers; the second client waits for more than there will be. *)
Definition demo_programs : list (list parallel_op) := [[po_add 2; po_add 4; po_add 3; po_add 6; po_barrier; po_all (Some 0)]; [po_pop None; po_pop (Some 7); po_top 7; po_pop None]].
Definition demo_schedule : list nat := concat (replicate 40 [2; 3; 2; 0; 2; 1]).

Lemma demo_programs_no_stop : Forall no_stop demo_programs.
Proof. repeat constructor; intros Hin; repeat (apply elem_of_cons in Hin as [?|Hin]; [done|]); by apply elem_of_nil in Hin. Qed.


Definition demo_barrier : list nat := replicate 13 2 ++ concat (replicate 8 [0; 1; 0]) ++ [0; 0; 0; 0; 0; 0; 0; 0; 1; 1; 1; 1].



(** ** What goes wrong *)
(** [stop], and so the destructor and the shutdown of the context, wait for themselves as
    soon as a job is in the queue: the job takes the lock that [stop] holds. *)
Lemma stop_deadlocks : let w := parallel_demo_after 1 (replicate 20 1 ++ [0]) [[po_add 2; po_stop]] in
  m_lock w = true ∧ threads w = [[]; [i_result 2; i_done 0 None]] ∧ ∀ n, (let _ := dispatch_event_queue (λ _, 0%Z) in step demo_job n w) = Stuck blocked.
Proof. split_and!; [vm_compute; reflexivity..|]. intros [|[|n]]; vm_compute; reflexivity. Qed.

(** The queue holds 1024 jobs. The next one is counted, although it is refused: a barrier
    then waits for ever. *)
Definition crowd : list (list parallel_op) := [replicate 1025 (po_add 2) ++ [po_barrier]].
Definition crowd_schedule : list nat := replicate (3 * 1025 + 2) 1 ++ replicate (4 * 1024) 0.

(** Whether no thread can take a step. *)
Definition all_blocked (w : parallel) : bool :=
  forallb (λ n, match (let _ := dispatch_event_queue (λ _, 0%Z) in step demo_job n w) with Stuck blocked => true | _ => false end) (seq 0 (length (threads w))).

(** The threads, how many jobs are done, which were refused, and whether all wait. *)
Definition summary (r : outcome parallel) : option (list (list instr) * nat * list fx * bool) :=
  match r with Ret w => Some (threads w, length (delivered w), refused w, all_blocked w) | _ => None end.

Lemma refused_job_blocks_barrier : summary (parallel_demo 1 crowd_schedule crowd) = Some ([[i_worker]; [i_barrier_wait]], 1024, [2], true).
Proof. vm_compute. reflexivity. Qed.

(** A thread that waits in [Top] when [stop] comes, and is woken by the end of a job, uses
    the front of a queue that is empty. *)
Lemma stopped_top_is_undefined : parallel_demo 1 (replicate 3 1 ++ replicate 3 2 ++ [0; 0] ++ replicate 4 2 ++ [0; 1]) [[po_top 0; po_top 0]; [po_add 1; po_stop]] = Stuck undefined_behavior.
Proof. vm_compute. reflexivity. Qed.

(** One that waits in [Pop<void>] takes the count of results to 2^64 - 1. *)
Lemma stopped_pop_wraps : let w := parallel_demo_after 1 (replicate 3 2 ++ replicate 3 1 ++ [0; 0] ++ replicate 4 2 ++ [0; 1]) [[po_pop None]; [po_add 2; po_stop]] in
  m_nVoidEntries w = size_max.
Proof. vm_compute. reflexivity. Qed.
