(* ===== verification/AutoFilter.v ===== *)
(** * AutoFilter descriptors and saturation counters

    [altitude], [AutoFilterArgument], [AutoFilterDescriptorStub],
    [AutoFilterDescriptor] and [SatCounter] of src/src/autowiring/altitude.h,
    AutoFilterArgument.h, AutoFilterDescriptor.{h,cpp} and SatCounter.h.

    Type identities ([auto_id]) and the addresses of filter objects and of
    extracted call thunks are numbers; type 0 is [void], the sentinel that ends
    an argument array, so an argument array is the list of what precedes it. *)
From stdpp Require Import base list strings.
From Stdlib Require Import ZArith Lia.
From S2P Require Import Prelude.

Definition auto_id : Type := nat.
Definition t_extractedCall : Type := nat.
(** [AnySharedPointer]: empty or an object. *)
Definition AnySharedPointer : Type := option nat.

(** [enum class altitude]: its underlying integer. *)
Definition altitude : Type := Z.
Definition altitude_Highest : altitude := 0x10000%Z.
Definition altitude_Instrumentation : altitude := 0x20000%Z.
Definition altitude_Dispatch : altitude := 0x30000%Z.
Definition altitude_Asynchronous : altitude := 0x40000%Z.
Definition altitude_Realtime : altitude := 0x50000%Z.
Definition altitude_Standard : altitude := 0x60000%Z.
Definition altitude_Passive : altitude := 0x70000%Z.
Definition altitude_Lowest : altitude := 0x10000000%Z.

(** [operator+(altitude, int)] and [operator-(altitude, int)]. *)
Definition altitude_add (alt : altitude) (v : Z) : altitude := (alt + v)%Z.
Definition altitude_sub (alt : altitude) (v : Z) : altitude := (alt - v)%Z.

(** [altitude_of<T, Default>::value]: the declared altitude, else the default. *)
Definition altitude_of (declared : option altitude) (Default : altitude) : altitude :=
  match declared with Some a => a | None => Default end.

Record AutoFilterArgument := mkArg {
  is_input : bool;
  is_output : bool;
  is_rvalue : bool;
  is_shared : bool;
  is_multi : bool;
  id : auto_id }.

#[export] Instance AutoFilterArgument_eq_dec : EqDecision AutoFilterArgument.
Proof. solve_decision. Defined.

Record AutoFilterDescriptor := mkDescriptor {
  m_type : auto_id;
  m_altitude : altitude;
  m_pArgs : list AutoFilterArgument;
  m_deferred : bool;
  m_arity : nat;
  m_requiredCount : nat;
  m_pCall : t_extractedCall;
  m_autoFilter : AnySharedPointer }.

#[export] Instance AutoFilterDescriptor_eq_dec : EqDecision AutoFilterDescriptor.
Proof. solve_decision. Defined.

(** The constructor's loop over the argument array, from the given counts. *)
Fixpoint count_args (pArgs : list AutoFilterArgument) (arity requiredCount : nat) : nat * nat :=
  match pArgs with
  | [] => (arity, requiredCount)
  | pArg :: rest => count_args rest (S arity) (if is_input pArg then S requiredCount else requiredCount)
  end.

Definition AutoFilterDescriptor_new (autoFilter : AnySharedPointer) (type : auto_id) (alt : altitude)
    (pArgs : list AutoFilterArgument) (deferred : bool) (pCall : t_extractedCall)
    : AutoFilterDescriptor :=
  let c := count_args pArgs 0 0 in
  mkDescriptor type alt pArgs deferred c.1 c.2 pCall autoFilter.

(** [for (i = GetArity(); i--;) if (type matches) return ...]: from the last argument. *)
Definition find_last (ti : auto_id) (d : AutoFilterDescriptor) : option AutoFilterArgument :=
  find (λ a, Nat.eqb (id a) ti) (rev (take (m_arity d) (m_pArgs d))).

Definition Provides (ti : auto_id) (d : AutoFilterDescriptor) : bool :=
  match find_last ti d with Some a => is_output a && negb (is_rvalue a) | None => false end.

Definition Consumes (ti : auto_id) (d : AutoFilterDescriptor) : bool :=
  match find_last ti d with Some a => is_input a && negb (is_rvalue a) | None => false end.

Definition GetArgumentType (argType : auto_id) (d : AutoFilterDescriptor) : option AutoFilterArgument :=
  find (λ a, Nat.eqb (id a) argType) (m_pArgs d).

Definition ReleaseAutoFilter (d : AutoFilterDescriptor) : AutoFilterDescriptor :=
  mkDescriptor (m_type d) (m_altitude d) (m_pArgs d) (m_deferred d) 0 (m_requiredCount d) (m_pCall d) None.

(** [operator==]: the same call on the same filter object. *)
Definition descriptor_eq (l r : AutoFilterDescriptor) : bool :=
  Nat.eqb (m_pCall l) (m_pCall r) && bool_decide (m_autoFilter l = m_autoFilter r).

(** [std::tie(..) < std::tie(..)] on altitude, call and filter object. *)
Definition ptr_ltb (l r : AnySharedPointer) : bool :=
  match l, r with
  | None, Some _ => true
  | Some a, Some b => Nat.ltb a b
  | _, None => false
  end.

Definition tie_lt (l r : AutoFilterDescriptor) : bool :=
  Z.ltb (m_altitude l) (m_altitude r) ||
  (Z.eqb (m_altitude l) (m_altitude r) &&
   (Nat.ltb (m_pCall l) (m_pCall r) ||
    (Nat.eqb (m_pCall l) (m_pCall r) && ptr_ltb (m_autoFilter l) (m_autoFilter r)))).

(** [operator<]: descending order of the tuples. *)
Definition descriptor_lt (l r : AutoFilterDescriptor) : bool := tie_lt r l.
Definition descriptor_le (l r : AutoFilterDescriptor) : bool := descriptor_lt l r || descriptor_eq l r.
Definition descriptor_gt (l r : AutoFilterDescriptor) : bool := negb (descriptor_le l r).
Definition descriptor_ge (l r : AutoFilterDescriptor) : bool := negb (descriptor_lt l r).
Definition descriptor_ne (l r : AutoFilterDescriptor) : bool := negb (descriptor_eq l r).

(** [bool AutoFilterDescriptor::empty], for a call that is set. *)
Definition descriptor_empty (d : AutoFilterDescriptor) : bool := bool_decide (m_autoFilter d = None).

(** [struct SatCounter]: a descriptor on a packet's doubly linked list. *)
Record SatCounter := mkSat {
  descriptor : AutoFilterDescriptor;
  flink : option nat;
  blink : option nat;
  remaining : nat }.

#[export] Instance SatCounter_eq_dec : EqDecision SatCounter.
Proof. solve_decision. Defined.

Definition SatCounter_new (source : AutoFilterDescriptor) : SatCounter :=
  mkSat source None None (m_requiredCount source).

(** [SatCounter(const SatCounter&)]: the links are not copied. *)
Definition SatCounter_copy (source : SatCounter) : SatCounter :=
  mkSat (descriptor source) None None (remaining source).

Definition set_remaining (n : nat) (s : SatCounter) : SatCounter :=
  mkSat (descriptor s) (flink s) (blink s) n.

(** [return remaining && !--remaining;] *)
Definition Decrement (s : SatCounter) : bool * SatCounter :=
  match remaining s with
  | 0 => (false, s)
  | S n => (Nat.eqb n 0, set_remaining n s)
  end.

Definition Increment (s : SatCounter) : SatCounter := set_remaining (S (remaining s)) s.

(** ** Facts *)
Lemma count_args_spec l : ∀ a r,
  count_args l a r = (length l + a, length (base.filter (λ x, is_input x = true) l) + r).
Proof.
  induction l as [|x l IH]; intros a r; simpl; [done|]. rewrite IH.
  rewrite filter_cons. destruct (is_input x); case_decide; simpl; try done; f_equal; lia.
Qed.

Lemma descriptor_new_counts f t alt args d c :
  m_arity (AutoFilterDescriptor_new f t alt args d c) = length args ∧
  m_requiredCount (AutoFilterDescriptor_new f t alt args d c)
    = length (base.filter (λ x, is_input x = true) args).
Proof. unfold AutoFilterDescriptor_new. rewrite count_args_spec. simpl. lia. Qed.

Lemma descriptor_eq_spec l r :
  descriptor_eq l r = true ↔ m_pCall l = m_pCall r ∧ m_autoFilter l = m_autoFilter r.
Proof. unfold descriptor_eq. by rewrite andb_true_iff, Nat.eqb_eq, bool_decide_eq_true. Qed.

Lemma ptr_ltb_irrefl a : ptr_ltb a a = false.
Proof. destruct a; simpl; [apply Nat.ltb_irrefl|done]. Qed.

Lemma tie_lt_irrefl d : tie_lt d d = false.
Proof.
  unfold tie_lt. rewrite Z.ltb_irrefl, Z.eqb_refl, Nat.ltb_irrefl, Nat.eqb_refl, ptr_ltb_irrefl. done.
Qed.

(** The key the comparison sorts by. *)
Lemma tie_lt_spec l r :
  tie_lt l r = true ↔
  (m_altitude l < m_altitude r)%Z ∨
  (m_altitude l = m_altitude r ∧
   (m_pCall l < m_pCall r ∨ (m_pCall l = m_pCall r ∧ ptr_ltb (m_autoFilter l) (m_autoFilter r) = true))).
Proof.
  unfold tie_lt. rewrite orb_true_iff, andb_true_iff, orb_true_iff, andb_true_iff,
    Z.ltb_lt, Z.eqb_eq, Nat.ltb_lt, Nat.eqb_eq. done.
Qed.

Lemma ptr_ltb_trans a b c : ptr_ltb a b = true → ptr_ltb b c = true → ptr_ltb a c = true.
Proof. destruct a, b, c; simpl; rewrite ?Nat.ltb_lt; try done; lia. Qed.

Lemma tie_lt_trans a b c : tie_lt a b = true → tie_lt b c = true → tie_lt a c = true.
Proof.
  rewrite !tie_lt_spec. pose proof (ptr_ltb_trans (m_autoFilter a) (m_autoFilter b) (m_autoFilter c)).
  intros [?|[? [?|[? ?]]]] [?|[? [?|[? ?]]]]; try (left; lia); right; (split; [lia|]);
    try (left; lia); right; (split; [lia|auto]).
Qed.

(** [operator<] is a strict order. *)
Lemma descriptor_order_strict a b c :
  descriptor_lt a a = false ∧
  (descriptor_lt a b = true → descriptor_lt b c = true → descriptor_lt a c = true).
Proof.
  unfold descriptor_lt. split; [apply tie_lt_irrefl|]. intros H1 H2. by apply (tie_lt_trans c b a).
Qed.

Lemma Decrement_spec s :
  (Decrement s).1 = Nat.eqb (remaining s) 1 ∧ remaining (Decrement s).2 = pred (remaining s) ∧
  descriptor (Decrement s).2 = descriptor s ∧ flink (Decrement s).2 = flink s ∧ blink (Decrement s).2 = blink s.
Proof. unfold Decrement. destruct (remaining s) as [|[|n]] eqn:Hr; simpl; by rewrite ?Hr. Qed.
