(* ===== verification/Decoration.v ===== *)
(** * Decoration dispositions: src/src/autowiring/DecorationDisposition.h

    The state of one decoration type on a packet: its decorations, the filters
    that publish, modify and subscribe to it, and the state machine
    Unsatisfied -> PartlySatisfied -> Complete.  [std::set<Subscriber>] is a list
    sorted by [Subscriber::operator<]; filters are named by the address of their
    saturation counter. *)
From stdpp Require Import base list strings sorting.
From Stdlib Require Import ZArith Lia.
From S2P Require Import Prelude.
From S2P Require Import AutoFilter.

Definition sat_addr : Type := nat.

Inductive DispositionState := Unsatisfied | PartlySatisfied | Complete.

#[export] Instance DispositionState_eq_dec : EqDecision DispositionState.
Proof. solve_decision. Defined.

Record Modifier := mkModifier {
  mod_is_shared : bool;
  mod_altitude : altitude;
  mod_satCounter : sat_addr }.

#[export] Instance Modifier_eq_dec : EqDecision Modifier.
Proof. solve_decision. Defined.

Inductive SubscriberType := Normal | Optional | Multi.

#[export] Instance SubscriberType_eq_dec : EqDecision SubscriberType.
Proof. solve_decision. Defined.

Record Subscriber := mkSubscriber {
  sub_is_shared : bool;
  sub_type : SubscriberType;
  sub_altitude : altitude;
  sub_satCounter : sat_addr }.

#[export] Instance Subscriber_eq_dec : EqDecision Subscriber.
Proof. solve_decision. Defined.

(** [Subscriber::operator<]: by altitude, then by counter address. *)
Definition Subscriber_lt (l r : Subscriber) : bool :=
  Z.ltb (sub_altitude l) (sub_altitude r) ||
  (Z.eqb (sub_altitude l) (sub_altitude r) && Nat.ltb (sub_satCounter l) (sub_satCounter r)).

(** [std::set::emplace]: an equivalent element already present is kept. *)
Fixpoint subscribers_emplace (e : Subscriber) (l : list Subscriber) : list Subscriber :=
  match l with
  | [] => [e]
  | x :: l' => if Subscriber_lt e x then e :: l
               else if Subscriber_lt x e then x :: subscribers_emplace e l'
               else l
  end.

(** [std::set::erase(key)]. *)
Definition subscribers_erase (e : Subscriber) (l : list Subscriber) : list Subscriber :=
  base.filter (λ x, Subscriber_lt e x = true ∨ Subscriber_lt x e = true) l.

Record DecorationDisposition := mkDisposition {
  m_nProducersRun : nat;
  m_decorations : list AnySharedPointer;
  m_pImmediate : option nat;
  m_publishers : list sat_addr;
  m_modifiers : list Modifier;
  m_subscribers : list Subscriber;
  m_state : DispositionState }.

#[export] Instance DecorationDisposition_eq_dec : EqDecision DecorationDisposition.
Proof. solve_decision. Defined.

Definition DecorationDisposition_new : DecorationDisposition :=
  mkDisposition 0 [] None [] [] [] Unsatisfied.

Definition set_nProducersRun n d := mkDisposition n (m_decorations d) (m_pImmediate d) (m_publishers d) (m_modifiers d) (m_subscribers d) (m_state d).
Definition set_decorations l d := mkDisposition (m_nProducersRun d) l (m_pImmediate d) (m_publishers d) (m_modifiers d) (m_subscribers d) (m_state d).
Definition set_pImmediate p d := mkDisposition (m_nProducersRun d) (m_decorations d) p (m_publishers d) (m_modifiers d) (m_subscribers d) (m_state d).
Definition set_publishers l d := mkDisposition (m_nProducersRun d) (m_decorations d) (m_pImmediate d) l (m_modifiers d) (m_subscribers d) (m_state d).
Definition set_modifiers l d := mkDisposition (m_nProducersRun d) (m_decorations d) (m_pImmediate d) (m_publishers d) l (m_subscribers d) (m_state d).
Definition set_subscribers l d := mkDisposition (m_nProducersRun d) (m_decorations d) (m_pImmediate d) (m_publishers d) (m_modifiers d) l (m_state d).
Definition set_state s d := mkDisposition (m_nProducersRun d) (m_decorations d) (m_pImmediate d) (m_publishers d) (m_modifiers d) (m_subscribers d) s.

(** Counts one more producer run; true when this completes the decoration. *)
Definition IncProducerCount (d : DecorationDisposition) : bool * DecorationDisposition :=
  let producersRun := S (m_nProducersRun d) in
  let d := set_nProducersRun producersRun d in
  match m_state d with
  | Unsatisfied | PartlySatisfied =>
    if Nat.leb (length (m_publishers d)) producersRun then (true, set_state Complete d)
    else (false, set_state PartlySatisfied d)
  | Complete => (false, d)
  end.

Definition IsPublicationComplete (d : DecorationDisposition) : bool :=
  Nat.leb (length (m_publishers d)) (m_nProducersRun d).

Definition Reset (d : DecorationDisposition) : DecorationDisposition :=
  set_state Unsatisfied (set_pImmediate None (set_decorations [] d)).

(** [Modifier] insertion of [AddSatCounterUnsafe]: before the first greater
    altitude, [None] when one is equal. *)
Fixpoint modifiers_emplace (m : Modifier) (l : list Modifier) : option (list Modifier) :=
  match l with
  | [] => Some [m]
  | x :: l' =>
    if Z.eqb (mod_altitude x) (mod_altitude m) then None
    else if Z.ltb (mod_altitude m) (mod_altitude x) then Some (m :: l)
    else match modifiers_emplace m l' with Some l'' => Some (x :: l'') | None => None end
  end.

(** ** The state machine *)
Definition state_rank (s : DispositionState) : nat :=
  match s with Unsatisfied => 0 | PartlySatisfied => 1 | Complete => 2 end.

Lemma IncProducerCount_fields d :
  let r := IncProducerCount d in
  m_nProducersRun r.2 = S (m_nProducersRun d) ∧ m_decorations r.2 = m_decorations d ∧
  m_pImmediate r.2 = m_pImmediate d ∧ m_publishers r.2 = m_publishers d ∧
  m_modifiers r.2 = m_modifiers d ∧ m_subscribers r.2 = m_subscribers d.
Proof. unfold IncProducerCount. simpl. by repeat case_match. Qed.

Lemma IncProducerCount_true d :
  (IncProducerCount d).1 = true ↔ m_state d ≠ Complete ∧ m_state (IncProducerCount d).2 = Complete.
Proof.
  unfold IncProducerCount. simpl.
  destruct (m_state d) eqn:Hs; try destruct (Nat.leb (length (m_publishers d)) _); simpl; rewrite ?Hs; naive_solver.
Qed.

Lemma IncProducerCount_complete d : m_state d = Complete → (IncProducerCount d).1 = false ∧ m_state (IncProducerCount d).2 = Complete.
Proof. intros H. unfold IncProducerCount. simpl. by rewrite H. Qed.

(** [n] successive producer runs. *)
Fixpoint run_producers (n : nat) (d : DecorationDisposition) : list bool * DecorationDisposition :=
  match n with
  | 0 => ([], d)
  | S n' => let r := IncProducerCount d in let rs := run_producers n' r.2 in (r.1 :: rs.1, rs.2)
  end.

Lemma run_producers_complete n : ∀ d, m_state d = Complete → (run_producers n d).1 = replicate n false.
Proof.
  induction n as [|n IH]; intros d Hd; simpl; [done|].
  destruct (IncProducerCount_complete d Hd) as [H1 H2]. rewrite H1, IH by done. done.
Qed.

Lemma run_producers_gen n : ∀ d,
  m_state d ≠ Complete → m_nProducersRun d < Nat.max 1 (length (m_publishers d)) →
  let left := Nat.max 1 (length (m_publishers d)) - m_nProducersRun d in
  (run_producers n d).1 = (λ i, Nat.eqb (S i) left) <$> seq 0 n.
Proof.
  induction n as [|n IH]; intros d Hd Hlt; cbn [run_producers fst snd]; [done|].
  destruct (IncProducerCount_fields d) as (Hn & _ & _ & Hp & _).
  assert ((IncProducerCount d).1 = Nat.leb (length (m_publishers d)) (S (m_nProducersRun d))) as Hb.
  { unfold IncProducerCount. simpl. destruct (m_state d); [| |done]; by destruct (Nat.leb _ _). }
  rewrite Hb. cbn [seq fmap list_fmap]. change (seq 1 n) with (seq (S 0) n). rewrite <-fmap_S_seq, <-list_fmap_compose.
  destruct (Nat.leb_spec (length (m_publishers d)) (S (m_nProducersRun d))).
  - assert (m_state (IncProducerCount d).2 = Complete) as Hc by by apply IncProducerCount_true.
    rewrite run_producers_complete by done. f_equal; [symmetry; apply Nat.eqb_eq; lia|].
    rewrite <-(length_seq n 0) at 1. rewrite <-(const_fmap (λ _, false)) by done.
    apply list_fmap_ext. intros i j Hj. cbn [compose]. symmetry. apply Nat.eqb_neq. lia.
  - assert (m_state (IncProducerCount d).2 ≠ Complete) as Hc.
    { intros Hc. assert ((IncProducerCount d).1 = true) as Ht by by apply IncProducerCount_true.
      by rewrite Hb in Ht. }
    rewrite (IH _ Hc) by (rewrite Hn, Hp; lia). rewrite Hn, Hp.
    f_equal; [symmetry; apply Nat.eqb_neq; lia|].
    apply list_fmap_ext. intros i j Hj. cbn [compose]. destruct (Nat.eqb_spec (S j) (Nat.max 1 (length (m_publishers d)) - S (m_nProducersRun d))),
      (Nat.eqb_spec (S (S j)) (Nat.max 1 (length (m_publishers d)) - m_nProducersRun d)); lia || done.
Qed.

(** On a fresh disposition with [p] publishers, of any number of producer
    runs exactly one reports completion: the [p]-th, or the first when there is
    no publisher.  Later runs never report again. *)
Theorem completes_exactly_once n pubs mods subs :
  (run_producers n (mkDisposition 0 [] None pubs mods subs Unsatisfied)).1
  = (λ i, Nat.eqb (S i) (Nat.max 1 (length pubs))) <$> seq 0 n.
Proof. rewrite run_producers_gen; simpl; [|done|lia]. by rewrite Nat.sub_0_r. Qed.

(** ** Subscribers are a sorted set *)
Lemma Subscriber_lt_trans a b c :
  Subscriber_lt a b = true → Subscriber_lt b c = true → Subscriber_lt a c = true.
Proof. unfold Subscriber_lt. rewrite !orb_true_iff, !andb_true_iff, !Z.ltb_lt, !Z.eqb_eq, !Nat.ltb_lt. lia. Qed.

Lemma Subscriber_lt_total a b :
  Subscriber_lt a b = false → Subscriber_lt b a = false →
  sub_altitude a = sub_altitude b ∧ sub_satCounter a = sub_satCounter b.
Proof.
  unfold Subscriber_lt. rewrite !orb_false_iff, !andb_false_iff, !Z.ltb_ge, !Z.eqb_neq, !Nat.ltb_ge. lia.
Qed.

Definition subs_sorted (l : list Subscriber) : Prop := Sorted (λ a b, Subscriber_lt a b = true) l.

Lemma subscribers_emplace_sorted e l : subs_sorted l → subs_sorted (subscribers_emplace e l).
Proof.
  unfold subs_sorted. induction l as [|x l IH]; intros Hs; simpl; [by repeat constructor|].
  destruct (Subscriber_lt e x) eqn:He; [by constructor; [|constructor]|].
  destruct (Subscriber_lt x e) eqn:Hx; [|done].
  apply Sorted_inv in Hs as [Hs Hh]. constructor; [by apply IH|].
  destruct l as [|y l]; simpl; [by constructor|].
  destruct (Subscriber_lt e y); [by constructor|]. destruct (Subscriber_lt y e); constructor; by inversion Hh.
Qed.

Lemma subscribers_emplace_elem e l a :
  a ∈ sub_satCounter <$> subscribers_emplace e l ↔ a = sub_satCounter e ∨ a ∈ sub_satCounter <$> l.
Proof.
  induction l as [|x l IH]; cbn [subscribers_emplace]; [by rewrite fmap_cons, elem_of_cons|].
  destruct (Subscriber_lt e x) eqn:He; [by rewrite fmap_cons, elem_of_cons|].
  destruct (Subscriber_lt x e) eqn:Hx; rewrite ?fmap_cons, !elem_of_cons.
  - rewrite IH. tauto.
  - destruct (Subscriber_lt_total _ _ He Hx) as [_ ->]. tauto.
Qed.

Lemma modifiers_emplace_elem m l l' :
  modifiers_emplace m l = Some l' → l' ≡ₚ m :: l.
Proof.
  revert l'. induction l as [|x l IH]; intros l'; simpl; [by intros [= <-]|].
  destruct (Z.eqb _ _); [done|]. destruct (Z.ltb _ _); [by intros [= <-]|].
  destruct (modifiers_emplace m l) as [l''|]; [|done]. intros [= <-]. rewrite (IH l'') by done. constructor.
Qed.
