(* ===== verification/AutoPacket.v ===== *)
(** * AutoPacket: src/src/autowiring/AutoPacket.{h,cpp}

    A packet keeps a map from decoration types to dispositions and a doubly
    linked list of saturation counters, one per filter.  Decorating completes
    dispositions, which decrements counters, which calls filters; a filter is
    client code that may decorate the same packet again.

    [call_filter pCall pObj] is what the filter does to the packet.  Saturation
    counters live at addresses of [counters]; following a null or freed one is
    [Stuck undefined_behavior].  [unordered_set<SatCounter*>] is a [gset],
    iterated in the order of [elements].  Every region under [m_lock] is one
    atomic step.  [calls] is the history of filters invoked. *)
From stdpp Require Import base gmap list sets strings.
From Stdlib Require Import ZArith Lia.
From S2P Require Import Prelude.
From S2P Require Import AutoFilter.
From S2P Require Import Decoration.

Record AutoPacket := mkPacket {
  m_decoration_map : gmap auto_id DecorationDisposition;
  counters : gmap sat_addr SatCounter;
  m_firstCounter : option sat_addr;
  next_sat : sat_addr;
  (* the thread-local pointer to the current packet *)
  autoCurrentPacket : option nat;
  calls : list sat_addr }.

Definition set_map m p := mkPacket m (counters p) (m_firstCounter p) (next_sat p) (autoCurrentPacket p) (calls p).
Definition set_counters m p := mkPacket (m_decoration_map p) m (m_firstCounter p) (next_sat p) (autoCurrentPacket p) (calls p).
Definition set_first f p := mkPacket (m_decoration_map p) (counters p) f (next_sat p) (autoCurrentPacket p) (calls p).
Definition set_next_sat n p := mkPacket (m_decoration_map p) (counters p) (m_firstCounter p) n (autoCurrentPacket p) (calls p).
Definition set_current c p := mkPacket (m_decoration_map p) (counters p) (m_firstCounter p) (next_sat p) c (calls p).
Definition set_calls l p := mkPacket (m_decoration_map p) (counters p) (m_firstCounter p) (next_sat p) (autoCurrentPacket p) l.

Definition AutoPacket_new : AutoPacket := mkPacket ∅ ∅ None 0 None [].

(** ** Memory and map primitives *)

(** [m_decoration_map[key]]: a missing entry is created. *)
Definition entry (key : auto_id) : M AutoPacket DecorationDisposition := λ p,
  match m_decoration_map p !! key with
  | Some d => (Ret d, p)
  | None => (Ret DecorationDisposition_new,
             set_map (<[key := DecorationDisposition_new]> (m_decoration_map p)) p)
  end.

Definition store_entry (key : auto_id) (d : DecorationDisposition) : M AutoPacket unit :=
  modify (λ p, set_map (<[key := d]> (m_decoration_map p)) p).

Definition update_entry (key : auto_id) (f : DecorationDisposition → DecorationDisposition)
    : M AutoPacket unit := d ← entry key; store_entry key (f d).

Definition load_sat (a : sat_addr) : M AutoPacket SatCounter :=
  p ← get; deref (counters p !! a).

Definition store_sat (a : sat_addr) (s : SatCounter) : M AutoPacket unit :=
  modify (λ p, set_counters (<[a := s]> (counters p)) p).

(** [counter->Decrement()], [counter->Increment()], [counter->remaining = n]. *)
Definition sat_Decrement (a : sat_addr) : M AutoPacket bool :=
  s ← load_sat a; store_sat a (Decrement s).2;; mret (Decrement s).1.
Definition sat_Increment (a : sat_addr) : M AutoPacket unit :=
  s ← load_sat a; store_sat a (Increment s).
Definition sat_assign_remaining (n : nat) (a : sat_addr) : M AutoPacket unit :=
  s ← load_sat a; store_sat a (set_remaining n s).

Definition SetCurrent (apkt : option nat) : M AutoPacket (option nat) :=
  p ← get; put (set_current apkt p);; mret (autoCurrentPacket p).

Definition CurrentPacket (p : AutoPacket) : outcome nat :=
  match autoCurrentPacket p with
  | Some c => Ret c
  | None => Throw (autowiring_error "Attempted to obtain a current AutoPacket, which was not made")
  end.

Section AutoPacket.
  Context (this : nat).
  Context (call_filter : t_extractedCall → AnySharedPointer → M AutoPacket unit).

(** [call->GetCall()(call->GetAutoFilter().ptr(), *this)]. *)
Definition call_sat (a : sat_addr) : M AutoPacket unit :=
  s ← load_sat a;
  modify (λ p, set_calls (calls p ++ [a]) p);;
  call_filter (m_pCall (descriptor s)) (m_autoFilter (descriptor s)).

(** [AutoCurrentPacketPusher apkt( *this)] around [m]. *)
Definition with_current (m : M AutoPacket unit) : M AutoPacket unit :=
  prior ← SetCurrent (Some this);
  at_exit (_ ← SetCurrent prior; mret tt) m.

Definition DecorateImmediateUnsafe (key : auto_id) (pvImmed : nat) : M AutoPacket unit :=
  dec ← entry key;
  if bool_decide (m_state dec = Unsatisfied) then
    store_entry key (set_pImmediate (Some pvImmed) (set_state Complete dec))
  else throw (autowiring_error "Cannot perform immediate decoration, the requested decoration already exists").

(** ** Registering filters *)

Definition multi_broadcast_error := autowiring_error "Cannot add listener for multi-broadcast type".
Definition same_altitude_error := autowiring_error "Added multiple rvalue decorations with same altitudes".
Definition identical_broadcast_error := autowiring_error "Added identical data broadcasts with existing subscriber".
Definition identical_modifier_error := autowiring_error "Added identical data broadcasts with existing modifier".
Definition cycle_error := autowiring_error "Detected cycle in the auto filter graph".

(** A subscriber of [key] that takes a single decoration of it. *)
Definition takes_single (key : auto_id) (s : SatCounter) : bool :=
  existsb (λ o, Nat.eqb (id o) key && negb (is_multi o)) (m_pArgs (descriptor s)).

(** The body of the loop of [AddSatCounterUnsafe], for one argument. *)
Definition add_argument (a : sat_addr) (pCur : AutoFilterArgument) : M AutoPacket unit :=
  e ← entry (id pCur);
  when (is_input pCur)
    (if Nat.ltb 1 (length (m_publishers e)) && negb (is_multi pCur) then throw multi_broadcast_error
     else when (bool_decide (m_state e = Complete) &&
                (negb (bool_decide (m_decorations e = [])) || is_shared pCur))
            (_ ← sat_Decrement a; mret tt));;
  sat ← load_sat a;
  let alt := m_altitude (descriptor sat) in
  if is_rvalue pCur then
    match modifiers_emplace (mkModifier (is_shared pCur) alt a) (m_modifiers e) with
    | None => throw same_altitude_error
    | Some l => update_entry (id pCur) (set_modifiers l)
    end
  else
    when (is_input pCur)
      (update_entry (id pCur) (λ d, set_subscribers
         (subscribers_emplace
            (mkSubscriber (is_shared pCur)
               (if is_multi pCur then Multi else if is_shared pCur then Optional else Normal) alt a)
            (m_subscribers d)) d));;
    when (is_output pCur)
      (e ← entry (id pCur);
       when (negb (bool_decide (m_publishers e = [])))
         (for_each (λ subscriber,
            other ← load_sat (sub_satCounter subscriber);
            if takes_single (id pCur) other then throw identical_broadcast_error else mret tt)
            (m_subscribers e);;
          if bool_decide (m_modifiers e = []) then mret tt else throw identical_modifier_error);;
       update_entry (id pCur) (λ d, set_publishers (m_publishers d ++ [a]) d)).

(** The counters that subscribe to an output of [args]. *)
Fixpoint collect_next (args : list AutoFilterArgument) (acc : gset sat_addr)
    : M AutoPacket (gset sat_addr) :=
  match args with
  | [] => mret acc
  | pCur :: rest =>
    if is_output pCur then
      e ← entry (id pCur);
      collect_next rest (acc ∪ list_to_set (sub_satCounter <$> m_subscribers e))
    else collect_next rest acc
  end.

(** [tempVisited] and [permVisited] are passed by reference: the pair goes in and out. *)
Fixpoint DetectCycle (fuel : nat) (a : sat_addr) (visited : gset sat_addr * gset sat_addr)
    : M AutoPacket (gset sat_addr * gset sat_addr) :=
  if bool_decide (a ∈ visited.1) then throw cycle_error
  else if bool_decide (a ∈ visited.2) then mret visited
  else match fuel with
  | 0 => stuck out_of_fuel
  | S fuel' =>
    sat ← load_sat a;
    nextCounters ← collect_next (m_pArgs (descriptor sat)) ∅;
    if bool_decide (nextCounters = ∅) then mret visited
    else
      visited' ← (fix loop l v :=
        match l with
        | [] => mret v
        | c :: l' => v' ← DetectCycle fuel' c v; loop l' v'
        end) (elements nextCounters) ({[a]} ∪ visited.1, visited.2);
      mret (visited'.1 ∖ {[a]}, {[a]} ∪ visited'.2)
  end.

Definition AddSatCounterUnsafe (fuel : nat) (a : sat_addr) : M AutoPacket unit :=
  sat ← load_sat a;
  for_each (add_argument a) (m_pArgs (descriptor sat));;
  _ ← DetectCycle fuel a (∅, ∅); mret tt.

(** [*other == satCounter]. *)
Definition sat_equals (d : AutoFilterDescriptor) (other : sat_addr) : M AutoPacket bool :=
  s ← load_sat other; mret (descriptor_eq (descriptor s) d).

(** [erase(remove_if(begin, end, pred), end)] and [find_if] with an effectful predicate. *)
Fixpoint remove_if {A} (pred : A → M AutoPacket bool) (l : list A) : M AutoPacket (list A) :=
  match l with
  | [] => mret []
  | x :: l' => b ← pred x; r ← remove_if pred l'; mret (if b : bool then r else x :: r)
  end.

Fixpoint find_if {A} (pred : A → M AutoPacket bool) (l : list A) : M AutoPacket (option A) :=
  match l with
  | [] => mret None
  | x :: l' => b ← pred x; if b : bool then mret (Some x) else find_if pred l'
  end.

Definition remove_argument (d : AutoFilterDescriptor) (pCur : AutoFilterArgument) : M AutoPacket unit :=
  e ← entry (id pCur);
  if is_rvalue pCur then
    l ← remove_if (λ m, sat_equals d (mod_satCounter m)) (m_modifiers e);
    update_entry (id pCur) (set_modifiers l)
  else
    when (is_input pCur)
      (r ← find_if (λ sub, sat_equals d (sub_satCounter sub)) (m_subscribers e);
       match r with
       | Some sub => update_entry (id pCur) (λ e, set_subscribers (subscribers_erase sub (m_subscribers e)) e)
       | None => mret tt
       end);;
    when (is_output pCur)
      (l ← remove_if (sat_equals d) (m_publishers e);
       update_entry (id pCur) (set_publishers l)).

Definition RemoveSatCounterUnsafe (a : sat_addr) : M AutoPacket unit :=
  sat ← load_sat a;
  for_each (remove_argument (descriptor sat)) (m_pArgs (descriptor sat)).

(** ** Satisfaction *)

(** The lambda [markOutputsUnsat]: appends to [unsatOutputArgs]. *)
Definition markOutputsUnsat (a : sat_addr) (unsatOutputArgs : list AutoFilterArgument)
    : M AutoPacket (list AutoFilterArgument) :=
  s ← load_sat a;
  if Nat.eqb (remaining s) 0 then mret unsatOutputArgs
  else
    store_sat a (set_remaining 0 s);;
    mret (unsatOutputArgs ++
          base.filter (λ x, is_output x = true) (rev (take (m_arity (descriptor s)) (m_pArgs (descriptor s))))).

Definition single_rvalue_error := autowiring_error "An AutoFilter was detected which has single-decorate rvalue argument in a graph with multi-decorate outputs".
Definition single_input_error := autowiring_error "An AutoFilter was detected which has single-decorate inputs in a graph with multi-decorate outputs".

Definition queues : Type := list sat_addr * list AutoFilterArgument.

(** The loop over [disposition.m_modifiers].  The calls it makes run unlocked;
    if they change the vector being iterated the loop has no defined meaning. *)
Fixpoint modifiers_loop (key : auto_id) (vec mods : list Modifier) (q : queues) : M AutoPacket queues :=
  match mods with
  | [] => mret q
  | modifier :: rest =>
    let a := mod_satCounter modifier in
    if mod_is_shared modifier then
      b ← sat_Decrement a;
      if b : bool then
        with_current (for_each call_sat (q.1 ++ [a]));;
        d ← entry key;
        if bool_decide (m_modifiers d = vec) then modifiers_loop key vec rest ([], q.2)
        else stuck undefined_behavior
      else modifiers_loop key vec rest q
    else
      d ← entry key;
      match length (m_decorations d) with
      | 0 => u ← markOutputsUnsat a q.2; modifiers_loop key vec rest (q.1, u)
      | 1 => b ← sat_Decrement a;
             modifiers_loop key vec rest (if b : bool then q.1 ++ [a] else q.1, q.2)
      | _ => throw single_rvalue_error
      end
  end.

(** The three loops over [disposition.m_subscribers], by number of decorations. *)
Definition visit_subscriber (decorations : nat) (subscriber : Subscriber) (q : queues) : M AutoPacket queues :=
  let a := sub_satCounter subscriber in
  let call := b ← sat_Decrement a; mret (if b : bool then q.1 ++ [a] else q.1, q.2) in
  match decorations with
  | 0 => s ← load_sat a;
         if Nat.eqb (remaining s) 0 then mret q
         else match sub_type subscriber with
              | Multi | Optional => call
              | Normal => u ← markOutputsUnsat a q.2; mret (q.1, u)
              end
  | 1 => call
  | _ => match sub_type subscriber with Multi => call | _ => throw single_input_error end
  end.

Fixpoint subscribers_loop (decorations : nat) (subs : list Subscriber) (q : queues) : M AutoPacket queues :=
  match subs with
  | [] => mret q
  | s :: rest => q' ← visit_subscriber decorations s q; subscribers_loop decorations rest q'
  end.

(** [m_decoration_map[key].IncProducerCount()]. *)
Definition inc_producer (key : auto_id) : M AutoPacket bool :=
  d ← entry key; store_entry key (IncProducerCount d).2;; mret (IncProducerCount d).1.

Fixpoint UpdateSatisfactionUnsafe (fuel : nat) (key : auto_id) : M AutoPacket unit :=
  d ← entry key;
  if negb (bool_decide (m_state d = Complete)) then mret tt
  else if negb (bool_decide (m_modifiers d = [])) && Nat.ltb 1 (length (m_decorations d)) then
    throw single_rvalue_error
  else
    q ← modifiers_loop key (m_modifiers d) (m_modifiers d) ([], []);
    d ← entry key;
    q ← subscribers_loop (length (m_decorations d)) (m_subscribers d) q;
    with_current (for_each call_sat q.1);;
    for_each (λ unsatOutputArg,
      b ← inc_producer (id unsatOutputArg);
      if b : bool then
        match fuel with
        | 0 => stuck out_of_fuel
        | S fuel' => UpdateSatisfactionUnsafe fuel' (id unsatOutputArg)
        end
      else mret tt) q.2.

Definition MarkUnsatisfiable (fuel : nat) (key : auto_id) : M AutoPacket unit :=
  update_entry key (λ d, set_pImmediate None (set_decorations [] (set_state Complete d)));;
  UpdateSatisfactionUnsafe fuel key.

(** One subscriber of the first pass of [PulseSatisfactionUnsafe]. *)
Definition pulse_visit (sub : Subscriber) (q : list sat_addr * list sat_addr)
    : M AutoPacket (list sat_addr * list sat_addr) :=
  let a := sub_satCounter sub in
  s ← load_sat a;
  if negb (sub_is_shared sub) && negb (m_deferred (descriptor s)) && negb (Nat.eqb (remaining s) 0) then
    b ← sat_Decrement a;
    mret (if b : bool then (q.1 ++ [a], q.2) else (q.1, q.2 ++ [a]))
  else mret q.

Fixpoint pulse_subs (subs : list Subscriber) q : M AutoPacket (list sat_addr * list sat_addr) :=
  match subs with
  | [] => mret q
  | s :: rest => q' ← pulse_visit s q; pulse_subs rest q'
  end.

Fixpoint pulse_keys (keys : list auto_id) q : M AutoPacket (list sat_addr * list sat_addr) :=
  match keys with
  | [] => mret q
  | k :: rest => d ← entry k; q' ← pulse_subs (m_subscribers d) q; pulse_keys rest q'
  end.

(** [pTypeSubs] is given by its keys; the [do ... while] loop. *)
Fixpoint PulseSatisfactionUnsafe (fuel : nat) (pTypeSubs : list auto_id) : M AutoPacket unit :=
  match fuel with
  | 0 => stuck out_of_fuel
  | S fuel' =>
    q ← pulse_keys (rev pTypeSubs) ([], []);
    for_each sat_Increment q.2;;
    for_each (λ a, call_sat a;; sat_assign_remaining 0 a) q.1;;
    if bool_decide (q.1 = []) then mret tt else PulseSatisfactionUnsafe fuel' pTypeSubs
  end.

(** [DecorateImmediate(immed, immeds...)], each argument a type and an address. *)
Definition DecorateImmediate (fuel : nat) (immeds : list (auto_id * nat)) : M AutoPacket unit :=
  for_each (λ i, DecorateImmediateUnsafe i.1 i.2) immeds;;
  at_exit
    (for_each (λ i, update_entry i.1 (λ d, set_state Complete (set_pImmediate None d))) immeds;;
     for_each (λ i, MarkUnsatisfiable fuel i.1) immeds)
    (PulseSatisfactionUnsafe fuel (immeds.*1)).

(** ** Decorating and reading *)
Definition HasUnsafe (key : auto_id) (p : AutoPacket) : bool :=
  match m_decoration_map p !! key with
  | None => false
  | Some d => negb (bool_decide (m_decorations d = []))
  end.

Definition unsatisfiable_error := autowiring_error "Cannot check out decoration, it has been marked unsatisfiable".
Definition already_satisfied_error := autowiring_error "Cannot decorate this packet, the requested decoration is already satisfied".

Definition DecorateNoPriors (fuel : nat) (ptr : AnySharedPointer) (key : auto_id) : M AutoPacket unit :=
  disposition ← entry key;
  if bool_decide (m_state disposition = Complete) then
    throw (if bool_decide (m_decorations disposition = []) then unsatisfiable_error else already_satisfied_error)
  else
    when (bool_decide (is_Some ptr))
      (update_entry key (λ d, set_decorations (m_decorations d ++ [ptr]) d));;
    b ← inc_producer key;
    if b : bool then UpdateSatisfactionUnsafe fuel key else mret tt.

Definition Decorate (fuel : nat) (ptr : AnySharedPointer) (key : auto_id) : M AutoPacket unit :=
  DecorateNoPriors fuel ptr key.

Definition RemoveDecoration (key : auto_id) : M AutoPacket unit :=
  modify (λ p, match m_decoration_map p !! key with
               | None => p
               | Some d => set_map (<[key := set_decorations [] d]> (m_decoration_map p)) p
               end).

Definition GetDisposition (key : auto_id) (p : AutoPacket) : option DecorationDisposition :=
  match m_decoration_map p !! key with
  | Some d => if bool_decide (m_state d = Complete) then Some d else None
  | None => None
  end.

Definition HasSubscribers (key : auto_id) (p : AutoPacket) : bool :=
  match m_decoration_map p !! key with
  | None => false
  | Some d => negb (Nat.eqb (length (m_subscribers d)) 0)
  end.

Definition HasPublishers (key : auto_id) (p : AutoPacket) : nat :=
  match m_decoration_map p !! key with
  | None => 0
  | Some d => length (m_publishers d)
  end.

Definition GetDecorationTypeCount (p : AutoPacket) : nat := size (m_decoration_map p).

Definition IsUnsatisfiable (id : auto_id) (p : AutoPacket) : bool :=
  match GetDisposition id p with
  | None => false
  | Some d =>
    if negb (bool_decide (m_decorations d = [])) then false
    else if negb (Nat.eqb (m_nProducersRun d) (length (m_publishers d))) then false
    else true
  end.

Definition not_decorated_error := autowiring_error "Attempted to obtain a type which was not decorated on this packet".
Definition multiply_decorated_error := autowiring_error "Attempted to obtain a type which was decorated more than once on this packet".

(** [bool Get(const T*& out)]: the pointer found, or [None] for [false]. *)
Definition Get_ptr (key : auto_id) (p : AutoPacket) : outcome (option AnySharedPointer) :=
  match GetDisposition key p with
  | None => Ret None
  | Some d =>
    let immediate := match m_pImmediate d with Some i => Some (Some i) | None => None end in
    match m_decorations d with
    | [] => Ret immediate
    | [x] => Ret (Some x)
    | _ => Throw multiply_decorated_error
    end
  end.

(** [const T& Get()]. *)
Definition Get (key : auto_id) (p : AutoPacket) : outcome nat :=
  match Get_ptr key p with
  | Ret (Some (Some x)) => Ret x
  | Ret _ => Throw not_decorated_error
  | Throw e => Throw e
  | Stuck r => Stuck r
  end.

(** [bool Get(const std::shared_ptr<T>*& out)]. *)
Definition Get_shared_ptr (key : auto_id) (p : AutoPacket) : outcome (option AnySharedPointer) :=
  match GetDisposition key p with
  | None => Ret None
  | Some d =>
    match m_decorations d with
    | [] => Ret None
    | [x] => Ret (Some x)
    | _ => Throw multiply_decorated_error
    end
  end.

(** [bool Get(std::shared_ptr<const T>& out)]. *)
Definition Get_shared (key : auto_id) (p : AutoPacket) : option AnySharedPointer :=
  match GetDisposition key p with
  | Some d => match m_decorations d with [x] => Some x | _ => None end
  | None => None
  end.

(** [GetRvalueShared]: an empty pointer is attached when there is none. *)
Definition GetRvalueShared (key : auto_id) : M AutoPacket AnySharedPointer := λ p,
  match GetDisposition key p with
  | None => (Throw not_decorated_error, p)
  | Some d =>
    match m_decorations d with
    | [] => (Ret None, set_map (<[key := set_decorations [None] d]> (m_decoration_map p)) p)
    | [x] => (Ret x, p)
    | _ => (Throw multiply_decorated_error, p)
    end
  end.

(** [GetAll], [GetAllShared]: without the terminating null. *)
Definition GetAll (key : auto_id) (p : AutoPacket) : list AnySharedPointer :=
  match m_decoration_map p !! key with None => [] | Some d => m_decorations d end.

(** [source.ForwardAll(recipient)], run on the recipient. *)
Definition ForwardAll (fuel : nat) (source : AutoPacket) : M AutoPacket unit :=
  let dd := base.filter (λ kd : auto_id * DecorationDisposition, m_state kd.2 = Complete)
              (map_to_list (m_decoration_map source)) in
  for_each (λ cur, for_each (λ decoration, Decorate fuel decoration cur.1) (m_decorations cur.2)) dd.

(** ** The list of counters *)

(** [for (cur = p; cur; cur = cur->flink) if (pred(cur)) return cur]. *)
Fixpoint find_counter (fuel : nat) (pred : SatCounter → bool) (p : option sat_addr)
    : M AutoPacket (option sat_addr) :=
  match p with
  | None => mret None
  | Some a =>
    match fuel with
    | 0 => stuck out_of_fuel
    | S fuel' => s ← load_sat a;
                 if pred s then mret (Some a) else find_counter fuel' pred (flink s)
    end
  end.

Definition set_flink (v : option sat_addr) (s : SatCounter) : SatCounter :=
  mkSat (descriptor s) v (blink s) (remaining s).
Definition set_blink (v : option sat_addr) (s : SatCounter) : SatCounter :=
  mkSat (descriptor s) (flink s) v (remaining s).

Definition new_sat (d : AutoFilterDescriptor) : M AutoPacket sat_addr := λ p,
  (Ret (next_sat p),
   set_next_sat (S (next_sat p)) (set_counters (<[next_sat p := SatCounter_new d]> (counters p)) p)).

Definition GetSatisfaction (fuel : nat) (subscriber : auto_id) : M AutoPacket SatCounter :=
  p ← get;
  r ← find_counter fuel (λ s, Nat.eqb (m_type (descriptor s)) subscriber) (m_firstCounter p);
  match r with
  | Some a => load_sat a
  | None => throw (autowiring_error "Attempted to get the satisfaction counter for an unavailable subscriber")
  end.

(** The linked list insertion of [AddRecipient], before the first counter. *)
Definition link_counter (a : sat_addr) (first : option sat_addr) : M AutoPacket unit :=
  (sat ← load_sat a; store_sat a (set_flink first sat));;
  match first with
  | Some f => s ← load_sat f; store_sat f (set_blink (Some a) s)
  | None => mret tt
  end;;
  modify (set_first (Some a)).

Definition AddRecipient (fuel : nat) (d : AutoFilterDescriptor) : M AutoPacket sat_addr :=
  a ← new_sat d;
  p ← get;
  found ← find_counter fuel (λ s, descriptor_eq (descriptor s) d) (m_firstCounter p);
  match found with
  | Some cur => mret cur
  | None =>
    link_counter a (m_firstCounter p);;
    AddSatCounterUnsafe fuel a;;
    sat ← load_sat a;
    when (Nat.eqb (remaining sat) 0) (call_sat a);;
    mret a
  end.

Definition RemoveRecipient (a : sat_addr) : M AutoPacket unit :=
  recipient ← load_sat a;
  match blink recipient with
  | Some b => s ← load_sat b; store_sat b (set_flink (flink recipient) s)
  | None => mret tt
  end;;
  recipient ← load_sat a;
  match flink recipient with
  | Some f => s ← load_sat f; store_sat f (set_blink (blink recipient) s)
  | None => mret tt
  end;;
  RemoveSatCounterUnsafe a.

(** The list unwind of [~AutoPacket]. *)
Fixpoint delete_counters (fuel : nat) (p : option sat_addr) : M AutoPacket unit :=
  match p with
  | None => mret tt
  | Some cur =>
    match fuel with
    | 0 => stuck out_of_fuel
    | S fuel' => s ← load_sat cur;
                 modify (λ p, set_counters (delete cur (counters p)) p);;
                 delete_counters fuel' (flink s)
    end
  end.

(** [AutoPacketInternal::Initialize], given the list [CreateSatCounterList] made:
    the first loop primes the graph and collects the counters ready to run. *)
Fixpoint prime_counters (fuel : nat) (p : option sat_addr) : M AutoPacket (list sat_addr) :=
  match p with
  | None => mret []
  | Some a =>
    match fuel with
    | 0 => stuck out_of_fuel
    | S fuel' =>
      AddSatCounterUnsafe fuel a;;
      s ← load_sat a;
      rest ← prime_counters fuel' (flink s);
      mret (if Nat.eqb (remaining s) 0 then a :: rest else rest)
    end
  end.

Definition Initialize (fuel : nat) : M AutoPacket unit :=
  p ← get;
  callCounters ← prime_counters fuel (m_firstCounter p);
  with_current (for_each call_sat callCounters).
End AutoPacket.
