(* ===== verification/AutoPacketFacts.v ===== *)
(** * AutoPacket: memory safety, and filters are called at most once

    [pk_inv P K L p]: every counter the packet refers to is live; [P] are the
    filters about to be called, which like those already called are distinct
    and have no input remaining; [K] are modifier vectors being iterated, which
    must not change; [L] are counters known to be live. *)
From stdpp Require Import base gmap list sets strings.
From Stdlib Require Import ZArith Lia.
From S2P Require Import Prelude.
From S2P Require Import AutoFilter.
From S2P Require Import Decoration.
From S2P Require Import AutoPacket.

Definition refs (d : DecorationDisposition) : list sat_addr :=
  (sub_satCounter <$> m_subscribers d) ++ (mod_satCounter <$> m_modifiers d) ++ m_publishers d.

Definition live (p : AutoPacket) (a : sat_addr) : Prop := is_Some (counters p !! a).

Record pk_inv (P : list sat_addr) (K : list (auto_id * list Modifier)) (L : list sat_addr)
    (p : AutoPacket) : Prop := {
  pk_refs : ∀ k d a, m_decoration_map p !! k = Some d → a ∈ refs d → live p a;
  pk_first : ∀ a, m_firstCounter p = Some a → live p a;
  pk_links : ∀ a s b, counters p !! a = Some s → flink s = Some b ∨ blink s = Some b → live p b;
  pk_order : ∀ a s b, counters p !! a = Some s → (flink s = Some b → b < a) ∧ (blink s = Some b → a < b);
  pk_fresh : ∀ a, live p a → a < next_sat p;
  pk_once : NoDup (P ++ calls p);
  pk_zero : ∀ a, a ∈ P ++ calls p → ∃ s, counters p !! a = Some s ∧ remaining s = 0;
  pk_frozen : ∀ k vec, (k, vec) ∈ K → ∃ d, m_decoration_map p !! k = Some d ∧ m_modifiers d = vec;
  pk_live : ∀ a, a ∈ L → live p a }.

Definition pk_safe {A} (m : M AutoPacket A) : Prop := ∀ P K L, safe (pk_inv P K L) m.

Lemma pk_weaken P P' K K' L L' p :
  pk_inv P K L p → P' ⊆+ P → K' ⊆ K → L' ⊆ L → pk_inv P' K' L' p.
Proof.
  intros [] HP HK HL. split; try done.
  - destruct (submseteq_Permutation _ _ HP) as [k Hk]. rewrite Hk in pk_once0.
    rewrite <-app_assoc, (Permutation_app_comm k), app_assoc in pk_once0.
    by apply NoDup_app in pk_once0 as (? & _).
  - intros a Ha. apply pk_zero0. rewrite elem_of_app in *. destruct Ha; [left|by right].
    by eapply elem_of_submseteq.
  - intros k vec Hin. apply pk_frozen0. by apply HK.
  - intros a Ha. apply pk_live0. by apply HL.
Qed.

Lemma pk_perm P P' K L p : P ≡ₚ P' → pk_inv P K L p → pk_inv P' K L p.
Proof. intros HP H. apply (pk_weaken P _ K _ L _ _ H); [by rewrite HP|done|done]. Qed.

(** ** One store at a time *)
Lemma pk_insert_entry P K L p key d :
  pk_inv P K L p → (∀ a, a ∈ refs d → live p a) →
  (∀ vec, (key, vec) ∈ K → m_modifiers d = vec) →
  pk_inv P K L (set_map (<[key := d]> (m_decoration_map p)) p).
Proof.
  intros [] Hr Hk. split; simpl; try done.
  - intros k d' a. rewrite lookup_insert. case_decide; [intros [= <-]; by apply Hr|apply pk_refs0].
  - intros k vec Hin. rewrite lookup_insert. case_decide; [subst; eauto|by apply pk_frozen0].
Qed.

Lemma live_insert p a s b : live p b → live (set_counters (<[a := s]> (counters p)) p) b.
Proof. intros [x Hx]. unfold live. simpl. rewrite lookup_insert. case_decide; eauto. Qed.

(** A new value for a live counter. *)
Lemma pk_insert_sat P K L p a s s' :
  pk_inv P K L p → counters p !! a = Some s →
  (remaining s' = 0 ∨ a ∉ P ++ calls p) →
  (∀ b, flink s' = Some b ∨ blink s' = Some b → live p b) →
  (∀ b, (flink s' = Some b → b < a) ∧ (blink s' = Some b → a < b)) →
  pk_inv P K L (set_counters (<[a := s']> (counters p)) p).
Proof.
  intros [] Ha Hz Hl Ho. split; simpl; try done.
  - intros k d b Hd Hb. by apply live_insert, (pk_refs0 k d).
  - intros b Hb. by apply live_insert, pk_first0.
  - intros b s0 c. rewrite lookup_insert. case_decide; intros Hs Hc.
    + injection Hs as <-. by apply live_insert, Hl.
    + by eapply live_insert, pk_links0.
  - intros b s0 c. rewrite lookup_insert. case_decide; [intros [= <-]; subst; apply Ho|apply pk_order0].
  - intros b [x Hb]. apply pk_fresh0. simpl in Hb. rewrite lookup_insert in Hb.
    case_decide; subst; by eexists.
  - intros b Hb. rewrite lookup_insert. case_decide; [subst|by apply pk_zero0].
    destruct Hz as [Hz|Hz]; [by exists s'|done].
  - intros b Hb. by apply live_insert, pk_live0.
Qed.

(** ** Primitive operations *)
Lemma entry_ok P K L key :
  triple (pk_inv P K L) (entry key)
    (λ d p, pk_inv P K (refs d ++ L) p ∧ m_decoration_map p !! key = Some d) (λ _ _, False).
Proof.
  intros p H. unfold entry. destruct (m_decoration_map p !! key) as [d|] eqn:Hd.
  - split; [|done]. destruct H. split; try done. intros a [Ha|Ha]%elem_of_app; [by eapply pk_refs0|by apply pk_live0].
  - split; [|apply lookup_insert_eq]. simpl. apply pk_insert_entry; [done|by intros ? ?%elem_of_nil|].
    intros vec Hv. destruct (pk_frozen _ _ _ _ H _ _ Hv) as (d & Hd' & _). congruence.
Qed.

(** Reading an entry and forgetting what was read. *)
Lemma entry_bind {B} P K L key (k : DecorationDisposition → M AutoPacket B) Q X :
  (∀ d, triple (λ p, pk_inv P K (refs d ++ L) p ∧ m_decoration_map p !! key = Some d) (k d) Q X) →
  triple (pk_inv P K L) (d ← entry key; k d) Q X.
Proof.
  intros H. eapply triple_bind; [|exact H]. eapply triple_conseq; [apply entry_ok|done|done|done].
Qed.

(** An update that keeps every reference and the modifiers. *)
Lemma store_entry_ok P K L key d d' :
  (∀ a, a ∈ refs d' → a ∈ refs d ++ L) → m_modifiers d' = m_modifiers d →
  triple (λ p, pk_inv P K (refs d ++ L) p ∧ m_decoration_map p !! key = Some d)
    (store_entry key d') (λ _, pk_inv P K L) (λ _ _, False).
Proof.
  intros Hr Hm p [H Hd]. unfold store_entry. munfold.
  apply (pk_weaken P _ K _ (refs d ++ L)); [|done|done|set_solver].
  apply pk_insert_entry; [done|intros a Ha; by apply (pk_live _ _ _ _ H), Hr|].
  intros vec Hv. destruct (pk_frozen _ _ _ _ H _ _ Hv) as (d0 & Hd0 & <-). congruence.
Qed.

Lemma update_entry_safe key f :
  (∀ d a, a ∈ refs (f d) → a ∈ refs d) → (∀ d, m_modifiers (f d) = m_modifiers d) →
  pk_safe (update_entry key f).
Proof.
  intros Hr Hm P K L. apply entry_bind. intros d.
  eapply triple_conseq; [apply (store_entry_ok P K L key d)|done|done|done]; [|apply Hm].
  intros a Ha. apply elem_of_app. left. by apply Hr.
Qed.

Lemma load_sat_ok P K L a :
  a ∈ L →
  triple (pk_inv P K L) (load_sat a) (λ s p, pk_inv P K L p ∧ counters p !! a = Some s) (λ _ _, False).
Proof.
  intros Ha p H. destruct (pk_live _ _ _ _ H a Ha) as [s Hs]. unfold load_sat. munfold. rewrite Hs. done.
Qed.

Lemma load_bind {B} P K L a (k : SatCounter → M AutoPacket B) Q X :
  a ∈ L →
  (∀ s, triple (λ p, pk_inv P K L p ∧ counters p !! a = Some s) (k s) Q X) →
  triple (pk_inv P K L) (s ← load_sat a; k s) Q X.
Proof.
  intros Ha H. eapply triple_bind; [|exact H].
  eapply triple_conseq; [by apply load_sat_ok|done|done|done].
Qed.

(** Decrementing: the counter joins the pending calls exactly when it reaches zero. *)
Lemma sat_Decrement_ok P K L a :
  a ∈ L →
  triple (pk_inv P K L) (sat_Decrement a) (λ b, pk_inv (if b then a :: P else P) K L) (λ _ _, False).
Proof.
  intros Ha. apply load_bind; [done|]. intros s p [H Hs].
  destruct (Decrement_spec s) as (Hb & Hrem & Hd & Hf & Hbl).
  unfold store_sat. munfold. rewrite Hb.
  assert (pk_inv P K L (set_counters (<[a := (Decrement s).2]> (counters p)) p)) as H1.
  { eapply pk_insert_sat; [done|done| |intros b; rewrite Hf, Hbl; apply (pk_links _ _ _ _ H a s b Hs)|
      intros b; rewrite Hf, Hbl; apply (pk_order _ _ _ _ H a s b Hs)].
    destruct (decide (remaining s = 0)) as [Hz|Hz]; [left; by rewrite Hrem, Hz|right].
    intros Hin. destruct (pk_zero _ _ _ _ H a Hin) as (s' & Hs' & Hz'). congruence. }
  destruct (Nat.eqb_spec (remaining s) 1) as [Hone|]; [|done].
  destruct H1. split; try done; simpl.
  - apply NoDup_cons. split; [|done]. intros Hin.
    destruct (pk_zero _ _ _ _ H a Hin) as (s' & Hs' & Hz'). congruence.
  - intros b [->|Hb']%elem_of_cons; [|by apply pk_zero0]. exists (Decrement s).2.
    rewrite lookup_insert_eq. split; [done|]. by rewrite Hrem, Hone.
Qed.

(** Zeroing a live counter. *)
Lemma zero_ok P K L a s :
  triple (λ p, pk_inv P K L p ∧ counters p !! a = Some s) (store_sat a (set_remaining 0 s))
    (λ _, pk_inv P K L) (λ _ _, False).
Proof.
  intros p [H Hs]. unfold store_sat. munfold. eapply pk_insert_sat; [done|done|by left| |].
  - intros b Hb. by apply (pk_links _ _ _ _ H a s b Hs).
  - intros b. by apply (pk_order _ _ _ _ H a s b Hs).
Qed.

Lemma SetCurrent_safe c : pk_safe (SetCurrent c).
Proof. intros P K L p []. by split. Qed.

Section safety.
  Context (this : nat) (call_filter : t_extractedCall → AnySharedPointer → M AutoPacket unit).
  Hypothesis call_filter_safe : ∀ c o, pk_safe (call_filter c o).

(** ** Calling filters *)
Lemma call_sat_ok P K L a :
  triple (pk_inv (a :: P) K L) (call_sat call_filter a) (λ _, pk_inv P K L) (λ _, pk_inv P K L).
Proof.
  intros p H. destruct (pk_zero _ _ _ _ H a) as (s & Hs & Hz); [left|].
  unfold call_sat. erewrite bind_Ret by (unfold load_sat; munfold; by rewrite Hs).
  rewrite (bind_Ret _ _ _ tt (set_calls (calls p ++ [a]) p)) by done.
  apply (call_filter_safe _ _ P K L). destruct H. split; simpl; try done.
  - rewrite app_assoc, Permutation_app_comm. done.
  - intros b Hb. apply pk_zero0. set_solver.
Qed.

Lemma call_all_ok P K L l :
  triple (pk_inv (l ++ P) K L) (for_each (call_sat call_filter) l) (λ _, pk_inv P K L) (λ _, pk_inv P K L).
Proof.
  induction l as [|a l IH]; simpl; [by intros p H|].
  apply (triple_bind _ _ _ (λ _, pk_inv (l ++ P) K L)); [|intros _; exact IH].
  eapply triple_conseq; [apply (call_sat_ok (l ++ P) K L a)|done|done|].
  intros e p H. apply (pk_weaken _ P _ K _ L _ H); [by apply submseteq_inserts_l|done|done].
Qed.

Lemma with_current_ok {P Q X : AutoPacket → Prop} m :
  (∀ c, triple P (SetCurrent c) (λ _, P) (λ _, P)) →
  (∀ c, triple Q (SetCurrent c) (λ _, Q) (λ _ _, False)) →
  (∀ c, triple X (SetCurrent c) (λ _, X) (λ _ _, False)) →
  triple P m (λ _, Q) (λ _, X) → triple P (with_current this m) (λ _, Q) (λ _, X).
Proof.
  intros HP HQ HX Hm p Hp. unfold with_current. munfold. specialize (HP (Some this) p Hp).
  unfold SetCurrent in *. munfold. simpl in *. specialize (Hm _ HP). unfold at_exit.
  destruct (m _) as [[[]|e|r] p']; [| |done].
  - exact (HQ (autoCurrentPacket p) p' Hm).
  - exact (HX (autoCurrentPacket p) p' Hm).
Qed.

Lemma call_current_ok P K L l :
  triple (pk_inv (l ++ P) K L) (with_current this (for_each (call_sat call_filter) l))
    (λ _, pk_inv P K L) (λ _, pk_inv P K L).
Proof.
  apply with_current_ok; [..|apply call_all_ok].
  - intros c p H. exact (SetCurrent_safe c _ _ _ p H).
  - intros c p H. exact (SetCurrent_safe c _ _ _ p H).
  - intros c p H. exact (SetCurrent_safe c _ _ _ p H).
Qed.

(** ** The satisfaction loops *)
Lemma markOutputsUnsat_ok P K L a u :
  a ∈ L → triple (pk_inv P K L) (markOutputsUnsat a u) (λ _, pk_inv P K L) (λ _ _, False).
Proof.
  intros Ha. apply load_bind; [done|]. intros s. destruct (Nat.eqb _ _).
  - intros p [H _]. exact H.
  - eapply triple_bind; [apply (zero_ok P K L a s)|]. intros [] p H. exact H.
Qed.

Lemma queue_perm (a : sat_addr) l P : a :: l ++ P ≡ₚ (l ++ [a]) ++ P.
Proof. rewrite <-app_assoc. simpl. by rewrite <-Permutation_middle. Qed.

(** A decrement that queues the counter when it becomes ready. *)
Lemma queue_ok P K L a (q : queues) :
  a ∈ L →
  triple (pk_inv (q.1 ++ P) K L)
    (b ← sat_Decrement a; mret (if b : bool then q.1 ++ [a] else q.1, q.2))
    (λ q', pk_inv (q'.1 ++ P) K L) (λ _ _, False).
Proof.
  intros Ha. eapply triple_bind; [by apply sat_Decrement_ok|]. intros b p H. munfold. simpl.
  destruct b; [|done]. eapply pk_perm; [apply queue_perm|exact H].
Qed.

Lemma drop_queue (q : list sat_addr) P K L L' p :
  pk_inv (q ++ P) K L p → L' ⊆ L → pk_inv P K L' p.
Proof. intros H HL. apply (pk_weaken _ P _ K _ L' _ H); [by apply submseteq_inserts_l|done|done]. Qed.

Lemma visit_subscriber_ok P K L n s q :
  sub_satCounter s ∈ L →
  triple (pk_inv (q.1 ++ P) K L) (visit_subscriber n s q)
    (λ q', pk_inv (q'.1 ++ P) K L) (λ _, pk_inv P K L).
Proof.
  intros Ha. unfold visit_subscriber.
  assert (triple (pk_inv (q.1 ++ P) K L)
    (b ← sat_Decrement (sub_satCounter s); mret (if b : bool then q.1 ++ [sub_satCounter s] else q.1, q.2))
    (λ q', pk_inv (q'.1 ++ P) K L) (λ _, pk_inv P K L)) as Hcall.
  { eapply triple_conseq; [by apply queue_ok|done|done|done]. }
  destruct n as [|[|n]]; [|exact Hcall|].
  - apply load_bind; [done|]. intros c. destruct (Nat.eqb _ _); [by intros p [H _]|].
    destruct (sub_type s); [|by eapply triple_pre; [exact Hcall|intros p []]..].
    eapply triple_pre; [|by intros p [H _]; exact H].
    eapply triple_bind; [|intros u p H; exact H].
    eapply triple_conseq; [by apply (markOutputsUnsat_ok (q.1 ++ P))|done|done|done].
  - destruct (sub_type s); [| |exact Hcall]; intros p H; by eapply drop_queue.
Qed.

Lemma subscribers_loop_ok P K L n subs : ∀ q,
  sub_satCounter <$> subs ⊆ L →
  triple (pk_inv (q.1 ++ P) K L) (subscribers_loop n subs q)
    (λ q', pk_inv (q'.1 ++ P) K L) (λ _, pk_inv P K L).
Proof.
  induction subs as [|s subs IH]; intros q HL; simpl; [by intros p H|].
  eapply triple_bind; [apply visit_subscriber_ok; set_solver|]. intros q'. apply IH. set_solver.
Qed.

Lemma modifiers_loop_ok P K L key vec mods : ∀ q,
  mod_satCounter <$> mods ⊆ L →
  triple (pk_inv (q.1 ++ P) ((key, vec) :: K) L) (modifiers_loop this call_filter key vec mods q)
    (λ q', pk_inv (q'.1 ++ P) K L) (λ _, pk_inv P K L).
Proof.
  assert (∀ P' P0 p, pk_inv P' ((key, vec) :: K) L p → P0 ⊆+ P' → pk_inv P0 K L p) as Hw.
  { intros P' P0 p H HP. apply (pk_weaken P' P0 _ K _ L _ H); [done|set_solver|done]. }
  induction mods as [|m mods IH]; intros q HL; cbn [modifiers_loop].
  { intros p H. eapply Hw; [exact H|reflexivity]. }
  assert (mod_satCounter m ∈ L) as Ha by set_solver.
  assert (mod_satCounter <$> mods ⊆ L) as HL' by set_solver.
  destruct (mod_is_shared m).
  - eapply triple_bind; [eapply triple_conseq; [by apply sat_Decrement_ok|done|done|done]|].
    intros []; [|by apply IH].
    eapply triple_bind.
    + eapply triple_conseq;
        [apply (call_current_ok P ((key, vec) :: K) L (q.1 ++ [mod_satCounter m]))| |done|].
      * intros p H. eapply pk_perm; [apply (queue_perm _ q.1)|exact H].
      * intros e p H. eapply Hw; [exact H|reflexivity].
    + intros []. apply entry_bind. intros d p [H Hd]. destruct (pk_frozen _ _ _ _ H key vec) as (d' & Hd' & Hv); [left|].
      assert (d' = d) as -> by congruence. rewrite bool_decide_true by done.
      apply (IH ([], q.2) HL'). apply (pk_weaken _ _ _ _ _ _ _ H); [done|done|set_solver].
  - apply entry_bind. intros d.
    eapply triple_pre; [|intros p [H _]; exact (pk_weaken _ _ _ _ _ L _ H ltac:(done) ltac:(done) ltac:(set_solver))].
    destruct (m_decorations d) as [|x [|y l]]; simpl.
    + eapply triple_bind; [eapply triple_conseq; [by apply markOutputsUnsat_ok|done|done|done]|].
      intros u. apply (IH (q.1, u) HL').
    + eapply triple_bind; [eapply triple_conseq; [by apply sat_Decrement_ok|done|done|done]|].
      intros b. apply (triple_pre _ (pk_inv ((if b then q.1 ++ [mod_satCounter m] else q.1) ++ P) ((key, vec) :: K) L));
        [apply (IH (_, q.2) HL')|].
      intros p H. destruct b; [|done]. eapply pk_perm; [apply queue_perm|exact H].
    + intros p H. eapply Hw; [exact H|by apply submseteq_inserts_l].
Qed.

Lemma inc_producer_safe key : pk_safe (inc_producer key).
Proof.
  intros P K L. apply entry_bind. intros d.
  destruct (IncProducerCount_fields d) as (_ & _ & _ & Hp & Hm & Hs).
  eapply triple_bind; [|intros; apply safe_ret].
  eapply triple_conseq; [apply (store_entry_ok P K L key d)|done|done|done]; [|done].
  intros a Ha. apply elem_of_app. left. unfold refs in *. by rewrite Hp, Hm, Hs in Ha.
Qed.

Lemma forget_refs P K L L' p : pk_inv P K (L' ++ L) p → pk_inv P K L p.
Proof. intros H. apply (pk_weaken _ _ _ _ _ _ _ H); [done|done|set_solver]. Qed.

Lemma entry_safe {B} P K L key (k : DecorationDisposition → M AutoPacket B) :
  (∀ d, safe (pk_inv P K (refs d ++ L)) (k d)) → safe (pk_inv P K L) (d ← entry key; k d).
Proof.
  intros H. apply entry_bind. intros d p [Hp _]. specialize (H d p Hp).
  destruct (k d p) as [[b|e|[]] p']; try done; exact (forget_refs _ _ _ _ _ H).
Qed.

(** The part of [UpdateSatisfactionUnsafe] after the modifiers. *)
Lemma update_tail_ok rec key P K L q :
  (∀ k, pk_safe (rec k)) →
  triple (pk_inv (q.1 ++ P) K L)
    (d ← entry key;
     q ← subscribers_loop (length (m_decorations d)) (m_subscribers d) q;
     with_current this (for_each (call_sat call_filter) q.1);;
     for_each (λ unsatOutputArg, b ← inc_producer (id unsatOutputArg);
                                 if b : bool then rec (id unsatOutputArg) else mret tt) q.2)
    (λ _, pk_inv P K L) (λ _, pk_inv P K L).
Proof.
  intros Hrec. apply entry_bind. intros d.
  eapply triple_pre; [|by intros p [H _]; exact H].
  eapply triple_bind.
  { eapply triple_conseq; [apply (subscribers_loop_ok P K (refs d ++ L))| |intros q' p H; exact H|].
    - unfold refs. set_solver.
    - done.
    - intros e p H. exact (forget_refs _ _ _ _ _ H). }
  intros q'. apply (triple_bind _ _ _ (λ _, pk_inv P K L)).
  { eapply triple_conseq; [apply (call_current_ok P K (refs d ++ L) q'.1)|done| |];
      intros ? p H; exact (forget_refs _ _ _ _ _ H). }
  intros _. apply safe_for_each. intros o. apply safe_bind; [apply inc_producer_safe|].
  intros []; [apply Hrec|apply safe_ret].
Qed.

Lemma UpdateSatisfactionUnsafe_safe fuel : ∀ key, pk_safe (UpdateSatisfactionUnsafe this call_filter fuel key).
Proof.
  assert (∀ rec key P K L d, (∀ k, pk_safe (rec k)) →
    triple (λ p, pk_inv P K (refs d ++ L) p ∧ m_decoration_map p !! key = Some d)
      (if negb (bool_decide (m_state d = Complete)) then mret tt
       else if negb (bool_decide (m_modifiers d = [])) && Nat.ltb 1 (length (m_decorations d)) then
         throw single_rvalue_error
       else
         q ← modifiers_loop this call_filter key (m_modifiers d) (m_modifiers d) ([], []);
         d ← entry key;
         q ← subscribers_loop (length (m_decorations d)) (m_subscribers d) q;
         with_current this (for_each (call_sat call_filter) q.1);;
         for_each (λ o, b ← inc_producer (id o); if b : bool then rec (id o) else mret tt) q.2)
      (λ _, pk_inv P K L) (λ _, pk_inv P K L)) as Hbody.
  { intros rec key P K L d Hrec.
    destruct (negb _); [intros p [H _]; exact (forget_refs _ _ _ _ _ H)|].
    destruct (_ && _); [intros p [H _]; exact (forget_refs _ _ _ _ _ H)|].
    eapply triple_bind; [|intros q; by apply update_tail_ok].
    eapply triple_conseq;
      [apply (modifiers_loop_ok P K (refs d ++ L) key (m_modifiers d) (m_modifiers d) ([], []))| | |].
    - unfold refs. set_solver.
    - intros p [H Hd]. simpl. destruct H. split; try done.
      intros k vec [[= -> ->]|Hin]%elem_of_cons; [by exists d|by apply pk_frozen0].
    - intros q p H. exact (forget_refs _ _ _ _ _ H).
    - intros e p H. exact (forget_refs _ _ _ _ _ H). }
  induction fuel as [|fuel IH]; intros key P K L; cbn [UpdateSatisfactionUnsafe]; apply entry_bind; intros d.
  - apply (Hbody (λ _, stuck out_of_fuel)). intros k P' K' L'. by apply safe_stuck.
  - by apply (Hbody (λ k, UpdateSatisfactionUnsafe this call_filter fuel k)).
Qed.

(** ** Decorating *)
Lemma refs_same d d' :
  m_subscribers d' = m_subscribers d → m_modifiers d' = m_modifiers d → m_publishers d' = m_publishers d →
  refs d' = refs d.
Proof. unfold refs. by intros -> -> ->. Qed.

Lemma DecorateNoPriors_safe fuel ptr key : pk_safe (DecorateNoPriors this call_filter fuel ptr key).
Proof.
  intros P K L. apply entry_bind. intros d.
  eapply triple_pre; [|intros p [H _]; exact (forget_refs _ _ _ _ _ H)].
  destruct (bool_decide _); [apply safe_throw|].
  apply safe_bind; [apply safe_when, update_entry_safe; [|done]; by intros ? ? ?|]. intros _.
  apply safe_bind; [apply inc_producer_safe|]. intros []; [apply UpdateSatisfactionUnsafe_safe|apply safe_ret].
Qed.

Lemma MarkUnsatisfiable_safe fuel key : pk_safe (MarkUnsatisfiable this call_filter fuel key).
Proof.
  intros P K L. apply safe_bind; [apply update_entry_safe; [|done]; by intros ? ? ?|].
  intros _. apply UpdateSatisfactionUnsafe_safe.
Qed.

Lemma pk_set_decorations P K L p key d l :
  pk_inv P K L p → m_decoration_map p !! key = Some d →
  pk_inv P K L (set_map (<[key := set_decorations l d]> (m_decoration_map p)) p).
Proof.
  intros H Hd. apply pk_insert_entry; [done|intros a Ha; by apply (pk_refs _ _ _ _ H key d)|].
  intros vec Hv. destruct (pk_frozen _ _ _ _ H _ _ Hv) as (d' & Hd' & <-). by simplify_eq.
Qed.

Lemma RemoveDecoration_safe key : pk_safe (RemoveDecoration key).
Proof.
  intros P K L. apply safe_modify. intros p H. destruct (m_decoration_map p !! key) eqn:Hd; [|done].
  by apply pk_set_decorations.
Qed.

Lemma GetRvalueShared_safe key : pk_safe (GetRvalueShared key).
Proof.
  intros P K L p H. unfold GetRvalueShared, GetDisposition.
  destruct (m_decoration_map p !! key) as [d|] eqn:Hd; [|done].
  destruct (bool_decide _); [|done]. destruct (m_decorations d) as [|x [|y l]]; try done.
  by apply pk_set_decorations.
Qed.

(** ** Registering filters *)
(** Rvalue arguments insert into a modifier vector, which must not be in use. *)
Definition may_add (K : list (auto_id * list Modifier)) (args : list AutoFilterArgument) : Prop :=
  K = [] ∨ ∀ x, x ∈ args → is_rvalue x = false.

(** An update that refers only to counters the entry or [L] already has. *)
Lemma update_entry_gen P K L key f :
  (∀ d b, b ∈ refs (f d) → b ∈ refs d ∨ b ∈ L) →
  (K = [] ∨ ∀ d, m_modifiers (f d) = m_modifiers d) →
  safe (pk_inv P K L) (update_entry key f).
Proof.
  intros Hr Hm. apply entry_bind. intros d p [H Hd]. unfold store_entry. munfold.
  apply (pk_weaken P _ K _ (refs d ++ L)); [|done|done|set_solver].
  apply pk_insert_entry; [done|intros b Hb; apply (pk_live _ _ _ _ H); destruct (Hr d b Hb); set_solver|].
  intros vec Hv. destruct Hm as [->|Hm]; [by apply elem_of_nil in Hv|]. rewrite Hm.
  destruct (pk_frozen _ _ _ _ H _ _ Hv) as (d0 & Hd0 & <-). congruence.
Qed.

Lemma add_subscriber_refs e d : ∀ a,
  a ∈ refs (set_subscribers (subscribers_emplace e (m_subscribers d)) d) → a = sub_satCounter e ∨ a ∈ refs d.
Proof.
  intros a. unfold refs. simpl. rewrite !elem_of_app, subscribers_emplace_elem. tauto.
Qed.

Lemma ignored_Decrement_ok P K L a :
  a ∈ L → triple (pk_inv P K L) (_ ← sat_Decrement a; mret tt) (λ _, pk_inv P K L) (λ _ _, False).
Proof.
  intros Ha. eapply triple_bind; [by apply sat_Decrement_ok|]. intros b p H. munfold.
  apply (pk_weaken _ P _ K _ L _ H); [destruct b; [by apply submseteq_cons|done]|done|done].
Qed.

Lemma conflict_check_ok P K L key subs :
  sub_satCounter <$> subs ⊆ L →
  safe (pk_inv P K L) (for_each (λ subscriber,
     other ← load_sat (sub_satCounter subscriber);
     if takes_single key other then throw identical_broadcast_error else mret tt) subs).
Proof.
  induction subs as [|s subs IH]; intros HL; simpl; [apply safe_ret|].
  apply safe_bind; [|intros _; apply IH; set_solver].
  apply load_bind; [set_solver|]. intros o p [H _]. by destruct (takes_single key o).
Qed.

Lemma add_argument_ok P K L a pCur :
  a ∈ L → may_add K [pCur] → safe (pk_inv P K L) (add_argument a pCur).
Proof.
  intros Ha HK. apply entry_safe. intros d.
  assert (a ∈ refs d ++ L) as Ha' by set_solver.
  apply safe_bind; [|intros _].
  { apply safe_when. destruct (_ && _); [apply safe_throw|]. apply safe_when.
    eapply triple_conseq; [by apply ignored_Decrement_ok|done|done|done]. }
  apply load_bind; [done|]. intros s. simpl.
  eapply triple_pre; [|by intros p [H _]; exact H].
  destruct (is_rvalue pCur) eqn:Hrv.
  - destruct (modifiers_emplace _ _) as [l|] eqn:Hl; [|apply safe_throw].
    apply update_entry_gen.
    + intros d' b. apply modifiers_emplace_elem in Hl. unfold refs. simpl. rewrite Hl. set_solver.
    + destruct HK as [->|HK]; [by left|]. specialize (HK pCur ltac:(set_solver)). congruence.
  - apply safe_bind.
    + apply safe_when, update_entry_gen; [|by right].
      intros d' b Hb. destruct (add_subscriber_refs _ _ _ Hb) as [->|?]; [right; done|by left].
    + intros _. apply safe_when. apply entry_safe. intros e.
      apply safe_bind.
      * apply safe_when. apply safe_bind; [apply conflict_check_ok; unfold refs; set_solver|].
        intros _. destruct (bool_decide _); [apply safe_ret|apply safe_throw].
      * intros _. apply update_entry_gen; [|by right]. intros d' b. unfold refs. simpl. set_solver.
Qed.

Lemma collect_next_ok args : ∀ P K L acc,
  elements acc ⊆ L →
  triple (pk_inv P K L) (collect_next args acc) (λ acc', pk_inv P K (elements acc' ++ L)) (λ _ _, False).
Proof.
  induction args as [|x args IH]; intros P K L acc Hacc; simpl.
  - intros p H. apply (pk_weaken _ _ _ _ L _ _ H); [done|done|set_solver].
  - destruct (is_output x); [|by apply IH]. apply entry_bind. intros d.
    eapply triple_pre; [|by intros p [H _]; exact H].
    eapply triple_conseq; [apply (IH P K (refs d ++ L))|done| |done].
    + intros b Hb. apply elem_of_elements in Hb. unfold refs. set_solver.
    + intros acc' p H. apply (pk_weaken _ _ _ _ _ _ _ H); [done|done|set_solver].
Qed.

Lemma DetectCycle_ok fuel : ∀ P K L a v,
  a ∈ L → safe (pk_inv P K L) (DetectCycle fuel a v).
Proof.
  induction fuel as [|fuel IH]; intros P K L a v Ha; simpl;
    (destruct (bool_decide _); [apply safe_throw|]); (destruct (bool_decide _); [apply safe_ret|]);
    [by apply safe_stuck|].
  apply load_bind; [done|]. intros s. eapply triple_pre; [|by intros p [H _]; exact H].
  eapply triple_bind; [eapply triple_conseq; [apply (collect_next_ok _ P K L ∅); set_solver|done|intros n p H; exact H|done]|].
  intros next. destruct (bool_decide _); [intros p H; exact (forget_refs _ _ _ _ _ H)|].
  apply (triple_conseq _ (pk_inv P K (elements next ++ L)) _ _ (λ _, pk_inv P K (elements next ++ L)) _
           (λ _, pk_inv P K (elements next ++ L)));
    [|done|intros ? p H; exact (forget_refs _ _ _ _ _ H)..].
  apply safe_bind; [|intros; apply safe_ret].
  assert (elements next ⊆ elements next ++ L) as Hsub by set_solver. revert Hsub.
  generalize (elements next) at 1 4 as l. intros l. generalize ({[a]} ∪ v.1, v.2) as w.
  induction l as [|c l IHl]; intros w Hsub; [by intros p H|].
  apply safe_bind; [apply IH; set_solver|]. intros w'. apply IHl. set_solver.
Qed.

Lemma AddSatCounterUnsafe_ok P K L fuel a :
  a ∈ L → 
  triple (λ p, pk_inv P K L p ∧ ∀ s, counters p !! a = Some s → may_add K (m_pArgs (descriptor s)))
    (AddSatCounterUnsafe fuel a) (λ _, pk_inv P K L) (λ _, pk_inv P K L).
Proof.
  intros Ha p [H Hadd]. destruct (pk_live _ _ _ _ H a Ha) as [s Hs]. specialize (Hadd s Hs).
  unfold AddSatCounterUnsafe. rewrite (bind_Ret _ _ _ s p) by (unfold load_sat; munfold; by rewrite Hs).
  revert p H Hs. cut (safe (pk_inv P K L)
    (for_each (add_argument a) (m_pArgs (descriptor s));; _ ← DetectCycle fuel a (∅, ∅); mret tt)).
  { intros Hsafe p H Hs. exact (Hsafe p H). }
  apply safe_bind; [|intros _; apply safe_bind; [by apply DetectCycle_ok|intros; apply safe_ret]].
  induction (m_pArgs (descriptor s)) as [|x args IH]; simpl; [apply safe_ret|].
  apply safe_bind.
  - apply add_argument_ok; [done|]. destruct Hadd as [->|Hadd]; [by left|right]. set_solver.
  - intros _. apply IH. destruct Hadd as [->|Hadd]; [by left|right]. set_solver.
Qed.

(** ** The list of counters *)
Lemma find_counter_ok P K L pred fuel : ∀ o,
  triple (λ p, pk_inv P K L p ∧ ∀ a, o = Some a → live p a) (find_counter fuel pred o)
    (λ r p, pk_inv P K L p) (λ _ _, False).
Proof.
  induction fuel as [|fuel IH]; intros [a|] p [H Ha]; simpl; try done.
  destruct (Ha a eq_refl) as [s Hs]. rewrite (bind_Ret _ _ _ s p) by (unfold load_sat; munfold; by rewrite Hs).
  destruct (pred s); [done|]. apply IH. split; [done|]. intros b Hb.
  apply (pk_links _ _ _ _ H a s b Hs). by left.
Qed.

Lemma find_counter_state pred fuel : ∀ o p, (find_counter fuel pred o p).2 = p.
Proof.
  induction fuel as [|fuel IH]; intros [a|] p; simpl; try done.
  unfold load_sat. munfold. destruct (counters p !! a) as [s|]; simpl; [|done]. destruct (pred s); [done|apply IH].
Qed.

(** New links lead to known counters, older ones by [flink], newer ones by [blink]. *)
Definition relinks (L : list sat_addr) (a : sat_addr) (f : SatCounter → SatCounter) : Prop := ∀ s b,
  (flink (f s) = Some b → flink s = Some b ∨ b ∈ L ∧ b < a) ∧ (blink (f s) = Some b → blink s = Some b ∨ b ∈ L ∧ a < b).

(** A store that changes only the links of a counter. *)
Lemma relink_ok P K L a f :
  a ∈ L → (∀ s, remaining (f s) = remaining s) → relinks L a f →
  triple (pk_inv P K L) (s ← load_sat a; store_sat a (f s)) (λ _, pk_inv P K L) (λ _ _, False).
Proof.
  intros Ha Hr Hf. apply load_bind; [done|]. intros s p [H Hs]. unfold store_sat. munfold.
  eapply pk_insert_sat; [done|done| | |].
  - destruct (decide (a ∈ P ++ calls p)) as [Hin|]; [|by right]. left.
    destruct (pk_zero _ _ _ _ H a Hin) as (s' & Hs' & Hz). rewrite Hr. congruence.
  - intros b Hb. destruct (Hf s b) as [H1 H2]. pose proof (pk_links _ _ _ _ H a s b Hs) as Hl.
    destruct Hb as [[?|[??]]%H1|[?|[??]]%H2]; auto; by apply (pk_live _ _ _ _ H).
  - intros b. destruct (Hf s b) as [H1 H2]. destruct (pk_order _ _ _ _ H a s b Hs).
    split; [intros [?|[??]]%H1|intros [?|[??]]%H2]; auto.
Qed.

Lemma new_sat_ok P K L d :
  triple (pk_inv P K L) (new_sat d)
    (λ a p, pk_inv P K (a :: L) p ∧ (a ∉ P ++ calls p) ∧ counters p !! a = Some (SatCounter_new d)) (λ _ _, False).
Proof.
  intros p H. unfold new_sat.
  assert (∀ b, live p b → b ≠ next_sat p) as Hne.
  { intros b Hb. pose proof (pk_fresh _ _ _ _ H b Hb). lia. }
  assert (∀ b, live p b → live (set_next_sat (S (next_sat p))
    (set_counters (<[next_sat p := SatCounter_new d]> (counters p)) p)) b) as Hl.
  { intros b Hb. by apply live_insert. }
  split_and!; [|intros Hin; destruct (pk_zero _ _ _ _ H _ Hin) as (s & Hs & _);
    by apply (Hne (next_sat p)); [by eexists|]|simpl; by rewrite lookup_insert_eq].
  pose proof H as [].
  split; try done.
  - intros k e a Hk Ha. by eapply Hl, pk_refs0.
  - intros a Ha. by apply Hl, pk_first0.
  - intros a s b. simpl. rewrite lookup_insert. case_decide; [intros [= <-]; simpl; naive_solver|].
    intros Hs Hb. by eapply Hl, pk_links0.
  - intros a s b. simpl. rewrite lookup_insert. case_decide; [by intros [= <-]|apply pk_order0].
  - intros b [x Hb]. simpl in *. rewrite lookup_insert in Hb. case_decide; [lia|].
    pose proof (pk_fresh0 b (ex_intro _ x Hb)). lia.
  - intros b Hb. destruct (pk_zero0 b Hb) as (s & Hs & Hz). exists s. simpl.
    rewrite lookup_insert_ne; [done|]. intros <-. by apply (Hne (next_sat p)); [eexists|].
  - intros b [->|Hb]%elem_of_cons; [|by apply Hl, pk_live0]. unfold live. simpl. by rewrite lookup_insert_eq.
Qed.

(** Registering a filter changes the dispositions and decrements counters. *)
Section registering.
  Context (I : AutoPacket → Prop).
  Hypothesis quiet_map : ∀ p m, I p → I (set_map m p).
  Hypothesis quiet_Decrement : ∀ p a s, I p → counters p !! a = Some s → I (set_counters (<[a := (Decrement s).2]> (counters p)) p).

Lemma entry_quiet key : preserves I (entry key).
Proof. intros p H. unfold entry. destruct (_ !! _); [done|by apply quiet_map]. Qed.
Lemma store_entry_quiet key d : preserves I (store_entry key d).
Proof. apply preserves_modify. intros p. apply quiet_map. Qed.
Lemma update_entry_quiet key f : preserves I (update_entry key f).
Proof. apply preserves_bind; [apply entry_quiet|intros; apply store_entry_quiet]. Qed.
Lemma load_sat_quiet a : preserves I (load_sat a).
Proof. apply preserves_bind; auto with aw. Qed.
Lemma sat_Decrement_quiet a : preserves I (sat_Decrement a).
Proof.
  intros p H. unfold sat_Decrement, load_sat, store_sat. munfold. destruct (counters p !! a) as [s|] eqn:Hs; simpl; [|done].
  by apply quiet_Decrement.
Qed.

Lemma add_argument_quiet a x : preserves I (add_argument a x).
Proof.
  unfold add_argument. apply preserves_bind; [apply entry_quiet|intros d].
  apply preserves_bind.
  { apply preserves_when. destruct (_ && _); [auto with aw|]. apply preserves_when.
    apply preserves_bind; [apply sat_Decrement_quiet|auto with aw]. }
  intros _. apply preserves_bind; [apply load_sat_quiet|intros s]. destruct (is_rvalue x).
  { destruct (modifiers_emplace _ _); [apply update_entry_quiet|auto with aw]. }
  apply preserves_bind; [apply preserves_when, update_entry_quiet|intros _].
  apply preserves_when, preserves_bind; [apply entry_quiet|intros e].
  apply preserves_bind; [|intros; apply update_entry_quiet].
  apply preserves_when, preserves_bind; [|intros; destruct (bool_decide _); auto with aw].
  apply preserves_for_each. intros y _. apply preserves_bind; [apply load_sat_quiet|].
  intros o. destruct (takes_single _ _); auto with aw.
Qed.

Lemma collect_next_quiet args : ∀ acc, preserves I (collect_next args acc).
Proof.
  induction args as [|x args IH]; intros acc; simpl; [auto with aw|].
  destruct (is_output x); [|done]. apply preserves_bind; [apply entry_quiet|done].
Qed.

Lemma DetectCycle_quiet fuel : ∀ a v, preserves I (DetectCycle fuel a v).
Proof.
  induction fuel as [|fuel IH]; intros a v; simpl; (destruct (bool_decide _); [auto with aw|]);
    (destruct (bool_decide _); [auto with aw|]); [auto with aw|].
  apply preserves_bind; [apply load_sat_quiet|intros s].
  apply preserves_bind; [apply collect_next_quiet|intros n]. destruct (bool_decide _); [auto with aw|].
  apply preserves_bind; [|auto with aw]. generalize ({[a]} ∪ v.1, v.2) as w.
  induction (elements n) as [|x l IHl]; intros w; [auto with aw|].
  apply preserves_bind; [apply IH|intros; apply IHl].
Qed.

Lemma AddSatCounterUnsafe_quiet fuel a : preserves I (AddSatCounterUnsafe fuel a).
Proof.
  apply preserves_bind; [apply load_sat_quiet|intros s]. apply preserves_bind.
  - apply preserves_for_each. intros x _. apply add_argument_quiet.
  - intros _. apply preserves_bind; [apply DetectCycle_quiet|auto with aw].
Qed.
End registering.

(** It calls nobody. *)
Definition calls_are (c : list sat_addr) (p : AutoPacket) : Prop := calls p = c.

Lemma AddSatCounterUnsafe_calls c fuel a : preserves (calls_are c) (AddSatCounterUnsafe fuel a).
Proof. by apply AddSatCounterUnsafe_quiet. Qed.

(** The state between the allocation of [a] and the call that may follow. *)
Definition adding (c : list sat_addr) (a : sat_addr) (d : AutoFilterDescriptor) (p : AutoPacket) : Prop :=
  calls_are c p ∧ ∀ s, counters p !! a = Some s → descriptor s = d.

Lemma relink_adding c a d b f :
  (∀ s, descriptor (f s) = descriptor s) → preserves (adding c a d) (s ← load_sat b; store_sat b (f s)).
Proof.
  intros Hf p [Hc Hd]. unfold load_sat, store_sat. munfold.
  destruct (counters p !! b) as [s|] eqn:Hs; simpl; [|done]. split; [done|]. intros s'. simpl.
  rewrite lookup_insert. case_decide; [|apply Hd]. intros [= <-]. subst. rewrite Hf. by apply Hd.
Qed.

Lemma link_counter_ok P K L c a d first :
  a ∈ L → (∀ f, first = Some f → f ∈ L ∧ f < a) →
  triple (λ p, pk_inv P K L p ∧ adding c a d p) (link_counter a first)
    (λ _ p, pk_inv P K L p ∧ adding c a d p) (λ _ p, False ∧ adding c a d p).
Proof.
  intros Ha Hf. apply triple_preserves.
  - eapply triple_bind; [apply (relink_ok P K L a (set_flink first)); [done|done|]|].
    { simpl. intros s b. split; [intros H; right; by apply Hf|by left]. }
    intros []. apply (triple_bind _ _ _ (λ _, pk_inv P K L)).
    + destruct first as [f|]; [|by intros p H]. apply (relink_ok P K L f (set_blink (Some a))); [by apply Hf|done|].
      simpl. intros s b. split; [by left|intros [= <-]]. right. split; [done|by apply Hf].
    + intros _ p H. munfold. pose proof (pk_live _ _ _ _ H a Ha). destruct H. split; try done.
      intros b [= <-]. done.
  - apply preserves_bind; [by apply relink_adding|intros _]. apply preserves_bind.
    + destruct first; [by apply relink_adding|apply preserves_ret].
    + intros _. by apply preserves_modify.
Qed.

(** A counter that is ready and was never called is called at once. *)
Lemma call_ready_ok P K L a :
  a ∈ L →
  triple (λ p, pk_inv P K L p ∧ a ∉ P ++ calls p)
    (sat ← load_sat a; when (Nat.eqb (remaining sat) 0) (call_sat call_filter a);; mret a)
    (λ _, pk_inv P K L) (λ _, pk_inv P K L).
Proof.
  intros Ha p [H Hn]. destruct (pk_live _ _ _ _ H a Ha) as [s Hs].
  rewrite (bind_Ret _ _ _ s p) by (unfold load_sat; munfold; by rewrite Hs).
  destruct (Nat.eqb_spec (remaining s) 0) as [Hz|]; [|done].
  refine (triple_bind _ _ _ (λ _, pk_inv P K L) _ _ (call_sat_ok P K L a) _ p _); [by intros _ p' H'|].
  destruct H. split; try done; [by apply NoDup_cons|].
  intros b [->|Hb]%elem_of_cons; [by exists s|by apply pk_zero0].
Qed.

Lemma add_tail_ok P K L L' c a d fuel first :
  a ∈ L' → L ⊆ L' → may_add K (m_pArgs d) → a ∉ P ++ c → (∀ f, first = Some f → f ∈ L' ∧ f < a) →
  triple (λ p, pk_inv P K L' p ∧ adding c a d p)
    (link_counter a first;; AddSatCounterUnsafe fuel a;;
     sat ← load_sat a; when (Nat.eqb (remaining sat) 0) (call_sat call_filter a);; mret a)
    (λ _, pk_inv P K L) (λ _, pk_inv P K L).
Proof.
  intros Ha HL Hadd Hn Hf.
  assert (∀ p, pk_inv P K L' p → pk_inv P K L p) as Hw by (intros p H; by apply (pk_weaken _ _ _ _ _ _ _ H)).
  apply (triple_bind _ _ _ (λ _ p, pk_inv P K L' p ∧ adding c a d p)).
  { eapply triple_conseq; [by apply (link_counter_ok P K L' c a d first)|done|done|]. by intros e p []. }
  intros _. apply (triple_bind _ _ _ (λ _ p, pk_inv P K L' p ∧ calls_are c p)).
  { eapply triple_conseq;
      [apply (triple_preserves _ (calls_are c) _ _ _ (AddSatCounterUnsafe_ok P K L' fuel a Ha)
                (AddSatCounterUnsafe_calls c fuel a))| |intros u p H; exact H|intros e p [H _]; by apply Hw].
    intros p [H [Hc Hd]]. split_and!; [done| |done]. intros s Hs. by rewrite (Hd s Hs). }
  intros _. eapply triple_conseq; [by apply (call_ready_ok P K L' a)| |intros ? p H; by apply Hw|intros ? p H; by apply Hw].
  intros p [H Hc]. by rewrite Hc.
Qed.

Lemma AddRecipient_ok P K L fuel d :
  may_add K (m_pArgs d) → safe (pk_inv P K L) (AddRecipient call_filter fuel d).
Proof.
  intros Hadd p H. unfold AddRecipient.
  pose proof (new_sat_ok P K L d p H) as Hn. unfold mbind at 1, M_bind at 1.
  assert (∀ a p1, new_sat d p = (Ret a, p1) → ∀ f, m_firstCounter p1 = Some f → f < a) as Hbelow.
  { intros a p1 [= <- <-] f Hf. by apply (pk_fresh _ _ _ _ H), (pk_first _ _ _ _ H). }
  destruct (new_sat d p) as [[a|e|[]] p1]; try done. specialize (Hbelow _ _ eq_refl). destruct Hn as (H1 & Hfresh & Hs).
  rewrite (bind_Ret _ _ _ p1 p1) by done.
  pose proof (find_counter_ok P K (a :: L) (λ s, descriptor_eq (descriptor s) d) fuel (m_firstCounter p1) p1
                (conj H1 (pk_first _ _ _ _ H1))) as Hfind.
  pose proof (find_counter_state (λ s, descriptor_eq (descriptor s) d) fuel (m_firstCounter p1) p1) as Hst.
  unfold mbind at 1, M_bind at 1.
  destruct (find_counter _ _ _ _) as [[[cur|]|e|[]] p2]; try done; simpl in Hst; subst p2.
  { exact (forget_refs P K L [a] p1 H1). }
  set (L' := a :: option_list (m_firstCounter p1) ++ L).
  assert (pk_inv P K L' p1) as H1'.
  { destruct H1. split; try done. intros b Hb. unfold L' in Hb. rewrite elem_of_cons, elem_of_app in Hb.
    destruct Hb as [->|[Hb|Hb]]; [apply pk_live0; left| |apply pk_live0; by right].
    apply pk_first0. destruct (m_firstCounter p1); set_solver. }
  assert (adding (calls p1) a d p1) as Hadding by (split; [done|]; intros s; rewrite Hs; by intros [= <-]).
  refine (add_tail_ok P K L L' (calls p1) a d fuel (m_firstCounter p1) _ _ Hadd Hfresh _ p1 (conj H1' Hadding));
    [set_solver|set_solver|].
  intros f Hf. split; [unfold L'; rewrite Hf; set_solver|by apply Hbelow].
Qed.

(** ** Removing a filter *)
Lemma sat_equals_ok P K L d a :
  a ∈ L → triple (pk_inv P K L) (sat_equals d a) (λ _, pk_inv P K L) (λ _ _, False).
Proof. intros Ha. apply load_bind; [done|]. by intros s p [H _]. Qed.

Lemma remove_if_ok {A} P K L (f : A → sat_addr) d l :
  f <$> l ⊆ L →
  triple (pk_inv P K L) (remove_if (λ x, sat_equals d (f x)) l)
    (λ r p, pk_inv P K L p ∧ r ⊆ l) (λ _ _, False).
Proof.
  induction l as [|x l IH]; intros HL; simpl; [by intros p H|].
  eapply triple_bind; [eapply triple_conseq; [apply (sat_equals_ok P K L d (f x)); set_solver|done|done|done]|].
  intros b. eapply triple_bind; [apply IH; set_solver|]. intros r p [H Hr]. munfold.
  split; [done|]. destruct b; set_solver.
Qed.

Lemma find_if_ok {A} P K L (f : A → sat_addr) d l :
  f <$> l ⊆ L →
  triple (pk_inv P K L) (find_if (λ x, sat_equals d (f x)) l) (λ _, pk_inv P K L) (λ _ _, False).
Proof.
  induction l as [|x l IH]; intros HL; simpl; [by intros p H|].
  eapply triple_bind; [eapply triple_conseq; [apply (sat_equals_ok P K L d (f x)); set_solver|done|done|done]|].
  intros []; [by intros p H|]. apply IH. set_solver.
Qed.

Lemma remove_argument_ok P K L d x :
  may_add K [x] → safe (pk_inv P K L) (remove_argument d x).
Proof.
  intros HK. apply entry_safe. intros e. destruct (is_rvalue x) eqn:Hrv.
  - destruct HK as [->|HK]; [|specialize (HK x ltac:(set_solver)); congruence].
    eapply triple_bind.
    { eapply triple_conseq; [apply (remove_if_ok P [] (refs e ++ L) mod_satCounter)|done|intros r p H; exact H|done].
      unfold refs. set_solver. }
    intros r p [H Hr]. apply update_entry_gen; [|by left|done].
    intros d' b. unfold refs. simpl. set_solver.
  - apply safe_bind.
    + apply safe_when. eapply triple_bind.
      { eapply triple_conseq; [apply (find_if_ok P K (refs e ++ L) sub_satCounter)|done|intros r p H; exact H|done].
        unfold refs. set_solver. }
      intros [s|]; [|apply safe_ret]. apply update_entry_gen; [|by right].
      intros d' b. unfold refs, subscribers_erase. simpl. rewrite !elem_of_app, !list_elem_of_fmap.
      intros [(y & -> & Hy)|Hb]; [left; left; exists y; split; [done|]|left; tauto].
      by apply list_elem_of_filter in Hy as [_ ?].
    + intros _. apply safe_when. eapply triple_bind.
      { eapply triple_conseq; [apply (remove_if_ok P K (refs e ++ L) (λ a, a))|done|intros r p H; exact H|done].
        rewrite list_fmap_id. unfold refs. set_solver. }
      intros r p [H Hr]. apply update_entry_gen; [|by right|done].
      intros d' b. unfold refs. simpl. set_solver.
Qed.

(** Reading a counter together with its neighbours. *)
Lemma load_links P L a {B} (k : SatCounter → M AutoPacket B) :
  a ∈ L →
  (∀ s, (∀ b, (flink s = Some b → b < a) ∧ (blink s = Some b → a < b)) →
    safe (pk_inv P [] (option_list (flink s) ++ option_list (blink s) ++ L)) (k s)) →
  safe (pk_inv P [] L) (s ← load_sat a; k s).
Proof.
  intros Ha Hk. apply load_bind; [done|]. intros s p [H Hs].
  assert (pk_inv P [] (option_list (flink s) ++ option_list (blink s) ++ L) p) as H'.
  { pose proof (pk_links _ _ _ _ H a s) as Hl. destruct H. split; try done.
    intros b. rewrite !elem_of_app. intros [Hb|[Hb|Hb]]; [| |by apply pk_live0]; apply Hl; [done| |done|];
      [left|right]; [destruct (flink s)|destruct (blink s)]; set_solver. }
  specialize (Hk s (λ b, pk_order _ _ _ _ H a s b Hs) p H'). destruct (k s p) as [[x|e|[]] p']; try done;
    apply (pk_weaken _ _ _ _ _ _ _ Hk); set_solver.
Qed.

(** Storing into a neighbour, when there is one. *)
Lemma relink_neighbour P L o f :
  (∀ b, o = Some b → b ∈ L) → (∀ s, remaining (f s) = remaining s) → (∀ b, o = Some b → relinks L b f) →
  safe (pk_inv P [] L) (match o with Some b => s ← load_sat b; store_sat b (f s) | None => mret tt end).
Proof.
  intros Ho Hr Hf. destruct o as [b|]; [|apply safe_ret].
  eapply triple_conseq; [apply (relink_ok P [] L b f); [by apply Ho|done|by apply Hf]|done|done|done].
Qed.

Lemma RemoveRecipient_ok P L a :
  a ∈ L → safe (pk_inv P [] L) (RemoveRecipient a).
Proof.
  intros Ha. apply load_links; [done|]. intros s Ho. apply safe_bind.
  { apply (relink_neighbour P _ (blink s) (set_flink (flink s))); [intros b ->; set_solver|done|].
    intros b Eb s' c. simpl. split; [intros Ec; right|by left]. destruct (Ho b) as [_ H1], (Ho c) as [H2 _].
    split; [rewrite Ec; set_solver|]. specialize (H1 Eb). specialize (H2 Ec). lia. }
  intros _. apply load_links; [set_solver|]. intros s' Ho'. apply safe_bind.
  { apply (relink_neighbour P _ (flink s') (set_blink (blink s'))); [intros b ->; set_solver|done|].
    intros b Eb s'' c. simpl. split; [by left|intros Ec; right]. destruct (Ho' b) as [H1 _], (Ho' c) as [_ H2].
    split; [rewrite Ec; set_solver|]. specialize (H1 Eb). specialize (H2 Ec). lia. }
  intros _. apply load_bind; [set_solver|]. intros s''.
  eapply triple_pre; [|by intros p [H _]; exact H].
  induction (m_pArgs (descriptor s'')) as [|x l IH]; simpl; [apply safe_ret|].
  apply safe_bind; [apply remove_argument_ok; by left|done].
Qed.
End safety.
