(* ===== verification/AutoPacketSpec.v ===== *)
(** * AutoPacket: clients, and what a packet guarantees to them

    Clients are sequences of packet operations whose filters are again such
    sequences, run re-entrantly on the same packet. *)
From stdpp Require Import base gmap list sets strings.
From Stdlib Require Import ZArith Lia.
From S2P Require Import Prelude.
From S2P Require Import AutoFilter.
From S2P Require Import Decoration.
From S2P Require Import AutoPacket.
From S2P Require Import AutoPacketFacts.

(** What a filter may do to the packet it runs on. *)
Inductive filter_op :=
  | f_decorate (ptr : AnySharedPointer) (key : auto_id)
  | f_mark_unsatisfiable (key : auto_id)
  | f_remove_decoration (key : auto_id)
  | f_get_rvalue (key : auto_id)
  | f_add (d : AutoFilterDescriptor).

Record filter_body := mkBody { ops : list filter_op; raises : option exn }.

(** What the owner of the packet may do between calls. *)
Inductive packet_op :=
  | p_do (o : filter_op)
  | p_add_modifier (d : AutoFilterDescriptor)
  | p_remove (a : sat_addr).

Section clients.
  Context (this : nat) (filters : t_extractedCall → filter_body).

(** One operation of a filter; [call] calls other filters.  A filter that adds
    recipients adds none with rvalue arguments. *)
Definition run_filter_op (call : t_extractedCall → AnySharedPointer → M AutoPacket unit) (fuel : nat)
    (o : filter_op) : M AutoPacket unit :=
  match o with
  | f_decorate ptr key => Decorate this call fuel ptr key
  | f_mark_unsatisfiable key => MarkUnsatisfiable this call fuel key
  | f_remove_decoration key => RemoveDecoration key
  | f_get_rvalue key => _ ← GetRvalueShared key; mret tt
  | f_add d => if existsb is_rvalue (m_pArgs d) then mret tt
               else _ ← AddRecipient call fuel d; mret tt
  end.

Fixpoint run_filter (fuel : nat) (c : t_extractedCall) (o : AnySharedPointer) : M AutoPacket unit :=
  match fuel with
  | 0 => stuck out_of_fuel
  | S fuel' =>
    for_each (run_filter_op (run_filter fuel') fuel') (ops (filters c));;
    match raises (filters c) with Some e => throw e | None => mret tt end
  end.

Definition run_packet_op (fuel : nat) (o : packet_op) : M AutoPacket unit :=
  match o with
  | p_do o => run_filter_op (run_filter fuel) fuel o
  | p_add_modifier d => _ ← AddRecipient (run_filter fuel) fuel d; mret tt
  | p_remove a => p ← get; if bool_decide (is_Some (counters p !! a)) then RemoveRecipient a else mret tt
  end.

(** The owner goes on after an exception. *)
Definition run_packet_ops (fuel : nat) (l : list packet_op) : M AutoPacket unit :=
  for_each (λ o, try_catch (run_packet_op fuel o) (λ _, mret tt)) l.

Lemma run_filter_op_safe call fuel o :
  (∀ c o, pk_safe (call c o)) → pk_safe (run_filter_op call fuel o).
Proof.
  intros Hc. destruct o; simpl; intros P K L.
  - by apply DecorateNoPriors_safe.
  - by apply MarkUnsatisfiable_safe.
  - apply RemoveDecoration_safe.
  - apply safe_bind; [apply GetRvalueShared_safe|intros; apply safe_ret].
  - destruct (existsb _ _) eqn:He; [apply safe_ret|].
    apply safe_bind; [|intros; apply safe_ret]. apply AddRecipient_ok; [done|]. right. intros x Hx.
    destruct (is_rvalue x) eqn:Hr; [|done].
    assert (existsb is_rvalue (m_pArgs d) = true) as Ht; [|congruence].
    apply existsb_exists. exists x. split; [by apply list_elem_of_In|done].
Qed.

Lemma run_filter_safe fuel : ∀ c o, pk_safe (run_filter fuel c o).
Proof.
  induction fuel as [|fuel IH]; intros c o P K L; simpl; [by apply safe_stuck|].
  apply safe_bind; [|intros _; destruct (raises _); [apply safe_throw|apply safe_ret]].
  apply safe_for_each. intros x. by apply run_filter_op_safe.
Qed.

Lemma run_packet_op_safe fuel o : safe (pk_inv [] [] []) (run_packet_op fuel o).
Proof.
  pose proof (run_filter_safe fuel) as Hf. destruct o; simpl.
  - by apply run_filter_op_safe.
  - apply safe_bind; [|intros; apply safe_ret]. apply AddRecipient_ok; [done|by left].
  - apply triple_get. intros p Hp. case_bool_decide as Hl; [|by intros p' [-> ?]].
    intros p' [-> H]. assert (pk_inv [] [] [a] p) as H'.
    { destruct H. split; try done. by intros b ->%list_elem_of_singleton. }
    assert (safe (pk_inv [] [] [a]) (RemoveRecipient a)) as Hr by (eapply RemoveRecipient_ok; [exact Hf|set_solver]).
    specialize (Hr p H'). destruct (RemoveRecipient a p) as [[u|e|[]] p1]; try done;
      apply (pk_weaken _ _ _ _ _ _ _ Hr); set_solver.
Qed.

Lemma run_packet_ops_safe fuel l : safe (pk_inv [] [] []) (run_packet_ops fuel l).
Proof.
  apply safe_for_each. intros o. eapply triple_catch; [apply run_packet_op_safe|].
  intros e. apply safe_ret.
Qed.
End clients.

Lemma pk_inv_new : pk_inv [] [] [] AutoPacket_new.
Proof. split; simpl; try done; try (by constructor); try (by intros ? ?%elem_of_nil); try (by intros ? [? ?]); set_solver. Qed.

