(* ===== verification/PacketFactory.v ===== *)
(** * AutoPacketFactory: src/src/autowiring/AutoPacketFactory.{h,cpp}

    The factory keeps the set of subscribers and one packet in advance; every packet
    holds a share of the factory's outstanding count, which its last packet gives
    back.  Calls are lists of steps, one for each critical section of the code, and
    any call may take its next step at any time.  Packets are those of AutoPacket.v;
    [use_count] counts the shared pointers to them. *)
From stdpp Require Import base gmap list strings.
From Stdlib Require Import ZArith Lia.
From S2P Require Import Prelude.
From S2P Require Import AutoFilter.
From S2P Require Import Decoration.
From S2P Require Import AutoPacket.
From S2P Require Import AutoPacketSpec.
Local Open Scope nat_scope.

(** ** The subscribers *)
(** [std::set<AutoFilterDescriptor>], in its order. *)
Fixpoint set_insert (d : AutoFilterDescriptor) (l : list AutoFilterDescriptor) : list AutoFilterDescriptor :=
  match l with
  | [] => [d]
  | x :: l' => if descriptor_lt d x then d :: l else if descriptor_lt x d then x :: set_insert d l' else l
  end.

Fixpoint set_erase (d : AutoFilterDescriptor) (l : list AutoFilterDescriptor) : list AutoFilterDescriptor :=
  match l with
  | [] => []
  | x :: l' => if descriptor_lt d x || descriptor_lt x d then x :: set_erase d l' else l'
  end.

(** [GetTypeDescriptorUnsafe]; the default descriptor is [None]. *)
Definition GetTypeDescriptorUnsafe (nodeType : auto_id) (l : list AutoFilterDescriptor) : option AutoFilterDescriptor :=
  find (λ d, Nat.eqb (m_type d) nodeType) l.

(** [CreateSatCounterList], in the memory of the packet that asks for it. *)
Fixpoint create_loop (l : list AutoFilterDescriptor) (retVal : sat_addr) : M AutoPacket sat_addr :=
  match l with
  | [] => mret retVal
  | q :: l' =>
    next ← new_sat q;
    (s ← load_sat retVal; store_sat retVal (set_blink (Some next) s));;
    (s ← load_sat next; store_sat next (set_flink (Some retVal) s));;
    create_loop l' next
  end.

Definition CreateSatCounterList (m_autoFilters : list AutoFilterDescriptor) : M AutoPacket (option sat_addr) :=
  match m_autoFilters with
  | [] => mret None
  | q :: l => retVal ← new_sat q; first ← create_loop l retVal; mret (Some first)
  end.

(** The [long long] product of two durations: a signed overflow, which the standard
    leaves undefined, wraps here and is reported. *)
Definition llong_mod : Z := 2 ^ 64.
Definition llong_wrap (z : Z) : Z := ((z + 2 ^ 63) `mod` llong_mod - 2 ^ 63)%Z.
Definition square (duration : Z) : Z * bool :=
  let z := (duration * duration)%Z in (llong_wrap z, negb (Z.eqb (llong_wrap z) z)).

(** ** The factory *)
Record packet := mkIssued { contents : AutoPacket; use_count : nat; share : nat; m_initTime : Z }.

(** What [GetInternalOutstanding] makes: its shared pointers, and the [CoreObject] that
    its deleter resets. *)
Record internal_outstanding := mkShare { holders : nat; outstanding : bool }.

(** The steps of calls.  [i_throw]: the call ends with an exception. *)
Inductive instr :=
  | i_start | i_on_start | i_stop | i_on_stop | i_release
  | i_new | i_initialize (p : option nat) | i_current | i_use (p : nat) (o : packet_op)
  | i_drop (p : nat) | i_free (b : nat) | i_deleter (b : nat)
  | i_add (d : AutoFilterDescriptor) | i_remove (d : AutoFilterDescriptor)
  | i_wait | i_reset | i_throw (e : exn).

(** The statistics: the values added to the accumulators so far, in their order. *)
Record statistics := mkStatistics { m_packetCount : Z; durations : list Z; squares : list Z; overflowed : bool }.

(** [handles] are the shared pointers that clients hold. *)
Record factory := mkFactory {
  m_wasStarted : bool;
  m_shouldStop : bool;
  m_outstanding : bool;
  m_lock : bool;
  shares : list internal_outstanding;
  m_outstandingInternal : option nat;
  packets : list packet;
  m_curPacket : option nat;
  m_nextPacket : option nat;
  m_autoFilters : list AutoFilterDescriptor;
  stats : statistics;
  ticks : nat;
  handles : list nat;
  pending : list (list instr) }.

Definition set_started x w := mkFactory x (m_shouldStop w) (m_outstanding w) (m_lock w) (shares w) (m_outstandingInternal w) (packets w) (m_curPacket w) (m_nextPacket w) (m_autoFilters w) (stats w) (ticks w) (handles w) (pending w).
Definition set_stop x w := mkFactory (m_wasStarted w) x (m_outstanding w) (m_lock w) (shares w) (m_outstandingInternal w) (packets w) (m_curPacket w) (m_nextPacket w) (m_autoFilters w) (stats w) (ticks w) (handles w) (pending w).
Definition set_outstanding x w := mkFactory (m_wasStarted w) (m_shouldStop w) x (m_lock w) (shares w) (m_outstandingInternal w) (packets w) (m_curPacket w) (m_nextPacket w) (m_autoFilters w) (stats w) (ticks w) (handles w) (pending w).
Definition set_lock x w := mkFactory (m_wasStarted w) (m_shouldStop w) (m_outstanding w) x (shares w) (m_outstandingInternal w) (packets w) (m_curPacket w) (m_nextPacket w) (m_autoFilters w) (stats w) (ticks w) (handles w) (pending w).
Definition set_shares x w := mkFactory (m_wasStarted w) (m_shouldStop w) (m_outstanding w) (m_lock w) x (m_outstandingInternal w) (packets w) (m_curPacket w) (m_nextPacket w) (m_autoFilters w) (stats w) (ticks w) (handles w) (pending w).
Definition set_internal x w := mkFactory (m_wasStarted w) (m_shouldStop w) (m_outstanding w) (m_lock w) (shares w) x (packets w) (m_curPacket w) (m_nextPacket w) (m_autoFilters w) (stats w) (ticks w) (handles w) (pending w).
Definition set_packets x w := mkFactory (m_wasStarted w) (m_shouldStop w) (m_outstanding w) (m_lock w) (shares w) (m_outstandingInternal w) x (m_curPacket w) (m_nextPacket w) (m_autoFilters w) (stats w) (ticks w) (handles w) (pending w).
Definition set_cur x w := mkFactory (m_wasStarted w) (m_shouldStop w) (m_outstanding w) (m_lock w) (shares w) (m_outstandingInternal w) (packets w) x (m_nextPacket w) (m_autoFilters w) (stats w) (ticks w) (handles w) (pending w).
Definition set_next x w := mkFactory (m_wasStarted w) (m_shouldStop w) (m_outstanding w) (m_lock w) (shares w) (m_outstandingInternal w) (packets w) (m_curPacket w) x (m_autoFilters w) (stats w) (ticks w) (handles w) (pending w).
Definition set_filters x w := mkFactory (m_wasStarted w) (m_shouldStop w) (m_outstanding w) (m_lock w) (shares w) (m_outstandingInternal w) (packets w) (m_curPacket w) (m_nextPacket w) x (stats w) (ticks w) (handles w) (pending w).
Definition set_stats x w := mkFactory (m_wasStarted w) (m_shouldStop w) (m_outstanding w) (m_lock w) (shares w) (m_outstandingInternal w) (packets w) (m_curPacket w) (m_nextPacket w) (m_autoFilters w) x (ticks w) (handles w) (pending w).
Definition set_ticks x w := mkFactory (m_wasStarted w) (m_shouldStop w) (m_outstanding w) (m_lock w) (shares w) (m_outstandingInternal w) (packets w) (m_curPacket w) (m_nextPacket w) (m_autoFilters w) (stats w) x (handles w) (pending w).
Definition set_handles x w := mkFactory (m_wasStarted w) (m_shouldStop w) (m_outstanding w) (m_lock w) (shares w) (m_outstandingInternal w) (packets w) (m_curPacket w) (m_nextPacket w) (m_autoFilters w) (stats w) (ticks w) x (pending w).
Definition set_pending x w := mkFactory (m_wasStarted w) (m_shouldStop w) (m_outstanding w) (m_lock w) (shares w) (m_outstandingInternal w) (packets w) (m_curPacket w) (m_nextPacket w) (m_autoFilters w) (stats w) (ticks w) (handles w) x.

Definition factory_new : factory :=
  mkFactory false false false false [] None [] None None [] (mkStatistics 0 [] [] false) 0 [] [].

Local Abbreviation M := (M factory).

Section factory.
  Context (high_resolution_clock : nat → Z) (filters : t_extractedCall → filter_body) (fuel : nat).

Definition now : M Z := w ← get; put (set_ticks (S (ticks w)) w);; mret (high_resolution_clock (ticks w)).

(** ** Shared and weak pointers *)
Definition expired (w : factory) : bool :=
  match m_outstandingInternal w with
  | Some b => match shares w !! b with Some s => Nat.eqb (holders s) 0 | None => true end
  | None => true
  end.

Definition load_share (b : nat) : M internal_outstanding := w ← get; deref (shares w !! b).
Definition store_share (b : nat) (s : internal_outstanding) : M unit := modify (λ w, set_shares (<[b := s]> (shares w)) w).

(** A packet is there as long as there are pointers to it. *)
Definition load_packet (p : nat) : M packet :=
  w ← get;
  match packets w !! p with
  | Some pk => if Nat.eqb (use_count pk) 0 then stuck undefined_behavior else mret pk
  | None => stuck undefined_behavior
  end.
Definition store_packet (p : nat) (pk : packet) : M unit := modify (λ w, set_packets (<[p := pk]> (packets w)) w).

(** ** The operations *)
Definition IsRunning (w : factory) : bool := m_outstanding w || negb (expired w).

Definition GetInternalOutstanding : M nat :=
  w ← get;
  match (if expired w then None else m_outstandingInternal w) with
  | Some b => s ← load_share b; store_share b (mkShare (S (holders s)) (outstanding s));; mret b
  | None =>
    let b := length (shares w) in
    modify (set_shares (shares w ++ [mkShare 1 (m_outstanding w)]));; modify (set_internal (Some b));; mret b
  end.

Definition ConstructPacket : M nat :=
  b ← GetInternalOutstanding; w ← get;
  modify (set_packets (packets w ++ [mkIssued AutoPacket_new 1 b 0]));; mret (length (packets w)).

Definition terminated_error := autowiring_error "Attempted to create a packet on an AutoPacketFactory that was already terminated".
Definition not_started_error := autowiring_error "Cannot create a packet until the AutoPacketFactory is started".

(** [NewPacket] up to [Initialize]. *)
Definition NewPacket : M (list instr) :=
  w ← get;
  if m_shouldStop w then mret [i_throw terminated_error]
  else if negb (IsRunning w) then mret [i_throw not_started_error]
  else
    modify (λ w, set_stats (let s := stats w in mkStatistics (m_packetCount s + 1) (durations s) (squares s) (overflowed s)) w);;
    p ← ConstructPacket;
    modify (set_next (Some p));; modify (set_cur (m_nextPacket w));;
    mret [i_initialize (m_nextPacket w)].

(** An operation on a packet. *)
Definition on_packet {A} (p : nat) (m : Prelude.M AutoPacket A) : M A :=
  pk ← load_packet p;
  let '(r, c) := m (contents pk) in
  store_packet p (mkIssued c (use_count pk) (share pk) (m_initTime pk));;
  ((λ w, (r, w)) : M A).

(** [AutoPacketInternal::Initialize], on the packet. *)
Definition initialize (p : nat) (l : list AutoFilterDescriptor) : Prelude.M AutoPacket unit :=
  first ← CreateSatCounterList l; modify (set_first first);; Initialize p (run_filter p filters fuel) fuel.

(** [Initialize] and the end of [NewPacket]. *)
Definition Initialize_packet (p : option nat) : M (list instr) :=
  p ← deref p;
  t ← now; pk ← load_packet p; store_packet p (mkIssued (contents pk) (use_count pk) (share pk) t);;
  w ← get;
  try_catch
    (on_packet p (initialize p (m_autoFilters w));; modify (λ w, set_handles (handles w ++ [p]) w);; mret [])
    (λ e, mret [i_drop p; i_throw e]).

Definition acquire (p : nat) : M unit :=
  pk ← load_packet p; store_packet p (mkIssued (contents pk) (S (use_count pk)) (share pk) (m_initTime pk)).

(** [CurrentPacket]: nothing if the packet is gone. *)
Definition CurrentPacket : M (list instr) :=
  w ← get;
  match m_curPacket w with
  | Some p =>
    match packets w !! p with
    | Some pk => if Nat.eqb (use_count pk) 0 then mret [] else acquire p;; modify (set_handles (handles w ++ [p]));; mret []
    | None => mret []
    end
  | None => mret []
  end.

(** [RecordPacketDuration]. *)
Definition RecordPacketDuration (duration : Z) : M unit :=
  modify (λ w, set_stats (let s := stats w in let q := square duration in
    mkStatistics (m_packetCount s) (durations s ++ [duration]) (squares s ++ [q.1]) (overflowed s || q.2)) w).

Definition ResetPacketStatistics : M unit := modify (set_stats (mkStatistics 0 [] [] false)).

(** A shared pointer to a packet goes; with the last one, [~AutoPacket] runs. *)
Definition drop_packet (p : nat) : M (list instr) :=
  pk ← load_packet p;
  match use_count pk with
  | S (S n) => store_packet p (mkIssued (contents pk) (S n) (share pk) (m_initTime pk));; mret []
  | _ =>
    t ← now; RecordPacketDuration (t - m_initTime pk)%Z;;
    on_packet p (c ← get; delete_counters fuel (m_firstCounter c));;
    pk ← load_packet p; store_packet p (mkIssued (contents pk) 0 (share pk) (m_initTime pk));;
    mret [i_free (share pk)]
  end.

(** [~AutoPacket] releases [m_outstanding]; with the last one, the deleter runs. *)
Definition free_share (b : nat) : M (list instr) :=
  s ← load_share b;
  match holders s with
  | 0 => stuck undefined_behavior
  | S n => store_share b (mkShare n (outstanding s));; mret (if Nat.eqb n 0 then [i_deleter b] else [])
  end.

Definition lock : M unit := w ← get; if m_lock w then stuck blocked else mret tt.
Definition deleter (b : nat) : M unit := lock;; s ← load_share b; store_share b (mkShare (holders s) false).

Definition AddSubscriber (d : AutoFilterDescriptor) : M unit := modify (λ w, set_filters (set_insert d (m_autoFilters w)) w).
Definition RemoveSubscriber (d : AutoFilterDescriptor) : M unit := modify (λ w, set_filters (set_erase d (m_autoFilters w)) w).

(** [CoreRunnable::Start], whose lock is kept until [OnStart] is over. *)
Definition Start : M (list instr) :=
  lock;; w ← get;
  if m_wasStarted w || m_outstanding w || m_shouldStop w then mret []
  else modify (set_started true);; modify (set_outstanding true);; modify (set_lock true);; mret [i_on_start].
Definition OnStart : M unit := p ← ConstructPacket; modify (set_next (Some p));; modify (set_lock false).

(** [CoreRunnable::Stop], in either way. *)
Definition Stop : M (list instr) :=
  lock;; w ← get;
  if m_shouldStop w then modify (set_outstanding false);; mret []
  else modify (set_stop true);; mret [i_on_stop; i_release].
Definition OnStop : M (list instr) :=
  w ← get; modify (set_filters []);; modify (set_next None);;
  mret match m_nextPacket w with Some p => [i_drop p] | None => [] end.
Definition Stop_release : M unit := lock;; modify (set_outstanding false).

(** [CoreRunnable::Wait] with [DoAdditionalWait]. *)
Definition Wait : M unit :=
  lock;; w ← get; if m_shouldStop w && negb (IsRunning w) && expired w then mret tt else stuck blocked.

Definition GetOutstandingPacketCount (w : factory) : Z :=
  sz_sub match m_outstandingInternal w with
         | Some b => match shares w !! b with Some s => Z.of_nat (holders s) | None => 0 end
         | None => 0
         end 1.

(** ** Steps *)
Definition exec (i : instr) : M (list instr) :=
  match i with
  | i_start => Start
  | i_on_start => OnStart;; mret []
  | i_stop => Stop
  | i_on_stop => OnStop
  | i_release => Stop_release;; mret []
  | i_new => NewPacket
  | i_initialize p => Initialize_packet p
  | i_current => CurrentPacket
  | i_use p o => try_catch (on_packet p (run_packet_op p filters fuel o);; mret []) (λ e, mret [i_throw e])
  | i_drop p => drop_packet p
  | i_free b => free_share b
  | i_deleter b => deleter b;; mret []
  | i_add d => AddSubscriber d;; mret []
  | i_remove d => RemoveSubscriber d;; mret []
  | i_wait => Wait;; mret []
  | i_reset => ResetPacketStatistics;; mret []
  | i_throw _ => mret []
  end.

(** What clients do: [c_drop] and [c_use] name one of the pointers they hold. *)
Inductive action :=
  | c_start | c_stop | c_new | c_current | c_drop (k : nat) | c_use (k : nat) (o : packet_op)
  | c_add (d : AutoFilterDescriptor) | c_remove (d : AutoFilterDescriptor) | c_wait | c_reset
  | go (n : nat).

Definition begin_call (l : list instr) : M unit := modify (λ w, set_pending (pending w ++ [l]) w).

(** Call [n] takes its next step. *)
Definition go_on (n : nat) : M unit :=
  w ← get;
  match pending w !! n with
  | Some (i :: rest) => l ← exec i; modify (λ w, set_pending (<[n := l ++ rest]> (pending w)) w)
  | _ => stuck blocked
  end.

Definition act (a : action) : M unit :=
  w ← get;
  match a with
  | c_start => begin_call [i_start]
  | c_stop => begin_call [i_stop]
  | c_new => begin_call [i_new]
  | c_current => begin_call [i_current]
  | c_drop k =>
    match handles w !! k with
    | Some p => modify (set_handles (delete k (handles w)));; begin_call [i_drop p]
    | None => mret tt
    end
  | c_use k o =>
    match handles w !! k with
    | Some p => acquire p;; begin_call [i_use p o; i_drop p]
    | None => mret tt
    end
  | c_add d => begin_call [i_add d]
  | c_remove d => begin_call [i_remove d]
  | c_wait => begin_call [i_wait]
  | c_reset => begin_call [i_reset]
  | go n => go_on n
  end.

(** Calls that cannot go on are passed over. *)
Fixpoint run (l : list action) (w : factory) : outcome factory :=
  match l with
  | [] => Ret w
  | a :: l' =>
    match act a w with
    | (Ret _, w') => run l' w'
    | (Throw e, _) => Throw e
    | (Stuck blocked, _) => run l' w
    | (Stuck r, _) => Stuck r
    end
  end.
End factory.
