(* ===== verification/PacketFactoryFacts.v ===== *)
(** * AutoPacketFactory: the packets it makes

    The list of counters of a new packet, its initialization, its destruction. *)
From stdpp Require Import base gmap list sets strings.
From Stdlib Require Import ZArith Lia Sorted.
From S2P Require Import Prelude.
From S2P Require Import AutoFilter.
From S2P Require Import Decoration.
From S2P Require Import AutoPacket.
From S2P Require Import AutoPacketFacts.
From S2P Require Import AutoPacketSpec.
From S2P Require Import PacketFactory.
Local Open Scope nat_scope.

(** ** The list of counters *)
(** From [o] there is a doubly linked list of fresh counters for these descriptors. *)
Fixpoint counter_list (p : AutoPacket) (prev o : option sat_addr) (l : list (sat_addr * AutoFilterDescriptor)) : Prop :=
  match l with
  | [] => o = None
  | (a, d) :: l' => o = Some a ∧ ∃ s, counters p !! a = Some s ∧ descriptor s = d ∧ remaining s = m_requiredCount d ∧
      blink s = prev ∧ counter_list p (Some a) (flink s) l'
  end.

Lemma counter_list_frame p p' prev o l : (∀ a, a ∈ l.*1 → counters p' !! a = counters p !! a) → counter_list p prev o l → counter_list p' prev o l.
Proof.
  revert prev o. induction l as [|[a d] l IH]; intros prev o Hf; [done|]. intros (-> & s & Hs & Hd & Hr & Hb & Hl).
  split; [done|]. exists s. split_and!; try done; [by rewrite Hf by left|]. apply IH; [|done]. intros b Hb'. apply Hf. by right.
Qed.

(** What is not a counter stays. *)
Definition beside (p p' : AutoPacket) : Prop :=
  m_decoration_map p' = m_decoration_map p ∧ m_firstCounter p' = m_firstCounter p ∧ calls p' = calls p ∧ autoCurrentPacket p' = autoCurrentPacket p ∧
  next_sat p ≤ next_sat p' ∧ ∀ a s, a < next_sat p → counters p !! a = Some s → ∃ s', counters p' !! a = Some s' ∧ remaining s' = remaining s.

Lemma relink_run (p : AutoPacket) a s f : counters p !! a = Some s →
  (s ← load_sat a; store_sat a (f s)) p = (Ret tt, set_counters (<[a := f s]> (counters p)) p).
Proof. intros Hs. unfold load_sat, store_sat. munfold. by rewrite Hs. Qed.

(** One turn of the loop. *)
Definition extended (q : AutoFilterDescriptor) (r : sat_addr) (s : SatCounter) (p : AutoPacket) : AutoPacket :=
  set_next_sat (S (next_sat p)) (set_counters
    (<[next_sat p := set_flink (Some r) (SatCounter_new q)]> (<[r := set_blink (Some (next_sat p)) s]> (counters p))) p).

Lemma create_step q r p s l : counters p !! r = Some s → r < next_sat p →
  create_loop (q :: l) r p = create_loop l (next_sat p) (extended q r s p).
Proof.
  intros Hr Hlt. cbn [create_loop]. rewrite (bind_Ret _ _ _ (next_sat p) (new_sat q p).2) by done.
  erewrite bind_Ret by (apply (relink_run _ r s (set_blink (Some (next_sat p)))); cbn; rewrite lookup_insert_ne by lia; exact Hr).
  erewrite bind_Ret by (apply (relink_run _ (next_sat p) (SatCounter_new q) (set_flink (Some r))); cbn; rewrite lookup_insert_ne by lia; by rewrite lookup_insert_eq).
  assert (next_sat p ≠ r) as Hne by lia.
  f_equal. unfold extended. cbn. unfold set_next_sat, set_counters. cbn. f_equal.
  rewrite (insert_insert_ne (counters p)) by done. by rewrite insert_insert_eq.
Qed.

Lemma extended_inv P K L q r s p : pk_inv P K L p → r ∈ L → counters p !! r = Some s → pk_inv P K (next_sat p :: L) (extended q r s p).
Proof.
  intros H Hr Hs. assert (r < next_sat p) as Hlt by (apply (pk_fresh _ _ _ _ H); by eexists). assert (next_sat p ≠ r) as Hne by lia.
  pose proof (new_sat_ok P K L q p H) as (H1 & _ & Hn). cbn in H1, Hn. set (p1 := set_next_sat _ _) in *.
  assert (counters p1 !! r = Some s) as Hs1 by (unfold p1; cbn; by rewrite lookup_insert_ne by done).
  pose proof (relink_ok P K (next_sat p :: L) r (set_blink (Some (next_sat p))) ltac:(by right) ltac:(done)) as H2.
  ospecialize (H2 _ p1 H1). { intros s' b. cbn. split; [by left|intros [= <-]]. right. split; [left|done]. }
  rewrite (relink_run _ _ _ _ Hs1) in H2. set (p2 := set_counters (<[r:=set_blink (Some (next_sat p)) s]> (counters p1)) p1) in *.
  assert (counters p2 !! next_sat p = Some (SatCounter_new q)) as Hs2 by (unfold p2, p1; cbn; by rewrite lookup_insert_ne, lookup_insert_eq by done).
  pose proof (relink_ok P K (next_sat p :: L) (next_sat p) (set_flink (Some r)) ltac:(by left) ltac:(done)) as H3.
  ospecialize (H3 _ p2 H2). { intros s' b. cbn. split; [intros [= <-]|by left]. right. split; [by right|done]. }
  rewrite (relink_run _ _ _ _ Hs2) in H3. unfold extended. replace (set_next_sat _ _) with (set_counters (<[next_sat p:=set_flink (Some r) (SatCounter_new q)]> (counters p2)) p2); [exact H3|].
  unfold p2, p1, set_next_sat, set_counters. cbn. f_equal. rewrite (insert_insert_ne (counters p)) by done. by rewrite insert_insert_eq.
Qed.

Lemma extended_beside q r s p : counters p !! r = Some s → r < next_sat p → beside p (extended q r s p).
Proof.
  intros Hs Hlt. split_and!; cbn; try done; [lia|]. intros a s0 Ha Hs0. rewrite lookup_insert_ne by lia. destruct (decide (a = r)) as [->|Hne].
  - rewrite lookup_insert_eq. eexists. split; [done|]. cbn. congruence.
  - rewrite lookup_insert_ne by done. by exists s0.
Qed.

Lemma beside_trans p1 p2 p3 : beside p1 p2 → beside p2 p3 → beside p1 p3.
Proof.
  intros (E1 & E2 & E3 & E4 & Hle & H1) (F1 & F2 & F3 & F4 & Hle' & H2). split_and!; try congruence; [lia|]. intros a s Ha Hs.
  destruct (H1 a s Ha Hs) as (s' & Hs' & E). destruct (H2 a s') as (s2 & ? & ?); [lia|done|]. exists s2. split; [done|congruence].
Qed.

Lemma create_loop_ok P K qs : ∀ L p r d l, pk_inv P K L p → r ∈ L → counter_list p None (Some r) ((r, d) :: l) →
  Forall (λ a, a ∈ L) (r :: l.*1) → NoDup (r :: l.*1) →
  ∃ r' l' p', create_loop qs r p = (Ret r', p') ∧ pk_inv P K (l'.*1 ++ L) p' ∧ counter_list p' None (Some r') l' ∧
    l'.*2 = rev qs ++ d :: l.*2 ∧ NoDup l'.*1 ∧ beside p p' ∧ ∀ a, a ∈ l'.*1 → a ∈ r :: l.*1 ∨ next_sat p ≤ a.
Proof.
  induction qs as [|q qs IH]; intros L p r d l Hp Hr Hl Hin Hnd.
  - exists r, ((r, d) :: l), p. split_and!; try done; [|by split_and!; eauto|by left].
    apply (pk_weaken P _ K _ L _ _ Hp); [done|done|]. rewrite Forall_forall in Hin. intros a [?|?]%elem_of_app; auto.
  - destruct Hl as (_ & s & Hs & Hd & Hrem & Hb & Hl). assert (r < next_sat p) as Hlt by (apply (pk_fresh _ _ _ _ Hp); by eexists).
    rewrite (create_step _ _ _ _ _ Hs Hlt). assert (∀ a, a ∈ r :: l.*1 → a < next_sat p) as Hold.
    { intros a Ha. apply (pk_fresh _ _ _ _ Hp), (pk_live _ _ _ _ Hp). rewrite Forall_forall in Hin. auto. }
    apply NoDup_cons in Hnd as [Hrl Hnd]. assert (next_sat p ≠ r) as Hne by lia.
    destruct (IH (next_sat p :: L) (extended q r s p) (next_sat p) q ((r, d) :: l)) as (r' & l' & p' & E & Hp' & Hl' & El & Hnd' & Hbe & Hnew).
    + by apply extended_inv.
    + left.
    + split; [done|]. exists (set_flink (Some r) (SatCounter_new q)). split_and!; [cbn; by rewrite lookup_insert_eq|done|done|done|].
      split; [done|]. exists (set_blink (Some (next_sat p)) s). split_and!; [cbn; by rewrite lookup_insert_ne, lookup_insert_eq by done|done|done|done|].
      eapply counter_list_frame; [|exact Hl].
      intros a Ha. assert (a ≠ next_sat p ∧ a ≠ r) as [? ?].
      { split; [assert (a < next_sat p) by (apply Hold; by right); lia|by intros ->]. }
      cbn. by rewrite !lookup_insert_ne by done.
    + constructor; [left|]. eapply Forall_impl; [exact Hin|]. intros a Ha. by right.
    + constructor; [|by constructor]. intros Ha%Hold. lia.
    + exists r', l', p'. split_and!; try done.
      * apply (pk_weaken P _ K _ (l'.*1 ++ next_sat p :: L) _ _ Hp'); [done|done|set_solver].
      * rewrite El. cbn. by rewrite <-app_assoc.
      * eapply beside_trans; [by apply (extended_beside q r s)|done].
      * intros a [[->|?]%elem_of_cons|Hge]%Hnew; [by right|by left|right]. cbn in Hge. lia.
Qed.

Lemma create_ok P K L qs p : pk_inv P K L p →
  ∃ o l p', CreateSatCounterList qs p = (Ret o, p') ∧ pk_inv P K (l.*1 ++ L) p' ∧ counter_list p' None o l ∧
    l.*2 = rev qs ∧ NoDup l.*1 ∧ beside p p' ∧ ∀ a, a ∈ l.*1 → next_sat p ≤ a.
Proof.
  intros Hp. destruct qs as [|q qs]; cbn [CreateSatCounterList].
  { exists None, [], p. split_and!; try done; [constructor| |by intros a ?%elem_of_nil]. split_and!; eauto. }
  pose proof (new_sat_ok P K L q p Hp) as (H1 & _ & Hn). rewrite (bind_Ret _ _ _ (next_sat p) (new_sat q p).2) by done.
  destruct (create_loop_ok P K qs (next_sat p :: L) (new_sat q p).2 (next_sat p) q []) as (r & l & p' & E & Hp' & Hl & El & Hnd & Hbe & Hnew).
  - exact H1.
  - left.
  - split; [done|]. exists (SatCounter_new q). by split_and!.
  - repeat constructor.
  - apply NoDup_singleton.
  - rewrite (bind_Ret _ _ _ _ _ E). exists (Some r), l, p'. split_and!; try done.
    + apply (pk_weaken P _ K _ (l.*1 ++ next_sat p :: L) _ _ Hp'); [done|done|set_solver].
    + eapply beside_trans; [|exact Hbe]. split_and!; cbn; try done; [lia|]. intros a s Ha Hs. exists s. by rewrite lookup_insert_ne by lia.
    + intros a [->%list_elem_of_singleton|Hge]%Hnew; [done|]. cbn in Hge. lia.
Qed.

(** ** Destruction *)
(** Counters are deleted from [o] on; older ones are still there. *)
Definition deletable (o : option sat_addr) (p : AutoPacket) : Prop :=
  (∀ a, o = Some a → live p a) ∧
  ∀ c a s b, o = Some c → a ≤ c → counters p !! a = Some s → flink s = Some b → b < a ∧ live p b.

Lemma deletable_next a s p : deletable (Some a) p → counters p !! a = Some s →
  deletable (flink s) (set_counters (delete a (counters p)) p).
Proof.
  intros [Hl Hc] Hs. split.
  - intros b Hb. destruct (Hc a a s b) as [? [s' ?]]; [done..|]. exists s'. cbn. by rewrite lookup_delete_ne by lia.
  - intros b x sx y Hb Hle Hsx Hy. destruct (Hc a a s b) as [? _]; [done..|]. cbn in Hsx. apply lookup_delete_Some in Hsx as [_ Hsx].
    destruct (Hc a x sx y) as [? [sy Hsy]]; [done|lia|done|done|]. split; [done|]. exists sy. cbn. by rewrite lookup_delete_ne by lia.
Qed.

Lemma delete_counters_ok fuel : ∀ o p, deletable o p → (∀ a, o = Some a → a < fuel) →
  ∃ p', delete_counters fuel o p = (Ret tt, p') ∧ beside (set_counters ∅ p) (set_counters ∅ p') ∧ counters p' ⊆ counters p.
Proof.
  induction fuel as [|fuel IH]; intros [a|] p Hd Hf; cbn [delete_counters].
  - specialize (Hf a eq_refl). lia.
  - exists p. split_and!; done.
  - destruct (proj1 Hd a eq_refl) as [s Hs]. rewrite (bind_Ret _ _ _ s p) by (unfold load_sat; munfold; by rewrite Hs).
    rewrite (bind_Ret _ _ _ tt (set_counters (delete a (counters p)) p)) by done.
    destruct (IH (flink s) (set_counters (delete a (counters p)) p)) as (p' & E & Hb & Hsub).
    + by apply deletable_next.
    + intros b Hb. destruct (proj2 Hd a a s b) as [? _]; [done..|]. specialize (Hf a eq_refl). lia.
    + exists p'. split_and!; [done|done|]. etrans; [exact Hsub|]. apply delete_subseteq.
  - exists p. split_and!; done.
Qed.

(** Whatever the fuel, nothing is deleted twice. *)
Lemma delete_counters_defined fuel : ∀ o p, deletable o p →
  match (delete_counters fuel o p).1 with Ret _ | Stuck out_of_fuel => True | _ => False end.
Proof.
  induction fuel as [|fuel IH]; intros [a|] p Hd; cbn [delete_counters]; try done. destruct Hd as [Hl Hc].
  destruct (Hl a eq_refl) as [s Hs]. rewrite (bind_Ret _ _ _ s p) by (unfold load_sat; munfold; by rewrite Hs).
  rewrite (bind_Ret _ _ _ tt (set_counters (delete a (counters p)) p)) by done. apply IH. by apply (deletable_next a).
Qed.

Lemma inv_deletable P K L p : pk_inv P K L p → deletable (m_firstCounter p) p.
Proof.
  intros H. split; [apply (pk_first _ _ _ _ H)|]. intros c a s b _ _ Hs Hb. split; [by eapply (pk_order _ _ _ _ H a s b)|].
  eapply (pk_links _ _ _ _ H); [exact Hs|by left].
Qed.

(** ** Initialization *)
Fixpoint chain (p : AutoPacket) (o : option sat_addr) (l : list sat_addr) : Prop :=
  match l with [] => o = None | a :: l' => o = Some a ∧ ∃ s, counters p !! a = Some s ∧ chain p (flink s) l' end.

Lemma counter_list_chain p prev o l : counter_list p prev o l → chain p o l.*1.
Proof.
  revert prev o. induction l as [|[a d] l IH]; intros prev o; [done|]. intros (-> & s & Hs & _ & _ & _ & Hl). split; [done|]. exists s. eauto.
Qed.

Lemma chain_same p p' o l : counters p' = counters p → chain p o l → chain p' o l.
Proof.
  intros Ec. revert o. induction l as [|a l IH]; intros o; [done|]. intros (-> & s & Hs & Hl). split; [done|]. exists s. rewrite Ec. eauto.
Qed.

Lemma chain_Decrement o l p a s : chain p o l → counters p !! a = Some s → chain (set_counters (<[a := (Decrement s).2]> (counters p)) p) o l.
Proof.
  revert o. induction l as [|b l IH]; intros o; [done|]. intros (-> & sb & Hsb & Hl) Hs. split; [done|]. cbn. destruct (decide (a = b)) as [<-|Hne].
  - assert (sb = s) as -> by congruence. rewrite lookup_insert_eq. eexists. split; [done|].
    destruct (Decrement_spec s) as (_ & _ & _ & -> & _). by apply IH.
  - rewrite lookup_insert_ne by done. exists sb. split; [done|]. by apply IH.
Qed.

Section initialize.
  Context (this : nat) (call_filter : t_extractedCall → AnySharedPointer → Prelude.M AutoPacket unit).
  Hypothesis call_filter_safe : ∀ c o, pk_safe (call_filter c o).

Lemma prime_counters_ok L c fuel : ∀ P o l, NoDup l → (∀ a, a ∈ l → a ∈ L ∧ a ∉ P ++ c) →
  triple (λ p, pk_inv P [] L p ∧ calls p = c ∧ chain p o l) (prime_counters fuel o)
    (λ r, pk_inv (r ++ P) [] L) (λ _, pk_inv P [] L).
Proof.
  induction fuel as [|fuel IH]; intros P o l Hnd Hl; destruct l as [|a l]; cbn [prime_counters].
  - by intros p (H & _ & ->).
  - by intros p (H & _ & -> & _).
  - by intros p (H & _ & ->).
  - intros p (H & Hc & -> & s & Hs & Hch). revert p H Hc s Hs Hch. apply NoDup_cons in Hnd as [Hal Hnd]. destruct (Hl a) as [HaL HaP]; [left|].
    cut (triple (λ p, pk_inv P [] L p ∧ calls p = c ∧ chain p (Some a) (a :: l))
      (AddSatCounterUnsafe (S fuel) a;; s ← load_sat a; rest ← prime_counters fuel (flink s); mret (if Nat.eqb (remaining s) 0 then a :: rest else rest))
      (λ r, pk_inv (r ++ P) [] L) (λ _, pk_inv P [] L)).
    { intros Ht p H Hc s Hs Hch. exact (Ht p (conj H (conj Hc (conj eq_refl (ex_intro _ s (conj Hs Hch)))))). }
    eapply triple_bind.
    { eapply triple_conseq; [apply (triple_preserves _ (λ p, calls p = c ∧ chain p (Some a) (a :: l)) _ _ _ (AddSatCounterUnsafe_ok call_filter call_filter_safe P [] L (S fuel) a HaL))|..].
      - apply AddSatCounterUnsafe_quiet.
        + intros p m [Hcalls Hch]. split; [done|]. by apply (chain_same p).
        + intros p b s [Hcalls Hch] Hs. split; [done|]. by apply chain_Decrement.
      - intros p [H Hi]. split; [|exact Hi]. split; [done|]. intros s Hs. by left.
      - intros u p Hp. exact Hp.
      - intros e p [Hp _]. exact Hp. }
    intros _ p (H & Hc & _ & s & Hs & Hch). rewrite (bind_Ret _ _ _ s p) by (unfold load_sat; munfold; by rewrite Hs).
    destruct (Nat.eqb_spec (remaining s) 0) as [Hz|_].
    + assert (pk_inv (a :: P) [] L p) as H'.
      { rewrite <-Hc in HaP. destruct H. split; try done; [by apply NoDup_cons|]. intros b [->|Hb]%elem_of_cons; [by exists s|by apply pk_zero]. }
      assert (∀ b, b ∈ l → b ∈ L ∧ b ∉ (a :: P) ++ c) as Hl'.
      { intros b Hb. destruct (Hl b) as [? Hbp]; [by right|]. split; [done|]. intros [->|?]%elem_of_cons; done. }
      pose proof (IH (a :: P) (flink s) l Hnd Hl' p (conj H' (conj Hc Hch))) as Hr. munfold.
      destruct (prime_counters fuel (flink s) p) as [[r|e|[]] p']; try done.
      * eapply pk_perm; [|exact Hr]. symmetry. apply Permutation_middle.
      * apply (pk_weaken _ P _ [] _ L _ Hr); [by apply submseteq_cons|done|done].
    + assert (∀ b, b ∈ l → b ∈ L ∧ b ∉ P ++ c) as Hl' by (intros b Hb; apply Hl; by right).
      pose proof (IH P (flink s) l Hnd Hl' p (conj H (conj Hc Hch))) as Hr. munfold.
      by destruct (prime_counters fuel (flink s) p) as [[r|e|[]] p'].
Qed.

(** [AutoPacketInternal::Initialize], whatever was done to the packet before. *)
Lemma Initialize_ok fuel qs : safe (pk_inv [] [] [])
  (first ← CreateSatCounterList qs; modify (set_first first);; Initialize this call_filter fuel).
Proof.
  intros p H. destruct (create_ok [] [] [] qs p H) as (o & l & p1 & E & H1 & Hl & _ & Hnd & (_ & _ & Ec & _) & Hnew).
  rewrite (bind_Ret _ _ _ _ _ E). rewrite (bind_Ret _ _ _ tt (set_first o p1)) by done. rewrite app_nil_r in H1.
  assert (pk_inv [] [] l.*1 (set_first o p1)) as H2.
  { destruct H1. split; try done. cbn. intros a ->. destruct l as [|[b d] l]; [done|]. destruct Hl as ([= ->] & s & Hs & _). by exists s. }
  unfold Initialize. rewrite (bind_Ret _ _ _ (set_first o p1) (set_first o p1)) by done.
  assert (∀ a, a ∈ l.*1 → a ∈ l.*1 ∧ a ∉ [] ++ calls p) as Hl'.
  { intros a Ha. split; [done|]. intros Hin. destruct (pk_zero _ _ _ _ H a Hin) as (s & Hs & _). specialize (Hnew a Ha).
    assert (a < next_sat p) by (apply (pk_fresh _ _ _ _ H); by exists s). lia. }
  assert (chain (set_first o p1) o l.*1) as Hch by (by apply (chain_same p1), (counter_list_chain p1 None _ _ Hl)).
  pose proof (prime_counters_ok l.*1 (calls p) fuel [] o l.*1 Hnd Hl' (set_first o p1) (conj H2 (conj Ec Hch))) as Hp.
  unfold mbind at 1, M_bind at 1. cbn [m_firstCounter set_first].
  destruct (prime_counters fuel o (set_first o p1)) as [[r|e|[]] p2]; try done.
  - pose proof (call_current_ok this call_filter call_filter_safe [] [] l.*1 r p2 Hp) as Ht.
    destruct (with_current _ _ p2) as [[u|e|[]] p3]; try done; by apply (pk_weaken _ _ _ _ _ _ _ Ht); [..|apply list_subseteq_nil].
  - by apply (pk_weaken _ _ _ _ _ _ _ Hp); [..|apply list_subseteq_nil].
Qed.
End initialize.

(** ** The set of subscribers *)
Definition before (x y : AutoFilterDescriptor) : Prop := descriptor_lt x y = true.
Definition same (x y : AutoFilterDescriptor) : Prop := descriptor_lt x y = false ∧ descriptor_lt y x = false.
Definition set_ordered : list AutoFilterDescriptor → Prop := StronglySorted before.

Lemma before_trans x y z : before x y → before y z → before x z.
Proof. apply (proj2 (descriptor_order_strict x y z)). Qed.

Lemma before_altitude x y : before x y → (m_altitude y ≤ m_altitude x)%Z.
Proof. unfold before, descriptor_lt. rewrite tie_lt_spec. lia. Qed.

Lemma same_before x y z : same x y → before y z → before x z.
Proof.
  unfold same, before, descriptor_lt. intros [H1 H2] H. destruct (tie_lt z x) eqn:E; [done|exfalso].
  assert (∀ a b : AutoFilterDescriptor, tie_lt a b = false → tie_lt b a = false → m_altitude a = m_altitude b ∧ m_pCall a = m_pCall b ∧ m_autoFilter a = m_autoFilter b) as Htie.
  { intros a b Ha Hb. unfold tie_lt in *. rewrite orb_false_iff, andb_false_iff, orb_false_iff, andb_false_iff in *.
    rewrite Z.ltb_ge, Z.eqb_neq, Nat.ltb_ge, Nat.eqb_neq in *. assert (m_altitude a = m_altitude b) as Ea by lia. split; [done|].
    destruct Ha as [_ [?|[? Ha]]], Hb as [_ [?|[? Hb]]]; try lia. assert (m_pCall a = m_pCall b) as Ec by lia. split; [done|].
    destruct Ha as [?|Ha], Hb as [?|Hb]; try lia. destruct (m_autoFilter a), (m_autoFilter b); simpl in *; try done. rewrite Nat.ltb_ge in *. f_equal. lia. }
  destruct (Htie _ _ H1 H2) as (E1 & E2 & E3). unfold tie_lt in *. rewrite E1, E2, E3 in *. congruence.
Qed.

Lemma set_insert_old d l x : x ∈ l → x ∈ set_insert d l.
Proof.
  induction l as [|y l IH]; [by intros ?%elem_of_nil|]. cbn. intros Hx. destruct (descriptor_lt d y); [by right|]. destruct (descriptor_lt y d); [|done].
  apply elem_of_cons in Hx as [->|?]; [left|right; auto].
Qed.

Lemma set_insert_elem d l x : x ∈ set_insert d l → x = d ∨ x ∈ l.
Proof.
  induction l as [|y l IH]; cbn; [intros ?%list_elem_of_singleton; by left|]. destruct (descriptor_lt d y); [by intros [|]%elem_of_cons; auto|].
  destruct (descriptor_lt y d); [|by right]. intros [->|[?|?]%IH]%elem_of_cons; [right; left|by left|right; by right].
Qed.

Lemma set_insert_in d l : ∃ d', d' ∈ set_insert d l ∧ same d d'.
Proof.
  pose proof (descriptor_order_strict d d d) as [Hirr _]. induction l as [|y l (d' & Hd & Hs)]; cbn; [exists d; split; [left|done]|].
  destruct (descriptor_lt d y) eqn:E1; [exists d; split; [left|done]|]. destruct (descriptor_lt y d) eqn:E2; [exists d'; split; [by right|done]|].
  exists y. split; [left|done].
Qed.

Lemma set_insert_ordered d l : set_ordered l → set_ordered (set_insert d l).
Proof.
  induction 1 as [|y l Hl IH Hy]; cbn; [repeat constructor|]. destruct (descriptor_lt d y) eqn:E1.
  - constructor; [by constructor|]. constructor; [done|]. eapply Forall_impl; [exact Hy|]. intros z. by apply before_trans.
  - destruct (descriptor_lt y d) eqn:E2; [|by constructor]. constructor; [done|]. rewrite Forall_forall in *.
    intros z [->|?]%set_insert_elem; [done|auto].
Qed.

Lemma set_erase_elem d l x : set_ordered l → x ∈ set_erase d l ↔ x ∈ l ∧ ¬ same d x.
Proof.
  intros Hl. induction Hl as [|y l Hl IH Hy]; cbn; [by rewrite elem_of_nil; split; [|intros []]|].
  rewrite Forall_forall in Hy. destruct (descriptor_lt d y || descriptor_lt y d) eqn:E.
  - rewrite !elem_of_cons, IH. assert (¬ same d y) as Hns by (intros [H1 H2]; by rewrite H1, H2 in E).
    split; [intros [->|[]]; auto|intros [[->|?] ?]; auto].
  - apply orb_false_iff in E as E'. rewrite elem_of_cons. split; [|by intros [[->|?] ?]]. intros Hx. split; [by right|].
    intros [H1 _]. pose proof (same_before d y x E' (Hy _ Hx)) as Hb. unfold before in Hb. congruence.
Qed.

Lemma set_erase_ordered d l : set_ordered l → set_ordered (set_erase d l).
Proof.
  induction 1 as [|y l Hl IH Hy]; cbn; [constructor|]. destruct (_ || _); [|done]. constructor; [done|].
  rewrite Forall_forall in *. intros z Hz. apply Hy. by apply (set_erase_elem d) in Hz as [? _].
Qed.
