(* ===== verification/PacketFactorySpec.v ===== *)
(** * AutoPacketFactory: shares, packets and shutdown

    In every interleaving of the calls on a started factory, pointers and shares are
    counted right: a packet lives as long as somebody holds it, and the factory's
    outstanding count as long as a packet lives. *)
From stdpp Require Import base gmap list sets strings.
From Stdlib Require Import ZArith Lia Sorted.
From S2P Require Import Prelude.
From S2P Require Import AutoFilter.
From S2P Require Import Decoration.
From S2P Require Import AutoPacket.
From S2P Require Import AutoPacketFacts.
From S2P Require Import AutoPacketSpec.
From S2P Require Import PacketFactory.
From S2P Require Import PacketFactoryFacts.
Local Open Scope nat_scope.

(** ** The invariant *)
(** A step that holds a pointer to [p]. *)
Definition holds (p : nat) (i : instr) : bool := match i with i_initialize (Some q) | i_drop q => Nat.eqb q p | _ => false end.
Definition is_free (i : instr) : bool := match i with i_free _ => true | _ => false end.
Definition lives (pk : packet) : bool := negb (Nat.eqb (use_count pk) 0).

Definition refs (w : factory) (c : list instr) (p : nat) : nat :=
  (if decide (m_nextPacket w = Some p) then 1 else 0) + cnt (Nat.eqb p) (handles w) + cnt (holds p) c.

(** [c]: the steps that calls under way have yet to take. *)
Record inv (c : list instr) (w : factory) : Prop := {
  v_contents : ∀ p pk, packets w !! p = Some pk → lives pk = true → pk_inv [] [] [] (contents pk);
  v_count : ∀ p, match packets w !! p with Some pk => use_count pk | None => 0 end = refs w c p;
  v_share : ∀ p pk, packets w !! p = Some pk → share pk = 0;
  v_shares : ∃ s, shares w = [s] ∧ holders s = cnt lives (packets w) + cnt is_free c ∧
    (outstanding s = false → holders s = 0) ∧ (holders s = 0 → outstanding s = false ∨ i_deleter 0 ∈ c) ∧ (i_deleter 0 ∈ c → holders s = 0);
  v_frees : ∀ b, i_free b ∈ c ∨ i_deleter b ∈ c → b = 0;
  v_internal : m_outstandingInternal w = Some 0;
  v_started : m_wasStarted w = true;
  v_lock : m_lock w = false;
  v_no_start : i_on_start ∉ c;
  v_next : m_shouldStop w = false → is_Some (m_nextPacket w);
  v_init : i_initialize None ∉ c;
  v_on_stop : i_on_stop ∈ c → m_shouldStop w = true;
  v_stopped : m_shouldStop w = true → (m_nextPacket w = None ∨ i_on_stop ∈ c) ∧ (m_outstanding w = false ∨ i_release ∈ c) }.

Lemma inv_perm c c' w : c ≡ₚ c' → inv c w → inv c' w.
Proof.
  intros Hp [V1 V2 V3 V4 V5 V6 V7 V8 V9 V10 V11 V12 V13].
  assert (∀ i, i ∈ c → i ∈ c') as H1 by (intros i; by rewrite Hp). assert (∀ i, i ∈ c' → i ∈ c) as H2 by (intros i; by rewrite Hp).
  split; try done; auto.
  - intros p. rewrite V2. unfold refs. by rewrite (cnt_perm _ _ _ Hp).
  - destruct V4 as (s & E & Hh & Ho & Hd & Hd'). exists s. rewrite <-(cnt_perm is_free _ _ Hp). split_and!; auto. intros Hz. destruct (Hd Hz); auto.
  - intros b [?|?]; apply V5; auto.
  - intros Hs. destruct (V13 Hs) as [[?|?] [?|?]]; auto.
Qed.

(** Everything but the counters of pointers and shares, when the packets stay. *)
Lemma inv_same c c' w w' : inv c w →
  packets w' = packets w → shares w' = shares w → m_outstandingInternal w' = m_outstandingInternal w → m_wasStarted w' = m_wasStarted w → m_lock w' = m_lock w →
  (∀ p, refs w' c' p = refs w c p) → cnt is_free c' = cnt is_free c → (∀ b, i_free b ∈ c' → i_free b ∈ c) → (∀ b, i_deleter b ∈ c' ↔ i_deleter b ∈ c) →
  (i_on_start ∈ c' → i_on_start ∈ c) → (i_initialize None ∈ c' → i_initialize None ∈ c) →
  (m_shouldStop w' = false → is_Some (m_nextPacket w')) → (i_on_stop ∈ c' → m_shouldStop w' = true) →
  (m_shouldStop w' = true → (m_nextPacket w' = None ∨ i_on_stop ∈ c') ∧ (m_outstanding w' = false ∨ i_release ∈ c')) → inv c' w'.
Proof.
  intros [V1 V2 V3 V4 V5 V6 V7 V8 V9 V10 V11 V12 V13] Ep Es Ei Ew El Hr Hf Hfr Hde Hst Hin Hn Hos Hsp.
  split; rewrite ?Ep, ?Es, ?Ei, ?Ew, ?El; try done; auto.
  - intros p. by rewrite Hr.
  - destruct V4 as (s & E & Hh & Ho & Hd & Hd'). exists s. rewrite Hf, Hde. split_and!; auto.
  - intros b [?|?]; apply V5; [left; auto|right; by apply Hde].
Qed.

(** One packet changes, or the steps that hold it. *)
Lemma inv_packet c c' w w' p pk pk' : inv c w → packets w !! p = Some pk → packets w' = <[p := pk']> (packets w) →
  shares w' = shares w → m_outstandingInternal w' = m_outstandingInternal w → m_wasStarted w' = m_wasStarted w → m_lock w' = m_lock w →
  m_shouldStop w' = m_shouldStop w → m_nextPacket w' = m_nextPacket w → m_outstanding w' = m_outstanding w →
  share pk' = share pk → (lives pk' = true → pk_inv [] [] [] (contents pk')) →
  use_count pk' = refs w' c' p → (∀ q, q ≠ p → refs w' c' q = refs w c q) →
  (if lives pk' then 1 else 0) + cnt is_free c' = (if lives pk then 1 else 0) + cnt is_free c →
  (∀ b, i_free b ∈ c' → b = 0) → (∀ b, i_deleter b ∈ c' ↔ i_deleter b ∈ c) →
  (∀ i, (i = i_on_start ∨ i = i_initialize None ∨ i = i_on_stop ∨ i = i_release) → i ∈ c' ↔ i ∈ c) → inv c' w'.
Proof.
  intros [V1 V2 V3 V4 V5 V6 V7 V8 V9 V10 V11 V12 V13] Hp Ep Es Ei Ew El Esh En Eo Hsh Hc Hu Hr Hl Hfr Hde Ht. pose proof (lookup_lt_Some _ _ _ Hp) as Hlt.
  split; rewrite ?Ep, ?Es, ?Ei, ?Ew, ?El, ?Esh, ?En, ?Eo, ?Ht by auto; try done.
  - intros q pq [(-> & <- & _)|[_ Hq]]%list_lookup_insert_Some; [done|by eapply V1].
  - intros q. destruct (decide (q = p)) as [->|Hne]; [by rewrite list_lookup_insert_eq|]. rewrite list_lookup_insert_ne by done. by rewrite Hr.
  - intros q pq [(-> & <- & _)|[_ Hq]]%list_lookup_insert_Some; [rewrite Hsh|]; eauto.
  - destruct V4 as (s & E & Hh & Ho & Hd & Hd'). exists s. rewrite Hde. split_and!; auto. pose proof (cnt_insert lives (packets w) p pk pk' Hp). lia.
  - intros b [?|?]; [auto|]. apply V5. right. by apply Hde.
Qed.

Section steps.
  Context (clock : nat → Z) (filters : t_extractedCall → filter_body) (fuel : nat).
  Local Abbreviation exec := (PacketFactory.exec clock filters fuel).

Definition steps (c : list instr) (i : instr) (w : factory) : Prop :=
  match exec i w with
  | (Ret l, w') => inv (l ++ c) w'
  | (Throw _, _) | (Stuck undefined_behavior, _) => False
  | _ => True
  end.

(** The end of a call that changed nothing that matters. *)
Lemma inv_end c i w w' : inv (i :: c) w → packets w' = packets w → shares w' = shares w → m_outstandingInternal w' = m_outstandingInternal w →
  m_wasStarted w' = m_wasStarted w → m_lock w' = m_lock w → m_shouldStop w' = m_shouldStop w → m_nextPacket w' = m_nextPacket w →
  handles w' = handles w → (m_outstanding w' = m_outstanding w ∨ m_outstanding w' = false) →
  match i with i_start | i_new | i_current | i_use _ _ | i_add _ | i_remove _ | i_wait | i_reset | i_throw _ | i_stop => True | i_release => m_outstanding w' = false | _ => False end →
  inv c w'.
Proof.
  intros H Ep Es Ei Ew El Esh En Eh Eo Hi. apply (inv_same (i :: c) c w w' H Ep Es Ei Ew El); rewrite ?Esh, ?En; try by right.
  - intros p. unfold refs. rewrite En, Eh, cnt_cons. by destruct i.
  - rewrite cnt_cons. by destruct i.
  - intros b. split; [by right|]. by intros [<-|]%elem_of_cons.
  - apply (v_next _ _ H).
  - intros Hos. apply (v_on_stop _ _ H). by right.
  - intros Hs. destruct (v_stopped _ _ H Hs) as [Hos Ho]. split.
    + destruct Hos as [?|[<-|?]%elem_of_cons]; [by left|done|by right].
    + destruct Eo as [Eo|?]; [|by left]. destruct Ho as [?|[<-|?]%elem_of_cons]; [left; congruence|by left|by right].
Qed.

Lemma held_packet c w p : inv c w → refs w c p ≠ 0 → ∃ pk, packets w !! p = Some pk ∧ lives pk = true ∧ load_packet p w = (Ret pk, w).
Proof.
  intros H Hr. rewrite <-(v_count _ _ H p) in Hr. destruct (packets w !! p) as [pk|] eqn:Hp; [|done]. exists pk.
  unfold lives, load_packet. munfold. rewrite Hp. destruct (Nat.eqb_spec (use_count pk) 0); done.
Qed.

Lemma start_step c w : inv (i_start :: c) w → steps c i_start w.
Proof.
  intros H. unfold steps. cbn [exec]. unfold Start, lock. munfold. rewrite (v_lock _ _ H), (v_started _ _ H). cbn.
  apply (inv_end c i_start w w H); auto.
Qed.

Lemma plain_step c w i : inv (i :: c) w → match i with i_add _ | i_remove _ | i_wait | i_reset | i_throw _ => True | _ => False end → steps c i w.
Proof.
  intros H Hi. unfold steps. destruct i; try done; cbn [exec]; munfold; cbn.
  - apply (inv_end c _ w _ H); auto.
  - apply (inv_end c _ w _ H); auto.
  - unfold Wait, lock. munfold. rewrite (v_lock _ _ H). destruct (_ && _ && _); [|done]. apply (inv_end c _ w _ H); auto.
  - apply (inv_end c _ w _ H); auto.
  - apply (inv_end c _ w _ H); auto.
Qed.

Lemma release_step c w : inv (i_release :: c) w → steps c i_release w.
Proof.
  intros H. unfold steps. cbn [exec]. unfold Stop_release, lock. munfold. rewrite (v_lock _ _ H). cbn.
  apply (inv_end c i_release w _ H); auto.
Qed.

Lemma stop_step c w : inv (i_stop :: c) w → steps c i_stop w.
Proof.
  intros H. unfold steps. cbn [exec]. unfold Stop, lock. munfold. rewrite (v_lock _ _ H). cbn. destruct (m_shouldStop w) eqn:Hs; cbn.
  { apply (inv_end c i_stop w _ H); auto. }
  apply (inv_same (i_stop :: c) _ w _ H); cbn; try done.
  - intros b. rewrite !elem_of_cons. naive_solver.
  - intros b. rewrite !elem_of_cons. naive_solver.
  - rewrite !elem_of_cons. naive_solver.
  - rewrite !elem_of_cons. naive_solver.
  - intros _. split; right; rewrite !elem_of_cons; auto.
Qed.

Lemma on_stop_step c w : inv (i_on_stop :: c) w → steps c i_on_stop w.
Proof.
  intros H. unfold steps. cbn [exec]. unfold OnStop. munfold. cbn. pose proof (v_on_stop _ _ H ltac:(left)) as Hs.
  set (l := match m_nextPacket w with Some p => [i_drop p] | None => [] end).
  assert (∀ i, i ∈ l ++ c → (∃ p, i = i_drop p) ∨ i ∈ c) as Hl.
  { intros i [Hi|?]%elem_of_app; [left|by right]. unfold l in Hi. destruct (m_nextPacket w); [apply list_elem_of_singleton in Hi; eauto|by apply elem_of_nil in Hi]. }
  assert (∀ i, i ∈ c → i ∈ l ++ c) as Hc by (intros i ?; apply elem_of_app; by right).
  apply (inv_same (i_on_stop :: c) _ w _ H); cbn; try done.
  - intros p. unfold refs, l. cbn. rewrite cnt_app, cnt_cons. cbn. rewrite decide_False by done.
    destruct (m_nextPacket w) as [q|]; [|by rewrite decide_False, cnt_nil]. rewrite cnt_cons, cnt_nil. cbn.
    rewrite (decide_ext (Some q = Some p) (q = p)) by (split; congruence). destruct (decide (q = p)) as [->|Hne]; [rewrite Nat.eqb_refl; lia|].
    rewrite (proj2 (Nat.eqb_neq q p)) by done. done.
  - unfold l. rewrite cnt_app, cnt_cons. by destruct (m_nextPacket w).
  - intros b [[? [=]]|?]%Hl. by right.
  - intros b. split; [intros [[? [=]]|?]%Hl; by right|]. intros [|?]%elem_of_cons; [done|auto].
  - intros [[? [=]]|?]%Hl. by right.
  - intros [[? [=]]|?]%Hl. by right.
  - congruence.
  - intros _. split; [by left|]. destruct (v_stopped _ _ H Hs) as [_ [?|[|?]%elem_of_cons]]; [by left|done|right; auto].
Qed.

Lemma inv_throw c w e : inv c w → inv (i_throw e :: c) w.
Proof.
  intros H. apply (inv_same c _ w w H); try done.
  - intros b. by intros [|]%elem_of_cons.
  - intros b. rewrite elem_of_cons. naive_solver.
  - by intros [|]%elem_of_cons.
  - by intros [|]%elem_of_cons.
  - apply (v_next _ _ H).
  - intros [|?]%elem_of_cons; [done|by apply (v_on_stop _ _ H)].
  - intros Hs. destruct (v_stopped _ _ H Hs) as [[?|?] [?|?]]; split; try (by left); right; by right.
Qed.

Lemma holders_pos c w q s : inv c w → m_nextPacket w = Some q → shares w = [s] → holders s ≠ 0.
Proof.
  intros H Hq Es. destruct (v_shares _ _ H) as (s' & Es' & Hh & _). assert (s' = s) as -> by congruence.
  destruct (held_packet c w q H) as (pk & Hp & Hl & _); [unfold refs; rewrite decide_True by done; lia|].
  apply list_elem_of_lookup_2 in Hp. pose proof (cnt_elem lives pk (packets w) Hp Hl). lia.
Qed.

(** [GetInternalOutstanding] adds to the share that is there. *)
Lemma share_run c w q s : inv c w → m_nextPacket w = Some q → shares w = [s] →
  expired w = false ∧ GetInternalOutstanding w = (Ret 0, set_shares [mkShare (S (holders s)) (outstanding s)] w).
Proof.
  intros H Hq Es. pose proof (holders_pos _ _ _ _ H Hq Es) as Hne.
  assert (expired w = false) as He by (unfold expired; rewrite (v_internal _ _ H), Es; cbn; by apply Nat.eqb_neq). split; [done|].
  unfold GetInternalOutstanding. munfold. rewrite He, (v_internal _ _ H). unfold load_share, store_share. munfold. rewrite Es. cbn. by rewrite Es.
Qed.

Lemma new_inv c w q s st : inv (i_new :: c) w → m_shouldStop w = false → m_nextPacket w = Some q → shares w = [s] →
  inv (i_initialize (Some q) :: c)
    (set_cur (Some q) (set_next (Some (length (packets w))) (set_packets (packets w ++ [mkIssued AutoPacket_new 1 0 0])
      (set_shares [mkShare (S (holders s)) (outstanding s)] (set_stats st w))))).
Proof.
  intros H Hs Hq Es. pose proof H as [V1 V2 V3 V4 V5 V6 V7 V8 V9 V10 V11 V12 V13].
  assert (∀ i, i ≠ i_new → i ∈ i_new :: c → i ∈ c) as Hc by (intros i ? [|]%elem_of_cons; done).
  split; cbn; try done.
  - intros p pk [Hp|[_ Hp]]%lookup_app_Some; [by eapply V1|]. apply list_lookup_singleton_Some in Hp as [_ <-]. intros _. apply pk_inv_new.
  - intros p. pose proof (V2 p) as Hp. unfold refs in *. cbn in *. rewrite cnt_cons in *. cbn in *. rewrite Hq in Hp.
    rewrite (decide_ext (Some (length (packets w)) = Some p) (length (packets w) = p)) by (split; congruence).
    rewrite (decide_ext (Some q = Some p) (q = p)) in Hp by (split; congruence). destruct (decide (length (packets w) = p)) as [<-|Hne].
    + rewrite lookup_ge_None_2 in Hp by done. rewrite lookup_app_r, Nat.sub_diag by done. cbn.
      destruct (decide (q = _)); [lia|]. rewrite (proj2 (Nat.eqb_neq q _)) by done. lia.
    + assert ((packets w ++ [mkIssued AutoPacket_new 1 0 0]) !! p = packets w !! p) as ->.
      { destruct (decide (p < length (packets w))); [by apply lookup_app_l|]. rewrite !lookup_ge_None_2; [done|lia|rewrite length_app; cbn; lia]. }
      rewrite Hp. destruct (decide (q = p)) as [->|Hqp]; [rewrite Nat.eqb_refl; lia|]. rewrite (proj2 (Nat.eqb_neq q p)) by done. lia.
  - intros p pk [Hp|[_ Hp]]%lookup_app_Some; [by eapply V3|]. by apply list_lookup_singleton_Some in Hp as [_ <-].
  - destruct V4 as (s' & Es' & Hh & Ho & Hd & Hd'). assert (s' = s) as -> by congruence. eexists. split; [done|]. cbn.
    rewrite cnt_app, !cnt_cons, cnt_nil in *. cbn in *. split_and!; [lia| |lia|].
    + intros E. by destruct (holders_pos _ _ _ _ H Hq Es), (Ho E).
    + intros [|Hx]%elem_of_cons; [done|]. destruct (holders_pos _ _ _ _ H Hq Es). apply Hd'. by right.
  - intros b [[|]%elem_of_cons|[|]%elem_of_cons]; try done; apply V5; [left|right]; by right.
  - intros [|?]%elem_of_cons; [done|]. apply V9. by right.
  - intros [|?]%elem_of_cons; [done|]. apply V11. by right.
  - intros [|?]%elem_of_cons; [done|]. apply V12. by right.
  - congruence.
Qed.

Lemma new_step c w : inv (i_new :: c) w → steps c i_new w.
Proof.
  intros H. assert (inv c w) as Hc by (apply (inv_end c i_new w w H); auto). unfold steps. cbn [exec]. unfold NewPacket. munfold.
  destruct (m_shouldStop w) eqn:Hs; [by apply inv_throw|]. cbn. destruct (negb (IsRunning w)); [by apply inv_throw|].
  destruct (v_next _ _ H Hs) as [q Hq]. destruct (v_shares _ _ H) as (s & Es & _).
  unfold ConstructPacket. munfold. set (w1 := set_stats _ w).
  assert (inv (i_new :: c) w1) as H1 by (apply (inv_same _ _ w w1 H); try done; [apply H..|apply (v_stopped _ _ H)]).
  destruct (share_run _ w1 q s H1 Hq Es) as [_ ->]. cbn. rewrite Hq. by eapply new_inv.
Qed.

Definition with_contents (c : AutoPacket) (pk : packet) : packet := mkIssued c (use_count pk) (share pk) (m_initTime pk).

Lemma on_packet_run {A} (m : Prelude.M AutoPacket A) p pk w : packets w !! p = Some pk → lives pk = true →
  on_packet p m w = ((m (contents pk)).1, set_packets (<[p := with_contents (m (contents pk)).2 pk]> (packets w)) w).
Proof.
  intros Hp Hl. unfold on_packet, load_packet, store_packet. munfold. rewrite Hp. unfold lives in Hl. destruct (Nat.eqb (use_count pk) 0); [done|].
  by destruct (m (contents pk)) as [r c].
Qed.

(** The same pointers, other contents. *)
Lemma inv_contents c w p pk k : inv c w → packets w !! p = Some pk → (lives pk = true → pk_inv [] [] [] k) →
  inv c (set_packets (<[p := with_contents k pk]> (packets w)) w).
Proof.
  intros H Hp Hk. apply (inv_packet c c w _ p pk (with_contents k pk) H Hp); try done.
  - cbn. pose proof (v_count _ _ H p) as Hc. rewrite Hp in Hc. exact Hc.
  - intros b Hb. apply (v_frees _ _ H). by left.
Qed.

Lemma use_step c w p o : inv (i_use p o :: c) w → i_drop p ∈ c → steps c (i_use p o) w.
Proof.
  intros H Hd. assert (inv c w) as Hc by (apply (inv_end c (i_use p o) w w H); auto).
  destruct (held_packet c w p Hc) as (pk & Hp & Hl & _).
  { unfold refs. pose proof (cnt_elem (holds p) _ _ Hd (Nat.eqb_refl p)). lia. }
  unfold steps. cbn [exec]. unfold try_catch. munfold. rewrite (on_packet_run _ _ _ _ Hp Hl).
  pose proof (run_packet_op_safe p filters fuel o (contents pk) (v_contents _ _ Hc _ _ Hp Hl)) as Hs.
  destruct (run_packet_op p filters fuel o (contents pk)) as [[u|e|[]] k]; cbn; try done.
  - by apply inv_contents.
  - by apply inv_throw, inv_contents.
Qed.

Definition with_count (n : nat) (pk : packet) : packet := mkIssued (contents pk) n (share pk) (m_initTime pk).

Lemma acquire_run p pk w : packets w !! p = Some pk → lives pk = true →
  acquire p w = (Ret tt, set_packets (<[p := with_count (S (use_count pk)) pk]> (packets w)) w).
Proof.
  intros Hp Hl. unfold acquire, load_packet, store_packet. munfold. rewrite Hp. unfold lives in Hl. by destruct (Nat.eqb (use_count pk) 0).
Qed.

Lemma current_step c w : inv (i_current :: c) w → steps c i_current w.
Proof.
  intros H. assert (inv c w) as Hc by (apply (inv_end c i_current w w H); auto). unfold steps. cbn [exec]. unfold CurrentPacket. munfold.
  destruct (m_curPacket w) as [p|]; [|done]. destruct (packets w !! p) as [pk|] eqn:Hp; [|done].
  destruct (Nat.eqb (use_count pk) 0) eqn:Hz; [done|]. assert (lives pk = true) as Hl by (unfold lives; by rewrite Hz).
  rewrite (acquire_run _ _ _ Hp Hl). cbn. apply (inv_packet c c w _ p pk (with_count (S (use_count pk)) pk) Hc Hp); try done.
  - intros _. by apply (v_contents _ _ Hc _ _ Hp).
  - pose proof (v_count _ _ Hc p) as Hn. rewrite Hp in Hn. unfold refs in *. cbn. rewrite cnt_app, cnt_cons, cnt_nil, Nat.eqb_refl. lia.
  - intros q Hne. unfold refs. cbn. rewrite cnt_app, cnt_cons, cnt_nil, (proj2 (Nat.eqb_neq q p)) by done. lia.
  - unfold lives at 1. cbn. by rewrite Hl.
  - intros b Hb. apply (v_frees _ _ Hc). by left.
Qed.

Lemma initialize_step c w o : inv (i_initialize o :: c) w → steps c (i_initialize o) w.
Proof.
  intros H. destruct o as [p|]; [|destruct (v_init _ _ H); left]. destruct (held_packet _ w p H) as (pk & Hp & Hl & Hload).
  { unfold refs. rewrite cnt_cons. cbn. rewrite Nat.eqb_refl. lia. }
  pose proof (lookup_lt_Some _ _ _ Hp) as Hlt. unfold steps. cbn [exec]. unfold Initialize_packet, now, load_packet, store_packet, try_catch. munfold. cbn.
  rewrite Hp. pose proof Hl as Hu. unfold lives in Hu. apply negb_true_iff in Hu. rewrite Hu. cbn.
  set (pk1 := mkIssued _ _ _ _). set (w1 := set_packets _ _). assert (packets w1 !! p = Some pk1) as Hp1 by (cbn; by rewrite list_lookup_insert_eq).
  rewrite (on_packet_run _ _ _ _ Hp1 Hl).
  pose proof (Initialize_ok p _ (run_filter_safe p filters fuel) fuel (m_autoFilters w) (contents pk) (v_contents _ _ H _ _ Hp Hl)) as Hs.
  change (contents pk1) with (contents pk). fold (initialize filters fuel p (m_autoFilters w)) in Hs.
  destruct (initialize filters fuel p (m_autoFilters w) (contents pk)) as [[u|e|[]] k]; cbn; try done; rewrite list_insert_insert_eq.
  - apply (inv_packet (i_initialize (Some p) :: c) c w _ p pk (with_contents k pk1) H Hp); try done.
    + pose proof (v_count _ _ H p) as Hn. rewrite Hp in Hn. unfold refs in *. cbn. rewrite cnt_app, !cnt_cons, cnt_nil in *. cbn in Hn. rewrite Nat.eqb_refl in *. lia.
    + intros q Hne. unfold refs. cbn. rewrite cnt_app, !cnt_cons, cnt_nil. cbn. rewrite (proj2 (Nat.eqb_neq q p)), (proj2 (Nat.eqb_neq p q)) by done. lia.
    + intros b Hb. apply (v_frees _ _ H). left. by right.
    + intros b. rewrite elem_of_cons. split; [by right|by intros [|]].
    + intros i Hi. rewrite elem_of_cons. split; [by right|]. intros [->|]; [naive_solver|done].
  - apply (inv_packet (i_initialize (Some p) :: c) (i_drop p :: i_throw e :: c) w _ p pk (with_contents k pk1) H Hp); try done.
    + pose proof (v_count _ _ H p) as Hn. rewrite Hp in Hn. unfold refs in *. cbn. rewrite !cnt_cons in *. cbn in *. lia.
    + intros q Hne. unfold refs. cbn. rewrite !cnt_cons. cbn. lia.
    + intros b [|[|Hb]%elem_of_cons]%elem_of_cons; [done..|]. apply (v_frees _ _ H). left. by right.
    + intros b. rewrite !elem_of_cons. naive_solver.
    + intros i Hi. rewrite !elem_of_cons. naive_solver.
Qed.

Lemma drop_step c w p : inv (i_drop p :: c) w → steps c (i_drop p) w.
Proof.
  intros H. destruct (held_packet _ w p H) as (pk & Hp & Hl & Hload).
  { unfold refs. rewrite cnt_cons. cbn. rewrite Nat.eqb_refl. lia. }
  pose proof (lookup_lt_Some _ _ _ Hp) as Hlt. pose proof (v_count _ _ H p) as Hn. rewrite Hp in Hn.
  assert (∀ b, i_free b ∈ c → b = 0) as Hfr by (intros b Hb; apply (v_frees _ _ H); left; by right).
  assert (∀ i, i ≠ i_drop p → i ∈ i_drop p :: c ↔ i ∈ c) as Hc by (intros i Hi; rewrite elem_of_cons; naive_solver).
  unfold steps. cbn [exec]. unfold drop_packet. rewrite (bind_Ret _ _ _ _ _ Hload). pose proof Hl as Hu. unfold lives in Hu. apply negb_true_iff, Nat.eqb_neq in Hu.
  destruct (use_count pk) as [|[|n]] eqn:En; [done| |].
  - erewrite bind_Ret by done. erewrite bind_Ret by done. set (w1 := set_stats _ _).
    unfold mbind at 1, M_bind at 1. rewrite (on_packet_run _ p pk w1 Hp Hl).
    pose proof (delete_counters_defined fuel _ _ (inv_deletable _ _ _ _ (v_contents _ _ H _ _ Hp Hl))) as Hd.
    set (m := (c ← get; delete_counters fuel (m_firstCounter c)) (contents pk)).
    change (delete_counters fuel (m_firstCounter (contents pk)) (contents pk)) with m in Hd. destruct m as [[[]|e|[]] k]; try done. cbn [fst snd].
    assert (packets (set_packets (<[p:=with_contents k pk]> (packets w1)) w1) !! p = Some (with_contents k pk)) as Hp1 by (cbn; by rewrite list_lookup_insert_eq).
    unfold load_packet, store_packet. munfold. rewrite Hp1. cbn. rewrite En. cbn. rewrite list_insert_insert_eq.
    apply (inv_packet (i_drop p :: c) _ w _ p pk (with_count 0 (with_contents k pk)) H Hp); try done.
    + unfold refs in *. cbn. rewrite !cnt_cons in *. cbn in *. rewrite Nat.eqb_refl in *. lia.
    + intros q Hne. unfold refs. cbn. rewrite !cnt_cons. cbn. by rewrite (proj2 (Nat.eqb_neq p q)) by done.
    + rewrite !cnt_cons. cbn. rewrite Hl. lia.
    + intros b [[= ->]|?]%elem_of_cons; [by apply (v_share _ _ H _ _ Hp)|auto].
    + intros b. rewrite !elem_of_cons. naive_solver.
    + intros i Hi. rewrite Hc by naive_solver. rewrite elem_of_cons. naive_solver.
  - erewrite bind_Ret by done. cbn.
    apply (inv_packet (i_drop p :: c) c w _ p pk (with_count (S n) pk) H Hp); try done.
    + intros _. by apply (v_contents _ _ H _ _ Hp).
    + unfold refs in *. cbn. rewrite !cnt_cons in *. cbn in *. rewrite Nat.eqb_refl in *. lia.
    + intros q Hne. unfold refs. cbn. rewrite !cnt_cons. cbn. by rewrite (proj2 (Nat.eqb_neq p q)) by done.
    + rewrite !cnt_cons. cbn. rewrite Hl. cbn. lia.
    + intros b. by rewrite Hc.
    + intros i Hi. by rewrite Hc by naive_solver.
Qed.

Lemma free_step c w b : inv (i_free b :: c) w → steps c (i_free b) w.
Proof.
  intros H. assert (b = 0) as -> by (apply (v_frees _ _ H); left; left). pose proof H as [V1 V2 V3 V4 V5 V6 V7 V8 V9 V10 V11 V12 V13].
  destruct V4 as (s & Es & Hh & Ho & Hd & Hd'). rewrite cnt_cons in Hh. cbn in Hh.
  unfold steps. cbn [exec]. unfold free_share, load_share, store_share. munfold. rewrite Es. cbn. destruct (holders s) as [|n] eqn:En; [lia|]. cbn.
  assert (outstanding s = true) as Hos by (destruct (outstanding s); [done|]; by specialize (Ho eq_refl)).
  assert (i_deleter 0 ∉ c) as Hnd by (intros Hx; specialize (Hd' ltac:(by right)); done). rewrite Es. cbn.
  assert (∀ i, (∀ b, i ≠ i_free b ∧ i ≠ i_deleter b) → i ∈ (if Nat.eqb n 0 then [i_deleter 0] else []) ++ c ↔ i ∈ i_free 0 :: c) as Ht.
  { intros i Hi. rewrite elem_of_app, elem_of_cons. destruct (Nat.eqb n 0); rewrite ?elem_of_cons, ?elem_of_nil; naive_solver. }
  split; cbn; rewrite ?Ht by done; try done.
  - intros p. rewrite V2. unfold refs. cbn. rewrite cnt_app, cnt_cons. cbn. destruct (Nat.eqb n 0); by rewrite ?cnt_cons, cnt_nil.
  - exists (mkShare n (outstanding s)). split; [done|]. cbn. rewrite cnt_app. split_and!.
    + destruct (Nat.eqb n 0); rewrite ?cnt_cons, cnt_nil; cbn; lia.
    + congruence.
    + intros ->. right. left.
    + destruct (Nat.eqb_spec n 0) as [|Hne]; [done|]. intros [Hx|Hx]%elem_of_app; [by apply elem_of_nil in Hx|done].
  - intros b Hb. apply V5. destruct (decide (b = 0)) as [->|Hne]; [left; left|]. destruct Hb as [Hb|Hb]; [left|right]; right;
      (apply elem_of_app in Hb as [Hb|Hb]; [destruct (Nat.eqb n 0); [apply list_elem_of_singleton in Hb; congruence|by apply elem_of_nil in Hb]|done]).
Qed.

Lemma deleter_step c w b : inv (i_deleter b :: c) w → steps c (i_deleter b) w.
Proof.
  intros H. assert (b = 0) as -> by (apply (v_frees _ _ H); right; left). pose proof H as [V1 V2 V3 V4 V5 V6 V7 V8 V9 V10 V11 V12 V13].
  destruct V4 as (s & Es & Hh & Ho & Hd & Hd'). assert (holders s = 0) as Hz by (apply Hd'; left).
  unfold steps. cbn [exec]. unfold deleter, lock, load_share, store_share. munfold. rewrite V8, Es. cbn. rewrite Es. cbn.
  assert (∀ i, i ∈ c → i ∈ i_deleter 0 :: c) as Ht by (intros i; by right).
  split; cbn; try done; auto.
  - exists (mkShare (holders s) false). split; [done|]. cbn. split_and!; auto.
  - intros b [?|?]; apply V5; [left|right]; by right.
  - intros Hs. destruct (V13 Hs) as [[?|[|?]%elem_of_cons] [?|[|?]%elem_of_cons]]; try done; split; auto.
Qed.

(** A call that uses a packet drops it later. *)
Fixpoint use_ok (l : list instr) : Prop :=
  match l with
  | [] => True
  | i :: l' => match i with i_use p _ => i_drop p ∈ l' | _ => True end ∧ use_ok l'
  end.

Lemma factory_steps_ok c i w rest : inv (i :: c) w → (∀ i', i' ∈ rest → i' ∈ c) → use_ok (i :: rest) → steps c i w.
Proof.
  intros H Hr [Hu _]. destruct i.
  - by apply start_step.
  - destruct (v_no_start _ _ H). left.
  - by apply stop_step.
  - by apply on_stop_step.
  - by apply release_step.
  - by apply new_step.
  - by apply initialize_step.
  - by apply current_step.
  - apply use_step; auto.
  - by apply drop_step.
  - by apply free_step.
  - by apply deleter_step.
  - by apply plain_step.
  - by apply plain_step.
  - by apply plain_step.
  - by apply plain_step.
  - by apply plain_step.
Qed.

(** New steps use no packet. *)
Definition no_use (m : M factory (list instr)) : Prop := ∀ w l w', m w = (Ret l, w') → ∀ p o, i_use p o ∉ l.

Lemma no_use_ret l : (∀ p o, i_use p o ∉ l) → no_use (mret l).
Proof. by intros Hl w l' w' [= <- _]. Qed.

Lemma no_use_bind {A} (m : M factory A) k : (∀ x, no_use (k x)) → no_use (m ≫= k).
Proof. intros Hk w l w' E. munfold. destruct (m w) as [[x|e|r] w1]; try done. by eapply Hk. Qed.

Lemma no_use_stuck r : no_use (stuck r).
Proof. by intros w l w'. Qed.

Lemma no_use_catch (m : M factory (list instr)) h : no_use m → (∀ e, no_use (h e)) → no_use (try_catch m h).
Proof. intros Hm Hh w l w' E. unfold try_catch in E. destruct (m w) as [[x|e|r] w1] eqn:E1; try done; [|by eapply Hh]. eapply Hm. by rewrite E1. Qed.

Lemma exec_no_use i : no_use (exec i).
Proof.
  destruct i; cbn; unfold Start, Stop, OnStop, NewPacket, Initialize_packet, CurrentPacket, drop_packet, free_share;
  repeat first [apply no_use_bind; intros ?|apply no_use_stuck|case_match|apply no_use_catch; [|intros ?]|apply no_use_ret; set_solver].
Qed.

Definition ok (w : factory) : Prop := inv (concat (pending w)) w ∧ Forall use_ok (pending w).

Lemma use_ok_app l1 l2 : (∀ p o, i_use p o ∉ l1) → use_ok l2 → use_ok (l1 ++ l2).
Proof.
  induction l1 as [|i l1 IH]; intros Hn Hl; [done|]. cbn. split; [|apply IH; [|done]; intros p o Hin; apply (Hn p o); by right].
  destruct i; try done. destruct (Hn p o). left.
Qed.

(** Steps leave the other calls alone. *)
Definition same_pending {A} (m : M factory A) : Prop := ∀ w, pending (m w).2 = pending w.

Lemma same_bind {A B} (m : M factory A) (k : A → M factory B) : same_pending m → (∀ x, same_pending (k x)) → same_pending (m ≫= k).
Proof. intros Hm Hk w. pose proof (Hm w) as H. munfold. destruct (m w) as [[x|e|r] w']; [by rewrite <-H, Hk|done|done]. Qed.

Lemma same_catch {A} (m : M factory A) h : same_pending m → (∀ e, same_pending (h e)) → same_pending (try_catch m h).
Proof. intros Hm Hh w. pose proof (Hm w) as H. unfold try_catch. destruct (m w) as [[x|e|r] w']; [done|by rewrite <-H, Hh|done]. Qed.

Lemma same_on_packet {A} p (m : M AutoPacket A) : same_pending (on_packet p m).
Proof. unfold on_packet. apply same_bind; [|intros pk; by destruct (m (contents pk))]. intros w. unfold load_packet. munfold. by repeat case_match. Qed.

Lemma exec_pending i : same_pending (exec i).
Proof.
  destruct i; cbn; unfold Start, OnStart, Stop, OnStop, Stop_release, NewPacket, Initialize_packet, CurrentPacket, drop_packet, free_share, deleter, Wait, lock, acquire,
    ConstructPacket, GetInternalOutstanding, load_packet, store_packet, load_share, store_share, deref, RecordPacketDuration, AddSubscriber, RemoveSubscriber, ResetPacketStatistics;
  repeat first [done|apply same_on_packet|intros ?; etrans; [apply same_on_packet|done]|apply same_catch; [|intros ?]|apply same_bind; [|intros ?]|case_match].
Qed.

Local Abbreviation act := (PacketFactory.act clock filters fuel).
Local Abbreviation run := (PacketFactory.run clock filters fuel).

(** The list of calls is no part of the invariant. *)
Lemma inv_pending c w x : inv c w → inv c (set_pending x w).
Proof. intros []. by split. Qed.

(** A new call, with no packet or one that it holds. *)
Lemma begin_ok l w w' : inv (l ++ concat (pending w)) w' → pending w' = pending w → Forall use_ok (pending w) → use_ok l →
  ok (set_pending (pending w' ++ [l]) w').
Proof.
  intros H Ep Hu Hl. split; cbn; rewrite Ep; [|apply Forall_app; split; [done|by apply Forall_singleton]].
  apply inv_pending. eapply inv_perm; [|exact H]. rewrite concat_app. cbn. by rewrite app_nil_r, Permutation_app_comm.
Qed.

(** A step that is not about packets, shares or shutdown. *)
Lemma inv_begin c w i : match i with i_start | i_new | i_current | i_add _ | i_remove _ | i_wait | i_reset | i_stop => True | _ => False end → inv c w → inv (i :: c) w.
Proof.
  intros Hi H. apply (inv_same c (i :: c) w w H); try done.
  - intros p. unfold refs. rewrite cnt_cons. by destruct i.
  - rewrite cnt_cons. by destruct i.
  - intros b [<-|]%elem_of_cons; done.
  - intros b. split; [by intros [<-|]%elem_of_cons|by right].
  - by intros [<-|]%elem_of_cons.
  - by intros [<-|]%elem_of_cons.
  - apply (v_next _ _ H).
  - intros [<-|?]%elem_of_cons; [done|by apply (v_on_stop _ _ H)].
  - intros Hs. destruct (v_stopped _ _ H Hs) as [[?|?] [?|?]]; split; try (by left); right; by right.
Qed.

Lemma go_ok n w : ok w → match go_on clock filters fuel n w with (Ret _, w') => ok w' | (Throw _, _) | (Stuck undefined_behavior, _) => False | _ => True end.
Proof.
  intros [H Hu]. unfold go_on. munfold. destruct (pending w !! n) as [[|i rest]|] eqn:Hn; try done.
  pose proof (Forall_lookup_1 _ _ _ _ Hu Hn) as Hul. destruct (concat_insert (pending w) n (i :: rest) Hn) as (c & Hc & Hins).
  assert (steps (rest ++ c) i w) as Hs.
  { apply (factory_steps_ok _ _ _ rest); [by eapply inv_perm|intros i' Hi; apply elem_of_app; by left|done]. }
  unfold steps in Hs. pose proof (exec_no_use i w) as Hno. pose proof (exec_pending i w) as Ep.
  destruct (exec i w) as [[l|e|r] w'] eqn:E; [|done|by destruct r]. cbn in Ep. split; cbn.
  - apply inv_pending. rewrite Ep. eapply inv_perm; [|exact Hs]. by rewrite Hins, <-app_assoc.
  - rewrite Ep. apply Forall_insert; [done|]. apply use_ok_app; [|by destruct Hul]. by eapply Hno.
Qed.

Lemma drop_begin c w k p : inv c w → handles w !! k = Some p → inv (i_drop p :: c) (set_handles (delete k (handles w)) w).
Proof.
  intros H Hk. apply (inv_same c _ w _ H); try done.
  - intros q. unfold refs. cbn. rewrite cnt_cons, (cnt_delete (Nat.eqb q) _ _ _ Hk). cbn. rewrite Nat.eqb_sym. lia.
  - intros b. by intros [|]%elem_of_cons.
  - intros b. split; [by intros [|]%elem_of_cons|by right].
  - by intros [|]%elem_of_cons.
  - by intros [|]%elem_of_cons.
  - apply (v_next _ _ H).
  - intros [|?]%elem_of_cons; [done|by apply (v_on_stop _ _ H)].
  - intros Hs. destruct (v_stopped _ _ H Hs) as [[?|?] [?|?]]; split; try (by left); right; by right.
Qed.

Lemma handle_held c w k p : inv c w → handles w !! k = Some p → ∃ pk, packets w !! p = Some pk ∧ lives pk = true.
Proof.
  intros H Hk. destruct (held_packet c w p H) as (pk & Hp & Hl & _); [|by exists pk].
  apply list_elem_of_lookup_2 in Hk. pose proof (cnt_elem (Nat.eqb p) p _ Hk (Nat.eqb_refl p)). unfold refs. lia.
Qed.

Lemma use_begin c w p pk o : inv c w → packets w !! p = Some pk → lives pk = true →
  inv (i_use p o :: i_drop p :: c) (set_packets (<[p := with_count (S (use_count pk)) pk]> (packets w)) w).
Proof.
  intros H Hp Hl. apply (inv_packet c _ w _ p pk (with_count (S (use_count pk)) pk) H Hp); try done.
  - intros _. by apply (v_contents _ _ H _ _ Hp).
  - pose proof (v_count _ _ H p) as Hn. rewrite Hp in Hn. unfold refs in *. cbn. rewrite !cnt_cons. cbn. rewrite Nat.eqb_refl. lia.
  - intros q Hne. unfold refs. cbn. rewrite !cnt_cons. cbn. by rewrite (proj2 (Nat.eqb_neq p q)) by done.
  - rewrite !cnt_cons. cbn. by rewrite Hl.
  - intros b [|[|?]%elem_of_cons]%elem_of_cons; [done..|]. apply (v_frees _ _ H). by left.
  - intros b. rewrite !elem_of_cons. naive_solver.
  - intros i Hi. rewrite !elem_of_cons. naive_solver.
Qed.

Lemma act_ok a w : ok w → match act a w with (Ret _, w') => ok w' | (Throw _, _) | (Stuck undefined_behavior, _) => False | _ => True end.
Proof.
  intros H. pose proof H as [Hi Hu]. assert (∀ i, match i with i_start | i_new | i_current | i_add _ | i_remove _ | i_wait | i_reset | i_stop => True | _ => False end →
    ok (set_pending (pending w ++ [[i]]) w)) as Hb.
  { intros i Hc. apply (begin_ok [i] w w); [by apply inv_begin|done|done|by destruct i]. }
  destruct a; unfold PacketFactory.act, begin_call; munfold; try by apply Hb.
  - destruct (handles w !! k) as [p|] eqn:Hk; [|done]. cbn. apply (begin_ok [i_drop p] w (set_handles (delete k (handles w)) w)); [by apply drop_begin|done|done|by split].
  - destruct (handles w !! k) as [p|] eqn:Hk; [|done]. destruct (handle_held _ _ _ _ Hi Hk) as (pk & Hp & Hl).
    rewrite (acquire_run _ _ _ Hp Hl). cbn. apply (begin_ok [i_use p o; i_drop p] w (set_packets (<[p := with_count (S (use_count pk)) pk]> (packets w)) w)); [by apply use_begin|done|done|split; [left|by split]].
  - by apply go_ok.
Qed.

Lemma factory_run_ok l w : ok w → match run l w with Ret w' => ok w' | Stuck out_of_fuel => True | _ => False end.
Proof.
  revert w. induction l as [|a l IH]; intros w H; cbn; [done|]. pose proof (act_ok a w H) as Ha.
  destruct (act a w) as [[u|e|r] w']; [by apply IH|done|]. destruct r; [done|by apply IH|done].
Qed.

(** The state of a factory that [Start] has returned from. *)
Definition started : factory :=
  mkFactory true false true false [mkShare 1 true] (Some 0) [mkIssued AutoPacket_new 1 0 0] None (Some 0) [] (mkStatistics 0 [] [] false) 0 [] [[]].

Lemma started_run l : run (c_start :: go 0 :: go 0 :: l) factory_new = run l started.
Proof. done. Qed.

Lemma started_ok : ok started.
Proof.
  split; [|by constructor]. split; cbn; try done.
  - intros [|p] pk [= <-] _. apply pk_inv_new.
  - intros [|p]; done.
  - intros [|p] pk [= <-]. done.
  - exists (mkShare 1 true). split_and!; try done. by intros ?%elem_of_nil.
  - intros b [?%elem_of_nil|?%elem_of_nil]; done.
  - by intros ?%elem_of_nil.
  - by intros ?%elem_of_nil.
  - by intros ?%elem_of_nil.
Qed.

(** ** What clients may rely on *)
(** Destructors of packets that have yet to release their share. *)
Definition in_flight (w : factory) : nat := cnt is_free (concat (pending w)).

Lemma counted w : ok w → GetOutstandingPacketCount w = sz_sub (Z.of_nat (cnt lives (packets w) + in_flight w)) 1.
Proof. intros [H _]. destruct (v_shares _ _ H) as (s & Es & Hh & _). unfold GetOutstandingPacketCount. rewrite (v_internal _ _ H), Es. cbn. by rewrite Hh. Qed.

Lemma kept w p pk : ok w → packets w !! p = Some pk → lives pk = true → IsRunning w = true ∧ ∃ s, shares w = [s] ∧ outstanding s = true.
Proof.
  intros [H _] Hp Hl. destruct (v_shares _ _ H) as (s & Es & Hh & Ho & _). apply list_elem_of_lookup_2 in Hp. pose proof (cnt_elem lives pk _ Hp Hl) as Hn.
  split.
  - unfold IsRunning, expired. rewrite (v_internal _ _ H), Es. cbn. rewrite (proj2 (Nat.eqb_neq (holders s) 0)) by lia. apply orb_true_r.
  - exists s. split; [done|]. destruct (outstanding s); [done|]. specialize (Ho eq_refl). lia.
Qed.


(** Calls that are over, or wait for the factory. *)
Definition settled (w : factory) : Prop := Forall (λ l, l = [] ∨ l = [i_wait]) (pending w).

Lemma settled_steps w i : settled w → i ∈ concat (pending w) → i = i_wait.
Proof.
  unfold settled. induction 1 as [|l ls [-> | ->] _ IH]; cbn; [by intros ?%elem_of_nil|done|]. intros [|?]%elem_of_cons; auto.
Qed.

(** A stopped factory with nothing under way and no pointers to packets. *)
Lemma wound_down w : ok w → m_shouldStop w = true → handles w = [] → settled w →
  (∀ p pk, packets w !! p = Some pk → lives pk = false) ∧ m_outstanding w = false ∧ shares w = [mkShare 0 false].
Proof.
  intros [H _] Hs Hh Hset. assert (∀ i, i ∈ concat (pending w) → i = i_wait) as Hc by (intros i; by apply settled_steps).
  destruct (v_stopped _ _ H Hs) as [[Hn|Hi%Hc] [Ho|Hi'%Hc]]; try done.
  assert (∀ p pk, packets w !! p = Some pk → lives pk = false) as Hl.
  { intros p pk Hp. unfold lives. pose proof (v_count _ _ H p) as Hr. rewrite Hp in Hr. rewrite Hr. unfold refs.
    rewrite Hn, Hh, cnt_nil, cnt_none; [done|]. by intros i ->%Hc. }
  destruct (v_shares _ _ H) as (s & Es & Hho & _ & Hz & _). rewrite !cnt_none in Hho; [|by intros i ->%Hc|by intros pk [p Hp]%list_elem_of_lookup; eapply Hl].
  split_and!; [done..|]. rewrite Es. destruct (Hz Hho) as [E|Hi%Hc]; [|done]. destruct s. cbn in *. by subst.
Qed.

(** C14. A factory winds down.  Once it is stopped, clients have let go of their packets
    and no call but a wait is under way, all packets are destroyed - the one made in
    advance too -, the factory does not count as running, the outstanding count is given
    back to the context, both by the factory and by its packets, and every thread that
    waits for the factory returns. *)
Theorem packet_factory_winds_down (l : list action) (w : factory) :
  run (c_start :: go 0 :: go 0 :: l) factory_new = Ret w → m_shouldStop w = true → handles w = [] → settled w →
  (∀ p pk, packets w !! p = Some pk → use_count pk = 0) ∧
  IsRunning w = false ∧ m_outstanding w = false ∧ shares w = [mkShare 0 false] ∧
  ∀ n, pending w !! n = Some [i_wait] → go_on clock filters fuel n w = (Ret tt, set_pending (<[n := []]> (pending w)) w).
Proof.
  rewrite started_run. intros Hr Hs Hh Hset. pose proof (factory_run_ok l started started_ok) as Hok. rewrite Hr in Hok.
  destruct (wound_down w Hok Hs Hh Hset) as (Hp & Ho & Es). assert (expired w = true) as He by (unfold expired; by rewrite (v_internal _ _ (proj1 Hok)), Es).
  split_and!; try done.
  - intros p pk Hp'. specialize (Hp _ _ Hp'). unfold lives in Hp. by destruct (use_count pk).
  - unfold IsRunning. by rewrite Ho, He.
  - intros n Hn. unfold go_on. munfold. rewrite Hn. cbn. unfold Wait, lock. munfold. rewrite (v_lock _ _ (proj1 Hok)). unfold IsRunning. by rewrite Hs, Ho, He.
Qed.
End steps.
