(* ===== verification/PacketFactoryProgress.v ===== *)
(** * AutoPacketFactory: calls end

    Nothing that a call does waits for another thread, but a wait for the factory:
    packets take no lock that their callers hold, and the factory's lock is free
    between steps.  Every call ends after a bounded number of steps. *)
From stdpp Require Import base gmap list sets strings.
From Stdlib Require Import ZArith Lia.
From S2P Require Import Prelude.
From S2P Require Import AutoFilter.
From S2P Require Import Decoration.
From S2P Require Import AutoPacket.
From S2P Require Import AutoPacketFacts.
From S2P Require Import AutoPacketSpec.
From S2P Require Import PacketFactory.
From S2P Require Import PacketFactoryFacts.
From S2P Require Import PacketFactorySpec.
Local Open Scope nat_scope.

(** ** Code that does not wait *)
Definition never_waits {S A} (m : Prelude.M S A) : Prop := ∀ s, (m s).1 ≠ Stuck blocked.

Section never_waits.
  Context {S : Type}.
  Local Abbreviation M := (Prelude.M S).

Lemma nw_now {A} (f : S → outcome A * S) : (∀ s, (f s).1 ≠ Stuck blocked) → never_waits (f : M A).
Proof. done. Qed.

Lemma nw_ret {A} (a : A) : never_waits (mret a : M A).
Proof. done. Qed.

Lemma nw_get : never_waits (get : M S).
Proof. done. Qed.

Lemma nw_put s : never_waits (put s : M unit).
Proof. done. Qed.

Lemma nw_modify f : never_waits (modify f : M unit).
Proof. done. Qed.

Lemma nw_throw {A} e : never_waits (throw e : M A).
Proof. done. Qed.

Lemma nw_stuck {A} r : r ≠ blocked → never_waits (stuck r : M A).
Proof. by intros Hr s [= E]. Qed.

Lemma nw_deref {A} (o : option A) : never_waits (deref o : M A).
Proof. by destruct o. Qed.

Lemma nw_bind {A B} (m : M A) (k : A → M B) : never_waits m → (∀ a, never_waits (k a)) → never_waits (m ≫= k).
Proof. intros Hm Hk s. specialize (Hm s). munfold. destruct (m s) as [[a|e|r] s']; [apply Hk|done|]. intros [= ->]. by apply Hm. Qed.

Lemma nw_catch {A} (m : M A) h : never_waits m → (∀ e, never_waits (h e)) → never_waits (try_catch m h).
Proof. intros Hm Hh s. specialize (Hm s). unfold try_catch. destruct (m s) as [[a|e|r] s']; [done|apply Hh|done]. Qed.

Lemma nw_at_exit {A} f (m : M A) : never_waits f → never_waits m → never_waits (at_exit f m).
Proof.
  intros Hf Hm s. specialize (Hm s). unfold at_exit. destruct (m s) as [[a|e|r] s']; [| |done];
    specialize (Hf s'); destruct (f s') as [[u|e'|r'] s'']; try done; intros [= ->]; by apply Hf.
Qed.

Lemma nw_when b (m : M unit) : never_waits m → never_waits (when b m).
Proof. by destruct b. Qed.

Lemma nw_for_each {A} (body : A → M unit) l : (∀ x, never_waits (body x)) → never_waits (for_each body l).
Proof. intros Hb. induction l as [|x l IH]; cbn; [done|]. by apply nw_bind. Qed.
End never_waits.

Create HintDb nw.
#[export] Hint Resolve nw_ret nw_get nw_put nw_modify nw_throw nw_deref : nw.

(** Goes through the code of an operation. *)
Ltac never_waits :=
  repeat first
    [ done | solve [auto with nw nocore] | apply nw_stuck; done | progress intros
    | apply nw_bind | apply nw_catch | apply nw_at_exit | apply nw_when | apply nw_for_each | case_match ].

(** ** Packets *)
Lemma entry_nw key : never_waits (entry key).
Proof. intros p. unfold entry. by case_match. Qed.

Lemma update_entry_nw key f : never_waits (update_entry key f).
Proof. unfold update_entry, store_entry. pose proof entry_nw. never_waits. Qed.

Lemma load_sat_nw a : never_waits (load_sat a).
Proof. unfold load_sat. never_waits. Qed.

Lemma sat_Decrement_nw a : never_waits (sat_Decrement a).
Proof. unfold sat_Decrement, store_sat. pose proof load_sat_nw. never_waits. Qed.

#[export] Hint Resolve entry_nw update_entry_nw load_sat_nw sat_Decrement_nw : nw.

Lemma find_counter_nw fuel pred : ∀ o, never_waits (find_counter fuel pred o).
Proof. induction fuel as [|fuel IH]; intros [a|]; cbn; never_waits. Qed.

Lemma find_if_nw {A} (pred : A → Prelude.M AutoPacket bool) l : (∀ x, never_waits (pred x)) → never_waits (find_if pred l).
Proof. intros Hp. induction l; cbn; never_waits. Qed.

Lemma remove_if_nw {A} (pred : A → Prelude.M AutoPacket bool) l : (∀ x, never_waits (pred x)) → never_waits (remove_if pred l).
Proof. intros Hp. induction l; cbn; never_waits. Qed.

Lemma sat_equals_nw d a : never_waits (sat_equals d a).
Proof. unfold sat_equals. never_waits. Qed.

Lemma collect_next_nw l : ∀ acc, never_waits (collect_next l acc).
Proof. induction l; intros acc; cbn; never_waits. Qed.

#[export] Hint Resolve find_counter_nw find_if_nw remove_if_nw sat_equals_nw collect_next_nw : nw.

Lemma DetectCycle_nw fuel : ∀ a v, never_waits (DetectCycle fuel a v).
Proof.
  induction fuel as [|fuel IH]; intros a v; cbn; [never_waits|]. case_match; [done|]. case_match; [done|]. apply nw_bind; [auto with nw|]. intros sat.
  apply nw_bind; [auto with nw|]. intros next. case_match; [done|]. apply nw_bind; [|done]. generalize ({[a]} ∪ v.1, v.2). induction (elements next); never_waits.
Qed.

Lemma AddSatCounterUnsafe_nw fuel a : never_waits (AddSatCounterUnsafe fuel a).
Proof. unfold AddSatCounterUnsafe, add_argument. pose proof DetectCycle_nw. never_waits. Qed.

Lemma RemoveRecipient_nw a : never_waits (RemoveRecipient a).
Proof. unfold RemoveRecipient, RemoveSatCounterUnsafe, remove_argument, store_sat. pose proof @remove_if_nw. pose proof @find_if_nw. never_waits. Qed.

Lemma inc_producer_nw key : never_waits (inc_producer key).
Proof. unfold inc_producer, store_entry. never_waits. Qed.

Lemma markOutputsUnsat_nw a l : never_waits (markOutputsUnsat a l).
Proof. unfold markOutputsUnsat, store_sat. never_waits. Qed.

#[export] Hint Resolve AddSatCounterUnsafe_nw RemoveRecipient_nw inc_producer_nw markOutputsUnsat_nw : nw.

Lemma subscribers_loop_nw n l : ∀ q, never_waits (subscribers_loop n l q).
Proof. induction l as [|x l IH]; intros q; cbn; [done|]. apply nw_bind; [|done]. unfold visit_subscriber. never_waits. Qed.

Lemma CreateSatCounterList_nw l : never_waits (CreateSatCounterList l).
Proof.
  unfold CreateSatCounterList. destruct l as [|q l]; [done|]. apply nw_bind; [done|]. intros r. apply nw_bind; [|done].
  revert r. induction l as [|x l IH]; intros r; cbn; unfold store_sat; never_waits.
Qed.

Section filters.
  Context (this : nat) (call : t_extractedCall → AnySharedPointer → Prelude.M AutoPacket unit).
  Context (call_nw : ∀ c o, never_waits (call c o)).

Lemma call_sat_nw a : never_waits (call_sat call a).
Proof. unfold call_sat. never_waits. Qed.

Lemma with_current_nw m : never_waits m → never_waits (with_current this m).
Proof. intros Hm. unfold with_current, SetCurrent. never_waits. Qed.

Lemma call_all_nw l : never_waits (with_current this (for_each (call_sat call) l)).
Proof. apply with_current_nw, nw_for_each. apply call_sat_nw. Qed.

Lemma modifiers_loop_nw key vec l : ∀ q, never_waits (modifiers_loop this call key vec l q).
Proof. pose proof call_all_nw. induction l as [|x l IH]; intros q; cbn; never_waits. Qed.

Lemma UpdateSatisfactionUnsafe_nw fuel : ∀ key, never_waits (UpdateSatisfactionUnsafe this call fuel key).
Proof. pose proof call_all_nw. pose proof modifiers_loop_nw. pose proof subscribers_loop_nw. induction fuel as [|fuel IH]; intros key; cbn; never_waits. Qed.

Lemma AddRecipient_nw fuel d : never_waits (AddRecipient call fuel d).
Proof. unfold AddRecipient, link_counter, store_sat. pose proof call_sat_nw. never_waits. Qed.

Lemma Decorate_nw fuel ptr key : never_waits (Decorate this call fuel ptr key).
Proof. unfold Decorate, DecorateNoPriors. pose proof UpdateSatisfactionUnsafe_nw. never_waits. Qed.

Lemma MarkUnsatisfiable_nw fuel key : never_waits (MarkUnsatisfiable this call fuel key).
Proof. unfold MarkUnsatisfiable. pose proof UpdateSatisfactionUnsafe_nw. never_waits. Qed.

Lemma GetRvalueShared_nw key : never_waits (GetRvalueShared key).
Proof. intros p. unfold GetRvalueShared. by repeat case_match. Qed.

Lemma run_filter_op_nw fuel o : never_waits (run_filter_op this call fuel o).
Proof.
  pose proof Decorate_nw. pose proof MarkUnsatisfiable_nw. pose proof AddRecipient_nw. pose proof GetRvalueShared_nw.
  destruct o; cbn; unfold RemoveDecoration; never_waits.
Qed.

Lemma Initialize_nw fuel : never_waits (Initialize this call fuel).
Proof.
  unfold Initialize. apply nw_bind; [done|]. intros p. apply nw_bind; [|apply call_all_nw].
  generalize (m_firstCounter p). induction fuel as [|fuel IH]; intros [a|]; cbn; never_waits.
Qed.
End filters.

Lemma run_filter_nw this filters fuel : ∀ c o, never_waits (run_filter this filters fuel c o).
Proof. induction fuel as [|fuel IH]; intros c o; cbn; [never_waits|]. pose proof (run_filter_op_nw this _ IH). never_waits. Qed.

Lemma run_packet_op_nw this filters fuel o : never_waits (run_packet_op this filters fuel o).
Proof.
  pose proof (run_filter_nw this filters fuel) as Hf. pose proof (run_filter_op_nw this _ Hf). pose proof (AddRecipient_nw _ Hf).
  destruct o; cbn; never_waits.
Qed.

(** ** Calls *)
Section calls.
  Context (clock : nat → Z) (filters : t_extractedCall → filter_body) (fuel : nat).
  Local Abbreviation exec := (PacketFactory.exec clock filters fuel).
  Local Abbreviation run := (PacketFactory.run clock filters fuel).
  Local Abbreviation go_on := (PacketFactory.go_on clock filters fuel).

Lemma on_packet_nw {A} p (m : Prelude.M AutoPacket A) : never_waits m → never_waits (on_packet p m).
Proof.
  intros Hm. unfold on_packet, load_packet, store_packet. apply nw_bind; [never_waits|]. intros pk. pose proof (Hm (contents pk)) as H.
  destruct (m (contents pk)) as [r k]. apply nw_bind; [done|]. by intros u w.
Qed.

Lemma initialize_nw p l : never_waits (initialize filters fuel p l).
Proof.
  unfold initialize. apply nw_bind; [apply CreateSatCounterList_nw|]. intros f. apply nw_bind; [done|]. intros _. apply Initialize_nw. apply run_filter_nw.
Qed.

Lemma delete_counters_nw : ∀ n o, never_waits (delete_counters n o).
Proof. induction n as [|n IH]; intros [a|]; cbn; never_waits. Qed.

(** Steps that take no lock. *)
Definition lock_free (i : instr) : bool := match i with i_start | i_stop | i_release | i_deleter _ | i_wait => false | _ => true end.

Lemma exec_nw i : lock_free i = true → never_waits (exec i).
Proof.
  pose proof (λ p o, run_packet_op_nw p filters fuel o) as Hu. pose proof initialize_nw as Hi. pose proof delete_counters_nw as Hd.
  pose proof (λ A p m Hm, @on_packet_nw A p m Hm) as Ho.
  destruct i; try done; intros _; cbn; unfold OnStart, OnStop, NewPacket, Initialize_packet, CurrentPacket, drop_packet, free_share, acquire, now,
    ConstructPacket, GetInternalOutstanding, load_packet, store_packet, load_share, store_share, RecordPacketDuration, AddSubscriber, RemoveSubscriber, ResetPacketStatistics;
  repeat first [done|apply nw_stuck; done|apply Ho|apply Hd|apply Hu|apply Hi|progress intros|apply nw_bind|apply nw_catch|apply nw_deref|case_match].
Qed.

(** With the lock free, only a wait may have to wait. *)
Lemma exec_waits i w : m_lock w = false → i ≠ i_wait → (exec i w).1 ≠ Stuck blocked.
Proof.
  intros Hl Hi. destruct (lock_free i) eqn:E; [by apply exec_nw|].
  destruct i; try done; cbn [exec]; unfold Start, Stop, Stop_release, deleter, lock, load_share, store_share; munfold; rewrite Hl; cbn; [by case_match..|done|by destruct (shares w !! b)].
Qed.

(** How many steps a call has at most. *)
Definition steps_left (i : instr) : nat :=
  match i with
  | i_stop => 6 | i_on_stop => 4 | i_new => 6 | i_initialize _ => 5 | i_use _ _ => 2 | i_start => 2
  | i_drop _ => 3 | i_free _ => 2 | _ => 1
  end.
Definition work (l : list instr) : nat := sum_list_with steps_left l.

(** A step is replaced by less. *)
Definition shrinks (n : nat) (m : Prelude.M factory (list instr)) : Prop := ∀ w l w', m w = (Ret l, w') → work l < n.

Lemma shrinks_ret n l : work l < n → shrinks n (mret l).
Proof. by intros Hl w l' w' [= <- _]. Qed.

Lemma shrinks_bind {A} n (m : Prelude.M factory A) k : (∀ x, shrinks n (k x)) → shrinks n (m ≫= k).
Proof. intros Hk w l w' E. munfold. destruct (m w) as [[x|e|r] w1]; try done. by eapply Hk. Qed.

Lemma shrinks_stuck n r : shrinks n (stuck r).
Proof. by intros w l w'. Qed.

Lemma shrinks_catch n (m : Prelude.M factory (list instr)) h : shrinks n m → (∀ e, shrinks n (h e)) → shrinks n (try_catch m h).
Proof. intros Hm Hh w l w' E. unfold try_catch in E. destruct (m w) as [[x|e|r] w1] eqn:E1; try done; [|by eapply Hh]. eapply Hm. by rewrite E1. Qed.

Lemma exec_shrinks i : shrinks (steps_left i) (exec i).
Proof.
  destruct i; cbn; unfold Start, Stop, OnStop, NewPacket, Initialize_packet, CurrentPacket, drop_packet, free_share;
  repeat first [apply shrinks_bind; intros ?|apply shrinks_stuck|case_match|apply shrinks_catch; [|intros ?]|apply shrinks_ret; unfold work; cbn; lia].
Qed.

Lemma work_app l1 l2 : work (l1 ++ l2) = work l1 + work l2.
Proof. apply sum_list_with_app. Qed.

Lemma work_perm l1 l2 : l1 ≡ₚ l2 → work l1 = work l2.
Proof. unfold work. induction 1; cbn; lia. Qed.

(** Steps of all calls that are left. *)
Definition work_left (w : factory) : nat := work (concat (pending w)).

Lemma go_work n w w' : go_on n w = (Ret tt, w') → work_left w' < work_left w.
Proof.
  unfold PacketFactory.go_on. munfold. destruct (pending w !! n) as [[|i rest]|] eqn:Hn; try done.
  destruct (concat_insert (pending w) n (i :: rest) Hn) as (c & Hc & Hins).
  pose proof (exec_shrinks i w) as Hs. pose proof (exec_pending clock filters fuel i w) as Ep. destruct (exec i w) as [[l|e|r] w1] eqn:E; try done.
  intros [= <-]. unfold work_left. cbn in *. rewrite Ep, (work_perm _ _ (Hins _)), (work_perm _ _ Hc), !work_app. specialize (Hs _ _ eq_refl).
  change (work (i :: rest ++ c)) with (steps_left i + work (rest ++ c)). rewrite work_app. lia.
Qed.

End calls.
