(* ===== verification/PacketFactoryClients.v ===== *)
(** * AutoPacketFactory: what its clients see

    The subscribers a packet is made with, the count of outstanding packets, the
    statistics, and a call that races with [Start]. *)
From stdpp Require Import base gmap list sets strings.
From Stdlib Require Import ZArith Lia Sorted.
From S2P Require Import Prelude.
From S2P Require Import AutoFilter.
From S2P Require Import Decoration.
From S2P Require Import AutoPacket.
From S2P Require Import AutoPacketFacts.
From S2P Require Import AutoPacketSpec.
From S2P Require Import PacketFactory.
From S2P Require Import PacketFactoryFacts.
From S2P Require Import PacketFactorySpec.
From S2P Require Import PacketFactoryProgress.
Local Open Scope nat_scope.

(** ** Subscribers *)
(** A client adds or removes a filter. *)
Inductive subscription := s_add (d : AutoFilterDescriptor) | s_remove (d : AutoFilterDescriptor).

Definition subscribe (s : subscription) (l : list AutoFilterDescriptor) : list AutoFilterDescriptor :=
  match s with s_add d => set_insert d l | s_remove d => set_erase d l end.

#[export] Instance same_dec x y : Decision (same x y) := _.

(** Whether [d] is subscribed in the end: the last call about it decides. *)
Fixpoint subscribed (calls : list subscription) (d : AutoFilterDescriptor) : bool :=
  match calls with
  | [] => false
  | s_add x :: l => bool_decide (same x d) || subscribed l d
  | s_remove x :: l => negb (bool_decide (same x d)) && subscribed l d
  end.

(** The set after these calls, the last of them first in the list. *)
Definition subscribers (calls : list subscription) : list AutoFilterDescriptor := foldr subscribe [] calls.

Definition in_set (d : AutoFilterDescriptor) (l : list AutoFilterDescriptor) : Prop := ∃ x, x ∈ l ∧ same x d.

Lemma same_sym x y : same x y → same y x.
Proof. by intros []. Qed.

Lemma same_refl x : same x x.
Proof. pose proof (descriptor_order_strict x x x) as [? _]. by split. Qed.

Lemma same_trans x y z : same x y → same y z → same x z.
Proof.
  intros Hxy Hyz. split.
  - destruct (descriptor_lt x z) eqn:E; [|done]. pose proof (same_before y x z (same_sym _ _ Hxy) E) as H. unfold before in H. destruct Hyz. congruence.
  - destruct (descriptor_lt z x) eqn:E; [|done]. destruct (same_sym _ _ Hxy) as [H1 H2]. destruct (same_sym _ _ Hyz) as [H3 H4].
    pose proof (same_before y z x Hyz E) as H. unfold before in H. congruence.
Qed.

Lemma subscribers_ordered calls : set_ordered (subscribers calls).
Proof. induction calls as [|[d|d] l IH]; cbn; [constructor|by apply set_insert_ordered|by apply set_erase_ordered]. Qed.

Lemma in_insert d x l : in_set d (set_insert x l) ↔ same x d ∨ in_set d l.
Proof.
  split.
  - intros (y & [->|Hy]%set_insert_elem & Hs); [by left|right; by exists y].
  - intros [Hs|(y & Hy & Hs)]; [|exists y; split; [by apply set_insert_old|done]]. destruct (set_insert_in x l) as (y & Hy & Hxy).
    exists y. split; [done|]. eapply same_trans; [by apply same_sym|done].
Qed.

Lemma in_erase d x l : set_ordered l → in_set d (set_erase x l) ↔ ¬ same x d ∧ in_set d l.
Proof.
  intros Ho. split.
  - intros (y & Hy & Hs). apply (set_erase_elem x) in Hy as [Hy Hn]; [|done]. split; [|by exists y]. intros Hx. apply Hn. eapply same_trans; [done|by apply same_sym].
  - intros [Hn (y & Hy & Hs)]. exists y. split; [|done]. apply (set_erase_elem x); [done|]. split; [done|]. intros Hx. apply Hn. by eapply same_trans.
Qed.

Lemma subscribed_spec calls d : in_set d (subscribers calls) ↔ subscribed calls d = true.
Proof.
  induction calls as [|[x|x] l IH]; cbn -[in_set]; [split; [intros (y & Hy & _); by apply elem_of_nil in Hy|done]| |].
  - rewrite in_insert, IH, orb_true_iff, bool_decide_eq_true. done.
  - rewrite in_erase by apply subscribers_ordered. rewrite IH, andb_true_iff, negb_true_iff, bool_decide_eq_false. done.
Qed.

Lemma elem_of_rev {A} (x : A) l : x ∈ rev l ↔ x ∈ l.
Proof. rewrite !list_elem_of_In. symmetry. apply in_rev. Qed.

(** Later in the list of counters, and of a higher number. *)
Definition runs_before (x y : AutoFilterDescriptor) : Prop := descriptor_lt y x = true.

Lemma rev_ordered l : set_ordered l → StronglySorted runs_before (rev l).
Proof.
  induction 1 as [|x l Hl IH Hx]; cbn; [constructor|]. rewrite Forall_forall in Hx.
  assert (∀ y, y ∈ rev l → runs_before y x) as Hr by (intros y Hy; apply Hx; by apply elem_of_rev).
  clear Hl Hx. induction IH as [|y k Hk IH Hy]; cbn; [repeat constructor|]. constructor; [apply IH; intros z Hz; apply Hr; by right|].
  apply Forall_app. split; [done|]. apply Forall_singleton, Hr. left.
Qed.

(** A packet is made with the factory's subscribers.  After any calls of
    [AddSubscriber] and [RemoveSubscriber], the new packet gets a doubly linked list of
    new counters, one for each filter whose last call added it and none for others -
    filters are told apart by altitude, function and object -, each one with all its
    inputs remaining, in the order they are to run: highest altitude (lowest number)
    first. *)
Theorem packet_lists_subscribers (l : list subscription) (p : AutoPacket) :
  pk_inv [] [] [] p →
  ∃ first cs p', CreateSatCounterList (subscribers l) p = (Ret first, p') ∧ counter_list p' None first cs ∧
    NoDup cs.*1 ∧ (∀ a, a ∈ cs.*1 → counters p !! a = None) ∧
    StronglySorted runs_before cs.*2 ∧ StronglySorted (λ x y, (m_altitude x ≤ m_altitude y)%Z) cs.*2 ∧
    (∀ d, subscribed l d = true ↔ ∃ x, x ∈ cs.*2 ∧ same x d).
Proof.
  intros Hp. destruct (create_ok [] [] [] (subscribers l) p Hp) as (first & cs & p' & E & _ & Hl & El & Hnd & _ & Hnew).
  pose proof (rev_ordered _ (subscribers_ordered l)) as Hs. exists first, cs, p'. rewrite El. split_and!; try done.
  - intros a Ha. destruct (counters p !! a) as [s|] eqn:Hc; [|done]. specialize (Hnew a Ha). assert (a < next_sat p) by (apply (pk_fresh _ _ _ _ Hp); by exists s). lia.
  - clear -Hs. induction Hs as [|x k Hk IH Hx]; constructor; [done|]. eapply Forall_impl; [exact Hx|]. intros y. apply before_altitude.
  - intros d. rewrite <-subscribed_spec. unfold in_set. by setoid_rewrite elem_of_rev.
Qed.

(** ** Counting packets *)
Section counts.
  Context (clock : nat → Z) (filters : t_extractedCall → filter_body) (fuel : nat).
  Local Abbreviation run := (PacketFactory.run clock filters fuel).

Lemma idle_work w : Forall (λ l, l = []) (pending w) → concat (pending w) = [].
Proof. by induction 1 as [|x l -> _ IH]. Qed.

(** The packet made in advance is there until the factory is stopped. *)
Lemma next_lives w : ok w → m_shouldStop w = false → cnt lives (packets w) ≠ 0.
Proof.
  intros [H _] Hs. destruct (v_next _ _ H Hs) as [q Hq]. destruct (held_packet _ w q H) as (pk & Hp & Hl & _); [unfold refs; rewrite decide_True by done; lia|].
  apply list_elem_of_lookup_2 in Hp. by apply (cnt_elem lives pk).
Qed.

(** [GetOutstandingPacketCount], when no call is under way: before the factory is
    started it is the greatest [size_t], not zero; until the factory is stopped it is
    the number of packets that clients hold; from then on, as there is no packet in
    advance any more, it is one less than that number, and the greatest [size_t] when
    there is none. *)
Theorem outstanding_packet_count (l : list action) (w : factory) :
  run (c_start :: go 0 :: go 0 :: l) factory_new = Ret w → Forall (λ l, l = []) (pending w) → (Z.of_nat (cnt lives (packets w)) < size_mod)%Z →
  GetOutstandingPacketCount factory_new = size_max ∧
  GetOutstandingPacketCount w =
    if m_shouldStop w then (if Nat.eqb (cnt lives (packets w)) 0 then size_max else Z.of_nat (cnt lives (packets w) - 1))
    else Z.of_nat (cnt lives (packets w) - 1).
Proof.
  rewrite started_run. intros Hr Hp Hlt. split; [done|]. pose proof (factory_run_ok clock filters fuel l started started_ok) as Hok. rewrite Hr in Hok.
  rewrite (counted w Hok). unfold in_flight. rewrite (idle_work w Hp), cnt_nil, Nat.add_0_r.
  assert (cnt lives (packets w) ≠ 0 → sz_sub (Z.of_nat (cnt lives (packets w))) 1 = Z.of_nat (cnt lives (packets w) - 1)) as Hc.
  { intros Hne. unfold sz_sub, sz_wrap, size_mod in *. rewrite Z.mod_small; lia. }
  destruct (m_shouldStop w) eqn:Hs; [|by apply Hc, next_lives]. destruct (Nat.eqb_spec (cnt lives (packets w)) 0) as [->|Hne]; [done|by apply Hc].
Qed.

(** ** Durations *)
(** The square of a packet's duration is computed in a [long long].  It does not
    overflow just when the duration is at most 3037000499 nanoseconds, some three
    seconds; when it does not, it is the square. *)
Theorem square_overflow (d : Z) :
  ((square d).2 = false ↔ (-3037000499 ≤ d ≤ 3037000499)%Z) ∧ ((square d).2 = false → (square d).1 = (d * d)%Z).
Proof.
  unfold square, llong_wrap, llong_mod. cbn [fst snd]. rewrite negb_false_iff, Z.eqb_eq. split; [|done]. split.
  - intros E. assert (-2 ^ 63 ≤ d * d < 2 ^ 63)%Z as [_ Hlt].
    { rewrite <-E. pose proof (Z.mod_pos_bound (d * d + 2 ^ 63) (2 ^ 64) ltac:(lia)). lia. }
    assert (d * d < 3037000500 * 3037000500)%Z by lia. nia.
  - intros Hd. assert (0 ≤ d * d ≤ 3037000499 * 3037000499)%Z by nia. rewrite Z.mod_small; lia.
Qed.

(** The statistics count a packet that was never issued.  When a factory that has
    issued no packet is stopped, the packet made in advance is destroyed and its duration
    recorded, as though it had begun with the clock's epoch, although the count of
    packets is 0; with a clock whose epoch is more than some three seconds ago, the
    square overflows as well. *)
Theorem stop_records_unissued_packet :
  match run [c_start; go 0; go 0; c_stop; go 1; go 1; go 1; go 1; go 1; go 1] factory_new with
  | Ret w => GetOutstandingPacketCount w = size_max ∧ stats w = mkStatistics 0 [clock 0] [(square (clock 0)).1] (square (clock 0)).2 ∧ pending w = [[]; []]
  | _ => False
  end.
Proof. rewrite <-(Z.sub_0_r (clock 0)). destruct fuel; lazy -[square Z.sub GetOutstandingPacketCount size_max]; by split_and!. Qed.
End counts.

(** ** Calls that race *)
(** A call of [NewPacket] may come between [Start] setting the outstanding count and
    [OnStart] making the packet in advance, as the two hold different locks.  The factory
    counts as running then, and the call goes on to initialize a packet that is not
    there. *)
Theorem NewPacket_races_with_Start (clock : nat → Z) (filters : t_extractedCall → filter_body) (fuel : nat) :
  run clock filters fuel [c_start; c_new; go 0; go 1; go 1] factory_new = Stuck undefined_behavior.
Proof. done. Qed.

(** ** Examples *)
Definition ticking : nat → Z := λ n, (4000000000 * Z.of_nat (S n))%Z.
Definition no_filters : t_extractedCall → filter_body := λ _, mkBody [] None.


(** A factory with one packet issued and dropped, stopped while a thread waits for it. *)
Definition stop_all : list action := [c_new; go 1; go 1; c_wait; c_stop; go 3; go 3; go 2; go 3; go 3; go 3; c_drop 0; go 4; go 4; go 4].
Definition example_run (l : list action) : outcome factory := run ticking no_filters 10 (c_start :: go 0 :: go 0 :: l) factory_new.
Definition example_state (l : list action) : factory := match example_run l with Ret w => w | _ => factory_new end.

Lemma packet_factory_winds_down_witness :
  handles (example_state stop_all) = [] ∧ pending (example_state stop_all) !! 2 = Some [i_wait] ∧
  IsRunning (example_state stop_all) = false ∧ shares (example_state stop_all) = [mkShare 0 false].
Proof.
  destruct (packet_factory_winds_down ticking no_filters 10 stop_all (example_state stop_all)) as (_ & Hr & _ & Hs & _);
    [by vm_compute|by vm_compute|by vm_compute|by vm_compute; repeat (constructor; [solve [by left|by right]|])|].
  split_and!; [by vm_compute|by vm_compute|exact Hr|exact Hs].
Defined.


(** Two filters, one of them added twice, a third one added and removed. *)
Definition example_filter (n : nat) : AutoFilterDescriptor := mkDescriptor n (Z.of_nat n) [] false 0 0 n None.
Definition example_calls : list subscription :=
  [s_add (example_filter 1); s_remove (example_filter 3); s_add (example_filter 2); s_add (example_filter 3); s_add (example_filter 1)].

Lemma packet_lists_subscribers_witness :
  subscribers example_calls = [example_filter 2; example_filter 1] ∧
  ∃ first cs p', CreateSatCounterList (subscribers example_calls) AutoPacket_new = (Ret first, p') ∧
    counter_list p' None first cs ∧ (subscribed example_calls (example_filter 3) = true ↔ ∃ x, x ∈ cs.*2 ∧ same x (example_filter 3)).
Proof.
  split; [by vm_compute|].
  destruct (packet_lists_subscribers example_calls AutoPacket_new pk_inv_new) as (first & cs & p' & E & Hl & _ & _ & _ & _ & Hs).
  exists first, cs, p'. split_and!; [exact E|exact Hl|apply Hs].
Defined.

(** A client keeps its packet beyond the end of the factory. *)
Lemma outstanding_packet_count_witness :
  cnt lives (packets (example_state [c_new; go 1; go 1; c_stop; go 2; go 2; go 2; go 2; go 2])) = 1 ∧
  GetOutstandingPacketCount (example_state [c_new; go 1; go 1; c_stop; go 2; go 2; go 2; go 2; go 2]) = 0%Z.
Proof.
  split; [by vm_compute|].
  refine (proj2 (outstanding_packet_count ticking no_filters 10 [c_new; go 1; go 1; c_stop; go 2; go 2; go 2; go 2; go 2] _ _ _ _));
    [by vm_compute|by vm_compute; repeat constructor|by vm_compute].
Defined.
