(* ===== verification/AutoPacketGraphFacts.v ===== *)
(** * AutoPacket: DetectCycle decides whether a filter graph has a cycle

    [feeds p a b]: an output of filter [a] is a decoration filter [b] subscribes
    to.  DetectCycle is a depth-first search; it throws exactly when a cycle can
    be reached from the filter it starts at, and it terminates. *)
From stdpp Require Import base gmap list sets strings relations.
From Stdlib Require Import ZArith Lia.
From S2P Require Import Prelude.
From S2P Require Import AutoFilter.
From S2P Require Import Decoration.
From S2P Require Import AutoPacket.
From S2P Require Import AutoPacketFacts.
From S2P Require Import AutoPacketSpec.

Definition subscribed (p : AutoPacket) (key : auto_id) (b : sat_addr) : Prop :=
  ∃ d, m_decoration_map p !! key = Some d ∧ b ∈ sub_satCounter <$> m_subscribers d.

Definition feeds (p : AutoPacket) (a b : sat_addr) : Prop :=
  ∃ s x, counters p !! a = Some s ∧ x ∈ m_pArgs (descriptor s) ∧ is_output x = true ∧ subscribed p (id x) b.

(** No cycle can be reached from [a]. *)
Definition acyclic_from (R : relation sat_addr) (a : sat_addr) : Prop := ∀ b, rtc R a b → ¬ tc R b b.

Definition reaches_cycle (R : relation sat_addr) (a : sat_addr) : Prop := ∃ b, rtc R a b ∧ tc R b b.

Lemma acyclic_step R a : (∀ c, R a c → acyclic_from R c) → acyclic_from R a.
Proof.
  intros H b Hab Hbb. destruct (rtc_inv _ _ Hab) as [<-|(c & Hac & Hcb)].
  - inversion Hbb as [x y Ha|x c z Hac Hca]; subst; [by apply (H a Ha a)|].
    apply (H c Hac a); [by apply tc_rtc|done].
  - by apply (H c Hac b).
Qed.

Lemma acyclic_mono R a b : acyclic_from R a → rtc R a b → acyclic_from R b.
Proof. intros H Hab c Hbc. apply H. by etrans. Qed.

(** [p'] is [p] with default entries added: what the lookups of a search do. *)
Record same_graph (p p' : AutoPacket) : Prop := {
  sg_counters : counters p' = counters p;
  sg_subscribed : ∀ k b, subscribed p' k b ↔ subscribed p k b }.

Lemma same_graph_refl p : same_graph p p.
Proof. by split. Qed.

Lemma same_graph_trans p q r : same_graph p q → same_graph q r → same_graph p r.
Proof. intros [H1 H2] [H3 H4]. split; [congruence|]. intros k b. by rewrite H4. Qed.

Lemma same_graph_feeds p p' a b : same_graph p p' → feeds p' a b ↔ feeds p a b.
Proof. intros [Hc Hs]. unfold feeds. rewrite Hc. by setoid_rewrite Hs. Qed.

Lemma entry_run key p :
  ∃ d p', entry key p = (Ret d, p') ∧ same_graph p p' ∧
          ∀ b, b ∈ sub_satCounter <$> m_subscribers d ↔ subscribed p key b.
Proof.
  unfold entry, subscribed. destruct (m_decoration_map p !! key) as [d|] eqn:Hd.
  - exists d, p. split_and!; [done|apply same_graph_refl|]. intros b. split; [eauto|]. by intros (d' & [= ->] & ?).
  - eexists _, _. split_and!; [done| |].
    + split; [done|]. intros k b. unfold subscribed. simpl. rewrite lookup_insert. case_decide; [subst|done].
      split; [intros (d & [= <-] & Hb); by apply elem_of_nil in Hb|]. rewrite Hd. by intros (? & ? & ?).
    + intros b. split; [by intros ?%elem_of_nil|]. by intros (? & ? & ?).
Qed.

Lemma collect_next_run args : ∀ acc p,
  ∃ next p', collect_next args acc p = (Ret next, p') ∧ same_graph p p' ∧
    ∀ b, b ∈ next ↔ b ∈ acc ∨ ∃ x, x ∈ args ∧ is_output x = true ∧ subscribed p (id x) b.
Proof.
  induction args as [|x args IH]; intros acc p; cbn [collect_next].
  - exists acc, p. split_and!; [done|apply same_graph_refl|]. set_solver.
  - destruct (is_output x) eqn:Hx.
    + destruct (entry_run (id x) p) as (d & p1 & Hrun & Hg & Hd). rewrite (bind_Ret _ _ _ _ _ Hrun).
      destruct (IH (acc ∪ list_to_set (sub_satCounter <$> m_subscribers d)) p1) as (next & p2 & -> & Hg2 & Hn).
      exists next, p2. split_and!; [done|by eapply same_graph_trans|]. intros b. rewrite Hn.
      rewrite elem_of_union, elem_of_list_to_set, Hd. setoid_rewrite (sg_subscribed _ _ Hg).
      split; [intros [[?|?]|(y & ? & ? & ?)]; [tauto|right; exists x; set_solver|right; exists y; set_solver]|].
      intros [?|(y & [->|Hy]%elem_of_cons & ? & ?)]; [tauto|tauto|right; by exists y].
    + destruct (IH acc p) as (next & p2 & -> & Hg2 & Hn). exists next, p2. split_and!; [done|done|].
      intros b. rewrite Hn. split; [intros [?|(y & ? & ?)]; [tauto|right; exists y; set_solver]|].
      intros [?|(y & [->|Hy]%elem_of_cons & ? & ?)]; [tauto|congruence|right; by exists y].
Qed.

Section search.
  Context (p0 : AutoPacket).
  Hypothesis targets_live : ∀ k b, subscribed p0 k b → live p0 b.

(** What a call of DetectCycle may assume of [tempVisited] and [permVisited]. *)
Record visited_ok (a : sat_addr) (v : gset sat_addr * gset sat_addr) : Prop := {
  vo_temp : ∀ t, t ∈ v.1 → tc (feeds p0) t a ∧ live p0 t;
  vo_perm : ∀ x, x ∈ v.2 → acyclic_from (feeds p0) x }.

Definition search_result (a : sat_addr) (temp : gset sat_addr)
    (r : outcome (gset sat_addr * gset sat_addr) * AutoPacket) : Prop :=
  same_graph p0 r.2 ∧
  match r.1 with
  | Ret v => v.1 = temp ∧ acyclic_from (feeds p0) a ∧ ∀ x, x ∈ v.2 → acyclic_from (feeds p0) x
  | Throw e => e = cycle_error ∧ reaches_cycle (feeds p0) a
  | Stuck _ => False
  end.

(** The loop over [nextCounters], given the recursive calls. *)
Lemma search_loop (rec : sat_addr → gset sat_addr * gset sat_addr → M AutoPacket (gset sat_addr * gset sat_addr))
    a temp l :
  (∀ c v p, same_graph p0 p → feeds p0 a c → v.1 = temp → (∀ x, x ∈ v.2 → acyclic_from (feeds p0) x) →
            search_result c temp (rec c v p)) →
  ∀ v p, same_graph p0 p → (∀ c, c ∈ l → feeds p0 a c) → v.1 = temp →
    (∀ x, x ∈ v.2 → acyclic_from (feeds p0) x) →
    let r := (fix loop l v := match l with
              | [] => mret v
              | c :: l' => v' ← rec c v; loop l' v'
              end) l v p in
    same_graph p0 r.2 ∧
    match r.1 with
    | Ret v' => v'.1 = temp ∧ (∀ c, c ∈ l → acyclic_from (feeds p0) c) ∧ ∀ x, x ∈ v'.2 → acyclic_from (feeds p0) x
    | Throw e => e = cycle_error ∧ reaches_cycle (feeds p0) a
    | Stuck _ => False
    end.
Proof.
  intros Hrec. induction l as [|c l IH]; intros v p Hg Hl Ht Hp; simpl.
  { split; [done|]. split_and!; [done|by intros ? ?%elem_of_nil|done]. }
  destruct (Hrec c v p Hg (Hl c ltac:(left)) Ht Hp) as [Hg1 Hr].
  munfold. destruct (rec c v p) as [[v1|e|r] p1]; simpl in *; [|split; [done|]|done].
  - destruct Hr as (Ht1 & Hc & Hp1).
    destruct (IH v1 p1 Hg1 (λ c' Hc', Hl c' (list_elem_of_further _ _ _ Hc')) Ht1 Hp1) as [Hg2 Hr2].
    split; [done|]. match type of Hr2 with context [?f l v1 p1] => destruct (f l v1 p1) as [[v2|e|r] p2] end;
      simpl in *; [|done|done].
    destruct Hr2 as (? & Hl2 & ?). split_and!; [done| |done]. intros c' [->|Hc']%elem_of_cons; [done|by apply Hl2].
  - destruct Hr as (-> & b & Hcb & Hbb). split; [done|]. exists b. split; [|done].
    eapply rtc_l; [|exact Hcb]. apply Hl. left.
Qed.

Lemma DetectCycle_search fuel : ∀ a v p,
  same_graph p0 p → live p0 a → visited_ok a v →
  size (dom (counters p0)) ≤ size v.1 + fuel →
  search_result a v.1 (DetectCycle fuel a v p).
Proof.
  assert (∀ a v, a ∉ v.1 → visited_ok a v → live p0 a → size v.1 < size (dom (counters p0))) as Hsize.
  { intros a v Ha Hv Hl. assert ({[a]} ∪ v.1 ⊆ dom (counters p0)) as Hsub.
    { intros x [->%elem_of_singleton|Hx]%elem_of_union; apply elem_of_dom; [done|by apply (vo_temp _ _ Hv)]. }
    apply subseteq_size in Hsub. rewrite size_union, size_singleton in Hsub by set_solver. lia. }
  induction fuel as [|fuel IH]; intros a v p Hg Ha Hv Hfuel; cbn [DetectCycle]; case_bool_decide as Htemp;
    [split; [done|]; split; [done|]; exists a; split; [constructor|by apply (vo_temp _ _ Hv)]| |
     split; [done|]; split; [done|]; exists a; split; [constructor|by apply (vo_temp _ _ Hv)]|];
    (case_bool_decide as Hperm; [split; [done|]; split_and!; [done|by apply (vo_perm _ _ Hv)|apply (vo_perm _ _ Hv)]|]);
    [specialize (Hsize a v Htemp Hv Ha); lia|].
  pose proof Ha as [s Hs].
  assert (counters p !! a = Some s) as Hs' by by rewrite (sg_counters _ _ Hg).
  rewrite (bind_Ret _ _ _ s p) by (unfold load_sat; munfold; by rewrite Hs').
  destruct (collect_next_run (m_pArgs (descriptor s)) ∅ p) as (next & p1 & Hrun & Hg1 & Hn).
  rewrite (bind_Ret _ _ _ _ _ Hrun).
  assert (same_graph p0 p1) as Hg01 by by eapply same_graph_trans.
  assert (∀ c, c ∈ next ↔ feeds p0 a c) as Hnext.
  { intros c. rewrite Hn. unfold feeds. setoid_rewrite (sg_subscribed _ _ Hg). split.
    - intros [Hc|(x & ? & ? & ?)]; [by apply elem_of_empty in Hc|]. by exists s, x.
    - intros (s' & x & Hs2 & ? & ? & ?). right. exists x. by simplify_eq. }
  case_bool_decide as Hempty.
  { split; [done|]. split_and!; [done| |apply (vo_perm _ _ Hv)]. apply acyclic_step.
    intros c Hc. apply Hnext in Hc. set_solver. }
  destruct (search_loop (DetectCycle fuel) a ({[a]} ∪ v.1) (elements next)) with (v := ({[a]} ∪ v.1, v.2)) (p := p1)
    as [Hg2 Hr]; [|done|by intros c Hc%elem_of_elements; apply Hnext|done|apply (vo_perm _ _ Hv)|].
  { intros c v' p' Hg' Hc Hv' Hp'. rewrite <-Hv'. apply IH; [done| | |].
    - destruct Hc as (s' & x & _ & _ & _ & Hsub). by eapply targets_live.
    - split; [|done]. rewrite Hv'. intros t [->%elem_of_singleton|Ht]%elem_of_union.
      + split; [by apply tc_once|done].
      + destruct (vo_temp _ _ Hv t Ht). split; [|done]. by eapply tc_r.
    - rewrite Hv', size_union, size_singleton by set_solver. lia. }
  match type of Hr with context [?f (elements next) ?w p1] =>
    destruct (f (elements next) w p1) as [[v'|e|r] p2] eqn:Hloop end; simpl in Hg2, Hr; [| |done].
  2: { rewrite (bind_Throw _ _ _ _ _ Hloop). by split. }
  rewrite (bind_Ret _ _ _ _ _ Hloop).
  destruct Hr as (Ht & Hall & Hp). split; [done|].
  assert (acyclic_from (feeds p0) a) as Hac.
  { apply acyclic_step. intros c Hc. apply Hall, elem_of_elements. by apply Hnext. }
  split_and!; [cbn [fst]; rewrite Ht; set_solver|done|].
  cbn [snd]. intros x [->%elem_of_singleton|Hx]%elem_of_union; [done|by apply Hp].
Qed.
End search.

(** C32. DetectCycle decides the graph.  On any well-formed packet and any of its
    counters, with as much fuel as there are counters, the search ends; it
    returns normally exactly when no cycle of filters can be reached, throws the
    cycle error exactly when one can, and changes nothing of the graph. *)
Theorem DetectCycle_correct p a fuel :
  pk_inv [] [] [] p → live p a → size (dom (counters p)) ≤ fuel →
  let r := DetectCycle fuel a (∅, ∅) p in
  same_graph p r.2 ∧
  ((is_ret r.1 = true ∧ acyclic_from (feeds p) a) ∨
   (r.1 = Throw cycle_error ∧ reaches_cycle (feeds p) a)).
Proof.
  intros H Ha Hfuel.
  assert (∀ k b, subscribed p k b → live p b) as Hl.
  { intros k b (d & Hd & Hb). apply (pk_refs _ _ _ _ H k d b Hd). unfold refs. set_solver. }
  assert (visited_ok p a (∅, ∅)) as Hv by (split; by intros t ?%elem_of_empty).
  destruct (DetectCycle_search p Hl fuel a (∅, ∅) p (same_graph_refl p) Ha Hv) as [Hg Hr]; [simpl; lia|].
  split; [done|]. destruct (DetectCycle _ _ _ p) as [[v|e|r] p']; simpl in *; [left; naive_solver|right; naive_solver|done].
Qed.

(** Filter 0 turns decoration 1 into 2 and filter 1 turns 2 into [k]. *)
Definition two_filters (k : auto_id) : list packet_op :=
  let filter o i j := AutoFilterDescriptor_new (Some o) 9 altitude_Standard
    [mkArg true false false false false i; mkArg false true false false false j] false 0 in
  [p_do (f_add (filter 0 1 2)); p_do (f_add (filter 1 2 k))].

Definition packet_of (l : list packet_op) : AutoPacket :=
  (run_packet_ops 0 (λ _, mkBody [] None) 6 l AutoPacket_new).2.

Lemma packet_of_inv l :
  is_ret (run_packet_ops 0 (λ _, mkBody [] None) 6 l AutoPacket_new).1 = true → pk_inv [] [] [] (packet_of l).
Proof.
  intros Hr. pose proof (run_packet_ops_safe 0 (λ _, mkBody [] None) 6 l _ pk_inv_new) as H.
  unfold packet_of. by destruct (run_packet_ops _ _ _ _ _) as [[]].
Qed.

Lemma DetectCycle_correct_witness :
  acyclic_from (feeds (packet_of (two_filters 3))) 0 ∧ reaches_cycle (feeds (packet_of (two_filters 1))) 0.
Proof.
  split.
  - destruct (DetectCycle_correct (packet_of (two_filters 3)) 0 2) as [_ [[_ H]|[H _]]];
      [apply packet_of_inv; reflexivity|eexists; vm_compute; reflexivity|apply Nat.leb_le; vm_compute; reflexivity
      |exact H|vm_compute in H; discriminate].
  - destruct (DetectCycle_correct (packet_of (two_filters 1)) 0 2) as [_ [[H _]|[_ H]]];
      [apply packet_of_inv; reflexivity|eexists; vm_compute; reflexivity|apply Nat.leb_le; vm_compute; reflexivity
      |vm_compute in H; discriminate|exact H].
Defined.
