(* ===== verification/AutoPacketExamples.v ===== *)
(** * AutoPacket: completed decorations are final, and runs that go wrong

    [has_value key l p]: the decoration [key] is complete with the decorations
    [l].  As long as nobody marks, removes or takes it, no operation changes it.
    The runs at the end evaluate the model where the code misbehaves. *)
From stdpp Require Import base gmap list sets strings.
From Stdlib Require Import ZArith Lia.
From S2P Require Import Prelude.
From S2P Require Import AutoFilter.
From S2P Require Import Decoration.
From S2P Require Import AutoPacket.
From S2P Require Import AutoPacketFacts.
From S2P Require Import AutoPacketSpec.

Definition has_value (key : auto_id) (l : list AnySharedPointer) (p : AutoPacket) : Prop :=
  ∃ d, m_decoration_map p !! key = Some d ∧ m_state d = Complete ∧ m_decorations d = l.

Section final.
  Context (key : auto_id) (l : list AnySharedPointer).
Let J := has_value key l.

Lemma entry_final k : preserves J (entry k).
Proof.
  intros p H. unfold entry. destruct (m_decoration_map p !! k) eqn:Hk; [done|].
  destruct H as (d & Hd & ?). exists d. simpl. rewrite lookup_insert_ne by congruence. done.
Qed.

(** An update that keeps the state and the decorations. *)
Lemma update_entry_final k f :
  (∀ d, m_state d = Complete → m_state (f d) = Complete ∧ m_decorations (f d) = m_decorations d) →
  preserves J (update_entry k f).
Proof.
  intros Hf p (d & Hd & Hs & Hl). unfold update_entry, entry, store_entry. munfold.
  destruct (m_decoration_map p !! k) as [d'|] eqn:Hk; simpl.
  - destruct (decide (k = key)) as [->|].
    + rewrite Hd in Hk. injection Hk as <-. destruct (Hf d Hs) as [??]. exists (f d). simpl.
      rewrite lookup_insert_eq. split_and!; congruence.
    + exists d. simpl. by rewrite lookup_insert_ne.
  - exists d. simpl. rewrite !lookup_insert_ne by congruence. done.
Qed.

Lemma store_sat_final a s : preserves J (store_sat a s).
Proof. apply preserves_modify. intros p H. exact H. Qed.
Lemma load_sat_final a : preserves J (load_sat a).
Proof. apply preserves_bind; auto with aw. Qed.
Lemma sat_Decrement_final a : preserves J (sat_Decrement a).
Proof.
  apply preserves_bind; [apply load_sat_final|intros s].
  apply preserves_bind; [apply store_sat_final|auto with aw].
Qed.

Lemma inc_producer_final k : preserves J (inc_producer k).
Proof.
  pose proof (update_entry_final k (λ d, (IncProducerCount d).2)) as Hu.
  intros p H. specialize (Hu ltac:(intros d Hd; destruct (IncProducerCount_fields d) as (_ & ? & _);
    by destruct (IncProducerCount_complete d Hd)) p H).
  unfold inc_producer, update_entry in *. munfold. by destruct (entry k p) as [[] ?].
Qed.

Context (this : nat) (call_filter : t_extractedCall → AnySharedPointer → M AutoPacket unit).
Hypothesis call_filter_final : ∀ c o, preserves J (call_filter c o).

Lemma call_sat_final a : preserves J (call_sat call_filter a).
Proof using call_filter_final.
  apply preserves_bind; [apply load_sat_final|intros s].
  apply preserves_bind; [by apply preserves_modify|intros _; apply call_filter_final].
Qed.

Lemma calls_final q : preserves J (with_current this (for_each (call_sat call_filter) q)).
Proof using call_filter_final.
  apply preserves_bind; [by intros p H|intros c]. apply preserves_at_exit.
  - apply preserves_bind; [by intros p H|auto with aw].
  - apply preserves_for_each. intros a _. apply call_sat_final.
Qed.

Lemma markOutputsUnsat_final a u : preserves J (markOutputsUnsat a u).
Proof.
  apply preserves_bind; [apply load_sat_final|intros s]. destruct (Nat.eqb _ _); [auto with aw|].
  apply preserves_bind; [apply store_sat_final|auto with aw].
Qed.

Lemma visit_subscriber_final n s q : preserves J (visit_subscriber n s q).
Proof.
  assert (preserves J (b ← sat_Decrement (sub_satCounter s);
    mret (if b : bool then q.1 ++ [sub_satCounter s] else q.1, q.2))) as Hc.
  { apply preserves_bind; [apply sat_Decrement_final|auto with aw]. }
  unfold visit_subscriber. destruct n as [|[|n]]; [|done|destruct (sub_type s); [auto with aw..|done]].
  apply preserves_bind; [apply load_sat_final|intros c]. destruct (Nat.eqb _ _); [auto with aw|].
  destruct (sub_type s); [|done..]. apply preserves_bind; [apply markOutputsUnsat_final|auto with aw].
Qed.

Lemma subscribers_loop_final n subs : ∀ q, preserves J (subscribers_loop n subs q).
Proof.
  induction subs as [|s subs IH]; intros q; simpl; [auto with aw|].
  apply preserves_bind; [apply visit_subscriber_final|done].
Qed.

Lemma modifiers_loop_final k vec mods : ∀ q, preserves J (modifiers_loop this call_filter k vec mods q).
Proof using call_filter_final.
  induction mods as [|m mods IH]; intros q; simpl; [auto with aw|]. destruct (mod_is_shared m).
  - apply preserves_bind; [apply sat_Decrement_final|]. intros []; [|done].
    apply preserves_bind; [apply calls_final|intros _]. apply preserves_bind; [apply entry_final|intros d].
    destruct (bool_decide _); [done|auto with aw].
  - apply preserves_bind; [apply entry_final|intros d]. destruct (length _) as [|[|n]]; [..|auto with aw].
    + apply preserves_bind; [apply markOutputsUnsat_final|done].
    + apply preserves_bind; [apply sat_Decrement_final|done].
Qed.

Lemma UpdateSatisfactionUnsafe_final fuel : ∀ k, preserves J (UpdateSatisfactionUnsafe this call_filter fuel k).
Proof using call_filter_final.
  induction fuel as [|fuel IH]; intros k; simpl; apply preserves_bind; try apply entry_final; intros d;
    (destruct (negb _); [auto with aw|]); (destruct (_ && _); [auto with aw|]);
    (apply preserves_bind; [apply modifiers_loop_final|intros q]);
    (apply preserves_bind; [apply entry_final|intros d']);
    (apply preserves_bind; [apply subscribers_loop_final|intros q']);
    (apply preserves_bind; [apply calls_final|intros _]);
    apply preserves_for_each; intros o _; apply preserves_bind; try apply inc_producer_final;
    intros []; auto with aw.
Qed.

Lemma DecorateNoPriors_final fuel ptr k : preserves J (DecorateNoPriors this call_filter fuel ptr k).
Proof using call_filter_final.
  intros p H. unfold DecorateNoPriors.
  pose proof (entry_final k p H) as H1. destruct (entry k p) as [[d|e|r] p1] eqn:He; simpl in H1;
    [rewrite (bind_Ret _ _ _ _ _ He)|by munfold; rewrite He..].
  case_bool_decide as Hc; [done|]. revert p1 He H1.
  destruct (decide (k = key)) as [->|Hne].
  - intros p1 He _. destruct H as (d' & Hd & Hs & _). unfold entry in He. rewrite Hd in He. congruence.
  - intros p1 _ H1. revert p1 H1. change (preserves J
      (when (bool_decide (is_Some ptr)) (update_entry k (λ d, set_decorations (m_decorations d ++ [ptr]) d));;
       b ← inc_producer k;
       if b : bool then UpdateSatisfactionUnsafe this call_filter fuel k else mret tt)).
    apply preserves_bind.
    + apply preserves_when. intros p1 (d1 & Hd1 & ?). unfold update_entry, entry, store_entry. munfold.
      exists d1. destruct (m_decoration_map p1 !! k); simpl; rewrite ?lookup_insert_ne by done; done.
    + intros _. apply preserves_bind; [apply inc_producer_final|].
      intros []; [apply UpdateSatisfactionUnsafe_final|auto with aw].
Qed.
End final.

(** Filters that only decorate. *)
Definition only_decorates (b : filter_body) : Prop := ∀ o, o ∈ ops b → ∃ ptr k, o = f_decorate ptr k.

Lemma run_filter_final this filters key l fuel : ∀ c o,
  (∀ c, only_decorates (filters c)) → preserves (has_value key l) (run_filter this filters fuel c o).
Proof.
  induction fuel as [|fuel IH]; intros c o Hf; simpl; [apply preserves_stuck|].
  apply preserves_bind; [|intros _; destruct (raises _); auto with aw].
  apply preserves_for_each. intros x Hx. destruct (Hf c x Hx) as (ptr & k & ->). simpl.
  apply DecorateNoPriors_final. intros c' o'. by apply IH.
Qed.

(** A completed decoration is final.  Once a decoration of a packet is
    complete, no further Decorate on the packet, of any type and with any
    re-entrant filters that decorate in turn, and however it ends, changes its
    decorations or its state; so every later Get gives the same answer, and
    decorating that type again throws and changes nothing. *)
Theorem completed_decoration_is_final this filters fuel ptr k key l p :
  (∀ c, only_decorates (filters c)) → has_value key l p →
  has_value key l (Decorate this (run_filter this filters fuel) fuel ptr k p).2 ∧
  (k = key → Decorate this (run_filter this filters fuel) fuel ptr k p
             = (Throw (if bool_decide (l = []) then unsatisfiable_error else already_satisfied_error), p)).
Proof.
  intros Hf H. split.
  - apply DecorateNoPriors_final; [|done]. intros c o. by apply run_filter_final.
  - intros ->. destruct H as (d & Hd & Hs & Hl). unfold Decorate, DecorateNoPriors, entry. munfold.
    rewrite Hd, bool_decide_true by done. by rewrite Hl.
Qed.

Lemma completed_decoration_is_final_witness :
  let p := (Decorate 0 (run_filter 0 (λ _, mkBody [] None) 1) 1 (Some 7) 5 AutoPacket_new).2 in
  has_value 5 [Some 7] p ∧
  has_value 5 [Some 7] (Decorate 0 (run_filter 0 (λ _, mkBody [] None) 1) 1 (Some 8) 6 p).2.
Proof.
  assert (has_value 5 [Some 7]
    (Decorate 0 (run_filter 0 (λ _, mkBody [] None) 1) 1 (Some 7) 5 AutoPacket_new).2) as H.
  { eexists. vm_compute. split; [reflexivity|split; reflexivity]. }
  split; [exact H|].
  apply (completed_decoration_is_final 0 (λ _, mkBody [] None) 1 (Some 8) 6 5 [Some 7]); [|exact H].
  intros c o Ho. exfalso. revert Ho. apply not_elem_of_nil.
Defined.

(** ** Runs that go wrong *)
Definition arg_in (k : auto_id) : AutoFilterArgument := mkArg true false false false false k.
Definition arg_shared_in (k : auto_id) : AutoFilterArgument := mkArg true false false true false k.
Definition quiet : t_extractedCall → AnySharedPointer → M AutoPacket unit := λ _ _, mret tt.

(** A filter that takes decoration 1 by shared pointer and decoration 2 by
    reference is invoked when 1 is marked unsatisfiable twice: each mark
    decrements its counter, although 2 was never decorated. *)
Theorem mark_twice_invokes_unsatisfied_filter :
  let d := AutoFilterDescriptor_new (Some 0) 9 altitude_Standard [arg_shared_in 1; arg_in 2] false 0 in
  let m := (_ ← AddRecipient quiet 4 d; MarkUnsatisfiable 0 quiet 4 1;; MarkUnsatisfiable 0 quiet 4 1) in
  calls (m AutoPacket_new).2 = [0] ∧ Get 2 (m AutoPacket_new).2 = Throw not_decorated_error.
Proof. vm_compute. split; reflexivity. Qed.

(** DecorateImmediate of types 1 and 2 where 2 is already on the packet
    throws, and leaves 1 complete with the immediate pointer still set: later
    reads follow a pointer to an object that is gone. *)
Theorem failed_immediate_stays_visible :
  let m := (Decorate 0 quiet 4 (Some 5) 2;; DecorateImmediate 0 quiet 4 [(1, 77); (2, 78)]) in
  is_ret (m AutoPacket_new).1 = false ∧ Get 1 (m AutoPacket_new).2 = Ret 77.
Proof. vm_compute. split; reflexivity. Qed.

(** Removing the most recently added recipient does not take it off the list
    (its head is not updated): adding an equal filter again returns the stale
    counter and subscribes nothing, so the filter is never invoked. *)
Theorem removed_head_blocks_readding :
  let d := AutoFilterDescriptor_new (Some 0) 9 altitude_Standard [arg_in 1] false 0 in
  let m := (a ← AddRecipient quiet 4 d; RemoveRecipient a;;
            b ← AddRecipient quiet 4 d; Decorate 0 quiet 4 (Some 5) 1;; mret (a, b)) in
  (m AutoPacket_new).1 = Ret (0, 0) ∧ calls (m AutoPacket_new).2 = [] ∧
  HasSubscribers 1 (m AutoPacket_new).2 = false.
Proof. vm_compute. split_and!; reflexivity. Qed.
