(* ===== verification/Once.v ===== *)
(** * once and once_signal: a flag that is set once and calls its listeners

    The operations of src/src/autowiring/once.h and once.cpp on a flag that lives
    somewhere in a larger state: [load] and [store] read and write it, [call]
    runs a listener.  A listener is known by the address of its callable, here a
    registration number.  The spin lock guards single steps and is not modelled:
    one thread runs at a time. *)
From stdpp Require Import base gmap list strings.
From Stdlib Require Import ZArith Lia.
From S2P Require Import Prelude.

(** [once::state]. *)
Inductive once_state := unsignalled | signalling | signalled.

#[export] Instance once_state_eq_dec : EqDecision once_state.
Proof. solve_decision. Defined.

(** The flag and [m_fns]: the registrations with their listeners. *)
Record once (H : Type) := mkOnce {
  once_m_state : once_state;
  m_fns : list (nat * H);
  next_registration : nat }.
Arguments mkOnce {H} _ _ _.
Arguments once_m_state {H} _.
Arguments m_fns {H} _.
Arguments next_registration {H} _.

Definition once_new {H} : once H := mkOnce unsignalled [] 0.

(** [once::get]. *)
Definition once_get {H} (o : once H) : bool :=
  match once_m_state o with unsignalled => false | _ => true end.

(** [once::is_executing]. *)
Definition once_is_executing {H} (o : once H) : bool :=
  match once_m_state o with signalling => true | _ => false end.

(** [once(once&& rhs)]: the new flag and what is left of [rhs]. *)
Definition once_move {H} (rhs : once H) : once H * once H :=
  (mkOnce (once_m_state rhs) (m_fns rhs) (next_registration rhs),
   mkOnce (once_m_state rhs) [] (next_registration rhs)).

(** The loop of [operator-=]: from the last index [i - 1] down; the element found
    is overwritten with the last one, which is popped. *)
Fixpoint swap_remove {H} (i : nat) (r : nat) (l : list (nat * H)) : option (list (nat * H)) :=
  match i with
  | 0 => None
  | S i' =>
    match l !! i', last l with
    | Some f, Some b =>
      if Nat.eqb f.1 r then Some (take (length l - 1) (<[i' := b]> l)) else swap_remove i' r l
    | _, _ => None
    end
  end.

Definition unregister_error : exn :=
  runtime_error "Attempted to unregister a once signal that was not created on this object.".
Definition once_false_error : exn :=
  runtime_error "Cannot set a once flag to any value other than true".

Section once.
  Context {S H : Type} (load : M S (once H)) (store : once H → M S unit) (call : H → M S unit).

(** [operator+=]: the registration, none when the listener was called at once. *)
Definition once_append (h : H) : M S (option nat) :=
  o ← load;
  if once_get o then call h;; mret None
  else
    let r := next_registration o in
    store (mkOnce (once_m_state o) (m_fns o ++ [(r, h)]) (Datatypes.S r));; mret (Some r).

(** [operator-=]. *)
Definition once_remove (r : nat) : M S bool :=
  o ← load;
  if once_get o then mret false
  else match swap_remove (length (m_fns o)) r (m_fns o) with
       | Some l => store (mkOnce (once_m_state o) l (next_registration o));; mret true
       | None => throw unregister_error
       end.

(** [signal], [operator()]. *)
Definition once_signal : M S unit :=
  o ← load;
  if once_get o then mret tt
  else
    store (mkOnce signalling (m_fns o) (next_registration o));;
    for_each (λ f, call f.2) (m_fns o);;
    o ← load;
    store (mkOnce signalled [] (next_registration o)).

(** [operator=(bool)]. *)
Definition once_assign (rhs : bool) : M S unit :=
  if rhs then once_signal else throw once_false_error.
End once.

(** ** Removing a registration *)
Lemma swap_remove_none {H} i r (l : list (nat * H)) :
  i ≤ length l → swap_remove i r l = None ↔ r ∉ (take i l).*1.
Proof.
  induction i as [|i IH]; intros Hi; simpl; [split; [intros _; apply not_elem_of_nil|done]|].
  destruct (lookup_lt_is_Some_2 l i) as [f Hf]; [lia|]. rewrite Hf.
  destruct (last l) as [b|] eqn:Hb; [|apply last_None in Hb as ->; by rewrite lookup_nil in Hf].
  rewrite (take_S_r _ _ _ Hf), fmap_app, not_elem_of_app. simpl.
  destruct (Nat.eqb_spec f.1 r) as [<-|n]; [split; [done|intros [_ []]; by left]|].
  rewrite IH by lia. split; [|tauto]. intros ?. split; [done|]. by intros ->%list_elem_of_singleton.
Qed.

Lemma swap_remove_some {H} i r (l l' : list (nat * H)) :
  swap_remove i r l = Some l' → ∃ h, l ≡ₚ (r, h) :: l'.
Proof.
  induction i as [|i IH]; simpl; [done|].
  destruct (l !! i) as [[q h]|] eqn:Hf; [|done]. destruct (last l) as [b|] eqn:Hb; [|done]. simpl.
  destruct (Nat.eqb_spec q r) as [->|n]; [|exact IH]. intros [= <-]. exists h.
  apply last_Some in Hb as [k ->]. rewrite length_app. simpl.
  replace (length k + 1 - 1) with (length k) by lia.
  destruct (decide (i < length k)) as [Hlt|Hge].
  - rewrite lookup_app_l in Hf by done. rewrite insert_app_l by done.
    rewrite take_app_length' by (by rewrite length_insert).
    rewrite <-(take_drop_middle _ _ _ Hf) at 1. rewrite insert_take_drop by done.
    rewrite <-app_assoc, <-app_comm_cons, <-Permutation_middle. f_equiv.
    rewrite !app_assoc. by rewrite Permutation_app_comm, <-Permutation_middle.
  - assert (i = length k) as ->.
    { apply lookup_lt_Some in Hf. rewrite length_app in Hf. simpl in Hf. lia. }
    rewrite list_lookup_middle in Hf by done. injection Hf as ->.
    rewrite insert_app_r_alt by lia. rewrite Nat.sub_diag. simpl. rewrite take_app_length. by rewrite Permutation_app_comm.
Qed.

Lemma swap_remove_found {H} r (l : list (nat * H)) :
  r ∈ l.*1 → ∃ l' h, swap_remove (length l) r l = Some l' ∧ l ≡ₚ (r, h) :: l'.
Proof.
  intros Hr. destruct (swap_remove (length l) r l) as [l'|] eqn:E.
  - destruct (swap_remove_some _ _ _ _ E) as [h ?]. by exists l', h.
  - apply swap_remove_none in E; [|done]. by rewrite firstn_all in E.
Qed.

(** ** Every listener is called exactly once *)
(** A client of a flag of its own; listeners only leave a trace. *)
Inductive once_op := o_append | o_remove (r : nat) | o_signal.

#[export] Instance once_op_eq_dec : EqDecision once_op.
Proof. solve_decision. Defined.

(** The flag, the listeners called so far (by the number of their registration)
    and those removed. *)
Record once_world := mkOnceWorld { flag : once nat; heard : list nat; removed : list nat }.

Definition once_world_new : once_world := mkOnceWorld once_new [] [].

Definition load_flag : M once_world (once nat) := gets flag.
Definition store_flag (o : once nat) : M once_world unit := modify (λ w, mkOnceWorld o (heard w) (removed w)).
Definition hear (n : nat) : M once_world unit := modify (λ w, mkOnceWorld (flag w) (heard w ++ [n]) (removed w)).

(** The listener of the [n]-th registration is [n]. *)
Definition run_once_op (n : nat) (o : once_op) : M once_world unit :=
  match o with
  | o_append => _ ← once_append load_flag store_flag hear n; mret tt
  | o_remove r =>
    b ← once_remove load_flag store_flag r;
    if b : bool then modify (λ w, mkOnceWorld (flag w) (heard w) (removed w ++ [r])) else mret tt
  | o_signal => once_signal load_flag store_flag hear
  end.

(** [n] counts the appends; the client goes on after an exception. *)
Fixpoint run_once (n : nat) (l : list once_op) : M once_world unit :=
  match l with
  | [] => mret tt
  | o :: l' => try_catch (run_once_op n o) (λ _, mret tt);;
               run_once (match o with o_append => S n | _ => n end) l'
  end.

Definition is_append (o : once_op) : bool := match o with o_append => true | _ => false end.
Definition appends (l : list once_op) : nat := length (base.filter is_append l).

(** What holds after [n] appends. *)
Record once_ok (n : nat) (w : once_world) : Prop := {
  on_all : heard w ++ removed w ++ (m_fns (flag w)).*2 ≡ₚ seq 0 n;
  on_idle : once_is_executing (flag w) = false;
  on_set : once_get (flag w) = true → m_fns (flag w) = [];
  on_unset : once_get (flag w) = false → heard w = [] ∧ next_registration (flag w) = n ∧
             ∀ f, f ∈ m_fns (flag w) → f.1 = f.2 }.

Lemma hear_all l w : for_each (λ f : nat * nat, hear f.2) l w =
  (Ret tt, mkOnceWorld (flag w) (heard w ++ l.*2) (removed w)).
Proof.
  revert w. induction l as [|f l IH]; intros w; cbn [for_each]; [by rewrite app_nil_r; destruct w|].
  erewrite bind_Ret; [|done]. rewrite IH. simpl. by rewrite <-app_assoc.
Qed.

Lemma append_run n w : once_ok n w →
  ∃ w', run_once_op n o_append w = (Ret tt, w') ∧ once_ok (S n) w' ∧ once_get (flag w') = once_get (flag w).
Proof.
  intros [Ha Hi Hs Hu]. unfold run_once_op, once_append, load_flag, store_flag, hear.
  munfold. destruct (once_get (flag w)) eqn:E.
  - eexists. split; [done|]. split; [|done]. specialize (Hs eq_refl).
    rewrite Hs in Ha. split; cbn [flag heard removed]; rewrite ?E, ?Hs; try done.
    rewrite seq_S, <-Ha. simpl. rewrite !app_nil_r, <-!app_assoc. f_equiv. apply Permutation_app_comm.
  - eexists. split; [done|]. destruct (Hu eq_refl) as (Hh & Hn & Hf). unfold once_get in *. simpl.
    destruct (once_m_state (flag w)) eqn:Es; try done. split; [|by rewrite ?Es]. split; cbn [flag heard removed m_fns]; try done.
    + rewrite seq_S, <-Ha, fmap_app. simpl. by rewrite !app_assoc.
    + intros _. split_and!; [done|by rewrite Hn|]. intros f [Hin| ->%list_elem_of_singleton]%elem_of_app; [by apply Hf|]. simpl. congruence.
Qed.

Lemma remove_run n r w : once_ok n w →
  ∃ w', try_catch (run_once_op n (o_remove r)) (λ _, mret tt) w = (Ret tt, w') ∧ once_ok n w' ∧
        once_get (flag w') = once_get (flag w).
Proof.
  intros Hw. pose proof Hw as [Ha Hi Hs Hu]. unfold run_once_op, once_remove, load_flag, store_flag, try_catch. munfold.
  destruct (once_get (flag w)) eqn:E; [exists w; by split|].
  destruct (swap_remove _ r _) as [l|] eqn:Hr; [|exists w; by split].
  apply swap_remove_some in Hr as [h Hp]. destruct (Hu eq_refl) as (Hh & Hn & Hf).
  eexists. split; [done|]. simpl. split; [|exact E].
  assert (h = r) as -> by (symmetry; apply (Hf (r, h)); rewrite Hp; left).
  split; simpl; try done.
  - rewrite <-Ha, Hp. simpl. by rewrite <-!app_assoc.
  - unfold once_get in *. simpl. by rewrite E.
  - intros _. split_and!; [done|done|]. intros f Hin. apply Hf. rewrite Hp. by right.
Qed.

Lemma signal_run n w : once_ok n w →
  ∃ w', run_once_op n o_signal w = (Ret tt, w') ∧ once_ok n w' ∧ once_get (flag w') = true.
Proof.
  intros Hw. pose proof Hw as [Ha Hi Hs Hu]. unfold run_once_op, once_signal.
  erewrite bind_Ret; [|done]. destruct (once_get (flag w)) eqn:E; [exists w; by split|].
  destruct (Hu eq_refl) as (Hh & Hn & Hf). erewrite bind_Ret; [|done]. erewrite bind_Ret by apply hear_all.
  eexists. split; [done|]. split; [|done]. split; simpl; try done.
  rewrite <-Ha, Hh. simpl. rewrite app_nil_r. apply Permutation_app_comm.
Qed.

Lemma run_once_ok l : ∀ n w, once_ok n w →
  ∃ w', run_once n l w = (Ret tt, w') ∧ once_ok (n + appends l) w' ∧
        once_get (flag w') = once_get (flag w) || bool_decide (o_signal ∈ l).
Proof.
  induction l as [|o l IH]; intros n w Hw; cbn [run_once].
  - exists w. split; [done|]. unfold appends. simpl. rewrite Nat.add_0_r, orb_false_r. by split.
  - assert (∃ w1, try_catch (run_once_op n o) (λ _, mret tt) w = (Ret tt, w1) ∧
      once_ok (if is_append o then S n else n) w1 ∧
      once_get (flag w1) = once_get (flag w) || match o with o_signal => true | _ => false end) as (w1 & E1 & H1 & G1).
    { destruct o as [|r|]; simpl is_append; cbn match.
      - destruct (append_run n w Hw) as (w1 & E1 & H1 & G1). exists w1. unfold try_catch. rewrite E1, G1, orb_false_r. by split.
      - destruct (remove_run n r w Hw) as (w1 & E1 & H1 & G1). exists w1. rewrite G1, orb_false_r. by split.
      - destruct (signal_run n w Hw) as (w1 & E1 & H1 & G1). exists w1. unfold try_catch. rewrite E1, G1, orb_true_r. by split. }
    erewrite bind_Ret by exact E1.
    destruct (IH (if is_append o then S n else n) w1 H1) as (w2 & E2 & H2 & G2). exists w2.
    split; [by destruct o|]. split.
    + unfold appends in *. rewrite filter_cons. destruct o; simpl in *; [|done|done]. by rewrite Nat.add_succ_r.
    + rewrite G2, G1, <-orb_assoc. f_equal. rewrite (bool_decide_ext (o_signal ∈ o :: l) (o = o_signal ∨ o_signal ∈ l)).
      { by destruct o, (bool_decide (o_signal ∈ l)) eqn:Eb; rewrite ?bool_decide_eq_true, ?bool_decide_eq_false in *; simpl; try (symmetry; apply bool_decide_eq_true; tauto); try (symmetry; apply bool_decide_eq_false; naive_solver). }
      rewrite elem_of_cons. naive_solver.
Qed.

(** A once flag calls every listener exactly once.  A fresh flag serves any
    sequence of registrations, removals (also of things that are not
    registered) and signals: every listener ever registered has either been
    called once, or been removed and not called, or is still registered; as long
    as the flag is not set none was called, once it is set none is left; and it
    is set exactly if a signal occurred. *)
Theorem once_calls_each_listener_once l :
  ∃ w, run_once 0 l once_world_new = (Ret tt, w) ∧
    heard w ++ removed w ++ (m_fns (flag w)).*2 ≡ₚ seq 0 (appends l) ∧
    once_get (flag w) = bool_decide (o_signal ∈ l) ∧
    (if once_get (flag w) then m_fns (flag w) = [] else heard w = []).
Proof.
  destruct (run_once_ok l 0 once_world_new) as (w & E & [Ha Hi Hs Hu] & G).
  { split; simpl; try done. intros _. split_and!; try done. by intros f ?%elem_of_nil. }
  exists w. split_and!; [done|done|by rewrite G|]. destruct (once_get (flag w)); [by apply Hs|by apply Hu].
Qed.
