(* ===== verification/CoreContext.v ===== *)
(** * CoreContext: the context tree and its lifecycle

    src/src/autowiring/CoreContext.{h,cpp} (creation, states, runnables, bolts,
    exception filters, the current context), CoreRunnable.cpp,
    CurrentContextPusher.cpp and ContextEnumerator.{h,cpp}.

    A [World] holds every live context by number; a parent lists its children as
    weak pointers in the nodes of a list, and an iterator into that list is the
    number of a node.  A context is destroyed by the explicit operation
    [CoreContext_dtor]; a weak pointer to it then fails to lock.  Callbacks
    (signals, bolts, the virtual [OnStart] and [OnStop]) are client code:
    [handler] says what they do to the world, and [log] records them. *)
From stdpp Require Import base gmap list sets strings.
From Stdlib Require Import ZArith Lia.
From S2P Require Import Prelude.

(** Contexts, nodes of child lists, runnables, bolts and sigils are named by numbers. *)
Abbreviation ctx := nat (only parsing).
Abbreviation slot := nat (only parsing).
Abbreviation runnable := nat (only parsing).
Abbreviation bolt := nat (only parsing).
Abbreviation sigil := nat (only parsing).
(** [auto_id_t<void>]: the sigil of an anonymous context. *)
Definition void_sigil : sigil := 0.

Inductive State :=
  | NotStarted
  | CanRun
  | Initiated
  | Running
  | Shutdown
  | Abandoned.

#[export] Instance State_eq_dec : EqDecision State.
Proof. solve_decision. Defined.

Record CoreRunnable := mkRunnable {
  m_wasStarted : bool;
  m_shouldStop : bool;
  m_outstanding : bool;
  (* m_lock is held by a call on this thread *)
  m_locked : bool }.

Definition CoreRunnable_new : CoreRunnable := mkRunnable false false false false.
Definition set_locked (b : bool) (x : CoreRunnable) : CoreRunnable :=
  mkRunnable (m_wasStarted x) (m_shouldStop x) (m_outstanding x) b.

Record CoreContext := mkContext {
  m_pParent : option ctx;
  m_backReference : slot;
  SigilType : sigil;
  AncestorCount : nat;
  m_state : State;
  m_beforeRunning : bool;
  m_children : list (slot * option ctx);
  m_threads : list runnable;
  m_nameListeners : gmap sigil (list bolt);
  m_filters : list nat;
  (* the last shared pointer is gone *)
  m_expired : bool }.

Definition set_state s c := mkContext (m_pParent c) (m_backReference c) (SigilType c) (AncestorCount c) s (m_beforeRunning c) (m_children c) (m_threads c) (m_nameListeners c) (m_filters c) (m_expired c).
Definition set_beforeRunning b c := mkContext (m_pParent c) (m_backReference c) (SigilType c) (AncestorCount c) (m_state c) b (m_children c) (m_threads c) (m_nameListeners c) (m_filters c) (m_expired c).
Definition set_children l c := mkContext (m_pParent c) (m_backReference c) (SigilType c) (AncestorCount c) (m_state c) (m_beforeRunning c) l (m_threads c) (m_nameListeners c) (m_filters c) (m_expired c).
Definition set_threads l c := mkContext (m_pParent c) (m_backReference c) (SigilType c) (AncestorCount c) (m_state c) (m_beforeRunning c) (m_children c) l (m_nameListeners c) (m_filters c) (m_expired c).
Definition set_nameListeners l c := mkContext (m_pParent c) (m_backReference c) (SigilType c) (AncestorCount c) (m_state c) (m_beforeRunning c) (m_children c) (m_threads c) l (m_filters c) (m_expired c).
Definition set_filters l c := mkContext (m_pParent c) (m_backReference c) (SigilType c) (AncestorCount c) (m_state c) (m_beforeRunning c) (m_children c) (m_threads c) (m_nameListeners c) l (m_expired c).
Definition set_expired b c := mkContext (m_pParent c) (m_backReference c) (SigilType c) (AncestorCount c) (m_state c) (m_beforeRunning c) (m_children c) (m_threads c) (m_nameListeners c) (m_filters c) b.

(** The constructor. *)
Definition CoreContext_new (pParent : option ctx) (ancestors : nat) (backReference : slot) (sigilType : sigil)
    : CoreContext :=
  mkContext pParent backReference sigilType ancestors NotStarted false [] [] ∅ [] false.

(** Calls out of the framework, in the order they are made. *)
Inductive event :=
  | ev_newContext (parent child : ctx)
  | ev_expiredContext (c : ctx)
  | ev_onTeardown (c : ctx)
  | ev_ContextCreated (b : bolt) (current : option ctx)
  | ev_onInitiated (c : ctx)
  | ev_onRunning (c : ctx)
  | ev_onShutdown (c : ctx)
  | ev_OnStart (r : runnable)
  | ev_OnStop (r : runnable) (graceful : bool)
  | ev_Filter (f : nat).

Record World := mkWorld {
  contexts : gmap ctx CoreContext;
  runnables : gmap runnable CoreRunnable;
  next_ctx : ctx;
  next_slot : slot;
  next_runnable : runnable;
  (* the thread-local current context *)
  autoCurrentContext : option ctx;
  log : list event }.

Definition set_contexts m w := mkWorld m (runnables w) (next_ctx w) (next_slot w) (next_runnable w) (autoCurrentContext w) (log w).
Definition set_runnables m w := mkWorld (contexts w) m (next_ctx w) (next_slot w) (next_runnable w) (autoCurrentContext w) (log w).
Definition set_next_ctx n w := mkWorld (contexts w) (runnables w) n (next_slot w) (next_runnable w) (autoCurrentContext w) (log w).
Definition set_next_slot n w := mkWorld (contexts w) (runnables w) (next_ctx w) n (next_runnable w) (autoCurrentContext w) (log w).
Definition set_next_runnable n w := mkWorld (contexts w) (runnables w) (next_ctx w) (next_slot w) n (autoCurrentContext w) (log w).
Definition set_autoCurrentContext c w := mkWorld (contexts w) (runnables w) (next_ctx w) (next_slot w) (next_runnable w) c (log w).
Definition set_log l w := mkWorld (contexts w) (runnables w) (next_ctx w) (next_slot w) (next_runnable w) (autoCurrentContext w) l.

(** The global context, number 0, before anything was done. *)
Definition GlobalContext : ctx := 0.
Definition World_new : World := mkWorld {[GlobalContext := CoreContext_new None 0 0 void_sigil]} ∅ 1 1 0 None [].

Definition IsGlobalContext (c : CoreContext) : bool := bool_decide (m_pParent c = None).
Definition IsAnonymousContext (c : CoreContext) : bool := Nat.eqb (SigilType c) void_sigil.

Definition IsInitiated (c : CoreContext) : bool :=
  match m_state c with Initiated | Running | Shutdown => true | _ => false end.
Definition IsRunning (c : CoreContext) : bool := bool_decide (m_state c = Running).
Definition IsShutdown (c : CoreContext) : bool :=
  match m_state c with Shutdown | Abandoned => true | _ => false end.

(** ** Access *)
Definition context (c : ctx) : M World CoreContext := w ← get; deref (contexts w !! c).
Definition update (c : ctx) (f : CoreContext → CoreContext) : M World unit :=
  x ← context c; modify (λ w, set_contexts (<[c := f x]> (contexts w)) w).

(** [weak.lock()]. *)
Definition lock (o : option ctx) (w : World) : option ctx :=
  match o with
  | Some c => match contexts w !! c with
              | Some x => if m_expired x then None else Some c
              | None => None
              end
  | None => None
  end.

(** The first node of [l] whose context can be locked. *)
Fixpoint first_live (l : list (slot * option ctx)) (w : World) : option (slot * ctx) :=
  match l with
  | [] => None
  | (s, o) :: l' => match lock o w with Some c => Some (s, c) | None => first_live l' w end
  end.

(** The nodes after node [s]. *)
Fixpoint after_slot (s : slot) (l : list (slot * option ctx)) : list (slot * option ctx) :=
  match l with
  | [] => []
  | x :: l' => if Nat.eqb x.1 s then l' else after_slot s l'
  end.

Section CoreContext.
  (** What a callback does to the world; [OnStart] also returns a value. *)
  Context (handler : event → M World unit).
  Context (OnStart_result : runnable → bool).

Definition emit (e : event) : M World unit :=
  modify (λ w, set_log (log w ++ [e]) w);; handler e.

(** ** CoreRunnable *)
Definition load_runnable (r : runnable) : M World CoreRunnable := w ← get; deref (runnables w !! r).
Definition store_runnable (r : runnable) (x : CoreRunnable) : M World unit :=
  modify (λ w, set_runnables (<[r := x]> (runnables w)) w).

(** [std::lock_guard<std::mutex> lk(m_lock)]: a second lock by the same thread
    waits for ever. *)
Definition lock_runnable (r : runnable) : M World unit :=
  x ← load_runnable r;
  if m_locked x then stuck blocked else store_runnable r (set_locked true x).
Definition unlock_runnable (r : runnable) : M World unit :=
  x ← load_runnable r; store_runnable r (set_locked false x).

Definition Start (r : runnable) : M World bool :=
  lock_runnable r;;
  at_exit (unlock_runnable r)
    (x ← load_runnable r;
     if m_wasStarted x || m_outstanding x || m_shouldStop x then mret true
     else
       store_runnable r (mkRunnable true (m_shouldStop x) true (m_locked x));;
       emit (ev_OnStart r);;
       (if OnStart_result r then mret tt
        else
          y ← load_runnable r;
          store_runnable r (mkRunnable (m_wasStarted y) true false (m_locked y));;
          emit (ev_OnStop r false));;
       mret true).

Definition Stop (r : runnable) (graceful : bool) : M World unit :=
  lock_runnable r;;
  x ← load_runnable r;
  (if m_shouldStop x then mret tt
   else
     store_runnable r (mkRunnable (m_wasStarted x) true (m_outstanding x) (m_locked x));;
     unlock_runnable r;;
     emit (ev_OnStop r graceful);;
     lock_runnable r);;
  y ← load_runnable r;
  store_runnable r (mkRunnable (m_wasStarted y) (m_shouldStop y) false (m_locked y));;
  unlock_runnable r.

(** ** The current context *)
Definition CurrentContextOrNull (w : World) : option ctx := autoCurrentContext w.
Definition CurrentContext (w : World) : ctx :=
  match autoCurrentContext w with Some c => c | None => GlobalContext end.

Definition SetCurrent (c : option ctx) : M World (option ctx) := λ w,
  if bool_decide (autoCurrentContext w = c) then (Ret (autoCurrentContext w), w)
  else (Ret (autoCurrentContext w), set_autoCurrentContext c w).

(** [CurrentContextPusher pshr(c)] around [m]. *)
Definition with_pushed {A} (c : ctx) (m : M World A) : M World A :=
  m_prior ← SetCurrent (Some c); at_exit (_ ← SetCurrent m_prior; mret tt) m.

(** ** The tree *)
Definition GetChildCount (c : CoreContext) : nat := length (m_children c).

Definition FirstChild (c : ctx) : M World (option ctx) :=
  x ← context c; w ← get; mret (snd <$> first_live (m_children x) w).

Definition NextSibling (c : ctx) : M World (option ctx) :=
  x ← context c;
  match m_pParent x with
  | None => mret None
  | Some p => px ← context p; w ← get;
              mret (snd <$> first_live (after_slot (m_backReference x) (m_children px)) w)
  end.

(** ** Bolts *)
(** The loop over the vector [l] registered for [k]: a listener that changes the
    vector invalidates the iterator. *)
Fixpoint tell_listeners (c : ctx) (k : sigil) (l rest : list bolt) : M World unit :=
  match rest with
  | [] => mret tt
  | b :: rest' =>
    w ← get;
    emit (ev_ContextCreated b (CurrentContextOrNull w));;
    x ← context c;
    if bool_decide (default [] (m_nameListeners x !! k) = l) then tell_listeners c k l rest'
    else stuck undefined_behavior
  end.

Definition tell_all (c : ctx) (k : sigil) : M World unit :=
  x ← context c;
  let l := default [] (m_nameListeners x !! k) in tell_listeners c k l l.

Fixpoint BroadcastContextCreationNotice (fuel : nat) (c : ctx) (s : sigil) : M World unit :=
  match fuel with
  | 0 => stuck out_of_fuel
  | S fuel' =>
    tell_all c s;;
    (if Nat.eqb s void_sigil then mret tt else tell_all c void_sigil);;
    x ← context c;
    match m_pParent x with
    | Some p => BroadcastContextCreationNotice fuel' p s
    | None => mret tt
    end
  end.

(** [shared_from_this()]: there must still be a shared pointer to the context. *)
Definition shared_from_this (c : ctx) : M World unit :=
  x ← context c; if m_expired x then throw bad_weak_ptr else mret tt.

(** ** Creation *)
Definition alloc_child (parent : ctx) (node : slot) (s : sigil) : M World ctx :=
  p ← context parent;
  w ← get;
  put (set_next_ctx (S (next_ctx w))
         (set_contexts (<[next_ctx w := CoreContext_new (Some parent) (S (AncestorCount p)) node s]> (contexts w)) w));;
  mret (next_ctx w).

(** [*childIterator = retVal]. *)
Definition assign_node (node : slot) (o : option ctx) (l : list (slot * option ctx)) :=
  (λ x, if Nat.eqb x.1 node then (node, o) else x) <$> l.

(** ** Shutdown *)
Fixpoint SignalShutdown (fuel : nat) (c : ctx) (graceful : bool) : M World unit :=
  match fuel with
  | 0 => stuck out_of_fuel
  | S fuel' =>
    x ← context c;
    match m_state x with
    | Shutdown | Abandoned => mret tt
    | _ =>
      update c (set_state match m_state x with NotStarted | CanRun => Abandoned | _ => Shutdown end);;
      let firstThreadToStop := if m_beforeRunning x then tail (m_threads x) else m_threads x in
      emit (ev_onShutdown c);;
      x ← context c;
      w ← get;
      let childrenInterleave := omap (λ e, lock e.2 w) (m_children x) in
      for_each (λ child, SignalShutdown fuel' child graceful) (rev childrenInterleave);;
      for_each (λ r, Stop r graceful) firstThreadToStop
    end
  end.

Definition CreateInternal (fuel : nat) (parent : ctx) (s : sigil) : M World ctx :=
  x ← context parent;
  if IsShutdown x then
    throw (dispatch_aborted_exception "Cannot create a child context; this context is already shut down")
  else
    w ← get;
    let childIterator := next_slot w in
    modify (set_next_slot (S childIterator));;
    update parent (λ x, set_children (m_children x ++ [(childIterator, None)]) x);;
    shared_from_this parent;;
    retVal ← alloc_child parent childIterator s;
    emit (ev_newContext parent retVal);;
    with_pushed retVal
      (x ← context parent;
       (if IsRunning x then update retVal (set_state CanRun) else mret tt);;
       BroadcastContextCreationNotice fuel parent s;;
       update parent (λ x, set_children (assign_node childIterator (Some retVal) (m_children x)) x);;
       x ← context parent;
       (if IsShutdown x then SignalShutdown fuel retVal true else mret tt);;
       mret retVal).

(** [~CoreContext]: the context leaves the tree and tells its listeners. *)
Definition CoreContext_dtor (c : ctx) : M World unit :=
  update c (set_expired true);;
  x ← context c;
  match m_pParent x with
  | Some p =>
    emit (ev_expiredContext c);;
    update p (λ px, set_children (base.filter (λ e, e.1 ≠ m_backReference x) (m_children px)) px)
  | None => mret tt
  end;;
  emit (ev_onTeardown c);;
  modify (λ w, set_contexts (delete c (contexts w)) w).

(** ** Running *)
Definition AddCoreRunnable (c : ctx) (r : runnable) : M World unit :=
  update c (λ x, set_threads (r :: m_threads x) x);;
  x ← context c;
  let shouldRun := IsRunning x in
  update c (set_beforeRunning true);;
  (if shouldRun then shared_from_this c;; _ ← Start r; mret tt else mret tt);;
  update c (set_beforeRunning false);;
  x ← context c;
  if IsShutdown x then Stop r false else mret tt.

Definition new_runnable : M World runnable := λ w,
  (Ret (next_runnable w),
   set_next_runnable (S (next_runnable w)) (set_runnables (<[next_runnable w := CoreRunnable_new]> (runnables w)) w)).

(** The loop of [TryTransitionChildrenState] over the children of [c], from the
    node after [prior]; it reads the list afresh after each child. *)
Fixpoint transition_loop (recurse : ctx → M World unit) (n : nat) (c : ctx) (prior : option slot) : M World unit :=
  x ← context c;
  w ← get;
  match first_live (match prior with Some s => after_slot s (m_children x) | None => m_children x end) w with
  | None => mret tt
  | Some (s, child) =>
    match n with
    | 0 => stuck out_of_fuel
    | S n' =>
      cx ← context child;
      match m_state cx with
      | Initiated =>
        update child (set_state Running);;
        for_each (λ r, _ ← Start r; mret tt) (m_threads cx);;
        emit (ev_onRunning child);;
        recurse child
      | NotStarted => update child (set_state CanRun)
      | _ => mret tt
      end;;
      transition_loop recurse n' c (Some s)
    end
  end.

Fixpoint TryTransitionChildrenState (fuel : nat) (c : ctx) : M World unit :=
  match fuel with
  | 0 => stuck out_of_fuel
  | S fuel' => transition_loop (TryTransitionChildrenState fuel') fuel c None
  end.

Definition Initiate (fuel : nat) (c : ctx) : M World unit :=
  x ← context c;
  if IsInitiated x then mret tt
  else
    match m_state x with
    | NotStarted | CanRun =>
      let run := match m_state x with CanRun => true | _ => IsGlobalContext x end in
      update c (set_state (if run then Running else Initiated));;
      if run then
        emit (ev_onInitiated c);;
        (match m_threads x with [] => mret tt | _ => shared_from_this c end);;
        for_each (λ r, _ ← Start r; mret tt) (m_threads x);;
        emit (ev_onRunning c);;
        TryTransitionChildrenState fuel c
      else
        emit (ev_onInitiated c);;
        (* Inject<DelayedContextHold>: a runnable that keeps the context alive *)
        shared_from_this c;;
        hold ← new_runnable;
        AddCoreRunnable c hold
    | _ => mret tt
    end.

(** ** Exception filters *)
(** [AddInternal] of an object that is an [ExceptionFilter]. *)
Definition add_filter (c : ctx) (f : nat) : M World unit :=
  update c (λ x, set_filters (m_filters x ++ [f]) x).

(** A filter that returns has handled the exception. *)
Fixpoint run_filters (l : list nat) (handled : bool) : M World bool :=
  match l with
  | [] => mret handled
  | f :: l' => h ← try_catch (emit (ev_Filter f);; mret true) (λ _, mret handled); run_filters l' h
  end.

(** [FilterException] with [e] the exception being handled; it throws [e] again
    when nobody handled it. *)
Fixpoint FilterException (fuel : nat) (c : ctx) (e : exn) : M World unit :=
  match fuel with
  | 0 => stuck out_of_fuel
  | S fuel' =>
    x ← context c;
    handled ← run_filters (m_filters x) false;
    done ← match m_pParent x with
           | Some p => try_catch (FilterException fuel' p e;; mret true) (λ _, mret false)
           | None => mret false
           end;
    if (done : bool) then mret tt else if (handled : bool) then mret tt else throw e
  end.

Fixpoint FilterFiringException (fuel : nat) (c : ctx) : M World unit :=
  match fuel with
  | 0 => stuck out_of_fuel
  | S fuel' =>
    x ← context c;
    for_each (λ f, try_catch (emit (ev_Filter f)) (λ _, mret tt)) (m_filters x);;
    match m_pParent x with
    | Some p => FilterFiringException fuel' p
    | None => mret tt
    end
  end.
End CoreContext.
