(* ===== verification/CoreContextFacts.v ===== *)
(** * CoreContext: the tree and its runnables under re-entrant clients

    [world_ok]: what every operation keeps true of the world, whatever the
    callbacks do as long as they keep it too.  [K] gives what stays fixed of contexts
    known to exist and [T] lists runnables known to exist; [R] gives the records of the runnables whose
    [m_lock] a caller on the stack holds. *)
From stdpp Require Import base gmap list sets strings.
From Stdlib Require Import ZArith Lia.
From S2P Require Import Prelude CoreContext.

Definition is_start (r : runnable) (e : event) : bool :=
  match e with ev_OnStart r' => Nat.eqb r r' | _ => false end.
Definition is_stop (r : runnable) (e : event) : bool :=
  match e with ev_OnStop r' _ => Nat.eqb r r' | _ => false end.
(** How often [r] was told to start, and to stop. *)
Definition starts (r : runnable) (l : list event) : nat := length (base.filter (λ e, is_start r e) l).
Definition stops (r : runnable) (l : list event) : nat := length (base.filter (λ e, is_stop r e) l).

(** ** The tree *)
Record tree_ok (w : World) : Prop := {
  to_next : ∀ c x, contexts w !! c = Some x → c < next_ctx w;
  to_parent : ∀ c x p, contexts w !! c = Some x → m_pParent x = Some p →
    p < c ∧ m_backReference x < next_slot w ∧
    ∃ px, contexts w !! p = Some px ∧ AncestorCount x = S (AncestorCount px) ∧ m_expired px = false ∧
          (m_expired x = false → m_backReference x ∈ (m_children px).*1);
  to_child : ∀ p px s d, contexts w !! p = Some px → (s, Some d) ∈ m_children px →
    d < next_ctx w ∧ ∀ dx, contexts w !! d = Some dx → m_pParent dx = Some p ∧ m_backReference dx = s;
  to_nodup : ∀ p px, contexts w !! p = Some px →
    NoDup (m_children px).*1 ∧ ∀ s, s ∈ (m_children px).*1 → s < next_slot w;
  to_backref : ∀ c d x y, contexts w !! c = Some x → contexts w !! d = Some y →
    m_pParent x ≠ None → m_pParent y ≠ None → m_backReference x = m_backReference y → c = d }.

(** ** The runnables *)
Record runs_ok (w : World) : Prop := {
  ro_count : ∀ r y, runnables w !! r = Some y →
    r < next_runnable w ∧ starts r (log w) = Nat.b2n (m_wasStarted y) ∧ stops r (log w) = Nat.b2n (m_shouldStop y);
  ro_fresh : ∀ r, runnables w !! r = None → starts r (log w) = 0 ∧ stops r (log w) = 0 }.

(** What identifies a context in the tree: it changes only in the destructor. *)
Definition link : Type := option ctx * slot * nat * bool.
Definition links (x : CoreContext) : link := (m_pParent x, m_backReference x, AncestorCount x, m_expired x).

(** What no operation within a call changes: the links, and the bolts. *)
Definition fixed : Type := link * gmap sigil (list bolt).
Definition fixes (x : CoreContext) : fixed := (links x, m_nameListeners x).

Record world_ok (K : gmap ctx fixed) (T : list runnable) (R : gmap runnable CoreRunnable) (w : World) : Prop := {
  wo_tree : tree_ok w;
  wo_runs : runs_ok w;
  wo_threads : ∀ c x r, contexts w !! c = Some x → r ∈ m_threads x → is_Some (runnables w !! r);
  wo_K : ∀ c pb, K !! c = Some pb → ∃ x, contexts w !! c = Some x ∧ fixes x = pb;
  wo_T : ∀ r, r ∈ T → is_Some (runnables w !! r);
  wo_R : ∀ r y, R !! r = Some y → runnables w !! r = Some y ∧ m_locked y = true;
  wo_current : ∀ c, autoCurrentContext w = Some c → ∃ x, contexts w !! c = Some x ∧ m_expired x = false }.

Lemma starts_app r l e : starts r (l ++ [e]) = starts r l + Nat.b2n (is_start r e).
Proof.
  unfold starts. rewrite filter_app, length_app. f_equal.
  rewrite filter_cons, filter_nil. by destruct (is_start r e); case_decide.
Qed.

Lemma stops_app r l e : stops r (l ++ [e]) = stops r l + Nat.b2n (is_stop r e).
Proof.
  unfold stops. rewrite filter_app, length_app. f_equal.
  rewrite filter_cons, filter_nil. by destruct (is_stop r e); case_decide.
Qed.

Lemma world_ok_weaken K T R K' T' R' w :
  world_ok K T R w → K' ⊆ K → T' ⊆ T → R' ⊆ R → world_ok K' T' R' w.
Proof.
  intros [? ? ? HK HT HR ?] HK' HT' HR'. split; auto.
  - intros c pb Hc. apply HK. by eapply lookup_weaken.
  - intros r y Hr. apply HR. by eapply lookup_weaken.
Qed.

(** ** Changes of one context *)
Lemma insert_links (w : World) c x x' d :
  contexts w !! c = Some x → links x' = links x →
  (∀ y, <[c := x']> (contexts w) !! d = Some y →
     ∃ y0, contexts w !! d = Some y0 ∧ links y = links y0 ∧ (d = c ∧ y = x' ∧ y0 = x ∨ d ≠ c ∧ y = y0)) ∧
  (∀ y0, contexts w !! d = Some y0 →
     ∃ y, <[c := x']> (contexts w) !! d = Some y ∧ links y = links y0 ∧ (d = c ∧ y = x' ∧ y0 = x ∨ d ≠ c ∧ y = y0)).
Proof.
  intros Hc E. split.
  - intros y [[<- <-]|[? ?]]%lookup_insert_Some; [exists x|exists y]; auto 6.
  - intros y0 Hd. destruct (decide (c = d)) as [<-|n].
    + exists x'. rewrite lookup_insert_eq. assert (y0 = x) as -> by congruence. split; [done|]. split; [done|]. by left.
    + exists y0. rewrite lookup_insert_ne by done. split; [done|]. split; [done|]. right. by split.
Qed.

(** The children of [c] may change as long as every node that a live child refers
    to stays and every pointer in the list is to a child. *)
Definition children_ok (w : World) (c : ctx) (l : list (slot * option ctx)) : Prop :=
  (∀ d dx, contexts w !! d = Some dx → m_pParent dx = Some c → m_expired dx = false → m_backReference dx ∈ l.*1) ∧
  (∀ s d, (s, Some d) ∈ l →
     d < next_ctx w ∧ ∀ dx, contexts w !! d = Some dx → m_pParent dx = Some c ∧ m_backReference dx = s) ∧
  NoDup l.*1 ∧ (∀ s, s ∈ l.*1 → s < next_slot w).

Lemma children_ok_same w c x : tree_ok w → contexts w !! c = Some x → children_ok w c (m_children x).
Proof.
  intros Ht Hc. split_and!.
  - intros d dx Hd Hp He. destruct (to_parent _ Ht d dx c Hd Hp) as (_ & _ & px & Hpx & _ & _ & H).
    simplify_eq. by apply H.
  - intros s d Hin. by eapply (to_child _ Ht).
  - by apply (to_nodup _ Ht c).
  - by apply (to_nodup _ Ht c).
Qed.

Lemma tree_ok_update w c x x' :
  tree_ok w → contexts w !! c = Some x → links x' = links x → children_ok w c (m_children x') →
  tree_ok (set_contexts (<[c := x']> (contexts w)) w).
Proof.
  intros Ht Hc E (Hkeep & Hptr & Hnd & Hlt).
  pose proof (λ d, proj1 (insert_links w c x x' d Hc E)) as Hback.
  pose proof (λ d, proj2 (insert_links w c x x' d Hc E)) as Hfwd.
  unfold links in Hback, Hfwd. split; simpl.
  - intros d y Hd. destruct (Hback d y Hd) as (y0 & H0 & _). by apply (to_next _ Ht d y0).
  - intros d y p Hd Hp. destruct (Hback d y Hd) as (y0 & H0 & [= E1 E2 E3 E4] & _).
    destruct (to_parent _ Ht d y0 p H0) as (Hle & Hs & px & Hpx & Hac & Hex & Hin); [congruence|].
    destruct (Hfwd p px Hpx) as (px' & Hpx' & [= F1 F2 F3 F4] & H).
    split; [done|]. split; [congruence|]. exists px'. split_and!; try congruence.
    rewrite E2, E4. intros He. destruct H as [(-> & -> & _)|[_ ->]]; [|by apply Hin].
    apply (Hkeep d y0); congruence.
  - intros p px s d Hp Hin.
    assert (d < next_ctx w ∧ ∀ dx, contexts w !! d = Some dx → m_pParent dx = Some p ∧ m_backReference dx = s) as [Hlt' Hdx].
    { destruct (Hback p px Hp) as (p0 & Hp0 & _ & [(-> & -> & _)|[_ ->]]); [by apply Hptr|by eapply (to_child _ Ht)]. }
    split; [done|]. intros dx' Hdx'. destruct (Hback d dx' Hdx') as (dx & Hd & [= F1 F2 F3 F4] & _).
    destruct (Hdx dx Hd). split; congruence.
  - intros p px Hp. destruct (Hback p px Hp) as (p0 & Hp0 & _ & [(-> & -> & _)|[_ ->]]); [done|].
    by apply (to_nodup _ Ht p).
  - intros d d' y y' Hd Hd' Hn Hn' He.
    destruct (Hback d y Hd) as (z & Hz & [= E1 E2 E3 E4] & _), (Hback d' y' Hd') as (z' & Hz' & [= F1 F2 F3 F4] & _).
    apply (to_backref _ Ht d d' z z'); congruence.
Qed.

(** The same for the whole invariant; new threads must exist. *)
Lemma world_ok_update K T R w c x x' :
  world_ok K T R w → contexts w !! c = Some x → links x' = links x → children_ok w c (m_children x') →
  (∀ r, r ∈ m_threads x' → r ∈ m_threads x ∨ r ∈ T) → K !! c = None ∨ m_nameListeners x' = m_nameListeners x →
  world_ok K T R (set_contexts (<[c := x']> (contexts w)) w).
Proof.
  intros [Ht Hr Hth HK HT HR Hcur] Hc E Hch Hthr Hbolts. split; simpl; auto.
  - by eapply tree_ok_update.
  - by destruct Hr; split.
  - intros d y r [[<- <-]|[? Hd]]%lookup_insert_Some Hin; [|by eapply Hth].
    destruct (Hthr r Hin) as [?|?]; [by eapply Hth|by apply HT].
  - intros d pb Hd. destruct (HK d pb Hd) as (y & Hy & <-).
    destruct (proj2 (insert_links w c x x' d Hc E) y Hy) as (y' & ? & El & Hd'). exists y'. split; [done|].
    unfold fixes. rewrite El. f_equal. destruct Hd' as [(-> & -> & ->)|[_ ->]]; [|done]. by destruct Hbolts; simplify_eq.
  - intros d Hd. destruct (Hcur d Hd) as (y & Hy & Ey).
    destruct (proj2 (insert_links w c x x' d Hc E) y Hy) as (y' & ? & El & _). exists y'.
    unfold links in El. split; [done|congruence].
Qed.

(** ** Running the primitive operations *)
Lemma context_run w c x : contexts w !! c = Some x → context c w = (Ret x, w).
Proof. intros H. unfold context. munfold. by rewrite H. Qed.

Lemma update_run w c x f :
  contexts w !! c = Some x → update c f w = (Ret tt, set_contexts (<[c := f x]> (contexts w)) w).
Proof. intros H. unfold update. erewrite bind_Ret; [|by apply context_run]. done. Qed.

Lemma load_runnable_run w r y : runnables w !! r = Some y → load_runnable r w = (Ret y, w).
Proof. intros H. unfold load_runnable. munfold. by rewrite H. Qed.

(** ** Runnables and the log *)
(** Event [e] is neither a start nor a stop. *)
Definition plain (e : event) : Prop := ∀ r, is_start r e = false ∧ is_stop r e = false.

Lemma world_ok_log K T R w e : world_ok K T R w → plain e → world_ok K T R (set_log (log w ++ [e]) w).
Proof.
  intros [Ht [Hc Hf] Hth HK HT HR Hcur] He.
  assert (∀ r, starts r (log w ++ [e]) = starts r (log w) ∧ stops r (log w ++ [e]) = stops r (log w)) as E.
  { intros r. rewrite starts_app, stops_app. destruct (He r) as [-> ->]. simpl. lia. }
  split; simpl; auto; [by destruct Ht; split|]. split; simpl.
  - intros r y Hr. destruct (E r) as [-> ->]. by apply Hc.
  - intros r Hr. destruct (E r) as [-> ->]. by apply Hf.
Qed.

(** Storing runnable [r] and logging [l], in the order the code does. *)
Definition stored (w : World) (r : runnable) (y : CoreRunnable) (l : list event) : World :=
  set_log (log w ++ l) (set_runnables (<[r := y]> (runnables w)) w).

Definition counts_as (w : World) (r : runnable) (y y' : CoreRunnable) (l : list event) : Prop :=
  match l with
  | [] => m_wasStarted y' = m_wasStarted y ∧ m_shouldStop y' = m_shouldStop y
  | [ev_OnStart r'] => r' = r ∧ m_wasStarted y = false ∧ m_wasStarted y' = true ∧ m_shouldStop y' = m_shouldStop y
  | [ev_OnStop r' _] => r' = r ∧ m_shouldStop y = false ∧ m_shouldStop y' = true ∧ m_wasStarted y' = m_wasStarted y
  | _ => False
  end.

Lemma world_ok_stored K T R R' w r y y' l :
  world_ok K T R w → runnables w !! r = Some y → counts_as w r y y' l →
  (∀ r' z, R' !! r' = Some z → (r' = r ∧ z = y' ∧ m_locked y' = true) ∨ (r' ≠ r ∧ R !! r' = Some z)) →
  world_ok K T R' (stored w r y' l).
Proof.
  intros [Ht [Hc Hf] Hth HK HT HR Hcur] Hr Hl HR'.
  assert (∀ r', is_Some (runnables w !! r') → is_Some ((<[r := y']> (runnables w)) !! r')) as Hs.
  { intros r' H. destruct (decide (r = r')) as [<-|n]; [by rewrite lookup_insert_eq|by rewrite lookup_insert_ne]. }
  split; simpl; auto.
  - by destruct Ht; split.
  - assert (∀ r', r' ≠ r → starts r' (log w ++ l) = starts r' (log w) ∧ stops r' (log w ++ l) = stops r' (log w)) as E.
    { intros r' n. destruct l as [|[] [|]]; simpl in Hl; try done; [by rewrite app_nil_r| |];
        rewrite starts_app, stops_app; destruct Hl as [-> _]; simpl;
        replace (r' =? r) with false by (symmetry; by apply Nat.eqb_neq); simpl; lia. }
    split; simpl.
    + intros r' z [[<- <-]|[n Hz]]%lookup_insert_Some.
      * destruct (Hc r y Hr) as (? & E1 & E2). split; [done|].
        destruct l as [|[] [|]]; simpl in Hl; try done.
        { rewrite app_nil_r. destruct Hl as [-> ->]. done. }
        all: rewrite starts_app, stops_app, E1, E2; destruct Hl as (-> & F1 & F2 & F3);
          rewrite F1, F2, F3; simpl; rewrite Nat.eqb_refl; simpl; lia.
      * destruct (E r') as [-> ->]; [done|]. by apply Hc.
    + intros r' [Hz n]%lookup_insert_None. destruct (E r') as [-> ->]; [done|]. by apply Hf.
  - intros c x r' Hx Hin. apply Hs. by eapply Hth.
  - intros r' z Hz. destruct (HR' r' z Hz) as [(-> & -> & ?)|[n Hz']].
    + by rewrite lookup_insert_eq.
    + rewrite lookup_insert_ne by done. by apply HR.
Qed.

Lemma store_runnable_run w r y : store_runnable r y w = (Ret tt, stored w r y []).
Proof. unfold store_runnable, modify, stored, set_log, set_runnables. simpl. by rewrite app_nil_r. Qed.

Section client.
  Context (handler : event → M World unit) (OnStart_result : runnable → bool).
  Context (handler_ok : ∀ K T R e, safe (world_ok K T R) (handler e)).

Lemma emit_ok K T R e : plain e → safe (world_ok K T R) (emit handler e).
Proof.
  intros He w Hw. unfold emit. erewrite bind_Ret; [|done]. apply handler_ok. by apply world_ok_log.
Qed.

(** A store and the callback that follows it. *)
Lemma store_emit_ok K T R R' r y y' e {B} (k : M World B) Q X :
  counts_as World_new r y y' [e] →
  (∀ r' z, R' !! r' = Some z → (r' = r ∧ z = y' ∧ m_locked y' = true) ∨ (r' ≠ r ∧ R !! r' = Some z)) →
  triple (world_ok K T R') k Q X → (∀ x w, world_ok K T R' w → X x w) →
  triple (λ w, world_ok K T R w ∧ runnables w !! r = Some y) (store_runnable r y';; emit handler e;; k) Q X.
Proof.
  intros Hc HR' Hk HX w [Hw Hr]. erewrite bind_Ret by apply store_runnable_run.
  unfold emit. rewrite bind_assoc. erewrite bind_Ret; [|done].
  assert (world_ok K T R' (stored w r y' [e])) as Hw' by (by eapply world_ok_stored).
  replace (set_log _ _) with (stored w r y' [e]).
  2: { unfold stored, set_log. simpl. by rewrite app_nil_r. }
  revert Hw'. generalize (stored w r y' [e]).
  change (triple (world_ok K T R') (handler e ≫= λ _, k) Q X).
  eapply triple_bind; [|intros u; exact Hk].
  eapply triple_conseq; [apply handler_ok|done|done|apply HX].
Qed.

Lemma insert_lookup_cases (R : gmap runnable CoreRunnable) r y :
  m_locked y = true → ∀ r' z, <[r := y]> R !! r' = Some z →
  (r' = r ∧ z = y ∧ m_locked y = true) ∨ (r' ≠ r ∧ R !! r' = Some z).
Proof. intros Hy r' z [[<- <-]|[n Hz]]%lookup_insert_Some; [by left|right; by split]. Qed.

(** Releasing the lock of [r]. *)
Lemma unlock_ok K T R r : R !! r = None →
  triple (λ w, ∃ y, world_ok K T (<[r := y]> R) w) (unlock_runnable r) (λ _, world_ok K T R) (λ _ _, False).
Proof.
  intros HR w [y Hw]. destruct (wo_R _ _ _ _ Hw r y) as [Hr Hy]; [by rewrite lookup_insert_eq|].
  unfold unlock_runnable. erewrite bind_Ret by (by apply load_runnable_run).
  rewrite store_runnable_run. eapply world_ok_stored; [exact Hw|done|done|].
  intros r' z Hz. right. assert (r' ≠ r) as n by congruence. split; [done|]. by rewrite lookup_insert_ne.
Qed.

(** Taking the lock of [r], which must be free. *)
Lemma lock_ok K T R r : r ∈ T →
  triple (world_ok K T R) (lock_runnable r)
    (λ _ w, R !! r = None ∧ ∃ y, world_ok K T (<[r := y]> R) w) (λ _ _, False).
Proof.
  intros Hr w Hw. destruct (wo_T _ _ _ _ Hw r Hr) as [y Hy].
  unfold lock_runnable. erewrite bind_Ret by (by apply load_runnable_run).
  destruct (m_locked y) eqn:El; [done|]. rewrite store_runnable_run.
  assert (R !! r = None) as Hn.
  { destruct (R !! r) as [z|] eqn:E; [|done]. destruct (wo_R _ _ _ _ Hw r z E). congruence. }
  split; [done|]. exists (set_locked true y).
  eapply world_ok_stored; [exact Hw|exact Hy|done|]. by apply insert_lookup_cases.
Qed.

Lemma load_ok K T R r {B} (k : CoreRunnable → M World B) Q X :
  (∀ y, m_locked y = true →
     triple (λ w, world_ok K T (<[r := y]> R) w ∧ runnables w !! r = Some y) (k y) Q X) →
  triple (λ w, ∃ y, world_ok K T (<[r := y]> R) w) (load_runnable r ≫= k) Q X.
Proof.
  intros H w [y Hw]. destruct (wo_R _ _ _ _ Hw r y) as [Hr Hy]; [by rewrite lookup_insert_eq|].
  erewrite bind_Ret by (by apply load_runnable_run). by apply H.
Qed.

Lemma Start_ok K T R r : r ∈ T → safe (world_ok K T R) (Start handler OnStart_result r).
Proof.
  intros Hr. unfold Start.
  apply (triple_bind _ _ _ (λ _ w, R !! r = None ∧ ∃ y, world_ok K T (<[r := y]> R) w)).
  { eapply triple_conseq; [by apply (lock_ok K T R r)|done|done|done]. }
  intros []. apply triple_pure. intros Hn.
  apply (triple_at_exit _ _ _ (λ _ w, ∃ y, world_ok K T (<[r := y]> R) w) (λ _ w, ∃ y, world_ok K T (<[r := y]> R) w)).
  - apply load_ok. intros y Hy.
    destruct (m_wasStarted y || m_outstanding y || m_shouldStop y) eqn:E;
      [intros w [Hw _]; by exists y|].
    apply orb_false_iff in E as [[Ew Eo]%orb_false_iff Es].
    set (y1 := mkRunnable true (m_shouldStop y) true (m_locked y)).
    apply (store_emit_ok K T (<[r := y]> R) (<[r := y1]> R) r y y1).
    + done.
    + intros r' z Hz. apply insert_lookup_cases in Hz as [?|[n Hz]]; [by left|right|done].
      by rewrite lookup_insert_ne.
    + destruct (OnStart_result r).
      { intros w Hw. simpl. exists y1. exact Hw. }
      intros w Hw. destruct (wo_R _ _ _ _ Hw r y1) as [Hr1 _]; [by rewrite lookup_insert_eq|].
      rewrite !bind_assoc. erewrite bind_Ret by (by apply load_runnable_run).
      set (y2 := mkRunnable (m_wasStarted y1) true false (m_locked y1)).
      apply (store_emit_ok K T (<[r := y1]> R) (<[r := y2]> R) r y1 y2); [done| | | |by split].
      * intros r' z Hz. apply insert_lookup_cases in Hz as [?|[n Hz]]; [by left|right|done].
        by rewrite lookup_insert_ne.
      * intros w' Hw'. exists y2. exact Hw'.
      * intros x w' Hw'. by exists y2.
    + intros x w Hw. by exists y1.
  - intros _. apply (triple_conseq _ _ _ _ _ _ _ (unlock_ok K T R r Hn)); done.
  - intros _. apply (triple_conseq _ _ _ _ _ _ _ (unlock_ok K T R r Hn)); done.
Qed.

Lemma Stop_ok K T R r graceful : r ∈ T → safe (world_ok K T R) (Stop handler r graceful).
Proof.
  intros Hr. unfold Stop.
  apply (triple_bind _ _ _ (λ _ w, R !! r = None ∧ ∃ y, world_ok K T (<[r := y]> R) w)).
  { eapply triple_conseq; [by apply (lock_ok K T R r)|done|done|done]. }
  intros []. apply triple_pure. intros Hn. apply load_ok. intros y Hy.
  apply (triple_bind _ _ _ (λ _ w, ∃ y, world_ok K T (<[r := y]> R) w)).
  2: { intros []. apply load_ok. intros y' Hy' w [Hw Hrw].
       erewrite bind_Ret by apply store_runnable_run.
       refine (triple_conseq _ _ _ _ _ _ _ (unlock_ok K T R r Hn) _ _ _ (stored w r _ []) _);
         [intros ? H; exact H|done|done|].
       exists (mkRunnable (m_wasStarted y') (m_shouldStop y') false (m_locked y')).
       eapply world_ok_stored; [exact Hw|exact Hrw|done|].
       intros r' z [?|[n Hz]]%insert_lookup_cases; [by left|right|done]. by rewrite lookup_insert_ne. }
  destruct (m_shouldStop y) eqn:Es; [intros w [Hw _]; by exists y|].
  intros w [Hw Hrw]. erewrite bind_Ret by apply store_runnable_run.
  set (y1 := mkRunnable _ _ _ _).
  (* unlocking stores the record again; the callback then runs with the lock free *)
  unfold unlock_runnable. rewrite bind_assoc.
  erewrite bind_Ret; [|apply (load_runnable_run _ _ y1); simpl; by rewrite lookup_insert_eq].
  erewrite bind_Ret by apply store_runnable_run. unfold emit. rewrite bind_assoc.
  erewrite bind_Ret; [|done].
  assert (world_ok K T R (stored w r (set_locked false y1) [ev_OnStop r graceful])) as Hw'.
  { eapply world_ok_stored; [exact Hw|exact Hrw|done|]. intros r' z Hz. right.
    assert (r' ≠ r) as n by congruence. split; [done|]. by rewrite lookup_insert_ne. }
  replace (set_log _ _) with (stored w r (set_locked false y1) [ev_OnStop r graceful]).
  2: { unfold stored, set_log, set_runnables. simpl. by rewrite !app_nil_r, insert_insert_eq. }
  revert Hw'. generalize (stored w r (set_locked false y1) [ev_OnStop r graceful]).
  apply (triple_bind (world_ok K T R) _ _ (λ _, world_ok K T R)); [apply handler_ok|].
  intros []. eapply triple_conseq; [by apply (lock_ok K T R r)|done| |done].
  intros [] w' [_ H]. exact H.
Qed.

(** ** Reading the world *)
(** What is fixed of every context there is. *)
Definition all_links (w : World) : gmap ctx fixed := fixes <$> contexts w.

Lemma all_links_lookup w c x : contexts w !! c = Some x → all_links w !! c = Some (fixes x).
Proof. intros H. unfold all_links. by rewrite lookup_fmap, H. Qed.

Lemma world_ok_all K T R w :
  world_ok K T R w → world_ok (all_links w) (elements (dom (runnables w))) R w ∧ K ⊆ all_links w ∧
  T ⊆ elements (dom (runnables w)).
Proof.
  intros Hw. split_and!.
  - destruct Hw; split; try done.
    + intros d pb Hd. unfold all_links in Hd. rewrite lookup_fmap in Hd.
      destruct (contexts w !! d) as [x|]; [|done]. exists x. by simplify_eq/=.
    + intros d Hd%elem_of_elements. by apply elem_of_dom in Hd.
  - apply map_subseteq_spec. intros d pb Hd. destruct (wo_K _ _ _ _ Hw d pb Hd) as (x & Hx & <-).
    by apply all_links_lookup.
  - intros d Hd. apply elem_of_elements, elem_of_dom. by apply (wo_T _ _ _ _ Hw).
Qed.

(** A step that reads the world: what exists when it reads exists afterwards. *)
Lemma world_read K T R {B} (k : World → M World B) :
  (∀ w T', world_ok (all_links w) T' R w → K ⊆ all_links w → T ⊆ T' →
     (∀ r, is_Some (runnables w !! r) → r ∈ T') →
     safe (world_ok (all_links w) T' R) (k w)) →
  safe (world_ok K T R) (get ≫= k).
Proof.
  intros Hk w Hw. destruct (world_ok_all _ _ _ _ Hw) as (Hw' & HKK & HTT).
  change ((get ≫= k) w) with (k w w).
  refine (triple_conseq _ _ _ _ _ _ _ (Hk w _ Hw' HKK HTT _) _ _ _ w Hw'); try done.
  - intros r Hd. by apply elem_of_elements, elem_of_dom.
  - intros a s H. by eapply world_ok_weaken.
  - intros e s H. by eapply world_ok_weaken.
Qed.

(** The same for a step that reads a context. *)
Lemma context_read K T R c {B} (k : CoreContext → M World B) :
  is_Some (K !! c) →
  (∀ w x T', world_ok (all_links w) T' R w → contexts w !! c = Some x → K ⊆ all_links w → T ⊆ T' →
     (∀ r, r ∈ m_threads x → r ∈ T') → safe (world_ok (all_links w) T' R) (k x)) →
  safe (world_ok K T R) (context c ≫= k).
Proof.
  intros [pb Hc] Hk. unfold context. intros w. rewrite bind_assoc. revert w.
  apply world_read. intros w T' Hw HKK HTT Hr.
  destruct (wo_K _ _ _ _ Hw c pb) as (x & Hx & _); [by eapply lookup_weaken|].
  rewrite Hx. intros w' Hw'. erewrite bind_Ret by done. eapply (Hk w x T'); try done.
  intros r Hin. apply Hr. by eapply (wo_threads _ _ _ _ Hw).
Qed.

Lemma update_ok K T R c f :
  is_Some (K !! c) → (∀ x, fixes (f x) = fixes x ∧ m_children (f x) = m_children x) →
  (∀ x r, r ∈ m_threads (f x) → r ∈ m_threads x ∨ r ∈ T) →
  safe (world_ok K T R) (update c f).
Proof.
  intros [pb Hc] Hl Ht w Hw. destruct (wo_K _ _ _ _ Hw c pb Hc) as (x & Hx & _).
  rewrite (update_run _ _ x) by done. destruct (Hl x) as [E1 E2].
  pose proof (f_equal fst E1) as E3. pose proof (f_equal snd E1) as E4. simpl in E3, E4.
  eapply world_ok_update; [done|exact Hx|done| |apply Ht|by right].
  rewrite E2. apply children_ok_same; [apply (wo_tree _ _ _ _ Hw)|done].
Qed.

(** ** Growing the tree *)
Lemma assign_node_slots node o l : (assign_node node o l).*1 = l.*1.
Proof.
  unfold assign_node. rewrite <-list_fmap_compose. apply list_fmap_ext. intros i [s d] _. simpl.
  destruct (Nat.eqb_spec s node) as [->|]; done.
Qed.

Lemma elem_of_assign_node node o l s d :
  (s, d) ∈ assign_node node o l → (s = node ∧ d = o) ∨ (s, d) ∈ l.
Proof.
  unfold assign_node. intros ([s' d'] & E & Hin)%list_elem_of_fmap. simpl in E.
  destruct (Nat.eqb_spec s' node) as [->|]; simplify_eq; auto.
Qed.

(** The node reserved for a new context gets its pointer. *)
Lemma assign_node_ok K T R p n s a b l :
  is_Some (K !! p) → K !! n = Some (Some p, s, a, b, l) →
  safe (world_ok K T R) (update p (λ x, set_children (assign_node s (Some n) (m_children x)) x)).
Proof.
  intros [pb Hp] Hn w Hw. destruct (wo_K _ _ _ _ Hw p pb Hp) as (px & Hpx & _).
  destruct (wo_K _ _ _ _ Hw n _ Hn) as (x & Hx & [= E1 E2 E3 E4 E5]).
  rewrite (update_run _ _ px) by done.
  eapply world_ok_update; [done|exact Hpx|done| |by left|by right].
  destruct (children_ok_same _ _ _ (wo_tree _ _ _ _ Hw) Hpx) as (Hkeep & Hptr & Hnd & Hlt).
  unfold children_ok. simpl. rewrite assign_node_slots. split_and!; try done.
  intros s' d [[-> [= ->]]|?]%elem_of_assign_node; [|by apply Hptr].
  split; [by eapply (to_next _ (wo_tree _ _ _ _ Hw))|]. intros dx Hdx.
  assert (Some dx = Some x) as [= ->] by (rewrite <-Hx; symmetry; exact Hdx). done.
Qed.

(** A node is reserved in the list of [p]. *)
Definition reserved (p : ctx) (px : CoreContext) (w : World) : World :=
  set_contexts (<[p := set_children (m_children px ++ [(next_slot w, None)]) px]> (contexts w))
    (set_next_slot (S (next_slot w)) w).

Lemma next_slot_ok K T R w : world_ok K T R w → world_ok K T R (set_next_slot (S (next_slot w)) w).
Proof.
  intros [Ht Hr Hth HK HT HR Hcur]. split; simpl; auto; [|by destruct Hr; split].
  split; simpl; try apply Ht.
  - intros c x p Hc Hp. destruct (to_parent _ Ht c x p Hc Hp) as (? & ? & ?). auto with lia.
  - intros p px Hp. destruct (to_nodup _ Ht p px Hp) as [? H]. split; [done|].
    intros s Hs. specialize (H s Hs). lia.
Qed.

Lemma reserved_ok K T R w p px :
  world_ok K T R w → contexts w !! p = Some px → world_ok K T R (reserved p px w).
Proof.
  intros Hw Hp. unfold reserved.
  pose proof (next_slot_ok _ _ _ _ Hw) as Hw'.
  apply (world_ok_update K T R (set_next_slot (S (next_slot w)) w) p px); [done|done|done| |by left|by right].
  destruct (children_ok_same _ _ _ (wo_tree _ _ _ _ Hw) Hp) as (Hkeep & Hptr & Hnd & Hlt).
  unfold children_ok. simpl. rewrite fmap_app. simpl. split_and!.
  - intros d dx Hd Hpd He. apply elem_of_app. left. by eapply Hkeep.
  - intros s d [?|[=]%list_elem_of_singleton]%elem_of_app. by apply Hptr.
  - apply NoDup_app. split; [done|]. split; [|by apply NoDup_singleton].
    intros z Hz ->%list_elem_of_singleton. apply Hlt in Hz. lia.
  - intros z [Hz| ->%list_elem_of_singleton]%elem_of_app; [apply Hlt in Hz; lia|lia].
Qed.

(** A context is constructed for node [s] of the list of [p]. *)
Definition born (p : ctx) (px : CoreContext) (s : slot) (sg : sigil) (w : World) : World :=
  set_next_ctx (S (next_ctx w))
    (set_contexts (<[next_ctx w := CoreContext_new (Some p) (S (AncestorCount px)) s sg]> (contexts w)) w).

(** No context refers to node [s] of [p] yet. *)
Definition free_node (w : World) (px : CoreContext) (s : slot) : Prop :=
  s ∈ (m_children px).*1 ∧ s < next_slot w ∧
  ∀ d dx, contexts w !! d = Some dx → m_pParent dx ≠ None → m_backReference dx ≠ s.

Lemma next_ctx_free w : tree_ok w → contexts w !! next_ctx w = None.
Proof.
  intros Ht. destruct (contexts w !! next_ctx w) as [x|] eqn:E; [|done].
  apply (to_next _ Ht) in E. lia.
Qed.

Lemma born_tree w p px s sg :
  tree_ok w → contexts w !! p = Some px → m_expired px = false → free_node w px s →
  tree_ok (born p px s sg w).
Proof.
  intros Ht Hp Hex (Hin & Hlt & Hfree). pose proof (next_ctx_free w Ht) as Hn.
  assert (∀ d y, contexts w !! d = Some y → contexts (born p px s sg w) !! d = Some y) as Hfwd.
  { intros d y Hd. simpl. rewrite lookup_insert_ne; [done|congruence]. }
  split; simpl.
  - intros d y [[<- <-]|[? Hd]]%lookup_insert_Some; [lia|]. apply (to_next _ Ht) in Hd. lia.
  - intros d y q [[<- <-]|[? Hd]]%lookup_insert_Some Hq; simpl in *.
    + simplify_eq. split; [by apply (to_next _ Ht) in Hp|]. split; [done|]. exists px. by split; [apply Hfwd|].
    + destruct (to_parent _ Ht d y q Hd Hq) as (? & ? & qx & Hqx & ?). split; [done|]. split; [done|].
      exists qx. by split; [apply Hfwd|].
  - intros q qx s' d [[<- <-]|[? Hq]]%lookup_insert_Some Hin'; [by apply elem_of_nil in Hin'|].
    destruct (to_child _ Ht q qx s' d Hq Hin') as [Hd Hdx]. split; [lia|].
    intros dx [[<- <-]|[_ Hd']]%lookup_insert_Some; [lia|by apply Hdx].
  - intros q qx [[<- <-]|[? Hq]]%lookup_insert_Some; [|by apply (to_nodup _ Ht q)].
    simpl. split; [constructor|]. by intros ? ?%elem_of_nil.
  - intros d d' y y' [[<- <-]|[? Hd]]%lookup_insert_Some [[<- <-]|[? Hd']]%lookup_insert_Some; simpl; intros N N' E; [done| | |].
    + exfalso. by eapply (Hfree d' y').
    + exfalso. by eapply (Hfree d y).
    + by eapply (to_backref _ Ht).
Qed.

Lemma born_ok K T R w p px s sg :
  world_ok K T R w → contexts w !! p = Some px → m_expired px = false → free_node w px s →
  world_ok (<[next_ctx w := (Some p, s, S (AncestorCount px), false, ∅)]> K) T R (born p px s sg w).
Proof.
  intros [Ht Hr Hth HK HT HR Hcur] Hp Hex Hfree. pose proof (next_ctx_free w Ht) as Hn.
  assert (∀ d y, contexts w !! d = Some y → contexts (born p px s sg w) !! d = Some y) as Hfwd.
  { intros d y Hd. simpl. rewrite lookup_insert_ne; [done|congruence]. }
  split; auto; [by apply born_tree|by destruct Hr; split| | |].
  - simpl. intros d y r [[<- <-]|[? Hd]]%lookup_insert_Some Hin; [by apply elem_of_nil in Hin|by eapply Hth].
  - intros d pb [[<- <-]|[? Hd]]%lookup_insert_Some; [simpl; rewrite lookup_insert_eq; by eexists|].
    destruct (HK d pb Hd) as (y & Hy & <-). exists y. by split; [apply Hfwd|].
  - intros d (y & Hy & Ey)%Hcur. exists y. by split; [apply Hfwd|].
Qed.

(** ** Every operation keeps the world *)
Definition known_live (K : gmap ctx fixed) (c : ctx) : Prop := ∃ p s a l, K !! c = Some (p, s, a, false, l).

Lemma known_live_weaken K K' c : known_live K c → K ⊆ K' → known_live K' c.
Proof. intros (p & s & a & l & H) HK. exists p, s, a, l. by eapply lookup_weaken. Qed.

Lemma all_links_live w c x : contexts w !! c = Some x → m_expired x = false → known_live (all_links w) c.
Proof.
  intros Hc He. exists (m_pParent x), (m_backReference x), (AncestorCount x), (m_nameListeners x).
  rewrite <-He. by apply all_links_lookup.
Qed.

Lemma SetCurrent_ok K T R o :
  (∀ c, o = Some c → known_live K c) → safe (world_ok K T R) (SetCurrent o).
Proof.
  intros Ho w Hw. unfold SetCurrent. case_bool_decide; [done|].
  destruct Hw as [Ht Hr Hth HK HT HR Hcur]. split; simpl; auto; [by destruct Ht; split|by destruct Hr; split|].
  intros c ->. destruct (Ho c eq_refl) as (p & s & a & l & Hc). destruct (HK c _ Hc) as (x & Hx & [= E1 E2 E3 E4 E5]). by exists x.
Qed.

(** Restoring what was current before. *)
Lemma with_prior_ok K T R c {A} (m : M World A) :
  known_live K c → (∀ K', K ⊆ K' → safe (world_ok K' T R) m) → safe (world_ok K T R) (with_pushed c m).
Proof.
  intros Hc Hm w Hw. unfold with_pushed.
  destruct (world_ok_all _ _ _ _ Hw) as (Hw' & HKK & HTT).
  assert (∃ w1, SetCurrent (Some c) w = (Ret (autoCurrentContext w), w1)) as [w1 E].
  { unfold SetCurrent. case_bool_decide; eauto. }
  erewrite bind_Ret by exact E.
  assert (world_ok (all_links w) T R w1) as Hw1.
  { assert (safe (world_ok (all_links w) T R) (SetCurrent (Some c))) as Hs.
    { apply SetCurrent_ok. intros ? [= <-]. by eapply known_live_weaken. }
    specialize (Hs w). rewrite E in Hs. apply Hs. by eapply world_ok_weaken. }
  refine (triple_conseq _ _ _ _ _ _ _ (_ : safe (world_ok (all_links w) T R) _) _ _ _ w1 Hw1); [|done| |].
  - apply (triple_at_exit _ _ _ (λ _, world_ok (all_links w) T R) (λ _, world_ok (all_links w) T R));
      [by apply Hm| |]; intros u; (apply safe_bind; [|intros; apply safe_ret]);
      apply SetCurrent_ok; intros c' E'; apply (wo_current _ _ _ _ Hw) in E' as (y & Hy & Ey);
      by eapply all_links_live.
  - intros a s H. by eapply world_ok_weaken.
  - intros e s H. by eapply world_ok_weaken.
Qed.

Lemma parent_known w c x p :
  tree_ok w → contexts w !! c = Some x → m_pParent x = Some p → is_Some (all_links w !! p).
Proof.
  intros Ht Hc Hp. destruct (to_parent _ Ht c x p Hc Hp) as (_ & _ & px & Hpx & _).
  exists (fixes px). by apply all_links_lookup.
Qed.

Lemma live_known w o c : lock o w = Some c → known_live (all_links w) c.
Proof.
  unfold lock. destruct o as [d|]; [|done]. destruct (contexts w !! d) as [x|] eqn:E; [|done].
  destruct (m_expired x) eqn:Ex; [done|]. intros [= ->]. by eapply all_links_live.
Qed.

Lemma first_live_known w l s c : first_live l w = Some (s, c) → known_live (all_links w) c.
Proof.
  induction l as [|[s' o] l IH]; simpl; [done|]. destruct (lock o w) as [d|] eqn:E; [|done].
  intros [= -> ->]. by eapply live_known.
Qed.

Lemma known_live_known K c : known_live K c → is_Some (K !! c).
Proof. intros (p & s & a & l & H). by eexists. Qed.

Lemma shared_from_this_ok K T R c : is_Some (K !! c) → safe (world_ok K T R) (shared_from_this c).
Proof.
  intros Hc. apply context_read; [done|]. intros w x T' _ _ _ _ _.
  destruct (m_expired x); [apply safe_throw|apply safe_ret].
Qed.

Lemma tell_listeners_ok K T R c k fx l rest :
  K !! c = Some fx → l = default [] (fx.2 !! k) → safe (world_ok K T R) (tell_listeners handler c k l rest).
Proof.
  intros Hc Hl. induction rest as [|b rest IH]; simpl; [apply safe_ret|].
  apply triple_read. intros w' _. apply safe_bind; [by apply emit_ok|intros _].
  intros w Hw. destruct (wo_K _ _ _ _ Hw c fx Hc) as (x & Hx & <-).
  erewrite bind_Ret by (by apply context_run). rewrite bool_decide_eq_true_2 by done. by apply IH.
Qed.

Lemma tell_all_ok K T R c k : is_Some (K !! c) → safe (world_ok K T R) (tell_all handler c k).
Proof.
  intros [fx Hc]. apply context_read; [by eexists|]. intros w x T' Hw Hx HK HT _.
  eapply tell_listeners_ok; [by apply all_links_lookup|done].
Qed.

Lemma BroadcastContextCreationNotice_ok fuel : ∀ K T R c sg,
  is_Some (K !! c) → safe (world_ok K T R) (BroadcastContextCreationNotice handler fuel c sg).
Proof.
  induction fuel as [|fuel IH]; intros K T R c sg Hc; cbn [BroadcastContextCreationNotice]; [by apply safe_stuck|].
  apply safe_bind; [by apply tell_all_ok|intros _].
  apply safe_bind; [destruct (sg =? void_sigil); [apply safe_ret|by apply tell_all_ok]|intros _].
  apply context_read; [done|]. intros w x T' Hw Hx HK HT Hth.
  destruct (m_pParent x) as [p|] eqn:Ep; [|apply safe_ret].
  apply IH. by eapply parent_known; [apply (wo_tree _ _ _ _ Hw)|..].
Qed.

Lemma set_state_ok K T R c s : is_Some (K !! c) → safe (world_ok K T R) (update c (set_state s)).
Proof. intros Hc. by apply update_ok; [| |left]. Qed.

Lemma set_beforeRunning_ok K T R c b : is_Some (K !! c) → safe (world_ok K T R) (update c (set_beforeRunning b)).
Proof. intros Hc. by apply update_ok; [| |left]. Qed.

Lemma for_each_in_ok {A} K T R (body : A → M World unit) l :
  (∀ a, a ∈ l → safe (world_ok K T R) (body a)) → safe (world_ok K T R) (for_each body l).
Proof.
  induction l as [|a l IH]; intros H; simpl; [apply safe_ret|].
  apply safe_bind; [apply H; left|intros _; apply IH]. intros b Hb. apply H. by right.
Qed.

Lemma SignalShutdown_ok fuel : ∀ K T R c graceful,
  is_Some (K !! c) → safe (world_ok K T R) (SignalShutdown handler fuel c graceful).
Proof.
  induction fuel as [|fuel IH]; intros K T R c graceful Hc; simpl; [by apply safe_stuck|].
  apply context_read; [done|]. intros w x T' Hw Hx HK HT Hth.
  assert (is_Some (all_links w !! c)) as Hc' by (by eapply lookup_weaken_is_Some).
  assert (safe (world_ok (all_links w) T' R)
    (update c (set_state match m_state x with NotStarted | CanRun => Abandoned | _ => Shutdown end);;
     emit handler (ev_onShutdown c);;
     context c ≫= λ x0, get ≫= λ w, for_each (λ child, SignalShutdown handler fuel child graceful)
       (rev (omap (λ e, lock e.2 w) (m_children x0)));;
     for_each (λ r, Stop handler r graceful) (if m_beforeRunning x then tail (m_threads x) else m_threads x))) as Hmain.
  { apply safe_bind; [by apply set_state_ok|intros _].
    apply safe_bind; [by apply emit_ok|intros _].
    apply context_read; [done|]. intros w1 x1 T1 Hw1 Hx1 HK1 HT1 Hth1.
    apply world_read. intros w2 T2 Hw2 HK2 HT2 Hr2.
    apply safe_bind; [|intros _]; apply for_each_in_ok.
    - intros d Hd. apply IH. apply list_elem_of_In, in_rev in Hd. apply list_elem_of_In in Hd.
      apply list_elem_of_omap in Hd as (e & _ & He). by eapply known_live_known, live_known.
    - intros r Hr. apply Stop_ok, HT2, HT1, Hth.
      destruct (m_beforeRunning x); [|done]. destruct (m_threads x); [done|by right]. }
  destruct (m_state x); try apply safe_ret; exact Hmain.
Qed.

(** The end of [CreateInternal]: the new context [n] is current and gets into the list. *)
Lemma CreateInternal_tail K T R fuel p n s a l sg :
  is_Some (K !! p) → K !! n = Some (Some p, s, a, false, l) →
  safe (world_ok K T R)
    (x ← context p;
     (if IsRunning x then update n (set_state CanRun) else mret tt);;
     BroadcastContextCreationNotice handler fuel p sg;;
     update p (λ x, set_children (assign_node s (Some n) (m_children x)) x);;
     x ← context p;
     (if IsShutdown x then SignalShutdown handler fuel n true else mret tt);;
     mret n).
Proof.
  intros Hp Hn. apply context_read; [done|]. intros w1 x T1 Hw1 Hx HK1 HT1 _.
  assert (all_links w1 !! n = Some (Some p, s, a, false, l)) as Hn1 by (by eapply lookup_weaken).
  assert (is_Some (all_links w1 !! p)) as Hp1 by (by eapply lookup_weaken_is_Some).
  apply safe_bind; [destruct (IsRunning x); [by apply set_state_ok|apply safe_ret]|intros _].
  apply safe_bind; [by apply BroadcastContextCreationNotice_ok|intros _].
  apply safe_bind; [by eapply assign_node_ok|intros _].
  apply context_read; [done|]. intros w2 x2 T2 Hw2 Hx2 HK2 HT2 _.
  apply safe_bind; [|intros; apply safe_ret].
  destruct (IsShutdown x2); [|apply safe_ret].
  apply SignalShutdown_ok. eexists. by eapply lookup_weaken.
Qed.

Lemma reserved_free w p px :
  tree_ok w → contexts w !! p = Some px →
  contexts (reserved p px w) !! p = Some (set_children (m_children px ++ [(next_slot w, None)]) px) ∧
  free_node (reserved p px w) (set_children (m_children px ++ [(next_slot w, None)]) px) (next_slot w).
Proof.
  intros Ht Hp. split; [simpl; by rewrite lookup_insert_eq|]. split; [|split].
  - simpl. rewrite fmap_app. apply elem_of_app. right. by left.
  - simpl. lia.
  - simpl. intros d dx Hd Hn.
    assert (∃ y, contexts w !! d = Some y ∧ m_pParent y ≠ None ∧ m_backReference y = m_backReference dx) as (y & Hy & Ny & <-).
    { apply lookup_insert_Some in Hd as [[<- <-]|[_ Hd]]; [by exists px|by exists dx]. }
    destruct (m_pParent y) as [q|] eqn:E; [|done]. destruct (to_parent _ Ht d y q Hy E) as (_ & ? & _). lia.
Qed.

Lemma CreateInternal_ok K T R fuel p sg :
  is_Some (K !! p) → safe (world_ok K T R) (CreateInternal handler fuel p sg).
Proof.
  intros [pb Hp] w Hw. destruct (wo_K _ _ _ _ Hw p pb Hp) as (px & Hpx & Epb).
  unfold CreateInternal. erewrite bind_Ret by (by apply context_run).
  destruct (IsShutdown px); [done|]. erewrite bind_Ret; [|done]. erewrite bind_Ret; [|done].
  erewrite bind_Ret by (by apply update_run).
  set (s := next_slot w). set (px' := set_children (m_children px ++ [(s, None)]) px).
  pose proof (reserved_ok _ _ _ _ p px Hw Hpx) as Hw1.
  destruct (reserved_free w p px (wo_tree _ _ _ _ Hw) Hpx) as [Hpx1 Hfree]. fold s px' in Hpx1, Hfree.
  change (set_contexts _ _) with (reserved p px w). set (w1 := reserved p px w) in *.
  unfold shared_from_this. rewrite bind_assoc. erewrite bind_Ret by (by apply context_run).
  destruct (m_expired px') eqn:Ex; [by erewrite bind_Throw|]. erewrite bind_Ret; [|done].
  unfold alloc_child. rewrite bind_assoc. erewrite bind_Ret by (by apply context_run).
  rewrite bind_assoc. erewrite bind_Ret; [|done]. rewrite bind_assoc. erewrite bind_Ret; [|done].
  erewrite bind_Ret; [|done].
  pose proof (born_ok _ _ _ _ p px' s sg Hw1 Hpx1 Ex Hfree) as Hb.
  change (set_next_ctx _ _) with (born p px' s sg w1).
  assert (K !! next_ctx w1 = None) as HKn.
  { destruct (K !! next_ctx w1) eqn:E; [|done]. destruct (wo_K _ _ _ _ Hw1 _ _ E) as (y & Hy & _).
    rewrite (next_ctx_free w1) in Hy by apply (wo_tree _ _ _ _ Hw1). done. }
  set (n := next_ctx w1) in *. set (K1 := <[n := _]> K) in Hb.
  assert (K ⊆ K1) as HK1 by (by apply insert_subseteq).
  assert (K1 !! n = Some (Some p, s, S (AncestorCount px'), false, ∅)) as Hn by (unfold K1; by rewrite lookup_insert_eq).
  refine (triple_conseq _ _ _ _ _ _ _ (_ : safe (world_ok K1 T R) _) _ _ _ _ Hb);
    [|done|intros a w' H; by eapply world_ok_weaken|intros e w' H; by eapply world_ok_weaken].
  apply safe_bind; [by apply emit_ok|intros _].
  apply with_prior_ok; [by eexists _, _, _, _|]. intros K' HK'.
  eapply CreateInternal_tail; [|by eapply lookup_weaken].
  exists pb. eapply lookup_weaken; [|exact HK']. by eapply lookup_weaken.
Qed.

Lemma AddCoreRunnable_ok K T R c r :
  is_Some (K !! c) → r ∈ T → safe (world_ok K T R) (AddCoreRunnable handler OnStart_result c r).
Proof.
  intros Hc Hr. unfold AddCoreRunnable. apply safe_bind.
  { apply update_ok; [done|done|]. intros x r'. simpl. intros [->|?]%elem_of_cons; auto. }
  intros _. apply context_read; [done|]. intros w x T' Hw Hx HK HT _.
  assert (is_Some (all_links w !! c)) as Hc' by (by eapply lookup_weaken_is_Some).
  apply safe_bind; [by apply set_beforeRunning_ok|intros _].
  apply safe_bind.
  { destruct (IsRunning x); [|apply safe_ret].
    apply safe_bind; [by apply shared_from_this_ok|intros _].
    apply safe_bind; [by apply Start_ok, HT|intros; apply safe_ret]. }
  intros _. apply safe_bind; [by apply set_beforeRunning_ok|intros _].
  apply context_read; [done|]. intros w2 x2 T2 Hw2 Hx2 HK2 HT2 _.
  destruct (IsShutdown x2); [by apply Stop_ok, HT2, HT|apply safe_ret].
Qed.

(** A new runnable is known afterwards. *)
Lemma new_runnable_ok K T R :
  triple (world_ok K T R) new_runnable (λ r, world_ok K (r :: T) R) (λ _ _, False).
Proof.
  intros w Hw. unfold new_runnable. destruct Hw as [Ht [Hc Hf] Hth HK HT HR Hcur].
  assert (runnables w !! next_runnable w = None) as Hn.
  { destruct (runnables w !! next_runnable w) as [y|] eqn:E; [|done]. apply Hc in E. lia. }
  assert (∀ r, is_Some (runnables w !! r) → is_Some (<[next_runnable w := CoreRunnable_new]> (runnables w) !! r)) as Hs.
  { intros r H. destruct (decide (next_runnable w = r)) as [<-|ne]; [by rewrite lookup_insert_eq|by rewrite lookup_insert_ne]. }
  split; simpl; auto; [by destruct Ht; split| | | |].
  - split; simpl.
    + intros r y [[<- <-]|[ne Hr]]%lookup_insert_Some; [|destruct (Hc r y Hr); split; [lia|done]].
      destruct (Hf _ Hn) as [-> ->]. split; [lia|done].
    + intros r [Hr ne]%lookup_insert_None. by apply Hf.
  - intros c x r Hx Hin. apply Hs. by eapply Hth.
  - intros r [->|Hr]%elem_of_cons; [by rewrite lookup_insert_eq|apply Hs; by apply HT].
  - intros r y Hr. rewrite lookup_insert_ne; [by apply HR|]. intros <-. apply HR in Hr as [? _]. congruence.
Qed.

Lemma add_new_runnable_ok K T R c :
  is_Some (K !! c) → safe (world_ok K T R) (r ← new_runnable; AddCoreRunnable handler OnStart_result c r).
Proof.
  intros Hc. eapply triple_bind; [eapply triple_conseq; [apply new_runnable_ok|done|intros a s H; exact H|done]|].
  intros r. eapply triple_conseq; [apply (AddCoreRunnable_ok K (r :: T) R c r); [done|left]|done| |];
    (intros a s H; eapply world_ok_weaken; [exact H|done|set_solver|done]).
Qed.

Lemma start_all_ok K T R l : (∀ r, r ∈ l → r ∈ T) →
  safe (world_ok K T R) (for_each (λ r, _ ← Start handler OnStart_result r; mret tt) l).
Proof.
  intros Hl. apply for_each_in_ok. intros r Hr.
  apply safe_bind; [by apply Start_ok, Hl|intros; apply safe_ret].
Qed.

Lemma transition_loop_ok R recurse n :
  (∀ K T c, is_Some (K !! c) → safe (world_ok K T R) (recurse c)) →
  ∀ K T c prior, is_Some (K !! c) →
  safe (world_ok K T R) (transition_loop handler OnStart_result recurse n c prior).
Proof.
  intros Hrec. induction n as [|n IHn]; intros K T c prior Hc; cbn [transition_loop]; (apply context_read; [done|]);
    intros w x T' Hw Hx HK HT Hth; apply world_read; intros w1 T1 Hw1 HK1 HT1 Hr1;
    (destruct (first_live _ w1) as [[s d]|] eqn:El; [|apply safe_ret]); [by apply safe_stuck|].
  apply first_live_known, known_live_known in El.
  assert (is_Some (all_links w1 !! c)) as Hc1.
  { eapply lookup_weaken_is_Some; [|exact HK1]. by eapply lookup_weaken_is_Some. }
  apply context_read; [done|]. intros w2 dx T2 Hw2 Hdx HK2 HT2 Hth2.
  assert (is_Some (all_links w2 !! d)) as Hd2 by (by eapply lookup_weaken_is_Some).
  assert (is_Some (all_links w2 !! c)) as Hc2 by (by eapply lookup_weaken_is_Some).
  apply safe_bind; [|intros _; by apply IHn].
  destruct (m_state dx); try apply safe_ret; [by apply set_state_ok|].
  apply safe_bind; [by apply set_state_ok|intros _].
  apply safe_bind; [by apply start_all_ok|intros _].
  apply safe_bind; [by apply emit_ok|intros _]. by apply Hrec.
Qed.

Lemma TryTransitionChildrenState_ok R fuel : ∀ K T c,
  is_Some (K !! c) → safe (world_ok K T R) (TryTransitionChildrenState handler OnStart_result fuel c).
Proof.
  induction fuel as [|fuel IH]; intros K T c Hc; cbn [TryTransitionChildrenState]; [by apply safe_stuck|].
  by apply transition_loop_ok.
Qed.

Lemma Initiate_ok K T R fuel c :
  is_Some (K !! c) → safe (world_ok K T R) (Initiate handler OnStart_result fuel c).
Proof.
  intros Hc. unfold Initiate. apply context_read; [done|]. intros w x T' Hw Hx HK HT Hth.
  assert (is_Some (all_links w !! c)) as Hc' by (by eapply lookup_weaken_is_Some).
  destruct (IsInitiated x); [apply safe_ret|].
  destruct (m_state x); try apply safe_ret.
  all: apply safe_bind; [by apply set_state_ok|intros _].
  1: destruct (IsGlobalContext x).
  all: apply safe_bind; [by apply emit_ok|intros _].
  1,3: apply safe_bind; [destruct (m_threads x); [apply safe_ret|by apply shared_from_this_ok]|intros _];
    apply safe_bind; [by apply start_all_ok|intros _];
    apply safe_bind; [by apply emit_ok|intros _]; by apply TryTransitionChildrenState_ok.
  apply safe_bind; [by apply shared_from_this_ok|intros _].
  by apply add_new_runnable_ok.
Qed.

Lemma add_filter_ok K T R c f : is_Some (K !! c) → safe (world_ok K T R) (add_filter c f).
Proof. intros Hc. by apply update_ok; [| |left]. Qed.

Lemma run_filters_ok K T R l b : safe (world_ok K T R) (run_filters handler l b).
Proof.
  revert b. induction l as [|f l IH]; intros b; simpl; [apply safe_ret|].
  apply safe_bind; [|done]. eapply triple_catch; [|intros e; apply safe_ret].
  apply safe_bind; [by apply emit_ok|intros; apply safe_ret].
Qed.

Lemma FilterException_ok fuel : ∀ K T R c e,
  is_Some (K !! c) → safe (world_ok K T R) (FilterException handler fuel c e).
Proof.
  induction fuel as [|fuel IH]; intros K T R c e Hc; cbn [FilterException]; [by apply safe_stuck|].
  apply context_read; [done|]. intros w x T' Hw Hx HK HT _.
  apply safe_bind; [apply run_filters_ok|]. intros h. apply safe_bind.
  { destruct (m_pParent x) as [p|] eqn:Ep; [|apply safe_ret].
    eapply triple_catch; [|intros y; apply safe_ret].
    apply safe_bind; [apply IH|intros; apply safe_ret].
    by eapply parent_known; [apply (wo_tree _ _ _ _ Hw)|..]. }
  intros [|]; [apply safe_ret|]. destruct h; [apply safe_ret|apply safe_throw].
Qed.

(** ** Destruction *)
(** The last pointer to [c] goes away: nothing else refers to it. *)
Lemma expire_ok w c x :
  world_ok ∅ [] ∅ w → contexts w !! c = Some x →
  (∀ d dx, contexts w !! d = Some dx → m_pParent dx ≠ Some c) → autoCurrentContext w ≠ Some c →
  world_ok {[c := (m_pParent x, m_backReference x, AncestorCount x, true, m_nameListeners x)]} [] ∅
    (set_contexts (<[c := set_expired true x]> (contexts w)) w).
Proof.
  intros [Ht Hr Hth HK HT HR Hcur] Hc Hnc Hncur.
  assert (∀ d y, <[c := set_expired true x]> (contexts w) !! d = Some y →
    (d = c ∧ y = set_expired true x) ∨ (d ≠ c ∧ contexts w !! d = Some y)) as Hback.
  { intros d y [[<- <-]|[? ?]]%lookup_insert_Some; naive_solver. }
  assert (∀ d y, d ≠ c → contexts w !! d = Some y → <[c := set_expired true x]> (contexts w) !! d = Some y) as Hfwd.
  { intros d y n Hd. by rewrite lookup_insert_ne. }
  split; simpl; try done.
  - split; simpl.
    + intros d y [[-> ->]|[_ Hd]]%Hback; by eapply (to_next _ Ht).
    + intros d y p Hd Hp.
      assert (∃ y0, contexts w !! d = Some y0 ∧ m_pParent y0 = Some p ∧ m_backReference y0 = m_backReference y ∧
        AncestorCount y0 = AncestorCount y ∧ (m_expired y = false → m_expired y0 = false)) as (y0 & H0 & E1 & E2 & E3 & E4).
      { destruct (Hback d y Hd) as [[-> ->]|[_ ?]]; [by exists x|by exists y]. }
      destruct (to_parent _ Ht d y0 p H0 E1) as (? & ? & px & Hpx & ? & ? & Hin).
      split; [done|]. split; [lia|]. exists px. rewrite <-E2, <-E3.
      assert (p ≠ c) by (intros ->; exact (Hnc d y0 H0 E1)). split; [by apply Hfwd|]. auto.
    + intros p px s d Hp Hin.
      assert (∃ p0, contexts w !! p = Some p0 ∧ (s, Some d) ∈ m_children p0) as (p0 & Hp0 & Hin0).
      { destruct (Hback p px Hp) as [[-> ->]|[_ ?]]; [by exists x|by exists px]. }
      destruct (to_child _ Ht p p0 s d Hp0 Hin0) as [? Hdx]. split; [done|].
      intros dx [[-> ->]|[_ Hd]]%Hback; [exact (Hdx x Hc)|by apply Hdx].
    + intros p px [[-> ->]|[_ Hp]]%Hback; [by apply (to_nodup _ Ht c x)|by apply (to_nodup _ Ht p)].
    + assert (∀ d y, <[c := set_expired true x]> (contexts w) !! d = Some y → ∃ y0, contexts w !! d = Some y0 ∧
        m_pParent y0 = m_pParent y ∧ m_backReference y0 = m_backReference y) as Hb.
      { intros d y [[-> ->]|[_ Hd]]%Hback; [by exists x|by exists y]. }
      intros d d' y y' (z & ? & ? & ?)%Hb (z' & ? & ? & ?)%Hb N N' E. apply (to_backref _ Ht d d' z z'); congruence.
  - by destruct Hr; split.
  - intros d y r [[-> ->]|[_ Hd]]%Hback Hin; by eapply Hth.
  - intros d pb [<- <-]%lookup_singleton_Some. exists (set_expired true x). by rewrite lookup_insert_eq.
  - intros d Hd. destruct (Hcur d Hd) as (y & ? & ?). exists y. split; [|done]. apply Hfwd; [congruence|done].
Qed.

(** An expired context leaves the map. *)
Lemma delete_ok w c l a bs T R :
  world_ok {[c := (l, a, true, bs)]} T R w → world_ok ∅ T R (set_contexts (delete c (contexts w)) w).
Proof.
  intros [Ht Hr Hth HK HT HR Hcur]. destruct (HK c (l, a, true, bs)) as (x & Hx & [= Ex1 Ex2 Ex3 Ex4]); [by rewrite lookup_singleton_eq|].
  assert (∀ d y, contexts w !! d = Some y → m_expired y = false → delete c (contexts w) !! d = Some y) as Hfwd.
  { intros d y Hd He. rewrite lookup_delete_ne; [done|congruence]. }
  split; simpl; auto; [|by destruct Hr; split| |done|].
  - split; simpl.
    + intros d y [? Hd]%lookup_delete_Some. by eapply (to_next _ Ht).
    + intros d y p [? Hd]%lookup_delete_Some Hp. destruct (to_parent _ Ht d y p Hd Hp) as (? & ? & px & ? & ? & ? & ?).
      split; [done|]. split; [done|]. exists px. auto.
    + intros p px s d [? Hp]%lookup_delete_Some Hin. destruct (to_child _ Ht p px s d Hp Hin) as [? Hdx].
      split; [done|]. intros dx [_ Hd]%lookup_delete_Some. by apply Hdx.
    + intros p px [_ Hp]%lookup_delete_Some. by apply (to_nodup _ Ht p).
    + intros d d' y y' [_ Hd]%lookup_delete_Some [_ Hd']%lookup_delete_Some. by apply (to_backref _ Ht).
  - intros d y r [_ Hd]%lookup_delete_Some. by apply (Hth d y).
  - intros d (y & Hy & Ey)%Hcur. exists y. auto.
Qed.

(** An expired context leaves the list of its parent. *)
Lemma erase_ok K T R w c x p :
  world_ok K T R w → K !! c = Some (Some p, m_backReference x, AncestorCount x, true, m_nameListeners x) →
  triple (λ w', w' = w) (update p (λ px, set_children (base.filter (λ e, e.1 ≠ m_backReference x) (m_children px)) px))
    (λ _, world_ok K T R) (λ _ _, False).
Proof.
  intros Hw Hc w' ->. destruct (wo_K _ _ _ _ Hw c _ Hc) as (y & Hy & [= E1 E2 E3 E4 E5]).
  destruct (to_parent _ (wo_tree _ _ _ _ Hw) c y p Hy E1) as (_ & _ & px & Hpx & _ & Hex & _).
  rewrite (update_run _ _ px) by done. eapply world_ok_update; [done|exact Hpx|done| |by left|by right].
  destruct (children_ok_same _ _ _ (wo_tree _ _ _ _ Hw) Hpx) as (Hkeep & Hptr & Hnd & Hlt).
  assert (∀ s, s ∈ (base.filter (λ e, e.1 ≠ m_backReference x) (m_children px)).*1 ↔
               s ≠ m_backReference x ∧ s ∈ (m_children px).*1) as Hin.
  { intros s. rewrite !list_elem_of_fmap. split.
    - intros ([s' o] & -> & [? ?]%list_elem_of_filter). simpl in *. split; [done|]. by exists (s', o).
    - intros (n & [s' o] & -> & ?). exists (s', o). split; [done|]. by apply list_elem_of_filter. }
  unfold children_ok. simpl. split_and!.
  - intros d dx Hd Hp He. apply Hin. split; [|by eapply Hkeep]. intros Hb.
    assert (d = c) as -> by (apply (to_backref _ (wo_tree _ _ _ _ Hw) d c dx y); congruence). congruence.
  - intros s d [_ ?]%list_elem_of_filter. by apply Hptr.
  - clear -Hnd. induction (m_children px) as [|e l IH]; [constructor|].
    rewrite filter_cons. simpl in Hnd. apply NoDup_cons in Hnd as [He Hl].
    case_decide; [|by apply IH]. simpl. apply NoDup_cons. split; [|by apply IH].
    intros (e' & E & [_ ?]%list_elem_of_filter)%list_elem_of_fmap. apply He, list_elem_of_fmap. by exists e'.
  - intros s [_ Hs]%Hin. by apply Hlt.
Qed.

Lemma CoreContext_dtor_ok w c x :
  world_ok ∅ [] ∅ w → contexts w !! c = Some x →
  (∀ d dx, contexts w !! d = Some dx → m_pParent dx ≠ Some c) → autoCurrentContext w ≠ Some c →
  triple (λ w', w' = w) (CoreContext_dtor handler c) (λ _, world_ok ∅ [] ∅) (λ _, world_ok ∅ [] ∅).
Proof.
  intros Hw Hc Hnc Hncur w' ->. pose proof (expire_ok w c x Hw Hc Hnc Hncur) as He.
  unfold CoreContext_dtor. erewrite bind_Ret by (by apply update_run).
  erewrite bind_Ret by (apply context_run; simpl; by rewrite lookup_insert_eq).
  set (K := {[c := _]}) in He.
  assert (K !! c = Some (m_pParent x, m_backReference x, AncestorCount x, true, m_nameListeners x)) as HKc by (unfold K; by rewrite lookup_singleton_eq).
  revert He. generalize (set_contexts (<[c := set_expired true x]> (contexts w)) w). clear w Hw Hc Hnc Hncur.
  assert (∀ (e : exn) w, world_ok K [] ∅ w → world_ok ∅ [] ∅ w) as Hweak.
  { intros _ w H. eapply world_ok_weaken; [exact H|apply map_empty_subseteq|done|done]. }
  apply (triple_bind _ _ _ (λ _, world_ok K [] ∅)).
  - simpl. destruct (m_pParent x) as [p|]; [|intros w Hw; exact Hw].
    apply (triple_bind _ _ _ (λ _, world_ok K [] ∅)).
    + eapply triple_conseq; [by apply emit_ok|done|done|exact Hweak].
    + intros [] w Hw. refine (triple_conseq _ _ _ _ _ _ _ (erase_ok _ _ _ w c x p Hw HKc) _ _ _ w eq_refl); done.
  - intros []. apply (triple_bind _ _ _ (λ _, world_ok K [] ∅)).
    + eapply triple_conseq; [by apply emit_ok|done|done|exact Hweak].
    + intros [] w Hw. by eapply delete_ok.
Qed.
End client.
