(* ===== verification/ContextLifecycle.v ===== *)
(** * CoreContext: what initiating and shutting down a context does to the tree

    With callbacks that do nothing to the world (the logged calls apart), the
    recursive operations have exact specifications: which contexts change state
    and which runnables are started or stopped.  [below] and [reach] are the
    sets of contexts concerned, read off the parent pointers. *)
From stdpp Require Import base gmap list sets strings.
From Stdlib Require Import ZArith Lia.
From S2P Require Import Prelude CoreContext CoreContextFacts.

(** Callbacks that leave the world alone. *)
Definition inert (e : event) : M World unit := mret tt.

(** ** Worlds between calls *)
(** No destructor, construction or runnable is in progress. *)
Record settled (w : World) : Prop := {
  st_tree : tree_ok w;
  st_live : ∀ c x, contexts w !! c = Some x → m_expired x = false ∧ m_beforeRunning x = false;
  st_listed : ∀ c x p px, contexts w !! c = Some x → m_pParent x = Some p → contexts w !! p = Some px →
    (m_backReference x, Some c) ∈ m_children px;
  st_threads : ∀ c x r, contexts w !! c = Some x → r ∈ m_threads x → is_Some (runnables w !! r);
  st_unlocked : ∀ r y, runnables w !! r = Some y → m_locked y = false }.

Definition state_of (w : World) (c : ctx) : option State := m_state <$> contexts w !! c.
Definition parent_of (w : World) (c : ctx) : option ctx := contexts w !! c ≫= m_pParent.

(** ** Effects: new states for the contexts, new records for the runnables *)
Record effect (f : ctx → State → State) (g : runnable → CoreRunnable → CoreRunnable) (w w' : World) : Prop := {
  ef_contexts : ∀ d, contexts w' !! d = (λ x, set_state (f d (m_state x)) x) <$> contexts w !! d;
  ef_runnables : ∀ r, runnables w' !! r = g r <$> runnables w !! r;
  ef_next : next_ctx w' = next_ctx w ∧ next_slot w' = next_slot w ∧ next_runnable w' = next_runnable w;
  ef_current : autoCurrentContext w' = autoCurrentContext w }.

Definition keeps_lock (g : runnable → CoreRunnable → CoreRunnable) : Prop :=
  ∀ r y, m_locked y = false → m_locked (g r y) = false.

Lemma set_state_id x : set_state (m_state x) x = x.
Proof. by destruct x. Qed.

Lemma set_state_twice s s' x : set_state s (set_state s' x) = set_state s x.
Proof. by destruct x. Qed.

Lemma effect_refl w f g :
  (∀ d x, contexts w !! d = Some x → f d (m_state x) = m_state x) →
  (∀ r y, runnables w !! r = Some y → g r y = y) → effect f g w w.
Proof.
  intros Hf Hg. split; [| |done|done].
  - intros d. destruct (contexts w !! d) as [x|] eqn:E; [|done]. simpl. by rewrite (Hf d x E), set_state_id.
  - intros r. destruct (runnables w !! r) as [y|] eqn:E; [|done]. simpl. by rewrite (Hg r y E).
Qed.

(** Two effects one after the other; the result may be described by any functions
    that agree with the composition on [w]. *)
Lemma effect_trans f1 g1 f2 g2 f g w w1 w2 :
  effect f1 g1 w w1 → effect f2 g2 w1 w2 →
  (∀ d x, contexts w !! d = Some x → f2 d (f1 d (m_state x)) = f d (m_state x)) →
  (∀ r y, runnables w !! r = Some y → g2 r (g1 r y) = g r y) → effect f g w w2.
Proof.
  intros [C1 R1 (? & ? & ?) ?] [C2 R2 (? & ? & ?) ?] Hf Hg. split; [| |split_and!; congruence|congruence].
  - intros d. rewrite C2, C1. destruct (contexts w !! d) as [x|] eqn:E; [|done]. simpl.
    by rewrite set_state_twice, (Hf d x E).
  - intros r. rewrite R2, R1. destruct (runnables w !! r) as [y|] eqn:E; [|done]. simpl. by rewrite (Hg r y E).
Qed.

Lemma effect_ext f g f' g' w w' :
  effect f g w w' → (∀ d x, contexts w !! d = Some x → f d (m_state x) = f' d (m_state x)) →
  (∀ r y, runnables w !! r = Some y → g r y = g' r y) → effect f' g' w w'.
Proof.
  intros He Hf Hg.
  apply (effect_trans f g (λ _ s, s) (λ _ y, y) f' g' w w' w' He); [by apply effect_refl|done|done].
Qed.

Lemma effect_comp f1 g1 f2 g2 w w1 w2 :
  effect f1 g1 w w1 → effect f2 g2 w1 w2 →
  effect (λ d s, f2 d (f1 d s)) (λ r y, g2 r (g1 r y)) w w2.
Proof. intros H1 H2. by eapply effect_trans. Qed.

Section effect.
  Context {f g w w'} (He : effect f g w w').

Lemma effect_lookup d x : contexts w !! d = Some x → contexts w' !! d = Some (set_state (f d (m_state x)) x).
Proof. intros H. by rewrite (ef_contexts _ _ _ _ He), H. Qed.

Lemma effect_back d x' : contexts w' !! d = Some x' → ∃ x, contexts w !! d = Some x ∧ x' = set_state (f d (m_state x)) x.
Proof.
  rewrite (ef_contexts _ _ _ _ He). destruct (contexts w !! d) as [x|]; [|done]. intros [= <-]. by exists x.
Qed.

Lemma effect_parent d : parent_of w' d = parent_of w d.
Proof. unfold parent_of. rewrite (ef_contexts _ _ _ _ He). by destruct (contexts w !! d). Qed.

Lemma effect_state d : state_of w' d = f d <$> state_of w d.
Proof. unfold state_of. rewrite (ef_contexts _ _ _ _ He). by destruct (contexts w !! d). Qed.

Lemma effect_settled : keeps_lock g → settled w → settled w'.
Proof.
  intros Hg [Ht Hl Hli Hth Hu]. destruct (ef_next _ _ _ _ He) as (N1 & N2 & N3).
  split.
  - split.
    + intros c x' (x & Hx & ->)%effect_back. rewrite N1. by apply (to_next _ Ht c x).
    + intros c x' p (x & Hx & ->)%effect_back Hp. rewrite N2.
      destruct (to_parent _ Ht c x p Hx Hp) as (? & ? & px & Hpx & ? & ? & ?).
      split; [done|]. split; [done|]. eexists. split; [by apply effect_lookup|]. done.
    + intros p px' s d (px & Hpx & ->)%effect_back Hin. destruct (to_child _ Ht p px s d Hpx Hin) as [Hd Hdx].
      rewrite N1. split; [done|]. intros dx' (dx & Hd' & ->)%effect_back. exact (Hdx dx Hd').
    + intros p px' (px & Hpx & ->)%effect_back. rewrite N2. exact (to_nodup _ Ht p px Hpx).
    + intros c d x' y' (x & Hx & ->)%effect_back (y & Hy & ->)%effect_back. exact (to_backref _ Ht c d x y Hx Hy).
  - intros c x' (x & Hx & ->)%effect_back. exact (Hl c x Hx).
  - intros c x' p px' (x & Hx & ->)%effect_back Hp (px & Hpx & ->)%effect_back. exact (Hli c x p px Hx Hp Hpx).
  - intros c x' r (x & Hx & ->)%effect_back Hr. rewrite (ef_runnables _ _ _ _ He).
    destruct (Hth c x r Hx Hr) as [y ->]. by eexists.
  - intros r y. rewrite (ef_runnables _ _ _ _ He). destruct (runnables w !! r) as [y0|] eqn:E; [|done].
    intros [= <-]. apply Hg. by eapply Hu.
Qed.
End effect.

(** Logging has no effect. *)
Lemma emit_run e w : emit inert e w = (Ret tt, set_log (log w ++ [e]) w).
Proof. done. Qed.

Lemma effect_log w l : effect (λ _ s, s) (λ _ y, y) w (set_log l w).
Proof.
  split; try done.
  - intros d. simpl. destruct (contexts w !! d) as [x|]; [|done]. simpl. by rewrite set_state_id.
  - intros r. simpl. by destruct (runnables w !! r).
Qed.

Lemma effect_set_state w c x s :
  contexts w !! c = Some x →
  effect (λ d s', if Nat.eqb d c then s else s') (λ _ y, y) w (set_contexts (<[c := set_state s x]> (contexts w)) w).
Proof.
  intros Hc. split; try done.
  - intros d. simpl. destruct (Nat.eqb_spec d c) as [->|n].
    + by rewrite lookup_insert_eq, Hc.
    + rewrite lookup_insert_ne by done. destruct (contexts w !! d) as [y|]; [|done]. simpl. by rewrite set_state_id.
  - intros r. simpl. by destruct (runnables w !! r).
Qed.

Lemma effect_store w r y y' l :
  runnables w !! r = Some y →
  effect (λ _ s, s) (λ r' z, if Nat.eqb r' r then y' else z) w (stored w r y' l).
Proof.
  intros Hr. split; try done.
  - intros d. simpl. destruct (contexts w !! d) as [x|]; [|done]. simpl. by rewrite set_state_id.
  - intros r'. simpl. destruct (Nat.eqb_spec r' r) as [->|n].
    + by rewrite lookup_insert_eq, Hr.
    + rewrite lookup_insert_ne by done. by destruct (runnables w !! r').
Qed.

(** ** Runnables *)
(** The record after [Start] and after [Stop]. *)
Definition started (OnStart_result : runnable → bool) (r : runnable) (y : CoreRunnable) : CoreRunnable :=
  if m_wasStarted y || m_outstanding y || m_shouldStop y then y
  else if OnStart_result r then mkRunnable true false true false else mkRunnable true true false false.
Definition stopped (y : CoreRunnable) : CoreRunnable := mkRunnable (m_wasStarted y) true false false.

Lemma started_twice O r y : started O r (started O r y) = started O r y.
Proof.
  unfold started at 2 3. destruct (m_wasStarted y || m_outstanding y || m_shouldStop y) eqn:E.
  - unfold started. by rewrite E.
  - by destruct (O r).
Qed.

(** [P r] selects the runnables the effect is applied to. *)
Definition on (P : runnable → bool) (h : runnable → CoreRunnable → CoreRunnable) (r : runnable) (y : CoreRunnable) : CoreRunnable :=
  if P r then h r y else y.

Lemma keeps_lock_started O P : keeps_lock (on P (started O)).
Proof.
  intros r y H. unfold on, started. destruct (P r); [|done].
  destruct (m_wasStarted y || m_outstanding y || m_shouldStop y); [done|]. by destruct (O r).
Qed.

Lemma keeps_lock_stopped P : keeps_lock (on P (λ _, stopped)).
Proof. intros r y H. unfold on. by destruct (P r). Qed.

Lemma set_locked_id y : m_locked y = false → set_locked false (set_locked true y) = y.
Proof. destruct y; simpl. by intros ->. Qed.

(** Replacing the record of one runnable. *)
Lemma effect_one w r y y' g l :
  runnables w !! r = Some y → g r y = y' →
  effect (λ _ s, s) (on (Nat.eqb r) g) w (stored w r y' l).
Proof.
  intros Hr Hg. eapply effect_ext; [by apply (effect_store w r y y' l)|done|].
  intros r' z Hz. unfold on. rewrite Nat.eqb_sym. destruct (Nat.eqb_spec r r') as [<-|]; congruence.
Qed.

Lemma stored_stored w r y y' l l' : stored (stored w r y l) r y' l' = stored w r y' (l ++ l').
Proof. unfold stored, set_log, set_runnables. simpl. by rewrite insert_insert_eq, <-app_assoc. Qed.

Lemma stored_log w r y l e : set_log (log (stored w r y l) ++ [e]) (stored w r y l) = stored w r y (l ++ [e]).
Proof. unfold stored, set_log. simpl. by rewrite <-app_assoc. Qed.

Lemma load_stored w r y l : load_runnable r (stored w r y l) = (Ret y, stored w r y l).
Proof. apply load_runnable_run. simpl. by rewrite lookup_insert_eq. Qed.

Lemma store_stored w r y y' l : store_runnable r y' (stored w r y l) = (Ret tt, stored w r y' l).
Proof. rewrite store_runnable_run, stored_stored. by rewrite app_nil_r. Qed.

Lemma Start_run O w r y :
  runnables w !! r = Some y → m_locked y = false →
  ∃ l, Start inert O r w = (Ret true, stored w r (started O r y) l).
Proof.
  intros Hr Hl. unfold Start, lock_runnable. rewrite bind_assoc.
  erewrite bind_Ret by (by apply load_runnable_run). rewrite Hl.
  erewrite bind_Ret by apply store_runnable_run. unfold at_exit.
  erewrite bind_Ret by apply load_stored. simpl. unfold started.
  destruct (m_wasStarted y || m_outstanding y || m_shouldStop y) eqn:E.
  - exists []. munfold. unfold unlock_runnable. erewrite bind_Ret by apply load_stored.
    rewrite store_stored. by rewrite set_locked_id.
  - apply orb_false_iff in E as [[Ew Eo]%orb_false_iff Es].
    erewrite bind_Ret by apply store_stored. erewrite bind_Ret by apply emit_run. rewrite stored_log. simpl.
    destruct (O r).
    + erewrite bind_Ret; [|done]. munfold. unfold unlock_runnable.
      erewrite bind_Ret by apply load_stored. rewrite store_stored. rewrite Es. by eexists.
    + rewrite bind_assoc. erewrite bind_Ret by apply load_stored. rewrite bind_assoc.
      erewrite bind_Ret by apply store_stored. erewrite bind_Ret by apply emit_run. rewrite stored_log.
      munfold. unfold unlock_runnable. erewrite bind_Ret by apply load_stored. rewrite store_stored. by eexists.
Qed.

Lemma Stop_run w r y g :
  runnables w !! r = Some y → m_locked y = false →
  ∃ l, Stop inert r g w = (Ret tt, stored w r (stopped y) l).
Proof.
  intros Hr Hl. unfold Stop, lock_runnable. rewrite bind_assoc.
  erewrite bind_Ret by (by apply load_runnable_run). rewrite Hl.
  erewrite bind_Ret by apply store_runnable_run. erewrite bind_Ret by apply load_stored. simpl.
  destruct (m_shouldStop y) eqn:E.
  - erewrite bind_Ret; [|done]. erewrite bind_Ret by apply load_stored. erewrite bind_Ret by apply store_stored.
    unfold unlock_runnable. erewrite bind_Ret by apply load_stored. rewrite store_stored.
    exists []. unfold stopped. simpl. by rewrite E.
  - rewrite !bind_assoc. erewrite bind_Ret by apply store_stored. unfold unlock_runnable.
    rewrite !bind_assoc. erewrite bind_Ret by apply load_stored. erewrite bind_Ret by apply store_stored.
    rewrite bind_assoc. erewrite bind_Ret by apply emit_run. rewrite stored_log.
    rewrite bind_assoc. erewrite bind_Ret by apply load_stored. simpl. erewrite bind_Ret by apply store_stored.
    erewrite bind_Ret by apply load_stored. erewrite bind_Ret by apply store_stored.
    erewrite bind_Ret by apply load_stored. rewrite store_stored. by eexists.
Qed.

(** A list of runnables is started, or stopped. *)
Definition in_list (l : list runnable) (r : runnable) : bool := existsb (Nat.eqb r) l.

Lemma runnables_loop (body : runnable → M World unit) h w l :
  (∀ w r y, runnables w !! r = Some y → m_locked y = false → ∃ l, body r w = (Ret tt, stored w r (h r y) l)) →
  (∀ r y, h r (h r y) = h r y) → (∀ P, keeps_lock (on P h)) →
  (∀ r, r ∈ l → is_Some (runnables w !! r)) → (∀ r y, runnables w !! r = Some y → m_locked y = false) →
  ∃ w', for_each body l w = (Ret tt, w') ∧ effect (λ _ s, s) (on (in_list l) h) w w'.
Proof.
  intros Hbody Hh Hk. revert w. induction l as [|r l IH]; intros w Hl Hu; simpl.
  { exists w. split; [done|]. by apply effect_refl. }
  destruct (Hl r) as [y Hy]; [by left|]. destruct (Hbody w r y Hy (Hu r y Hy)) as [lg E].
  pose proof (effect_one w r y (h r y) h lg Hy eq_refl) as He.
  destruct (IH (stored w r (h r y) lg)) as (w' & E' & He').
  - intros r' Hr'. destruct (Hl r') as [z Hz]; [by right|]. rewrite (ef_runnables _ _ _ _ He), Hz. by eexists.
  - intros r' z. rewrite (ef_runnables _ _ _ _ He). destruct (runnables w !! r') as [z0|] eqn:E0; [|done].
    intros [= <-]. apply Hk. by eapply Hu.
  - exists w'. split; [by erewrite bind_Ret|]. eapply effect_trans; [exact He|exact He'|done|].
    intros r' z Hz. unfold on. simpl. rewrite (Nat.eqb_sym r' r).
    destruct (Nat.eqb r r'); destruct (in_list l r'); simpl; auto.
Qed.

(** ** Descendants *)
Fixpoint climb (n : nat) (w : World) (c d : ctx) : bool :=
  match n with
  | 0 => false
  | S n' => Nat.eqb d c || match parent_of w d with Some p => climb n' w c p | None => false end
  end.
(** [d] is [c] or a descendant of it: parents have smaller numbers. *)
Definition below (w : World) (c d : ctx) : bool := climb (S d) w c d.

(** Parents are older. *)
Definition older (w : World) : Prop := ∀ d p, parent_of w d = Some p → p < d.

Lemma settled_older w : settled w → older w.
Proof.
  intros Hs d p. unfold parent_of. destruct (contexts w !! d) as [x|] eqn:E; [|done]. simpl.
  intros Hp. by destruct (to_parent _ (st_tree _ Hs) d x p E Hp).
Qed.

Lemma climb_enough w c n d : older w → d < n → climb n w c d = below w c d.
Proof.
  intros Ho. unfold below. revert d. induction n as [n IH] using lt_wf_ind. intros d Hd.
  destruct n as [|n]; [lia|]. simpl. f_equal. destruct (parent_of w d) as [p|] eqn:E; [|done].
  apply Ho in E. destruct d as [|d]; [lia|].
  rewrite (IH n) by lia. symmetry. destruct (decide (S d = n)) as [<-|]; [by rewrite (IH (S d)) by lia|].
  apply (IH (S d)); lia.
Qed.

Lemma below_unfold w c d : older w →
  below w c d = Nat.eqb d c || match parent_of w d with Some p => below w c p | None => false end.
Proof.
  intros Ho. unfold below at 1. simpl. f_equal. destruct (parent_of w d) as [p|] eqn:E; [|done].
  apply climb_enough; [done|]. by apply Ho.
Qed.

Lemma below_refl w c : below w c c = true.
Proof. unfold below. simpl. by rewrite Nat.eqb_refl. Qed.

Lemma below_le w c d : older w → below w c d = true → c ≤ d.
Proof.
  intros Ho. induction d as [d IH] using lt_wf_ind. rewrite below_unfold by done.
  intros [->%Nat.eqb_eq|H]%orb_true_iff; [lia|].
  destruct (parent_of w d) as [p|] eqn:E; [|done]. apply Ho in E. specialize (IH p E H). lia.
Qed.

Lemma below_parents w w' c d : (∀ e, parent_of w' e = parent_of w e) → below w' c d = below w c d.
Proof.
  intros H. unfold below. generalize (S d) as n. intros n. revert d.
  induction n as [|n IH]; intros d; simpl; [done|]. rewrite H. f_equal. by destruct (parent_of w d).
Qed.

(** [d] is below [c] when it is [c] or below a child of [c]. *)
Lemma below_children w c l d : older w → (∀ q, q ∈ l ↔ parent_of w q = Some c) →
  below w c d = Nat.eqb d c || existsb (λ q, below w q d) l.
Proof.
  intros Ho Hl. induction d as [d IH] using lt_wf_ind. rewrite below_unfold by done.
  destruct (Nat.eqb_spec d c) as [->|n]; [done|]. simpl.
  destruct (parent_of w d) as [p|] eqn:E.
  - rewrite IH by (by apply Ho). destruct (Nat.eqb_spec p c) as [->|np]; simpl.
    + symmetry. apply existsb_exists. exists d. split; [by apply list_elem_of_In, Hl|apply below_refl].
    + apply eq_bool_prop_intro. rewrite !Is_true_true, !existsb_exists.
      split; intros (q & Hq & Hb); exists q; (split; [done|]).
      * rewrite below_unfold, E, Hb by done. apply orb_true_r.
      * rewrite below_unfold, E in Hb by done. apply orb_true_iff in Hb as [->%Nat.eqb_eq|?]; [|done].
        apply list_elem_of_In, Hl in Hq. congruence.
  - symmetry. apply not_true_is_false. intros (q & Hq & Hb)%existsb_exists.
    rewrite below_unfold, E in Hb by done. apply orb_true_iff in Hb as [->%Nat.eqb_eq|?]; [|done].
    apply list_elem_of_In, Hl in Hq. congruence.
Qed.

(** ** Children *)
Definition live_children (w : World) (x : CoreContext) : list ctx := omap (λ e, lock e.2 w) (m_children x).

Lemma settled_lock w o c : settled w → lock o w = Some c ↔ o = Some c ∧ is_Some (contexts w !! c).
Proof.
  intros Hs. unfold lock. destruct o as [d|]; [|naive_solver].
  destruct (contexts w !! d) as [x|] eqn:E.
  - destruct (st_live _ Hs d x E) as [-> _]. split; [intros [= ->]; by eauto|by intros [[= ->] _]].
  - split; [done|]. intros [[= ->] [y Hy]]. congruence.
Qed.

Lemma elem_of_live_children w c x q : settled w → contexts w !! c = Some x →
  q ∈ live_children w x ↔ parent_of w q = Some c.
Proof.
  intros Hs Hc. unfold live_children. rewrite list_elem_of_omap. split.
  - intros ([s o] & Hin & Hl). simpl in Hl. apply settled_lock in Hl as [-> [y Hy]]; [|done].
    destruct (to_child _ (st_tree _ Hs) c x s q Hc Hin) as [_ H]. destruct (H y Hy) as [Hp _].
    unfold parent_of. by rewrite Hy.
  - unfold parent_of. destruct (contexts w !! q) as [y|] eqn:Hy; [|done]. simpl. intros Hp.
    exists (m_backReference y, Some q). split; [by eapply (st_listed _ Hs)|].
    apply settled_lock; [done|]. by eauto.
Qed.

(** ** Shutting down *)
Definition shut (s : State) : bool := match s with Shutdown | Abandoned => true | _ => false end.
(** What a context becomes when it is shut down. *)
Definition shut_of (s : State) : State :=
  match s with NotStarted | CanRun => Abandoned | Initiated | Running => Shutdown | s => s end.

Definition shut_states (w : World) (c : ctx) (d : ctx) (s : State) : State := if below w c d then shut_of s else s.
(** [r] runs in a context at or below [c] that is not shut down yet. *)
Definition stops_with (w : World) (c : ctx) (r : runnable) : bool :=
  existsb (λ e, below w c e.1 && negb (shut (m_state e.2)) && in_list (m_threads e.2) r) (map_to_list (contexts w)).

Lemma stops_with_true w c r :
  stops_with w c r = true ↔ ∃ d x, contexts w !! d = Some x ∧ below w c d = true ∧ shut (m_state x) = false ∧ in_list (m_threads x) r = true.
Proof.
  unfold stops_with. rewrite existsb_exists. split.
  - intros ([d x] & Hin & [[? ?%negb_true_iff]%andb_true_iff ?]%andb_true_iff).
    apply list_elem_of_In, elem_of_map_to_list in Hin. by exists d, x.
  - intros (d & x & Hd & H1 & H2 & H3). exists (d, x). split; [by apply list_elem_of_In, elem_of_map_to_list|].
    simpl. by rewrite H1, H2, H3.
Qed.

(** At or below [c], the children of a context that is shut down are. *)
Definition shut_closed (w : World) (c : ctx) : Prop :=
  ∀ p e s s', below w c p = true → parent_of w e = Some p → state_of w p = Some s → state_of w e = Some s' →
  shut s = true → shut s' = true.

Lemma settled_parent w d p : settled w → parent_of w d = Some p → is_Some (state_of w p).
Proof.
  intros Hs E. unfold parent_of in E. destruct (contexts w !! d) as [x|] eqn:Ex; [|done]. simpl in E.
  destruct (to_parent _ (st_tree _ Hs) d x p Ex E) as (_ & _ & px & Hpx & _).
  unfold state_of. rewrite Hpx. by eexists.
Qed.

Lemma shut_below w c d s s' : settled w → shut_closed w c →
  state_of w c = Some s → shut s = true → below w c d = true → state_of w d = Some s' → shut s' = true.
Proof.
  intros Hs Hcl Hc Hshut. revert s'. induction d as [d IH] using lt_wf_ind. intros s'.
  pose proof (settled_older _ Hs) as Ho.
  rewrite below_unfold by done. intros [->%Nat.eqb_eq|H]%orb_true_iff Hd; [congruence|].
  destruct (parent_of w d) as [p|] eqn:E; [|done]. destruct (settled_parent w d p Hs E) as [sp Hp].
  eapply Hcl; [exact H|exact E|exact Hp|exact Hd|]. by apply (IH p (Ho _ _ E)).
Qed.

Lemma shut_of_shut s : shut s = true → shut_of s = s.
Proof. by destruct s. Qed.
Lemma shut_of_twice s : shut_of (shut_of s) = shut_of s.
Proof. by destruct s. Qed.
Lemma shut_shut_of s : shut (shut_of s) = true.
Proof. by destruct s. Qed.

(** Shutting a subtree down keeps this true of every context. *)
Lemma shut_closed_effect w w' q g c : settled w →
  effect (shut_states w q) g w w' → shut_closed w c → shut_closed w' c.
Proof.
  intros Hs He Hcl p e s s' Hb Hp Hsp Hse Hshut. pose proof (settled_older _ Hs) as Ho.
  rewrite (below_parents w) in Hb by (intros; apply (effect_parent He)).
  rewrite (effect_parent He) in Hp. rewrite (effect_state He) in Hsp, Hse.
  destruct (state_of w p) as [s0|] eqn:E0; [|done]. destruct (state_of w e) as [s1|] eqn:E1; [|done].
  simpl in Hsp, Hse. injection Hsp as <-. injection Hse as <-. unfold shut_states in *.
  destruct (below w q e) eqn:Ee; [apply shut_shut_of|].
  destruct (below w q p) eqn:Ep; [|by eapply Hcl].
  rewrite below_unfold, Hp, Ep, orb_true_r in Ee by done. done.
Qed.

(** What stops with [q] after [q0] was shut down stopped already or stops now. *)
Lemma stops_with_after w w' q0 q g r : effect (shut_states w q0) g w w' →
  stops_with w q0 r || stops_with w' q r = stops_with w q0 r || stops_with w q r.
Proof.
  intros He. destruct (stops_with w q0 r) eqn:E0; [done|]. simpl.
  apply eq_bool_prop_intro. rewrite !Is_true_true, !stops_with_true. split.
  - intros (d & x' & Hd & Hb & Hs & Hr). apply (effect_back He) in Hd as (x & Hx & ->). exists d, x.
    rewrite (below_parents w) in Hb by (intros; apply (effect_parent He)). simpl in *.
    unfold shut_states in Hs. destruct (below w q0 d); [by rewrite shut_shut_of in Hs|done].
  - intros (d & x & Hd & Hb & Hs & Hr). exists d, (set_state (shut_states w q0 d (m_state x)) x).
    rewrite (below_parents w) by (intros; apply (effect_parent He)). split; [by apply (effect_lookup He)|].
    simpl. split; [done|]. split; [|done]. unfold shut_states. destruct (below w q0 d) eqn:E; [|done].
    assert (stops_with w q0 r = true); [|congruence]. apply stops_with_true. by exists d, x.
Qed.

Definition shutdown_effect (w : World) (c : ctx) (w' : World) : Prop :=
  effect (shut_states w c) (on (stops_with w c) (λ _, stopped)) w w'.

Lemma shutdown_loop (body : ctx → M World unit) N l :
  (∀ q w, q ∈ l → next_ctx w = N → settled w → shut_closed w q → is_Some (contexts w !! q) →
     ∃ w', body q w = (Ret tt, w') ∧ shutdown_effect w q w') →
  ∀ w, settled w → next_ctx w = N → (∀ q, q ∈ l → shut_closed w q ∧ is_Some (contexts w !! q)) →
  ∃ w', for_each body l w = (Ret tt, w') ∧
    effect (λ d s, if existsb (λ q, below w q d) l then shut_of s else s)
      (on (λ r, existsb (λ q, stops_with w q r) l) (λ _, stopped)) w w'.
Proof.
  induction l as [|q l IH]; intros Hbody w Hs HN Hl.
  { exists w. split; [done|]. by apply effect_refl. }
  destruct (Hl q) as [Hcl Hq]; [by left|].
  destruct (Hbody q w) as (w1 & E1 & He1); [by left|done..|].
  assert (settled w1) as Hs1 by (eapply (effect_settled He1), Hs; apply keeps_lock_stopped).
  destruct (IH (λ q w H, Hbody q w (list_elem_of_further _ _ _ H)) w1 Hs1) as (w2 & E2 & He2).
  { destruct (ef_next _ _ _ _ He1) as [-> _]. done. }
  { intros q' Hq'. destruct (Hl q') as [Hcl' [x Hx]]; [by right|]. split; [exact (shut_closed_effect _ _ _ _ _ Hs He1 Hcl')|].
    rewrite (effect_lookup He1 _ _ Hx). by eexists. }
  exists w2. split; [simpl; by erewrite bind_Ret|].
  eapply effect_trans; [exact He1|exact He2| |].
  - intros d x Hx. simpl. unfold shut_states.
    assert (existsb (λ q', below w1 q' d) l = existsb (λ q', below w q' d) l) as ->.
    { clear -He1. induction l; simpl; [done|]. f_equal; [|done]. apply below_parents. intros; apply (effect_parent He1). }
    destruct (below w q d), (existsb (λ q', below w q' d) l); simpl; by rewrite ?shut_of_twice.
  - intros r y Hy. simpl. unfold on.
    assert (stops_with w q r || existsb (λ q', stops_with w1 q' r) l = stops_with w q r || existsb (λ q', stops_with w q' r) l) as E.
    { clear -He1. induction l as [|q' l IH]; simpl; [done|].
      pose proof (stops_with_after _ _ q q' _ r He1) as E. destruct (stops_with w q r); [done|]. simpl in *. congruence. }
    destruct (stops_with w q r); simpl in *; [|by rewrite E]. by destruct (existsb _ l).
Qed.

Lemma existsb_false_below w c l : older w → (∀ q, q ∈ l → parent_of w q = Some c) → existsb (λ q, below w q c) l = false.
Proof.
  intros Ho Hl. apply not_true_is_false. intros (q & Hq & Hb)%existsb_exists.
  apply list_elem_of_In, Hl, Ho in Hq. apply below_le in Hb; [lia|done].
Qed.

Lemma shut_closed_child w w' c s g q : settled w → shut_closed w c →
  effect (λ d s', if Nat.eqb d c then s else s') g w w' → parent_of w q = Some c → shut_closed w' q.
Proof.
  intros Hs Hcl He Hq p e s1 s2 Hb Hp Hsp Hse. pose proof (settled_older _ Hs) as Ho.
  rewrite (below_parents w) in Hb by (intros; apply (effect_parent He)).
  rewrite (effect_parent He) in Hp. rewrite (effect_state He) in Hsp, Hse.
  apply Ho in Hp as Hlt. apply Ho in Hq as Hlt'. apply below_le in Hb as Hle; [|done].
  destruct (Nat.eqb_spec p c); [lia|]. destruct (Nat.eqb_spec e c); [lia|].
  assert (∀ o : option State, (λ s', s') <$> o = o) as Hid by (by intros [?|]).
  rewrite Hid in Hsp, Hse. eapply Hcl; [|exact Hp|exact Hsp|exact Hse].
  clear -Hs Hb Hq Ho. induction p as [p IH] using lt_wf_ind. rewrite below_unfold by done.
  rewrite below_unfold in Hb by done. apply orb_true_iff in Hb as [->%Nat.eqb_eq|Hb].
  - rewrite Hq, below_refl. apply orb_true_r.
  - destruct (parent_of w p) as [p'|] eqn:E; [|done]. rewrite (IH p') by (try done; by apply Ho). apply orb_true_r.
Qed.

(** What stops with [c]: its own runnables and what stops with its children. *)
Lemma stops_with_children w w1 c x s l g r :
  settled w → contexts w !! c = Some x → shut (m_state x) = false →
  effect (λ d s', if Nat.eqb d c then s else s') g w w1 → (∀ q, q ∈ l ↔ parent_of w q = Some c) →
  stops_with w c r = existsb (λ q, stops_with w1 q r) l || in_list (m_threads x) r.
Proof.
  intros Hs Hc Hsh He Hl. pose proof (settled_older _ Hs) as Ho.
  assert (∀ q d, below w1 q d = below w q d) as Hbw.
  { intros q d. apply below_parents. intros; apply (effect_parent He). }
  apply eq_bool_prop_intro. rewrite Is_true_true, stops_with_true, Is_true_true, orb_true_iff, existsb_exists.
  split.
  - intros (d & y & Hd & Hb & Hsy & Hr). rewrite (below_children w c l) in Hb by done.
    apply orb_true_iff in Hb as [->%Nat.eqb_eq|(q & Hq & Hb)%existsb_exists]; [right; congruence|left].
    exists q. split; [done|]. apply stops_with_true. exists d, y. rewrite Hbw. split_and!; try done.
    rewrite (effect_lookup He d y Hd). destruct (Nat.eqb_spec d c) as [->|]; [|by rewrite set_state_id].
    exfalso. apply list_elem_of_In, Hl, Ho in Hq. apply below_le in Hb; [lia|done].
  - intros [(q & Hq & (d & y' & Hd & Hb & Hsy & Hr)%stops_with_true)|Hr].
    + apply (effect_back He) in Hd as (y & Hy & ->). rewrite Hbw in Hb. exists d, y. split; [done|].
      assert (below w c d = true) as Hbc.
      { rewrite (below_children w c l) by done. apply orb_true_iff. right. apply existsb_exists. by exists q. }
      split; [done|]. split; [|done]. simpl in Hsy. destruct (Nat.eqb_spec d c) as [->|]; [|done]. congruence.
    + exists c, x. by rewrite below_refl.
Qed.

(** [SignalShutdown] on a context that is not shut down. *)
Lemma SignalShutdown_live fuel w c g x :
  contexts w !! c = Some x → shut (m_state x) = false →
  SignalShutdown inert (S fuel) c g w =
    (update c (set_state (shut_of (m_state x)));;
     emit inert (ev_onShutdown c);;
     x' ← context c; w' ← get;
     for_each (λ child, SignalShutdown inert fuel child g) (rev (live_children w' x'));;
     for_each (λ r, Stop inert r g) (if m_beforeRunning x then tail (m_threads x) else m_threads x)) w.
Proof.
  intros Hc Hs. cbn [SignalShutdown]. erewrite bind_Ret by (by apply context_run).
  by destruct (m_state x).
Qed.

Lemma SignalShutdown_run g fuel : ∀ w c,
  settled w → shut_closed w c → is_Some (contexts w !! c) → next_ctx w ≤ fuel + c →
  ∃ w', SignalShutdown inert fuel c g w = (Ret tt, w') ∧ shutdown_effect w c w'.
Proof.
  induction fuel as [|fuel IH]; intros w c Hs Hcl [x Hc] Hf.
  { apply (to_next _ (st_tree _ Hs)) in Hc. lia. }
  pose proof (settled_older _ Hs) as Ho.
  destruct (shut (m_state x)) eqn:Esh.
  - exists w. split.
    + cbn [SignalShutdown]. erewrite bind_Ret by (by apply context_run). by destruct (m_state x).
    + assert (∀ d y, contexts w !! d = Some y → below w c d = true → shut (m_state y) = true) as Hall.
      { intros d y Hd Hb. eapply (shut_below w c d (m_state x)); try done; unfold state_of; [by rewrite Hc|by rewrite Hd]. }
      apply effect_refl.
      * intros d y Hd. unfold shut_states. destruct (below w c d) eqn:Eb; [|done]. by apply shut_of_shut, Hall with d.
      * intros r y Hr. unfold on. destruct (stops_with w c r) eqn:Er; [|done].
        apply stops_with_true in Er as (d & z & Hd & Hb & Hz & _). rewrite (Hall d z) in Hz; done.
  - rewrite (SignalShutdown_live _ _ _ _ x) by done. destruct (st_live _ Hs c x Hc) as [_ ->].
    erewrite bind_Ret by (by apply update_run).
    pose proof (effect_set_state w c x (shut_of (m_state x)) Hc) as He1.
    set (w1 := set_contexts _ w) in *. erewrite bind_Ret by apply emit_run.
    pose proof (effect_log w1 (log w1 ++ [ev_onShutdown c])) as He2. set (w2 := set_log _ w1) in *.
    assert (effect (λ d s, if Nat.eqb d c then shut_of (m_state x) else s) (λ _ y, y) w w2) as He
      by (by eapply effect_trans).
    clear He1 He2. clearbody w2. clear w1.
    assert (settled w2) as Hs2 by (exact (effect_settled He (λ _ _ H, H) Hs)).
    pose proof (effect_lookup He c x Hc) as Hc2. set (x2 := set_state _ x) in Hc2.
    erewrite bind_Ret by (by apply context_run). erewrite bind_Ret; [|done].
    assert (∀ q, q ∈ rev (live_children w2 x2) ↔ parent_of w q = Some c) as Hl.
    { intros q. rewrite list_elem_of_In, <-in_rev, <-list_elem_of_In.
      rewrite (elem_of_live_children w2 c x2) by done. by rewrite (effect_parent He). }
    assert (∀ q, parent_of w q = Some c → is_Some (contexts w2 !! q) ∧ shut_closed w2 q) as Hq2.
    { intros q Hq. split; [|exact (shut_closed_child _ _ _ _ _ _ Hs Hcl He Hq)].
      unfold parent_of in Hq. destruct (contexts w !! q) as [y|] eqn:Ey; [|done].
      rewrite (effect_lookup He q y Ey). by eexists. }
    destruct (ef_next _ _ _ _ He) as (Hn & _ & _).
    destruct (shutdown_loop (λ child, SignalShutdown inert fuel child g) (next_ctx w2) (rev (live_children w2 x2))) with (w := w2)
      as (w3 & E3 & He3); [|done|done| |].
    + intros q w0 Hq HN Hs0 Hcl0 Hq0. apply IH; try done. apply Hl, Ho in Hq. lia.
    + intros q Hq. apply Hl in Hq. split; by apply Hq2.
    + erewrite bind_Ret by exact E3.
      assert (settled w3) as Hs3 by (eapply (effect_settled He3), Hs2; apply keeps_lock_stopped).
      destruct (runnables_loop (λ r, Stop inert r g) (λ _, stopped) w3 (m_threads x)) as (w4 & E4 & He4).
      * intros w0 r y Hr Hy. by apply Stop_run.
      * done.
      * apply keeps_lock_stopped.
      * intros r Hr. exact (st_threads _ Hs3 c _ r (effect_lookup He3 c x2 Hc2) Hr).
      * apply (st_unlocked _ Hs3).
      * exists w4. split; [exact E4|].
        eapply effect_ext; [eapply effect_comp; [eapply effect_comp; [exact He|exact He3]|exact He4]| |].
        -- intros d y Hd. unfold shut_states. rewrite (below_children w c _ d Ho Hl).
           replace (existsb (λ q, below w2 q d) (rev (live_children w2 x2))) with (existsb (λ q, below w q d) (rev (live_children w2 x2))).
           2: { clear -He. induction (rev _); simpl; [done|]. f_equal; [|done]. symmetry. apply below_parents. intros; apply (effect_parent He). }
           destruct (Nat.eqb_spec d c) as [->|]; [|done]. assert (y = x) as -> by congruence.
           rewrite (existsb_false_below w c) by (try done; intros q Hq; by apply Hl). done.
        -- intros r y Hr. unfold on at 3. rewrite (stops_with_children w w2 c x _ _ _ r Hs Hc Esh He Hl).
           unfold on. by destruct (existsb _ _), (in_list (m_threads x) r).
Qed.

(** ** The list of children *)
Lemma first_live_None l w : first_live l w = None → omap (λ e, lock e.2 w) l = [].
Proof.
  induction l as [|[s o] l IH]; simpl; [done|]. destruct (lock o w); [done|]. apply IH.
Qed.

Lemma first_live_Some l w s c : NoDup l.*1 → first_live l w = Some (s, c) →
  omap (λ e, lock e.2 w) l = c :: omap (λ e, lock e.2 w) (after_slot s l) ∧
  ∃ l1, l = l1 ++ (s, Some c) :: after_slot s l.
Proof.
  induction l as [|[s' o] l IH]; simpl; [done|]. intros [Hn Hnd]%NoDup_cons.
  destruct (lock o w) as [d|] eqn:E.
  - intros [= -> ->]. rewrite Nat.eqb_refl. split; [done|]. exists [].
    unfold lock in E. destruct o as [d|]; [|done]. destruct (contexts w !! d) as [x|]; [|done].
    destruct (m_expired x); by simplify_eq.
  - intros H. destruct (IH Hnd H) as (E1 & l1 & E2). destruct (Nat.eqb_spec s' s) as [->|n].
    + exfalso. apply Hn. rewrite E2, fmap_app. set_solver.
    + split; [done|]. exists ((s', o) :: l1). simpl. by rewrite <-E2.
Qed.

(** The rest of the list after a node is found again in the whole list. *)
Lemma after_slot_suffix l1 s o l2 : NoDup (l1 ++ (s, o) :: l2).*1 → after_slot s (l1 ++ (s, o) :: l2) = l2.
Proof.
  induction l1 as [|[s' o'] l1 IH]; simpl; [by rewrite Nat.eqb_refl|].
  intros [Hn Hnd]%NoDup_cons. destruct (Nat.eqb_spec s' s) as [->|n]; [|by apply IH].
  exfalso. apply Hn. rewrite fmap_app. set_solver.
Qed.

Lemma live_children_nodup w c x : settled w → contexts w !! c = Some x → NoDup (live_children w x).
Proof.
  intros Hs Hc. destruct (to_nodup _ (st_tree _ Hs) c x Hc) as [Hnd _].
  assert (∀ s d, (s, Some d) ∈ m_children x → is_Some (contexts w !! d) → m_backReference <$> contexts w !! d = Some s) as Hb.
  { intros s d Hin [y Hy]. rewrite Hy. simpl. by destruct (proj2 (to_child _ (st_tree _ Hs) c x s d Hc Hin) y Hy) as [_ ->]. }
  unfold live_children. induction (m_children x) as [|[s o] l IH]; simpl; [constructor|].
  simpl in Hnd. apply NoDup_cons in Hnd as [Hn Hnd].
  assert (NoDup (omap (λ e, lock e.2 w) l)) as IH' by (apply IH; [done|]; intros; apply Hb; [by right|done]).
  destruct (lock o w) as [d|] eqn:E; [|done]. apply NoDup_cons. split; [|done].
  intros ([s' o'] & Hin & E')%list_elem_of_omap. simpl in E'.
  apply settled_lock in E as [-> Hd]; [|done]. apply settled_lock in E' as [-> _]; [|done].
  pose proof (Hb s d (list_elem_of_here _ _) Hd) as E1.
  pose proof (Hb s' d (list_elem_of_further _ _ _ Hin) Hd) as E2.
  rewrite E1 in E2. injection E2 as ->. apply Hn, list_elem_of_fmap. by exists (s', Some d).
Qed.

Lemma live_children_bound w c x : settled w → contexts w !! c = Some x → length (live_children w x) ≤ next_ctx w - S c.
Proof.
  intros Hs Hc. rewrite <-(length_seq (next_ctx w - S c) (S c)).
  apply NoDup_incl_length; [by apply NoDup_ListNoDup; eapply live_children_nodup|].
  intros q Hq%list_elem_of_In. apply (elem_of_live_children w c x q Hs Hc) in Hq as Hp.
  apply in_seq. pose proof (settled_older _ Hs _ _ Hp).
  unfold parent_of in Hp. destruct (contexts w !! q) as [y|] eqn:E; [|done].
  apply (to_next _ (st_tree _ Hs)) in E. lia.
Qed.

(** ** Running *)
Section running.
  Context (OnStart_result : runnable → bool).

Definition initiated (w : World) (c : ctx) : bool := bool_decide (state_of w c = Some Initiated).

(** [d] is a proper descendant of [c], and every context strictly between is [Initiated]. *)
Fixpoint reach_aux (n : nat) (w : World) (c d : ctx) : bool :=
  match n with
  | 0 => false
  | S n' => match parent_of w d with
            | Some p => Nat.eqb p c || (initiated w p && reach_aux n' w c p)
            | None => false
            end
  end.
Definition reach (w : World) (c d : ctx) : bool := reach_aux (S d) w c d.
Definition reach1 (w : World) (q d : ctx) : bool := Nat.eqb d q || (initiated w q && reach w q d).

Lemma reach_enough w c n d : older w → d < n → reach_aux n w c d = reach w c d.
Proof.
  intros Ho. unfold reach. revert d. induction n as [n IH] using lt_wf_ind. intros d Hd.
  destruct n as [|n]; [lia|]. simpl. destruct (parent_of w d) as [p|] eqn:E; [|done].
  apply Ho in E. destruct d as [|d]; [lia|]. f_equal. f_equal.
  rewrite (IH n) by lia. symmetry. destruct (decide (S d = n)) as [<-|]; [by rewrite (IH (S d)) by lia|].
  apply (IH (S d)); lia.
Qed.

Lemma reach_unfold w c d : older w →
  reach w c d = match parent_of w d with Some p => Nat.eqb p c || (initiated w p && reach w c p) | None => false end.
Proof.
  intros Ho. unfold reach at 1. simpl. destruct (parent_of w d) as [p|] eqn:E; [|done].
  f_equal. f_equal. apply reach_enough; [done|]. by apply Ho.
Qed.

Lemma reach_lt w c d : older w → reach w c d = true → c < d ∧ below w c d = true.
Proof.
  intros Ho. induction d as [d IH] using lt_wf_ind. rewrite reach_unfold by done.
  destruct (parent_of w d) as [p|] eqn:E; [|done]. pose proof (Ho _ _ E) as Hlt.
  intros [->%Nat.eqb_eq|[_ H]%andb_true_iff]%orb_true_iff; rewrite below_unfold, E by done.
  - rewrite below_refl. split; [done|apply orb_true_r].
  - destruct (IH p Hlt H) as [? ->]. split; [lia|apply orb_true_r].
Qed.

Lemma reach1_below w q d : older w → reach1 w q d = true → below w q d = true.
Proof.
  intros Ho [->%Nat.eqb_eq|[_ H]%andb_true_iff]%orb_true_iff; [apply below_refl|by apply reach_lt in H as [_ ?]].
Qed.

(** [reach] from [c] goes through a child of [c]. *)
Lemma reach_children w c l d : older w → (∀ q, q ∈ l ↔ parent_of w q = Some c) →
  reach w c d = existsb (λ q, reach1 w q d) l.
Proof.
  intros Ho Hl. induction d as [d IH] using lt_wf_ind. rewrite reach_unfold by done.
  destruct (parent_of w d) as [p|] eqn:E.
  - destruct (Nat.eqb_spec p c) as [->|n]; simpl.
    + symmetry. apply existsb_exists. exists d. split; [by apply list_elem_of_In, Hl|]. unfold reach1. by rewrite Nat.eqb_refl.
    + rewrite IH by (by apply Ho). apply eq_bool_prop_intro. rewrite Is_true_true, andb_true_iff, Is_true_true, !existsb_exists.
      assert (∀ q, In q l → Nat.eqb d q = false) as Hd.
      { intros q Hq. apply Nat.eqb_neq. intros <-. apply list_elem_of_In, Hl in Hq. congruence. }
      split.
      * intros (Hi & q & Hq & Hb). exists q. split; [done|]. unfold reach1 in *. rewrite (Hd q Hq), reach_unfold, E by done.
        apply orb_true_iff in Hb as [->%Nat.eqb_eq|[Hiq Hr]%andb_true_iff]; [by rewrite Hi, Nat.eqb_refl|].
        rewrite Hiq, Hi, Hr. apply orb_true_r.
      * intros (q & Hq & Hb). unfold reach1 in Hb. rewrite (Hd q Hq), reach_unfold, E in Hb by done.
        apply andb_true_iff in Hb as [Hiq [Hpq|[Hi Hr]%andb_true_iff]%orb_true_iff].
        -- apply Nat.eqb_eq in Hpq as ->. split; [done|]. exists q. split; [done|]. unfold reach1. by rewrite Nat.eqb_refl.
        -- split; [done|]. exists q. split; [done|]. unfold reach1. rewrite Hiq, Hr. apply orb_true_r.
  - symmetry. apply not_true_is_false. intros (q & Hq & Hb)%existsb_exists. apply list_elem_of_In, Hl in Hq.
    unfold reach1 in Hb. rewrite reach_unfold, E, andb_false_r, orb_false_r in Hb by done.
    apply Nat.eqb_eq in Hb as ->. congruence.
Qed.

(** The subtrees of two children of [c] are disjoint. *)
Lemma siblings_disjoint w c q q' d : older w → parent_of w q = Some c → parent_of w q' = Some c →
  below w q d = true → below w q' d = true → q = q'.
Proof.
  intros Ho Hq Hq'. induction d as [d IH] using lt_wf_ind.
  assert (∀ q q', parent_of w q = Some c → parent_of w q' = Some c → below w q' q = true → q = q') as Hone.
  { clear -Ho. intros q q' Hq Hq' H. rewrite below_unfold, Hq in H by done.
    apply orb_true_iff in H as [?%Nat.eqb_eq|H]; [done|]. apply below_le in H; [|done]. apply Ho in Hq'. lia. }
  intros H1 H2. rewrite below_unfold in H1 by done. apply orb_true_iff in H1 as [->%Nat.eqb_eq|H1]; [by apply Hone|].
  destruct (parent_of w d) as [p|] eqn:E; [|done]. rewrite below_unfold, E in H2 by done.
  apply orb_true_iff in H2 as [->%Nat.eqb_eq|H2].
  - rewrite E in Hq'. simplify_eq. apply below_le in H1; [|done]. apply Ho in Hq. lia.
  - apply (IH p); [by apply Ho|done|done].
Qed.

(** States outside the subtree of [q], and that of [q] itself, do not matter to [reach] from [q]. *)
Lemma reach_local w w' q d : older w → (∀ e, parent_of w' e = parent_of w e) →
  (∀ e, e ≠ q → below w q e = true → state_of w' e = state_of w e) → reach w' q d = reach w q d.
Proof.
  intros Ho Hp Hst. assert (older w') as Ho' by (intros e p; rewrite Hp; apply Ho).
  induction d as [d IH] using lt_wf_ind. rewrite !reach_unfold, Hp by done.
  destruct (parent_of w d) as [p|] eqn:E; [|done]. rewrite (IH p) by (by apply Ho).
  destruct (Nat.eqb_spec p q) as [->|n]; [done|]. simpl.
  destruct (reach w q p) eqn:Er; [|by rewrite !andb_false_r]. apply reach_lt in Er as [_ Hb]; [|done].
  unfold initiated. by rewrite Hst.
Qed.

(** ** Promotion of a set of contexts *)
Definition promote (s : State) : State :=
  match s with NotStarted => CanRun | Initiated => Running | s => s end.

(** The runnables of the [Initiated] contexts in [A]. *)
Definition starting (w : World) (A : ctx → bool) (r : runnable) : bool :=
  existsb (λ e, A e.1 && bool_decide (m_state e.2 = Initiated) && in_list (m_threads e.2) r) (map_to_list (contexts w)).

Definition promoted (A : ctx → bool) (w w' : World) : Prop :=
  effect (λ d s, if A d then promote s else s) (on (starting w A) (started OnStart_result)) w w'.

Lemma starting_true w A r :
  starting w A r = true ↔ ∃ d x, contexts w !! d = Some x ∧ A d = true ∧ m_state x = Initiated ∧ in_list (m_threads x) r = true.
Proof.
  unfold starting. rewrite existsb_exists. split.
  - intros ([d x] & Hin & [[? ?%bool_decide_eq_true]%andb_true_iff ?]%andb_true_iff).
    apply list_elem_of_In, elem_of_map_to_list in Hin. by exists d, x.
  - intros (d & x & Hd & H1 & H2 & H3). exists (d, x). split; [by apply list_elem_of_In, elem_of_map_to_list|].
    simpl. by rewrite H1, H2, H3.
Qed.

Lemma promoted_ext A B w w' : promoted A w w' → (∀ d, A d = B d) → promoted B w w'.
Proof.
  intros H HAB. eapply effect_ext; [exact H| |].
  - intros d x _. simpl. by rewrite HAB.
  - intros r y _. unfold on.
    assert (starting w A r = starting w B r) as ->; [|done].
    unfold starting. induction (map_to_list (contexts w)) as [|e l IH]; simpl; [done|]. by rewrite HAB, IH.
Qed.

Lemma promoted_comp A B w w1 w2 :
  promoted A w w1 → promoted B w1 w2 → (∀ d, A d && B d = false) → promoted (λ d, A d || B d) w w2.
Proof.
  intros H1 H2 Hdis. eapply effect_trans; [exact H1|exact H2| |].
  - intros d x _. simpl. specialize (Hdis d). by destruct (A d), (B d).
  - intros r y _. unfold on.
    assert (starting w (λ d, A d || B d) r = starting w A r || starting w1 B r) as ->.
    { apply eq_bool_prop_intro. rewrite !Is_true_true, orb_true_iff, !starting_true. split.
      - intros (d & x & Hd & [Ha|Hb]%orb_true_iff & Hs & Hr); [left; by exists d, x|right].
        exists d, x. rewrite (effect_lookup H1 d x Hd). specialize (Hdis d). rewrite Hb, andb_true_r in Hdis.
        by rewrite Hdis, set_state_id.
      - intros [(d & x & Hd & Ha & ?)|(d & x' & Hd & Hb & Hs & Hr)]; [exists d, x; by rewrite Ha|].
        apply (effect_back H1) in Hd as (x & Hx & ->). specialize (Hdis d). rewrite Hb, andb_true_r in Hdis.
        rewrite Hdis in Hs. exists d, x. by rewrite Hb, orb_true_r. }
    destruct (starting w A r); simpl; [|done]. destruct (starting w1 B r); [by rewrite started_twice|done].
Qed.

Lemma promoted_settled A w w' : promoted A w w' → settled w → settled w'.
Proof. intros H. apply (effect_settled H), keeps_lock_started. Qed.

Lemma promoted_state A w w' d : promoted A w w' → A d = false → state_of w' d = state_of w d.
Proof. intros H Hd. rewrite (effect_state H). rewrite Hd. by destruct (state_of w d). Qed.

(** One context of state [s]: its new state is set and, if it was [Initiated], its
    runnables are started. *)
Lemma promoted_one w q x w' :
  contexts w !! q = Some x →
  effect (λ d s', if Nat.eqb d q then promote (m_state x) else s')
    (on (λ r, bool_decide (m_state x = Initiated) && in_list (m_threads x) r) (started OnStart_result)) w w' →
  promoted (λ d, Nat.eqb d q) w w'.
Proof.
  intros Hq He. eapply effect_ext; [exact He| |].
  - intros d z Hd. simpl. destruct (Nat.eqb_spec d q) as [->|]; congruence.
  - intros r z _. unfold on.
    assert (starting w (λ d, d =? q) r = bool_decide (m_state x = Initiated) && in_list (m_threads x) r) as ->; [|done].
    apply eq_bool_prop_intro. rewrite !Is_true_true, starting_true, andb_true_iff, bool_decide_eq_true. split.
    + intros (d & y & Hd & ->%Nat.eqb_eq & Hs & Hr). by simplify_eq.
    + intros [Hs Hr]. exists q, x. by rewrite Nat.eqb_refl.
Qed.

(** Between settled worlds with the same links, pointers lock alike. *)
Lemma effect_lock f g w w' o : effect f g w w' → lock o w' = lock o w.
Proof.
  intros He. unfold lock. destruct o as [d|]; [|done]. rewrite (ef_contexts _ _ _ _ He).
  by destruct (contexts w !! d).
Qed.

Lemma omap_lock f g w w' (l : list (slot * option ctx)) : effect f g w w' →
  omap (λ e, lock e.2 w') l = omap (λ e, lock e.2 w) l.
Proof.
  intros He. induction l as [|e l IH]; [done|]. csimpl. rewrite (effect_lock _ _ _ _ e.2 He).
  destruct (lock e.2 w); [by f_equal|done].
Qed.

Definition rest_of (prior : option slot) (l : list (slot * option ctx)) : list (slot * option ctx) :=
  match prior with Some s => after_slot s l | None => l end.

(** One child of the context being transitioned. *)
Definition transition_child (recurse : ctx → M World unit) (child : ctx) : M World unit :=
  cx ← context child;
  match m_state cx with
  | Initiated =>
    update child (set_state Running);;
    for_each (λ r, _ ← Start inert OnStart_result r; mret tt) (m_threads cx);;
    emit inert (ev_onRunning child);;
    recurse child
  | NotStarted => update child (set_state CanRun)
  | _ => mret tt
  end.

Lemma transition_loop_step recurse n c prior w x s q :
  contexts w !! c = Some x → first_live (rest_of prior (m_children x)) w = Some (s, q) →
  transition_loop inert OnStart_result recurse (S n) c prior w =
  (transition_child recurse q;; transition_loop inert OnStart_result recurse n c (Some s)) w.
Proof.
  intros Hc Hf. unfold transition_child. cbn [transition_loop]. rewrite bind_assoc.
  erewrite bind_Ret by (by apply context_run). erewrite bind_Ret; [|done].
  unfold rest_of in Hf. by rewrite Hf.
Qed.

Lemma start_all_run w l :
  (∀ r, r ∈ l → is_Some (runnables w !! r)) → (∀ r y, runnables w !! r = Some y → m_locked y = false) →
  ∃ w', for_each (λ r, _ ← Start inert OnStart_result r; mret tt) l w = (Ret tt, w') ∧
        effect (λ _ s, s) (on (in_list l) (started OnStart_result)) w w'.
Proof.
  intros Hl Hu. apply runnables_loop; [|apply started_twice|apply keeps_lock_started|done|done].
  intros w0 r y Hr Hy. destruct (Start_run OnStart_result w0 r y Hr Hy) as [lg E]. exists lg. by erewrite bind_Ret.
Qed.

(** A context turns [Running], its runnables start and its listeners are told. *)
Lemma run_context w q x e :
  settled w → contexts w !! q = Some x → m_state x = Initiated →
  ∃ w', (∀ k : M World unit,
           (update q (set_state Running);;
            for_each (λ r, _ ← Start inert OnStart_result r; mret tt) (m_threads x);;
            emit inert e;; k) w = k w') ∧
        promoted (λ d, Nat.eqb d q) w w'.
Proof.
  intros Hs Hq Hi.
  pose proof (effect_set_state w q x Running Hq) as He1. set (w1 := set_contexts _ w) in *.
  destruct (start_all_run w1 (m_threads x)) as (w2 & E2 & He2).
  - intros r Hr. exact (st_threads _ Hs q x r Hq Hr).
  - exact (st_unlocked _ Hs).
  - eexists. split.
    { intros k. erewrite bind_Ret by (by apply update_run). erewrite bind_Ret by exact E2.
      by erewrite bind_Ret by apply emit_run. }
    apply (promoted_one w q x); [done|]. rewrite Hi. eapply effect_ext.
    + eapply effect_comp; [eapply effect_comp; [exact He1|exact He2]|apply effect_log].
    + done.
    + intros r y _. unfold on. simpl. by destruct (in_list (m_threads x) r).
Qed.

(** What [TryTransitionChildrenState] does to a world of [N] contexts. *)
Definition transitions (recurse : ctx → M World unit) (N : nat) (q : ctx) : Prop :=
  ∀ w, settled w → next_ctx w = N → is_Some (contexts w !! q) →
  ∃ w', recurse q w = (Ret tt, w') ∧ promoted (reach w q) w w'.

Lemma transition_child_other recurse w q x :
  contexts w !! q = Some x → m_state x ≠ Initiated →
  ∃ w', transition_child recurse q w = (Ret tt, w') ∧ promoted (λ d, Nat.eqb d q) w w'.
Proof.
  intros Hq Hi. unfold transition_child. erewrite bind_Ret by (by apply context_run).
  assert (∀ w', effect (λ d s, if Nat.eqb d q then promote (m_state x) else s) (λ _ y, y) w w' →
    promoted (λ d, Nat.eqb d q) w w') as Hone.
  { intros w' He. apply (promoted_one w q x); [done|]. by rewrite bool_decide_eq_false_2. }
  assert (promote (m_state x) = m_state x → promoted (λ d, Nat.eqb d q) w w) as Hsame.
  { intros Es. apply Hone, effect_refl; [|done]. intros d y Hd. destruct (Nat.eqb_spec d q) as [->|]; congruence. }
  destruct (m_state x) eqn:E; try done; [|exists w; by split; [|apply Hsame]..].
  erewrite update_run by done. eexists. split; [done|]. apply Hone. exact (effect_set_state w q x CanRun Hq).
Qed.

Lemma transition_child_run recurse w q x :
  settled w → contexts w !! q = Some x → transitions recurse (next_ctx w) q →
  ∃ w', transition_child recurse q w = (Ret tt, w') ∧ promoted (reach1 w q) w w'.
Proof.
  intros Hs Hq Hrec. pose proof (settled_older _ Hs) as Ho. unfold transition_child.
  erewrite bind_Ret by (by apply context_run).
  assert (initiated w q = bool_decide (m_state x = Initiated)) as Ei.
  { unfold initiated, state_of. rewrite Hq. apply bool_decide_ext. simpl. split; congruence. }
  destruct (decide (m_state x = Initiated)) as [Hi|Hi].
  - rewrite Hi. destruct (run_context w q x (ev_onRunning q) Hs Hq Hi) as (w1 & E1 & H1).
    assert (settled w1) as Hs1 by (by eapply promoted_settled).
    destruct (Hrec w1) as (w2 & E2 & H2); [done|by destruct (ef_next _ _ _ _ H1)| |].
    { rewrite (effect_lookup H1 q x Hq). by eexists. }
    assert (∀ d, reach w1 q d = reach w q d) as Hr.
    { intros d. apply reach_local; [done|apply (effect_parent H1)|].
      intros e n _. apply (promoted_state _ _ _ _ H1). by apply Nat.eqb_neq. }
    exists w2. split.
    + by rewrite E1.
    + eapply promoted_ext; [eapply promoted_comp; [exact H1|exact H2|]|].
      * intros d. rewrite Hr. destruct (Nat.eqb_spec d q) as [->|]; [|done].
        apply not_true_is_false. intros [? _]%reach_lt; [lia|done].
      * intros d. unfold reach1. rewrite Hr, Ei, Hi. done.
  - assert (∀ d, reach1 w q d = Nat.eqb d q) as Er.
    { intros d. unfold reach1. rewrite Ei, bool_decide_eq_false_2 by done. apply orb_false_r. }
    destruct (transition_child_other recurse w q x Hq Hi) as (w' & E & H). exists w'.
    split; [|by eapply promoted_ext].
    unfold transition_child in E. by erewrite bind_Ret in E by (by apply context_run).
Qed.

(** One step of the loop, then the rest of it. *)
Lemma reach1_sibling w w1 c q q' d : older w → parent_of w q = Some c → parent_of w q' = Some c → q ≠ q' →
  promoted (reach1 w q) w w1 → reach1 w1 q' d = reach1 w q' d ∧ reach1 w q d && reach1 w q' d = false.
Proof.
  intros Ho Hq Hq' Hn H1.
  assert (∀ e, below w q' e = true → reach1 w q e = false) as Hdis.
  { intros e He. apply not_true_is_false. intros Hr%reach1_below; [|done].
    apply Hn. by eapply siblings_disjoint. }
  split.
  - unfold reach1. f_equal. unfold initiated at 1. rewrite (promoted_state _ _ _ q' H1) by (apply Hdis, below_refl).
    fold (initiated w q'). f_equal. apply reach_local; [done|apply (effect_parent H1)|].
    intros e _ He. by apply (promoted_state _ _ _ _ H1), Hdis.
  - destruct (reach1 w q' d) eqn:E; [|apply andb_false_r]. apply reach1_below in E; [|done]. by rewrite Hdis.
Qed.

Lemma transition_loop_run recurse c N n : (∀ q, c < q → transitions recurse N q) →
  ∀ w prior x, settled w → next_ctx w = N → contexts w !! c = Some x →
  (∃ l1, m_children x = l1 ++ rest_of prior (m_children x)) →
  length (omap (λ e, lock e.2 w) (rest_of prior (m_children x))) ≤ n →
  ∃ w', transition_loop inert OnStart_result recurse n c prior w = (Ret tt, w') ∧
    promoted (λ d, existsb (λ q, reach1 w q d) (omap (λ e, lock e.2 w) (rest_of prior (m_children x)))) w w'.
Proof.
  intros Hrec. induction n as [|n IH]; intros w prior x Hs HN Hc [l1 Hl1] Hlen;
    (destruct (first_live (rest_of prior (m_children x)) w) as [[s q]|] eqn:Ef;
     [|exists w; rewrite (first_live_None _ _ Ef); split;
       [cbn [transition_loop]; erewrite bind_Ret by (by apply context_run); erewrite bind_Ret by done;
        unfold rest_of in Ef; by rewrite Ef
       |apply effect_refl; [done|]; intros r y _; unfold on;
        replace (starting _ _ _) with false; [done|]; symmetry; apply not_true_is_false; by intros (? & ? & ? & ? & _)%starting_true]]).
  all: destruct (to_nodup _ (st_tree _ Hs) c x Hc) as [Hnd _]; pose proof (settled_older _ Hs) as Ho.
  all: assert (NoDup (rest_of prior (m_children x)).*1) as Hnd' by (rewrite Hl1, fmap_app in Hnd; apply NoDup_app in Hnd as (_ & _ & Hnd); exact Hnd).
  all: destruct (first_live_Some _ _ _ _ Hnd' Ef) as (EL & l2 & El2).
  { rewrite EL in Hlen. simpl in Hlen. lia. }
  pose proof (live_children_nodup w c x Hs Hc) as HndL. unfold live_children in HndL.
  assert (∀ q', q' ∈ omap (λ e, lock e.2 w) (rest_of prior (m_children x)) → parent_of w q' = Some c) as HL.
  { intros q' Hq'. apply (elem_of_live_children w c x q' Hs Hc). unfold live_children. rewrite Hl1, omap_app.
    apply elem_of_app. by right. }
  rewrite Hl1, omap_app in HndL. apply NoDup_app in HndL as (_ & _ & HndL). rewrite EL in HndL, HL, Hlen. simpl in Hlen.
  apply NoDup_cons in HndL as [Hnq _].
  assert (parent_of w q = Some c) as Hpq by (apply HL; left).
  assert (is_Some (contexts w !! q)) as [y Hy].
  { unfold parent_of in Hpq. destruct (contexts w !! q); [by eexists|done]. }
  erewrite transition_loop_step by done.
  destruct (transition_child_run recurse w q y Hs Hy) as (w1 & E1 & H1); [rewrite HN; by apply Hrec, Ho|].
  erewrite bind_Ret by exact E1. pose proof (promoted_settled _ _ _ H1 Hs) as Hs1.
  pose proof (effect_lookup H1 c x Hc) as Hc1. set (x1 := set_state _ x) in Hc1.
  assert (m_children x1 = m_children x) as Ex1 by done.
  assert (after_slot s (m_children x) = after_slot s (rest_of prior (m_children x))) as Ea.
  { rewrite Hl1 at 1. rewrite El2 at 1. rewrite app_assoc. apply after_slot_suffix.
    rewrite <-app_assoc, <-El2, <-Hl1. done. }
  assert (omap (λ e, lock e.2 w1) (rest_of (Some s) (m_children x1)) = omap (λ e, lock e.2 w) (after_slot s (rest_of prior (m_children x)))) as EL1.
  { rewrite Ex1. simpl. rewrite Ea. apply (omap_lock _ _ _ _ _ H1). }
  destruct (IH w1 (Some s) x1 Hs1) as (w2 & E2 & H2); [by destruct (ef_next _ _ _ _ H1) as [-> _]|done| |rewrite EL1; lia|].
  { rewrite Ex1. simpl. rewrite Ea. exists (l1 ++ l2 ++ [(s, Some q)]). rewrite <-!app_assoc. simpl. by rewrite <-El2. }
  exists w2. split; [exact E2|]. rewrite EL1 in H2.
  assert (∀ q' d, q' ∈ omap (λ e, lock e.2 w) (after_slot s (rest_of prior (m_children x))) →
    reach1 w1 q' d = reach1 w q' d ∧ reach1 w q d && reach1 w q' d = false) as Hsib.
  { intros q' d Hq'. apply (reach1_sibling w w1 c); try done; [apply HL; by right|]. intros ->. done. }
  rewrite EL. eapply promoted_ext; [eapply promoted_comp; [exact H1|exact H2|]|].
  - intros d. clear -Hsib. induction (omap _ _) as [|q' l IH]; simpl; [apply andb_false_r|].
    destruct (Hsib q' d) as [-> E]; [left|]. rewrite andb_orb_distrib_r, E. simpl. apply IH. intros. apply Hsib. by right.
  - intros d. simpl. f_equal. clear -Hsib. induction (omap _ _) as [|q' l IH]; simpl; [done|].
    destruct (Hsib q' d) as [-> _]; [left|]. f_equal. apply IH. intros. apply Hsib. by right.
Qed.

Lemma TryTransitionChildrenState_run fuel : ∀ w c,
  settled w → is_Some (contexts w !! c) → next_ctx w ≤ fuel + c →
  ∃ w', TryTransitionChildrenState inert OnStart_result fuel c w = (Ret tt, w') ∧ promoted (reach w c) w w'.
Proof.
  induction fuel as [|fuel IH]; intros w c Hs [x Hc] Hf.
  { apply (to_next _ (st_tree _ Hs)) in Hc. lia. }
  cbn [TryTransitionChildrenState].
  destruct (transition_loop_run (TryTransitionChildrenState inert OnStart_result fuel) c (next_ctx w) (S fuel)) with (w := w) (prior := @None slot) (x := x)
    as (w' & E & H); try done.
  - intros q Hq w0 Hs0 HN Hq0. apply IH; [done|done|lia].
  - by exists [].
  - pose proof (live_children_bound w c x Hs Hc). unfold live_children in *. simpl. lia.
  - exists w'. split; [exact E|]. eapply promoted_ext; [exact H|]. intros d. symmetry.
    apply reach_children; [by apply settled_older|]. intros q. by apply elem_of_live_children.
Qed.

(** ** [Initiate] *)
(** [c] may run at once. *)
Definition may_run (x : CoreContext) : bool :=
  match m_state x with CanRun => true | NotStarted => IsGlobalContext x | _ => false end.

Definition initiated_effect (w : World) (c : ctx) (x : CoreContext) (w' : World) : Prop :=
  effect (λ d s, if Nat.eqb d c then Running else if reach w c d then promote s else s)
    (on (λ r, in_list (m_threads x) r || starting w (reach w c) r) (started OnStart_result)) w w'.

Lemma Initiate_run_now fuel w c x :
  settled w → contexts w !! c = Some x → may_run x = true → next_ctx w ≤ fuel + c →
  ∃ w', Initiate inert OnStart_result fuel c w = (Ret tt, w') ∧ initiated_effect w c x w'.
Proof.
  intros Hs Hc Hm Hf. pose proof (settled_older _ Hs) as Ho.
  set (k := (for_each (λ r, _ ← Start inert OnStart_result r; mret tt) (m_threads x);;
             emit inert (ev_onRunning c);; TryTransitionChildrenState inert OnStart_result fuel c)).
  assert (Initiate inert OnStart_result fuel c w =
    (update c (set_state Running);; emit inert (ev_onInitiated c);;
     match m_threads x with [] => mret tt | _ => shared_from_this c end;; k) w) as ->.
  { unfold Initiate. erewrite bind_Ret by (by apply context_run). unfold may_run, IsInitiated in *.
    destruct (m_state x); try done. by rewrite Hm. }
  erewrite bind_Ret by (by apply update_run).
  pose proof (effect_set_state w c x Running Hc) as He1. set (w1 := set_contexts _ w) in *.
  erewrite bind_Ret by apply emit_run.
  pose proof (effect_comp _ _ _ _ _ _ _ He1 (effect_log w1 (log w1 ++ [ev_onInitiated c]))) as He2.
  set (w2 := set_log _ w1) in *. simpl in He2. clearbody w2.
  pose proof (effect_lookup He2 c x Hc) as Hc2.
  assert (settled w2) as Hs2 by (exact (effect_settled He2 (λ _ _ H, H) Hs)).
  erewrite bind_Ret with (a := tt) (s' := w2).
  2: { destruct (m_threads x); [done|]. unfold shared_from_this. erewrite bind_Ret by (by apply context_run).
       by destruct (st_live _ Hs2 c _ Hc2) as [-> _]. }
  destruct (start_all_run w2 (m_threads x)) as (w3 & E3 & He3).
  { intros r Hr. exact (st_threads _ Hs2 c _ r Hc2 Hr). }
  { exact (st_unlocked _ Hs2). }
  unfold k. erewrite bind_Ret by exact E3. erewrite bind_Ret by apply emit_run.
  pose proof (effect_comp _ _ _ _ _ _ _ (effect_comp _ _ _ _ _ _ _ He2 He3) (effect_log w3 (log w3 ++ [ev_onRunning c]))) as He4.
  set (w4 := set_log _ w3) in *. simpl in He4. clearbody w4.
  assert (settled w4) as Hs4 by (refine (effect_settled He4 _ Hs); intros r y Hy; by apply keeps_lock_started).
  destruct (TryTransitionChildrenState_run fuel w4 c) as (w5 & E5 & He5); [done| | |].
  { rewrite (effect_lookup He4 c x Hc). by eexists. }
  { destruct (ef_next _ _ _ _ He4) as [-> _]. lia. }
  exists w5. split; [exact E5|].
  assert (∀ d, reach w4 c d = reach w c d) as Hr.
  { intros d. apply reach_local; [done|apply (effect_parent He4)|]. intros e n _. rewrite (effect_state He4).
    destruct (Nat.eqb_spec e c); [done|]. by destruct (state_of w e). }
  eapply effect_trans; [exact He4|exact He5| |].
  - intros d y _. simpl. rewrite Hr. destruct (Nat.eqb_spec d c) as [->|]; [|done]. by destruct (reach w c c).
  - intros r y _. unfold on.
    assert (starting w4 (reach w4 c) r = starting w (reach w c) r) as ->.
    { apply eq_bool_prop_intro. rewrite !Is_true_true, !starting_true. split.
      - intros (d & y' & Hd & Hrd & Hi & Hin). apply (effect_back He4) in Hd as (y0 & Hy0 & ->). rewrite Hr in Hrd.
        exists d, y0. apply reach_lt in Hrd as H'; [|done]. simpl in Hi. destruct (Nat.eqb_spec d c); [lia|done].
      - intros (d & y0 & Hd & Hrd & Hi & Hin). eexists d, _. split; [by apply (effect_lookup He4)|]. rewrite Hr.
        apply reach_lt in Hrd as H'; [|done]. simpl. destruct (Nat.eqb_spec d c); [lia|done]. }
    destruct (in_list (m_threads x) r); simpl; [|done]. destruct (starting w (reach w c) r); [by rewrite started_twice|done].
Qed.

(** A context that may not run yet waits, held by a runnable. *)
Definition waiting (w : World) (c : ctx) (x : CoreContext) : World :=
  set_next_runnable (S (next_runnable w))
    (set_runnables (<[next_runnable w := CoreRunnable_new]> (runnables w))
       (set_contexts (<[c := set_threads (next_runnable w :: m_threads x) (set_state Initiated x)]> (contexts w))
          (set_log (log w ++ [ev_onInitiated c]) w))).

Lemma Initiate_run_wait fuel w c x :
  settled w → contexts w !! c = Some x → m_state x = NotStarted → IsGlobalContext x = false →
  Initiate inert OnStart_result fuel c w = (Ret tt, waiting w c x).
Proof.
  intros Hs Hc Hn Hg. unfold Initiate. erewrite bind_Ret by (by apply context_run).
  unfold IsInitiated. rewrite Hn, Hg. erewrite bind_Ret by (by apply update_run).
  erewrite bind_Ret by apply emit_run. destruct (st_live _ Hs c x Hc) as [He Hb].
  unfold shared_from_this. rewrite bind_assoc.
  erewrite bind_Ret by (apply context_run; simpl; by rewrite lookup_insert_eq). simpl. rewrite He.
  erewrite bind_Ret; [|done]. erewrite bind_Ret; [|done]. unfold AddCoreRunnable.
  erewrite bind_Ret by (apply update_run; simpl; by rewrite lookup_insert_eq).
  erewrite bind_Ret by (apply context_run; simpl; by rewrite lookup_insert_eq).
  erewrite bind_Ret by (apply update_run; simpl; by rewrite lookup_insert_eq).
  assert (IsRunning (set_threads (next_runnable w :: m_threads x) (set_state Initiated x)) = false) as Er by done.
  erewrite bind_Ret; [|done].
  erewrite bind_Ret by (apply update_run; simpl; by rewrite lookup_insert_eq).
  erewrite bind_Ret by (apply context_run; simpl; by rewrite lookup_insert_eq).
  simpl. unfold mret, M_ret, waiting, set_contexts, set_runnables, set_next_runnable, set_log. simpl.
  rewrite !insert_insert_eq. do 4 f_equal.
  unfold set_beforeRunning, set_threads. destruct x; simpl in *. by subst.
Qed.

(** Initiating again, or after a shutdown, does nothing. *)
Lemma Initiate_run_again fuel w c x :
  contexts w !! c = Some x → may_run x = false → m_state x ≠ NotStarted →
  Initiate inert OnStart_result fuel c w = (Ret tt, w).
Proof.
  intros Hc Hm Hn. unfold Initiate. erewrite bind_Ret by (by apply context_run).
  unfold may_run, IsInitiated in *. by destruct (m_state x).
Qed.
End running.
