(* ===== verification/ContextEnumerator.v ===== *)
(** * ContextEnumerator: walking the context tree

    src/src/autowiring/ContextEnumerator.{h,cpp} and the one client of it inside
    the library, [CoreContext::AddBolt].  An iterator is a pair of pointers; the
    walk reads the tree of a [CoreContext.World] as it stands at each step. *)
From stdpp Require Import base gmap list sets strings.
From Stdlib Require Import ZArith Lia.
From S2P Require Import Prelude CoreContext.

(** ** Iterators *)
Record iterator := mkIterator { m_root : option ctx; m_cur : option ctx }.

#[export] Instance iterator_eq_dec : EqDecision iterator.
Proof. solve_decision. Defined.

Definition iterator_new (root cur : option ctx) : M World iterator :=
  match root with
  | Some r => x ← context r; mret (mkIterator (m_pParent x) cur)
  | None => mret (mkIterator None cur)
  end.

(** The [while] loop of [_next]: [(i, m_cur)]. *)
Fixpoint ascend (fuel : nat) (i : option ctx) (cur : option ctx) : M World (option ctx * option ctx) :=
  match i, cur with
  | None, Some c =>
    match fuel with
    | 0 => stuck out_of_fuel
    | S fuel' => i' ← NextSibling c; x ← context c; ascend fuel' i' (m_pParent x)
    end
  | _, _ => mret (i, cur)
  end.

Definition _next (fuel : nat) (start : option ctx) (it : iterator) : M World iterator :=
  r ← ascend fuel start (m_cur it);
  mret (mkIterator (m_root it) (if bool_decide (r.2 = m_root it) then None else r.1)).

(** [operator++]. *)
Definition iterator_inc (fuel : nat) (it : iterator) : M World iterator :=
  c ← deref (m_cur it); start ← FirstChild c; _next fuel start it.

(** [iterator::NextSibling]. *)
Definition iterator_NextSibling (fuel : nat) (it : iterator) : M World iterator :=
  c ← deref (m_cur it); start ← NextSibling c; _next fuel start it.

(** [for (it = begin(); it != end(); ++it)]: the contexts visited. *)
Fixpoint iterate (fuel n : nat) (it : iterator) : M World (list ctx) :=
  match m_cur it with
  | None => mret []
  | Some c =>
    match n with
    | 0 => stuck out_of_fuel
    | S n' => it' ← iterator_inc fuel it; l ← iterate fuel n' it'; mret (c :: l)
    end
  end.

Definition enumerate (fuel : nat) (root : ctx) : M World (list ctx) :=
  it ← iterator_new (Some root) (Some root); iterate fuel fuel it.

(** [ContextEnumeratorT<Sigil>]: the iterator skips to contexts of the sigil. *)
Fixpoint advance_to (fuel n : nat) (s : sigil) (it : iterator) : M World iterator :=
  match m_cur it with
  | None => mret it
  | Some c =>
    x ← context c;
    if Nat.eqb (SigilType x) s then mret it
    else match n with
         | 0 => stuck out_of_fuel
         | S n' => it' ← iterator_inc fuel it; advance_to fuel n' s it'
         end
  end.

Fixpoint iterateT (fuel n : nat) (s : sigil) (it : iterator) : M World (list ctx) :=
  match m_cur it with
  | None => mret []
  | Some c =>
    match n with
    | 0 => stuck out_of_fuel
    | S n' => it' ← iterator_inc fuel it; it'' ← advance_to fuel fuel s it';
              l ← iterateT fuel n' s it''; mret (c :: l)
    end
  end.

Definition enumerateT (fuel : nat) (s : sigil) (root : ctx) : M World (list ctx) :=
  it ← iterator_new (Some root) (Some root); it ← advance_to fuel fuel s it; iterateT fuel fuel s it.

(** [unique()]. *)
Definition unique (fuel : nat) (s : sigil) (root : ctx) : M World ctx :=
  it ← iterator_new (Some root) (Some root);
  q ← advance_to fuel fuel s it;
  match m_cur q with
  | None => throw (autowiring_error "Attempted to get a unique context on a context enumerator that enumerates no children")
  | Some r =>
    q' ← iterator_inc fuel q;
    q' ← advance_to fuel fuel s q';
    match m_cur q' with
    | None => mret r
    | Some _ => throw (autowiring_error "Attempted to get a unique context on a context enumerator that enumerates more than one child")
    end
  end.

(** ** AddBolt *)
Section AddBolt.
  Context (handler : event → M World unit).

(** [pBase->Matches(sigil)] for a bolt that lists [sigils]. *)
Definition Matches (sigils : list sigil) (s : sigil) : bool :=
  match sigils with [] => true | _ => existsb (Nat.eqb s) sigils end.

(** The loop that tells the bolt about contexts that already exist. *)
Fixpoint retroactive (fuel n : nat) (b : bolt) (sigils : list sigil) (it : iterator) : M World unit :=
  it' ← iterator_inc fuel it;
  match m_cur it' with
  | None => mret tt
  | Some c =>
    x ← context c;
    if Matches sigils (SigilType x) then
      _ ← SetCurrent (Some c);
      emit handler (ev_ContextCreated b (Some c));;
      match n with
      | 0 => stuck out_of_fuel
      | S n' => retroactive fuel n' b sigils it'
      end
    else mret tt
  end.

Definition AddBolt (fuel : nat) (c : ctx) (b : bolt) (sigils : list sigil) : M World unit :=
  let register k := update c (λ x, set_nameListeners
    (<[k := default [] (m_nameListeners x !! k) ++ [b]]> (m_nameListeners x)) x) in
  for_each register sigils;;
  (match sigils with [] => register void_sigil | _ => mret tt end);;
  (* CurrentContextPusher pshr: restores the current context at the end *)
  w ← get;
  let m_prior := CurrentContextOrNull w in
  at_exit (_ ← SetCurrent m_prior; mret tt)
    (it ← iterator_new (Some c) (Some c); retroactive fuel fuel b sigils it).
End AddBolt.
