(* ===== verification/ContextClients.v ===== *)
(** * CoreContext: what its clients rely on

    Programs of clients: sequences of calls on contexts whose callbacks (signals,
    bolts, [OnStart], [OnStop]) are again such programs, and throw.  The owner
    also releases contexts that have no children. *)
From stdpp Require Import base gmap list sets strings.
From Stdlib Require Import ZArith Lia.
From S2P Require Import Prelude CoreContext CoreContextFacts ContextEnumerator.

(** ** Reading the tree *)
Lemma FirstChild_run w c x :
  contexts w !! c = Some x → FirstChild c w = (Ret (snd <$> first_live (m_children x) w), w).
Proof. intros H. unfold FirstChild. erewrite bind_Ret by (by apply context_run). done. Qed.

Lemma NextSibling_run w c x :
  tree_ok w → contexts w !! c = Some x →
  NextSibling c w = (Ret (p ← m_pParent x; px ← contexts w !! p;
                          snd <$> first_live (after_slot (m_backReference x) (m_children px)) w), w).
Proof.
  intros Ht H. unfold NextSibling. erewrite bind_Ret by (by apply context_run).
  destruct (m_pParent x) as [p|] eqn:E; [|done].
  destruct (to_parent _ Ht c x p H E) as (_ & _ & px & Hpx & _).
  erewrite bind_Ret by (by apply context_run). simpl. by rewrite Hpx.
Qed.

(** [o] is no context or a live context of [w]. *)
Definition known (w : World) (o : option ctx) : Prop :=
  ∀ c, o = Some c → ∃ x, contexts w !! c = Some x ∧ m_expired x = false.

Lemma first_live_exists w l : known w (snd <$> first_live l w).
Proof.
  intros c. induction l as [|[s o] l IH]; simpl; [done|].
  destruct (lock o w) as [d|] eqn:E; [|done]. simpl. intros [= ->]. unfold lock in E.
  destruct o as [d|]; [|done]. destruct (contexts w !! d) as [x|] eqn:Ex; [|done].
  destruct (m_expired x) eqn:Eex; [done|]. simplify_eq. by exists x.
Qed.

Lemma parent_exists w c x : tree_ok w → contexts w !! c = Some x → known w (m_pParent x).
Proof. intros Ht Hc p Hp. destruct (to_parent _ Ht c x p Hc Hp) as (_ & _ & px & ? & _ & ? & _). by exists px. Qed.

(** A step of an iterator reads the tree and ends on a context of it, or at the end. *)
Definition reads {A} (w : World) (m : M World A) (Q : A → Prop) : Prop :=
  m w = (Stuck out_of_fuel, w) ∨ ∃ a, m w = (Ret a, w) ∧ Q a.

Lemma reads_bind {A B} w (m : M World A) (k : A → M World B) Q R :
  reads w m Q → (∀ a, Q a → reads w (k a) R) → reads w (m ≫= k) R.
Proof.
  intros [E|(a & E & Ha)] Hk; [left; unfold mbind, M_bind; by rewrite E|].
  destruct (Hk a Ha) as [E'|(b & E' & Hb)]; [left|right; exists b; split; [|done]]; by erewrite bind_Ret.
Qed.

Lemma ascend_reads w fuel i cur :
  tree_ok w → known w i → known w cur → reads w (ascend fuel i cur) (λ r, known w r.1).
Proof.
  intros Ht. revert i cur. induction fuel as [|fuel IH]; intros i cur Hi Hcur; simpl.
  { destruct i, cur; first [by left|by right; eexists]. }
  destruct i as [i|]; [right; by eexists|]. destruct cur as [c|]; [|right; by eexists].
  destruct (Hcur c eq_refl) as (x & Hx & _).
  eapply (reads_bind _ _ _ (known w)).
  - right. eexists. split; [by apply NextSibling_run|]. destruct (m_pParent x) as [p|]; [|done]. simpl.
    destruct (contexts w !! p) as [px|]; [|done]. apply first_live_exists.
  - intros i' Hi'. eapply (reads_bind _ _ _ (λ y, y = x)).
    + right. exists x. split; [by apply context_run|done].
    + intros y ->. apply IH; [done|]. by eapply parent_exists.
Qed.

Lemma iterator_inc_reads w fuel it c :
  tree_ok w → m_cur it = Some c → known w (Some c) →
  reads w (iterator_inc fuel it) (λ it', known w (m_cur it')).
Proof.
  intros Ht E Hk. destruct (Hk c eq_refl) as (x & Hx & _). unfold iterator_inc. rewrite E. simpl.
  eapply (reads_bind _ _ _ (λ y, y = c)); [right; by exists c|]. intros y ->.
  eapply (reads_bind _ _ _ (known w)).
  { right. eexists. split; [by apply FirstChild_run|]. apply first_live_exists. }
  intros i Hi. unfold _next. eapply (reads_bind _ _ _ (λ r, known w r.1)).
  { apply ascend_reads; [done|done|]. by rewrite E. }
  intros r Hr. right. eexists. split; [done|]. simpl. by case_bool_decide.
Qed.

(** ** The operations a client may call *)
Inductive context_op :=
  | op_create (parent : ctx) (s : sigil)
  | op_initiate (c : ctx)
  | op_shutdown (c : ctx) (graceful : bool)
  | op_add_runnable (c : ctx) (r : option runnable)
  | op_start (r : runnable)
  | op_stop (r : runnable) (graceful : bool)
  | op_set_current (o : option ctx)
  | op_add_bolt (c : ctx) (b : bolt) (sigils : list sigil)
  | op_add_filter (c : ctx) (f : nat)
  | op_filter (c : ctx) (e : exn)
  | op_release (c : ctx).

(** What a client holds pointers to: contexts that are not being destroyed, and
    runnables. *)
Definition holds (w : World) (c : ctx) : bool :=
  match contexts w !! c with Some x => negb (m_expired x) | None => false end.
Definition with_context (c : ctx) (m : M World unit) : M World unit :=
  w ← get; if holds w c then m else mret tt.
Definition with_runnable (r : runnable) (m : M World unit) : M World unit :=
  w ← get; if bool_decide (is_Some (runnables w !! r)) then m else mret tt.

(** Nothing but the caller refers to [c]: no child, and it is not current. *)
Definition sole_owner (w : World) (c : ctx) : bool :=
  bool_decide (map_Forall (λ _ x, m_pParent x ≠ Some c) (contexts w)) &&
  bool_decide (autoCurrentContext w ≠ Some c).

Section clients.
  Context (OnStart_result : runnable → bool).
  Context (callbacks : event → list context_op * option exn).

Definition run_context_op (handler : event → M World unit) (fuel : nat) (o : context_op) : M World unit :=
  match o with
  | op_create p s => with_context p (_ ← CreateInternal handler fuel p s; mret tt)
  | op_initiate c => with_context c (Initiate handler OnStart_result fuel c)
  | op_shutdown c g => with_context c (SignalShutdown handler fuel c g)
  | op_add_runnable c (Some r) => with_context c (with_runnable r (AddCoreRunnable handler OnStart_result c r))
  | op_add_runnable c None => with_context c (r ← new_runnable; AddCoreRunnable handler OnStart_result c r)
  | op_start r => with_runnable r (_ ← Start handler OnStart_result r; mret tt)
  | op_stop r g => with_runnable r (Stop handler r g)
  | op_set_current (Some c) => with_context c (_ ← SetCurrent (Some c); mret tt)
  | op_set_current None => _ ← SetCurrent None; mret tt
  | op_add_filter c f => with_context c (add_filter c f)
  | op_filter c e => with_context c (FilterException handler fuel c e)
  | op_add_bolt _ _ _ | op_release _ => mret tt
  end.

(** A callback makes its calls, then returns or throws. *)
Fixpoint run_callback (fuel : nat) (e : event) : M World unit :=
  match fuel with
  | 0 => stuck out_of_fuel
  | S fuel' =>
    for_each (run_context_op (run_callback fuel') fuel') (callbacks e).1;;
    match (callbacks e).2 with Some x => throw x | None => mret tt end
  end.

(** The owner may also add bolts, which invalidates iterators over the vectors of
    bolts, and drop the last pointer to a context. *)
Definition run_owner_op (fuel : nat) (o : context_op) : M World unit :=
  match o with
  | op_release c =>
    with_context c (w ← get; if sole_owner w c then CoreContext_dtor (run_callback fuel) c else mret tt)
  | op_add_bolt c b l => with_context c (AddBolt (run_callback fuel) fuel c b l)
  | _ => run_context_op (run_callback fuel) fuel o
  end.

Definition run_owner_ops (fuel : nat) (l : list context_op) : M World unit :=
  for_each (λ o, try_catch (run_owner_op fuel o) (λ _, mret tt)) l.
End clients.

(** ** Safety *)
Lemma with_context_ok K T R c m :
  (∀ K' T', T ⊆ T' → known_live K' c → safe (world_ok K' T' R) m) → safe (world_ok K T R) (with_context c m).
Proof.
  intros Hm. apply world_read. intros w T' Hw HK HT _. unfold holds.
  destruct (contexts w !! c) as [x|] eqn:Hc; [|apply safe_ret].
  destruct (m_expired x) eqn:Ex; [apply safe_ret|]. apply Hm; [done|]. by eapply all_links_live.
Qed.

Lemma with_runnable_ok K T R r m :
  (∀ K' T', K ⊆ K' → r ∈ T' → safe (world_ok K' T' R) m) → safe (world_ok K T R) (with_runnable r m).
Proof.
  intros Hm. apply world_read. intros w T' Hw HK HT Hr.
  case_bool_decide; [|apply safe_ret]. apply Hm; [done|by apply Hr].
Qed.

Section safety.
  Context (handler : event → M World unit) (OnStart_result : runnable → bool).
  Context (handler_ok : ∀ K T R e, safe (world_ok K T R) (handler e)).

Lemma retroactive_ok R b sigils fuel n : ∀ K T it,
  (∃ c, m_cur it = Some c ∧ known_live K c) → safe (world_ok K T R) (retroactive handler fuel n b sigils it).
Proof.
  induction n as [|n IH]; intros K T it (c & E & Hc) w Hw; simpl;
    (assert (reads w (iterator_inc fuel it) (λ it', known w (m_cur it'))) as Hr;
      [eapply iterator_inc_reads; [apply (wo_tree _ _ _ _ Hw)|exact E|];
       intros d [= <-]; destruct Hc as (p & s & a & bs & Hc); destruct (wo_K _ _ _ _ Hw c _ Hc) as (x & Hx & [= _ _ _ ? _]);
       by exists x|]);
    destruct Hr as [Hr|(it' & Hr & Hk)]; (unfold mbind at 1, M_bind at 1; rewrite Hr; try done).
  all: destruct (m_cur it') as [d|] eqn:Ed; [|exact Hw]; destruct (Hk d eq_refl) as (x & Hx & Hex);
    erewrite bind_Ret by (by apply context_run); destruct (Matches sigils (SigilType x)); [|exact Hw].
  all: destruct (world_ok_all _ _ _ _ Hw) as (Hw' & HKK & HTT).
  all: assert (known_live (all_links w) d) as Hd by (by eapply all_links_live).
  all: set (T' := elements (dom (runnables w))) in *.
  all: refine (triple_conseq _ _ _ _ _ _ _ (_ : safe (world_ok (all_links w) T' R) _) _ _ _ w Hw');
    [|done|intros ? ? H; by eapply world_ok_weaken|intros ? ? H; by eapply world_ok_weaken].
  all: apply safe_bind; [apply SetCurrent_ok; by intros ? [= <-]|intros _].
  all: apply safe_bind; [by apply emit_ok|intros _].
  { by apply safe_stuck. }
  apply IH. by exists d.
Qed.

(** A live context is known, and its bolts may change. *)
Definition live_world (c : ctx) (T : list runnable) (R : gmap runnable CoreRunnable) (w : World) : Prop :=
  world_ok ∅ T R w ∧ ∃ x, contexts w !! c = Some x ∧ m_expired x = false.

Lemma register_ok T R c f :
  (∀ x, links (set_nameListeners (f x) x) = links x) →
  safe (live_world c T R) (update c (λ x, set_nameListeners (f x) x)).
Proof.
  intros Hl w [Hw (x & Hx & He)]. rewrite (update_run _ _ x) by done. split.
  - apply (world_ok_update ∅ T R w c x); [done|done|done| |by left|by left].
    by apply (children_ok_same w c x); [apply (wo_tree _ _ _ _ Hw)|].
  - simpl. rewrite lookup_insert_eq. by eexists.
Qed.

Lemma AddBolt_ok fuel c b sigils : safe (live_world c [] ∅) (AddBolt handler fuel c b sigils) .
Proof.
  unfold AddBolt. apply safe_bind; [apply safe_for_each; intros k; by apply register_ok|intros _].
  apply safe_bind; [destruct sigils; [by apply register_ok|apply safe_ret]|intros _].
  intros w [Hw (x & Hx & He)]. erewrite bind_Ret; [|done].
  destruct (world_ok_all _ _ _ _ Hw) as (Hw' & HKK & _).
  assert (known_live (all_links w) c) as Hcw by (by eapply all_links_live).
  assert (world_ok (all_links w) [] ∅ w) as Hw0 by (eapply world_ok_weaken; [exact Hw'|done|apply list_subseteq_nil|done]).
  assert (∀ w', world_ok (all_links w) [] ∅ w' → live_world c [] ∅ w') as Hback.
  { intros w' H. split; [eapply world_ok_weaken; [exact H|apply map_empty_subseteq|done|done]|].
    destruct Hcw as (p & s & a & l & Hc). destruct (wo_K _ _ _ _ H c _ Hc) as (y & Hy & [= _ _ _ ? _]). by exists y. }
  refine (triple_conseq _ _ _ _ _ _ _ (_ : safe (world_ok (all_links w) [] ∅) _) _ _ _ w Hw0);
    [|done|intros ? ?; apply Hback|intros ? ?; apply Hback].
  assert (safe (world_ok (all_links w) [] ∅) (_ ← SetCurrent (CurrentContextOrNull w); mret tt)) as Hrestore.
  { apply safe_bind; [|intros; apply safe_ret]. apply SetCurrent_ok. intros d Hd.
    apply (wo_current _ _ _ _ Hw) in Hd as (y & ? & ?). by eapply all_links_live. }
  apply (triple_at_exit _ _ _ (λ _, world_ok (all_links w) [] ∅) (λ _, world_ok (all_links w) [] ∅)); [|done|done].
  simpl. intros w0. rewrite bind_assoc. revert w0. apply context_read; [by apply known_live_known|].
  intros w1 y T1 Hw1 Hy HK1 HT1 _ w2 Hw2. erewrite bind_Ret; [|done].
  revert w2 Hw2. apply retroactive_ok. exists c. split; [done|]. by eapply known_live_weaken.
Qed.

Lemma run_context_op_ok K T R fuel o : safe (world_ok K T R) (run_context_op OnStart_result handler fuel o).
Proof.
  destruct o as [p s|c|c g|c [r|]|r|r g|[c|]|c b l|c f|c e|c]; try apply safe_ret; simpl;
    try (apply with_context_ok; intros K' T' HT' Hc; pose proof (known_live_known _ _ Hc) as Hc').
  - apply safe_bind; [by apply CreateInternal_ok|intros; apply safe_ret].
  - by apply Initiate_ok.
  - by apply SignalShutdown_ok.
  - apply with_runnable_ok. intros K2 T2 HK2 Hr. apply AddCoreRunnable_ok; [done| |done].
    by eapply lookup_weaken_is_Some.
  - by apply add_new_runnable_ok.
  - apply with_runnable_ok. intros K2 T2 HK2 Hr. apply safe_bind; [by apply Start_ok|intros; apply safe_ret].
  - apply with_runnable_ok. intros K2 T2 HK2 Hr. by apply Stop_ok.
  - apply safe_bind; [|intros; apply safe_ret]. apply SetCurrent_ok. by intros ? [= <-].
  - apply safe_bind; [|intros; apply safe_ret]. by apply SetCurrent_ok.
  - by apply add_filter_ok.
  - by apply FilterException_ok.
Qed.
End safety.

Lemma run_callback_ok OnStart_result callbacks fuel : ∀ K T R e,
  safe (world_ok K T R) (run_callback OnStart_result callbacks fuel e).
Proof.
  induction fuel as [|fuel IH]; intros K T R e; simpl; [by apply safe_stuck|].
  apply safe_bind; [|intros _; destruct (callbacks e).2; [apply safe_throw|apply safe_ret]].
  apply safe_for_each. intros o. by apply run_context_op_ok.
Qed.

Lemma run_owner_op_ok OnStart_result callbacks fuel o :
  safe (world_ok ∅ [] ∅) (run_owner_op OnStart_result callbacks fuel o).
Proof.
  destruct o; cbn [run_owner_op]; try (apply run_context_op_ok, run_callback_ok).
  all: unfold with_context; intros w Hw; erewrite bind_Ret; [|done].
  all: unfold holds; destruct (contexts w !! c) as [x|] eqn:Hc; [|exact Hw].
  all: destruct (m_expired x) eqn:Ex; [exact Hw|]; simpl.
  { assert (live_world c [] ∅ w) as Hl by (split; [done|by exists x]).
    refine (triple_conseq _ _ _ _ _ _ _ (AddBolt_ok _ (run_callback_ok OnStart_result callbacks fuel) fuel c b sigils) _ _ _ w Hl);
      [done|by intros ? ? [? _]|by intros ? ? [? _]]. }
  erewrite bind_Ret; [|done].
  destruct (sole_owner w c) eqn:Hs; [|exact Hw].
  apply andb_true_iff in Hs as [Hs1%bool_decide_eq_true Hs2%bool_decide_eq_true].
  apply (CoreContext_dtor_ok _ OnStart_result (run_callback_ok OnStart_result callbacks fuel) w c x); done.
Qed.

Lemma run_owner_ops_ok OnStart_result callbacks fuel l :
  safe (world_ok ∅ [] ∅) (run_owner_ops OnStart_result callbacks fuel l).
Proof.
  apply safe_for_each. intros o. eapply triple_catch; [apply run_owner_op_ok|].
  intros e. apply safe_ret.
Qed.

Lemma world_ok_new : world_ok ∅ [] ∅ World_new.
Proof.
  assert (∀ c x, contexts World_new !! c = Some x → c = 0 ∧ x = CoreContext_new None 0 0 void_sigil) as H.
  { intros c x Hx. change (({[GlobalContext := CoreContext_new None 0 0 void_sigil]} : gmap ctx CoreContext) !! c = Some x) in Hx.
    apply lookup_singleton_Some in Hx as [<- <-]. done. }
  split; try done.
  - split; try (intros; simpl in *; done).
    + intros c x [-> ->]%H. simpl. lia.
    + intros c x p [-> ->]%H. done.
    + intros p px s d [-> ->]%H. by intros ?%elem_of_nil.
    + intros p px [-> ->]%H. split; [constructor|]. by intros ? ?%elem_of_nil.
    + intros c d x y [-> ->]%H [-> ->]%H. done.
  - intros c x r [-> ->]%H. by intros ?%elem_of_nil.
  - by intros r ?%elem_of_nil.
Qed.

