(* ===== verification/ContextTree.v ===== *)
(** * CoreContext: the lifecycle of the context tree

    The exact effect of creating, initiating and shutting down contexts, and the
    invariant that relates the state of every context to that of its parent and
    to the runnables it holds. *)
From stdpp Require Import base gmap list sets strings.
From Stdlib Require Import ZArith Lia.
From S2P Require Import Prelude CoreContext CoreContextFacts ContextLifecycle ContextEnumerator ContextClients.

(** ** Bolts hear of a new context *)
Definition listeners (w : World) (c : ctx) (k : sigil) : list bolt :=
  default [] (contexts w !! c ≫= λ x, m_nameListeners x !! k).

(** What [c] and its ancestors tell their listeners about a new context of sigil
    [s]: first those of the sigil, then those of all types, then the parent's. *)
Fixpoint notices (n : nat) (w : World) (c : ctx) (s : sigil) : list event :=
  match n with
  | 0 => []
  | S n' =>
    let tell k := (λ b, ev_ContextCreated b (CurrentContextOrNull w)) <$> listeners w c k in
    tell s ++ (if Nat.eqb s void_sigil then [] else tell void_sigil) ++
    match parent_of w c with Some p => notices n' w p s | None => [] end
  end.

Definition add_log (l : list event) (w : World) : World := set_log (log w ++ l) w.

Lemma add_log_app l1 l2 w : add_log l2 (add_log l1 w) = add_log (l1 ++ l2) w.
Proof. unfold add_log, set_log. simpl. by rewrite <-app_assoc. Qed.

Lemma add_log_nil w : add_log [] w = w.
Proof. unfold add_log, set_log. rewrite app_nil_r. by destruct w. Qed.

Lemma notices_log n w c s l : notices n (add_log l w) c s = notices n w c s.
Proof. revert c. induction n as [|n IH]; intros c; simpl; [done|]. unfold parent_of. simpl.
  destruct (contexts w !! c ≫= m_pParent) as [p|]; [by rewrite IH|done].
Qed.

Lemma tell_listeners_run w c x k rest :
  contexts w !! c = Some x →
  tell_listeners inert c k (listeners w c k) rest w =
    (Ret tt, add_log ((λ b, ev_ContextCreated b (CurrentContextOrNull w)) <$> rest) w).
Proof.
  intros Hc.
  assert (listeners w c k = default [] (m_nameListeners x !! k)) as Hl by (unfold listeners; by rewrite Hc).
  revert w Hc Hl. induction rest as [|b rest IH]; intros w Hc Hl; simpl; [by rewrite add_log_nil|].
  erewrite bind_Ret; [|done]. erewrite bind_Ret by apply emit_run.
  erewrite bind_Ret by (apply context_run; exact Hc). rewrite bool_decide_eq_true_2 by done.
  set (w1 := set_log _ w). change (listeners w c k) with (listeners w1 c k). rewrite IH by done.
  unfold w1, add_log, set_log. simpl. by rewrite <-app_assoc.
Qed.

Lemma tell_all_run w c k : is_Some (contexts w !! c) →
  tell_all inert c k w = (Ret tt, add_log ((λ b, ev_ContextCreated b (CurrentContextOrNull w)) <$> listeners w c k) w).
Proof.
  intros [x Hc]. unfold tell_all. erewrite bind_Ret by (by apply context_run).
  assert (default [] (m_nameListeners x !! k) = listeners w c k) as -> by (unfold listeners; by rewrite Hc).
  by apply (tell_listeners_run w c x).
Qed.

Lemma Broadcast_run fuel w c s :
  tree_ok w → is_Some (contexts w !! c) → c < fuel →
  BroadcastContextCreationNotice inert fuel c s w = (Ret tt, add_log (notices fuel w c s) w).
Proof.
  revert w c. induction fuel as [|fuel IH]; intros w c Ht [x Hc] Hf; [lia|].
  cbn [BroadcastContextCreationNotice notices].
  erewrite bind_Ret by (apply tell_all_run; by eexists).
  set (l1 := _ <$> listeners w c s).
  erewrite bind_Ret with (a := tt) (s' := add_log (if s =? void_sigil then [] else
    (λ b, ev_ContextCreated b (CurrentContextOrNull w)) <$> listeners w c void_sigil) (add_log l1 w)).
  2: { destruct (s =? void_sigil); [by rewrite add_log_nil|]. by rewrite tell_all_run by (by eexists). }
  rewrite add_log_app. set (l2 := l1 ++ _).
  erewrite bind_Ret by (by apply context_run). unfold parent_of. rewrite Hc. simpl.
  destruct (m_pParent x) as [p|] eqn:Ep.
  - destruct (to_parent _ Ht c x p Hc Ep) as (Hlt & _ & px & Hpx & _).
    rewrite IH; [|by destruct Ht; split|by eexists|lia].
    rewrite notices_log, add_log_app. unfold l2, l1. by rewrite <-!app_assoc.
  - unfold l2, l1. by rewrite app_nil_r.
Qed.

(** ** Creation *)
(** The world after a child [n] of [p] was created; [e] are the events reported. *)
Definition created (p : ctx) (px : CoreContext) (sg : sigil) (e : list event) (w : World) : World :=
  let n := next_ctx w in let s := next_slot w in
  let child := CoreContext_new (Some p) (S (AncestorCount px)) s sg in
  add_log e
    (set_next_ctx (S n) (set_next_slot (S s)
      (set_contexts
        (<[p := set_children (m_children px ++ [(s, Some n)]) px]>
          (<[n := if IsRunning px then set_state CanRun child else child]> (contexts w))) w))).

Lemma assign_node_last l s o : s ∉ l.*1 → assign_node s o (l ++ [(s, None)]) = l ++ [(s, o)].
Proof.
  intros Hs. unfold assign_node. rewrite fmap_app. simpl. rewrite Nat.eqb_refl. f_equal.
  induction l as [|[s' o'] l IH]; simpl; [done|]. simpl in Hs. apply not_elem_of_cons in Hs as [n Hs].
  destruct (Nat.eqb_spec s' s); [congruence|]. f_equal. by apply IH.
Qed.

Lemma SetCurrent_run o w : SetCurrent o w = (Ret (autoCurrentContext w), set_autoCurrentContext o w).
Proof. unfold SetCurrent. case_bool_decide as E; [|done]. rewrite <-E. by destruct w. Qed.

Lemma with_pushed_run {A} c (m : M World A) w a w' :
  m (set_autoCurrentContext (Some c) w) = (Ret a, w') →
  with_pushed c m w = (Ret a, set_autoCurrentContext (autoCurrentContext w) w').
Proof.
  intros H. unfold with_pushed. erewrite bind_Ret by apply SetCurrent_run. unfold at_exit. rewrite H.
  by erewrite bind_Ret by apply SetCurrent_run.
Qed.

Lemma CreateInternal_run fuel w p px sg :
  settled w → world_ok ∅ [] ∅ w → contexts w !! p = Some px → shut (m_state px) = false → p < fuel →
  ∃ w0, CreateInternal inert fuel p sg w =
    (Ret (next_ctx w), created p px sg (ev_newContext p (next_ctx w) :: notices fuel w0 p sg) w) ∧
    autoCurrentContext w0 = Some (next_ctx w) ∧ (∀ d, d ≠ next_ctx w → parent_of w0 d = parent_of w d ∧ ∀ k, listeners w0 d k = listeners w d k).
Proof.
  intros Hs Hw Hp Hsh Hf. pose proof (st_tree _ Hs) as Ht. set (n := next_ctx w). set (s := next_slot w).
  destruct (st_live _ Hs p px Hp) as [Hex _]. pose proof (next_ctx_free w Ht) as Hfree. fold n in Hfree.
  assert (p ≠ n) as Hpn by congruence.
  set (child := CoreContext_new (Some p) (S (AncestorCount px)) s sg).
  set (px1 := set_children (m_children px ++ [(s, None)]) px).
  set (child' := if IsRunning px then set_state CanRun child else child).
  unfold CreateInternal. erewrite bind_Ret by (by apply context_run).
  assert (IsShutdown px = false) as -> by (unfold IsShutdown; by destruct (m_state px)).
  erewrite bind_Ret; [|done]. fold s. erewrite bind_Ret; [|done].
  erewrite bind_Ret by (by apply update_run). fold px1.
  unfold shared_from_this. rewrite bind_assoc.
  erewrite bind_Ret by (apply context_run; simpl; by rewrite lookup_insert_eq). simpl. rewrite Hex.
  erewrite bind_Ret; [|done]. unfold alloc_child. rewrite bind_assoc.
  erewrite bind_Ret by (apply context_run; simpl; by rewrite lookup_insert_eq).
  rewrite bind_assoc. erewrite bind_Ret; [|done]. rewrite bind_assoc. erewrite bind_Ret; [|done].
  erewrite bind_Ret; [|done]. erewrite bind_Ret by apply emit_run. simpl. fold n.
  set (w1 := set_log _ _).
  assert (contexts w1 = <[n := child]> (<[p := px1]> (contexts w))) as Ec1 by done.
  assert (tree_ok w1) as Ht1.
  { pose proof (wo_tree _ _ _ _ (reserved_ok _ _ _ _ _ _ Hw Hp)) as Htr.
    destruct (reserved_free w p px Ht Hp) as [Hpr Hfr].
    assert (tree_ok (born p px1 s sg (reserved p px w))) as H by (by apply born_tree).
    by destruct H; split. }
  set (w2 := set_autoCurrentContext (Some n) w1).
  set (w3 := set_contexts (<[n := child']> (contexts w2)) w2).
  assert (contexts w3 !! p = Some px1) as Hp3.
  { simpl. by rewrite !lookup_insert_ne, lookup_insert_eq by done. }
  assert (tree_ok w3) as Ht3.
  { assert (tree_ok w2) as Ht2 by (by destruct Ht1; split).
    apply (tree_ok_update w2 n child child'); [done|simpl; by rewrite lookup_insert_eq| |].
    - unfold child'. by destruct (IsRunning px).
    - replace (m_children child') with (m_children child) by (unfold child'; by destruct (IsRunning px)).
      apply children_ok_same; [done|]. simpl. by rewrite lookup_insert_eq. }
  assert (∀ d, d ≠ n → parent_of w3 d = parent_of w d ∧ ∀ k, listeners w3 d k = listeners w d k) as Hother.
  { intros d Hd. unfold parent_of, listeners. simpl. rewrite !lookup_insert_ne by done.
    destruct (decide (d = p)) as [->|]; [by rewrite lookup_insert_eq, Hp|by rewrite lookup_insert_ne]. }
  exists w3. split; [|done].
  assert (BroadcastContextCreationNotice inert fuel p sg w3 = (Ret tt, add_log (notices fuel w3 p sg) w3)) as Eb
    by (apply Broadcast_run; [done|by eexists|done]).
  erewrite with_pushed_run.
  2: { fold w2. erewrite bind_Ret by (apply context_run; simpl; by rewrite lookup_insert_ne, lookup_insert_eq).
       erewrite bind_Ret with (a := tt) (s' := w3).
       2: { match goal with |- context [if IsRunning ?y then _ else _] => change (IsRunning y) with (IsRunning px) end.
            unfold w3, child'. destruct (IsRunning px).
            - by erewrite update_run by (simpl; by rewrite lookup_insert_eq).
            - munfold. f_equal. unfold set_contexts. simpl. rewrite insert_insert_eq. done. }
       erewrite bind_Ret by exact Eb. erewrite bind_Ret by (by apply update_run).
       erewrite bind_Ret by (apply context_run; simpl; by rewrite lookup_insert_eq).
       assert (IsShutdown px = false) as Hsd by (unfold IsShutdown; by destruct (m_state px)).
       unfold IsShutdown in *. simpl. destruct (m_state px); try done. all: by erewrite bind_Ret. }
  f_equal. unfold created, add_log, set_log, set_contexts, set_next_ctx, set_next_slot, set_autoCurrentContext. simpl.
  fold n s child child'. f_equal.
  - rewrite insert_insert_eq, (insert_insert_ne _ n p) by done. rewrite insert_insert_eq.
    rewrite assign_node_last; [done|]. intros Hin. apply (to_nodup _ Ht p px Hp) in Hin. unfold s in Hin. lia.
  - by rewrite <-app_assoc.
Qed.

(** ** The lifecycle invariant *)
(** The states a child may have, given that of its parent. *)
Definition edge_ok (parent child : State) : bool :=
  match parent with
  | Running => match child with NotStarted | Initiated => false | _ => true end
  | Shutdown | Abandoned => shut child
  | _ => match child with CanRun | Running => false | _ => true end
  end.

(** What a runnable of a context may be, given the state of the context. *)
Definition thread_ok (s : State) (y : CoreRunnable) : bool :=
  match s with
  | Running => m_wasStarted y || m_shouldStop y
  | Shutdown | Abandoned => m_shouldStop y && negb (m_outstanding y)
  | _ => true
  end.

Record life_ok (w : World) : Prop := {
  lf_settled : settled w;
  lf_world : world_ok ∅ [] ∅ w;
  lf_edge : ∀ p c s s', parent_of w c = Some p → state_of w p = Some s → state_of w c = Some s' → edge_ok s s' = true;
  lf_runs : ∀ r y, runnables w !! r = Some y → m_outstanding y = true → m_wasStarted y = true;
  lf_threads : ∀ c x r y, contexts w !! c = Some x → r ∈ m_threads x → runnables w !! r = Some y →
    thread_ok (m_state x) y = true }.

Lemma life_shut_closed w c : life_ok w → shut_closed w c.
Proof.
  intros Hl p e s s' _ Hp Hs Hs' Hsh. pose proof (lf_edge _ Hl p e s s' Hp Hs Hs') as H.
  by destruct s.
Qed.

Lemma state_of_context w c s : state_of w c = Some s ↔ ∃ x, contexts w !! c = Some x ∧ m_state x = s.
Proof. unfold state_of. destruct (contexts w !! c); naive_solver. Qed.

(** An effect that respects edges and threads keeps the invariant. *)
Lemma life_effect f g w w' :
  effect f g w w' → keeps_lock g → world_ok ∅ [] ∅ w' → life_ok w →
  (∀ p c s s', parent_of w c = Some p → state_of w p = Some s → state_of w c = Some s' →
     edge_ok s s' = true → edge_ok (f p s) (f c s') = true) →
  (∀ r y, (m_outstanding y = true → m_wasStarted y = true) → m_outstanding (g r y) = true → m_wasStarted (g r y) = true) →
  (∀ c x r y, contexts w !! c = Some x → r ∈ m_threads x → runnables w !! r = Some y →
     (m_outstanding y = true → m_wasStarted y = true) → thread_ok (m_state x) y = true →
     thread_ok (f c (m_state x)) (g r y) = true) →
  life_ok w'.
Proof.
  intros He Hk Hw' [Hs Hw Hed Hr Hth] Hf Hg Hfg. split; [by eapply (effect_settled He)|done| | |].
  - intros p c s s' Hp Hsp Hsc. rewrite (effect_parent He) in Hp. rewrite (effect_state He) in Hsp, Hsc.
    destruct (state_of w p) as [s0|] eqn:E0; [|done]. destruct (state_of w c) as [s1|] eqn:E1; [|done].
    simpl in *. simplify_eq. apply Hf; try done. by eapply Hed.
  - intros r y. rewrite (ef_runnables _ _ _ _ He). destruct (runnables w !! r) as [y0|] eqn:E; [|done].
    intros [= <-]. apply Hg. by eapply Hr.
  - intros c x' r y (x & Hx & ->)%(effect_back He) Hin. rewrite (ef_runnables _ _ _ _ He).
    destruct (runnables w !! r) as [y0|] eqn:E; [|done]. intros [= <-]. simpl in *.
    apply Hfg; [done|done|done|by eapply Hr|by eapply Hth].
Qed.

Lemma inert_ok K T R e : safe (world_ok K T R) (inert e).
Proof. apply safe_ret. Qed.

(** A run of an operation that keeps the world keeps it. *)
Lemma safe_run {A} I (m : M World A) w a w' : safe I m → I w → m w = (Ret a, w') → I w'.
Proof. intros H Hw E. specialize (H w Hw). by rewrite E in H. Qed.

Lemma known_all w c x : world_ok ∅ [] ∅ w → contexts w !! c = Some x →
  world_ok {[c := fixes x]} [] ∅ w.
Proof.
  intros Hw Hc. eapply world_ok_weaken; [apply (world_ok_all _ _ _ _ Hw)| |apply list_subseteq_nil|done].
  apply map_singleton_subseteq_l. by apply all_links_lookup.
Qed.

(** An operation on the existing context [c] keeps [world_ok]. *)
Lemma op_world {A} w c (m : M World A) a w' : life_ok w → is_Some (contexts w !! c) →
  (∀ K, is_Some (K !! c) → safe (world_ok K [] ∅) m) → m w = (Ret a, w') → world_ok ∅ [] ∅ w'.
Proof.
  intros Hl [x Hc] Hm E. pose proof (known_all w c x (lf_world _ Hl) Hc) as H.
  eapply world_ok_weaken; [eapply safe_run; [apply (Hm {[c := fixes x]})|exact H|exact E]|apply map_empty_subseteq|done|done].
  rewrite lookup_singleton_eq. by eexists.
Qed.

Lemma started_runs O r y : (m_outstanding y = true → m_wasStarted y = true) →
  m_outstanding (started O r y) = true → m_wasStarted (started O r y) = true.
Proof. intros H. unfold started. destruct (m_wasStarted y || m_outstanding y || m_shouldStop y); [done|]. by destruct (O r). Qed.

Lemma thread_ok_started O s r y : (m_outstanding y = true → m_wasStarted y = true) →
  thread_ok s y = true → thread_ok s (started O r y) = true.
Proof.
  intros Ho. unfold started. destruct (m_wasStarted y || m_outstanding y || m_shouldStop y) eqn:E; [done|].
  apply orb_false_iff in E as [[Ew Eo]%orb_false_iff Es]. unfold thread_ok. rewrite Ew, Eo, Es. by destruct s.
Qed.

Lemma thread_ok_running O r y : (m_outstanding y = true → m_wasStarted y = true) →
  thread_ok Running (started O r y) = true.
Proof.
  intros Ho. unfold started. destruct (m_wasStarted y || m_outstanding y || m_shouldStop y) eqn:E.
  - simpl. destruct (m_outstanding y); [by rewrite Ho|]. by rewrite orb_false_r in E.
  - by destruct (O r).
Qed.

Lemma thread_ok_stopped s y : thread_ok s (stopped y) = true.
Proof. destruct s; simpl; try done. apply orb_true_r. Qed.

Lemma life_shutdown g fuel w c : life_ok w → is_Some (contexts w !! c) → next_ctx w ≤ fuel + c →
  ∃ w', SignalShutdown inert fuel c g w = (Ret tt, w') ∧ shutdown_effect w c w' ∧ life_ok w'.
Proof.
  intros Hl Hc Hf. pose proof (settled_older _ (lf_settled _ Hl)) as Ho.
  destruct (SignalShutdown_run g fuel w c (lf_settled _ Hl) (life_shut_closed _ _ Hl) Hc Hf) as (w' & E & He).
  exists w'. split; [done|]. split; [done|].
  eapply (life_effect _ _ _ _ He); [apply keeps_lock_stopped| |done| | |].
  - eapply op_world; [done|exact Hc| |exact E]. intros K HK. apply SignalShutdown_ok; [apply inert_ok|done].
  - intros p d s s' Hp _ _ H. unfold shut_states.
    assert (below w c d = Nat.eqb d c || below w c p) as -> by (by rewrite (below_unfold w c d), Hp by done).
    destruct (below w c p); [rewrite orb_true_r; by destruct s, s'|].
    rewrite orb_false_r. destruct (Nat.eqb d c); [|done]. by destruct s, s'.
  - intros r y Hy. unfold on. by destruct (stops_with w c r).
  - intros d x r y Hd Hin Hy _ Ht. unfold on. destruct (stops_with w c r) eqn:Er; [apply thread_ok_stopped|].
    unfold shut_states. destruct (below w c d) eqn:Eb; [|done].
    destruct (shut (m_state x)) eqn:Es; [by rewrite shut_of_shut|].
    exfalso. assert (stops_with w c r = true); [|congruence]. apply stops_with_true. exists d, x.
    split_and!; try done. apply existsb_exists. exists r. split; [by apply list_elem_of_In|apply Nat.eqb_refl].
Qed.

Lemma life_initiate_now O fuel w c x : life_ok w → contexts w !! c = Some x → may_run x = true → next_ctx w ≤ fuel + c →
  ∃ w', Initiate inert O fuel c w = (Ret tt, w') ∧ initiated_effect O w c x w' ∧ life_ok w'.
Proof.
  intros Hl Hc Hm Hf. pose proof (settled_older _ (lf_settled _ Hl)) as Ho.
  destruct (Initiate_run_now O fuel w c x (lf_settled _ Hl) Hc Hm Hf) as (w' & E & He).
  exists w'. split; [done|]. split; [done|].
  eapply (life_effect _ _ _ _ He); [intros r y; by apply keeps_lock_started| |done| | |].
  - eapply op_world; [done|by exists x| |exact E]. intros K HK. apply Initiate_ok; [apply inert_ok|done].
  - intros p d s s' Hp Hs Hs' H.
    assert (reach w c d = Nat.eqb p c || (initiated w p && reach w c p)) as -> by (by rewrite reach_unfold, Hp by done).
    destruct (Nat.eqb_spec p c) as [->|n].
    + apply Ho in Hp. destruct (Nat.eqb_spec d c); [lia|]. simpl. by destruct s'.
    + simpl. destruct (Nat.eqb_spec d c) as [->|n'].
      * destruct (reach w c p) eqn:Er; [apply reach_lt in Er as [? _]; [|done]; apply Ho in Hp; lia|].
        assert (s' = CanRun) as ->.
        { apply state_of_context in Hs' as (x' & Hx' & <-). simplify_eq. unfold may_run, IsGlobalContext in Hm.
          unfold parent_of in Hp. rewrite Hc in Hp. simpl in Hp. rewrite Hp in Hm. by destruct (m_state x). }
        by destruct s.
      * unfold initiated. rewrite Hs. destruct (reach w c p); [|by rewrite andb_false_r].
        rewrite andb_true_r. case_bool_decide as Hi; [injection Hi as ->; by destruct s'|].
        destruct s; try done.
  - intros r y Hy. unfold on. destruct (_ || _); [by apply started_runs|done].
  - intros d z r y Hd Hin Hy Hoy Ht. unfold on.
    assert (in_list (m_threads z) r = true) as Hin' by (apply existsb_exists; exists r; split; [by apply list_elem_of_In|apply Nat.eqb_refl]).
    destruct (Nat.eqb_spec d c) as [->|n].
    + simplify_eq. rewrite Hin'. simpl. by apply thread_ok_running.
    + destruct (reach w c d) eqn:Er.
      * destruct (decide (m_state z = Initiated)) as [Ei|Ei].
        { assert (starting w (reach w c) r = true) as -> by (apply starting_true; by exists d, z).
          rewrite orb_true_r, Ei. simpl. by apply thread_ok_running. }
        assert (thread_ok (promote (m_state z)) y = true) as Hp by (destruct (m_state z); done).
        destruct (_ || _); [by apply thread_ok_started|done].
      * destruct (_ || _); [by apply thread_ok_started|done].
Qed.

(** Changes that are not effects: the world is described context by context. *)
Lemma life_intro w w' :
  life_ok w → world_ok ∅ [] ∅ w' →
  (∀ c x', contexts w' !! c = Some x' → m_expired x' = false ∧ m_beforeRunning x' = false) →
  (∀ c x p px, contexts w' !! c = Some x → m_pParent x = Some p → contexts w' !! p = Some px →
     (m_backReference x, Some c) ∈ m_children px ∧ edge_ok (m_state px) (m_state x) = true) →
  (∀ r y, runnables w' !! r = Some y → m_locked y = false ∧ (m_outstanding y = true → m_wasStarted y = true)) →
  (∀ c x r y, contexts w' !! c = Some x → r ∈ m_threads x → runnables w' !! r = Some y → thread_ok (m_state x) y = true) →
  life_ok w'.
Proof.
  intros Hl Hw H1 H2 H3 H4. split; [split|done|..].
  - apply (wo_tree _ _ _ _ Hw).
  - exact H1.
  - intros c x p px Hx Hp Hpx. by destruct (H2 c x p px Hx Hp Hpx).
  - intros c x r Hx Hr. by apply (wo_threads _ _ _ _ Hw c x r).
  - intros r y Hr. by destruct (H3 r y Hr).
  - intros p c s s' Hp (px & Hpx & <-)%state_of_context (x & Hx & <-)%state_of_context.
    unfold parent_of in Hp. rewrite Hx in Hp. simpl in Hp. by destruct (H2 c x p px Hx Hp Hpx).
  - intros r y Hr. by destruct (H3 r y Hr).
  - done.
Qed.

(** What [life_ok] says of one context. *)
Lemma life_context w c x : life_ok w → contexts w !! c = Some x →
  m_expired x = false ∧ m_beforeRunning x = false.
Proof. intros Hl. apply (st_live _ (lf_settled _ Hl)). Qed.

Lemma life_link w c x p px : life_ok w → contexts w !! c = Some x → m_pParent x = Some p → contexts w !! p = Some px →
  (m_backReference x, Some c) ∈ m_children px ∧ edge_ok (m_state px) (m_state x) = true.
Proof.
  intros Hl Hc Hp Hpx. split; [by apply (st_listed _ (lf_settled _ Hl) c x p)|].
  apply (lf_edge _ Hl p c); [unfold parent_of; by rewrite Hc|apply state_of_context; by exists px|apply state_of_context; by exists x].
Qed.

Lemma life_runnable w r y : life_ok w → runnables w !! r = Some y →
  m_locked y = false ∧ (m_outstanding y = true → m_wasStarted y = true).
Proof. intros Hl Hr. split; [by apply (st_unlocked _ (lf_settled _ Hl) r)|by apply (lf_runs _ Hl r)]. Qed.

Lemma fresh_runnable w : life_ok w → runnables w !! next_runnable w = None.
Proof.
  intros Hl. destruct (runnables w !! next_runnable w) as [y|] eqn:E; [|done].
  apply (ro_count _ (wo_runs _ _ _ _ (lf_world _ Hl))) in E. lia.
Qed.

Lemma life_threads_fresh w c x : life_ok w → contexts w !! c = Some x → next_runnable w ∉ m_threads x.
Proof.
  intros Hl Hc Hin. destruct (st_threads _ (lf_settled _ Hl) c x _ Hc Hin) as [y Hy].
  by rewrite fresh_runnable in Hy.
Qed.

Lemma life_wait O fuel w c x : life_ok w → contexts w !! c = Some x → m_state x = NotStarted → IsGlobalContext x = false →
  Initiate inert O fuel c w = (Ret tt, waiting w c x) ∧ life_ok (waiting w c x).
Proof.
  intros Hl Hc Hn Hg. pose proof (Initiate_run_wait O fuel w c x (lf_settled _ Hl) Hc Hn Hg) as E.
  split; [done|]. destruct (life_context w c x Hl Hc) as [He Hb].
  pose proof (fresh_runnable w Hl) as Hfr.
  apply (life_intro w).
  - done.
  - eapply op_world; [done|by exists x| |exact E]. intros K HK. apply Initiate_ok; [apply inert_ok|done].
  - simpl. intros d y [[<- <-]|[_ Hd]]%lookup_insert_Some; [done|by eapply life_context].
  - simpl. intros d y p px [[<- <-]|[Hdc Hd]]%lookup_insert_Some Hp [[<- <-]|[Hpc Hpx]]%lookup_insert_Some; simpl in *.
    + destruct (to_parent _ (st_tree _ (lf_settled _ Hl)) c x c Hc Hp). lia.
    + destruct (life_link w c x p px Hl Hc Hp Hpx) as [? H]. split; [done|]. rewrite Hn in H. by destruct (m_state px).
    + destruct (life_link w d y c x Hl Hd Hp Hc) as [? H]. split; [done|]. by rewrite Hn in H.
    + by apply (life_link w d y p px).
  - simpl. intros r y [[<- <-]|[_ Hr]]%lookup_insert_Some; [done|by eapply life_runnable].
  - simpl. intros d y r z [[<- <-]|[Hdc Hd]]%lookup_insert_Some Hin [[<- <-]|[Hpc Hr]]%lookup_insert_Some; simpl in *; try done.
    + by destruct (life_threads_fresh w d y Hl Hd).
    + by eapply (lf_threads _ Hl).
Qed.

Lemma life_create fuel w p px sg : life_ok w → contexts w !! p = Some px → shut (m_state px) = false → p < fuel →
  ∃ e, CreateInternal inert fuel p sg w = (Ret (next_ctx w), created p px sg e w) ∧ life_ok (created p px sg e w).
Proof.
  intros Hl Hp Hsh Hf.
  destruct (CreateInternal_run fuel w p px sg (lf_settled _ Hl) (lf_world _ Hl) Hp Hsh Hf) as (w0 & E & _ & _).
  set (e := _ :: _) in E. exists e. split; [done|].
  pose proof (next_ctx_free w (wo_tree _ _ _ _ (lf_world _ Hl))) as Hn.
  assert (next_ctx w ≠ p) as Hnp by congruence.
  assert (∀ d y, contexts (created p px sg e w) !! d = Some y →
    (d = p ∧ y = set_children (m_children px ++ [(next_slot w, Some (next_ctx w))]) px) ∨
    (d = next_ctx w ∧ m_pParent y = Some p ∧ m_backReference y = next_slot w ∧ m_threads y = [] ∧ m_children y = [] ∧
       m_expired y = false ∧ m_beforeRunning y = false ∧
       m_state y = if IsRunning px then CanRun else NotStarted) ∨
    (d ≠ p ∧ d ≠ next_ctx w ∧ contexts w !! d = Some y)) as Hback.
  { intros d y. simpl. intros [[<- <-]|[? [[<- <-]|[? ?]]%lookup_insert_Some]]%lookup_insert_Some; [by left|right; left|right; right; auto].
    split; [done|]. by destruct (IsRunning px). }
  apply (life_intro w).
  - done.
  - eapply op_world; [done|by exists px| |exact E]. intros K HK. apply CreateInternal_ok; [apply inert_ok|done].
  - intros d y [[-> ->]|[(_ & _ & _ & _ & _ & ? & ? & _)|(_ & _ & Hd)]]%Hback; [exact (life_context w p px Hl Hp)|done|exact (life_context w d y Hl Hd)].
  - intros d y q qx [[-> ->]|[(-> & Hy1 & Hy2 & _ & _ & _ & _ & Hy3)|(Hdp & Hdn & Hd)]]%Hback Hq Hqx.
    + simpl in Hq. assert (q < p) by (by destruct (to_parent _ (st_tree _ (lf_settled _ Hl)) p px q Hp Hq)).
      apply Hback in Hqx as [[-> ->]|[(-> & _)|(_ & _ & Hqx)]]; [lia| |exact (life_link w p px q qx Hl Hp Hq Hqx)].
      apply (to_next _ (st_tree _ (lf_settled _ Hl))) in Hp. lia.
    + rewrite Hy1 in Hq. injection Hq as <-. rewrite Hy2, Hy3.
      apply Hback in Hqx as [[_ ->]|[(? & _)|(? & _)]]; [|congruence|congruence]. simpl. split; [set_solver|].
      unfold IsRunning. by destruct (m_state px).
    + apply Hback in Hqx as [[-> ->]|[(-> & _)|(_ & _ & Hqx)]].
      * destruct (life_link w d y p px Hl Hd Hq Hp) as [? ?]. simpl. split; [set_solver|done].
      * destruct (to_parent _ (st_tree _ (lf_settled _ Hl)) d y _ Hd Hq) as [? _].
        apply (to_next _ (st_tree _ (lf_settled _ Hl))) in Hd. lia.
      * exact (life_link w d y q qx Hl Hd Hq Hqx).
  - intros r y Hr. by eapply life_runnable.
  - intros d y r z [[-> ->]|[(_ & _ & _ & Ht & _)|(_ & _ & Hd)]]%Hback Hin Hr.
    + exact (lf_threads _ Hl p px r z Hp Hin Hr).
    + rewrite Ht in Hin. by apply elem_of_nil in Hin.
    + exact (lf_threads _ Hl d y r z Hd Hin Hr).
Qed.

(** A runnable is created and added to [c]: it starts if [c] runs and stops if
    [c] is shut down. *)
Definition new_record (O : runnable → bool) (w : World) (s : State) : CoreRunnable :=
  match s with
  | Running => started O (next_runnable w) CoreRunnable_new
  | Shutdown | Abandoned => stopped CoreRunnable_new
  | _ => CoreRunnable_new
  end.

Definition with_new_runnable (O : runnable → bool) (w : World) (c : ctx) (x : CoreContext) (l : list event) : World :=
  add_log l (set_next_runnable (S (next_runnable w))
    (set_runnables (<[next_runnable w := new_record O w (m_state x)]> (runnables w))
      (set_contexts (<[c := set_threads (next_runnable w :: m_threads x) x]> (contexts w)) w))).

Lemma stored_same w r y : runnables w !! r = Some y → stored w r y [] = w.
Proof.
  intros H. unfold stored, set_log, set_runnables. simpl. rewrite insert_id, app_nil_r by done. by destruct w.
Qed.

Lemma add_runnable_run O w c x : life_ok w → contexts w !! c = Some x →
  ∃ l, (r ← new_runnable; AddCoreRunnable inert O c r) w = (Ret tt, with_new_runnable O w c x l).
Proof.
  intros Hl Hc. destruct (life_context w c x Hl Hc) as [He Hb]. set (r := next_runnable w).
  set (x1 := set_threads (r :: m_threads x) x).
  erewrite bind_Ret; [|done]. unfold AddCoreRunnable.
  erewrite bind_Ret by (by apply update_run). fold r x1.
  erewrite bind_Ret by (apply context_run; simpl; by rewrite lookup_insert_eq).
  erewrite bind_Ret by (apply update_run; simpl; by rewrite lookup_insert_eq).
  set (w1 := set_contexts _ (set_contexts _ _)).
  assert (runnables w1 !! r = Some CoreRunnable_new) as Hr1 by (simpl; by rewrite lookup_insert_eq).
  assert (contexts w1 !! c = Some (set_beforeRunning true x1)) as Hc1 by (simpl; by rewrite lookup_insert_eq).
  assert (∃ l1, (if IsRunning x1 then shared_from_this c;; _ ← Start inert O r; mret tt else mret tt) w1 =
    (Ret tt, stored w1 r (if IsRunning x1 then started O r CoreRunnable_new else CoreRunnable_new) l1)) as [l1 E1].
  { destruct (IsRunning x1).
    - destruct (Start_run O w1 r CoreRunnable_new Hr1 eq_refl) as [l1 E1]. exists l1.
      erewrite bind_Ret with (a := tt) (s' := w1); [by erewrite bind_Ret|].
      unfold shared_from_this. erewrite bind_Ret by (by apply context_run). simpl. by rewrite He.
    - exists []. by rewrite stored_same. }
  erewrite bind_Ret by exact E1. set (y1 := if IsRunning x1 then _ else _).
  erewrite bind_Ret by (by apply update_run).
  erewrite bind_Ret by (apply context_run; simpl; by rewrite lookup_insert_eq).
  set (w2 := set_contexts _ _).
  assert (runnables w2 !! r = Some y1) as Hr2 by (simpl; by rewrite lookup_insert_eq).
  assert (m_locked y1 = false) as Hl1.
  { unfold y1. destruct (IsRunning x1); [|done]. unfold started. simpl. by destruct (O r). }
  assert (∀ y l, y = new_record O w (m_state x) → stored w2 r y l = with_new_runnable O w c x (l1 ++ l)) as Hw2.
  { intros y l ->. unfold with_new_runnable, add_log, stored, set_log, set_runnables, set_contexts, set_next_runnable. simpl.
    rewrite !insert_insert_eq, <-app_assoc. fold r x1. do 2 f_equal. unfold x1, set_beforeRunning, set_threads. simpl. by rewrite Hb. }
  change (IsShutdown (set_beforeRunning false (set_beforeRunning true x1))) with (IsShutdown x).
  change (IsRunning x1) with (IsRunning x) in *. unfold IsShutdown, IsRunning in *.
  destruct (m_state x) eqn:Es; simpl in y1.
  5, 6: destruct (Stop_run w2 r y1 false Hr2 Hl1) as [l2 E2]; exists (l1 ++ l2); rewrite E2; f_equal; by apply Hw2.
  all: exists (l1 ++ []); rewrite <-(Hw2 y1 []) by done; by rewrite stored_same.
Qed.

Lemma life_add_runnable O w c x : life_ok w → contexts w !! c = Some x →
  ∃ l, (r ← new_runnable; AddCoreRunnable inert O c r) w = (Ret tt, with_new_runnable O w c x l) ∧
       life_ok (with_new_runnable O w c x l).
Proof.
  intros Hl Hc. destruct (add_runnable_run O w c x Hl Hc) as [l E]. exists l. split; [done|].
  pose proof (fresh_runnable w Hl) as Hfr. apply (life_intro w).
  - done.
  - eapply op_world; [done|by exists x| |exact E]. intros K HK.
    apply add_new_runnable_ok; [apply inert_ok|done].
  - simpl. intros d y [[<- <-]|[_ Hd]]%lookup_insert_Some; [exact (life_context w c x Hl Hc)|by eapply life_context].
  - simpl. intros d y p px [[<- <-]|[Hdc Hd]]%lookup_insert_Some Hp [[<- <-]|[Hpc Hpx]]%lookup_insert_Some; simpl in *.
    + destruct (to_parent _ (st_tree _ (lf_settled _ Hl)) c x c Hc Hp). lia.
    + exact (life_link w c x p px Hl Hc Hp Hpx).
    + exact (life_link w d y c x Hl Hd Hp Hc).
    + exact (life_link w d y p px Hl Hd Hp Hpx).
  - simpl. intros r y [[<- <-]|[_ Hr]]%lookup_insert_Some; [|by eapply life_runnable].
    unfold new_record, started, stopped. destruct (m_state x); simpl; try done. by destruct (O _).
  - simpl. intros d y r z [[<- <-]|[Hdc Hd]]%lookup_insert_Some Hin [[<- <-]|[Hpc Hr]]%lookup_insert_Some; simpl in *.
    + unfold new_record, started, stopped. destruct (m_state x); simpl; try done. by destruct (O _).
    + apply elem_of_cons in Hin as [->|Hin]; [done|]. exact (lf_threads _ Hl c x r z Hc Hin Hr).
    + by destruct (life_threads_fresh w d y Hl Hd).
    + exact (lf_threads _ Hl d y r z Hd Hin Hr).
Qed.

(** One runnable is started or stopped by hand. *)
Lemma life_one w r y h l : life_ok w → runnables w !! r = Some y → (∀ P, keeps_lock (on P h)) →
  (∀ r y, (m_outstanding y = true → m_wasStarted y = true) → m_outstanding (h r y) = true → m_wasStarted (h r y) = true) →
  (∀ s r y, (m_outstanding y = true → m_wasStarted y = true) → thread_ok s y = true → thread_ok s (h r y) = true) →
  world_ok ∅ [] ∅ (stored w r (h r y) l) → life_ok (stored w r (h r y) l).
Proof.
  intros Hl Hr Hk Hh Ht Hw.
  apply (life_effect _ _ _ _ (effect_one w r y (h r y) h l Hr eq_refl)); try done.
  - intros r' z Hz. unfold on. destruct (r =? r'); [by apply Hh|done].
  - intros c x r' z Hc Hin Hz Hoz Hok. unfold on. destruct (r =? r'); [by apply Ht|done].
Qed.

Lemma runnable_op_world {A} w r (m : M World A) a w' : life_ok w → is_Some (runnables w !! r) →
  safe (world_ok ∅ [r] ∅) m → m w = (Ret a, w') → world_ok ∅ [] ∅ w'.
Proof.
  intros Hl Hr Hm E.
  assert (world_ok ∅ [r] ∅ w) as H.
  { destruct (lf_world _ Hl). split; try done. by intros r' ->%list_elem_of_singleton. }
  eapply world_ok_weaken; [exact (safe_run _ _ _ _ _ Hm H E)|done|apply list_subseteq_nil|done].
Qed.

Lemma life_start O w r y : life_ok w → runnables w !! r = Some y →
  ∃ l, Start inert O r w = (Ret true, stored w r (started O r y) l) ∧ life_ok (stored w r (started O r y) l).
Proof.
  intros Hl Hr. destruct (life_runnable w r y Hl Hr) as [Hlk _].
  destruct (Start_run O w r y Hr Hlk) as [l E]. exists l. split; [done|].
  apply (life_one w r y (started O)); try done.
  - apply keeps_lock_started.
  - intros; by apply started_runs.
  - intros; by apply thread_ok_started.
  - eapply runnable_op_world; [done|by exists y| |exact E]. apply Start_ok; [apply inert_ok|by left].
Qed.

Lemma life_stop w r y g : life_ok w → runnables w !! r = Some y →
  ∃ l, Stop inert r g w = (Ret tt, stored w r (stopped y) l) ∧ life_ok (stored w r (stopped y) l).
Proof.
  intros Hl Hr. destruct (life_runnable w r y Hl Hr) as [Hlk _].
  destruct (Stop_run w r y g Hr Hlk) as [l E]. exists l. split; [done|].
  apply (life_one w r y (λ _, stopped)); try done.
  - apply keeps_lock_stopped.
  - intros; by apply thread_ok_stopped.
  - eapply runnable_op_world; [done|by exists y| |exact E]. apply Stop_ok; [apply inert_ok|by left].
Qed.

Lemma life_set_current w o : life_ok w → (∀ c, o = Some c → is_Some (contexts w !! c)) →
  life_ok (set_autoCurrentContext o w).
Proof.
  intros Hl Ho. apply (life_intro w); try done.
  - destruct (lf_world _ Hl) as [Ht Hr Hth HK HT HR Hcur]. split; try done; [by destruct Ht; split|by destruct Hr; split|].
    simpl. intros c Hc. destruct (Ho c Hc) as [x Hx]. exists x. split; [done|]. by apply (life_context w c).
  - intros c x Hc. by apply (life_context w c).
  - intros c x p px Hc Hp Hpx. by apply (life_link w c x p px).
  - intros r y Hr. by apply (life_runnable w r).
  - intros c x r y Hc Hin Hr. by apply (lf_threads _ Hl c x r y).
Qed.

(** The list of the parent without the node of [x]. *)
Definition without_node (x : CoreContext) (y : CoreContext) : CoreContext :=
  set_children (base.filter (λ e, e.1 ≠ m_backReference x) (m_children y)) y.

Definition released (c : ctx) (x : CoreContext) (w : World) : World :=
  match m_pParent x with
  | Some p => add_log [ev_expiredContext c; ev_onTeardown c]
                (set_contexts (delete c (alter (without_node x) p (contexts w))) w)
  | None => add_log [ev_onTeardown c] (set_contexts (delete c (contexts w)) w)
  end.

Lemma CoreContext_dtor_run w c x : settled w → contexts w !! c = Some x →
  CoreContext_dtor inert c w = (Ret tt, released c x w).
Proof.
  intros Hs Hc. unfold CoreContext_dtor, released. erewrite bind_Ret by (by apply update_run).
  erewrite bind_Ret by (apply context_run; simpl; by rewrite lookup_insert_eq). simpl.
  destruct (m_pParent x) as [p|] eqn:Ep.
  - destruct (to_parent _ (st_tree _ Hs) c x p Hc Ep) as (Hlt & _ & px & Hpx & _).
    rewrite bind_assoc. erewrite bind_Ret by apply emit_run.
    erewrite bind_Ret; [|apply update_run; simpl; rewrite lookup_insert_ne; [exact Hpx|lia]].
    erewrite bind_Ret by apply emit_run. unfold modify, add_log, set_log, set_contexts. simpl.
    rewrite <-app_assoc. do 2 f_equal. rewrite delete_insert_ne, delete_insert_eq by lia.
    apply map_eq. intros d. destruct (decide (d = c)) as [->|n].
    + rewrite lookup_delete_eq, lookup_insert_ne by lia. by rewrite lookup_delete_eq.
    + rewrite lookup_delete_ne by done. destruct (decide (d = p)) as [->|np].
      * rewrite lookup_insert_eq, lookup_alter_eq, Hpx. done.
      * by rewrite lookup_insert_ne, lookup_delete_ne, lookup_alter_ne.
  - erewrite bind_Ret; [|done]. erewrite bind_Ret by apply emit_run.
    unfold modify, add_log, set_log, set_contexts. simpl. by rewrite delete_insert_eq.
Qed.

Lemma released_lookup w c x d y : contexts (released c x w) !! d = Some y →
  d ≠ c ∧ ∃ y0, contexts w !! d = Some y0 ∧ (y = y0 ∨ m_pParent x = Some d ∧ y = without_node x y0).
Proof.
  unfold released. destruct (m_pParent x) as [p|]; simpl; intros [n H]%lookup_delete_Some; (split; [done|]); [|by eauto].
  destruct (decide (d = p)) as [->|np].
  - rewrite lookup_alter_eq in H. destruct (contexts w !! p) as [y0|]; [|done]. injection H as <-. eauto.
  - rewrite lookup_alter_ne in H by done. eauto.
Qed.

Lemma released_runnables w c x : runnables (released c x w) = runnables w.
Proof. unfold released. by destruct (m_pParent x). Qed.

Lemma life_release w c x : life_ok w → contexts w !! c = Some x → sole_owner w c = true →
  CoreContext_dtor inert c w = (Ret tt, released c x w) ∧ life_ok (released c x w).
Proof.
  intros Hl Hc Hso. apply andb_true_iff in Hso as [Hnc%bool_decide_eq_true Hcur%bool_decide_eq_true].
  pose proof (CoreContext_dtor_run w c x (lf_settled _ Hl) Hc) as E. split; [done|].
  assert (∀ d y, contexts (released c x w) !! d = Some y → d ≠ c ∧ ∃ y0, contexts w !! d = Some y0 ∧
    links y = links y0 ∧ m_state y = m_state y0 ∧ m_threads y = m_threads y0 ∧
    m_beforeRunning y = m_beforeRunning y0 ∧ m_nameListeners y = m_nameListeners y0 ∧
    (∀ e, e ∈ m_children y0 → (m_pParent x = Some d → e.1 ≠ m_backReference x) → e ∈ m_children y)) as Hback.
  { intros d y (n & y0 & Hy0 & H)%released_lookup. split; [done|]. exists y0. split; [done|].
    destruct H as [->|[Hp ->]]; [by auto 9|]. split_and!; try done. intros e He Hn. simpl. apply list_elem_of_filter. auto. }
  apply (life_intro w).
  - done.
  - pose proof (CoreContext_dtor_ok inert (λ _, true) inert_ok w c x (lf_world _ Hl) Hc Hnc Hcur w eq_refl) as H.
    by rewrite E in H.
  - intros d y (n & y0 & Hy0 & E1 & E2 & E3 & E4 & E5 & E6)%Hback. destruct (life_context w d y0 Hl Hy0) as [? ?].
    unfold links in E1. split_and!; congruence.
  - intros d y p px (n & y0 & Hy0 & E1 & E2 & _ & _ & _ & _)%Hback Hp (np & p0 & Hp0 & F1 & F2 & _ & _ & _ & F6)%Hback.
    unfold links in E1. injection E1 as Ep Eb Ea Ee. rewrite Ep in Hp.
    destruct (life_link w d y0 p p0 Hl Hy0 Hp Hp0) as [Hin Hok]. rewrite E2, F2, Eb. split; [|done].
    apply F6; [done|]. simpl. intros Hq Heq.
    apply n, (to_backref _ (st_tree _ (lf_settled _ Hl)) d c y0 x); congruence.
  - intros r y. rewrite released_runnables. apply (life_runnable w r y Hl).
  - intros d y r z (n & y0 & Hy0 & _ & E2 & E3 & _)%Hback Hin. rewrite released_runnables, E2. rewrite E3 in Hin.
    by apply (lf_threads _ Hl d y0).
Qed.

(** ** Sequences of lifecycle operations *)
Inductive lifecycle_op :=
  | lc_create (parent : ctx) (s : sigil)
  | lc_initiate (c : ctx)
  | lc_shutdown (c : ctx) (graceful : bool)
  | lc_add_runnable (c : ctx)
  | lc_start (r : runnable)
  | lc_stop (r : runnable) (graceful : bool)
  | lc_set_current (o : option ctx)
  | lc_release (c : ctx).

(** One operation, with as much fuel as there ever were contexts. *)
Definition run_lifecycle_op (O : runnable → bool) (o : lifecycle_op) : M World unit :=
  w ← get;
  let fuel := S (next_ctx w) in
  match o with
  | lc_create p s => with_context p (_ ← CreateInternal inert fuel p s; mret tt)
  | lc_initiate c => with_context c (Initiate inert O fuel c)
  | lc_shutdown c g => with_context c (SignalShutdown inert fuel c g)
  | lc_add_runnable c => with_context c (r ← new_runnable; AddCoreRunnable inert O c r)
  | lc_start r => with_runnable r (_ ← Start inert O r; mret tt)
  | lc_stop r g => with_runnable r (Stop inert r g)
  | lc_set_current (Some c) => with_context c (_ ← SetCurrent (Some c); mret tt)
  | lc_set_current None => _ ← SetCurrent None; mret tt
  | lc_release c => with_context c (w ← get; if sole_owner w c then CoreContext_dtor inert c else mret tt)
  end.

(** The owner goes on after an exception. *)
Definition run_lifecycle (O : runnable → bool) (l : list lifecycle_op) : M World unit :=
  for_each (λ o, try_catch (run_lifecycle_op O o) (λ _, mret tt)) l.

Lemma with_context_run w c m : life_ok w →
  with_context c m w = if bool_decide (is_Some (contexts w !! c)) then m w else (Ret tt, w).
Proof.
  intros Hl. unfold with_context. erewrite bind_Ret; [|done]. unfold holds.
  destruct (contexts w !! c) as [x|] eqn:E; [|done]. destruct (life_context w c x Hl E) as [-> _]. done.
Qed.

(** The contexts that stay keep their parents, and the others are new. *)
Record evolves (w w' : World) : Prop := {
  ev_parent : ∀ c, is_Some (contexts w !! c) → is_Some (contexts w' !! c) → parent_of w' c = parent_of w c;
  ev_new : ∀ c, is_Some (contexts w' !! c) → is_Some (contexts w !! c) ∨ next_ctx w ≤ c;
  ev_next : next_ctx w ≤ next_ctx w' }.

Lemma evolves_same w w' : contexts w' = contexts w → next_ctx w' = next_ctx w → evolves w w'.
Proof. intros Ec En. split; unfold parent_of; rewrite ?Ec, ?En; auto. Qed.

Lemma evolves_effect f g w w' : effect f g w w' → evolves w w'.
Proof.
  intros He. pose proof (ef_next _ _ _ _ He) as (En & _). split; [intros; apply (effect_parent He)| |lia].
  intros c [x (y & Hy & _)%(effect_back He)]. left. by exists y.
Qed.

Lemma evolves_update w w' c x x' : contexts w !! c = Some x → m_pParent x' = m_pParent x →
  contexts w' = <[c := x']> (contexts w) → next_ctx w' = next_ctx w → evolves w w'.
Proof.
  intros Hx Hp Ec En. split; [..|lia]; intros d; unfold parent_of; rewrite Ec.
  - intros _ _. destruct (decide (d = c)) as [->|n]; [by rewrite lookup_insert_eq, Hx|by rewrite lookup_insert_ne].
  - intros [<-|[_ ?]]%lookup_insert_is_Some; left; [by exists x|done].
Qed.

Lemma evolves_created p px sg e w : contexts w !! p = Some px → (∀ c x, contexts w !! c = Some x → c < next_ctx w) →
  evolves w (created p px sg e w).
Proof.
  intros Hp Hn. assert (p < next_ctx w) by by eapply Hn. split; [..|simpl; lia].
  - intros d [x Hx] _. unfold parent_of. simpl. assert (d < next_ctx w) by by eapply Hn.
    destruct (decide (d = p)) as [->|n]; [by rewrite lookup_insert_eq, Hp|].
    by rewrite !lookup_insert_ne by lia.
  - intros d [y Hy]. simpl in Hy. apply lookup_insert_Some in Hy as [[<- _]|[_ [[<- _]|[_ ?]]%lookup_insert_Some]];
      [left; by exists px|by right|left; by exists y].
Qed.

Lemma evolves_released c x w : evolves w (released c x w).
Proof.
  assert (next_ctx (released c x w) = next_ctx w) as En by (unfold released; by destruct (m_pParent x)).
  split; [..|lia].
  - intros d _ [y Hy]. unfold parent_of. rewrite Hy. apply released_lookup in Hy as (_ & y0 & -> & Hy).
    by destruct Hy as [-> |[_ ->]].
  - intros d [y (_ & y0 & Hy & _)%released_lookup]. left. by exists y0.
Qed.

Lemma context_below_next w c x : life_ok w → contexts w !! c = Some x → c < next_ctx w.
Proof. intros Hl. apply (to_next _ (st_tree _ (lf_settled _ Hl))). Qed.

(** What a call promises, and a call that throws without a change. *)
Definition goes_to (w w' : World) : Prop := life_ok w' ∧ evolves w w'.

(** Every operation returns, or throws without a change. *)
Definition returns (O : runnable → bool) (o : lifecycle_op) (w : World) : Prop :=
  (∃ w', run_lifecycle_op O o w = (Ret tt, w') ∧ goes_to w w') ∨ (∃ e, run_lifecycle_op O o w = (Throw e, w)).

Lemma lifecycle_context_op (w : World) c (m : M World unit) :
  life_ok w →
  (∀ x, contexts w !! c = Some x → (∃ w', m w = (Ret tt, w') ∧ goes_to w w') ∨ (∃ e, m w = (Throw e, w))) →
  (∃ w', with_context c m w = (Ret tt, w') ∧ goes_to w w') ∨ (∃ e, with_context c m w = (Throw e, w)).
Proof.
  intros Hl Hm. rewrite with_context_run by done. case_bool_decide as H; [|left; exists w; split; [done|]; split; [done|by apply evolves_same]].
  destruct H as [x Hx]. by apply (Hm x).
Qed.

Lemma initiate_returns O w c x : life_ok w → contexts w !! c = Some x →
  ∃ w', Initiate inert O (S (next_ctx w)) c w = (Ret tt, w') ∧ goes_to w w'.
Proof.
  intros Hl Hc. destruct (may_run x) eqn:Em.
  - destruct (life_initiate_now O (S (next_ctx w)) w c x Hl Hc Em) as (w' & ? & He & ?); [lia|exists w'; split; [done|]; split; [done|by eapply evolves_effect]].
  - destruct (decide (m_state x = NotStarted)) as [En|En].
    + unfold may_run in Em. rewrite En in Em. destruct (life_wait O (S (next_ctx w)) w c x Hl Hc En Em). eexists. split; [done|]. split; [done|].
      eapply (evolves_update w _ c x); [exact Hc| |reflexivity..]. reflexivity.
    + exists w. rewrite (Initiate_run_again O _ w c x) by done. split; [done|]. split; [done|by apply evolves_same].
Qed.

Lemma create_returns w p px s : life_ok w → contexts w !! p = Some px →
  (∃ w', (_ ← CreateInternal inert (S (next_ctx w)) p s; mret tt) w = (Ret tt, w') ∧ goes_to w w') ∨
  (∃ e, (_ ← CreateInternal inert (S (next_ctx w)) p s; mret (M:=M World) tt) w = (Throw e, w)).
Proof.
  intros Hl Hp. destruct (shut (m_state px)) eqn:Es.
  - right. eexists. apply bind_Throw. unfold CreateInternal. erewrite bind_Ret by (by apply context_run).
    unfold IsShutdown. by destruct (m_state px).
  - left. destruct (life_create (S (next_ctx w)) w p px s Hl Hp Es) as (e & E & H).
    { apply (to_next _ (st_tree _ (lf_settled _ Hl))) in Hp. lia. }
    eexists. split; [by erewrite bind_Ret|]. split; [done|]. apply evolves_created; [done|]. intros; by eapply context_below_next.
Qed.

Lemma lifecycle_op_returns O o w : life_ok w → returns O o w.
Proof.
  intros Hl. unfold returns, run_lifecycle_op. change ((get ≫= ?k) w) with (k w w).
  destruct o as [p s|c|c g|c|r|r g|[c|]|c]; try (apply lifecycle_context_op; [done|]; intros x Hc).
  - by apply (create_returns w p x s).
  - left. by apply (initiate_returns O w c x).
  - left. destruct (life_shutdown g (S (next_ctx w)) w c Hl) as (w' & ? & He & ?); [by exists x|lia|exists w'; split; [done|]; split; [done|by eapply evolves_effect]].
  - left. destruct (life_add_runnable O w c x Hl Hc) as (l & ? & ?). eexists. split; [done|]. split; [done|].
    eapply (evolves_update w _ c x); [exact Hc| |reflexivity..]. reflexivity.
  - left. unfold with_runnable. erewrite bind_Ret; [|done]. case_bool_decide as H; [|exists w; split; [done|]; split; [done|by apply evolves_same]].
    destruct H as [y Hy]. destruct (life_start O w r y Hl Hy) as (l & E & ?). eexists. split; [by erewrite bind_Ret|]. split; [done|]. by apply evolves_same.
  - left. unfold with_runnable. erewrite bind_Ret; [|done]. case_bool_decide as H; [|exists w; split; [done|]; split; [done|by apply evolves_same]].
    destruct H as [y Hy]. destruct (life_stop w r y g Hl Hy) as (l & E & ?). eexists. split; [done|]. split; [done|by apply evolves_same].
  - left. eexists. split; [by erewrite bind_Ret by apply SetCurrent_run|]. split; [|by apply evolves_same].
    apply life_set_current; [done|]. intros ? [= <-]. by exists x.
  - left. eexists. split; [by erewrite bind_Ret by apply SetCurrent_run|]. split; [by apply life_set_current|by apply evolves_same].
  - left. erewrite bind_Ret; [|done]. destruct (sole_owner w c) eqn:Es; [|exists w; split; [done|]; split; [done|by apply evolves_same]].
    destruct (life_release w c x Hl Hc Es). eexists. split; [done|]. split; [done|apply evolves_released].
Qed.

Lemma lifecycle_returns O l w : life_ok w → ∃ w', run_lifecycle O l w = (Ret tt, w') ∧ life_ok w'.
Proof.
  revert w. induction l as [|o l IH]; intros w Hl; [by exists w|].
  assert (∃ w1, try_catch (run_lifecycle_op O o) (λ _, mret tt) w = (Ret tt, w1) ∧ life_ok w1) as (w1 & E1 & H1).
  { unfold try_catch. destruct (lifecycle_op_returns O o w Hl) as [(w1 & -> & [H1 _])|(e & ->)]; [by exists w1|by exists w]. }
  destruct (IH w1 H1) as (w2 & E2 & H2). exists w2. split; [|done]. unfold run_lifecycle. simpl. by erewrite bind_Ret.
Qed.

Lemma life_new : life_ok World_new.
Proof.
  assert (∀ c x, contexts World_new !! c = Some x → c = 0 ∧ x = CoreContext_new None 0 0 void_sigil) as H.
  { intros c x Hx. change (({[GlobalContext := CoreContext_new None 0 0 void_sigil]} : gmap ctx CoreContext) !! c = Some x) in Hx.
    apply lookup_singleton_Some in Hx as [<- <-]. done. }
  pose proof world_ok_new as Hw. split; [split|done|..]; try done.
  - apply (wo_tree _ _ _ _ Hw).
  - by intros c x [-> ->]%H.
  - by intros c x p px [-> ->]%H.
  - intros c x r [-> ->]%H. by intros ?%elem_of_nil.
  - intros p c s s' Hp. unfold parent_of in Hp. destruct (contexts World_new !! c) as [x|] eqn:E; [|done].
    by apply H in E as [-> ->].
Qed.


(** [CreateInternal] in a context that is not shut down makes a child with
    the next number, listed last, that may run exactly if its parent runs;
    [newContext] is signalled first, then, with the child current, the bolts for
    its sigil and those for all sigils are told, level by level up the tree. *)
Theorem CreateInternal_creates w p px sg :
  life_ok w → contexts w !! p = Some px → shut (m_state px) = false →
  ∃ w0, CreateInternal inert (S (next_ctx w)) p sg w =
    (Ret (next_ctx w), created p px sg (ev_newContext p (next_ctx w) :: notices (S (next_ctx w)) w0 p sg) w) ∧
    autoCurrentContext w0 = Some (next_ctx w) ∧
    ∀ d, d ≠ next_ctx w → parent_of w0 d = parent_of w d ∧ ∀ k, listeners w0 d k = listeners w d k.
Proof.
  intros Hl Hp Hsh. apply CreateInternal_run; [apply (lf_settled _ Hl)|apply (lf_world _ Hl)|done|done|].
  apply (to_next _ (st_tree _ (lf_settled _ Hl))) in Hp. lia.
Qed.


(** [Initiate].  A context that may run (its parent runs, or it is the
    global one) becomes [Running]; below it, through initiated contexts, every
    [Initiated] context becomes [Running] and every [NotStarted] one [CanRun];
    exactly their runnables are started.  A context that may not run yet becomes
    [Initiated], with a runnable that holds it; any other call changes nothing. *)
Theorem Initiate_starts_subtree O w c x :
  life_ok w → contexts w !! c = Some x →
  ∃ w', Initiate inert O (S (next_ctx w)) c w = (Ret tt, w') ∧ life_ok w' ∧
    if may_run x then
      (∀ d y, contexts w !! d = Some y → contexts w' !! d =
         Some (if Nat.eqb d c then set_state Running y
               else if reach w c d then set_state (promote (m_state y)) y else y)) ∧
      (∀ r y, runnables w !! r = Some y → runnables w' !! r =
         Some (if in_list (m_threads x) r || starting w (reach w c) r then started O r y else y))
    else if bool_decide (m_state x = NotStarted) then w' = waiting w c x else w' = w.
Proof.
  intros Hl Hc. destruct (may_run x) eqn:Em.
  - destruct (life_initiate_now O (S (next_ctx w)) w c x Hl Hc Em) as (w' & E & He & Hl'); [lia|].
    exists w'. split; [done|]. split; [done|]. split.
    + intros d y Hd. rewrite (effect_lookup He d y Hd).
      destruct (Nat.eqb d c); [done|]. by destruct (reach w c d); [|rewrite set_state_id].
    + intros r y Hr. by rewrite (ef_runnables _ _ _ _ He), Hr.
  - case_bool_decide as En.
    + unfold may_run in Em. rewrite En in Em.
      destruct (life_wait O (S (next_ctx w)) w c x Hl Hc En Em). by eexists.
    + exists w. by rewrite (Initiate_run_again O _ w c x).
Qed.

(** A tree: the global context runs; below it 1, initiated, with children 2
    (initiated) and 3 (not started), a runnable in 1 and one in 3. *)
Definition sample_ops : list lifecycle_op :=
  [lc_create 0 1; lc_create 1 2; lc_create 1 3; lc_add_runnable 1; lc_add_runnable 3; lc_initiate 1; lc_initiate 2].
Definition sample_world : World := (run_lifecycle (λ _, true) sample_ops World_new).2.

Lemma sample_life : life_ok sample_world.
Proof.
  unfold sample_world. destruct (lifecycle_returns (λ _, true) sample_ops World_new life_new) as (w & -> & H). exact H.
Qed.


Lemma Initiate_starts_subtree_witness :
  ∃ w', Initiate inert (λ _, true) (S (next_ctx sample_world)) 0 sample_world = (Ret tt, w') ∧
    state_of w' 0 = Some Running ∧ state_of w' 1 = Some Running ∧ state_of w' 2 = Some Running ∧
    state_of w' 3 = Some CanRun.
Proof.
  destruct (contexts sample_world !! 0) as [x|] eqn:Hx; [|by vm_compute in Hx].
  destruct (Initiate_starts_subtree (λ _, true) sample_world 0 x sample_life Hx) as (w' & E & _ & H).
  exists w'. split; [exact E|].
  assert (may_run x = true) as Hm by (vm_compute in Hx; injection Hx as <-; reflexivity).
  rewrite Hm in H. destruct H as [Hc _].
  split_and!; apply state_of_context;
    (eexists; split; [apply Hc; vm_compute; reflexivity|vm_compute; reflexivity]).
Defined.

Lemma CreateInternal_creates_witness :
  let r := CreateInternal inert (S (next_ctx sample_world)) 1 9 sample_world in
  r.1 = Ret 4 ∧ state_of r.2 4 = Some NotStarted ∧ parent_of r.2 4 = Some 1.
Proof.
  split; [|vm_compute; done].
  destruct (contexts sample_world !! 1) as [px|] eqn:Hp; [|by vm_compute in Hp].
  assert (shut (m_state px) = false) as Hsh by (vm_compute in Hp; injection Hp as <-; reflexivity).
  destruct (CreateInternal_creates sample_world 1 px 9 sample_life Hp Hsh) as (w0 & E & _).
  rewrite E. reflexivity.
Defined.
