(* ===== verification/EnumeratorFacts.v ===== *)
(** * ContextEnumerator: which contexts an enumeration visits

    [preorder] is the depth-first order an enumerator promises; [after] is what
    the iterator goes on with when a subtree is done.  The enumeration from a
    root is computed exactly, and with it what [AddBolt] tells a new bolt. *)
From stdpp Require Import base gmap list sets strings.
From Stdlib Require Import ZArith Lia.
From S2P Require Import Prelude CoreContext CoreContextFacts ContextLifecycle ContextEnumerator ContextClients ContextTree.

(** ** Specification *)
Definition children_of (w : World) (c : ctx) : list ctx :=
  match contexts w !! c with Some x => live_children w x | None => [] end.

(** The younger siblings of [c], in the order of the list. *)
Definition later (w : World) (c : ctx) : list ctx :=
  default [] (x ← contexts w !! c; p ← m_pParent x; px ← contexts w !! p;
              Some (omap (λ e, lock e.2 w) (after_slot (m_backReference x) (m_children px)))).

Fixpoint preorder (n : nat) (w : World) (c : ctx) : list ctx :=
  match n with
  | 0 => []
  | S n' => c :: flat_map (preorder n' w) (children_of w c)
  end.

(** What follows the subtree of [c]: its younger siblings, then what follows its
    parent.  The iterator stops when it would go to a child of [stop]. *)
Fixpoint after (n : nat) (w : World) (stop : option ctx) (c : ctx) : list ctx :=
  match n with
  | 0 => []
  | S n' =>
    match parent_of w c with
    | None => []
    | Some p =>
      match later w c with
      | [] => after n' w stop p
      | l => if bool_decide (Some p = stop) then [] else flat_map (preorder (next_ctx w) w) l ++ after n' w stop p
      end
    end
  end.

(** ** Fuel *)
Lemma settled_bound w c p : settled w → parent_of w c = Some p → c < next_ctx w.
Proof.
  intros Hs. unfold parent_of. destruct (contexts w !! c) as [x|] eqn:E; [|done]. intros _.
  by apply (to_next _ (st_tree _ Hs)) in E.
Qed.

Lemma children_parent w c d : settled w → d ∈ children_of w c ↔ is_Some (contexts w !! c) ∧ parent_of w d = Some c.
Proof.
  intros Hs. unfold children_of. destruct (contexts w !! c) as [x|] eqn:E.
  - rewrite (elem_of_live_children w c x) by done. naive_solver.
  - split; [by intros ?%elem_of_nil|]. intros [[? ?] _]. done.
Qed.

Lemma flat_map_ext_in {A B} (f g : A → list B) l : (∀ a, a ∈ l → f a = g a) → flat_map f l = flat_map g l.
Proof.
  induction l as [|a l IH]; intros H; simpl; [done|]. rewrite H by left. f_equal. apply IH. intros; apply H. by right.
Qed.

Lemma preorder_enough w n c : settled w → next_ctx w - c ≤ n → c < next_ctx w →
  preorder n w c = preorder (next_ctx w - c) w c.
Proof.
  intros Hs. revert c. induction n as [n IH] using lt_wf_ind. intros c Hn Hc.
  destruct n as [|n]; [lia|]. destruct (next_ctx w - c) as [|k] eqn:Ek; [lia|]. simpl. f_equal.
  apply flat_map_ext_in. intros d [_ Hd]%children_parent; [|done].
  pose proof (settled_older _ Hs _ _ Hd). pose proof (settled_bound _ _ _ Hs Hd).
  rewrite (IH n) by lia. symmetry. destruct (decide (k = n)) as [->|]; [by apply IH; lia|].
  apply (IH k); lia.
Qed.

Lemma preorder_unfold w c : settled w → is_Some (contexts w !! c) →
  preorder (next_ctx w) w c = c :: flat_map (preorder (next_ctx w) w) (children_of w c).
Proof.
  intros Hs [x Hc]. apply (to_next _ (st_tree _ Hs)) in Hc.
  rewrite preorder_enough by (try done; lia). destruct (next_ctx w - c) as [|k] eqn:Ek; [lia|]. simpl. f_equal.
  apply flat_map_ext_in. intros d [_ Hd]%children_parent; [|done].
  pose proof (settled_older _ Hs _ _ Hd). pose proof (settled_bound _ _ _ Hs Hd).
  rewrite (preorder_enough w k) by (try done; lia). symmetry. apply preorder_enough; [done|lia|done].
Qed.

Lemma after_enough w n stop c : settled w → c < n → after n w stop c = after (S c) w stop c.
Proof.
  intros Hs. revert c. induction n as [n IH] using lt_wf_ind. intros c Hc.
  destruct n as [|n]; [lia|]. simpl. destruct (parent_of w c) as [p|] eqn:E; [|done].
  pose proof (settled_older _ Hs _ _ E). destruct c as [|c]; [lia|].
  assert (after n w stop p = after (S c) w stop p) as ->.
  { rewrite (IH n) by lia. symmetry. destruct (decide (S c = n)) as [<-|]; [by apply IH; lia|]. apply (IH (S c)); lia. }
  done.
Qed.

Lemma after_unfold w stop c : settled w →
  after (next_ctx w) w stop c =
  match parent_of w c with
  | None => []
  | Some p =>
    match later w c with
    | [] => after (next_ctx w) w stop p
    | l => if bool_decide (Some p = stop) then [] else flat_map (preorder (next_ctx w) w) l ++ after (next_ctx w) w stop p
    end
  end.
Proof.
  intros Hs. destruct (decide (c < next_ctx w)) as [Hc|Hc].
  - rewrite after_enough by done. simpl. destruct (parent_of w c) as [p|] eqn:E; [|done].
    pose proof (settled_older _ Hs _ _ E). rewrite (after_enough w c) by done.
    by rewrite (after_enough w (next_ctx w) stop p) by (try done; lia).
  - assert (parent_of w c = None) as Hn.
    { destruct (parent_of w c) as [p|] eqn:E; [|done]. by apply settled_bound in E. }
    rewrite Hn. destruct (next_ctx w) as [|n]; [done|]. simpl. by rewrite Hn.
Qed.

(** ** Siblings *)
Lemma first_live_head l w : snd <$> first_live l w = head (omap (λ e, lock e.2 w) l).
Proof. induction l as [|[s o] l IH]; [done|]. csimpl. by destruct (lock o w). Qed.

Lemma FirstChild_head w c : settled w → is_Some (contexts w !! c) → FirstChild c w = (Ret (head (children_of w c)), w).
Proof.
  intros Hs [x Hc]. rewrite (FirstChild_run w c x Hc). unfold children_of, live_children. by rewrite Hc, first_live_head.
Qed.

Lemma NextSibling_head w c : settled w → is_Some (contexts w !! c) → NextSibling c w = (Ret (head (later w c)), w).
Proof.
  intros Hs [x Hc]. rewrite (NextSibling_run w c x (st_tree _ Hs) Hc). unfold later. rewrite Hc. simpl.
  destruct (m_pParent x) as [p|] eqn:Ep; [|done]. simpl.
  destruct (to_parent _ (st_tree _ Hs) c x p Hc Ep) as (_ & _ & px & Hpx & _). rewrite Hpx. simpl. by rewrite first_live_head.
Qed.

(** The list of children splits at [c]. *)
Lemma children_split w c p : settled w → parent_of w c = Some p →
  ∃ l, children_of w p = l ++ c :: later w c.
Proof.
  intros Hs Hp. unfold parent_of in Hp. destruct (contexts w !! c) as [x|] eqn:Hc; [|done]. simpl in Hp.
  destruct (to_parent _ (st_tree _ Hs) c x p Hc Hp) as (_ & _ & px & Hpx & _).
  pose proof (st_listed _ Hs c x p px Hc Hp Hpx) as Hin.
  apply list_elem_of_split in Hin as (l1 & l2 & El).
  destruct (to_nodup _ (st_tree _ Hs) p px Hpx) as [Hnd _]. rewrite El in Hnd.
  unfold children_of, later, live_children. rewrite Hpx, Hc. simpl. rewrite Hp. simpl. rewrite Hpx. simpl.
  rewrite El, (after_slot_suffix l1 _ (Some c) l2 Hnd), omap_app. exists (omap (λ e, lock e.2 w) l1). f_equal.
  destruct (st_live _ Hs c x Hc) as [He _]. simpl. by rewrite Hc, He.
Qed.

Lemma later_parent w c q : settled w → q ∈ later w c → ∃ p, parent_of w c = Some p ∧ parent_of w q = Some p ∧ q ≠ c.
Proof.
  intros Hs Hq. destruct (parent_of w c) as [p|] eqn:Ep.
  - exists p. split; [done|]. destruct (children_split w c p Hs Ep) as [l El].
    assert (q ∈ children_of w p) as Hqp by (rewrite El; set_solver).
    assert (is_Some (contexts w !! p)) as [px Hpx].
    { unfold children_of in Hqp. destruct (contexts w !! p); [by eexists|by apply elem_of_nil in Hqp]. }
    apply children_parent in Hqp as [_ ?]; [|done]. split; [done|]. intros ->.
    pose proof (live_children_nodup w p px Hs Hpx) as Hnd. unfold children_of in El. rewrite Hpx in El. rewrite El in Hnd.
    apply NoDup_app in Hnd as (_ & _ & Hnd). apply NoDup_cons in Hnd as [? _]. done.
  - exfalso. unfold later, parent_of in *. destruct (contexts w !! c) as [x|]; simpl in *; [|by apply elem_of_nil in Hq].
    rewrite Ep in Hq. by apply elem_of_nil in Hq.
Qed.

(** The younger siblings of the next sibling. *)
Lemma later_next w c q l : settled w → later w c = q :: l → later w q = l.
Proof.
  intros Hs El. destruct (later_parent w c q Hs) as (p & Hp & Hq & Hn); [rewrite El; by left|].
  destruct (children_split w c p Hs Hp) as [l1 E1]. destruct (children_split w q p Hs Hq) as [l2 E2].
  rewrite El in E1. rewrite E1 in E2.
  assert (is_Some (contexts w !! p)) as [px Hpx].
  { unfold children_of in E1. destruct (contexts w !! p); [by eexists|]. by destruct l1. }
  pose proof (live_children_nodup w p px Hs Hpx) as Hnd. unfold children_of in E1. rewrite Hpx in E1. rewrite E1 in Hnd.
  assert (l1 ++ c :: q :: l = (l1 ++ [c]) ++ q :: l) as E3 by (by rewrite <-app_assoc).
  rewrite E3 in E2, Hnd.
  pose proof Hnd as Hnd'. apply NoDup_app in Hnd' as (_ & Hd & Hnd'). apply NoDup_cons in Hnd' as [Hnin _].
  destruct (app_inj_pivot _ _ _ _ _ E2) as [[[H1 H2]|[H1 H2]]|[_ H]]; [..|done].
  - exfalso. apply (Hd q); [by apply list_elem_of_In|by left].
  - exfalso. apply Hnin. by apply list_elem_of_In.
Qed.

(** ** The iterator *)
(** Where the ascent from [c] ends: the next sibling of the first ancestor that
    has one, and the parent of that ancestor. *)
Fixpoint up (n : nat) (w : World) (c : ctx) : option ctx * option ctx :=
  match n with
  | 0 => (None, None)
  | S n' =>
    match later w c with
    | q :: _ => (Some q, parent_of w c)
    | [] => match parent_of w c with Some p => up n' w p | None => (None, None) end
    end
  end.

Lemma parent_is_context w c p : settled w → parent_of w c = Some p → is_Some (contexts w !! p).
Proof.
  intros Hs Hp. destruct (settled_parent w c p Hs Hp) as [s Hsp].
  apply state_of_context in Hsp as (x & Hx & _). by exists x.
Qed.

Lemma ascend_run w n c fuel : settled w → is_Some (contexts w !! c) → c < n → n ≤ fuel →
  ascend fuel None (Some c) w = (Ret (up n w c), w).
Proof.
  intros Hs. revert c fuel. induction n as [|n IH]; intros c fuel [x Hc] Hn Hf; [lia|].
  destruct fuel as [|fuel]; [lia|]. simpl.
  erewrite bind_Ret by (apply NextSibling_head; [done|by exists x]).
  erewrite bind_Ret by (by apply context_run).
  assert (m_pParent x = parent_of w c) as -> by (unfold parent_of; by rewrite Hc).
  destruct (later w c) as [|q l]; simpl; [|by destruct fuel].
  destruct (parent_of w c) as [p|] eqn:Ep; [|by destruct fuel].
  apply IH; [by eapply parent_is_context| |lia]. pose proof (settled_older _ Hs _ _ Ep). lia.
Qed.

Lemma up_spec w n c q cur : settled w → up n w c = (Some q, cur) →
  ∃ a l, below w a c = true ∧ later w a = q :: l ∧ cur = parent_of w a.
Proof.
  intros Hs. pose proof (settled_older _ Hs) as Ho. revert c. induction n as [|n IH]; intros c; simpl; [done|].
  destruct (later w c) as [|q' l] eqn:El.
  - destruct (parent_of w c) as [p|] eqn:Ep; [|done]. intros (a & l & Ha & ? & ?)%IH. exists a, l.
    split; [|done]. rewrite below_unfold, Ep, Ha by done. apply orb_true_r.
  - intros [= -> <-]. exists c, l. by rewrite below_refl.
Qed.

Lemma up_none w n c cur : up n w c = (None, cur) → cur = None.
Proof.
  revert c. induction n as [|n IH]; intros c; simpl; [by intros [= <-]|].
  destruct (later w c); [|done]. destruct (parent_of w c); [apply IH|by intros [= <-]].
Qed.

Lemma after_sibling w stop p q l : settled w → parent_of w q = Some p → later w q = l → Some p ≠ stop →
  after (next_ctx w) w stop q = flat_map (preorder (next_ctx w) w) l ++ after (next_ctx w) w stop p.
Proof.
  intros Hs Hq El Hst. rewrite after_unfold, Hq, El by done. destruct l; [done|]. by rewrite bool_decide_eq_false_2.
Qed.

Lemma after_up w stop n c : settled w → c < n →
  after (next_ctx w) w stop c =
  match up n w c with
  | (Some q, cur) => if bool_decide (cur = stop) then []
                     else preorder (next_ctx w) w q ++ after (next_ctx w) w stop q
  | (None, _) => []
  end.
Proof.
  intros Hs. revert c. induction n as [|n IH]; intros c Hc; [lia|]. rewrite after_unfold by done. simpl.
  destruct (later w c) as [|q l] eqn:El.
  - destruct (parent_of w c) as [p|] eqn:Ep; [|done]. apply IH. pose proof (settled_older _ Hs _ _ Ep). lia.
  - destruct (later_parent w c q Hs) as (p & Hp & Hq & _); [rewrite El; by left|]. rewrite Hp.
    case_bool_decide as Hst; [done|]. rewrite (after_sibling w stop p q l); [|done|done|by eapply later_next|done].
    simpl. by rewrite <-app_assoc.
Qed.

(** The iterator never stands on [stop]: neither [c] nor a younger sibling of an
    ancestor is [stop] or above it. *)
Definition apart (w : World) (stop : option ctx) (c : ctx) : Prop :=
  ∀ P, stop = Some P → below w c P = false ∧ ∀ a q, below w a c = true → q ∈ later w a → below w q P = false.

Lemma first_child_later w c d l : settled w → children_of w c = d :: l → later w d = l ∧ parent_of w d = Some c.
Proof.
  intros Hs El. assert (d ∈ children_of w c) as Hd by (rewrite El; by left).
  apply children_parent in Hd as [[x Hx] Hp]; [|done]. split; [|done].
  destruct (children_split w d c Hs Hp) as [l1 E1]. rewrite El in E1.
  destruct l1 as [|e l1]; [by injection E1|]. injection E1 as <- E1.
  pose proof (live_children_nodup w c x Hs Hx) as Hnd. unfold children_of in El. rewrite Hx in El. rewrite El in Hnd.
  apply NoDup_cons in Hnd as [Hn _]. exfalso. apply Hn. rewrite E1. set_solver.
Qed.

Lemma apart_child w stop c d l : settled w → children_of w c = d :: l → apart w stop c → apart w stop d.
Proof.
  intros Hs El Ha P HP. destruct (Ha P HP) as [Hc Hl]. pose proof (settled_older _ Hs) as Ho.
  assert (∀ e, parent_of w e = Some c → below w e P = false) as Hch.
  { intros e He. apply not_true_is_false. intros Hb. rewrite (below_children w c (children_of w c)) in Hc; [|done|].
    - apply orb_false_iff in Hc as [_ Hc]. rewrite <-not_true_iff_false in Hc. apply Hc.
      apply existsb_exists. exists e. split; [|done]. apply list_elem_of_In, children_parent; [done|].
      split; [|done]. by eapply parent_is_context.
    - intros q. rewrite children_parent by done. split; [by intros [_ ?]|]. intros Hq. split; [|done]. by eapply parent_is_context. }
  destruct (first_child_later w c d l Hs El) as [_ Hp]. split; [by apply Hch|].
  intros a q Hb Hq. rewrite below_unfold, Hp in Hb by done.
  apply orb_true_iff in Hb as [->%Nat.eqb_eq|Hb]; [|by eapply Hl].
  apply Hch. by destruct (later_parent w a q Hs Hq) as (p & ? & ? & _); simplify_eq.
Qed.

Lemma apart_next w stop c a q l : settled w → below w a c = true → later w a = q :: l → apart w stop c → apart w stop q.
Proof.
  intros Hs Hb El Ha P HP. destruct (Ha P HP) as [Hc Hl]. pose proof (settled_older _ Hs) as Ho.
  split; [apply (Hl a); [done|rewrite El; by left]|].
  intros b r Hbq Hr. destruct (later_parent w a q Hs) as (p & Hp & Hq & _); [rewrite El; by left|].
  rewrite below_unfold, Hq in Hbq by done. apply orb_true_iff in Hbq as [->%Nat.eqb_eq|Hbp].
  - apply (Hl a); [done|]. rewrite El. right. by rewrite (later_next w a b l Hs El) in Hr.
  - apply (Hl b r); [|done]. clear -Ho Hb Hbp Hp. induction c as [c IH] using lt_wf_ind.
    rewrite below_unfold in Hb by done. rewrite below_unfold by done. apply orb_true_iff in Hb as [->%Nat.eqb_eq|Hb].
    + rewrite Hp, Hbp. apply orb_true_r.
    + destruct (parent_of w c) as [p'|] eqn:E; [|done]. rewrite (IH p'); [apply orb_true_r|by apply Ho|done].
Qed.

(** One step of the iterator goes to the head of what is left. *)
Lemma iterator_inc_run w stop c fuel : settled w → is_Some (contexts w !! c) → next_ctx w ≤ fuel → apart w stop c →
  ∃ o, iterator_inc fuel (mkIterator stop (Some c)) w = (Ret (mkIterator stop o), w) ∧
    preorder (next_ctx w) w c ++ after (next_ctx w) w stop c =
      c :: match o with Some d => preorder (next_ctx w) w d ++ after (next_ctx w) w stop d | None => [] end ∧
    ∀ d, o = Some d → is_Some (contexts w !! d) ∧ apart w stop d.
Proof.
  intros Hs Hc Hf Hap. destruct Hc as [x Hx]. pose proof (to_next _ (st_tree _ Hs) c x Hx) as Hlt.
  assert (Some c ≠ stop) as Hcs.
  { intros <-. destruct (Hap c eq_refl) as [H _]. by rewrite below_refl in H. }
  unfold iterator_inc. erewrite bind_Ret; [|done]. erewrite bind_Ret by (apply FirstChild_head; [done|by exists x]).
  unfold _next. rewrite preorder_unfold by (try done; by exists x).
  destruct (children_of w c) as [|d l] eqn:El; simpl.
  - erewrite bind_Ret by (apply (ascend_run w (S c)); [done|by exists x|lia|lia]).
    rewrite (after_up w stop (S c) c) by (try done; lia).
    destruct (up (S c) w c) as [[q|] cur] eqn:Eu.
    + destruct (up_spec w _ c q cur Hs Eu) as (a & l & Hb & Ela & ->).
      destruct (later_parent w a q Hs) as (p & Hp & Hq & _); [rewrite Ela; by left|]. simpl. rewrite Hp in *.
      case_bool_decide as Hst.
      * exists None. split; [by simpl|]. split; [done|done].
      * exists (Some q). split; [done|]. split; [done|]. intros d [= <-]. split; [|by eapply apart_next].
        unfold parent_of in Hq. destruct (contexts w !! q); [by eexists|done].
    + apply up_none in Eu as ->. exists None. split; [|done]. simpl. by case_bool_decide.
  - erewrite bind_Ret; [|by destruct fuel]. simpl. rewrite bool_decide_eq_false_2 by done.
    destruct (first_child_later w c d l Hs El) as [Eld Hp].
    exists (Some d). split; [done|]. split.
    + rewrite (after_sibling w stop c d l) by done. by rewrite <-app_assoc.
    + intros e [= <-]. split; [|by eapply apart_child].
      unfold parent_of in Hp. destruct (contexts w !! d); [by eexists|done].
Qed.

Lemma iterate_run w stop fuel n c : settled w → is_Some (contexts w !! c) → next_ctx w ≤ fuel → apart w stop c →
  length (preorder (next_ctx w) w c ++ after (next_ctx w) w stop c) ≤ n →
  iterate fuel n (mkIterator stop (Some c)) w =
    (Ret (preorder (next_ctx w) w c ++ after (next_ctx w) w stop c), w).
Proof.
  intros Hs Hc Hf. revert c Hc. induction n as [|n IH]; intros c Hc Hap Hlen;
    destruct (iterator_inc_run w stop c fuel Hs Hc Hf Hap) as (o & E & El & Ho); rewrite El in Hlen |- *; simpl in Hlen; [lia|].
  simpl. erewrite bind_Ret by exact E. destruct o as [d|].
  - destruct (Ho d eq_refl) as [Hd Hapd]. by erewrite bind_Ret by (apply IH; [done|done|lia]).
  - by destruct n.
Qed.

Lemma apart_root w c : settled w → apart w (parent_of w c) c.
Proof.
  intros Hs P HP. pose proof (settled_older _ Hs) as Ho. pose proof (Ho _ _ HP) as Hlt.
  assert (∀ q, P < q → below w q P = false) as Hyoung.
  { intros q Hq. apply not_true_is_false. intros Hb. apply below_le in Hb; [lia|done]. }
  split; [by apply Hyoung|]. intros a q Hb Hq. destruct (later_parent w a q Hs Hq) as (p & Hp & Hqp & Hn).
  rewrite below_unfold, HP in Hb by done. apply orb_true_iff in Hb as [->%Nat.eqb_eq|Hb].
  - simplify_eq. apply Hyoung. by apply Ho.
  - apply not_true_is_false. intros Hbq. apply Hn. by eapply siblings_disjoint.
Qed.

Lemma elem_of_preorder w n c d : settled w → next_ctx w ≤ n + c → is_Some (contexts w !! c) →
  d ∈ preorder n w c ↔ is_Some (contexts w !! d) ∧ below w c d = true.
Proof.
  intros Hs. pose proof (settled_older _ Hs) as Ho. revert c. induction n as [|n IH]; intros c Hn [x Hc].
  { apply (to_next _ (st_tree _ Hs)) in Hc. lia. }
  simpl. rewrite elem_of_cons.
  assert (∀ q, q ∈ children_of w c ↔ parent_of w q = Some c) as Hch.
  { intros q. rewrite children_parent by done. split; [by intros [_ ?]|]. intros Hq. split; [|done]. by exists x. }
  rewrite (below_children w c (children_of w c)) by done. rewrite orb_true_iff, Nat.eqb_eq, existsb_exists.
  assert (d ∈ flat_map (preorder n w) (children_of w c) ↔ ∃ q, q ∈ children_of w c ∧ d ∈ preorder n w q) as ->.
  { rewrite list_elem_of_In, in_flat_map. by setoid_rewrite <-list_elem_of_In. }
  assert (∀ q, q ∈ children_of w c → d ∈ preorder n w q ↔ is_Some (contexts w !! d) ∧ below w q d = true) as HIH.
  { intros q Hq. apply Hch in Hq as Hp. pose proof (Ho _ _ Hp). apply IH; [lia|].
    unfold parent_of in Hp. destruct (contexts w !! q); [by eexists|done]. }
  split.
  - intros [->|(q & Hq & Hd)]; [split; [by exists x|by left]|]. apply HIH in Hd as [? ?]; [|done].
    split; [done|]. right. exists q. split; [by apply list_elem_of_In|done].
  - intros [Hd [->|(q & Hq & Hb)]]; [by left|right]. exists q. apply list_elem_of_In in Hq. split; [done|]. by apply HIH.
Qed.

Lemma enumerate_run w root fuel : settled w → is_Some (contexts w !! root) → next_ctx w ≤ fuel →
  length (preorder (next_ctx w) w root ++ after (next_ctx w) w (parent_of w root) root) ≤ fuel →
  enumerate fuel root w =
    (Ret (preorder (next_ctx w) w root ++ after (next_ctx w) w (parent_of w root) root), w).
Proof.
  intros Hs [x Hx] Hf Hlen. unfold enumerate, iterator_new. rewrite bind_assoc.
  erewrite bind_Ret by (by apply context_run). erewrite bind_Ret; [|done].
  assert (m_pParent x = parent_of w root) as -> by (unfold parent_of; by rewrite Hx).
  apply iterate_run; [done|by exists x|done|by apply apart_root|done].
Qed.

(** C37. What an enumeration visits.  Starting at [root], the iterator visits in
    preorder exactly the live contexts at or below [root], and ends there if
    [root] is the global context or has a younger sibling; otherwise it goes on
    with whatever follows the parent of [root] in the tree. *)
Theorem ContextEnumerator_visits w root fuel :
  settled w → is_Some (contexts w !! root) → next_ctx w ≤ fuel →
  length (preorder (next_ctx w) w root ++ after (next_ctx w) w (parent_of w root) root) ≤ fuel →
  enumerate fuel root w =
    (Ret (preorder (next_ctx w) w root ++ after (next_ctx w) w (parent_of w root) root), w) ∧
  (∀ d, d ∈ preorder (next_ctx w) w root ↔ is_Some (contexts w !! d) ∧ below w root d = true) ∧
  after (next_ctx w) w (parent_of w root) root =
    match parent_of w root, later w root with
    | Some p, [] => after (next_ctx w) w (Some p) p
    | _, _ => []
    end.
Proof.
  intros Hs Hr Hf Hlen. split; [by apply enumerate_run|]. split.
  - intros d. apply elem_of_preorder; [done|lia|done].
  - rewrite after_unfold by done. destruct (parent_of w root) as [p|]; [|done].
    destruct (later w root) as [|q l]; [done|]. by rewrite bool_decide_eq_true_2.
Qed.

Lemma ContextEnumerator_visits_witness :
  enumerate 10 0 sample_world = (Ret [0; 1; 2; 3], sample_world).
Proof.
  destruct (ContextEnumerator_visits sample_world 0 10 (lf_settled _ sample_life)) as (E & _ & _);
    [vm_compute; by eexists|vm_compute; lia|vm_compute; lia|].
  rewrite E. vm_compute. reflexivity.
Defined.

(** An enumeration can leave the subtree of its root.  Below the global
    context there are 1, with one child 3, and 2.  Enumerating from 3, which has
    no younger sibling, also visits 2, its parent's sibling: the ascent does not
    stop at the parent of the root but only compares where it ended. *)
Theorem enumeration_leaves_subtree :
  let w := (run_lifecycle (λ _, true) [lc_create 0 1; lc_create 0 2; lc_create 1 3] World_new).2 in
  parent_of w 3 = Some 1 ∧ parent_of w 2 = Some 0 ∧ below w 3 2 = false ∧
  enumerate 10 3 w = (Ret [3; 2], w).
Proof. vm_compute. done. Qed.

(** ** Bolts that are added late *)
(** The world after the bolt was put on the lists of [c]. *)
Definition register_bolt (b : bolt) (sigils : list sigil) (x : CoreContext) : CoreContext :=
  foldl (λ x k, set_nameListeners (<[k := default [] (m_nameListeners x !! k) ++ [b]]> (m_nameListeners x)) x) x
    (match sigils with [] => [void_sigil] | _ => sigils end).

Definition registered (c : ctx) (b : bolt) (sigils : list sigil) (w : World) : World :=
  set_contexts (alter (register_bolt b sigils) c (contexts w)) w.

(** The longest prefix of [l] that matches. *)
Fixpoint while_matching (w : World) (sigils : list sigil) (l : list ctx) : list ctx :=
  match l with
  | [] => []
  | c :: l' =>
    match contexts w !! c with
    | Some x => if Matches sigils (SigilType x) then c :: while_matching w sigils l' else []
    | None => []
    end
  end.

Lemma register_bolt_links b sigils x :
  links (register_bolt b sigils x) = links x ∧ m_children (register_bolt b sigils x) = m_children x ∧
  m_state (register_bolt b sigils x) = m_state x ∧ m_threads (register_bolt b sigils x) = m_threads x ∧
  m_beforeRunning (register_bolt b sigils x) = m_beforeRunning x ∧ SigilType (register_bolt b sigils x) = SigilType x.
Proof.
  unfold register_bolt. generalize (match sigils with [] => [void_sigil] | _ => sigils end) as l. intros l.
  revert x. induction l as [|k l IH]; intros x; simpl; [done|].
  destruct (IH (set_nameListeners (<[k:=default [] (m_nameListeners x !! k) ++ [b]]> (m_nameListeners x)) x)) as (E1 & E2 & E3 & E4 & E5 & E6).
  rewrite E1, E2, E3, E4, E5, E6. done.
Qed.

Lemma registered_insert w c x b sigils : contexts w !! c = Some x →
  registered c b sigils w = set_contexts (<[c := register_bolt b sigils x]> (contexts w)) w.
Proof.
  intros Hc. unfold registered. f_equal. apply map_eq. intros d. destruct (decide (d = c)) as [->|n].
  - by rewrite lookup_alter_eq, lookup_insert_eq, Hc.
  - by rewrite lookup_alter_ne, lookup_insert_ne.
Qed.

Lemma registered_settled w c x b sigils : settled w → contexts w !! c = Some x → settled (registered c b sigils w).
Proof.
  intros Hs Hc. rewrite (registered_insert w c x) by done.
  destruct (register_bolt_links b sigils x) as (E1 & E2 & E3 & E4 & E5 & E6).
  set (x' := register_bolt b sigils x) in *. unfold links in E1. injection E1 as Ep Eb Ea Ee.
  assert (∀ d y, <[c := x']> (contexts w) !! d = Some y → ∃ y0, contexts w !! d = Some y0 ∧ links y = links y0 ∧
    m_children y = m_children y0 ∧ m_threads y = m_threads y0 ∧ m_beforeRunning y = m_beforeRunning y0) as Hback.
  { intros d y [[<- <-]|[_ Hd]]%lookup_insert_Some; [|by exists y]. exists x. unfold links. by rewrite Ep, Eb, Ea, Ee. }
  split; simpl.
  - apply (tree_ok_update w c x); [apply (st_tree _ Hs)|done|unfold links; congruence|].
    rewrite E2. by apply children_ok_same; [apply (st_tree _ Hs)|].
  - intros d y (y0 & Hd & [= _ _ _ ?] & _ & _ & ?)%Hback. destruct (st_live _ Hs d y0 Hd). split; congruence.
  - intros d y p px (y0 & Hd & [= F1 F2 F3 F4] & _)%Hback Hp (p0 & Hp0 & _ & Ech & _)%Hback.
    rewrite Ech, F2. apply (st_listed _ Hs d y0 p p0); congruence.
  - intros d y r (y0 & Hd & _ & _ & Et & _)%Hback Hr. rewrite Et in Hr. by apply (st_threads _ Hs d y0).
  - apply (st_unlocked _ Hs).
Qed.

(** What is read of a world depends on its contexts. *)
Lemma children_of_same w w' c : contexts w' = contexts w → children_of w' c = children_of w c.
Proof.
  intros E. unfold children_of, live_children, lock. by rewrite E.
Qed.

Lemma preorder_same w w' n c : contexts w' = contexts w → preorder n w' c = preorder n w c.
Proof.
  intros E. revert c. induction n as [|n IH]; intros c; simpl; [done|]. rewrite (children_of_same w w') by done.
  f_equal. apply flat_map_ext_in. intros d _. apply IH.
Qed.

Lemma after_same w w' n stop c : contexts w' = contexts w → next_ctx w' = next_ctx w →
  after n w' stop c = after n w stop c.
Proof.
  intros E En. revert c. induction n as [|n IH]; intros c; simpl; [done|].
  assert (parent_of w' c = parent_of w c) as -> by (unfold parent_of; by rewrite E).
  assert (later w' c = later w c) as -> by (unfold later, lock; by rewrite E).
  destruct (parent_of w c) as [p|]; [|done]. destruct (later w c) as [|q l]; [apply IH|].
  case_bool_decide; [done|]. rewrite IH, En. f_equal.
  apply (flat_map_ext_in _ _ (q :: l)). intros d _. by apply preorder_same.
Qed.

Lemma below_same w w' c d : contexts w' = contexts w → below w' c d = below w c d.
Proof. intros E. apply below_parents. intros e. unfold parent_of. by rewrite E. Qed.

Lemma apart_same w w' stop c : contexts w' = contexts w → apart w stop c → apart w' stop c.
Proof.
  intros E Ha P HP. destruct (Ha P HP) as [H1 H2]. rewrite (below_same w w') by done. split; [done|].
  intros a q Hb Hq. rewrite (below_same w w') in * by done. apply (H2 a); [done|].
  revert Hq. unfold later, lock. by rewrite E.
Qed.

Lemma settled_same w w' : contexts w' = contexts w → runnables w' = runnables w → next_ctx w' = next_ctx w →
  next_slot w' = next_slot w → settled w → settled w'.
Proof.
  intros E1 E2 E3 E4 [[? ? ? ? ?] ? ? ? ?]. split; [split|..]; rewrite ?E1, ?E2, ?E3, ?E4; done.
Qed.

(** Telling the bolt of the contexts [l], one after the other. *)
Definition told (b : bolt) (l : list ctx) (w : World) : World :=
  match last l with
  | Some c => set_autoCurrentContext (Some c) (add_log ((λ d, ev_ContextCreated b (Some d)) <$> l) w)
  | None => w
  end.

Lemma told_cons b c l w :
  told b l (set_log (log w ++ [ev_ContextCreated b (Some c)]) (set_autoCurrentContext (Some c) w)) = told b (c :: l) w.
Proof.
  unfold told. rewrite last_cons. destruct (last l) as [d|] eqn:E.
  - unfold add_log, set_log, set_autoCurrentContext. simpl. by rewrite <-app_assoc.
  - apply last_None in E as ->. done.
Qed.

Lemma while_matching_same w w' sigils l : contexts w' = contexts w → while_matching w' sigils l = while_matching w sigils l.
Proof. intros E. induction l as [|e l IH]; simpl; [done|]. by rewrite E, IH. Qed.

Lemma retroactive_run b sigils stop fuel n : ∀ w c, settled w → is_Some (contexts w !! c) → next_ctx w ≤ fuel → apart w stop c →
  length (preorder (next_ctx w) w c ++ after (next_ctx w) w stop c) ≤ S n →
  retroactive inert fuel n b sigils (mkIterator stop (Some c)) w =
    (Ret tt, told b (while_matching w sigils (tail (preorder (next_ctx w) w c ++ after (next_ctx w) w stop c))) w).
Proof.
  induction n as [|n IH]; intros w c Hs Hc Hf Hap Hlen;
    destruct (iterator_inc_run w stop c fuel Hs Hc Hf Hap) as (o & E & El & Ho); rewrite El in Hlen |- *;
    cbn [retroactive]; (erewrite bind_Ret by exact E); (destruct o as [d|]; [|done]); destruct (Ho d eq_refl) as [[x Hx] Hapd];
    cbn [m_cur]; (erewrite bind_Ret by (by apply context_run));
    (assert (∃ l, preorder (next_ctx w) w d ++ after (next_ctx w) w stop d = d :: l) as [l Ed]
      by (rewrite preorder_unfold by (try done; by exists x); by eexists)); rewrite Ed in Hlen |- *; simpl in Hlen |- *; rewrite Hx;
    (destruct (Matches sigils (SigilType x)) eqn:Em; [|done]); [lia|].
  erewrite bind_Ret by apply SetCurrent_run. erewrite bind_Ret by apply emit_run.
  set (w1 := set_log _ _).
  assert (preorder (next_ctx w1) w1 d ++ after (next_ctx w1) w1 stop d = d :: l) as Ed1.
  { rewrite (preorder_same w w1), (after_same w w1) by done. exact Ed. }
  rewrite IH; [|by apply (settled_same w)|by exists x|done|by apply (apart_same w)|rewrite Ed1; simpl; lia].
  rewrite Ed1. simpl. f_equal. unfold w1. rewrite <-told_cons. f_equal.
  by apply while_matching_same.
Qed.

Lemma register_run c b (x : CoreContext) l w :
  contexts w !! c = Some x →
  ∃ x', for_each (λ k, update c (λ x, set_nameListeners
            (<[k := default [] (m_nameListeners x !! k) ++ [b]]> (m_nameListeners x)) x)) l w =
          (Ret tt, set_contexts (<[c := x']> (contexts w)) w) ∧
        x' = foldl (λ x k, set_nameListeners (<[k := default [] (m_nameListeners x !! k) ++ [b]]> (m_nameListeners x)) x) x l.
Proof.
  revert w x. induction l as [|k l IH]; intros w x Hc; simpl.
  - exists x. split; [|done]. unfold mret, M_ret, set_contexts. rewrite insert_id by done. by destruct w.
  - erewrite bind_Ret by (by apply update_run). set (x1 := set_nameListeners _ x).
    destruct (IH (set_contexts (<[c := x1]> (contexts w)) w) x1) as (x' & E & Ex'); [simpl; by rewrite lookup_insert_eq|].
    exists x'. split; [|done]. etrans; [exact E|]. unfold set_contexts. simpl. by rewrite insert_insert_eq.
Qed.

(** [AddBolt] tells a new bolt about existing contexts: it registers the
    bolt with the context and then, in the order of an enumeration that starts
    below the context, reports each one with that context current; it stops at
    the first context the bolt does not match; what was current is current
    again afterwards. *)
Theorem AddBolt_tells w c x b sigils fuel :
  settled w → contexts w !! c = Some x → next_ctx w ≤ fuel →
  (let w1 := registered c b sigils w in
   length (preorder (next_ctx w) w1 c ++ after (next_ctx w) w1 (parent_of w1 c) c) ≤ fuel) →
  AddBolt inert fuel c b sigils w =
    (Ret tt,
     let w1 := registered c b sigils w in
     add_log ((λ d, ev_ContextCreated b (Some d)) <$>
                while_matching w1 sigils (tail (preorder (next_ctx w) w1 c ++ after (next_ctx w) w1 (parent_of w1 c) c))) w1).
Proof.
  intros Hs Hc Hf Hlen. simpl in *. set (w1 := registered c b sigils w) in *.
  assert (settled w1) as Hs1 by (by eapply registered_settled).
  pose proof (registered_insert w c x b sigils Hc) as Er. fold w1 in Er.
  assert (contexts w1 !! c = Some (register_bolt b sigils x)) as Hc1 by (rewrite Er; simpl; by rewrite lookup_insert_eq).
  assert (∀ k : M World unit,
    (for_each (λ k, update c (λ x, set_nameListeners
            (<[k := default [] (m_nameListeners x !! k) ++ [b]]> (m_nameListeners x)) x)) sigils;;
     (match sigils with [] => update c (λ x, set_nameListeners
            (<[void_sigil := default [] (m_nameListeners x !! void_sigil) ++ [b]]> (m_nameListeners x)) x) | _ => mret tt end);; k) w = k w1) as Hreg.
  { intros k. destruct (register_run c b x sigils w Hc) as (x' & E & Ex').
    rewrite Er. erewrite bind_Ret by exact E. destruct sigils as [|s0 l]; simpl in *.
    - subst x'. erewrite bind_Ret by (apply update_run; simpl; by rewrite lookup_insert_eq).
      unfold set_contexts. simpl. by rewrite insert_insert_eq.
    - erewrite bind_Ret; [|done]. by rewrite Ex'. }
  unfold AddBolt. rewrite Hreg. erewrite bind_Ret; [|done].
  unfold at_exit, iterator_new. rewrite bind_assoc. erewrite bind_Ret by (by apply context_run).
  erewrite bind_Ret; [|done].
  assert (m_pParent (register_bolt b sigils x) = parent_of w1 c) as -> by (unfold parent_of; by rewrite Hc1).
  rewrite (retroactive_run b sigils (parent_of w1 c) fuel fuel w1 c); [|done|by eexists|by rewrite Er|by apply apart_root|].
  2: { rewrite Er at 1 2. simpl. rewrite <-Er. lia. }
  assert (next_ctx w1 = next_ctx w) as -> by (by rewrite Er).
  set (l := while_matching _ _ _). erewrite bind_Ret by apply SetCurrent_run. simpl. f_equal.
  assert (autoCurrentContext w = autoCurrentContext w1) as -> by done.
  unfold told. destruct (last l) as [d|] eqn:El; [done|].
  apply last_None in El as ->. simpl. by rewrite add_log_nil.
Qed.

Lemma AddBolt_tells_witness :
  (AddBolt inert 10 0 7 [1; 2] sample_world).2.(log) =
    log sample_world ++ [ev_ContextCreated 7 (Some 1); ev_ContextCreated 7 (Some 2)] ∧
  (* context 2 matches, but 1, which comes first, does not *)
  (AddBolt inert 10 0 7 [2] sample_world).2.(log) = log sample_world.
Proof.
  destruct (contexts sample_world !! 0) as [x|] eqn:Hx; [|by vm_compute in Hx].
  split.
  - rewrite (AddBolt_tells sample_world 0 x 7 [1; 2] 10 (lf_settled _ sample_life) Hx); [|vm_compute; lia|vm_compute; lia].
    vm_compute. reflexivity.
  - rewrite (AddBolt_tells sample_world 0 x 7 [2] 10 (lf_settled _ sample_life) Hx); [|vm_compute; lia|vm_compute; lia].
    vm_compute. reflexivity.
Defined.
