(* ===== verification/ContextExamples.v ===== *)
(** * CoreContext: exception filters, and runs that go wrong

    [FilterException] asks every filter up the tree.  Then concrete runs, with
    clients that act inside the callbacks, that show where the code does not do
    what it means to. *)
From stdpp Require Import base gmap list sets strings.
From Stdlib Require Import ZArith Lia.
From S2P Require Import Prelude CoreContext CoreContextFacts ContextLifecycle ContextEnumerator ContextClients ContextTree.

(** ** Exception filters *)
(** The filters of [c] and of its ancestors, in the order they are asked. *)
Fixpoint filters_up (n : nat) (w : World) (c : ctx) : list nat :=
  match n with
  | 0 => []
  | S n' =>
    default [] (m_filters <$> contexts w !! c) ++
    match parent_of w c with Some p => filters_up n' w p | None => [] end
  end.

Section filters.
  (** A filter handles the exception by returning. *)
  Context (handles : nat → bool) (rethrown : exn).

Definition filter_client (e : event) : M World unit :=
  match e with
  | ev_Filter f => if handles f then mret tt else throw rethrown
  | _ => mret tt
  end.

Lemma run_filters_run l h w :
  run_filters filter_client l h w = (Ret (h || existsb handles l), add_log (ev_Filter <$> l) w).
Proof.
  revert h w. induction l as [|f l IH]; intros h w; simpl; [by rewrite orb_false_r, add_log_nil|].
  assert (try_catch (emit filter_client (ev_Filter f);; mret true) (λ _, mret h) w =
    (Ret (handles f || h), add_log [ev_Filter f] w)) as E.
  { unfold try_catch, emit, modify. munfold. simpl. by destruct (handles f). }
  erewrite bind_Ret by exact E. rewrite IH, add_log_app. simpl. f_equal. f_equal. by destruct (handles f), h.
Qed.

Lemma FilterException_run n w c e : tree_ok w → is_Some (contexts w !! c) → c < n →
  FilterException filter_client n c e w =
    (if existsb handles (filters_up n w c) then Ret tt else Throw e, add_log (ev_Filter <$> filters_up n w c) w).
Proof.
  revert w c. induction n as [|n IH]; intros w c Ht [x Hc] Hn; [lia|].
  cbn [FilterException filters_up]. erewrite bind_Ret by (by apply context_run).
  erewrite bind_Ret by apply run_filters_run. unfold parent_of. rewrite Hc. simpl.
  set (w1 := add_log _ w). rewrite existsb_app, fmap_app, <-add_log_app. fold w1.
  destruct (m_pParent x) as [p|] eqn:Ep.
  - destruct (to_parent _ Ht c x p Hc Ep) as (Hlt & _ & px & Hpx & _).
    assert (∀ m d, filters_up m w1 d = filters_up m w d) as Hf.
    { induction m as [|m IHm]; intros d; simpl; [done|]. unfold parent_of. simpl.
      by destruct (contexts w !! d ≫= m_pParent); [rewrite IHm|]. }
    assert (FilterException filter_client n p e w1 = (if existsb handles (filters_up n w p) then Ret tt else Throw e,
      add_log (ev_Filter <$> filters_up n w p) w1)) as E.
    { rewrite IH; [by rewrite Hf|by destruct Ht; split|by exists px|lia]. }
    unfold try_catch. munfold. rewrite E.
    destruct (existsb handles (filters_up n w p)); simpl; [by rewrite orb_true_r|].
    rewrite orb_false_r. by destruct (existsb handles (m_filters x)).
  - simpl. rewrite orb_false_r, add_log_nil. munfold. by destruct (existsb handles (m_filters x)).
Qed.
End filters.

(** [FilterException] asks every filter of the context and of all its
    ancestors, nearest first, also after one of them handled the exception; it
    returns if one of them did and rethrows the exception otherwise. *)
Theorem FilterException_asks handles rethrown w c e :
  tree_ok w → is_Some (contexts w !! c) →
  FilterException (filter_client handles rethrown) (S c) c e w =
    (if existsb handles (filters_up (S c) w c) then Ret tt else Throw e,
     add_log (ev_Filter <$> filters_up (S c) w c) w).
Proof. intros Ht Hc. apply FilterException_run; [done|done|lia]. Qed.

(** Filters 5 and 6 in the global context, 4 in context 1. *)
Definition filter_world : World :=
  ((add_filter 0 5;; add_filter 0 6;; add_filter 1 4) (run_lifecycle (λ _, true) [lc_create 0 1] World_new).2).2.

Lemma filter_world_tree : tree_ok filter_world.
Proof.
  destruct (lifecycle_returns (λ _, true) [lc_create 0 1] World_new life_new) as (w & E & Hl).
  unfold filter_world. rewrite E. cbn [snd]. pose proof (lf_world _ Hl) as Hw.
  assert (contexts w = contexts (run_lifecycle (λ _, true) [lc_create 0 1] World_new).2) as Ec by (by rewrite E).
  assert (is_Some (contexts w !! 0) ∧ is_Some (contexts w !! 1)) as [[x Hx] [y Hy]].
  { rewrite Ec. vm_compute. split; by eexists. }
  assert (safe (world_ok (all_links w) [] ∅) (add_filter 0 5;; add_filter 0 6;; add_filter 1 4)) as Hs.
  { repeat (apply safe_bind; [|intros _]); apply add_filter_ok; eexists; by apply all_links_lookup. }
  destruct (world_ok_all _ _ _ _ Hw) as (Hw' & _ & _).
  assert (world_ok (all_links w) [] ∅ w) as H by (by eapply world_ok_weaken; [exact Hw'|done|apply list_subseteq_nil|done]).
  assert (((add_filter 0 5;; add_filter 0 6;; add_filter 1 4) w).1 = Ret tt) as Hret.
  { replace w with (run_lifecycle (λ _, true) [lc_create 0 1] World_new).2 by (by rewrite E). vm_compute. done. }
  specialize (Hs w H). revert Hret Hs.
  match goal with |- context [match ?r with _ => _ end] => destruct r as [r' w'] end. simpl. intros ->. apply wo_tree.
Qed.

Lemma FilterException_asks_witness :
  FilterException (filter_client (Nat.eqb 6) bad_weak_ptr) 2 1 (user_exception 9) filter_world =
    (Ret tt, add_log [ev_Filter 4; ev_Filter 5; ev_Filter 6] filter_world) ∧
  FilterException (filter_client (Nat.eqb 4) bad_weak_ptr) 1 0 (user_exception 9) filter_world =
    (Throw (user_exception 9), add_log [ev_Filter 5; ev_Filter 6] filter_world).
Proof.
  split.
  - rewrite (FilterException_asks (Nat.eqb 6) bad_weak_ptr filter_world 1 (user_exception 9) filter_world_tree);
      [vm_compute; reflexivity|vm_compute; by eexists].
  - rewrite (FilterException_asks (Nat.eqb 4) bad_weak_ptr filter_world 0 (user_exception 9) filter_world_tree);
      [vm_compute; reflexivity|vm_compute; by eexists].
Defined.

(** ** Runs that go wrong *)
(** The global context runs, with a child 1 in it. *)
Definition run_ops (O : runnable → bool) (callbacks : event → list context_op * option exn) (l : list context_op) : World :=
  (run_owner_ops O callbacks 20 l World_new).2.

(** [CreateInternal] undoes what a listener did to the new context.  A
    listener of [newContext] shuts the new context down; when the listener has
    returned, [CreateInternal] overwrites the state: the context that was
    abandoned may run again, although its [onShutdown] was signalled. *)
Theorem new_context_is_revived :
  let callbacks e := match e with ev_newContext _ c => ([op_shutdown c true], None) | _ => ([], None) end in
  let w := run_ops (λ _, true) callbacks [op_initiate 0; op_create 0 1] in
  state_of w 1 = Some CanRun ∧ ev_onShutdown 1 ∈ log w.
Proof. vm_compute. split; [done|]. repeat (first [left; done|right]). Qed.

(** A context that is created while its parent starts never runs.  The
    parent may run but is not initiated; a bolt that hears of the new child
    initiates the parent.  The child is not in the parent's list yet, so it is
    passed over; it stays [NotStarted] below a running parent, and initiating it
    later only makes it wait, for ever. *)
Theorem child_waits_below_running_parent :
  let callbacks e := match e with ev_ContextCreated 7 (Some 2) => ([op_initiate 1], None) | _ => ([], None) end in
  let w := run_ops (λ _, true) callbacks [op_initiate 0; op_create 0 1; op_add_bolt 1 7 []; op_create 1 2; op_initiate 2] in
  parent_of w 2 = Some 1 ∧ state_of w 1 = Some Running ∧ state_of w 2 = Some Initiated.
Proof. vm_compute. done. Qed.

(** A runnable whose [OnStart] throws is never stopped.  [AddCoreRunnable]
    marks that it is starting the first runnable of the list and does not remove
    the mark when [Start] throws, so that the shutdown of the context skips this
    runnable and its outstanding count is never released. *)
Theorem throwing_runnable_is_never_stopped :
  let callbacks e := match e with ev_OnStart _ => ([], Some (user_exception 1)) | _ => ([], None) end in
  let w := run_ops (λ _, true) callbacks [op_initiate 0; op_add_runnable 0 None; op_shutdown 0 true] in
  state_of w 0 = Some Shutdown ∧
  ∃ y, runnables w !! 0 = Some y ∧ m_shouldStop y = false ∧ m_outstanding y = true.
Proof. vm_compute. split; [done|]. eexists. done. Qed.

(** A bolt that adds another bolt while it hears of a new context changes the
    vector that is being iterated: the next step of the loop uses an invalid
    iterator. *)
Theorem bolt_added_by_bolt_invalidates_iterator :
  let client e := match e with ev_ContextCreated 7 _ => AddBolt inert 20 0 8 [] | _ => mret tt end in
  let w := (AddBolt inert 20 0 7 [] World_new).2 in
  (CreateInternal client 20 0 1 w).1 = Stuck undefined_behavior.
Proof. vm_compute. done. Qed.
