(* ===== verification/TypeMemos.v ===== *)
(** * The type memos of CoreContext: finding objects by type, deferred autowiring

    The part of src/src/autowiring/CoreContext.cpp (and Inject, Add and
    NotifyWhenAutowired of CoreContext.h) that keeps, for every context, the
    objects added to it and a memo per type ever asked for, together with the
    slots of AutowirableSlot.cpp that wait on those memos.  The contexts are
    those of the world of CoreContext.v, which is a part of the state here. *)
From stdpp Require Import base gmap list strings.
From Stdlib Require Import ZArith Lia.
From S2P Require Import Prelude.
From S2P Require Import Once.
From S2P Require Import CoreContext.
From S2P Require Import ContextEnumerator.

(** ** Data *)
(** Types by the address of their [auto_id_block]; 0 is [void].  Objects by the
    address of their [CoreObject] part, other pointers by their address. *)
Abbreviation type_id := nat (only parsing).
Abbreviation address := nat (only parsing).
Abbreviation slot_id := nat (only parsing).

(** [AnySharedPointer]: a type and a [shared_ptr<void>]. *)
Record any_pointer := mkAny { m_ti : type_id; m_ptr : option address }.

#[export] Instance any_pointer_eq_dec : EqDecision any_pointer.
Proof. solve_decision. Defined.

(** [AnySharedPointer::operator bool]. *)
Definition filled (p : any_pointer) : bool := bool_decide (is_Some (m_ptr p)).

(** [operator=(auto_id)] and [operator=(const shared_ptr<T>&)]. *)
Definition assign_type (ti : type_id) : any_pointer := mkAny ti None.
Definition assign_ptr (q : option address) (p : any_pointer) : any_pointer := mkAny (m_ti p) q.

(** The parts of [CoreObjectDescriptor] that [AddInternal] uses here: an object
    may be an exception filter, a bolt for some sigils, a runnable. *)
Record CoreObjectDescriptor := mkObject {
  type : type_id;
  actual_type : type_id;
  value : any_pointer;
  pCoreObject : option address;
  pFilter : option nat;
  pBoltBase : option (bolt * list sigil);
  pCoreRunnable : option runnable }.

#[export] Instance CoreObjectDescriptor_eq_dec : EqDecision CoreObjectDescriptor.
Proof. solve_decision. Defined.

(** What waits on a memo: an Autowired slot ([DeferrableAutowiring::Handler], with
    the memo it will read) or a function of the client. *)
Inductive listener := h_slot (s : slot_id) (at_ctx : ctx) (at_type : type_id) | h_function (n : nat).

Record MemoEntry := mkMemo {
  onSatisfied : once listener;
  pObjTraits : option CoreObjectDescriptor;
  m_value : any_pointer;
  m_local : bool }.

Definition MemoEntry_new : MemoEntry := mkMemo once_new None (mkAny 0 None) true.
Definition set_onSatisfied o e := mkMemo o (pObjTraits e) (m_value e) (m_local e).
Definition set_pObjTraits d e := mkMemo (onSatisfied e) d (m_value e) (m_local e).
Definition set_value v e := mkMemo (onSatisfied e) (pObjTraits e) v (m_local e).
Definition set_local b e := mkMemo (onSatisfied e) (pObjTraits e) (m_value e) b.

(** What a context knows of types. *)
Record ContextTypes := mkTypes {
  m_typeMemos : gmap type_id MemoEntry;
  m_concreteTypes : list CoreObjectDescriptor }.

Definition ContextTypes_new : ContextTypes := mkTypes ∅ [].

(** A reference to a memo: its context and type. *)
Definition memo_ref : Type := ctx * type_id.

(** [DeferrableAutowiring]. *)
Record Slot := mkSlot {
  s_ptr : any_pointer;
  s_notifications : list (memo_ref * nat);
  s_context : option ctx }.

Record TypeWorld := mkTypeWorld {
  tree : World;
  types : gmap ctx ContextTypes;
  slots : gmap slot_id Slot;
  next_slot_id : slot_id;
  notified : list nat }.

Definition set_tree t w := mkTypeWorld t (types w) (slots w) (next_slot_id w) (notified w).
Definition set_types t w := mkTypeWorld (tree w) t (slots w) (next_slot_id w) (notified w).
Definition set_slots s w := mkTypeWorld (tree w) (types w) s (next_slot_id w) (notified w).
Definition set_next_slot_id n w := mkTypeWorld (tree w) (types w) (slots w) n (notified w).
Definition set_notified l w := mkTypeWorld (tree w) (types w) (slots w) (next_slot_id w) l.

Definition TypeWorld_new : TypeWorld := mkTypeWorld World_new ∅ ∅ 0 [].

Definition types_of (w : TypeWorld) (c : ctx) : ContextTypes := default ContextTypes_new (types w !! c).
Definition find_memo (w : TypeWorld) (r : memo_ref) : option MemoEntry := m_typeMemos (types_of w r.1) !! r.2.
Definition concrete (w : TypeWorld) (c : ctx) : list CoreObjectDescriptor := m_concreteTypes (types_of w c).
Definition alive (w : TypeWorld) (c : ctx) : bool :=
  match lock (Some c) (tree w) with Some _ => true | None => false end.

Definition update_types (c : ctx) (f : ContextTypes → ContextTypes) (w : TypeWorld) : TypeWorld :=
  set_types (<[c := f (types_of w c)]> (types w)) w.
Definition put_memo (r : memo_ref) (e : MemoEntry) (w : TypeWorld) : TypeWorld :=
  update_types r.1 (λ t, mkTypes (<[r.2 := e]> (m_typeMemos t)) (m_concreteTypes t)) w.

(** An operation on the tree. *)
Definition on_tree {A} (m : M World A) : M TypeWorld A := λ w,
  ((m (tree w)).1, set_tree (m (tree w)).2 w).

Definition load_memo (r : memo_ref) : M TypeWorld MemoEntry := w ← get; deref (find_memo w r).
Definition update_memo (r : memo_ref) (f : MemoEntry → MemoEntry) : M TypeWorld unit :=
  e ← load_memo r; modify (put_memo r (f e)).

Definition load_slot (s : slot_id) : M TypeWorld Slot := w ← get; deref (slots w !! s).
Definition store_slot (s : slot_id) (x : Slot) : M TypeWorld unit :=
  _ ← load_slot s; modify (λ w, set_slots (<[s := x]> (slots w)) w).

(** ** Signalling that a memo is satisfied *)
(** [DeferrableAutowiring::Handler::operator()], and the client's function, which
    leaves a trace. *)
Definition call_listener (h : listener) : M TypeWorld unit :=
  match h with
  | h_slot s c t =>
    x ← load_slot s; memo ← load_memo (c, t); store_slot s (mkSlot (m_value memo) [] (s_context x))
  | h_function n => modify (λ w, set_notified (notified w ++ [n]) w)
  end.

Definition load_once (r : memo_ref) : M TypeWorld (once listener) := e ← load_memo r; mret (onSatisfied e).
Definition store_once (r : memo_ref) (o : once listener) : M TypeWorld unit := update_memo r (set_onSatisfied o).

Definition memo_signal (r : memo_ref) : M TypeWorld unit :=
  once_signal (load_once r) (store_once r) call_listener.
Definition memo_append (r : memo_ref) (h : listener) : M TypeWorld (option nat) :=
  once_append (load_once r) (store_once r) call_listener h.
Definition memo_remove (r : memo_ref) (n : nat) : M TypeWorld bool :=
  once_remove (load_once r) (store_once r) n.

(** [CurrentContextPusher pshr(c)] around [m]. *)
Definition pushed {A} (c : ctx) (m : M TypeWorld A) : M TypeWorld A :=
  m_prior ← on_tree (SetCurrent (Some c)); at_exit (_ ← on_tree (SetCurrent m_prior); mret tt) m.

Definition ambiguous_error : exn :=
  autowiring_error "An attempt was made to resolve a type which has multiple possible clients".
Definition same_value_error : exn :=
  autowiring_error "An attempt was made to add the same value to the same context more than once".
Definition same_type_error : exn :=
  autowiring_error "An attempt was made to add the same type to the same context more than once".
Definition interface_present_error : exn :=
  autowiring_error "This interface is already present in the context".
Definition not_member_error : exn :=
  autowiring_error "Attempted to obtain the true type of a shared pointer that was not a member of this context".

Section TypeMemos.
  (** [auto_id_block::pFromObj]: the dynamic cast of an object to a type, missing
      while the type is not instantiated; and what the runnables' [OnStart] says. *)
  Context (pFromObj : type_id → option (address → option address)) (OnStart_result : runnable → bool).

(** The cast of a descriptor's object; a null object casts to null. *)
Definition cast (t : type_id) (o : option address) : option (option address) :=
  f ← pFromObj t; Some (o ≫= f).

(** ** FindByType *)
(** The loop over the concrete types that fills the new memo [r]. *)
Fixpoint resolve (r : memo_ref) (l : list CoreObjectDescriptor) : M TypeWorld unit :=
  match l with
  | [] => mret tt
  | concreteType :: l' =>
    matched ← (if Nat.eqb r.2 (type concreteType) then
                 update_memo r (set_value (value concreteType));; mret true
               else match cast r.2 (pCoreObject concreteType) with
                    | Some (Some fromObj) =>
                      memo_signal r;;
                      update_memo r (λ e, set_local true (set_value (assign_ptr (Some fromObj) (m_value e)) e));;
                      mret true
                    | _ => mret false
                    end);
    if matched : bool then
      retVal ← load_memo r;
      match pObjTraits retVal with
      | Some _ => throw ambiguous_error
      | None => update_memo r (set_pObjTraits (Some concreteType));; resolve r l'
      end
    else resolve r l'
  end.

(** [FindByType], [FindByTypeUnsafe]: a reference to the memo found. *)
Fixpoint FindByType (fuel : nat) (c : ctx) (type : type_id) (nonrecursive : bool) : M TypeWorld memo_ref :=
  match fuel with
  | 0 => stuck out_of_fuel
  | S fuel' =>
    w ← get;
    let retVal := (c, type) in
    match find_memo w retVal with
    | Some _ => mret retVal
    | None =>
      modify (put_memo retVal (set_value (assign_type type) MemoEntry_new));;
      resolve retVal (concrete w c);;
      e ← load_memo retVal;
      x ← on_tree (context c);
      if nonrecursive || filled (m_value e) then mret retVal
      else match m_pParent x with
      | None => mret retVal
      | Some m_pParent =>
        parentEntry ← FindByType fuel' m_pParent type nonrecursive;
        pe ← load_memo parentEntry;
        if filled (m_value pe) then
          update_memo retVal (λ e, set_local false (set_pObjTraits (pObjTraits pe) (set_value (m_value pe) e)));;
          memo_signal retVal;;
          mret parentEntry
        else mret retVal
      end
    end
  end.

(** [GetAutoTypeId]. *)
Definition GetAutoTypeId (c : ctx) (ptr : any_pointer) : M TypeWorld type_id :=
  w ← get;
  match find_memo w (c, m_ti ptr) ≫= pObjTraits with
  | Some d => mret (type d)
  | None => throw not_member_error
  end.

(** ** Telling the memos of a new object *)
(** The contexts whose weak pointers in the list of [c] still lock. *)
Definition children (c : ctx) : M TypeWorld (list ctx) :=
  x ← on_tree (context c); w ← get; mret (omap (λ e, lock e.2 (tree w)) (m_children x)).

(** One memo in the loop of [UpdateDeferredElements]; [None]: left as it is.  The
    cast is the one of the type the memo's pointer has ([try_assign]). *)
Definition try_entry (entry : CoreObjectDescriptor) (local : bool) (e : MemoEntry) : option MemoEntry :=
  if filled (m_value e) && m_local e then None
  else match cast (m_ti (m_value e)) (pCoreObject entry) with
       | Some (Some p) =>
         Some (set_local local (set_pObjTraits (Some entry) (set_value (assign_ptr (Some p) (m_value e)) e)))
       | _ => None
       end.

Fixpoint UpdateDeferredElements (fuel : nat) (c : ctx) (entry : CoreObjectDescriptor) (local : bool) : M TypeWorld unit :=
  match fuel with
  | 0 => stuck out_of_fuel
  | S fuel' =>
    w ← get;
    let memos := m_typeMemos (types_of w c) in
    let entries := (map_to_list (omap (try_entry entry local) memos)).*1 in
    modify (update_types c (λ t, mkTypes ((λ e, default e (try_entry entry local e)) <$> m_typeMemos t) (m_concreteTypes t)));;
    for_each (λ t, memo_signal (c, t)) entries;;
    l ← children c;
    for_each (λ child, UpdateDeferredElements fuel' child entry false) l
  end.

(** [UpdateDeferredElement]: the children are handed the memo of the parent. *)
Fixpoint UpdateDeferredElement (fuel : nat) (c : ctx) (entry : memo_ref) : M TypeWorld unit :=
  match fuel with
  | 0 => stuck out_of_fuel
  | S fuel' =>
    memo_signal entry;;
    l ← children c;
    for_each (λ child, UpdateDeferredElement fuel' child entry) l
  end.

(** ** Adding *)
(** [AddInternal(const CoreObjectDescriptor&)]. *)
Definition AddInternal (fuel : nat) (c : ctx) (traits : CoreObjectDescriptor) : M TypeWorld unit :=
  w ← get;
  match find_memo w (c, actual_type traits) with
  | Some v =>
    if m_local v then
      if bool_decide (is_Some (pCoreObject traits) ∧ m_ptr (m_value v) = pCoreObject traits) then throw same_value_error
      else if filled (m_value v) then throw same_type_error
      else mret tt
    else update_memo (c, actual_type traits) (λ v, set_local true (set_value (value traits) v))
  | None => mret tt
  end;;
  modify (update_types c (λ t, mkTypes (m_typeMemos t) (m_concreteTypes t ++ [traits])));;
  match pFilter traits with Some f => on_tree (add_filter c f) | None => mret tt end;;
  UpdateDeferredElements fuel c traits true;;
  match pBoltBase traits with
  | Some (b, sigils) => on_tree (AddBolt (λ _, mret tt) fuel c b sigils)
  | None => mret tt
  end;;
  match pCoreRunnable traits with
  | Some r => on_tree (AddCoreRunnable (λ _, mret tt) OnStart_result c r)
  | None => mret tt
  end.

(** [AddInternal(const AnySharedPointer&)], [Add]. *)
Definition Add (fuel : nat) (c : ctx) (ptr : any_pointer) : M TypeWorld unit :=
  w ← get;
  let entry := default MemoEntry_new (find_memo w (c, m_ti ptr)) in
  modify (put_memo (c, m_ti ptr) entry);;
  if m_local entry && filled (m_value entry) then throw interface_present_error
  else
    update_memo (c, m_ti ptr) (λ e, set_value ptr (set_local true e));;
    UpdateDeferredElement fuel c (c, m_ti ptr).

(** [Inject<T>]: [make] constructs the object and describes it.  What was caught
    on the way in decides the pointer returned. *)
Definition Inject (fuel : nat) (c : ctx) (T TActual : type_id) (make : M TypeWorld CoreObjectDescriptor)
    : M TypeWorld (option address) :=
  r ← FindByType fuel c T true;
  memo ← load_memo r;
  if filled (m_value memo) && m_local memo then mret (m_ptr (m_value memo))
  else
    memo ← FindByType fuel c TActual true;
    pushed c
      (objDesc ← make;
       try_catch (AddInternal fuel c objDesc;; mret (m_ptr (value objDesc)))
         (λ e, match e with
               | autowiring_error _ => v ← load_memo memo; mret (m_ptr (m_value v))
               | _ => throw e
               end)).

(** ** Slots *)
(** [DeferrableAutowiring(witness, context)]; a constructor that throws leaves no
    object. *)
Definition new_slot (fuel : nat) (witness : any_pointer) (context : option ctx) : M TypeWorld slot_id :=
  w ← get;
  let this := next_slot_id w in
  put (set_next_slot_id (S this) (set_slots (<[this := mkSlot witness [] context]> (slots w)) w));;
  match context with
  | None => mret this
  | Some c =>
    try_catch
      (memo ← FindByType fuel c (m_ti witness) false;
       reg ← memo_append memo (h_slot this memo.1 memo.2);
       match reg with
       | None => mret this
       | Some n =>
         x ← load_slot this;
         store_slot this (mkSlot (s_ptr x) (s_notifications x ++ [(memo, n)]) (s_context x));; mret this
       end)
      (λ e, modify (λ w, set_slots (delete this (slots w)) w);; throw e)
  end.

(** The copy constructor. *)
Definition copy_slot (fuel : nat) (rhs : slot_id) : M TypeWorld slot_id :=
  x ← load_slot rhs; w ← get;
  new_slot fuel (s_ptr x) (match s_context x with Some c => if alive w c then Some c else None | None => None end).

(** [reset]. *)
Definition reset (s : slot_id) : M TypeWorld unit :=
  x ← load_slot s;
  store_slot s (mkSlot (mkAny (m_ti (s_ptr x)) None) [] None);;
  w ← get;
  match s_context x with
  | Some c => if alive w c then for_each (λ n, _ ← memo_remove n.1 n.2; mret tt) (s_notifications x) else mret tt
  | None => mret tt
  end.

(** [~DeferrableAutowiring]. *)
Definition delete_slot (s : slot_id) : M TypeWorld unit :=
  reset s;; modify (λ w, set_slots (delete s (slots w)) w).

(** [DeferrableAutowiring::NotifyWhenAutowired]. *)
Definition slot_NotifyWhenAutowired (fuel : nat) (s : slot_id) (n : nat) : M TypeWorld unit :=
  x ← load_slot s;
  if filled (s_ptr x) then call_listener (h_function n)
  else
    w ← get;
    match s_context x with
    | Some c =>
      if alive w c then
        entry ← FindByType fuel c (m_ti (s_ptr x)) false;
        reg ← memo_append entry (h_function n);
        match reg with
        | None => mret tt
        | Some k =>
          x ← load_slot s;
          store_slot s (mkSlot (s_ptr x) (s_notifications x ++ [(entry, k)]) (s_context x))
        end
      else mret tt
    | None => mret tt
    end.

(** [CoreContext::NotifyWhenAutowired]. *)
Definition NotifyWhenAutowired (fuel : nat) (c : ctx) (t : type_id) (n : nat) : M TypeWorld unit :=
  memo ← FindByType fuel c t false;
  pushed c (_ ← memo_append memo (h_function n); mret tt).

(** [IsAutowired], and [AutowiredFast], [Has]: what a search finds now. *)
Definition IsAutowired (w : TypeWorld) (s : slot_id) : bool :=
  match slots w !! s with Some x => filled (s_ptr x) | None => false end.
Definition AutowiredFast (fuel : nat) (c : ctx) (t : type_id) : M TypeWorld (option address) :=
  r ← FindByType fuel c t false; e ← load_memo r; mret (m_ptr (m_value e)).
End TypeMemos.
