(* ===== verification/TypeFacts.v ===== *)
(** * Type memos: what every operation keeps, and that it ends

    The invariant of the memos, the signals and the slots, and for each operation
    of TypeMemos.v a lemma that it runs to its end and keeps it. *)
From stdpp Require Import base gmap list sets strings.
From Stdlib Require Import ZArith Lia.
From S2P Require Import Prelude.
From S2P Require Import Once.
From S2P Require Import CoreContext.
From S2P Require Import CoreContextFacts.
From S2P Require Import ContextLifecycle.
From S2P Require Import ContextEnumerator.
From S2P Require Import ContextClients.
From S2P Require Import ContextTree.
From S2P Require Import TypeMemos.

(** ** Reading after writing *)
Lemma find_put_memo r e w r' :
  find_memo (put_memo r e w) r' = if decide (r' = r) then Some e else find_memo w r'.
Proof.
  destruct r as [c t], r' as [c' t']. unfold find_memo, put_memo, update_types, types_of. simpl.
  destruct (decide (c' = c)) as [->|n].
  - rewrite lookup_insert_eq. simpl. destruct (decide (t' = t)) as [->|n].
    + by rewrite lookup_insert_eq, decide_True.
    + rewrite lookup_insert_ne by done. by rewrite decide_False by congruence.
  - rewrite lookup_insert_ne by done. by rewrite decide_False by congruence.
Qed.

Lemma concrete_put_memo r e w c : concrete (put_memo r e w) c = concrete w c.
Proof.
  unfold concrete, put_memo, update_types, types_of. simpl.
  destruct (decide (c = r.1)) as [->|n]; [by rewrite lookup_insert_eq|by rewrite lookup_insert_ne].
Qed.

Lemma put_put_memo r e e' w : put_memo r e (put_memo r e' w) = put_memo r e w.
Proof.
  destruct r as [c t]. unfold put_memo, update_types, types_of, set_types. simpl. f_equal.
  rewrite lookup_insert_eq. simpl. by rewrite insert_insert_eq, insert_insert_eq.
Qed.

Lemma dom_put_memo r e w c : is_Some (types (put_memo r e w) !! c) ↔ c = r.1 ∨ is_Some (types w !! c).
Proof.
  unfold put_memo, update_types. simpl. rewrite lookup_insert_is_Some.
  split; [intros [->|[_ ?]]; auto|]. intros [->|?]; [by left|]. destruct (decide (r.1 = c)); auto.
Qed.

Lemma load_memo_run r e w : find_memo w r = Some e → load_memo r w = (Ret e, w).
Proof. intros H. unfold load_memo. munfold. by rewrite H. Qed.

Lemma update_memo_run r f e w : find_memo w r = Some e → update_memo r f w = (Ret tt, put_memo r (f e) w).
Proof. intros H. unfold update_memo. by erewrite bind_Ret by by apply load_memo_run. Qed.

Lemma load_slot_run s x w : slots w !! s = Some x → load_slot s w = (Ret x, w).
Proof. intros H. unfold load_slot. munfold. by rewrite H. Qed.

Lemma store_slot_run s x x0 w : slots w !! s = Some x0 → store_slot s x w = (Ret tt, set_slots (<[s := x]> (slots w)) w).
Proof. intros H. unfold store_slot. by erewrite bind_Ret by by apply load_slot_run. Qed.

Lemma context_tree_run c x w : contexts (tree w) !! c = Some x → on_tree (context c) w = (Ret x, w).
Proof. intros H. unfold on_tree. rewrite (context_run _ _ x) by done. by destruct w. Qed.

(** ** Signals *)
(** What a listener does, the memo having the value [v]. *)
Definition fill (v : any_pointer) (w : TypeWorld) (h : listener) : TypeWorld :=
  match h with
  | h_slot s _ _ => set_slots (alter (λ x, mkSlot v [] (s_context x)) s (slots w)) w
  | h_function n => set_notified (notified w ++ [n]) w
  end.

Definition fill_all (v : any_pointer) (l : list listener) (w : TypeWorld) : TypeWorld := foldl (fill v) w l.

Lemma fill_all_cons v h l w : fill_all v (h :: l) w = fill_all v l (fill v w h).
Proof. done. Qed.

(** The listeners of memo [r] are in order: their slots live, and read this memo. *)
Definition listeners_ok (r : memo_ref) (l : list listener) (w : TypeWorld) : Prop :=
  ∀ s c t, h_slot s c t ∈ l → (c, t) = r ∧ is_Some (slots w !! s).

Lemma fill_fields v h w : tree (fill v w h) = tree w ∧ types (fill v w h) = types w ∧ next_slot_id (fill v w h) = next_slot_id w.
Proof. by destruct h. Qed.

Lemma fill_all_fields v l w :
  tree (fill_all v l w) = tree w ∧ types (fill_all v l w) = types w ∧ next_slot_id (fill_all v l w) = next_slot_id w.
Proof.
  revert w. induction l as [|h l IH]; intros w; [done|]. rewrite fill_all_cons.
  destruct (IH (fill v w h)) as (-> & -> & ->). apply fill_fields.
Qed.

(** The slots among the listeners are filled, the others are left alone. *)
Lemma fill_slots v h w s :
  slots (fill v w h) !! s =
    match h with
    | h_slot s' _ _ => if decide (s = s') then (λ x, mkSlot v [] (s_context x)) <$> slots w !! s else slots w !! s
    | _ => slots w !! s
    end.
Proof.
  destruct h as [s' c t|n]; [|done]. simpl. case_decide as H; [subst; by rewrite lookup_alter_eq|by rewrite lookup_alter_ne].
Qed.

Lemma fill_all_out v l w s : (∀ c t, h_slot s c t ∉ l) → slots (fill_all v l w) !! s = slots w !! s.
Proof.
  revert w. induction l as [|h l IH]; intros w Hs; [done|]. rewrite fill_all_cons, IH by (intros c t Hin; apply (Hs c t); by right). rewrite fill_slots.
  destruct h as [s' c t|n]; [|done]. case_decide; [subst; destruct (Hs c t); left|done].
Qed.

Lemma fill_all_in v l w s x c t : slots w !! s = Some x → h_slot s c t ∈ l →
  slots (fill_all v l w) !! s = Some (mkSlot v [] (s_context x)).
Proof.
  intros Hx Hin. cut (slots w !! s = Some (mkSlot v [] (s_context x)) ∨ (∃ c t, h_slot s c t ∈ l) →
    slots (fill_all v l w) !! s = Some (mkSlot v [] (s_context x))); [intros H; apply H; eauto|].
  assert (∃ x0, slots w !! s = Some x0 ∧ s_context x0 = s_context x) as Hx0 by eauto. clear Hx Hin c t.
  revert w Hx0. induction l as [|h l IH]; intros w (x0 & Hx0 & Hc) Hor.
  { simpl. destruct Hor as [?|(c & t & ?%elem_of_nil)]; done. }
  pose proof (fill_slots v h w s) as E. rewrite Hx0 in E. rewrite fill_all_cons. apply IH.
  - rewrite E. destruct h; [case_decide; simpl|]; by eauto.
  - destruct Hor as [Hor|(c & t & [<-|Hin]%elem_of_cons)]; [left|left|right; eauto].
    + rewrite E. assert (x0 = mkSlot v [] (s_context x)) as -> by congruence. destruct h; [case_decide|]; done.
    + rewrite E, decide_True by done. simpl. by rewrite Hc.
Qed.

Lemma fill_all_is_some v l w s : is_Some (slots (fill_all v l w) !! s) ↔ is_Some (slots w !! s).
Proof.
  revert w. induction l as [|h l IH]; intros w; [done|]. rewrite fill_all_cons, IH, fill_slots.
  destruct h; [case_decide|]; by rewrite ?fmap_is_Some.
Qed.

Lemma call_listener_run r e h w :
  find_memo w r = Some e → listeners_ok r [h] w → call_listener h w = (Ret tt, fill (m_value e) w h).
Proof.
  intros He Hl. destruct h as [s c t|n]; [|done]. simpl.
  destruct (Hl s c t) as [<- [x Hx]]; [left|].
  erewrite bind_Ret by by apply load_slot_run. erewrite bind_Ret by by apply load_memo_run.
  rewrite (store_slot_run _ _ x) by done. do 3 f_equal. apply map_eq. intros s'.
  destruct (decide (s' = s)) as [->|n]; [by rewrite lookup_insert_eq, lookup_alter_eq, Hx|by rewrite lookup_insert_ne, lookup_alter_ne].
Qed.

Lemma find_memo_fill v l w r : find_memo (fill_all v l w) r = find_memo w r.
Proof. unfold find_memo, types_of. by destruct (fill_all_fields v l w) as (_ & -> & _). Qed.

Lemma call_all_run {A} r e (l : list (A * listener)) w : find_memo w r = Some e → listeners_ok r l.*2 w →
  for_each (λ f, call_listener f.2) l w = (Ret tt, fill_all (m_value e) l.*2 w).
Proof.
  revert w. induction l as [|[a h] l IH]; intros w He Hl; [done|]. cbn [for_each fmap list_fmap].
  erewrite bind_Ret.
  2:{ apply (call_listener_run r e); [done|]. intros s c t Hin%list_elem_of_singleton. apply Hl. rewrite Hin. left. }
  rewrite fill_all_cons. apply IH; [rewrite <-He; exact (find_memo_fill _ [h] w r)|].
  intros s c t Hin. destruct (Hl s c t) as [? [x Hx]]; [by right|]. split; [done|].
  cbn [snd]. rewrite fill_slots, Hx. destruct h; [case_decide|]; by eexists.
Qed.

(** The memo once its signal was raised. *)
Definition satisfied (e : MemoEntry) : MemoEntry :=
  set_onSatisfied (mkOnce signalled [] (next_registration (onSatisfied e))) e.

Lemma put_memo_fill v l r e w : put_memo r e (fill_all v l w) = fill_all v l (put_memo r e w).
Proof.
  revert w. induction l as [|h l IH]; intros w; [done|]. rewrite !fill_all_cons, IH. f_equal. by destruct h.
Qed.

Lemma memo_signal_run r e w :
  find_memo w r = Some e → once_get (onSatisfied e) = false → listeners_ok r (m_fns (onSatisfied e)).*2 w →
  memo_signal r w = (Ret tt, fill_all (m_value e) (m_fns (onSatisfied e)).*2 (put_memo r (satisfied e) w)).
Proof.
  intros He Hg Hl. unfold memo_signal, once_signal. set (o := onSatisfied e) in *.
  assert (∀ w e, find_memo w r = Some e → load_once r w = (Ret (onSatisfied e), w)) as Hload.
  { intros w' e' He'. unfold load_once. by erewrite bind_Ret by by apply load_memo_run. }
  erewrite bind_Ret by by apply Hload. fold o. rewrite Hg.
  erewrite bind_Ret by by apply update_memo_run. set (e1 := set_onSatisfied _ e).
  assert (∀ w', find_memo (put_memo r e1 w') r = Some e1) as He1 by (intros; by rewrite find_put_memo, decide_True).
  erewrite bind_Ret by (apply (call_all_run r e1); [done|exact Hl]).
  erewrite bind_Ret by (apply Hload; by rewrite find_memo_fill).
  unfold store_once. rewrite (update_memo_run _ _ e1) by by rewrite find_memo_fill.
  by rewrite put_memo_fill, put_put_memo.
Qed.

Lemma memo_signal_again r e w :
  find_memo w r = Some e → once_get (onSatisfied e) = true → memo_signal r w = (Ret tt, w).
Proof.
  intros He Hg. unfold memo_signal, once_signal, load_once.
  erewrite bind_Ret by (by erewrite bind_Ret by by apply load_memo_run). by rewrite Hg.
Qed.

(** ** The invariant *)
Section invariant.
  Context (pFromObj : type_id → option (address → option address)).

(** What the object of a descriptor is as a [t]. *)
Definition provides (t : type_id) (d : CoreObjectDescriptor) : option address :=
  f ← pFromObj t; pCoreObject d ≫= f.

(** A descriptor the constructors of CoreObjectDescriptor can build: the object
    casts to its own types, and its pointer has the actual type. *)
Record object_ok (d : CoreObjectDescriptor) : Prop := {
  ob_type : is_Some (provides (type d) d);
  ob_actual : is_Some (provides (actual_type d) d);
  ob_value : value d = mkAny (actual_type d) (provides (actual_type d) d) }.

(** Context [c] or an ancestor holds an object that is a [t]. *)
Definition visible (w : TypeWorld) (c : ctx) (t : type_id) : Prop :=
  ∃ a d, below (tree w) a c = true ∧ d ∈ concrete w a ∧ is_Some (provides t d).

(** The pointer is to an object of [c] or an ancestor, as the type asked for. *)
Definition wired (w : TypeWorld) (c : ctx) (p : any_pointer) : Prop :=
  ∃ a d, below (tree w) a c = true ∧ d ∈ concrete w a ∧ is_Some (m_ptr p) ∧ provides (m_ti p) d = m_ptr p.

(** The memos.  [X c t d]: memo [(c, t)] need not know of [d] yet. *)
Record memos_inv (X : ctx → type_id → CoreObjectDescriptor → Prop) (w : TypeWorld) : Prop := {
  mi_life : life_ok (tree w);
  mi_dom : ∀ c, is_Some (types w !! c) → is_Some (contexts (tree w) !! c);
  mi_memo : ∀ c d, d ∈ concrete w c → is_Some (find_memo w (c, type d));
  mi_object : ∀ c d, d ∈ concrete w c → object_ok d;
  mi_type : ∀ c t e, find_memo w (c, t) = Some e → m_ti (m_value e) = t;
  mi_local : ∀ c t e, find_memo w (c, t) = Some e → m_local e = false → filled (m_value e) = true;
  mi_sound : ∀ c t e p, find_memo w (c, t) = Some e → m_ptr (m_value e) = Some p →
    ∃ a d, below (tree w) a c = true ∧ d ∈ concrete w a ∧ provides t d = Some p ∧ (m_local e = true → a = c);
  mi_complete : ∀ c t e a d, find_memo w (c, t) = Some e → below (tree w) a c = true → d ∈ concrete w a →
    is_Some (provides t d) → X c t d ∨ (filled (m_value e) = true ∧ (a = c → m_local e = true)) }.

(** The signals and slots.  [Y]: memos that have a value but were not signalled;
    [E]: slots under construction. *)
Record signals_inv (Y : list memo_ref) (E : list slot_id) (w : TypeWorld) : Prop := {
  si_once : ∀ r e, find_memo w r = Some e → once_is_executing (onSatisfied e) = false ∧
    (once_get (onSatisfied e) = true → filled (m_value e) = true ∧ m_fns (onSatisfied e) = []) ∧
    (filled (m_value e) = true → once_get (onSatisfied e) = true ∨ r ∈ Y);
  si_regs : ∀ r e, find_memo w r = Some e → NoDup (m_fns (onSatisfied e)).*1 ∧
    ∀ n, n ∈ (m_fns (onSatisfied e)).*1 → n < next_registration (onSatisfied e);
  si_listener : ∀ r e n s c t, find_memo w r = Some e → (n, h_slot s c t) ∈ m_fns (onSatisfied e) →
    (c, t) = r ∧ ∃ x, slots w !! s = Some x ∧ s_context x = Some c ∧ m_ti (s_ptr x) = t ∧ (r, n) ∈ s_notifications x;
  si_slot : ∀ s x c, slots w !! s = Some x → s ∉ E → s_context x = Some c → is_Some (contexts (tree w) !! c) →
    wired w c (s_ptr x) ∨
    ∃ n e, find_memo w (c, m_ti (s_ptr x)) = Some e ∧
           (n, h_slot s c (m_ti (s_ptr x))) ∈ m_fns (onSatisfied e);
  si_notes : ∀ s x r n, slots w !! s = Some x → (r, n) ∈ s_notifications x → s_context x = Some r.1 ∧
    (is_Some (contexts (tree w) !! r.1) → ∃ e, find_memo w r = Some e ∧ n < next_registration (onSatisfied e) ∧
       (once_get (onSatisfied e) = false → n ∈ (m_fns (onSatisfied e)).*1));
  si_notes_nodup : ∀ s x, slots w !! s = Some x → NoDup (s_notifications x);
  si_owner : ∀ s x s' x' r, slots w !! s = Some x → slots w !! s' = Some x' →
    r ∈ s_notifications x → r ∈ s_notifications x' → is_Some (contexts (tree w) !! r.1.1) → s = s';
  si_fresh : ∀ s, is_Some (slots w !! s) → s < next_slot_id w;
  si_context : ∀ s x c, slots w !! s = Some x → s_context x = Some c → c < next_ctx (tree w);
  si_filled : ∀ s x, slots w !! s = Some x → filled (s_ptr x) = true → s_notifications x = [] }.

Definition types_inv X Y E w : Prop := memos_inv X w ∧ signals_inv Y E w.

Lemma memos_weaken (X X' : ctx → type_id → CoreObjectDescriptor → Prop) w :
  (∀ c t d, X c t d → X' c t d) → memos_inv X w → memos_inv X' w.
Proof. intros H []. split; try done. intros c t e a d Hf Hb Hd Hp. destruct (mi_complete0 c t e a d Hf Hb Hd Hp); auto. Qed.

(** Two worlds with the same contexts, objects and slots, whose memos differ in
    values only. *)
Record same_slots (w w' : TypeWorld) : Prop := {
  ss_tree : tree w' = tree w;
  ss_concrete : ∀ c d, d ∈ concrete w c → d ∈ concrete w' c;
  ss_slots : slots w' = slots w ∧ next_slot_id w' = next_slot_id w;
  ss_old : ∀ r e, find_memo w r = Some e → ∃ e', find_memo w' r = Some e' ∧ onSatisfied e' = onSatisfied e;
  ss_new : ∀ r e', find_memo w' r = Some e' →
    (find_memo w r = None ∧ m_fns (onSatisfied e') = []) ∨
    ∃ e, find_memo w r = Some e ∧ onSatisfied e' = onSatisfied e }.

Lemma visible_mono w w' c t : tree w' = tree w → (∀ c d, d ∈ concrete w c → d ∈ concrete w' c) →
  visible w c t → visible w' c t.
Proof. intros E H (a & d & Hb & Hd & Hp). exists a, d. rewrite E. auto. Qed.

Lemma wired_mono w w' c p : tree w' = tree w → (∀ c d, d ∈ concrete w c → d ∈ concrete w' c) →
  wired w c p → wired w' c p.
Proof. intros E H (a & d & Hb & Hd & Hp). exists a, d. rewrite E. auto. Qed.

Lemma wired_visible w c p : wired w c p → filled p = true ∧ visible w c (m_ti p).
Proof.
  intros (a & d & Hb & Hd & Hs & Hp). split; [by apply bool_decide_eq_true|]. exists a, d. by rewrite Hp.
Qed.

Lemma signals_frame Y Y' E w w' : same_slots w w' → signals_inv Y E w →
  (∀ r e, find_memo w' r = Some e → once_is_executing (onSatisfied e) = false ∧
    (once_get (onSatisfied e) = true → filled (m_value e) = true ∧ m_fns (onSatisfied e) = []) ∧
    (filled (m_value e) = true → once_get (onSatisfied e) = true ∨ r ∈ Y')) →
  signals_inv Y' E w'.
Proof.
  intros [Et Ec [Es En] Hold Hnew] [H1 H2 H3 H4 H5 H6 H7 H8 H9 H10] Ho. split; rewrite ?Es, ?En, ?Et; try done.
  - intros r e [[_ ->]|(e0 & He0 & ->)]%Hnew; [|by eapply H2]. split; [constructor|by intros n ?%elem_of_nil].
  - intros r e n s c t [[_ ->]|(e0 & He0 & ->)]%Hnew Hin; [by apply elem_of_nil in Hin|by eapply H3].
  - intros s x c Hs HE Hc Hal. destruct (H4 s x c Hs HE Hc Hal) as [Hv|(n & e & He & Hin)]; [left|right].
    + by eapply wired_mono.
    + destruct (Hold _ _ He) as (e' & He' & Eo). exists n, e'. by rewrite Eo.
  - intros s x r n Hs Hr. destruct (H5 s x r n Hs Hr) as [? H]. split; [done|]. intros Hal.
    destruct (H Hal) as (e & He & ?). destruct (Hold _ _ He) as (e' & He' & Eo). exists e'. by rewrite Eo.
Qed.

(** What raising a signal, or any other step that works on memos, leaves alone. *)
Definition kept (w w' : TypeWorld) : Prop :=
  tree w' = tree w ∧ (∀ c, concrete w' c = concrete w c) ∧ next_slot_id w' = next_slot_id w ∧
  (∀ s, is_Some (slots w' !! s) ↔ is_Some (slots w !! s)).

Lemma kept_refl w : kept w w.
Proof. by split_and!. Qed.

Lemma kept_trans w1 w2 w3 : kept w1 w2 → kept w2 w3 → kept w1 w3.
Proof.
  intros (T1 & C1 & N1 & S1) (T2 & C2 & N2 & S2). split_and!; [congruence| |congruence|].
  - intros c. by rewrite C2.
  - intros s. by rewrite S2.
Qed.

Lemma kept_put r e w : kept w (put_memo r e w).
Proof. split_and!; [done| |done|done]. intros c. apply concrete_put_memo. Qed.

Lemma kept_fill v l w : kept w (fill_all v l w).
Proof.
  destruct (fill_all_fields v l w) as (Et & Ety & En). split_and!; [done| |done|].
  - intros c. unfold concrete, types_of. by rewrite Ety.
  - apply fill_all_is_some.
Qed.

Lemma filled_some p : filled p = true ↔ is_Some (m_ptr p).
Proof. apply bool_decide_eq_true. Qed.

(** The listeners of memo [(c, t)] were called. *)
Lemma signals_filled X Y Y' E w w' c t e :
  memos_inv X w → signals_inv Y E w → find_memo w (c, t) = Some e → filled (m_value e) = true →
  (∀ r', r' ∈ Y → r' = (c, t) ∨ r' ∈ Y') → kept w w' →
  (∀ r', find_memo w' r' = if decide (r' = (c, t)) then Some (satisfied e) else find_memo w r') →
  slots w' = slots (fill_all (m_value e) (m_fns (onSatisfied e)).*2 (put_memo (c, t) (satisfied e) w)) →
  signals_inv Y' E w'.
Proof.
  intros Hm [H1 H2 H3 H4 H5 H6 H7 H8 H9 H10] He Hf HY (Et & Ec & En & Es) Hfind Esl.
  assert (∀ s x', slots w' !! s = Some x' →
    (∃ x n, slots w !! s = Some x ∧ (n, h_slot s c t) ∈ m_fns (onSatisfied e) ∧ s_context x = Some c ∧
       m_ti (s_ptr x) = t ∧ x' = mkSlot (m_value e) [] (Some c)) ∨
    (slots w !! s = Some x' ∧ ∀ n c' t', (n, h_slot s c' t') ∉ m_fns (onSatisfied e))) as Hslot.
  { intros s x' Hx'. rewrite Esl in Hx'.
    destruct (existsb (λ f, match f.2 with h_slot s' _ _ => Nat.eqb s' s | _ => false end) (m_fns (onSatisfied e))) eqn:Hex.
    - apply existsb_exists in Hex as ([n h] & Hin%list_elem_of_In & Eh). simpl in Eh.
      destruct h as [s' c' t'|]; [apply Nat.eqb_eq in Eh as ->|done]. left.
      destruct (H3 _ e n s c' t' He Hin) as ([= -> ->] & x & Hx & Hc & Ht & _). exists x, n.
      split_and!; try done. rewrite <-Hc.
      assert (h_slot s c t ∈ (m_fns (onSatisfied e)).*2) as Hin2 by (by apply (list_elem_of_fmap_2 snd _ (n, h_slot s c t))).
      rewrite (fill_all_in _ _ (put_memo (c, t) (satisfied e) w) s x c t Hx Hin2) in Hx'. congruence.
    - right. assert (∀ n c' t', (n, h_slot s c' t') ∉ m_fns (onSatisfied e)) as Hn'.
      { intros n c' t' Hin%list_elem_of_In. apply not_true_iff_false in Hex. apply Hex, existsb_exists.
        eexists. split; [exact Hin|]. simpl. apply Nat.eqb_refl. }
      split; [|done]. rewrite fill_all_out in Hx'; [done|].
      intros c' t' ([n h] & Eh & Hin)%list_elem_of_fmap. simpl in Eh. subst h. by eapply Hn'. }
  assert (m_ti (m_value e) = t) as Htt by by eapply mi_type.
  split.
  - intros r e'. rewrite Hfind. case_decide as Hr; [intros [= <-]; split_and!; try done; by left|].
    intros He'. destruct (H1 r e' He') as (? & ? & Hy). split_and!; [done|done|]. intros Hf'.
    destruct (Hy Hf') as [?|Hy']; [by left|]. destruct (HY r Hy'); [done|by right].
  - intros r e'. rewrite Hfind. case_decide as Hr; [intros [= <-]|by apply H2].
    split; [constructor|]. by intros n ?%elem_of_nil.
  - intros r e' n s c' t'. rewrite Hfind. case_decide as Hr; [intros [= <-] ?%elem_of_nil; done|].
    intros He' Hin. destruct (H3 r e' n s c' t' He' Hin) as (<- & x & Hx & Hc & Ht & Hno). split; [done|].
    destruct (proj2 (Es s) (ex_intro _ x Hx)) as [x' Hx']. exists x'. split; [done|].
    destruct (Hslot s x' Hx') as [(x0 & n0 & Hx0 & _ & Hc0 & Ht0 & _)|[Hx0 _]]; [|by simplify_eq].
    destruct Hr. congruence.
  - intros s x' c' Hx' HE Hc' Hal. rewrite Et in Hal.
    destruct (Hslot s x' Hx') as [(x0 & n0 & Hx0 & _ & Hc0 & Ht0 & ->)|[Hx0 Hout]].
    + left. simpl in *. injection Hc' as <-.
      apply filled_some in Hf as [p Hp]. destruct (mi_sound _ _ Hm c t e p He Hp) as (a & d & Hb & Hd & Hpr & _).
      exists a, d. rewrite Et, Ec, Htt, Hp. by split_and!.
    + destruct (H4 s x' c' Hx0 HE Hc' Hal) as [Hv|(n & e' & He' & Hin)]; [left|right].
      * eapply wired_mono; [exact Et| |exact Hv]. intros. by rewrite Ec.
      * exists n, e'. rewrite Hfind. case_decide as Hr; [|done]. exfalso.
        injection Hr as -> Hr. rewrite Hr in He'. assert (e' = e) as -> by congruence. by eapply Hout.
  - intros s x' r n Hx' Hin. rewrite Et.
    destruct (Hslot s x' Hx') as [(x0 & n0 & _ & _ & _ & _ & ->)|[Hx0 _]]; [by apply elem_of_nil in Hin|].
    destruct (H5 s x' r n Hx0 Hin) as [Hc H]. split; [done|]. intros Hal. destruct (H Hal) as (e' & He' & Hn & Hr).
    setoid_rewrite Hfind. case_decide as Hrr; [|by exists e']. exists (satisfied e). subst. rewrite He in He'. injection He' as <-.
    by split_and!.
  - intros s x' Hx'. destruct (Hslot s x' Hx') as [(x0 & n0 & _ & _ & _ & _ & ->)|[Hx0 _]]; [constructor|by eapply H6].
  - intros s x s' x' r Hx Hx' Hin Hin'. rewrite Et.
    destruct (Hslot s x Hx) as [(x0 & n0 & _ & _ & _ & _ & ->)|[Hx0 _]]; [by apply elem_of_nil in Hin|].
    destruct (Hslot s' x' Hx') as [(x1 & n1 & _ & _ & _ & _ & ->)|[Hx1 _]]; [by apply elem_of_nil in Hin'|].
    by apply (H7 s x s' x' r).
  - intros s Hx. rewrite En. by apply H8, Es.
  - intros s x' c' Hx' Hc'. rewrite Et. destruct (Hslot s x' Hx') as [(x0 & n0 & Hx0 & _ & Hc0 & _ & ->)|[Hx0 _]];
      [|by eapply H9]. simpl in Hc'. injection Hc' as <-. by eapply H9.
  - intros s x' Hx'. destruct (Hslot s x' Hx') as [(x0 & n0 & _ & _ & _ & _ & ->)|[Hx0 _]]; [done|by eapply H10].
Qed.

Lemma signal_ok X Y Y' E w r e :
  types_inv X Y E w → find_memo w r = Some e → filled (m_value e) = true → once_get (onSatisfied e) = false →
  (∀ r', r' ∈ Y → r' = r ∨ r' ∈ Y') →
  ∃ w', memo_signal r w = (Ret tt, w') ∧ types_inv X Y' E w' ∧ kept w w' ∧
    (∀ r', find_memo w' r' = if decide (r' = r) then Some (satisfied e) else find_memo w r').
Proof.
  intros [Hm Hs] He Hf Hg HY. destruct r as [c t].
  assert (listeners_ok (c, t) (m_fns (onSatisfied e)).*2 w) as Hl.
  { intros s c' t' ([n h] & Eh & Hin)%list_elem_of_fmap. simpl in Eh. subst h.
    destruct (si_listener _ _ _ Hs _ e n s c' t' He Hin) as (? & x & Hx & _). split; [done|by exists x]. }
  set (l := (m_fns (onSatisfied e)).*2) in *. set (w1 := put_memo (c, t) (satisfied e) w).
  exists (fill_all (m_value e) l w1). split; [by apply memo_signal_run|].
  assert (∀ r', find_memo (fill_all (m_value e) l w1) r' = if decide (r' = (c, t)) then Some (satisfied e) else find_memo w r') as Hfind.
  { intros r'. rewrite find_memo_fill. apply find_put_memo. }
  assert (kept w (fill_all (m_value e) l w1)) as Hk by (eapply kept_trans; [apply kept_put|apply kept_fill]).
  split; [|by split]. destruct Hk as (Et & Ec & En & Es).
  assert (∀ r' e', find_memo (fill_all (m_value e) l w1) r' = Some e' →
    ∃ e0, find_memo w r' = Some e0 ∧ m_value e' = m_value e0 ∧ m_local e' = m_local e0) as Hval.
  { intros r' e'. rewrite Hfind. case_decide as H; [intros [= <-]; subst; by exists e|by exists e']. }
  split.
  - destruct Hm as [M1 M2 M3 M4 M5 ML M6 M7]. split; rewrite ?Et; try done.
    + intros c'. destruct (fill_all_fields (m_value e) l w1) as (_ & -> & _).
      intros [->|?]%dom_put_memo; [|by apply M2]. simpl. apply M2. unfold find_memo, types_of in He. simpl in He.
      destruct (types w !! c); [by eexists|done].
    + intros c' d Hd. rewrite Ec in Hd. rewrite Hfind. case_decide; [by eexists|by apply M3].
    + intros c' d Hd. rewrite Ec in Hd. by eapply M4.
    + intros c' t' e' (e0 & He0 & -> & _)%Hval. by eapply M5.
    + intros c' t' e' (e0 & He0 & -> & ->)%Hval. by eapply ML.
    + intros c' t' e' p (e0 & He0 & -> & ->)%Hval Hp. setoid_rewrite Ec. by eapply M6.
    + intros c' t' e' a d (e0 & He0 & -> & ->)%Hval Hb Hd. rewrite Ec in Hd. by eapply M7.
  - by eapply (signals_filled X Y).
Qed.

(** ** Looking up *)
Lemma put_memo_id r e w : find_memo w r = Some e → put_memo r e w = w.
Proof.
  destruct r as [c t]. unfold find_memo, put_memo, update_types, types_of. simpl. intros H.
  destruct (types w !! c) as [ct|] eqn:Ec; [|done]. simpl in *.
  rewrite (insert_id (m_typeMemos ct) t e) by done. assert (mkTypes (m_typeMemos ct) (m_concreteTypes ct) = ct) as -> by by destruct ct.
  rewrite insert_id by done. by destruct w.
Qed.

(** The memo after the loop over the objects [l]: still empty, or with the one
    object that is a [t]. *)
Definition resolved (t : type_id) (l : list CoreObjectDescriptor) (e e' : MemoEntry) : Prop :=
  (e' = e ∧ ∀ d, d ∈ l → provides t d = None) ∨
  (∃ d p, d ∈ l ∧ provides t d = Some p ∧ m_value e' = mkAny t (Some p) ∧ m_local e' = true ∧
    once_m_state (onSatisfied e') = signalled ∧ m_fns (onSatisfied e') = []).

Definition never {A} (e : exn) (s : A) : Prop := False.
Definition only_ambiguous {A} (e : exn) (s : A) : Prop := e = ambiguous_error.

Lemma cast_provides t d : match cast pFromObj t (pCoreObject d) with Some (Some p) => Some p | _ => None end = provides t d.
Proof. unfold cast, provides. destruct (pFromObj t) as [f|]; simpl; [|done]. by destruct (pCoreObject d ≫= f). Qed.

Lemma resolve_second r l w e : find_memo w r = Some e → is_Some (pObjTraits e) → once_get (onSatisfied e) = true →
  (∀ d, d ∈ l → type d ≠ r.2) →
  wp (resolve pFromObj r l) (λ _ w', w' = w) only_ambiguous w.
Proof.
  intros He [d0 Hd0] Hg. induction l as [|d l IH]; intros Hl; cbn [resolve]; [by apply wp_ret|].
  destruct (Nat.eqb_spec r.2 (type d)) as [Heq|_]; [exfalso; by apply (Hl d); [left|]|].
  pose proof (cast_provides r.2 d) as Hcast.
  destruct (cast pFromObj r.2 (pCoreObject d)) as [[p|]|].
  - eapply wp_bind_run.
    { erewrite bind_Ret by by eapply memo_signal_again. by erewrite bind_Ret by by apply update_memo_run. }
    eapply wp_bind_run; [by apply load_memo_run; rewrite find_put_memo, decide_True|]. simpl. rewrite Hd0. by apply wp_throw.
  - eapply wp_bind_run; [done|]. simpl. apply IH. intros d' Hd'. apply Hl. by right.
  - eapply wp_bind_run; [done|]. simpl. apply IH. intros d' Hd'. apply Hl. by right.
Qed.

Lemma resolve_run r l w e : find_memo w r = Some e → pObjTraits e = None → once_m_state (onSatisfied e) = unsignalled →
  m_fns (onSatisfied e) = [] → m_ti (m_value e) = r.2 → (∀ d, d ∈ l → type d ≠ r.2) →
  wp (resolve pFromObj r l) (λ _ w', ∃ e', w' = put_memo r e' w ∧ resolved r.2 l e e') only_ambiguous w.
Proof.
  intros He Hd Hg Hf Hti. assert (once_get (onSatisfied e) = false) as Hget by (unfold once_get; by rewrite Hg).
  induction l as [|d l IH]; intros Hl; cbn [resolve].
  { apply wp_ret. exists e. rewrite put_memo_id by done. split; [done|]. left. split; [done|]. by intros d' ?%elem_of_nil. }
  destruct (Nat.eqb_spec r.2 (type d)) as [Heq|_]; [exfalso; by apply (Hl d); [left|]|].
  pose proof (cast_provides r.2 d) as Hcast.
  assert (∀ d', d' ∈ l → type d' ≠ r.2) as Hl' by (intros d' Hd'; apply Hl; by right).
  assert (provides r.2 d = None → wp (resolve pFromObj r l)
    (λ _ w', ∃ e', w' = put_memo r e' w ∧ resolved r.2 (d :: l) e e') only_ambiguous w) as Hskip.
  { intros Hn. eapply wp_conseq; [by apply IH| |done]. intros [] w' (e' & -> & He'). exists e'. split; [done|].
    destruct He' as [[-> Hno]|(d' & p & Hin & ?)]; [left|right].
    - split; [done|]. by intros d' [->|Hin]%elem_of_cons; [|apply Hno].
    - exists d', p. split; [by right|done]. }
  destruct (cast pFromObj r.2 (pCoreObject d)) as [[p|]|]; [|by eapply wp_bind_run; [done|]; apply Hskip..].
  set (e1 := set_local true (set_value (assign_ptr (Some p) (m_value (satisfied e))) (satisfied e))).
  eapply wp_bind_run.
  { erewrite bind_Ret.
    2:{ apply (memo_signal_run _ _ _ He Hget). rewrite Hf. by intros ? ? ? ?%elem_of_nil. }
    rewrite Hf. cbn [fmap list_fmap fill_all foldl].
    erewrite bind_Ret by (by apply update_memo_run; rewrite find_put_memo, decide_True).
    rewrite put_put_memo. fold e1. reflexivity. }
  cbn iota. eapply wp_bind_run; [by apply load_memo_run; rewrite find_put_memo, decide_True|].
  simpl. rewrite Hd. eapply wp_bind_run; [by apply update_memo_run; rewrite find_put_memo, decide_True|].
  rewrite put_put_memo. set (e2 := set_pObjTraits (Some d) e1).
  eapply wp_conseq; [apply (resolve_second r l _ e2)| |done]; try done.
  - by rewrite find_put_memo, decide_True.
  - intros [] w' ->. exists e2. split; [done|]. right. exists d, p. split_and!; try done; [left|].
    simpl. unfold assign_ptr. simpl. by rewrite Hti.
Qed.

(** A memo that nobody listens to is put in place, or changed. *)
Definition quiet_change (w : TypeWorld) (c : ctx) (t : type_id) (e' : MemoEntry) : Prop :=
  match find_memo w (c, t) with
  | None => True
  | Some e => m_fns (onSatisfied e) = [] ∧ next_registration (onSatisfied e') = next_registration (onSatisfied e) ∧
              (once_get (onSatisfied e') = false → once_get (onSatisfied e) = false)
  end.

Record quiet_memo (w : TypeWorld) (c : ctx) (t : type_id) (e' : MemoEntry) : Prop := {
  qm_fns : m_fns (onSatisfied e') = [];
  qm_idle : once_is_executing (onSatisfied e') = false;
  qm_filled : once_get (onSatisfied e') = filled (m_value e');
  qm_type : m_ti (m_value e') = t;
  qm_local : m_local e' = false → filled (m_value e') = true;
  qm_sound : ∀ p, m_ptr (m_value e') = Some p →
    ∃ a d, below (tree w) a c = true ∧ d ∈ concrete w a ∧ provides t d = Some p ∧ (m_local e' = true → a = c) }.

(** Memo [(c, t)] is exempt from knowing of the objects in sight. *)
Definition with_open (c : ctx) (t : type_id) (X : ctx → type_id → CoreObjectDescriptor → Prop) c' t' d : Prop :=
  X c' t' d ∨ (c' = c ∧ t' = t).

Lemma inv_put X E w c t e' : types_inv X [] E w → is_Some (contexts (tree w) !! c) →
  quiet_change w c t e' → quiet_memo w c t e' →
  types_inv (with_open c t X) [] E (put_memo (c, t) e' w).
Proof.
  intros [Hm [H1 H2 H3 H4 H5 H6 H7 H8 H9 H10]] Hc Hq [Q1 Q2 Q3 Q4 QL Q5].
  set (w' := put_memo (c, t) e' w).
  assert (∀ r, find_memo w' r = if decide (r = (c, t)) then Some e' else find_memo w r) as Hfind by (intros; apply find_put_memo).
  assert (∀ c, concrete w' c = concrete w c) as Ec by (intros; apply concrete_put_memo).
  split.
  - destruct Hm as [M1 M2 M3 M4 M5 ML M6 M7]. split; try done.
    + intros c' [->|?]%dom_put_memo; [done|by apply M2].
    + intros c' d Hd. rewrite Ec in Hd. rewrite Hfind. case_decide; [by eexists|by apply M3].
    + intros c' d Hd. rewrite Ec in Hd. by eapply M4.
    + intros c' t' e. rewrite Hfind. case_decide as H; [intros [= <-]; by injection H as -> ->|by apply M5].
    + intros c' t' e. rewrite Hfind. case_decide as H; [by intros [= <-]|by apply ML].
    + intros c' t' e p. rewrite Hfind. case_decide as H; setoid_rewrite Ec; [intros [= <-]; injection H as -> ->; apply Q5|by apply M6].
    + intros c' t' e a d. rewrite Hfind, Ec. case_decide as H; [injection H as -> ->; intros; left; by right|].
      intros He Hb Hd Hp. destruct (M7 c' t' e a d He Hb Hd Hp); [left; by left|by right].
  - assert (∀ n h e, find_memo w (c, t) = Some e → (n, h) ∉ m_fns (onSatisfied e)) as Hnone.
    { intros n h e He. unfold quiet_change in Hq. rewrite He in Hq. destruct Hq as [-> _]. apply not_elem_of_nil. }
    split; try done.
    + intros r e. rewrite Hfind. case_decide as H; [intros [= <-]|by apply H1].
      split_and!; [done| |]; rewrite Q3; [done|by left].
    + intros r e. rewrite Hfind. case_decide as H; [intros [= <-]; rewrite Q1|by apply H2].
      split; [constructor|]. by intros n ?%elem_of_nil.
    + intros r e n s c' t'. rewrite Hfind. case_decide as H; [intros [= <-]; by rewrite Q1; intros ?%elem_of_nil|by apply H3].
    + intros s x c' Hs HE Hx Hal. destruct (H4 s x c' Hs HE Hx Hal) as [Hv|(n & e & He & Hin)]; [left|right].
      * eapply wired_mono; [| |exact Hv]; [done|]. intros. by rewrite Ec.
      * exists n, e. rewrite Hfind. case_decide as H; [|done]. exfalso. injection H as -> Et. rewrite Et in *. by eapply Hnone.
    + intros s x r n Hs Hr. destruct (H5 s x r n Hs Hr) as [? H]. split; [done|]. intros Hal.
      destruct (H Hal) as (e & He & Hn & Hg). rewrite Hfind. case_decide as Hrr; [|by exists e].
      exists e'. subst. unfold quiet_change in Hq. rewrite He in Hq. destruct Hq as (Ef & -> & Hgg). split_and!; [done|done|].
      intros Hg'. specialize (Hg (Hgg Hg')). rewrite Ef in Hg. by apply elem_of_nil in Hg.
Qed.

Lemma inv_close X Y E w c t e : types_inv (with_open c t X) Y E w → find_memo w (c, t) = Some e →
  (∀ a d, below (tree w) a c = true → d ∈ concrete w a → is_Some (provides t d) → X c t d ∨
     (filled (m_value e) = true ∧ (a = c → m_local e = true))) → types_inv X Y E w.
Proof.
  intros [[M1 M2 M3 M4 M5 ML M6 M7] Hs] He H. split; [|done]. split; try done.
  intros c' t' e' a d He' Hb Hd Hp. destruct (M7 c' t' e' a d He' Hb Hd Hp) as [[|[-> ->]]|]; [by left| |by right].
  rewrite He in He'. injection He' as <-. by apply H.
Qed.

Lemma below_trans w a b c : older w → below w a b = true → below w b c = true → below w a c = true.
Proof.
  intros Ho Hab. induction c as [c IH] using lt_wf_ind. rewrite (below_unfold w b c), (below_unfold w a c) by done.
  intros [->%Nat.eqb_eq|H]%orb_true_iff; [by rewrite <-below_unfold|].
  destruct (parent_of w c) as [p|] eqn:Ep; [|done]. apply Ho in Ep. apply orb_true_iff. right. by apply IH.
Qed.

Lemma below_parent w a c p : older w → parent_of w c = Some p → below w a c = true ↔ a = c ∨ below w a p = true.
Proof.
  intros Ho Hp. rewrite below_unfold, Hp, orb_true_iff, Nat.eqb_eq by done. split; intros [?|?]; auto.
Qed.

Lemma below_root w a c : older w → parent_of w c = None → below w a c = true ↔ a = c.
Proof.
  intros Ho Hp. rewrite below_unfold, Hp, orb_true_iff, Nat.eqb_eq by done. split; [by intros [->|?]|by left].
Qed.

Lemma types_older X w : memos_inv X w → older (tree w).
Proof. intros Hm. apply settled_older, lf_settled, (mi_life _ _ Hm). Qed.

(** What a search returns: the memo asked for, or one of an ancestor that has a
    value. *)
Record found (X : ctx → type_id → CoreObjectDescriptor → Prop) (E : list slot_id) (w : TypeWorld)
    (c : ctx) (t : type_id) (r : memo_ref) (w' : TypeWorld) : Prop := {
  fd_inv : types_inv X [] E w';
  fd_kept : tree w' = tree w ∧ (∀ c, concrete w' c = concrete w c) ∧ slots w' = slots w ∧
            next_slot_id w' = next_slot_id w ∧ notified w' = notified w;
  fd_old : ∀ r e, find_memo w r = Some e → find_memo w' r = Some e;
  fd_memo : is_Some (find_memo w' (c, t));
  fd_result : r.2 = t ∧ below (tree w) r.1 c = true ∧
    ∃ e, find_memo w' r = Some e ∧ (r = (c, t) ∨ filled (m_value e) = true) }.

(** Memo [(c, t)] is exempt from knowing of objects that are not in [l]. *)
Definition open_above (c : ctx) (t : type_id) (l : list CoreObjectDescriptor)
    (X : ctx → type_id → CoreObjectDescriptor → Prop) c' t' d : Prop :=
  X c' t' d ∨ (c' = c ∧ t' = t ∧ d ∉ l).

Definition when_open (b : bool) c t l X := if b then open_above c t l X else X.

Lemma FindByType_ok nonrecursive fuel : ∀ X E w c t,
  types_inv X [] E w → is_Some (contexts (tree w) !! c) → c < fuel →
  (nonrecursive = false → ∀ a d, below (tree w) a c = true → ¬ X a t d) →
  wp (FindByType pFromObj fuel c t nonrecursive)
    (λ r w', found (when_open nonrecursive c t (concrete w c) X) E w c t r w' ∧ (nonrecursive = true → r = (c, t)))
    only_ambiguous w.
Proof.
  induction fuel as [|fuel IH]; intros X E w c t Hi [cx Hcx] Hf HX; [lia|].
  pose proof (types_older _ _ (proj1 Hi)) as Ho. cbn [FindByType].
  eapply wp_bind_run; [done|]. destruct (find_memo w (c, t)) as [e|] eqn:He.
  { apply wp_ret. split; [|done]. split; try done.
    - destruct nonrecursive; [|done]. destruct Hi as [Hm Hs]. split; [|done].
      eapply memos_weaken; [|exact Hm]. intros; by left.
    - split_and!; [done|apply below_refl|]. exists e. split; [done|by left]. }
  eapply wp_bind_run; [done|]. set (e0 := set_value (assign_type t) MemoEntry_new). set (w1 := put_memo (c, t) e0 w).
  assert (∀ d, d ∈ concrete w c → type d ≠ t) as Hty.
  { intros d Hd <-. destruct (mi_memo _ _ (proj1 Hi) c d Hd). congruence. }
  apply wp_bind. eapply wp_conseq; [apply (resolve_run (c, t) (concrete w c) w1 e0)| |done]; try done.
  { unfold w1. by rewrite find_put_memo, decide_True. }
  intros [] w2 (e' & -> & Hres). change (c, t).2 with t in Hres. unfold w1. rewrite put_put_memo. set (w2 := put_memo (c, t) e' w).
  assert (∀ r, find_memo w2 r = if decide (r = (c, t)) then Some e' else find_memo w r) as Hf2 by (intros; apply find_put_memo).
  assert (∀ c, concrete w2 c = concrete w c) as Ec2 by (intros; apply concrete_put_memo).
  assert (find_memo w2 (c, t) = Some e') as He2 by by rewrite Hf2, decide_True.
  assert (∀ r e, find_memo w r = Some e → find_memo w2 r = Some e) as Hold2.
  { intros r e Hr. rewrite Hf2, decide_False; [done|]. intros ->. congruence. }
  assert (types_inv (with_open c t X) [] E w2) as Hi2.
  { apply inv_put; [done|by exists cx|by unfold quiet_change; rewrite He|].
    destruct Hres as [[-> _]|(d & p & Hd & Hp & Hv & Hl & Hs & Hfn)]; split; try done.
    - unfold once_is_executing. by rewrite Hs.
    - unfold once_get, filled. rewrite Hs, Hv. done.
    - by rewrite Hv.
    - by rewrite Hl.
    - intros p' Hp'. rewrite Hv in Hp'. simpl in Hp'. exists c, d. split_and!; [apply below_refl|done|by rewrite <-Hp'|done]. }
  eapply wp_bind_run; [by apply load_memo_run|].
  eapply wp_bind_run; [by apply context_tree_run|].
  assert (∀ X', types_inv X' [] E w2 → found X' E w c t (c, t) w2) as Hfound.
  { intros X' HX'. split; try done. split_and!; [done|apply below_refl|]. exists e'. split; [done|by left]. }
  destruct nonrecursive; cbn [orb].
  { apply wp_ret. split; [|done]. apply Hfound, (inv_close _ _ _ _ c t e').
    - destruct Hi2 as [Hm2 Hs2]. split; [|done]. eapply memos_weaken; [|exact Hm2].
      intros c' t' d' [Hx|[-> ->]]; [by left; left|by right].
    - done.
    - intros a d _ Hd Hp. destruct (decide (d ∈ concrete w c)) as [Hin|Hin]; [right|by left; right].
      destruct Hres as [[-> Hnone]|(d' & p & _ & _ & Hv & Hl & _)]; [by rewrite (Hnone d Hin) in Hp; destruct Hp|].
      unfold filled. by rewrite Hv. }
  specialize (HX eq_refl). cbn [when_open] in *.
  destruct (filled (m_value e')) eqn:Efl.
  { apply wp_ret. split; [|done]. apply Hfound, (inv_close _ _ _ _ c t e'); [done|done|].
    intros a d _ _ _. right. split; [done|]. intros _.
    destruct Hres as [[-> _]|(_ & _ & _ & _ & _ & ? & _)]; done. }
  destruct Hres as [[-> Hnone]|(d & p & _ & _ & Hv & _)]; [|by rewrite Hv in Efl].
  assert (parent_of (tree w) c = m_pParent cx) as Hpar by (unfold parent_of; by rewrite Hcx).
  destruct (m_pParent cx) as [p|] eqn:Hp.
  2:{ apply wp_ret. split; [|done]. apply Hfound, (inv_close _ _ _ _ c t e0); [done|done|].
      intros a d Hb Hd Hpr. apply below_root in Hb as ->; [|done..]. rewrite Ec2 in Hd. rewrite (Hnone d Hd) in Hpr.
      by destruct Hpr. }
  destruct (to_parent _ (st_tree _ (lf_settled _ (mi_life _ _ (proj1 Hi)))) c cx p Hcx Hp) as (Hlt & _ & px & Hpx & _).
  assert (∀ a d, below (tree w2) a p = true → ¬ with_open c t X a t d) as HX2.
  { intros a d Hb [HXa|[-> _]].
    - apply (HX a d); [|done]. apply (below_parent _ _ _ p); auto.
    - apply below_le in Hb; [lia|done]. }
  apply wp_bind. eapply wp_conseq; [apply (IH (with_open c t X) E w2 p t Hi2)| |done]; [by exists px|lia|done|].
  intros loc w3 [[Hi3 (Et3 & Ec3 & Es3 & En3 & Eno3) Hold3 [mp Hmp] (Hr2 & Hrb & pe & Hpe & Hor)] _]. cbn [when_open] in *.
  assert (tree w3 = tree w) as Et3' by done.
  assert (find_memo w3 (c, t) = Some e0) as He3 by by apply Hold3.
  eapply wp_bind_run; [by apply load_memo_run|].
  destruct (filled (m_value pe)) eqn:Efp.
  - eapply wp_bind_run; [by apply update_memo_run|]. set (e1 := set_local false (set_pObjTraits (pObjTraits pe) (set_value (m_value pe) e0))).
    eapply wp_bind_run.
    { eapply (memo_signal_run _ e1); [by rewrite find_put_memo, decide_True|done|]. by intros ? ? ? ?%elem_of_nil. }
    cbn [fmap list_fmap fill_all foldl m_fns onSatisfied]. simpl fill_all. rewrite put_put_memo.
    assert (loc.1 < c) as Hlc by (apply below_le in Hrb; [simpl in Hrb; lia|done]).
    apply wp_ret. split; [|done]. set (w4 := put_memo (c, t) (satisfied e1) w3).
    assert (∀ r, find_memo w4 r = if decide (r = (c, t)) then Some (satisfied e1) else find_memo w3 r) as Hf4 by (intros; apply find_put_memo).
    assert (∀ c, concrete w4 c = concrete w c) as Ec4.
    { intros c'. unfold w4. by rewrite concrete_put_memo, Ec3. }
    split; try done.
    + apply (inv_close _ _ _ _ c t (satisfied e1)); [|by rewrite Hf4, decide_True|].
      * assert (types_inv (with_open c t (with_open c t X)) [] E w4) as Hi4.
        { apply inv_put; [done|rewrite Et3; by exists cx|by unfold quiet_change; rewrite He3|].
          split; try done.
          - destruct loc as [lc lt]. simpl in Hr2. subst lt. exact (mi_type _ _ (proj1 Hi3) lc t pe Hpe).
          - intros q Hq. destruct loc as [lc lt]. simpl in Hr2. subst lt.
            destruct (mi_sound _ _ (proj1 Hi3) lc t pe q Hpe Hq) as (a & d & Hb & Hd & Hpq & _).
            exists a, d. split_and!; [|done|done|done]. rewrite Et3' in *.
            apply (below_parent _ _ _ p); [done|done|]. right. by eapply below_trans. }
        destruct Hi4 as [Hm4 Hs4]. split; [|done]. eapply memos_weaken; [|exact Hm4].
        intros ? ? ? [?|?]; [done|by right].
      * intros a d Hb Hd Hpr. right. split; [done|]. intros ->. rewrite Ec4 in Hd. rewrite (Hnone d Hd) in Hpr. by destruct Hpr.
    + intros r e Hr. rewrite Hf4, decide_False; [by apply Hold3, Hold2|]. intros ->. congruence.
    + rewrite Hf4, decide_True by done. by eexists.
    + split_and!; [done|apply (below_parent _ _ _ p); auto|]. exists pe. split; [|by right].
      rewrite Hf4, decide_False; [done|]. intros ->. simpl in Hlc. lia.
  - destruct Hor as [->|]; [|congruence]. apply wp_ret. split; [|done]. split; try done.
    + apply (inv_close _ _ _ _ c t e0); [done|done|]. intros a d Hb Hd Hpr. rewrite Ec3, Ec2 in Hd. rewrite Et3' in Hb.
      apply (below_parent _ _ _ p) in Hb as [->|Hb]; [| |done|done].
      { rewrite (Hnone d Hd) in Hpr. by destruct Hpr. }
      exfalso. destruct (mi_complete _ _ (proj1 Hi3) p t pe a d Hpe) as [Hx|[? _]]; [by rewrite Et3'|by rewrite Ec3, Ec2|done| |congruence].
      by apply (HX2 p d); [apply below_refl|].
    + split_and!; [congruence| |done|done|done]. intros c'. by rewrite Ec3.
    + intros r e Hr. by apply Hold3, Hold2.
    + split_and!; [done|apply below_refl|]. exists e0. split; [done|by left].
Qed.

(** ** Telling the memos of a new object *)
Section update.
  Context (d : CoreObjectDescriptor) (o : ctx).

Definition assigned (local : bool) (e : MemoEntry) : MemoEntry := default e (try_entry pFromObj d local e).

Lemma try_entry_some local e : 
  try_entry pFromObj d local e =
    if filled (m_value e) && m_local e then None
    else (λ p, set_local local (set_pObjTraits (Some d) (set_value (assign_ptr (Some p) (m_value e)) e))) <$>
           provides (m_ti (m_value e)) d.
Proof.
  unfold try_entry. rewrite <-cast_provides. destruct (_ && _); [done|].
  by destruct (cast _ _ _) as [[]|].
Qed.

Lemma assigned_fields local e : onSatisfied (assigned local e) = onSatisfied e ∧ m_ti (m_value (assigned local e)) = m_ti (m_value e).
Proof.
  unfold assigned. rewrite try_entry_some. destruct (_ && _); [done|]. by destruct (provides _ _).
Qed.

Definition tell (c : ctx) (local : bool) (w : TypeWorld) : TypeWorld :=
  update_types c (λ t, mkTypes (assigned local <$> m_typeMemos t) (m_concreteTypes t)) w.

Lemma find_tell c local w c' t : find_memo (tell c local w) (c', t) =
  if decide (c' = c) then assigned local <$> find_memo w (c', t) else find_memo w (c', t).
Proof.
  unfold find_memo, tell, update_types, types_of. simpl. case_decide as H.
  - subst. rewrite lookup_insert_eq. simpl. by rewrite lookup_fmap.
  - by rewrite lookup_insert_ne.
Qed.

Lemma concrete_tell c local w c' : concrete (tell c local w) c' = concrete w c'.
Proof.
  unfold concrete, tell, update_types, types_of. simpl.
  destruct (decide (c' = c)) as [->|n]; [by rewrite lookup_insert_eq|by rewrite lookup_insert_ne].
Qed.

(** The memos the object is assigned to. *)
Definition entries (c : ctx) (local : bool) (w : TypeWorld) : list type_id :=
  (map_to_list (omap (try_entry pFromObj d local) (m_typeMemos (types_of w c)))).*1.

Lemma elem_of_entries c local w t : t ∈ entries c local w ↔
  ∃ e, find_memo w (c, t) = Some e ∧ is_Some (try_entry pFromObj d local e).
Proof.
  unfold entries, find_memo. simpl. rewrite list_elem_of_fmap. split.
  - intros ([t' e'] & -> & Hin). apply elem_of_map_to_list in Hin. rewrite lookup_omap in Hin.
    simpl. destruct (_ !! t') as [e|] eqn:E; [|done]. exists e. split; [done|by exists e'].
  - intros (e & He & e' & He'). exists (t, e'). split; [done|]. apply elem_of_map_to_list. by rewrite lookup_omap, He.
Qed.

Definition without_object (X : ctx → type_id → CoreObjectDescriptor → Prop) (c : ctx → bool) c' t d' : Prop :=
  X c' t d' ∧ ¬ (c c' = true ∧ is_Some (provides t d)).

Lemma tell_ok X E w c local : types_inv X [] E w → is_Some (contexts (tree w) !! c) →
  d ∈ concrete w o → below (tree w) o c = true → (local = true ↔ c = o) →
  (∀ t d', X c t d' → c = o ∨ d' ∉ concrete w c) →
  types_inv (without_object X (Nat.eqb c)) (pair c <$> entries c local w) E (tell c local w).
Proof.
  intros [Hm Hs] Hc Hd Hb Hloc HX.
  assert (∀ c' t e', find_memo (tell c local w) (c', t) = Some e' → ∃ e, find_memo w (c', t) = Some e ∧
    (e' = e ∧ (c' = c → filled (m_value e) = true ∧ m_local e = true ∨ provides t d = None) ∨
     c' = c ∧ t ∈ entries c local w ∧ filled (m_value e) && m_local e = false ∧
     ∃ p, provides t d = Some p ∧ e' = set_local local (set_pObjTraits (Some d) (set_value (mkAny t (Some p)) e)))) as Hback.
  { intros c' t e'. rewrite find_tell. case_decide as H; [subst c'|intros ?; exists e'; split; [done|]; left; split; [done|congruence]].
    destruct (find_memo w (c, t)) as [e|] eqn:He; [|done]. simpl. intros [= <-]. exists e. split; [done|].
    unfold assigned. pose proof (try_entry_some local e) as Et. rewrite (mi_type _ _ Hm c t e He) in Et. rewrite Et.
    destruct (filled (m_value e) && m_local e) eqn:Ef; [left; apply andb_true_iff in Ef as [? ?]; split; [done|by left]|].
    destruct (provides t d) as [p|] eqn:Ep; simpl in *; [|left; split; [done|by right]].
    right. split; [done|]. split; [apply elem_of_entries; exists e; split; [done|]; rewrite Et; by eexists|]. split; [done|].
    exists p. split; [done|]. unfold assign_ptr. by rewrite (mi_type _ _ Hm c t e He). }
  split.
  - destruct Hm as [M1 M2 M3 M4 M5 ML M6 M7]. split; try done.
    + intros c'. unfold tell, update_types. simpl. rewrite lookup_insert_is_Some. intros [<-|[_ ?]]; [done|by apply M2].
    + intros c' d'. rewrite concrete_tell. intros Hd'. rewrite find_tell. case_decide; [|by apply M3].
      apply fmap_is_Some. by apply M3.
    + intros c' d'. rewrite concrete_tell. apply M4.
    + intros c' t e' (e & He & [[-> _]|(-> & _ & _ & p & _ & ->)])%Hback; [by eapply M5|done].
    + intros c' t e' (e & He & [[-> _]|(-> & _ & _ & p & _ & ->)])%Hback; [by eapply ML|done].
    + intros c' t e' p (e & He & [[-> _]|(-> & _ & _ & q & Hq & ->)])%Hback Hp; setoid_rewrite concrete_tell; [by eapply M6|].
      simpl in *. injection Hp as <-. exists o, d. split_and!; try done. intros ->. by symmetry; apply Hloc.
    + intros c' t e' a d' (e & He & Hcase)%Hback Hba. rewrite concrete_tell. intros Hd' Hp.
      pose proof (M7 c' t e a d' He Hba Hd' Hp) as Hold.
      destruct Hcase as [[-> Hno]|(-> & _ & Hfl & p & Hpd & ->)].
      * destruct Hold as [Hx|Hold]; [|by right]. destruct (decide (c' = c)) as [->|n].
        -- destruct (Hno eq_refl) as [[? ?]|Hn]; [by right|]. left. split; [done|]. rewrite Hn. intros [_ []]; done.
        -- left. split; [done|]. intros [?%Nat.eqb_eq _]. congruence.
      * right. split; [done|]. simpl. intros ->. destruct local; [done|].
        destruct Hold as [Hx|[Hf Hl]].
        -- destruct (HX t d' Hx) as [Heq|]; [|done]. by apply Hloc in Heq.
        -- rewrite Hf, Hl in Hfl by done. done.
  - apply (signals_frame [] _ E w).
    + split; try done.
      * intros c' d'. by rewrite concrete_tell.
      * intros [c' t] e He. rewrite find_tell. case_decide as H; [subst|by exists e]. rewrite He. simpl.
        eexists. split; [done|]. apply assigned_fields.
      * intros [c' t] e' He'. right. destruct (Hback c' t e' He') as (e & He & [[-> _]|(_ & _ & _ & p & _ & ->)]); by exists e.
    + done.
    + intros [c' t] e' (e & He & Hcase)%Hback. destruct (si_once _ _ _ Hs _ e He) as (H1 & H2 & H3).
      destruct Hcase as [[-> _]|(-> & Hin & Hfl & p & Hp & ->)].
      * split_and!; [done|done|]. intros Hf. destruct (H3 Hf) as [?|?%elem_of_nil]; [by left|done].
      * simpl. split_and!; [done|intros Hg; by destruct (H2 Hg)|]. intros _. right. by apply list_elem_of_fmap_2.
Qed.

(** Raising the signals of the memos assigned to. *)
Lemma signal_all_ok X E c l : ∀ w, types_inv X (pair c <$> l) E w →
  (∀ t, t ∈ l → ∃ e, find_memo w (c, t) = Some e ∧ filled (m_value e) = true) →
  wp (for_each (λ t, memo_signal (c, t)) l)
    (λ _ w', types_inv X [] E w' ∧ kept w w' ∧ ∀ r, is_Some (find_memo w' r) ↔ is_Some (find_memo w r)) never w.
Proof.
  induction l as [|t l IH]; intros w Hi Hl; cbn [for_each]; [by apply wp_ret|].
  destruct (Hl t) as (e & He & Hf); [left|]. destruct (once_get (onSatisfied e)) eqn:Hg.
  - eapply wp_bind_run; [by eapply memo_signal_again|]. apply IH; [|intros t' Ht'; apply Hl; by right].
    destruct Hi as [Hm [H1 H2 H3 H4 H5 H6 H7 H8 H9 H10]]. split; [done|]. split; try done.
    intros r e' He'. destruct (H1 r e' He') as (? & ? & Hy). split_and!; [done|done|]. intros Hf'.
    destruct (Hy Hf') as [?|Hin]; [by left|]. cbn in Hin. apply elem_of_cons in Hin as [->|?]; [|by right].
    left. congruence.
  - destruct (signal_ok X (pair c <$> (t :: l)) (pair c <$> l) E w (c, t) e Hi He Hf Hg) as (w1 & E1 & Hi1 & Hk1 & Hf1).
    { intros r' Hr'. cbn in Hr'. by apply elem_of_cons in Hr'. }
    eapply wp_bind_run; [done|]. eapply wp_conseq; [apply IH; [done|]| |done].
    + intros t' Ht'. destruct (Hl t') as (e' & He' & Hfe'); [by right|]. rewrite Hf1. case_decide as H; [|by exists e'].
      exists (satisfied e). split; [done|exact Hf].
    + intros [] w' (Hi' & Hk' & Hm'). split; [done|]. split; [by eapply kept_trans|]. intros r. rewrite Hm', Hf1.
      case_decide as H; [subst; rewrite He; by split|done].
Qed.

Lemma children_run c x w : contexts (tree w) !! c = Some x → children c w = (Ret (live_children (tree w) x), w).
Proof. intros Hx. unfold children. by erewrite bind_Ret by by apply context_tree_run. Qed.

(** The part of the subtree of [c] that is told before the children [l]. *)
Definition told_before (t : World) (c : ctx) (l : list ctx) (c' : ctx) : bool :=
  below t c c' && negb (existsb (λ q, below t q c') l).

Lemma UpdateDeferredElements_ok fuel : ∀ X E w c local,
  types_inv X [] E w → is_Some (contexts (tree w) !! c) → next_ctx (tree w) ≤ fuel + c →
  d ∈ concrete w o → below (tree w) o c = true → (local = true ↔ c = o) →
  (∀ c' t d', X c' t d' → c' = o ∨ d' ∉ concrete w c') →
  wp (UpdateDeferredElements pFromObj fuel c d local)
    (λ _ w', types_inv (without_object X (below (tree w) c)) [] E w' ∧ kept w w' ∧
             ∀ r, is_Some (find_memo w' r) ↔ is_Some (find_memo w r)) never w.
Proof.
  induction fuel as [|fuel IH]; intros X E w c local Hi [cx Hcx] Hf Hd Hb Hloc HX.
  { pose proof (to_next _ (st_tree _ (lf_settled _ (mi_life _ _ (proj1 Hi)))) c cx Hcx). lia. }
  pose proof (types_older _ _ (proj1 Hi)) as Ho. cbn [UpdateDeferredElements].
  eapply wp_bind_run; [done|]. eapply wp_bind_run; [done|].
  assert (types_inv (without_object X (Nat.eqb c)) (pair c <$> entries c local w) E (tell c local w)) as Hi1.
  { apply tell_ok; try done. intros t d'. apply HX. }
  apply wp_bind. eapply wp_conseq; [apply (signal_all_ok _ E c _ _ Hi1)| |done].
  { intros t (e & He & e' & He')%elem_of_entries. exists e'. rewrite find_tell, decide_True, He by done. simpl.
    unfold assigned. rewrite He'. split; [done|]. rewrite try_entry_some in He'. destruct (_ && _); [done|].
    by destruct (provides _ _); [injection He' as <-|]. }
  intros [] w1 (Hi2 & Hk1 & Hm1).
  assert (kept w w1) as Hk by (eapply kept_trans; [|exact Hk1]; split_and!; try done; intros; apply concrete_tell).
  destruct Hk as (Et & Ec & En & Es).
  assert (∀ r, is_Some (find_memo w1 r) ↔ is_Some (find_memo w r)) as Hm.
  { intros [c' t]. rewrite Hm1, find_tell. case_decide; [by rewrite fmap_is_Some|done]. }
  eapply wp_bind_run; [apply (children_run c cx); by rewrite Et|].
  set (t0 := tree w) in *. rewrite Et. fold t0. pose proof (mi_life _ _ (proj1 Hi)) as Hlife. fold t0 in Hlife.
  assert (∀ q, q ∈ live_children t0 cx ↔ parent_of t0 q = Some c) as Hch.
  { intros q. apply elem_of_live_children; [apply (lf_settled _ Hlife)|done]. }
  pose (I (l : list ctx) w' := (∀ q, q ∈ l → parent_of t0 q = Some c) ∧
    types_inv (without_object X (told_before t0 c l)) [] E w' ∧
    (tree w' = t0 ∧ (∀ c, concrete w' c = concrete w c) ∧ next_slot_id w' = next_slot_id w ∧
      (∀ s, is_Some (slots w' !! s) ↔ is_Some (slots w !! s))) ∧
    ∀ r, is_Some (find_memo w' r) ↔ is_Some (find_memo w r)).
  eapply wp_conseq; [apply (wp_for_each _ I)| |done].
  - clear w1 Hi1 Hi2 Hk1 Hm1 Et Ec En Es Hm.
    intros q l w1 (Hq & Hi1 & (Et & Ec & En & Es) & Hm).
    assert (parent_of t0 q = Some c) as Hqc by (apply Hq; left). pose proof (Ho q c Hqc) as Hlt.
    assert (is_Some (contexts t0 !! q)) as Hqx.
    { unfold parent_of in Hqc. destruct (contexts t0 !! q); [by eexists|done]. }
    eapply wp_conseq; [apply (IH (without_object X (told_before t0 c (q :: l))) E w1 q false Hi1)| |done]; rewrite ?Et; try done.
    + lia.
    + by rewrite Ec.
    + apply (below_parent _ _ _ c); [done|done|by right].
    + split; [done|]. intros ->. apply below_le in Hb; [lia|done].
    + intros c' t d' [Hx _]. rewrite Ec. by eapply HX.
    + intros [] w2 (Hi2 & (Et2 & Ec2 & En2 & Es2) & Hm2).
      split; [intros q' Hq'; apply Hq; by right|]. split.
      * destruct Hi2 as [Hmi Hsi]. split; [|done]. eapply memos_weaken; [|exact Hmi].
        intros c' t d' [[Hx Hn] Hn']. split; [done|]. intros [(Hbc & Hnl%negb_true_iff)%andb_true_iff Hp].
        destruct (below t0 q c') eqn:Hbq; [by apply Hn'|]. apply Hn. split; [|done].
        unfold told_before. simpl. by rewrite Hbc, Hbq, Hnl.
      * split; [split_and!; [congruence| |congruence|]|].
        -- intros c'. by rewrite Ec2.
        -- intros s. by rewrite Es2.
        -- intros r. by rewrite Hm2.
  - split; [by apply Hch|]. split; [|by split_and!].
    destruct Hi2 as [Hmi Hsi]. split; [|done]. eapply memos_weaken; [|exact Hmi].
    intros c' t d' [Hx Hn]. split; [done|]. intros [(Hbc & Hnl%negb_true_iff)%andb_true_iff Hp]. apply Hn. split; [|done].
    rewrite (below_children _ _ (live_children t0 cx)) in Hbc by done. rewrite Hnl, orb_false_r in Hbc.
    by rewrite Nat.eqb_sym.
  - intros [] w2 (_ & Hi3 & Hk3 & Hm3). split; [|by split].
    destruct Hi3 as [Hmi Hsi]. split; [|done]. eapply memos_weaken; [|exact Hmi].
    intros c' t d' [Hx Hn]. split; [done|]. intros [Hbc Hp]. apply Hn. split; [|done].
    unfold told_before. simpl. by rewrite Hbc.
Qed.
End update.

(** ** Changes of the tree *)
Definition no_hole (c : ctx) (t : type_id) (d : CoreObjectDescriptor) : Prop := False.

Lemma below_agree t t' a c : settled t → settled t' →
  (∀ c, is_Some (contexts t !! c) → is_Some (contexts t' !! c) → parent_of t' c = parent_of t c) →
  is_Some (contexts t !! c) → is_Some (contexts t' !! c) → below t' a c = below t a c.
Proof.
  intros Hs Hs' Hp. pose proof (settled_older _ Hs) as Ho. pose proof (settled_older _ Hs') as Ho'.
  induction c as [c IH] using lt_wf_ind. intros Hc Hc'. rewrite (below_unfold t), (below_unfold t') by done.
  rewrite Hp by done. f_equal. destruct (parent_of t c) as [p|] eqn:Ep; [|done].
  apply IH; [by apply Ho| |].
  - apply settled_parent in Ep as Hst; [|done]. unfold state_of in Hst. by apply fmap_is_Some in Hst.
  - assert (parent_of t' c = Some p) as Ep' by (by rewrite Hp).
    apply settled_parent in Ep' as Hst; [|done]. unfold state_of in Hst. by apply fmap_is_Some in Hst.
Qed.

Lemma below_alive t a c : settled t → below t a c = true → is_Some (contexts t !! c) → is_Some (contexts t !! a).
Proof.
  intros Hs. pose proof (settled_older _ Hs) as Ho. induction c as [c IH] using lt_wf_ind.
  rewrite below_unfold by done. intros [->%Nat.eqb_eq|H]%orb_true_iff Hc; [done|].
  destruct (parent_of t c) as [p|] eqn:Ep; [|done]. apply (IH p); [by apply Ho|done|].
  apply settled_parent in Ep as Hst; [|done]. unfold state_of in Hst. by apply fmap_is_Some in Hst.
Qed.

(** The contexts of [t'] that were in [t] have their parents, the others are new;
    the types of the contexts that are gone are gone. *)
Record tree_step (w w' : TypeWorld) : Prop := {
  tp_life : life_ok (tree w');
  tp_parent : ∀ c, is_Some (contexts (tree w) !! c) → is_Some (contexts (tree w') !! c) →
    parent_of (tree w') c = parent_of (tree w) c;
  tp_new : ∀ c, is_Some (contexts (tree w') !! c) → is_Some (contexts (tree w) !! c) ∨ next_ctx (tree w) ≤ c;
  tp_next : next_ctx (tree w) ≤ next_ctx (tree w');
  tp_types : ∀ c, types w' !! c = if decide (is_Some (contexts (tree w') !! c)) then types w !! c else None;
  tp_slots : slots w' = slots w ∧ next_slot_id w' = next_slot_id w }.

Lemma tree_step_inv X Y E w w' : tree_step w w' → types_inv X Y E w → types_inv X Y E w'.
Proof.
  intros [Hlife Hpar Hnew Hnext Hty [Es En]] [[M1 M2 M3 M4 M5 ML M6 M7] [H1 H2 H3 H4 H5 H6 H7 H8 H9 H10]].
  set (t := tree w) in *. set (t' := tree w') in *.
  assert (∀ c, is_Some (contexts t' !! c) → types_of w' c = types_of w c) as Hof.
  { intros c Hc. unfold types_of. by rewrite Hty, decide_True. }
  assert (∀ c, ¬ is_Some (contexts t' !! c) → types_of w' c = ContextTypes_new) as Hof'.
  { intros c Hc. unfold types_of. by rewrite Hty, decide_False. }
  assert (∀ c t e, find_memo w' (c, t) = Some e → is_Some (contexts t' !! c) ∧ is_Some (contexts (tree w) !! c) ∧ find_memo w (c, t) = Some e) as Hmemo.
  { intros c ty e. unfold find_memo. simpl. destruct (decide (is_Some (contexts t' !! c))) as [Hc|Hc].
    - rewrite Hof by done. intros He. split_and!; [done| |done]. apply M2. unfold types_of in He.
      destruct (types w !! c); [by eexists|done].
    - by rewrite Hof'. }
  assert (∀ c d, d ∈ concrete w' c → is_Some (contexts t' !! c) ∧ is_Some (contexts t !! c) ∧ d ∈ concrete w c) as Hcon.
  { intros c d. unfold concrete. destruct (decide (is_Some (contexts t' !! c))) as [Hc|Hc].
    - rewrite Hof by done. intros Hd. split_and!; [done| |done]. apply M2. unfold types_of in Hd.
      destruct (types w !! c); [by eexists|]. by apply elem_of_nil in Hd.
    - rewrite Hof' by done. by intros ?%elem_of_nil. }
  assert (∀ a c, is_Some (contexts t !! c) → is_Some (contexts t' !! c) → below t' a c = below t a c) as Hbel.
  { intros a c Hc Hc'. by apply below_agree; [apply (lf_settled _ M1)|apply (lf_settled _ Hlife)|..]. }
  assert (∀ c p, is_Some (contexts t !! c) → is_Some (contexts t' !! c) → wired w c p → wired w' c p) as Hvis.
  { intros c p Hc Hc' (a & d & Hb & Hd & Hp). exists a, d. fold t'. rewrite Hbel by done. split; [done|]; split; [|done].
    unfold concrete. rewrite Hof; [done|]. apply (below_alive t' a c); [apply (lf_settled _ Hlife)|by rewrite Hbel|done]. }
  split.
  - split; fold t'.
    + done.
    + intros c. rewrite Hty. case_decide; [done|by intros []].
    + intros c d (Hc' & Hc & Hd)%Hcon. unfold find_memo. simpl. rewrite Hof by done. by apply M3.
    + intros c d (_ & _ & Hd)%Hcon. by eapply M4.
    + intros c ty e (_ & _ & He)%Hmemo. by eapply M5.
    + intros c ty e (_ & _ & He)%Hmemo. by eapply ML.
    + intros c ty e p (Hc' & Hc & He)%Hmemo Hp. destruct (M6 c ty e p He Hp) as (a & d & Hb & Hd & ?). exists a, d.
      rewrite Hbel by done. split_and!; [done| |tauto..]. unfold concrete. rewrite Hof; [done|].
      apply (below_alive t' a c); [apply (lf_settled _ Hlife)|by rewrite Hbel|done].
    + intros c ty e a d (Hc' & Hc & He)%Hmemo. rewrite Hbel by done. intros Hb (_ & _ & Hd)%Hcon. by apply M7.
  - assert (∀ s x c, slots w !! s = Some x → s_context x = Some c → is_Some (contexts t' !! c) → is_Some (contexts t !! c)) as Hold.
    { intros s x c Hx Hc Hal. destruct (Hnew c Hal) as [?|Hn]; [done|]. apply (H9 s x c Hx) in Hc. lia. }
    split; rewrite ?Es, ?En; fold t'; try done.
    + intros [c ty] e (_ & _ & He)%Hmemo. by apply (H1 (c, ty)).
    + intros [c ty] e (_ & _ & He)%Hmemo. by apply (H2 (c, ty)).
    + intros [c ty] e n s c' ty' (_ & _ & He)%Hmemo Hin. by apply (H3 (c, ty) e).
    + intros s x c Hs HE Hc Hal. pose proof (Hold s x c Hs Hc Hal) as Hal0.
      destruct (H4 s x c Hs HE Hc Hal0) as [?|(n & e & He & Hin)]; [left; by apply Hvis|right].
      exists n, e. split; [|done]. unfold find_memo in *. simpl in *. by rewrite Hof.
    + intros s x [c ty] n Hs Hr. destruct (H5 s x (c, ty) n Hs Hr) as [Hc H]. split; [done|]. simpl. intros Hal.
      destruct (H (Hold s x c Hs Hc Hal)) as (e & He & ?). exists e. split; [|done].
      unfold find_memo in *. simpl in *. by rewrite Hof.
    + intros s x s' x' r Hx Hx' Hr Hr' Hal. apply (H7 s x s' x' r); try done. destruct r as [[c ty] n].
      destruct (H5 s x (c, ty) n Hx Hr) as [Hc _]. simpl in *. by apply (Hold s x c).
    + intros s x c Hx Hc. pose proof (H9 s x c Hx Hc). lia.
Qed.
End invariant.
