(* ===== verification/TypeOperations.v ===== *)
(** * Type memos: every operation keeps the invariant

    Adding and injecting objects, and what lives on the memos: slots made,
    filled, reset and destroyed, and the calls that ask to be notified. *)
From stdpp Require Import base gmap list sets strings.
From Stdlib Require Import ZArith Lia.
From S2P Require Import Prelude.
From S2P Require Import Once.
From S2P Require Import CoreContext.
From S2P Require Import CoreContextFacts.
From S2P Require Import ContextLifecycle.
From S2P Require Import ContextEnumerator.
From S2P Require Import ContextClients.
From S2P Require Import ContextTree.
From S2P Require Import TypeMemos.
From S2P Require Import TypeFacts.

Section operations.
  Context (pFromObj : type_id → option (address → option address)) (OnStart_result : runnable → bool).
  Local Abbreviation provides := (TypeFacts.provides pFromObj).
  Local Abbreviation object_ok := (TypeFacts.object_ok pFromObj).
  Local Abbreviation memos_inv := (TypeFacts.memos_inv pFromObj).
  Local Abbreviation types_inv := (TypeFacts.types_inv pFromObj).
  Local Abbreviation visible := (TypeFacts.visible pFromObj).

Lemma types_weaken (X X' : ctx → type_id → CoreObjectDescriptor → Prop) Y E w :
  (∀ c t d, X c t d → is_Some (provides t d) → X' c t d) → types_inv X Y E w → types_inv X' Y E w.
Proof.
  intros H [[M1 M2 M3 M4 M5 ML M6 M7] Hs]. split; [|done]. split; try done.
  intros c t e a d He Hb Hd Hp. destruct (M7 c t e a d He Hb Hd Hp); [left|right]; auto.
Qed.

(** ** Adding an object *)
Definition push (c : ctx) (d : CoreObjectDescriptor) (w : TypeWorld) : TypeWorld :=
  update_types c (λ t, mkTypes (m_typeMemos t) (m_concreteTypes t ++ [d])) w.

Lemma find_push c d w r : find_memo (push c d w) r = find_memo w r.
Proof.
  destruct r as [c' t]. unfold find_memo, push, update_types, types_of. simpl.
  destruct (decide (c' = c)) as [->|n]; [by rewrite lookup_insert_eq|by rewrite lookup_insert_ne].
Qed.

Lemma concrete_push c d w c' : concrete (push c d w) c' = if decide (c' = c) then concrete w c ++ [d] else concrete w c'.
Proof.
  unfold concrete, push, update_types, types_of. simpl.
  case_decide as H; [subst; by rewrite lookup_insert_eq|by rewrite lookup_insert_ne].
Qed.

Lemma elem_of_push c d w c' d' : d' ∈ concrete (push c d w) c' ↔ d' ∈ concrete w c' ∨ (c' = c ∧ d' = d).
Proof. rewrite concrete_push. case_decide; [subst; rewrite elem_of_app, list_elem_of_singleton|]; naive_solver. Qed.

Lemma push_put c d e t w : push c d (put_memo (c, t) e w) = put_memo (c, t) e (push c d w).
Proof.
  unfold push, put_memo, update_types, types_of, set_types. simpl. f_equal.
  by rewrite !lookup_insert_eq, !insert_insert_eq.
Qed.

(** What need not know of the object [d] just added to [c]. *)
Definition with_object (X : ctx → type_id → CoreObjectDescriptor → Prop) (w : TypeWorld) (c : ctx)
    (d : CoreObjectDescriptor) c' t d' : Prop :=
  X c' t d' ∨ (d' = d ∧ below (tree w) c c' = true ∧ (c' = c ∨ d ∉ concrete w c')).

Lemma push_ok X E w c d : types_inv X [] E w → is_Some (contexts (tree w) !! c) → object_ok d →
  is_Some (find_memo w (c, type d)) → types_inv (with_object X w c d) [] E (push c d w).
Proof.
  intros [[M1 M2 M3 M4 M5 ML M6 M7] Hs] Hc Hd Ht. split.
  - split; try done.
    + intros c'. unfold push, update_types. simpl. rewrite lookup_insert_is_Some. intros [<-|[_ ?]]; [done|by apply M2].
    + intros c' d' [Hin|[-> ->]]%elem_of_push; rewrite find_push; [by apply M3|done].
    + intros c' d' [Hin|[-> ->]]%elem_of_push; [by eapply M4|done].
    + intros c' t e. rewrite find_push. apply M5.
    + intros c' t e. rewrite find_push. apply ML.
    + intros c' t e p. rewrite find_push. intros He Hp. destruct (M6 c' t e p He Hp) as (a & d' & ? & ? & ?).
      exists a, d'. split_and!; [done|apply elem_of_push; by left|tauto..].
    + intros c' t e a d'. rewrite find_push. intros He Hb [Hin|[-> ->]]%elem_of_push Hp.
      { destruct (M7 c' t e a d' He Hb Hin Hp); [left; by left|by right]. }
      change (below (tree w) c c' = true) in Hb. destruct (decide (c' = c)) as [->|n]; [left; right; auto|].
      destruct (decide (d ∈ concrete w c')) as [Hin|Hin]; [|left; right; auto].
      destruct (M7 c' t e c' d He (below_refl _ _) Hin Hp) as [?|[? ?]]; [left; by left|right].
      split; [done|]. intros ->. done.
  - apply (signals_frame _ [] _ E w); [|done|].
    + split; try done.
      * intros c' d' Hin. apply elem_of_push. by left.
      * intros r e. rewrite find_push. by exists e.
      * intros r e. rewrite find_push. right. by exists e.
    + intros r e. rewrite find_push. apply (si_once _ _ _ _ Hs).
Qed.

(** ** Changes of the tree that leave the types alone *)
Lemma tree_step_same w t' : life_ok t' → (∀ c, contexts t' !! c = None ↔ contexts (tree w) !! c = None) →
  (∀ c, parent_of t' c = parent_of (tree w) c) → next_ctx t' = next_ctx (tree w) →
  (∀ c, is_Some (types w !! c) → is_Some (contexts (tree w) !! c)) → tree_step w (set_tree t' w).
Proof.
  intros Hl Hd Hp Hn Hty. assert (∀ c, is_Some (contexts t' !! c) ↔ is_Some (contexts (tree w) !! c)) as Hd'.
  { intros c. rewrite <-!not_eq_None_Some. by rewrite Hd. }
  split; simpl; try done.
  - intros c. rewrite Hd'. by left.
  - lia.
  - intros c. case_decide as H; [done|]. rewrite Hd' in H. destruct (types w !! c) eqn:E; [|done].
    destruct H. apply Hty. by eexists.
Qed.

Lemma life_add_filter w c x f : life_ok w → contexts w !! c = Some x →
  life_ok (set_contexts (<[c := set_filters (m_filters x ++ [f]) x]> (contexts w)) w).
Proof.
  intros Hl Hc. assert (add_filter c f w = (Ret tt, set_contexts (<[c := set_filters (m_filters x ++ [f]) x]> (contexts w)) w)) as E
    by exact (update_run w c x (λ x, set_filters (m_filters x ++ [f]) x) Hc).
  assert (∀ d y, <[c := set_filters (m_filters x ++ [f]) x]> (contexts w) !! d = Some y →
    ∃ y0, contexts w !! d = Some y0 ∧ links y = links y0 ∧ m_children y = m_children y0 ∧ m_threads y = m_threads y0 ∧
      m_state y = m_state y0 ∧ m_beforeRunning y = m_beforeRunning y0) as Hback.
  { intros d y [[<- <-]|[_ ?]]%lookup_insert_Some; [by exists x|by exists y]. }
  apply (life_intro w); [done|..].
  - eapply op_world; [done|by exists x| |exact E]. intros K HK. by apply add_filter_ok.
  - simpl. intros d y (y0 & Hy & [= _ _ _ ->] & _ & _ & _ & ->)%Hback. by eapply life_context.
  - simpl. intros d y p px (y0 & Hy & [= -> -> _ _] & _ & _ & -> & _)%Hback Hp (p0 & Hp0 & _ & -> & _ & -> & _)%Hback.
    by apply (life_link w d y0 p p0).
  - intros r y Hr. by apply (life_runnable w r y).
  - simpl. intros d y r z (y0 & Hy & _ & _ & -> & -> & _)%Hback. by apply (lf_threads _ Hl d y0).
Qed.

(** Putting the objects' own memos right: the part of [AddInternal] before the
    other memos are told. *)
Lemma pushed_ok E w c d v (X : ctx → type_id → CoreObjectDescriptor → Prop) :
  types_inv X [] E w → is_Some (contexts (tree w) !! c) → object_ok d →
  is_Some (find_memo w (c, type d)) → find_memo w (c, actual_type d) = Some v →
  types_inv (with_object X w c d) [] E
    (push c d (if m_local v then w else put_memo (c, actual_type d) (set_local true (set_value (value d) v)) w)).
Proof.
  intros Hi Hc Hd Ht Hv. pose proof (push_ok X E w c d Hi Hc Hd Ht) as Hp.
  destruct (m_local v) eqn:Hl; [done|]. set (e' := set_local true (set_value (value d) v)).
  pose proof (mi_local _ _ _ (proj1 Hi) c _ v Hv Hl) as Hf.
  destruct (si_once _ _ _ _ (proj2 Hi) _ v Hv) as (Hex & Hg & Hs).
  assert (once_get (onSatisfied v) = true) as Hgv by (destruct (Hs Hf) as [?|?%elem_of_nil]; done).
  destruct (ob_actual _ _ Hd) as [p Hpd]. pose proof (ob_value _ _ Hd) as Hval. rewrite Hpd in Hval.
  assert (filled (value d) = true) as Hfd by (by rewrite Hval).
  rewrite push_put. apply (inv_close _ _ _ _ _ c (actual_type d) e').
  - apply inv_put; [done|done|by unfold quiet_change; rewrite find_push, Hv; destruct (Hg Hgv) as [? ->]|].
    split; simpl; try done; [by destruct (Hg Hgv) as [? ->]|by rewrite Hgv, Hfd|by rewrite Hval|].
    intros q Hq. exists c, d. split_and!; [apply below_refl|apply elem_of_push; auto|by rewrite Hpd, <-Hq, Hval|done].
  - by rewrite find_put_memo, decide_True.
  - intros a d' _ _ _. by right.
Qed.

(** An exception filter is listed with the context. *)
Definition filter_step (c : ctx) (d : CoreObjectDescriptor) : M TypeWorld unit :=
  match pFilter d with Some f => on_tree (add_filter c f) | None => mret tt end.

Lemma filter_step_run X Y E w c d : types_inv X Y E w → is_Some (contexts (tree w) !! c) →
  ∃ w', filter_step c d w = (Ret tt, w') ∧ types_inv X Y E w' ∧
    autoCurrentContext (tree w') = autoCurrentContext (tree w) ∧
    (∀ c, is_Some (contexts (tree w') !! c) ↔ is_Some (contexts (tree w) !! c)) ∧
    next_ctx (tree w') = next_ctx (tree w) ∧ (∀ c, parent_of (tree w') c = parent_of (tree w) c) ∧
    ∀ c, concrete w' c = concrete w c.
Proof.
  intros Hi [x Hx]. unfold filter_step. destruct (pFilter d) as [f|]; [|by exists w].
  set (cs := <[c := set_filters (m_filters x ++ [f]) x]> (contexts (tree w))).
  exists (set_tree (set_contexts cs (tree w)) w).
  assert (∀ c', is_Some (cs !! c') ↔ is_Some (contexts (tree w) !! c')) as Hdom.
  { intros c'. unfold cs. rewrite lookup_insert_is_Some. split; [intros [<-|[_ ?]]; [by eexists|done]|]. intros ?. destruct (decide (c = c')); auto. }
  assert (∀ c', parent_of (set_contexts cs (tree w)) c' = parent_of (tree w) c') as Hpar.
  { intros c'. unfold parent_of, cs. simpl. destruct (decide (c' = c)) as [->|n]; [by rewrite lookup_insert_eq, Hx|by rewrite lookup_insert_ne]. }
  split; [unfold on_tree, add_filter; by rewrite (update_run _ _ x) by done|]. split; [|by split_and!].
  eapply tree_step_inv; [|exact Hi]. apply tree_step_same; [|intros c'; by rewrite !eq_None_not_Some, Hdom|done|done|].
  - apply life_add_filter; [apply (mi_life _ _ _ (proj1 Hi))|done].
  - apply (mi_dom _ _ _ (proj1 Hi)).
Qed.

Lemma AddInternal_ok fuel E w c d (X : ctx → type_id → CoreObjectDescriptor → Prop) v :
  types_inv X [] E w → is_Some (contexts (tree w) !! c) → next_ctx (tree w) ≤ fuel + c → object_ok d →
  pBoltBase d = None → pCoreRunnable d = None →
  is_Some (find_memo w (c, type d)) → find_memo w (c, actual_type d) = Some v →
  filled (m_value v) && m_local v = false →
  (∀ c' t d', X c' t d' → c' = c ∧ (t = type d ∨ t = actual_type d) ∧ d' ∉ concrete w c) →
  wp (AddInternal pFromObj OnStart_result fuel c d)
    (λ _ w', types_inv no_hole [] E w' ∧ autoCurrentContext (tree w') = autoCurrentContext (tree w) ∧
       (∀ c, is_Some (contexts (tree w') !! c) ↔ is_Some (contexts (tree w) !! c)) ∧
       ∀ c' d', d' ∈ concrete w' c' ↔ d' ∈ concrete w c' ∨ (c' = c ∧ d' = d)) never w.
Proof.
  intros Hi [x Hx] Hf Hd Hbolt Hrun Ht Hv Hempty HX.
  pose proof (pushed_ok E w c d v X Hi (ex_intro _ x Hx) Hd Ht Hv) as Hi1. unfold AddInternal.
  eapply wp_bind_run; [done|].
  set (w0 := if m_local v then w else _) in Hi1. set (X' := with_object X w c d) in Hi1.
  eapply (wp_bind_run _ _ tt _ w0).
  { rewrite Hv. unfold w0. destruct (m_local v) eqn:El; [|exact (update_memo_run _ (λ v, set_local true (set_value (value d) v)) v w Hv)].
    rewrite andb_true_r in Hempty. rewrite Hempty, bool_decide_eq_false_2; [done|].
    intros [[p Hp] He]. apply not_true_iff_false in Hempty. apply Hempty, filled_some. rewrite He, Hp. by eexists. }
  eapply wp_bind_run; [done|]. fold (push c d w0). set (w1 := push c d w0) in *.
  assert (tree w1 = tree w) as Et by (unfold w1, w0; by destruct (m_local v)).
  assert (∀ c' d', d' ∈ concrete w1 c' ↔ d' ∈ concrete w c' ∨ (c' = c ∧ d' = d)) as Ec.
  { intros c' d'. unfold w1. rewrite elem_of_push. unfold w0. destruct (m_local v); [done|]. by rewrite concrete_put_memo. }
  destruct (filter_step_run X' [] E w1 c d) as (w2 & E2 & Hi2 & Ea & Ed & En & Ep & Ec2); [done|rewrite Et; by exists x|].
  rewrite Et in Ea, Ed, En, Ep.
  eapply wp_bind_run; [exact E2|]. apply wp_bind.
  eapply wp_conseq; [eapply (UpdateDeferredElements_ok pFromObj d c fuel _ E w2 c true Hi2)| |done].
  - apply Ed. by eexists.
  - lia.
  - rewrite Ec2. apply Ec. by right.
  - apply below_refl.
  - done.
  - intros c' t d' [Hx'|(-> & Hb & Hor)]; [left; by destruct (HX c' t d' Hx')|].
    destruct (decide (c' = c)) as [->|n]; [by left|]. right. destruct Hor as [?|Hn]; [done|]. rewrite Ec2, Ec. tauto.
  - intros [] w3 (Hi3 & (Et3 & Ec3 & _ & _) & _). rewrite Hbolt, Hrun. apply wp_ret. split_and!.
    + eapply types_weaken; [|exact Hi3]. intros c' t d' [Hx' Hn] Hpr. apply Hn. split.
      * destruct Hx' as [Hx'|(-> & Hb & _)]; [destruct (HX c' t d' Hx') as [-> _]; apply below_refl|].
        by rewrite (below_parents (tree w)).
      * destruct Hx' as [Hx'|(-> & _)]; [|done]. destruct (HX c' t d' Hx') as (_ & [->| ->] & _); [apply Hd|apply Hd].
    + by rewrite Et3.
    + intros c'. by rewrite Et3.
    + intros c' d'. rewrite Ec3, Ec2. apply Ec.
Qed.

(** ** Injecting an object *)
Definition set_current (o : option ctx) (w : TypeWorld) : TypeWorld := set_tree (set_autoCurrentContext o (tree w)) w.

Lemma set_current_ok X Y E o w : types_inv X Y E w → (∀ c, o = Some c → is_Some (contexts (tree w) !! c)) → types_inv X Y E (set_current o w).
Proof.
  intros Hi Ho. eapply tree_step_inv; [|exact Hi]. apply tree_step_same; try done.
  - apply life_set_current; [apply (mi_life _ _ _ (proj1 Hi))|]. exact Ho.
  - apply (mi_dom _ _ _ (proj1 Hi)).
Qed.

Lemma wp_pushed {A} c (m : M TypeWorld A) Q (Z : exn → TypeWorld → Prop) w :
  wp m (λ a w', Q a (set_current (autoCurrentContext (tree w)) w'))
       (λ e w', Z e (set_current (autoCurrentContext (tree w)) w')) (set_current (Some c) w) →
  wp (pushed c m) Q Z w.
Proof.
  intros H. unfold pushed. eapply wp_bind_run; [unfold on_tree; rewrite SetCurrent_run; done|].
  cbn [fst snd]. fold (set_current (Some c) w). revert H. unfold wp, at_exit. munfold.
  destruct (m (set_current (Some c) w)) as [[a|e|e] w']; unfold on_tree; rewrite ?SetCurrent_run; done.
Qed.

Lemma current_alive X Y E w c : types_inv X Y E w → autoCurrentContext (tree w) = Some c → is_Some (contexts (tree w) !! c).
Proof.
  intros Hi Hc. destruct (wo_current _ _ _ _ (lf_world _ (mi_life _ _ _ (proj1 Hi))) c Hc) as (x & Hx & _). by exists x.
Qed.

(** A memo with a value of this context has no object to learn of. *)
Lemma open_close X Y E w c t l e : types_inv (open_above c t l X) Y E w → find_memo w (c, t) = Some e →
  filled (m_value e) && m_local e = true → types_inv X Y E w.
Proof.
  intros Hi He [Hf Hl]%andb_true_iff. eapply inv_close; [|exact He|by right].
  eapply types_weaken; [|exact Hi]. intros c' t' d [?|(-> & -> & _)] _; [by left|by right].
Qed.

(** Of two memos of a context one of which is for a derived type, the one for the
    base has a value when the other has. *)
Lemma base_memo X Y E w c t t' e e' : types_inv X Y E w → (∀ d, X c t d → d ∉ concrete w c) →
  (∀ d, is_Some (provides t' d) → is_Some (provides t d)) →
  find_memo w (c, t) = Some e → find_memo w (c, t') = Some e' →
  filled (m_value e') && m_local e' = true → filled (m_value e) && m_local e = true.
Proof.
  intros [Hm _] HX Hbase He He' [[p Hp]%filled_some Hl]%andb_true_iff.
  destruct (mi_sound _ _ _ Hm c t' e' p He' Hp) as (a & d & _ & Hd & Hpr & Ha). rewrite (Ha Hl) in Hd.
  destruct (mi_complete _ _ _ Hm c t e c d He (below_refl _ _) Hd (Hbase d (ex_intro _ p Hpr))) as [Hx|[-> Hl']].
  - by apply HX in Hx.
  - by apply Hl'.
Qed.

Lemma Inject_ok fuel E w c d :
  types_inv no_hole [] E w → is_Some (contexts (tree w) !! c) → next_ctx (tree w) ≤ fuel → object_ok d →
  pBoltBase d = None → pCoreRunnable d = None →
  (∀ d', is_Some (provides (actual_type d) d') → is_Some (provides (type d) d')) →
  wp (Inject pFromObj OnStart_result fuel c (type d) (actual_type d) (mret d))
    (λ _ w', types_inv no_hole [] E w' ∧ ∃ d', d' ∈ concrete w' c ∧ is_Some (provides (type d) d')) only_ambiguous w.
Proof.
  intros Hi Hc Hf Hd Hbolt Hrun Hbase.
  assert (c < next_ctx (tree w)) as Hlt.
  { destruct Hc as [x Hx]. exact (to_next _ (st_tree _ (lf_settled _ (mi_life _ _ _ (proj1 Hi)))) c x Hx). }
  unfold Inject. apply wp_bind.
  eapply wp_conseq; [apply (FindByType_ok pFromObj true fuel no_hole E w c (type d) Hi Hc)| |done]; [lia|done|].
  intros r1 w1 [[Hi1 (Et1 & Ec1 & _) _ [e1 He1] _] Hr]. rewrite (Hr eq_refl). cbn [when_open] in Hi1.
  eapply wp_bind_run; [by apply load_memo_run|]. destruct (filled (m_value e1) && m_local e1) eqn:Efl.
  { apply wp_ret. pose proof (open_close _ _ _ _ _ _ _ _ Hi1 He1 Efl) as Hi1'. split; [done|].
    apply andb_true_iff in Efl as [[p Hp]%filled_some Hl].
    destruct (mi_sound _ _ _ (proj1 Hi1') c _ e1 p He1 Hp) as (a & d' & _ & Hd' & Hpr & Ha). rewrite (Ha Hl) in Hd'.
    exists d'. rewrite Hpr. split; [done|by eexists]. }
  apply wp_bind.
  eapply wp_conseq; [apply (FindByType_ok pFromObj true fuel _ E w1 c (actual_type d) Hi1)| |done]; [by rewrite Et1|lia|done|].
  intros r2 w2 [[Hi2 (Et2 & Ec2 & _) Hold2 [e2 He2] _] Hr2]. rewrite (Hr2 eq_refl). cbn [when_open] in Hi2.
  apply wp_pushed. apply wp_bind, wp_ret, wp_catch, wp_bind.
  assert (types_inv (open_above c (actual_type d) (concrete w1 c) (open_above c (type d) (concrete w c) no_hole)) [] E
    (set_current (Some c) w2)) as Hi2'.
  { apply set_current_ok; [done|]. intros ? [= <-]. by rewrite Et2, Et1. }
  assert (∀ c' t d', open_above c (actual_type d) (concrete w1 c) (open_above c (type d) (concrete w c) no_hole) c' t d' →
    c' = c ∧ (t = type d ∨ t = actual_type d) ∧ d' ∉ concrete w2 c) as HX.
  { intros c' t d' [[[]|(-> & -> & ?)]|(-> & -> & ?)]; rewrite Ec2; split_and!; auto. by rewrite Ec1. }
  eapply wp_conseq; [eapply (AddInternal_ok fuel E (set_current (Some c) w2) c d _ e2 Hi2')| |done]; try done.
  - simpl. by rewrite Et2, Et1.
  - simpl. rewrite Et2, Et1. lia.
  - exists e1. by apply Hold2.
  - apply not_true_iff_false. intros Ht. pose proof (base_memo _ _ _ w2 c (type d) (actual_type d) e1 e2 Hi2) as Hb.
    rewrite Efl in Hb. discriminate Hb; try done; [|by apply Hold2]. intros d' Hx. by destruct (HX c _ d' Hx) as (_ & _ & ?).
  - intros [] w3 (Hi3 & Ea3 & Ed3 & Ec3). apply wp_ret. split.
    + apply set_current_ok; [done|]. intros c' Hc'. apply Ed3. simpl. by eapply current_alive.
    + exists d. split; [apply (Ec3 c d); auto|apply Hd].
Qed.
End operations.
