(* ===== verification/TypeSlots.v ===== *)
(** * Type memos: slots and notifications

    A slot that waits is registered with one memo; filling it clears its
    registrations, and resetting or destroying it removes them from the memo. *)
From stdpp Require Import base gmap list sets strings.
From Stdlib Require Import ZArith Lia.
From S2P Require Import Prelude.
From S2P Require Import Once.
From S2P Require Import CoreContext.
From S2P Require Import CoreContextFacts.
From S2P Require Import ContextLifecycle.
From S2P Require Import ContextEnumerator.
From S2P Require Import ContextClients.
From S2P Require Import ContextTree.
From S2P Require Import TypeMemos.
From S2P Require Import TypeFacts.
From S2P Require Import TypeOperations.

Section slots.
  Context (pFromObj : type_id → option (address → option address)).
  Local Abbreviation memos_inv := (TypeFacts.memos_inv pFromObj).
  Local Abbreviation types_inv := (TypeFacts.types_inv pFromObj).
  Local Abbreviation signals_inv := (TypeFacts.signals_inv pFromObj).
  Local Abbreviation visible := (TypeFacts.visible pFromObj).
  Local Abbreviation wired := (TypeFacts.wired pFromObj).

(** What the memos say does not depend on the signals and the slots. *)
Lemma memo_alive X w r e : memos_inv X w → find_memo w r = Some e → is_Some (contexts (tree w) !! r.1).
Proof.
  intros Hm He. apply (mi_dom _ _ _ Hm). unfold find_memo, types_of in He. destruct (types w !! r.1); [by eexists|done].
Qed.

Lemma memos_signal X w r e o : memos_inv X w → find_memo w r = Some e →
  memos_inv X (put_memo r (set_onSatisfied o e) w).
Proof.
  intros Hm He. pose proof (memo_alive _ _ _ _ Hm He) as Hal. destruct Hm as [M1 M2 M3 M4 M5 ML M6 M7].
  assert (∀ r' e', find_memo (put_memo r (set_onSatisfied o e) w) r' = Some e' →
    ∃ e0, find_memo w r' = Some e0 ∧ m_value e' = m_value e0 ∧ m_local e' = m_local e0) as Hback.
  { intros r' e'. rewrite find_put_memo. case_decide as H; [intros [= <-]; subst; by exists e|by exists e']. }
  split; try done.
  - intros c [->|?]%dom_put_memo; [done|by apply M2].
  - intros c d. rewrite concrete_put_memo, find_put_memo. intros Hd. case_decide; [by eexists|by apply M3].
  - intros c d. rewrite concrete_put_memo. apply M4.
  - intros c t e' (e0 & He0 & -> & _)%Hback. by eapply M5.
  - intros c t e' (e0 & He0 & -> & ->)%Hback. by eapply ML.
  - intros c t e' p (e0 & He0 & -> & ->)%Hback. setoid_rewrite concrete_put_memo. by apply M6.
  - intros c t e' a d (e0 & He0 & -> & ->)%Hback. rewrite concrete_put_memo. by apply M7.
Qed.

Lemma memos_slots X w m : memos_inv X w → memos_inv X (set_slots m w).
Proof. intros []. by split. Qed.

Lemma memos_counter X w n : memos_inv X w → memos_inv X (set_next_slot_id n w).
Proof. intros []. by split. Qed.

(** ** Registering *)
Lemma memo_append_now r e h w : find_memo w r = Some e → once_get (onSatisfied e) = true →
  listeners_ok r [h] w → memo_append r h w = (Ret None, fill (m_value e) w h).
Proof.
  intros He Hg Hl. unfold memo_append, once_append, load_once.
  erewrite bind_Ret by (by erewrite bind_Ret by by apply load_memo_run). rewrite Hg.
  by erewrite bind_Ret by by eapply call_listener_run.
Qed.

Definition registered (h : listener) (e : MemoEntry) : MemoEntry :=
  set_onSatisfied (mkOnce (once_m_state (onSatisfied e)) (m_fns (onSatisfied e) ++ [(next_registration (onSatisfied e), h)])
                     (S (next_registration (onSatisfied e)))) e.

Lemma memo_append_later r e h w : find_memo w r = Some e → once_get (onSatisfied e) = false →
  memo_append r h w = (Ret (Some (next_registration (onSatisfied e))), put_memo r (registered h e) w).
Proof.
  intros He Hg. unfold memo_append, once_append, load_once, store_once.
  erewrite bind_Ret by (by erewrite bind_Ret by by apply load_memo_run). rewrite Hg.
  by erewrite bind_Ret by by apply update_memo_run.
Qed.

(** The slot [so], if any, keeps the registration. *)
Definition noted (so : option slot_id) (note : memo_ref * nat) (m : gmap slot_id Slot) : gmap slot_id Slot :=
  match so with
  | Some s => alter (λ x, mkSlot (s_ptr x) (s_notifications x ++ [note]) (s_context x)) s m
  | None => m
  end.

Definition extra (so : option slot_id) (note : memo_ref * nat) (s : slot_id) : list (memo_ref * nat) :=
  if decide (so = Some s) then [note] else [].

Lemma noted_lookup so note m s x' : noted so note m !! s = Some x' →
  ∃ x, m !! s = Some x ∧ x' = mkSlot (s_ptr x) (s_notifications x ++ extra so note s) (s_context x).
Proof.
  unfold noted, extra. destruct so as [s'|].
  - destruct (decide (s' = s)) as [->|n].
    + rewrite lookup_alter_eq, decide_True by done. intros (x & Hx & ->)%fmap_Some. by exists x.
    + rewrite lookup_alter_ne, decide_False by congruence. intros ->. exists x'. rewrite app_nil_r. by destruct x'.
  - rewrite decide_False by done. intros ->. exists x'. rewrite app_nil_r. by destruct x'.
Qed.

Lemma noted_lookup_2 so note m s x : m !! s = Some x →
  noted so note m !! s = Some (mkSlot (s_ptr x) (s_notifications x ++ extra so note s) (s_context x)).
Proof.
  intros Hx. destruct (noted so note m !! s) as [x'|] eqn:E.
  - apply noted_lookup in E as (x0 & Hx0 & ->). by simplify_eq.
  - unfold noted in E. destruct so as [s'|]; [|congruence]. destruct (decide (s' = s)) as [->|n].
    + rewrite lookup_alter_eq, Hx in E. done.
    + rewrite lookup_alter_ne in E by done. congruence.
Qed.

Definition append_world (so : option slot_id) (c : ctx) (t : type_id) (h : listener) (e : MemoEntry) (w : TypeWorld) : TypeWorld :=
  set_slots (noted so ((c, t), next_registration (onSatisfied e)) (slots w)) (put_memo (c, t) (registered h e) w).

Lemma append_ok so E E' w c t e h :
  types_inv no_hole [] E w → find_memo w (c, t) = Some e → once_get (onSatisfied e) = false →
  (∀ s x, so = Some s → slots w !! s = Some x → s_context x = Some c ∧ filled (s_ptr x) = false) →
  (∀ s c' t', h = h_slot s c' t' → so = Some s ∧ c' = c ∧ t' = t ∧ ∃ x, slots w !! s = Some x ∧ m_ti (s_ptr x) = t) →
  (∀ s, s ∈ E → s ∈ E' ∨ h = h_slot s c t) →
  types_inv no_hole [] E' (append_world so c t h e w).
Proof.
  intros [Hm [H1 H2 H3 H4 H5 H6 H7 H8 H9 H10]] He Hg Hso Hh HE. set (n := next_registration (onSatisfied e)).
  unfold append_world. fold n. set (w' := set_slots _ _).
  assert (∀ r, find_memo w' r = if decide (r = (c, t)) then Some (registered h e) else find_memo w r) as Hfind by (intros; apply find_put_memo).
  assert (∀ c, concrete w' c = concrete w c) as Ec by (intros; apply concrete_put_memo).
  assert (filled (m_value e) = false) as Hf.
  { destruct (filled (m_value e)) eqn:Hf; [|done]. destruct (H1 _ e He) as (_ & _ & Hy). destruct (Hy Hf) as [?|?%elem_of_nil]; [congruence|done]. }
  pose proof (memo_alive _ _ _ _ Hm He) as Hal0.
  split; [apply memos_slots; by apply memos_signal|]. split.
  - intros r e'. rewrite Hfind. case_decide as Hr; [intros [= <-]|apply H1]. destruct (H1 _ e He) as (Hx & _).
    split_and!; [exact Hx| |simpl; congruence]. unfold once_get in *. simpl. intros ?; congruence.
  - intros r e'. rewrite Hfind. case_decide as Hr; [intros [= <-]|apply H2]. destruct (H2 _ e He) as [Hnd Hlt]. simpl. fold n in Hlt.
    rewrite fmap_app. simpl. split.
    + apply NoDup_app. split_and!; [done| |apply NoDup_singleton]. intros k Hk Hk'%list_elem_of_singleton. apply Hlt in Hk. unfold n in *. lia.
    + intros k [Hk|Hk%list_elem_of_singleton]%elem_of_app; [apply Hlt in Hk|]; unfold n in *; lia.
  - intros r e' k s c' t'. rewrite Hfind.
    assert (∀ e0, find_memo w r = Some e0 → (k, h_slot s c' t') ∈ m_fns (onSatisfied e0) →
      (c', t') = r ∧ ∃ x, slots w' !! s = Some x ∧ s_context x = Some c' ∧ m_ti (s_ptr x) = t' ∧ (r, k) ∈ s_notifications x) as Hold.
    { intros e0 He0 Hin. destruct (H3 r e0 k s c' t' He0 Hin) as (? & x & Hx & ? & ? & ?). split; [done|].
      eexists. split; [by apply noted_lookup_2|]. split_and!; [done|done|]. apply elem_of_app. by left. }
    case_decide as Hr; [intros [= <-]; subst r|by apply Hold]. simpl.
    intros [Hin|[= -> <-]%list_elem_of_singleton]%elem_of_app; [by apply (Hold e)|].
    destruct (Hh s c' t' eq_refl) as (Es & -> & -> & x & Hx & Ht). split; [done|].
    eexists. split; [by apply noted_lookup_2|]. destruct (Hso s x Es Hx) as [? _]. split_and!; [done|done|].
    simpl. unfold extra. rewrite decide_True by done. apply elem_of_app. right. left.
  - intros s x' c' (x & Hx & ->)%noted_lookup HE' Hc Hal. simpl in *.
    destruct (decide (s ∈ E)) as [Hin|Hin].
    + destruct (HE s Hin) as [?|Eh]; [done|]. right. destruct (Hh s c t Eh) as (Es & _ & _ & x0 & Hx0 & Ht).
      destruct (Hso s x Es Hx) as [Hcx _]. assert (x0 = x) as -> by congruence. assert (c' = c) as -> by congruence.
      exists n, (registered h e). rewrite Ht, Hfind, decide_True, Eh by done. split; [done|]. simpl. apply elem_of_app. right. left.
    + destruct (H4 s x c' Hx Hin Hc Hal) as [Hv|(k & e0 & He0 & Hk)]; [left|right].
      * eapply wired_mono; [| |exact Hv]; [done|]. intros. by rewrite Ec.
      * rewrite Hfind. case_decide as Hr; [|by exists k, e0]. exists k, (registered h e). split; [done|].
        rewrite Hr in He0. assert (e0 = e) as -> by congruence. simpl. apply elem_of_app. by left.
  - intros s x' r k (x & Hx & ->)%noted_lookup. simpl. intros [Hr|Hr]%elem_of_app.
    + destruct (H5 s x r k Hx Hr) as [? H]. split; [done|]. intros Hal. destruct (H Hal) as (e0 & He0 & Hk & Hf0).
      rewrite Hfind. case_decide as Hrr; [|by exists e0]. subst r. assert (e0 = e) as -> by congruence.
      eexists. split; [done|]. simpl. split; [lia|]. intros _. rewrite fmap_app. apply elem_of_app. left. by apply Hf0.
    + unfold extra in Hr. case_decide as Es; [|by apply elem_of_nil in Hr]. apply list_elem_of_singleton in Hr as [= -> ->].
      destruct (Hso s x Es Hx) as [? _]. split; [done|]. intros _. exists (registered h e). rewrite Hfind, decide_True by done.
      split; [done|]. simpl. fold n. split; [lia|]. intros _. rewrite fmap_app. apply elem_of_app. right. left.
  - intros s x' (x & Hx & ->)%noted_lookup. simpl. apply NoDup_app. split_and!; [by eapply H6| |unfold extra; case_decide; [apply NoDup_singleton|constructor]].
    intros r Hr Hr'. unfold extra in Hr'. case_decide; [|by apply elem_of_nil in Hr']. apply list_elem_of_singleton in Hr' as ->.
    destruct (H5 s x _ _ Hx Hr) as [_ Hn]. destruct (Hn Hal0) as (e0 & He0 & Hk & _). assert (e0 = e) as -> by congruence. fold n in Hk. lia.
  - assert (∀ s x, slots w !! s = Some x → ((c, t), n) ∉ s_notifications x) as Hfresh.
    { intros s x Hx Hr. destruct (H5 s x _ _ Hx Hr) as [_ Hn]. destruct (Hn Hal0) as (e0 & He0 & Hk & _). assert (e0 = e) as -> by congruence. fold n in Hk. lia. }
    intros s x' s' x2' r (x & Hx & ->)%noted_lookup (x2 & Hx2 & ->)%noted_lookup. simpl.
    intros [Hr|Hr]%elem_of_app [Hr2|Hr2]%elem_of_app Hal; [by apply (H7 s x s' x2 r)|..].
    all: unfold extra in *; repeat case_decide; try (by apply elem_of_nil in Hr); try (by apply elem_of_nil in Hr2).
    + apply list_elem_of_singleton in Hr2 as ->. by apply (Hfresh s x Hx) in Hr.
    + apply list_elem_of_singleton in Hr as ->. by apply (Hfresh s' x2 Hx2) in Hr2.
    + congruence.
  - intros s [x' (x & Hx & _)%noted_lookup]. apply H8. by eexists.
  - intros s x' c' (x & Hx & ->)%noted_lookup. exact (H9 s x c' Hx).
  - intros s x' (x & Hx & ->)%noted_lookup. simpl. intros Hfx. rewrite (H10 s x Hx Hfx). unfold extra. case_decide as Es; [|done].
    destruct (Hso s x Es Hx). congruence.
Qed.

(** ** Replacing a slot that waits for nothing *)
Lemma replace_ok s m' E w : types_inv no_hole [] (s :: E) w →
  (∀ x c, slots w !! s = Some x → s_context x = Some c → is_Some (contexts (tree w) !! c) → s_notifications x = []) →
  (∀ s', s' ≠ s → m' !! s' = slots w !! s') →
  (∀ x', m' !! s = Some x' → s < next_slot_id w ∧ s_notifications x' = [] ∧
     ∀ c, s_context x' = Some c → c < next_ctx (tree w) ∧
       (is_Some (contexts (tree w) !! c) → s ∉ E → wired w c (s_ptr x'))) →
  types_inv no_hole [] E (set_slots m' w).
Proof.
  intros [Hm [H1 H2 H3 H4 H5 H6 H7 H8 H9 H10]] Hnone Hother Hnew. split; [by apply memos_slots|].
  assert (∀ s0 x, m' !! s0 = Some x → s0 ≠ s ∧ slots w !! s0 = Some x ∨ s0 = s ∧ s_notifications x = []) as Hback.
  { intros s0 x Hx. destruct (decide (s0 = s)) as [->|n]; [right; split; [done|]; by apply (Hnew x)|left; by rewrite <-Hother]. }
  split; simpl; try done.
  - intros r e n s0 c' t' He Hin. destruct (H3 r e n s0 c' t' He Hin) as (Er & x & Hx & Hc & Ht & Hno). split; [done|].
    exists x. split; [|done]. rewrite Hother; [done|]. intros ->. pose proof (memo_alive _ _ _ _ Hm He) as Hal. subst r.
    rewrite (Hnone x c' Hx Hc Hal) in Hno. by apply elem_of_nil in Hno.
  - intros s0 x c Hx HE Hc Hal. destruct (decide (s0 = s)) as [->|n].
    + left. destruct (Hnew x Hx) as (_ & _ & H). by apply (H c Hc).
    + rewrite Hother in Hx by done. apply (H4 s0 x c Hx); [|done..]. by intros [?|?]%elem_of_cons.
  - intros s0 x r n [[_ Hx]|[_ ->]]%Hback Hr; [by apply (H5 s0 x)|by apply elem_of_nil in Hr].
  - intros s0 x [[_ Hx]|[_ ->]]%Hback; [by apply (H6 s0)|constructor].
  - intros s0 x s1 x1 r [[_ Hx]|[_ ->]]%Hback [[_ Hx1]|[_ ->]]%Hback Hr Hr1; [by apply (H7 s0 x s1 x1 r)|..].
    all: try (by apply elem_of_nil in Hr); by apply elem_of_nil in Hr1.
  - intros s0 [x Hx]. destruct (decide (s0 = s)) as [->|n]; [by apply (Hnew x)|]. apply H8. rewrite <-Hother by done. by exists x.
  - intros s0 x c Hx Hc. destruct (decide (s0 = s)) as [->|n]; [destruct (Hnew x Hx) as (_ & _ & H); by apply (H c Hc)|].
    rewrite Hother in Hx by done. by apply (H9 s0 x c).
  - intros s0 x [[_ Hx]|[_ ->]]%Hback Hf; [by apply (H10 s0)|done].
Qed.

(** ** Making a slot *)
Definition allocated (p : any_pointer) (o : option ctx) (w : TypeWorld) : TypeWorld :=
  set_next_slot_id (S (next_slot_id w)) (set_slots (<[next_slot_id w := mkSlot p [] o]> (slots w)) w).

Lemma allocated_ok p o E w : types_inv no_hole [] E w → (∀ c, o = Some c → c < next_ctx (tree w)) →
  types_inv no_hole [] (next_slot_id w :: E) (allocated p o w).
Proof.
  intros [Hm [H1 H2 H3 H4 H5 H6 H7 H8 H9 H10]] Ho. split; [apply memos_counter; by apply memos_slots|].
  assert (slots w !! next_slot_id w = None) as Hfree.
  { destruct (slots w !! next_slot_id w) as [x|] eqn:E0; [|done]. pose proof (H8 _ (ex_intro _ x E0)). lia. }
  assert (∀ s x, <[next_slot_id w := mkSlot p [] o]> (slots w) !! s = Some x →
    s = next_slot_id w ∧ x = mkSlot p [] o ∨ s ≠ next_slot_id w ∧ slots w !! s = Some x) as Hback.
  { intros s x [[<- <-]|[? ?]]%lookup_insert_Some; auto. }
  split; simpl; try done.
  - intros r e n s c' t' He Hin. destruct (H3 r e n s c' t' He Hin) as (? & x & Hx & ?). split; [done|]. exists x.
    rewrite lookup_insert_ne by congruence. by split.
  - intros s x c [[-> _]|[_ Hx]]%Hback HE; [by destruct HE; left|]. apply (H4 s x c Hx). intros ?. apply HE. by right.
  - intros s x r n [[-> ->]|[_ Hx]]%Hback; [by intros ?%elem_of_nil|by apply (H5 s)].
  - intros s x [[-> ->]|[_ Hx]]%Hback; [constructor|by apply (H6 s)].
  - intros s x s' x' r [[-> ->]|[_ Hx]]%Hback [[-> ->]|[_ Hx']]%Hback; [done|by intros ?%elem_of_nil|by intros _ ?%elem_of_nil|by apply (H7 s x s' x')].
  - intros s [x [[-> ->]|[_ Hx]]%Hback]; [lia|]. pose proof (H8 s (ex_intro _ x Hx)). lia.
  - intros s x c [[-> ->]|[_ Hx]]%Hback; [apply Ho|by apply (H9 s)].
  - intros s x [[-> ->]|[_ Hx]]%Hback; [done|by apply (H10 s)].
Qed.

(** What a search returns is signalled exactly if it has a value. *)
Lemma memo_signalled X E w r e : types_inv X [] E w → find_memo w r = Some e → once_get (onSatisfied e) = filled (m_value e).
Proof.
  intros [_ Hs] He. destruct (si_once _ _ _ _ Hs r e He) as (_ & Hg & Hf).
  destruct (filled (m_value e)) eqn:E1; [by destruct (Hf eq_refl) as [?|?%elem_of_nil]|].
  destruct (once_get (onSatisfied e)) eqn:E2; [|done]. by destruct (Hg eq_refl).
Qed.

Lemma memo_wired X w a c t e : memos_inv X w → find_memo w (a, t) = Some e → below (tree w) a c = true →
  filled (m_value e) = true → wired w c (m_value e).
Proof.
  intros Hm He Hb [p Hp]%filled_some. destruct (mi_sound _ _ _ Hm a t e p He Hp) as (a' & d & Hb' & Hd & Hpr & _).
  exists a', d. rewrite (mi_type _ _ _ Hm a t e He), Hp. split_and!; [|done|by eexists|done].
  eapply below_trans; [by eapply types_older|done..].
Qed.

Lemma memo_complete w c t e : memos_inv no_hole w → find_memo w (c, t) = Some e → visible w c t → filled (m_value e) = true.
Proof. intros Hm He (a & d & Hb & Hd & Hp). by destruct (mi_complete _ _ _ Hm c t e a d He Hb Hd Hp) as [[]|[? _]]. Qed.

Lemma new_slot_ok fuel w p o : types_inv no_hole [] [] w → (∀ c, o = Some c → is_Some (contexts (tree w) !! c)) →
  (∀ c, o = Some c → filled p = true → wired w c p) → next_ctx (tree w) ≤ fuel →
  wp (new_slot pFromObj fuel p o)
    (λ s w', types_inv no_hole [] [] w' ∧ ∃ x, slots w' !! s = Some x ∧ m_ti (s_ptr x) = m_ti p ∧ s_context x = o) only_ambiguous w.
Proof.
  intros Hi Ho Hp Hf. set (this := next_slot_id w).
  assert (∀ c, o = Some c → c < next_ctx (tree w)) as Hlt.
  { intros c Hc. destruct (Ho c Hc) as [x Hx]. exact (to_next _ (st_tree _ (lf_settled _ (mi_life _ _ _ (proj1 Hi)))) c x Hx). }
  pose proof (allocated_ok p o [] w Hi Hlt) as Hi1. fold this in Hi1. set (w1 := allocated p o w) in *.
  assert (slots w1 !! this = Some (mkSlot p [] o)) as Hs1 by apply lookup_insert_eq.
  unfold new_slot. eapply wp_bind_run; [done|]. eapply wp_bind_run; [done|]. fold this. change (set_next_slot_id _ _) with w1.
  destruct o as [c|].
  2:{ apply wp_ret. split; [|by eexists]. replace w1 with (set_slots (slots w1) w1) by (by destruct w1).
      apply (replace_ok this); [done|intros x c Hx; rewrite Hs1 in Hx; by injection Hx as <-|done|]. intros x' Hx'. rewrite Hs1 in Hx'. injection Hx' as <-.
      split_and!; [unfold w1; simpl; lia|done|done]. }
  apply wp_catch, wp_bind.
  eapply wp_conseq; [apply (FindByType_ok pFromObj false fuel no_hole [this] w1 c (m_ti p) Hi1)| |].
  { by apply Ho. } { pose proof (Hlt c eq_refl). lia. } { intros _ a d _ []. }
  2:{ intros e w' ->. eapply wp_bind_run; [done|]. by apply wp_throw. }
  intros r w2 [[Hi2 (Et2 & Ec2 & Es2 & En2 & _) _ _ (Hr2 & Hb & e & He & Hor)] _]. cbn [when_open] in Hi2.
  assert (slots w2 !! this = Some (mkSlot p [] (Some c))) as Hs2 by (by rewrite Es2).
  destruct r as [a t']. simpl in Hr2, Hb. subst t'. set (t := m_ti p) in *. pose proof (memo_signalled _ _ _ _ _ Hi2 He) as Hsig.
  destruct (filled (m_value e)) eqn:Efl.
  - eapply wp_bind_run; [apply (memo_append_now (a, t) e); [done|done|]|].
    { intros s c' t' [= -> -> ->]%list_elem_of_singleton. split; [done|by eexists]. }
    apply wp_ret. split.
    + apply (replace_ok this); [done| |intros s' Hs'; by rewrite lookup_alter_ne|].
      { intros x c' Hx _ _. by simplify_eq. }
      intros x'. rewrite lookup_alter_eq, Hs2. intros [= <-]. simpl. split; [rewrite En2; simpl; lia|]. split; [done|].
      intros c' [= <-]. rewrite Et2. split; [by apply Hlt|]. intros _ _.
      eapply memo_wired; [apply (proj1 Hi2)|exact He|by rewrite Et2|done].
    + simpl. rewrite lookup_alter_eq, Hs2. eexists. split; [done|]. split; [|done]. by apply (mi_type _ _ _ (proj1 Hi2) a t e He).
  - destruct Hor as [[= ->]|]; [|congruence].
    eapply wp_bind_run; [by apply memo_append_later|]. cbn match.
    eapply wp_bind_run; [by apply load_slot_run|]. eapply wp_bind_run; [by eapply store_slot_run|].
    apply wp_ret. simpl. split; [|by rewrite lookup_insert_eq; eexists].
    assert (set_slots (<[this := mkSlot p [((c, t), next_registration (onSatisfied e))] (Some c)]> (slots w2))
        (put_memo (c, t) (registered (h_slot this c t) e) w2) = append_world (Some this) c t (h_slot this c t) e w2) as Ew.
    { unfold append_world, noted. by rewrite (alter_alt_Some _ _ _ _ Hs2). }
    refine (eq_ind_r (types_inv no_hole [] []) _ Ew).
    apply (append_ok _ [this]); try done.
    + intros s x [= <-] Hx. simplify_eq. split; [done|]. simpl. destruct (filled p) eqn:Efp; [|done].
      destruct (wired_visible _ _ _ _ (Hp c eq_refl eq_refl)) as [_ Hv]. rewrite (memo_complete w2 c t e (proj1 Hi2) He) in Efl; [done|].
      apply (visible_mono _ w); [by rewrite Et2| |exact Hv]. intros. by rewrite Ec2.
    + intros s c' t' [= <- <- <-]. split_and!; try done. by eexists.
    + intros s [-> |?%elem_of_nil]%elem_of_cons; [by right|done].
Qed.

(** ** Asking to be notified *)
Lemma notified_ok X Y E l w : types_inv X Y E w → types_inv X Y E (set_notified l w).
Proof. intros [[] []]. by split. Qed.

Lemma append_function_ok w c t e n : types_inv no_hole [] [] w → find_memo w (c, t) = Some e →
  wp (memo_append (c, t) (h_function n)) (λ _ w', types_inv no_hole [] [] w' ∧ tree w' = tree w) never w.
Proof.
  intros Hi He. destruct (once_get (onSatisfied e)) eqn:Hg.
  - eapply wp_run; [by apply (memo_append_now _ e); [..|intros s c' t' ?%list_elem_of_singleton]|].
    split; [by apply notified_ok|done].
  - eapply wp_run; [by apply (memo_append_later _ e)|]. split; [|done].
    change (types_inv no_hole [] [] (append_world None c t (h_function n) e w)).
    apply (append_ok _ []); try done. by left.
Qed.

Lemma NotifyWhenAutowired_ok fuel w c t n : types_inv no_hole [] [] w → is_Some (contexts (tree w) !! c) →
  next_ctx (tree w) ≤ fuel →
  wp (NotifyWhenAutowired pFromObj fuel c t n) (λ _ w', types_inv no_hole [] [] w') only_ambiguous w.
Proof.
  intros Hi Hc Hf. assert (c < next_ctx (tree w)) as Hlt.
  { destruct Hc as [x Hx]. exact (to_next _ (st_tree _ (lf_settled _ (mi_life _ _ _ (proj1 Hi)))) c x Hx). }
  unfold NotifyWhenAutowired. apply wp_bind.
  eapply wp_conseq; [apply (FindByType_ok pFromObj false fuel no_hole [] w c t Hi Hc)| |done]; [lia|intros _ a d _ []|].
  intros [a t'] w1 [[Hi1 (Et1 & _) _ _ (Hr & _ & e & He & _)] _]. cbn [when_open] in Hi1. simpl in Hr. subst t'.
  apply wp_pushed, wp_bind.
  assert (types_inv no_hole [] [] (set_current (Some c) w1)) as Hi1'.
  { apply set_current_ok; [done|]. intros ? [= <-]. by rewrite Et1. }
  eapply wp_conseq; [by apply (append_function_ok (set_current (Some c) w1) a t e n Hi1')| |done].
  intros reg w2 [Hi2 Et2]. apply wp_ret. apply set_current_ok; [done|]. intros c' Hc'. rewrite Et2. simpl. by eapply current_alive.
Qed.

Lemma alive_context X w c : memos_inv X w → alive w c = bool_decide (is_Some (contexts (tree w) !! c)).
Proof.
  intros Hm. unfold alive, lock. destruct (contexts (tree w) !! c) as [x|] eqn:E; [|done].
  by destruct (life_context _ _ _ (mi_life _ _ _ Hm) E) as [-> _].
Qed.

Lemma slot_NotifyWhenAutowired_ok fuel w s n : types_inv no_hole [] [] w → is_Some (slots w !! s) →
  next_ctx (tree w) ≤ fuel →
  wp (slot_NotifyWhenAutowired pFromObj fuel s n) (λ _ w', types_inv no_hole [] [] w') only_ambiguous w.
Proof.
  intros Hi [x Hx] Hf. unfold slot_NotifyWhenAutowired. eapply wp_bind_run; [by apply load_slot_run|].
  destruct (filled (s_ptr x)) eqn:Efx; [by eapply wp_run; [done|apply notified_ok]|]. eapply wp_bind_run; [done|].
  destruct (s_context x) as [c|] eqn:Ecx; [|by apply wp_ret]. rewrite (alive_context _ _ _ (proj1 Hi)).
  case_bool_decide as Hc; [|by apply wp_ret].
  pose proof (si_context _ _ _ _ (proj2 Hi) s x c Hx Ecx) as Hlt. apply wp_bind.
  eapply wp_conseq; [apply (FindByType_ok pFromObj false fuel no_hole [] w c _ Hi Hc)| |done]; [lia|intros _ a d _ []|].
  intros [a t'] w1 [[Hi1 (Et1 & _ & Es1 & _) _ _ (Hr & _ & e & He & Hor)] _]. cbn [when_open] in Hi1. simpl in Hr. subst t'.
  assert (slots w1 !! s = Some x) as Hx1 by (by rewrite Es1).
  pose proof (memo_signalled _ _ _ _ _ Hi1 He) as Hsig. destruct (filled (m_value e)) eqn:Efl.
  - eapply wp_bind_run; [by apply (memo_append_now _ e); [..|intros s' c' t' ?%list_elem_of_singleton]|].
    by apply wp_ret, notified_ok.
  - destruct Hor as [[= ->]|]; [|congruence]. eapply wp_bind_run; [by apply memo_append_later|]. cbn match.
    eapply wp_bind_run; [by apply load_slot_run|]. eapply wp_run; [by eapply store_slot_run|].
    assert (append_world (Some s) c (m_ti (s_ptr x)) (h_function n) e w1 =
      set_slots (<[s := mkSlot (s_ptr x) (s_notifications x ++ [((c, m_ti (s_ptr x)), next_registration (onSatisfied e))]) (s_context x)]> (slots w1))
        (put_memo (c, m_ti (s_ptr x)) (registered (h_function n) e) w1)) as Ew.
    { unfold append_world, noted. by rewrite (alter_alt_Some _ _ _ _ Hx1). }
    refine (eq_ind _ (types_inv no_hole [] []) _ _ Ew). apply (append_ok _ []); try done; [|by left]. intros s' x' [= <-] Hx'. by simplify_eq.
Qed.

(** ** What a search finds *)
Lemma AutowiredFast_ok fuel w c t : types_inv no_hole [] [] w → is_Some (contexts (tree w) !! c) →
  next_ctx (tree w) ≤ fuel →
  wp (AutowiredFast pFromObj fuel c t)
    (λ p w', types_inv no_hole [] [] w' ∧ (is_Some p ↔ visible w c t) ∧
       ∀ q, p = Some q → ∃ a d, below (tree w) a c = true ∧ d ∈ concrete w a ∧ provides pFromObj t d = Some q) only_ambiguous w.
Proof.
  intros Hi Hc Hf. assert (c < next_ctx (tree w)) as Hlt.
  { destruct Hc as [x Hx]. exact (to_next _ (st_tree _ (lf_settled _ (mi_life _ _ _ (proj1 Hi)))) c x Hx). }
  unfold AutowiredFast. apply wp_bind.
  eapply wp_conseq; [apply (FindByType_ok pFromObj false fuel no_hole [] w c t Hi Hc)| |done]; [lia|intros _ a d _ []|].
  intros [a t'] w1 [[Hi1 (Et1 & Ec1 & _) _ _ (Hr & Hb & e & He & Hor)] _]. cbn [when_open] in Hi1. simpl in Hr, Hb. subst t'.
  eapply wp_bind_run; [by apply load_memo_run|]. apply wp_ret. split; [done|].
  assert (∀ q, m_ptr (m_value e) = Some q → ∃ a d, below (tree w) a c = true ∧ d ∈ concrete w a ∧ provides pFromObj t d = Some q) as Hq.
  { intros q Hq. destruct (mi_sound _ _ _ (proj1 Hi1) a t e q He Hq) as (b & d & Hb' & Hd & Hp & _). exists b, d.
    rewrite Ec1 in Hd. rewrite Et1 in Hb'. split_and!; [|done|done]. eapply below_trans; [eapply types_older, (proj1 Hi)|done|done]. }
  split; [|done]. split.
  - intros [q Hp]. destruct (Hq q Hp) as (b & d & ? & ? & Hpr). exists b, d. rewrite Hpr. by split_and!.
  - intros Hv. apply filled_some. destruct Hor as [[= ->]|]; [|done]. apply (memo_complete w1 c t e (proj1 Hi1) He).
    eapply visible_mono; [exact Et1| |exact Hv]. intros. by rewrite Ec1.
Qed.

(** ** Resetting *)
(** The world in which slot [s] still is [x]. *)
Definition with_slot (s : slot_id) (x : Slot) (w : TypeWorld) : TypeWorld := set_slots (<[s := x]> (slots w)) w.

Definition remaining (e : MemoEntry) (l : list (nat * listener)) : MemoEntry :=
  set_onSatisfied (mkOnce (once_m_state (onSatisfied e)) l (next_registration (onSatisfied e))) e.

(** [l] are the listeners without registration [n], if it was there. *)
Definition without (n : nat) (o : once listener) (l : list (nat * listener)) : Prop :=
  (once_get o = true ∧ m_fns o = [] ∧ l = []) ∨ (once_get o = false ∧ ∃ h, m_fns o ≡ₚ (n, h) :: l).

Lemma memo_remove_run r n e w : find_memo w r = Some e →
  (once_get (onSatisfied e) = true → m_fns (onSatisfied e) = []) →
  (once_get (onSatisfied e) = false → n ∈ (m_fns (onSatisfied e)).*1) →
  ∃ b l, memo_remove r n w = (Ret b, put_memo r (remaining e l) w) ∧ without n (onSatisfied e) l.
Proof.
  intros He Hg Hn. unfold memo_remove, once_remove, load_once, store_once.
  erewrite bind_Ret by (by erewrite bind_Ret by by apply load_memo_run).
  destruct (once_get (onSatisfied e)) eqn:E.
  - exists false, []. rewrite put_memo_id; [split; [done|]; left; auto|]. rewrite He. f_equal. unfold remaining.
    rewrite <-(Hg eq_refl). by destruct e as [[] ? ? ?].
  - destruct (swap_remove_found n (m_fns (onSatisfied e)) (Hn eq_refl)) as (l & h & -> & Hp). exists true, l.
    split; [by erewrite bind_Ret by by apply update_memo_run|]. right. split; [done|by exists h].
Qed.

Lemma without_facts n o l : without n o l → NoDup (m_fns o).*1 →
  NoDup l.*1 ∧ (∀ f, f ∈ l → f ∈ m_fns o ∧ f.1 ≠ n) ∧ ∀ f, f ∈ m_fns o → f.1 ≠ n → f ∈ l.
Proof.
  intros [(_ & -> & ->)|(_ & h & Hp)] Hnd; [by split_and!; [|intros f ?%elem_of_nil|]|]. rewrite Hp in Hnd. simpl in Hnd.
  apply NoDup_cons in Hnd as [Hnin Hnd]. split_and!; [done| |].
  - intros f Hf. split; [rewrite Hp; by right|]. intros <-. by apply Hnin, list_elem_of_fmap_2.
  - intros f. rewrite Hp. by intros [-> |?]%elem_of_cons.
Qed.

Lemma drop_note E w s x c t n l : types_inv no_hole [] (s :: E) (with_slot s x w) →
  s_notifications x = ((c, t), n) :: l → s_context x = Some c → is_Some (contexts (tree w) !! c) →
  ∃ b w', memo_remove (c, t) n w = (Ret b, w') ∧ tree w' = tree w ∧ slots w' = slots w ∧
    types_inv no_hole [] (s :: E) (with_slot s (mkSlot (s_ptr x) l (s_context x)) w').
Proof.
  intros [Hm [H1 H2 H3 H4 H5 H6 H7 H8 H9 H10]] Hx Hc Hal. set (w0 := with_slot s x w) in *.
  assert (slots w0 !! s = Some x) as Hs by apply lookup_insert_eq.
  assert (((c, t), n) ∈ s_notifications x) as Hin by (rewrite Hx; left).
  destruct (H5 s x _ _ Hs Hin) as [_ He]. destruct (He Hal) as (e & He0 & Hlt & Hg). clear He.
  destruct (H1 _ e He0) as (_ & Hg' & _). destruct (H2 _ e He0) as [Hnd Hbound].
  destruct (memo_remove_run (c, t) n e w He0 (λ H, proj2 (Hg' H)) Hg) as (b & l' & Erun & Hw).
  exists b, (put_memo (c, t) (remaining e l') w). split; [done|]. split; [done|]. split; [done|].
  destruct (without_facts _ _ _ Hw Hnd) as (Hnd' & Hsub & Hkeep).
  set (w' := with_slot s _ (put_memo _ _ _)).
  assert (∀ r, find_memo w' r = if decide (r = (c, t)) then Some (remaining e l') else find_memo w0 r) as Hfind by (intros r; exact (find_put_memo (c, t) _ w r)).
  assert (∀ c, concrete w' c = concrete w0 c) as Ec by (intros c'; exact (concrete_put_memo (c, t) _ w c')).
  assert (∀ s' x', slots w' !! s' = Some x' → s' = s ∧ x' = mkSlot (s_ptr x) l (s_context x) ∨ s' ≠ s ∧ slots w0 !! s' = Some x') as Hback.
  { intros s' x'. unfold w'. simpl. intros [[<- <-]|[? Hx']]%lookup_insert_Some; [by left|right]. split; [done|]. unfold w0. simpl. by rewrite lookup_insert_ne. }
  pose proof (H6 s x Hs) as Hndx. rewrite Hx in Hndx. apply NoDup_cons in Hndx as [Hnl Hndl].
  assert (∀ r k, (r, k) ∈ l → (r, k) ∈ s_notifications x) as Hl by (intros r k; rewrite Hx; by right).
  split; [apply memos_slots; apply (memos_signal _ w); [by destruct Hm; split|exact He0]|]. split; simpl; try done.
  - intros r e'. rewrite Hfind. case_decide as Hr; [intros [= <-]|apply H1]. destruct (H1 _ e He0) as (Hx1 & Hx2 & Hx3).
    split_and!; [exact Hx1| |intros Hf; destruct (Hx3 Hf) as [?|?%elem_of_nil]; [by left|done]].
    intros Hgt. destruct (Hx2 Hgt). split; [done|]. destruct Hw as [(_ & _ & ->)|(Hgf & _)]; [done|]. change (once_get (onSatisfied e) = true) in Hgt. congruence.
  - intros r e'. rewrite Hfind. case_decide as Hr; [intros [= <-]|apply H2]. split; [done|]. simpl.
    intros k (f & -> & Hf)%list_elem_of_fmap. apply Hbound, list_elem_of_fmap_2. by apply Hsub.
  - intros r e' k s' c' t' He' Hk.
    assert (∃ e0, find_memo w0 r = Some e0 ∧ (k, h_slot s' c' t') ∈ m_fns (onSatisfied e0) ∧ (r, k) ≠ ((c, t), n)) as (e0 & Hr0 & Hk0 & Hne).
    { rewrite Hfind in He'. case_decide as Hr; [injection He' as <-; subst; exists e; destruct (Hsub _ Hk)|exists e'].
      - split_and!; [done|done|]. simpl in *. congruence.
      - split_and!; [done|done|congruence]. }
    destruct (H3 r e0 k s' c' t' Hr0 Hk0) as (? & x0 & Hx0 & Hc0 & Ht0 & Hno). split; [done|].
    destruct (decide (s' = s)) as [->|n0]; [|exists x0; rewrite lookup_insert_ne by done; unfold w0 in Hx0; simpl in Hx0; by rewrite lookup_insert_ne in Hx0].
    assert (x0 = x) as -> by congruence. rewrite lookup_insert_eq. eexists. split; [done|]. simpl. split_and!; [done|done|].
    rewrite Hx in Hno. apply elem_of_cons in Hno as [?|?]; [congruence|done].
  - intros s' x' c' [[-> _]|[Hn Hx']]%Hback HE Hc' Hal'; [by destruct HE; left|].
    destruct (H4 s' x' c' Hx' HE Hc' Hal') as [Hv|(k & e0 & He & Hk)]; [left|right].
    + eapply wired_mono; [| |exact Hv]; [done|]. intros. by rewrite Ec.
    + rewrite Hfind. case_decide as Hr; [|by exists k, e0]. exists k, (remaining e l'). split; [done|]. rewrite Hr in He.
      assert (e0 = e) as -> by congruence. apply Hkeep; [done|]. simpl. intros ->. destruct Hn.
      destruct (H3 _ e n s' _ _ He0 Hk) as (_ & x0 & Hx0 & _ & _ & Hno). by apply (H7 s' x0 s x ((c, t), n)).
  - intros s' x' r k Hx' Hk.
    assert (∃ x0, slots w0 !! s' = Some x0 ∧ s_context x0 = s_context x' ∧ (r, k) ∈ s_notifications x0 ∧ (r, k) ≠ ((c, t), n)) as (x0 & Hx0 & Ec0 & Hk0 & Hne).
    { destruct (Hback s' x' Hx') as [[-> ->]|[Hn Hx0]]; [exists x|exists x'].
      - simpl in Hk. split_and!; [done|done|by apply Hl|]. intros [= -> ->]. done.
      - split_and!; [done|done|done|]. intros [= -> ->]. destruct Hn. by apply (H7 s' x' s x ((c, t), n)). }
    destruct (H5 s' x0 r k Hx0 Hk0) as [? H]. split; [congruence|]. intros Halr. destruct (H Halr) as (e0 & He1 & Hlt1 & Hg1).
    rewrite Hfind. case_decide as Hr; [|by exists e0]. subst r. assert (e0 = e) as -> by congruence. eexists. split; [done|]. split; [done|].
    intros Hgf. apply Hg1 in Hgf. apply list_elem_of_fmap in Hgf as (f & -> & Hf). apply list_elem_of_fmap_2, Hkeep; [done|]. congruence.
  - intros s' x' [[-> ->]|[_ Hx']]%Hback; [done|by apply (H6 s')].
  - intros s1 x1 s2 x2 r Hx1 Hx2 Hr1 Hr2 Halr.
    assert (∀ s' x', slots w' !! s' = Some x' → r ∈ s_notifications x' → ∃ x0, slots w0 !! s' = Some x0 ∧ r ∈ s_notifications x0) as Hup.
    { intros s' x' [[-> ->]|[_ Hx']]%Hback Hr; [exists x; split; [done|]; destruct r; by apply Hl|by exists x']. }
    destruct (Hup s1 x1 Hx1 Hr1) as (y1 & Hy1 & ?). destruct (Hup s2 x2 Hx2 Hr2) as (y2 & Hy2 & ?). by apply (H7 s1 y1 s2 y2 r).
  - intros s' [x' [[-> ->]|[_ Hx']]%Hback]; [apply (H8 s)|apply (H8 s')]; by eexists.
  - intros s' x' c' [[-> ->]|[_ Hx']]%Hback; [by apply (H9 s x)|by apply (H9 s')].
  - intros s' x' [[-> ->]|[_ Hx']]%Hback; [simpl|by apply (H10 s')]. intros Hf. rewrite (H10 s x Hs Hf) in Hx. done.
Qed.

Lemma exempt s X Y E w : types_inv X Y E w → types_inv X Y (s :: E) w.
Proof.
  intros [Hm [H1 H2 H3 H4 H5 H6 H7 H8 H9 H10]]. split; [done|]. split; try done. intros s' x c Hs HE. apply (H4 s' x c Hs).
  intros ?. apply HE. by right.
Qed.

Lemma drop_notes E s p c l : ∀ w, types_inv no_hole [] (s :: E) (with_slot s (mkSlot p l (Some c)) w) →
  is_Some (contexts (tree w) !! c) →
  wp (for_each (λ n : memo_ref * nat, _ ← memo_remove n.1 n.2; mret tt) l)
    (λ _ w', types_inv no_hole [] (s :: E) (with_slot s (mkSlot p [] (Some c)) w') ∧ slots w' = slots w) never w.
Proof.
  induction l as [|[[c' t] n] l IH]; intros w Hi Hc; cbn [for_each]; [by apply wp_ret|].
  assert (c' = c) as ->.
  { destruct (si_notes _ _ _ _ (proj2 Hi) s (mkSlot p (((c', t), n) :: l) (Some c)) (c', t) n) as [[= ->] _]; [apply lookup_insert_eq|left|done]. }
  destruct (drop_note E w s _ c t n l Hi eq_refl eq_refl Hc) as (b & w1 & E1 & Et1 & Es1 & Hi1).
  eapply wp_bind_run; [by erewrite bind_Ret by exact E1|].
  eapply wp_conseq; [apply (IH w1 Hi1)| |done]; [by rewrite Et1|]. intros [] w' [? Es]. split; [done|congruence].
Qed.

Lemma reset_ok s x w : types_inv no_hole [] [] w → slots w !! s = Some x →
  wp (reset s) (λ _ w', types_inv no_hole [] [] w' ∧
    slots w' = <[s := mkSlot (mkAny (m_ti (s_ptr x)) None) [] None]> (slots w)) never w.
Proof.
  intros Hi Hx. unfold reset. eapply wp_bind_run; [by apply load_slot_run|]. eapply wp_bind_run; [by eapply store_slot_run|].
  set (x' := mkSlot (mkAny (m_ti (s_ptr x)) None) [] None). set (w1 := set_slots _ w). eapply wp_bind_run; [done|].
  assert (with_slot s x w1 = w) as Ew.
  { unfold with_slot, w1, set_slots. simpl. rewrite insert_insert_eq, insert_id by done. by destruct w. }
  assert (∀ y w', types_inv no_hole [] [s] (with_slot s y w') → slots w' = slots w1 →
    (∀ c, s_context y = Some c → is_Some (contexts (tree w') !! c) → s_notifications y = []) → types_inv no_hole [] [] w') as Hdone.
  { intros y w' Hi' Es Hy. replace w' with (set_slots (slots w') (with_slot s y w')) by (by destruct w').
    apply (replace_ok s); [done|..].
    - intros y' c Hy' Hc Hal. simpl in Hy'. rewrite lookup_insert_eq in Hy'. injection Hy' as <-. by apply (Hy c).
    - intros s' n. simpl. by rewrite lookup_insert_ne.
    - intros y'. rewrite Es. simpl. rewrite lookup_insert_eq. intros [= <-]. split; [|by split].
      apply (si_fresh _ _ _ _ (proj2 Hi') s). simpl. rewrite lookup_insert_eq. by eexists. }
  assert (types_inv no_hole [] [s] (with_slot s x w1)) as Hi1 by (rewrite Ew; by apply exempt).
  assert (wp (mret tt) (λ (_ : unit) w', types_inv no_hole [] [] w' ∧ slots w' = slots w1) never w1 ∨
    ∃ c, s_context x = Some c ∧ is_Some (contexts (tree w) !! c)) as Hcase.
  { destruct (s_context x) as [c|] eqn:Hc; [destruct (decide (is_Some (contexts (tree w) !! c))) as [Hal|Hal]; [right; by exists c|]|].
    all: left; apply wp_ret; split; [|done]; apply (Hdone x); [done|done|]; simpl; intros; congruence. }
  destruct (s_context x) as [c|] eqn:Hc; [|by destruct Hcase as [?|(? & ? & _)]].
  replace (alive w1 c) with (alive w c) by done. rewrite (alive_context _ _ _ (proj1 Hi)).
  case_bool_decide as Hal; [|by destruct Hcase as [?|(? & [= <-] & ?)]].
  eapply wp_conseq; [apply (drop_notes [] s (s_ptr x) c (s_notifications x) w1)| |done]; [|done|].
  - by rewrite <-Hc; destruct x.
  - intros [] w' [Hi' Es]. split; [|done]. by apply (Hdone _ w' Hi').
Qed.

Lemma delete_slot_ok s x w : types_inv no_hole [] [] w → slots w !! s = Some x →
  wp (delete_slot s) (λ _ w', types_inv no_hole [] [] w' ∧ slots w' = delete s (slots w)) never w.
Proof.
  intros Hi Hx. unfold delete_slot. apply wp_bind. eapply wp_conseq; [by apply (reset_ok s x)| |done].
  intros [] w1 [Hi1 Es1]. eapply wp_run; [done|]. split.
  - apply (replace_ok s); [by apply exempt| | |].
    + intros y c Hy Hc. rewrite Es1, lookup_insert_eq in Hy. by injection Hy as <-.
    + intros s' n. by rewrite lookup_delete_ne.
    + intros y. by rewrite lookup_delete_eq.
  - simpl. rewrite Es1. apply delete_insert_eq.
Qed.
End slots.
