(* ===== verification/AutowiringSpec.v ===== *)
(** * Autowiring, from outside: a slot is filled exactly if the object is in sight

    A client of the type memos makes and ends contexts, injects objects, makes
    slots, searches, asks to be notified, in any order.  The promise of deferred
    autowiring is stated on the contexts and their objects alone. *)
From stdpp Require Import base gmap list sets strings.
From Stdlib Require Import ZArith Lia.
From S2P Require Import Prelude.
From S2P Require Import Once.
From S2P Require Import CoreContext.
From S2P Require Import CoreContextFacts.
From S2P Require Import ContextLifecycle.
From S2P Require Import ContextEnumerator.
From S2P Require Import ContextClients.
From S2P Require Import ContextTree.
From S2P Require Import TypeMemos.
From S2P Require Import TypeFacts.
From S2P Require Import TypeOperations.
From S2P Require Import TypeSlots.

Inductive wiring_op :=
  | w_tree (o : lifecycle_op)
  | w_inject (c : ctx) (d : CoreObjectDescriptor)
  | w_autowire (c : option ctx) (t : type_id)
  | w_fast (c : ctx) (t : type_id)
  | w_notify (c : ctx) (t : type_id) (n : nat)
  | w_slot_notify (s : slot_id) (n : nat)
  | w_copy (s : slot_id)
  | w_reset (s : slot_id)
  | w_destroy (s : slot_id).

(** The members of a context die with it. *)
Definition drop_members : M TypeWorld unit :=
  modify (λ w, set_types (base.filter (λ p, is_Some (contexts (tree w) !! p.1)) (types w)) w).

(** Clients hold the contexts and slots they use. *)
Definition with_live (c : ctx) (m : M TypeWorld unit) : M TypeWorld unit :=
  w ← get; if alive w c then m else mret tt.
Definition with_held (s : slot_id) (m : M TypeWorld unit) : M TypeWorld unit :=
  w ← get; if bool_decide (is_Some (slots w !! s)) then m else mret tt.

Section spec.
  Context (pFromObj : type_id → option (address → option address)) (OnStart_result : runnable → bool).

(** One operation, with as much fuel as there ever were contexts; an exception of
    an operation on the tree is caught. *)
Definition run_wiring_op (o : wiring_op) : M TypeWorld unit :=
  w ← get;
  let fuel := next_ctx (tree w) in
  match o with
  | w_tree o => try_catch (on_tree (run_lifecycle_op OnStart_result o)) (λ _, mret tt);; drop_members
  | w_inject c d => with_live c (_ ← Inject pFromObj OnStart_result fuel c (type d) (actual_type d) (mret d); mret tt)
  | w_autowire None t => _ ← new_slot pFromObj fuel (mkAny t None) None; mret tt
  | w_autowire (Some c) t => with_live c (_ ← new_slot pFromObj fuel (mkAny t None) (Some c); mret tt)
  | w_fast c t => with_live c (_ ← AutowiredFast pFromObj fuel c t; mret tt)
  | w_notify c t n => with_live c (NotifyWhenAutowired pFromObj fuel c t n)
  | w_slot_notify s n => with_held s (slot_NotifyWhenAutowired pFromObj fuel s n)
  | w_copy s => with_held s (_ ← copy_slot pFromObj fuel s; mret tt)
  | w_reset s => with_held s (reset s)
  | w_destroy s => with_held s (delete_slot s)
  end.

Definition run_wiring (l : list wiring_op) : M TypeWorld unit := for_each run_wiring_op l.

(** What a client injects: a constructed object, of a type derived from the one
    named, that is neither a bolt nor a runnable. *)
Record injectable (d : CoreObjectDescriptor) : Prop := {
  ij_object : object_ok pFromObj d;
  ij_base : ∀ d', is_Some (provides pFromObj (actual_type d) d') → is_Some (provides pFromObj (type d) d');
  ij_bolt : pBoltBase d = None;
  ij_runnable : pCoreRunnable d = None }.

Definition wiring_op_ok (o : wiring_op) : Prop :=
  match o with w_inject _ d => injectable d | _ => True end.

Definition quiescent (w : TypeWorld) : Prop := types_inv pFromObj no_hole [] [] w.

Lemma quiescent_new : quiescent TypeWorld_new.
Proof.
  assert (∀ r, find_memo TypeWorld_new r = None) as Hn by done.
  split; split; try done; try (by intros; rewrite Hn in *).
  - apply life_new.
  - by intros c [].
  - by intros c d ?%elem_of_nil.
  - by intros c d ?%elem_of_nil.
  - by intros s [].
Qed.

(** ** The tree changes, the types follow *)
Lemma drop_members_lookup (P : ctx → Prop) `{∀ c, Decision (P c)} (m : gmap ctx ContextTypes) c :
  base.filter (λ p : ctx * ContextTypes, P p.1) m !! c = if decide (P c) then m !! c else None.
Proof.
  destruct (base.filter _ m !! c) as [x|] eqn:E.
  - apply map_lookup_filter_Some in E as [-> Hp]. by rewrite decide_True.
  - symmetry. case_decide as Hp; [|done]. destruct (m !! c) as [x|] eqn:Em; [|done].
    apply map_lookup_filter_None in E as [?|E]; [congruence|]. by destruct (E x Em).
Qed.

Lemma tree_op_ok o w : quiescent w → wp (run_wiring_op (w_tree o)) (λ _, quiescent) only_ambiguous w.
Proof.
  intros Hi. pose proof (mi_life _ _ _ (proj1 Hi)) as Hl. cbn [run_wiring_op]. eapply wp_bind_run; [done|].
  assert (∃ t', try_catch (on_tree (run_lifecycle_op OnStart_result o)) (λ _, mret tt) w = (Ret tt, set_tree t' w) ∧
    goes_to (tree w) t') as (t' & E & Hl' & [Hp Hn Hnx]).
  { unfold try_catch, on_tree. destruct (lifecycle_op_returns OnStart_result o (tree w) Hl) as [(t' & -> & Ht)|(e & ->)].
    - by exists t'.
    - exists (tree w). simpl. split; [done|]. split; [done|by apply evolves_same]. }
  eapply wp_bind_run; [exact E|]. eapply wp_run; [done|]. eapply tree_step_inv; [|exact Hi].
  split; simpl; try done. intros c. exact (drop_members_lookup (λ c, is_Some (contexts t' !! c)) (types w) c).
Qed.

(** ** The promise to a slot *)
(** What is promised of a slot: an object of the context or an ancestor that is a
    [t] is in it, if there is one. *)
Definition well_wired (w : TypeWorld) (c : ctx) (x : Slot) : Prop :=
  if filled (s_ptr x) then wired pFromObj w c (s_ptr x) else ¬ visible pFromObj w c (m_ti (s_ptr x)).

Lemma slot_well_wired w s x c : quiescent w → slots w !! s = Some x → s_context x = Some c →
  is_Some (contexts (tree w) !! c) → well_wired w c x.
Proof.
  intros [Hm Hs] Hx Hc Hal. unfold well_wired.
  destruct (si_slot _ _ _ _ Hs s x c Hx) as [Hw|(n & e & He & Hin)]; [by intros ?%elem_of_nil|done..| |].
  - by destruct (wired_visible _ _ _ _ Hw) as [-> _].
  - destruct (si_listener _ _ _ _ Hs _ e n s _ _ He Hin) as (_ & x0 & Hx0 & _ & _ & Hno). assert (x0 = x) as -> by congruence.
    destruct (filled (s_ptr x)) eqn:Hf; [rewrite (si_filled _ _ _ _ Hs s x Hx Hf) in Hno; by apply elem_of_nil in Hno|].
    intros Hv. pose proof (memo_complete _ _ _ _ _ Hm He Hv) as Hfe.
    destruct (si_once _ _ _ _ Hs _ e He) as (_ & Hg & Hy). destruct (Hy Hfe) as [Hget|?%elem_of_nil]; [|done].
    destruct (Hg Hget) as [_ Hnil]. rewrite Hnil in Hin. by apply elem_of_nil in Hin.
Qed.

Lemma copy_slot_ok fuel w s x : quiescent w → slots w !! s = Some x → next_ctx (tree w) ≤ fuel →
  wp (copy_slot pFromObj fuel s) (λ s' w', quiescent w' ∧
    ∃ x', slots w' !! s' = Some x' ∧ m_ti (s_ptr x') = m_ti (s_ptr x)) only_ambiguous w.
Proof.
  intros Hi Hx Hf. unfold copy_slot. eapply wp_bind_run; [by apply load_slot_run|]. eapply wp_bind_run; [done|].
  eapply wp_conseq; [apply (new_slot_ok pFromObj _ w); [done| | |done]| |done].
  - intros c. destruct (s_context x) as [c'|]; [|done]. rewrite (alive_context _ _ _ _ (proj1 Hi)).
    case_bool_decide as Hal; [|done]. by intros [= <-].
  - intros c. destruct (s_context x) as [c'|] eqn:Hc; [|done]. rewrite (alive_context _ _ _ _ (proj1 Hi)).
    case_bool_decide as Hal; [|done]. intros [= <-] Hfl. pose proof (slot_well_wired w s x c' Hi Hx Hc Hal) as Hw.
    unfold well_wired in Hw. by rewrite Hfl in Hw.
  - intros s' w' (Hi' & x' & Hx' & Ht & _). split; [done|]. by exists x'.
Qed.

(** ** Every operation *)
Lemma with_live_ok c m w : quiescent w →
  (is_Some (contexts (tree w) !! c) → wp m (λ _, quiescent) only_ambiguous w) →
  wp (with_live c m) (λ _, quiescent) only_ambiguous w.
Proof.
  intros Hi Hm. unfold with_live. eapply wp_bind_run; [done|]. rewrite (alive_context _ _ _ _ (proj1 Hi)).
  case_bool_decide; [by apply Hm|by apply wp_ret].
Qed.

Lemma with_held_ok s m w : quiescent w →
  (∀ x, slots w !! s = Some x → wp m (λ _, quiescent) only_ambiguous w) →
  wp (with_held s m) (λ _, quiescent) only_ambiguous w.
Proof.
  intros Hi Hm. unfold with_held. eapply wp_bind_run; [done|]. case_bool_decide as H; [|by apply wp_ret].
  destruct H as [x Hx]. by apply (Hm x).
Qed.

Lemma run_wiring_op_ok o w : wiring_op_ok o → quiescent w → wp (run_wiring_op o) (λ _, quiescent) only_ambiguous w.
Proof.
  intros Hok Hi. destruct o as [o|c d|[c|] t|c t|c t n|s n|s|s|s]; [by apply tree_op_ok|..];
    (eapply wp_bind_run; [done|]).
  - apply with_live_ok; [done|]. intros Hc. destruct Hok. apply wp_bind.
    eapply wp_conseq; [by apply (Inject_ok pFromObj OnStart_result _ [])| |done]. intros p w' [? _]. by apply wp_ret.
  - apply with_live_ok; [done|]. intros Hc. apply wp_bind.
    eapply wp_conseq; [apply (new_slot_ok pFromObj); [done|by intros ? [= <-]|done..]| |done]. intros s w' [? _]. by apply wp_ret.
  - apply wp_bind. eapply wp_conseq; [by apply (new_slot_ok pFromObj)| |done]. intros s w' [? _]. by apply wp_ret.
  - apply with_live_ok; [done|]. intros Hc. apply wp_bind.
    eapply wp_conseq; [by apply (AutowiredFast_ok pFromObj)| |done]. intros p w' [? _]. by apply wp_ret.
  - apply with_live_ok; [done|]. intros Hc. by apply (NotifyWhenAutowired_ok pFromObj).
  - apply with_held_ok; [done|]. intros x Hx. apply (slot_NotifyWhenAutowired_ok pFromObj); [done|by exists x|done].
  - apply with_held_ok; [done|]. intros x Hx. apply wp_bind.
    eapply wp_conseq; [by apply (copy_slot_ok _ w s x)| |done]. intros s' w' [? _]. by apply wp_ret.
  - apply with_held_ok; [done|]. intros x Hx. eapply wp_conseq; [by apply (reset_ok pFromObj s x)|by intros [] w' [? _]|done].
  - apply with_held_ok; [done|]. intros x Hx. eapply wp_conseq; [by apply (delete_slot_ok pFromObj s x)|by intros [] w' [? _]|done].
Qed.

Lemma run_wiring_ok l : ∀ w, Forall wiring_op_ok l → quiescent w → wp (run_wiring l) (λ _, quiescent) only_ambiguous w.
Proof.
  intros w Hl Hi. eapply wp_conseq; [apply (wp_for_each _ (λ l w, Forall wiring_op_ok l ∧ quiescent w))| |done]; [|done|].
  - intros o l' w' [[Ho Hl']%Forall_cons Hi']. eapply wp_conseq; [by apply run_wiring_op_ok|by split|done].
  - by intros [] w' [_ ?].
Qed.

(** C4. Deferred autowiring is sound and complete.  After any sequence of
    operations on contexts (made, started, shut down, released), objects
    injected into them, slots made, reset and destroyed, searches and requests to
    be notified, every slot of a context that lives is filled exactly if the
    context or one of its ancestors holds an object that is of the slot's type,
    and then it points to such an object, as that type; and a search made now
    finds something exactly if there is such an object.  The one exception a
    client can see is that a search is ambiguous; nothing gets stuck. *)
Theorem autowiring_sound_complete l :
  Forall wiring_op_ok l →
  match run_wiring l TypeWorld_new with
  | (Ret _, w) =>
    (∀ s x c, slots w !! s = Some x → s_context x = Some c → is_Some (contexts (tree w) !! c) → well_wired w c x) ∧
    (∀ c t, is_Some (contexts (tree w) !! c) →
       match AutowiredFast pFromObj (next_ctx (tree w)) c t w with
       | (Ret p, _) => is_Some p ↔ visible pFromObj w c t
       | (Throw e, _) => e = ambiguous_error
       | (Stuck _, _) => False
       end)
  | (Throw e, _) => e = ambiguous_error
  | (Stuck _, _) => False
  end.
Proof.
  intros Hl. pose proof (run_wiring_ok l TypeWorld_new Hl quiescent_new) as H. unfold wp in H.
  destruct (run_wiring l TypeWorld_new) as [[[]|e|e] w]; [|done..]. split.
  - intros s x c. by apply slot_well_wired.
  - intros c t Hc. pose proof (AutowiredFast_ok pFromObj (next_ctx (tree w)) w c t H Hc (le_n _)) as Ha. unfold wp in Ha.
    destruct (AutowiredFast _ _ _ _ w) as [[p|e|e] w']; [|done..]. by destruct Ha as (_ & ? & _).
Qed.
End spec.
