(* ===== verification/TypeExamples.v ===== *)
(** * Type memos: concrete runs

    The promise of AutowiringSpec.v at a concrete client, and what the code does
    where that promise ends: objects of the same type at different levels, [Add],
    constructors that throw, ambiguous types. *)
From stdpp Require Import base gmap list sets strings.
From Stdlib Require Import ZArith Lia.
From S2P Require Import Prelude.
From S2P Require Import Once.
From S2P Require Import CoreContext.
From S2P Require Import ContextTree.
From S2P Require Import TypeMemos.
From S2P Require Import TypeFacts.
From S2P Require Import AutowiringSpec.

(** Type 1 is an interface of every object, at offset 100; type [t] above 1 is
    that of the objects whose address is [t] modulo 10. *)
Definition casts (t : type_id) : option (address → option address) :=
  match t with
  | 0 => None
  | 1 => Some (λ o, Some (o + 100))
  | _ => Some (λ o, if Nat.eqb (o mod 10) t then Some o else None)
  end.

Definition object (o : address) : CoreObjectDescriptor :=
  mkObject (o mod 10) (o mod 10) (mkAny (o mod 10) (Some o)) (Some o) None None None.

Definition always (r : runnable) : bool := true.

Lemma object_injectable o : 1 < o mod 10 → injectable casts (object o).
Proof.
  intros H. assert (provides casts (o mod 10) (object o) = Some o) as Hp.
  { assert (casts (o mod 10) = Some (λ p, if Nat.eqb (p mod 10) (o mod 10) then Some p else None)) as Hc.
    { by destruct (o mod 10) as [|[|k]]; [lia..|]. }
    unfold provides. rewrite Hc. simpl. by rewrite Nat.eqb_refl. }
  change (provides casts (type (object o)) (object o) = Some o) in Hp.
  split; [split|done..]; [by exists o|by exists o|]. by change (actual_type (object o)) with (type (object o)); rewrite Hp.
Qed.

(** A slot waits in a grandchild, another in its parent; the object comes with
    the global context; a third slot finds it at once; the grandchild is left. *)
Definition sample_client : list wiring_op :=
  [w_tree (lc_create 0 1); w_tree (lc_create 1 1); w_autowire (Some 2) 1; w_autowire (Some 1) 2; w_notify 2 2 7;
   w_inject 0 (object 12); w_autowire (Some 1) 1; w_slot_notify 1 8; w_inject 2 (object 23);
   w_autowire (Some 2) 3; w_autowire (Some 1) 3; w_copy 1; w_slot_notify 4 9; w_reset 3; w_tree (lc_release 2); w_destroy 0].

Lemma sample_client_ok : Forall (wiring_op_ok casts) sample_client.
Proof. repeat (constructor; [first [exact I|apply object_injectable; simpl; lia]|]). constructor. Qed.

Lemma autowiring_sound_complete_witness :
  Forall (wiring_op_ok casts) sample_client ∧
  match run_wiring casts always sample_client TypeWorld_new with
  | (Ret _, w) =>
    IsAutowired w 1 = true ∧ IsAutowired w 4 = false ∧ IsAutowired w 5 = true ∧ notified w = [7; 8] ∧
    ∀ s x c, slots w !! s = Some x → s_context x = Some c → is_Some (contexts (tree w) !! c) → well_wired casts w c x
  | _ => False
  end.
Proof.
  split; [exact sample_client_ok|].
  pose proof (autowiring_sound_complete casts always sample_client sample_client_ok) as H. revert H.
  assert (match run_wiring casts always sample_client TypeWorld_new with
    | (Ret _, w) => IsAutowired w 1 && negb (IsAutowired w 4) && IsAutowired w 5 && bool_decide (notified w = [7; 8])
    | _ => false end = true) as Hc by (vm_compute; reflexivity).
  revert Hc. destruct (run_wiring casts always sample_client TypeWorld_new) as [[[]|e|e] w]; [|done..].
  intros Hb [H _]. rewrite !andb_true_iff in Hb. destruct Hb as [[[? ?] ?] Hn].
  apply bool_decide_eq_true in Hn. split_and!; try done. by apply negb_true_iff.
Defined.

(** ** Where the promise ends *)
Definition result {A} (m : M TypeWorld A) : outcome A := (m TypeWorld_new).1.
Definition inject (c : ctx) (o : address) : M TypeWorld (option address) :=
  Inject casts always 9 c (o mod 10) (o mod 10) (mret (object o)).
Definition child (c : ctx) : M TypeWorld unit := run_wiring_op casts always (w_tree (lc_create c 1)).
Definition find (c : ctx) (t : type_id) : M TypeWorld (option address) := AutowiredFast casts 9 c t.

(** A farther object replaces a nearer one.  The grandchild found the object of its parent; an object injected later into
    the grandparent, further away, replaces it for the grandchild, while the
    parent itself keeps its own. *)
Lemma farther_object_wins :
  result (child 0;; child 1;; inject 1 12;; a ← find 2 2; inject 0 22;; b ← find 2 2; c ← find 1 2; mret (a, b, c)) =
    Ret (Some 12, Some 22, Some 12).
Proof. vm_compute. reflexivity. Qed.

(** [Add] hands the memos of the parent to the children: a slot that waits in a
    child is left empty, while one made later finds the object. *)
Lemma Add_leaves_children_waiting :
  result (child 0;; s ← new_slot casts 9 (mkAny 1 None) (Some 1); Add 9 0 (mkAny 1 (Some 5));; w ← get;
          p ← find 0 1; q ← find 1 1; mret (IsAutowired w s, p, q)) = Ret (false, Some 5, None).
Proof. vm_compute. reflexivity. Qed.

(** A failed injection hides objects.  An object that is visible from a context is hidden from it for ever by an
    attempt to inject one whose constructor throws: the search that precedes the
    construction does not go up, and leaves an empty memo. *)
Lemma failed_Inject_hides_parent :
  let failing := Inject casts always 9 1 2 2 (throw (runtime_error "construction failed")) in
  result (child 0;; inject 0 12;; try_catch failing (λ _, mret None);; find 1 2) = Ret None ∧
  result (child 0;; inject 0 12;; find 1 2) = Ret (Some 12).
Proof. vm_compute. by split. Qed.

(** A search that is ambiguous throws, but only once: it leaves a memo with the
    second object, which the next search in that context returns, and an empty
    memo in the child it started from. *)
Lemma ambiguity_is_forgotten :
  let ask c := try_catch (find c 1) (λ _, mret None) in
  result (child 0;; inject 0 12;; inject 0 13;; a ← ask 1; b ← find 0 1; c ← find 1 1; mret (a, b, c)) =
    Ret (None, Some 113, None) ∧
  result (child 0;; inject 0 12;; inject 0 13;; find 1 1) = Throw ambiguous_error.
Proof. vm_compute. by split. Qed.

(** An object injected where a parent's object was found before takes over the
    memo's value, but the memo keeps the description of the parent's object:
    [GetAutoTypeId] answers with the type the parent's object was injected as. *)
Lemma local_object_keeps_parent_traits :
  let as_interface o := mkObject 1 (o mod 10) (mkAny (o mod 10) (Some o)) (Some o) None None None in
  let inject_as_interface c o := Inject casts always 9 c 1 (o mod 10) (mret (as_interface o)) in
  result (child 0;; inject_as_interface 0 12;; find 1 2;; inject 1 22;; p ← find 1 2; t ← GetAutoTypeId 1 (mkAny 2 None); mret (p, t)) =
    Ret (Some 22, 1) ∧
  result (child 0;; inject_as_interface 0 12;; inject 1 22;; p ← find 1 2; t ← GetAutoTypeId 1 (mkAny 2 None); mret (p, t)) =
    Ret (Some 22, 2).
Proof. vm_compute. by split. Qed.
