(* ===== verification/Marshaller.v ===== *)
(** * Marshallers: configuration fields to and from strings

    src/src/autowiring/marshaller.h and config.h: the built-in marshallers for
    bool, the integral types, std::string, std::atomic and config fields, with the
    parts of the C library they call.  Floating point is not modelled. *)
From stdpp Require Import base list strings.
From Stdlib Require Import ZArith Lia Ascii String.
From S2P Require Import Prelude.
Local Open Scope Z_scope.

(** ** The C library *)
(** [isspace] in the C locale, and the decimal digits. *)
Definition isspace (a : ascii) : bool :=
  let n := Z.of_nat (nat_of_ascii a) in (n =? 32) || ((9 <=? n) && (n <=? 13)).

Definition digit (a : ascii) : option Z :=
  let n := Z.of_nat (nat_of_ascii a) in if (48 <=? n) && (n <=? 57) then Some (n - 48) else None.

Fixpoint trim (s : string) : string :=
  match s with
  | String a s' => if isspace a then trim s' else s
  | EmptyString => EmptyString
  end.

(** The number written at the start of [s], after [acc]. *)
Fixpoint digits (acc : Z) (s : string) : Z :=
  match s with
  | String a s' => match digit a with Some d => digits (10 * acc + d) s' | None => acc end
  | EmptyString => acc
  end.

Definition clamp (lo hi z : Z) : Z := Z.max lo (Z.min hi z).

Definition signed_number (s : string) : Z :=
  match trim s with
  | String "-" s' => - digits 0 s'
  | String "+" s' => digits 0 s'
  | s' => digits 0 s'
  end.

(** [strtoll(s, &end, 10)] and [strtoull(s, &end, 10)]. *)
Definition strtoll (s : string) : Z := clamp (- 2 ^ 63) (2 ^ 63 - 1) (signed_number s).
Definition strtoull (s : string) : Z :=
  let z := signed_number s in if Z.abs z <=? 2 ^ 64 - 1 then z `mod` 2 ^ 64 else 2 ^ 64 - 1.

Definition ascii_of_digit (d : Z) : ascii := ascii_of_nat (Z.to_nat (48 + d)).

Fixpoint decimal (fuel : nat) (z : Z) (rest : string) : string :=
  match fuel with
  | O => rest
  | S fuel' =>
    let rest := String (ascii_of_digit (z `mod` 10)) rest in
    if z <? 10 then rest else decimal fuel' (z `div` 10) rest
  end.

(** [std::to_string]: a number has at most as many decimal as binary digits. *)
Definition to_string (z : Z) : string :=
  let fuel := S (Z.to_nat (Z.log2 (Z.abs z))) in
  if z <? 0 then String "-" (decimal fuel (- z) EmptyString) else decimal fuel z EmptyString.

(** A [const char*] ends at the first NUL. *)
Fixpoint c_str (s : string) : string :=
  match s with
  | String a s' => if Ascii.eqb a zero then EmptyString else String a (c_str s')
  | EmptyString => EmptyString
  end.

(** [static_cast<T>] of a 64-bit value to [w] bits. *)
Definition static_cast (signed : bool) (w z : Z) : Z :=
  let m := z `mod` 2 ^ w in if signed && (2 ^ (w - 1) <=? m) then m - 2 ^ w else m.

(** [std::numeric_limits]. *)
Definition limit_min (signed : bool) (w : Z) : Z := if signed then - 2 ^ (w - 1) else 0.
Definition limit_max (signed : bool) (w : Z) : Z := if signed then 2 ^ (w - 1) - 1 else 2 ^ w - 1.

(** ** config<T> *)
(** [values[0]] is the active value unless [valueIndex]. *)
Record config (T : Type) := mkConfig { dirty : bool; valueIndex : bool; value0 : T; value1 : T }.
Arguments mkConfig {T} _ _ _ _.
Arguments dirty {T} _.
Arguments valueIndex {T} _.
Arguments value0 {T} _.
Arguments value1 {T} _.

Section config.
  Context {T : Type}.

(** [config(value)]; [other] is what [values[1]] holds. *)
Definition config_new (other value : T) : config T := mkConfig true false value other.
Definition config_get (c : config T) : T := if valueIndex c then value1 c else value0 c.
Definition clear_dirty (c : config T) : bool * config T :=
  if dirty c then (true, mkConfig false (negb (valueIndex c)) (value0 c) (value1 c)) else (false, c).

(** [operator=(U&&)], [operator=(const config&)] and the move constructor. *)
Definition config_assign (rhs : T) (c : config T) : config T :=
  if valueIndex c then mkConfig true (valueIndex c) rhs (value1 c) else mkConfig true (valueIndex c) (value0 c) rhs.
Definition config_copy (c rhs : config T) : config T := config_assign (config_get rhs) c.
Definition config_move (rhs : config T) : config T := mkConfig (dirty rhs) (valueIndex rhs) (value0 rhs) (value1 rhs).
End config.

(** ** Fields and their marshallers *)
Inductive field_type :=
  | t_bool
  | t_int (signed : bool) (w : Z)
  | t_string
  | t_atomic (t : field_type)
  | t_config (t : field_type).

Inductive field :=
  | f_bool (b : bool)
  | f_int (z : Z)
  | f_string (s : string)
  | f_config (c : config field).

Definition bool_error : exn := invalid_argument "Boolean unmarshaller expects true or false keyword".
Definition underflow_error : exn := range_error "Underflow error, attempted to set a signed value in an unsigned field".
Definition overflow_error : exn := range_error "Overflow error, value is outside the range representable by this type.".

(** [integral_converter<T>::convert]. *)
Definition convert (signed : bool) (w : Z) (p : string) : outcome Z :=
  if signed then Ret (static_cast true w (strtoll p))
  else match trim p with
       | String "-" _ => Throw underflow_error
       | p' => Ret (static_cast false w (strtoull p'))
       end.

(** [builtin_marshaller<bool>]. *)
Definition marshal_bool (b : bool) : string := if b then "true" else "false".
Definition unmarshal_bool (sz : string) : outcome field :=
  if String.eqb sz "true" then Ret (f_bool true)
  else if String.eqb sz "false" then Ret (f_bool false)
  else Throw bool_error.

(** [builtin_marshaller] of an integral type. *)
Definition unmarshal_int (signed : bool) (w : Z) (sz : string) : outcome field :=
  match convert signed w sz with
  | Ret value => if (limit_max signed w <? value) || (value <? limit_min signed w) then Throw overflow_error else Ret (f_int value)
  | Throw e => Throw e
  | Stuck r => Stuck r
  end.

(** [marshaller<config<T>>], given the marshaller of [T]. *)
Definition marshal_config (interior : field → string) (c : config field) : string := interior (config_get c).
Definition unmarshal_config (interior : string → outcome field) (f : field) (sz : string) : outcome field :=
  match interior sz, f with
  | Ret value, f_config c => Ret (f_config (config_assign value c))
  | Ret _, _ => Stuck undefined_behavior
  | Throw e, _ => Throw e
  | Stuck r, _ => Stuck r
  end.

(** [marshaller<T>::marshal]. *)
Fixpoint marshal (t : field_type) (f : field) : string :=
  match t, f with
  | t_bool, f_bool b => marshal_bool b
  | t_int _ _, f_int z => to_string z
  | t_string, f_string s => s
  | t_atomic t', f => marshal t' f
  | t_config t', f_config c => marshal_config (marshal t') c
  | _, _ => EmptyString
  end.

(** [unmarshal(ptr, szValue)] with [f] at [ptr]; [sz] has no NUL.  The local
    variable of an atomic or config field is [f_bool false] before it is written. *)
Fixpoint unmarshal (t : field_type) (f : field) (sz : string) : outcome field :=
  match t with
  | t_bool => unmarshal_bool sz
  | t_int signed w => unmarshal_int signed w sz
  | t_string => Ret (f_string sz)
  | t_atomic t' => unmarshal t' (f_bool false) sz
  | t_config t' => unmarshal_config (unmarshal t' (f_bool false)) f sz
  end.

(** [copy(lhs, rhs)]. *)
Fixpoint copy (t : field_type) (lhs rhs : field) : field :=
  match t, lhs, rhs with
  | t_config _, f_config c, f_config c' => f_config (config_copy c c')
  | t_atomic t', _, _ => copy t' lhs rhs
  | _, _, _ => rhs
  end.

(** What may be stored at a field of a type. *)
Fixpoint has_type (t : field_type) (f : field) : Prop :=
  match t with
  | t_bool => ∃ b, f = f_bool b
  | t_int signed w => ∃ z, f = f_int z ∧ limit_min signed w ≤ z ≤ limit_max signed w
  | t_string => ∃ s, f = f_string s
  | t_atomic t' => has_type t' f
  | t_config t' => ∃ c, f = f_config c ∧ has_type t' (value0 c) ∧ has_type t' (value1 c)
  end.

(** The types the code can instantiate: integers of 1 to 64 bits, atomics and
    config fields of plain values. *)
Fixpoint simple (t : field_type) : Prop := match t with t_config _ => False | t_atomic t' => simple t' | _ => True end.

Fixpoint type_ok (t : field_type) : Prop :=
  match t with
  | t_int _ w => 1 ≤ w ≤ 64
  | t_atomic t' | t_config t' => type_ok t' ∧ simple t'
  | _ => True
  end.

(** ** Printing and reading numbers *)
Lemma digit_of_digit d : 0 ≤ d < 10 → digit (ascii_of_digit d) = Some d.
Proof.
  intros H. assert (d = 0 ∨ d = 1 ∨ d = 2 ∨ d = 3 ∨ d = 4 ∨ d = 5 ∨ d = 6 ∨ d = 7 ∨ d = 8 ∨ d = 9) as Hd by lia.
  by repeat destruct Hd as [->|Hd]; [..|subst].
Qed.

Lemma digits_decimal fuel : ∀ z rest, (0 < fuel)%nat → 0 ≤ z < 2 ^ Z.of_nat fuel →
  ∃ k, 0 ≤ k ∧ ∀ acc, digits acc (decimal fuel z rest) = digits (acc * 10 ^ k + z) rest.
Proof.
  induction fuel as [|fuel IH]; intros z rest Hf Hz; [lia|]. cbn [decimal].
  assert (0 ≤ z `mod` 10 < 10) as Hm by (apply Z.mod_pos_bound; lia). pose proof (Z.div_mod z 10 ltac:(lia)) as Hdiv.
  destruct (Z.ltb_spec z 10) as [Hlt|Hge].
  - exists 1. split; [lia|]. intros acc. cbn [digits]. rewrite digit_of_digit by done. f_equal.
    rewrite Z.mod_small by lia. lia.
  - assert (0 ≤ z `div` 10) as H0 by (apply Z.div_pos; lia).
    destruct (IH (z `div` 10) (String (ascii_of_digit (z `mod` 10)) rest)) as (k & Hk & Hd).
    + destruct fuel; [|lia]. simpl in Hz. lia.
    + split; [done|]. rewrite Nat2Z.inj_succ, Z.pow_succ_r in Hz by lia. apply Z.div_lt_upper_bound; lia.
    + exists (k + 1). split; [lia|]. intros acc. rewrite Hd. cbn [digits]. rewrite digit_of_digit by done. f_equal.
      rewrite Z.pow_add_r by lia. lia.
Qed.

(** What [to_string] prints starts with a digit, after the sign. *)
Lemma decimal_head fuel : ∀ z rest, 0 ≤ z → (0 < fuel)%nat →
  ∃ d s, decimal fuel z rest = String (ascii_of_digit d) s ∧ 0 ≤ d < 10.
Proof.
  induction fuel as [|fuel IH]; intros z rest Hz Hf; [lia|]. cbn [decimal].
  assert (0 ≤ z `mod` 10 < 10) as Hm by (apply Z.mod_pos_bound; lia).
  destruct (Z.ltb_spec z 10); [by eexists _, _|]. destruct fuel as [|fuel]; [by eexists _, _|].
  apply IH; [apply Z.div_pos; lia|lia].
Qed.

Lemma digit_char d : 0 ≤ d < 10 → isspace (ascii_of_digit d) = false ∧ ascii_of_digit d ≠ "-"%char ∧ ascii_of_digit d ≠ "+"%char.
Proof.
  intros H. assert (d = 0 ∨ d = 1 ∨ d = 2 ∨ d = 3 ∨ d = 4 ∨ d = 5 ∨ d = 6 ∨ d = 7 ∨ d = 8 ∨ d = 9) as Hd by lia.
  by repeat destruct Hd as [->|Hd]; [..|subst].
Qed.

Lemma fuel_enough z : 0 ≤ z → 0 ≤ z < 2 ^ Z.of_nat (S (Z.to_nat (Z.log2 z))).
Proof.
  intros H. split; [done|]. rewrite Nat2Z.inj_succ, Z2Nat.id by apply Z.log2_nonneg.
  destruct (Z.eq_dec z 0) as [->|n]; [done|]. apply Z.log2_spec. lia.
Qed.

Lemma signed_number_to_string z : signed_number (to_string z) = z.
Proof.
  unfold to_string. destruct (Z.ltb_spec z 0) as [Hn|Hp].
  - unfold signed_number. simpl. rewrite Z.abs_neq by lia.
    destruct (digits_decimal _ (- z) EmptyString (Nat.lt_0_succ _) (fuel_enough (- z) ltac:(lia))) as (k & Hk & ->). simpl. lia.
  - rewrite Z.abs_eq by done.
    destruct (digits_decimal _ z EmptyString (Nat.lt_0_succ _) (fuel_enough z Hp)) as (k & Hk & Hd). specialize (Hd 0).
    destruct (decimal_head (S (Z.to_nat (Z.log2 z))) z EmptyString Hp (Nat.lt_0_succ _)) as (d & s & E & Hr).
    rewrite E in *. destruct (digit_char d Hr) as (Hs & Hm & Hpl). unfold signed_number. cbn [trim]. rewrite Hs.
    transitivity (digits 0 (String (ascii_of_digit d) s)); [|by rewrite Hd].
    by destruct (ascii_of_digit d) as [[] [] [] [] [] [] [] []].
Qed.

Lemma trim_to_string z : trim (to_string z) = to_string z ∧ ∀ s, to_string z = String "-" s → z < 0.
Proof.
  unfold to_string. destruct (Z.ltb_spec z 0) as [Hn|Hp]; [by split|].
  destruct (decimal_head (S (Z.to_nat (Z.log2 (Z.abs z)))) z EmptyString Hp (Nat.lt_0_succ _)) as (d & s & -> & Hr).
  destruct (digit_char d Hr) as (Hs & Hm & _). cbn [trim]. rewrite Hs. split; [done|]. by intros s' [= ].
Qed.

(** ** Integers at their width *)
Lemma static_cast_range signed w z : 1 ≤ w → limit_min signed w ≤ static_cast signed w z ≤ limit_max signed w.
Proof.
  intros Hw. assert (2 ^ w = 2 * 2 ^ (w - 1)) as E by (rewrite <-Z.pow_succ_r by lia; f_equal; lia).
  pose proof (Z.mod_pos_bound z (2 ^ w) ltac:(lia)) as Hm. unfold static_cast, limit_min, limit_max.
  destruct signed; simpl; [|lia]. destruct (Z.leb_spec (2 ^ (w - 1)) (z `mod` 2 ^ w)); lia.
Qed.

Lemma static_cast_id signed w z : 1 ≤ w → limit_min signed w ≤ z ≤ limit_max signed w → static_cast signed w z = z.
Proof.
  intros Hw Hz. assert (2 ^ w = 2 * 2 ^ (w - 1)) as E by (rewrite <-Z.pow_succ_r by lia; f_equal; lia).
  unfold static_cast, limit_min, limit_max in *. destruct signed; simpl; [|by rewrite Z.mod_small by lia].
  destruct (Z_lt_le_dec z 0) as [Hn|Hp].
  - assert (z `mod` 2 ^ w = z + 2 ^ w) as -> by (symmetry; apply Z.mod_unique with (-1); lia).
    destruct (Z.leb_spec (2 ^ (w - 1)) (z + 2 ^ w)); lia.
  - rewrite Z.mod_small by lia. destruct (Z.leb_spec (2 ^ (w - 1)) z); lia.
Qed.

Lemma static_cast_mod signed w z : 1 ≤ w → (static_cast signed w z) `mod` 2 ^ w = z `mod` 2 ^ w.
Proof.
  intros Hw. unfold static_cast. destruct (_ && _); [|by rewrite Z.mod_mod by lia].
  rewrite <-(Z.mod_add (z `mod` 2 ^ w - 2 ^ w) 1) by lia. rewrite Z.mul_1_l, Z.sub_add. by rewrite Z.mod_mod by lia.
Qed.

Lemma limits_64 signed w z : 1 ≤ w ≤ 64 → limit_min signed w ≤ z ≤ limit_max signed w → limit_min signed 64 ≤ z ≤ limit_max signed 64.
Proof.
  intros Hw. unfold limit_min, limit_max. assert (2 ^ (w - 1) ≤ 2 ^ (64 - 1)) by (apply Z.pow_le_mono_r; lia).
  assert (2 ^ w ≤ 2 ^ 64) by (apply Z.pow_le_mono_r; lia). destruct signed; lia.
Qed.

Lemma not_overflow signed w z : 1 ≤ w →
  (limit_max signed w <? static_cast signed w z) || (static_cast signed w z <? limit_min signed w) = false.
Proof. intros Hw. pose proof (static_cast_range signed w z Hw). apply orb_false_iff. split; apply Z.ltb_ge; lia. Qed.

Lemma convert_to_string signed w z : 1 ≤ w ≤ 64 → limit_min signed w ≤ z ≤ limit_max signed w →
  convert signed w (to_string z) = Ret z.
Proof.
  intros Hw Hz. pose proof (limits_64 signed w z Hw Hz) as H64. unfold convert, limit_min, limit_max in *. destruct signed.
  - unfold strtoll. rewrite signed_number_to_string. unfold clamp. rewrite Z.min_r, Z.max_r by lia.
    by rewrite static_cast_id by (unfold limit_min, limit_max; lia).
  - destruct (trim_to_string z) as [Ht Hneg]. rewrite Ht.
    assert (match to_string z with
      | String "-" _ => Throw underflow_error
      | p' => Ret (static_cast false w (strtoull p')) end = Ret (static_cast false w (strtoull (to_string z)))) as ->.
    { destruct (to_string z) as [|a s] eqn:E; [done|]. destruct (Ascii.eqb_spec a "-") as [->|n]; [specialize (Hneg s eq_refl); lia|].
      by destruct a as [[] [] [] [] [] [] [] []]. }
    unfold strtoull. rewrite signed_number_to_string, (proj2 (Z.leb_le _ _)), (Z.mod_small z) by lia.
    by rewrite static_cast_id by (unfold limit_min, limit_max; lia).
Qed.

(** ** Round trips *)
Lemma shown_assign (c : config field) v : config_get (clear_dirty (config_assign v c)).2 = v.
Proof. unfold config_assign, clear_dirty, config_get. by destruct (valueIndex c). Qed.

(** The text of strings ends at the first NUL. *)
Fixpoint no_nul (t : field_type) (f : field) : Prop :=
  match t, f with
  | t_string, f_string s => c_str s = s
  | t_atomic t', f => no_nul t' f
  | _, _ => True
  end.
Arguments no_nul : simpl nomatch.

Lemma c_str_to_string z : c_str (to_string z) = to_string z.
Proof.
  assert (∀ fuel z rest, 0 ≤ z → c_str rest = rest → c_str (decimal fuel z rest) = decimal fuel z rest) as Hd.
  { induction fuel as [|fuel IH]; intros n rest Hn Hr; [done|]. cbn [decimal].
    assert (0 ≤ n `mod` 10 < 10) as Hm by (apply Z.mod_pos_bound; lia).
    assert (c_str (String (ascii_of_digit (n `mod` 10)) rest) = String (ascii_of_digit (n `mod` 10)) rest) as Hs.
    { cbn [c_str]. rewrite Hr. revert Hm. generalize (n `mod` 10). intros m Hm.
      assert (m = 0 ∨ m = 1 ∨ m = 2 ∨ m = 3 ∨ m = 4 ∨ m = 5 ∨ m = 6 ∨ m = 7 ∨ m = 8 ∨ m = 9) as H by lia.
      by repeat destruct H as [->|H]; [..|subst]. }
    destruct (n <? 10); [done|]. apply IH; [apply Z.div_pos; lia|done]. }
  unfold to_string. destruct (Z.ltb_spec z 0); [|by apply Hd]. cbn [c_str]. rewrite Hd by (done || lia). done.
Qed.

Lemma simple_round_trip t f g : simple t → type_ok t → has_type t f → no_nul t f →
  unmarshal t g (c_str (marshal t f)) = Ret f.
Proof.
  revert f g. induction t as [|signed w| |t IH|t IH]; intros f g Hs Hok Hf Hn; cbn [has_type simple type_ok] in *; [..|done].
  - by destruct Hf as [[] ->].
  - destruct Hf as (z & -> & Hz). cbn [marshal unmarshal]; unfold marshal_bool, unmarshal_bool, unmarshal_int, marshal_config, unmarshal_config. rewrite c_str_to_string, convert_to_string by done.
    rewrite <-(static_cast_id signed w z) at 1 2 by lia. by rewrite not_overflow by lia.
  - destruct Hf as [s ->]. cbn in *. by rewrite Hn.
  - destruct Hok. by apply IH.
Qed.

(** ** The properties *)
Definition negative_text (s : string) : bool := match trim s with String "-" _ => true | _ => false end.

Lemma convert_unsigned w s : convert false w s =
  if negative_text s then Throw underflow_error else Ret (static_cast false w (strtoull (trim s))).
Proof. unfold convert, negative_text. destruct (trim s) as [|[[] [] [] [] [] [] [] []] s']; done. Qed.

Lemma integral_wraps signed w f s :
  1 ≤ w ≤ 64 →
  match unmarshal (t_int signed w) f s with
  | Ret (f_int z) => z `mod` 2 ^ w = (if signed then strtoll s else strtoull (trim s)) `mod` 2 ^ w ∧
                     limit_min signed w ≤ z ≤ limit_max signed w ∧ (signed = false → negative_text s = false)
  | Throw e => e = underflow_error ∧ signed = false ∧ negative_text s = true
  | _ => False
  end.
Proof.
  intros Hw. cbn [unmarshal]; unfold unmarshal_bool, unmarshal_int, unmarshal_config. destruct signed.
  - cbn [convert]. rewrite not_overflow by lia. split; [by apply static_cast_mod; lia|]. split; [by apply static_cast_range; lia|done].
  - rewrite convert_unsigned. destruct (negative_text s) eqn:E; [done|]. rewrite not_overflow by lia.
    split; [by apply static_cast_mod; lia|]. split; [by apply static_cast_range; lia|done].
Qed.

(** C34. Configuration values survive the trip to a string and back: for a field
    of any built-in type, at any width of integers, what marshal writes is read
    by unmarshal as the same value, whatever was in the field; strings survive if
    they hold no NUL. A config field receives it as its pending value, which
    shows when the dirty flag is cleared and not before. *)
Theorem unmarshal_marshal t f g :
  simple t → type_ok t → has_type t f → no_nul t f →
  unmarshal t g (c_str (marshal t f)) = Ret f ∧
  (∀ c c' : config field, config_get c = f →
     ∃ c2, unmarshal (t_config t) (f_config c') (c_str (marshal (t_config t) (f_config c))) = Ret (f_config c2) ∧
       config_get c2 = config_get c' ∧ clear_dirty c2 = (true, (clear_dirty c2).2) ∧ config_get (clear_dirty c2).2 = f).
Proof.
  intros Hs Ht Hf Hn. split; [by apply simple_round_trip|]. intros c c' Hc. cbn [marshal unmarshal]; unfold marshal_bool, unmarshal_bool, unmarshal_int, marshal_config, unmarshal_config. rewrite Hc.
  rewrite simple_round_trip by done. eexists. split; [done|]. unfold config_assign, clear_dirty, config_get.
  by destruct (valueIndex c').
Qed.

Lemma unmarshal_marshal_witness :
  has_type (t_atomic (t_int true 16)) (f_int (-32768)) ∧ marshal (t_atomic (t_int true 16)) (f_int (-32768)) = "-32768"%string ∧
  unmarshal (t_atomic (t_int true 16)) (f_int 7) (c_str "-32768") = Ret (f_int (-32768)).
Proof.
  assert (has_type (t_atomic (t_int true 16)) (f_int (-32768))) as Ht by (exists (-32768); split; [done|]; unfold limit_min, limit_max; lia).
  split; [done|]. split; [reflexivity|].
  apply (unmarshal_marshal (t_atomic (t_int true 16)) (f_int (-32768)) (f_int 7)); [done|simpl; lia|done|done].
Defined.

(** Integers are never out of range.  Whatever the text, the value stored in
    an integral field is the number read modulo 2^w (the number itself read
    modulo saturation at 64 bits); the overflow error of unmarshal is never
    thrown, because the value was cut to the width of the field before it is
    compared with the limits of the field.  Only a sign in an unsigned field is an
    error. *)
Theorem unmarshal_integral_wraps signed w f s :
  1 ≤ w ≤ 64 →
  match unmarshal (t_int signed w) f s with
  | Ret (f_int z) => z `mod` 2 ^ w = (if signed then strtoll s else strtoull (trim s)) `mod` 2 ^ w ∧
                     limit_min signed w ≤ z ≤ limit_max signed w ∧ (signed = false → negative_text s = false)
  | Throw e => e = underflow_error ∧ signed = false ∧ negative_text s = true
  | _ => False
  end.
Proof. apply integral_wraps. Qed.

Lemma unmarshal_integral_wraps_witness :
  unmarshal (t_int false 8) (f_int 0) " 300" = Ret (f_int 44) ∧ 44 `mod` 2 ^ 8 = 300 `mod` 2 ^ 8 ∧ limit_min false 8 ≤ 44 ≤ limit_max false 8.
Proof.
  assert (unmarshal (t_int false 8) (f_int 0) " 300" = Ret (f_int 44)) as E by (vm_compute; reflexivity).
  split; [exact E|]. pose proof (unmarshal_integral_wraps false 8 (f_int 0) " 300" ltac:(lia)) as H. rewrite E in H.
  destruct H as (H1 & H2 & _). split; [exact H1|exact H2].
Defined.

#[local] Instance simple_dec t : Decision (simple t).
Proof. induction t; simpl; try apply _. Defined.

Lemma simple_typed t g s : simple t → type_ok t →
  match unmarshal t g s with Ret f' => has_type t f' | Throw e => e = bool_error ∨ e = underflow_error | Stuck _ => False end.
Proof.
  revert g. induction t as [|signed w| |t IH|t IH]; intros g Hs Hok; [..|done].
  - cbn. unfold unmarshal_bool. destruct (String.eqb s "true"); [by exists true|]. destruct (String.eqb s "false"); [by exists false|by left].
  - pose proof (integral_wraps signed w g s Hok) as H. destruct (unmarshal _ _ _) as [[]|e|]; try done.
    + destruct H as (_ & H & _). by eexists.
    + right. by destruct H.
  - by exists s.
  - destruct Hok. by apply IH.
Qed.

Lemma simple_copy t f g : simple t → copy t f g = g.
Proof. revert f g. induction t as [|signed w| |t IH|t IH]; intros f g Hs; [..|done]; [by destruct f, g..|]. cbn. destruct f; by apply IH. Qed.

Lemma unmarshal_has_type t f s : type_ok t → has_type t f →
  match unmarshal t f s with
  | Ret f' => has_type t f'
  | Throw e => e = bool_error ∨ e = underflow_error
  | Stuck _ => False
  end.
Proof.
  intros Hok Hf. destruct (decide (simple t)) as [Hs|Hs]; [by apply simple_typed|].
  destruct t as [| | |t|t]; [by destruct Hs..|by destruct Hs, Hok|].
  destruct Hok as [Hok Hs']. destruct Hf as (c & -> & H0 & H1). cbn [unmarshal]; unfold unmarshal_config.
  pose proof (simple_typed t (f_bool false) s Hs' Hok) as Hu. destruct (unmarshal t _ s) as [v|e|]; [|done..].
  eexists. split; [done|]. unfold config_assign. by destruct (valueIndex c).
Qed.

(** The types that accept any text. *)
Fixpoint never_throws (t : field_type) : Prop :=
  match t with
  | t_bool => False
  | t_int signed _ => signed = true
  | t_string => True
  | t_atomic t' | t_config t' => never_throws t'
  end.

Lemma unmarshal_accepts t f s : type_ok t → never_throws t → has_type t f → ∃ y, unmarshal t f s = Ret y ∧ has_type t y.
Proof.
  assert (∀ t g e, simple t → never_throws t → type_ok t → unmarshal t g s ≠ Throw e) as Hsimple.
  { clear. induction t as [|signed w| |t IH|t IH]; intros g e Hs Ht Hok E; try done.
    - cbn in Ht. subst signed. pose proof (integral_wraps true w g s Hok) as H. rewrite E in H. by destruct H as (_ & H & _).
    - destruct Hok. by eapply IH. }
  intros Hok Ht Hf. pose proof (unmarshal_has_type t f s Hok Hf) as H. destruct (unmarshal t f s) as [y|e|] eqn:E; [by exists y| |done].
  exfalso. destruct (decide (simple t)) as [Hs|Hs]; [by eapply Hsimple|].
  destruct t as [| | |t|t]; [by destruct Hs..|by destruct Hs, Hok|]. destruct Hok as [Hok Hs']. destruct Hf as (c & -> & _).
  cbn [unmarshal] in E. unfold unmarshal_config in E. destruct (unmarshal t (f_bool false) s) eqn:E'; try done. by eapply Hsimple.
Qed.



(** ** config fields as double buffers *)
Inductive config_op (T : Type) := c_assign (v : T) | c_clear_dirty.
Arguments c_assign {T} v.
Arguments c_clear_dirty {T}.

Definition run_config {T} (o : config_op T) (c : config T) : config T :=
  match o with c_assign v => config_assign v c | c_clear_dirty => (clear_dirty c).2 end.

(** The reference: the value that shows and the value that waits. *)
Definition buffer (T : Type) : Type := T * option T.

Definition run_buffer {T} (o : config_op T) (b : buffer T) : buffer T :=
  match o with
  | c_assign v => (b.1, Some v)
  | c_clear_dirty => match b.2 with Some v => (v, None) | None => b end
  end.

Definition buffer_of {T} (c : config T) : buffer T :=
  (config_get c, if dirty c then Some (if valueIndex c then value0 c else value1 c) else None).

Lemma run_buffer_of {T} (o : config_op T) c : buffer_of (run_config o c) = run_buffer o (buffer_of c).
Proof. by destruct o, c as [[] [] v0 v1]. Qed.

(** C39. A config field is a double buffer: after any sequence of assignments and
    clear_dirty calls it shows the last value that was assigned before the last
    clear_dirty that found something waiting, and it is dirty exactly if a value
    waits. But a new field starts with a value waiting that nobody assigned, the
    uninitialised second buffer: the first clear_dirty replaces the initial value
    by it. *)
Theorem config_is_double_buffer {T} (l : list (config_op T)) (other value : T) :
  let c := foldl (λ c o, run_config o c) (config_new other value) l in
  let b := foldl (λ b o, run_buffer o b) (value, Some other) l in
  config_get c = b.1 ∧ (dirty c = true ↔ is_Some b.2).
Proof.
  intros c b. assert (buffer_of c = b) as <-.
  { subst c b. change (value, Some other) with (buffer_of (config_new other value)).
    generalize (config_new other value). induction l as [|o l IH]; intros c; [done|]. simpl. by rewrite IH, run_buffer_of. }
  split; [done|]. unfold buffer_of. simpl. by destruct (dirty c); split; try by intros []; [eexists|].
Qed.
