(* ===== verification/ConfigManager.v ===== *)
(** * ConfigManager: configuration values that descend a tree

    src/src/autowiring/ConfigManager.h and ConfigManager.cpp, for one thread.  A
    manager has an entry per name; the entry of a child listens to the entry of its
    parent until it is given a value of its own, and fields of registered objects
    listen to entries.  The signal of an entry is that of auto_signal.h, of which
    one thread sees whether it is asserted and the calls delayed meanwhile. *)
From stdpp Require Import base gmap list strings.
From Stdlib Require Import ZArith Lia.
From S2P Require Import Prelude.
From S2P Require Import Marshaller.

(** A manager and a name. *)
Abbreviation key := (nat * string)%type (only parsing).

(** What listens to an entry: the field of an object, or the entry of the same
    name of another manager. *)
Inductive listener := l_field (f : nat) | l_child (m : nat).

#[export] Instance listener_eq_dec : EqDecision listener.
Proof. solve_decision. Defined.

(** What is called in the order of an entry's signal: its handlers, an assignment
    of its value, delayed links and unlinks, the function [Register] invokes, and
    the function [GetEntryUnsafe] invokes for the entry of a child. *)
Inductive call :=
  | c_signal
  | c_set (v : string)
  | c_link (id : nat) (l : listener)
  | c_unlink (id : nat)
  | c_register (f : nat)
  | c_subscribe (child : nat).

(** [onChanged] is [busy] while it is asserted; [reg] is the registration with the
    entry of the manager named. *)
Record Entry := mkEntry {
  value : string;
  listeners : list (nat * listener);
  busy : bool;
  delayed : list call;
  reg : option (nat * nat) }.

Definition Entry_new : Entry := mkEntry "" [] false [] None.

Definition set_value v e := mkEntry v (listeners e) (busy e) (delayed e) (reg e).
Definition set_listeners l e := mkEntry (value e) l (busy e) (delayed e) (reg e).
Definition set_busy b e := mkEntry (value e) (listeners e) b (delayed e) (reg e).
Definition set_delayed l e := mkEntry (value e) (listeners e) (busy e) l (reg e).
Definition set_reg r e := mkEntry (value e) (listeners e) (busy e) (delayed e) r.

(** Metadata of fields, by the identifier of its type; a watcher for an identifier;
    [told]: the watchers told, with the field and the metadata. *)
Record world := mkWorld {
  parents : list (option nat);
  m_config : gmap key Entry;
  fields : gmap nat field;
  next_registration : nat;
  metadata_collection : list (nat * nat);
  watchers : list (nat * nat);
  told : list (nat * (nat * nat)) }.

Definition world_new : world := mkWorld [] ∅ ∅ 0 [] [] [].

Definition set_parents x w := mkWorld x (m_config w) (fields w) (next_registration w) (metadata_collection w) (watchers w) (told w).
Definition set_config x w := mkWorld (parents w) x (fields w) (next_registration w) (metadata_collection w) (watchers w) (told w).
Definition set_fields x w := mkWorld (parents w) (m_config w) x (next_registration w) (metadata_collection w) (watchers w) (told w).
Definition set_next x w := mkWorld (parents w) (m_config w) (fields w) x (metadata_collection w) (watchers w) (told w).
Definition set_metadata x w := mkWorld (parents w) (m_config w) (fields w) (next_registration w) x (watchers w) (told w).
Definition set_watchers x w := mkWorld (parents w) (m_config w) (fields w) (next_registration w) (metadata_collection w) x (told w).
Definition set_told x w := mkWorld (parents w) (m_config w) (fields w) (next_registration w) (metadata_collection w) (watchers w) x.

(** [config_field]: the name, the address of the field, the identifiers of its
    metadata. *)
Record config_field := mkField { field_name : string; field_address : nat; field_metadata : list nat }.

Section config.
  (** The types of fields, and the fields of all descriptors known to the program
      with their default values. *)
  Context (types : nat → field_type) (registry : list (string * option (field_type * field))).
  Local Abbreviation M := (M world).

Definition load (k : key) : M Entry := w ← get; deref (m_config w !! k).
Definition update (k : key) (f : Entry → Entry) : M unit := modify (λ w, set_config (alter f k (m_config w)) w).

(** [marshaller->unmarshal(pField, entry.value.c_str())]. *)
Definition unmarshal_field (f : nat) (sz : string) : M unit :=
  w ← get; x ← deref (fields w !! f);
  match unmarshal (types f) x (c_str sz) with
  | Ret y => modify (λ w, set_fields (<[f := y]> (fields w)) w)
  | Throw e => throw e
  | Stuck r => stuck r
  end.

(** [signal::operator+=] and [operator-=]. *)
Definition append (k : key) (l : listener) : M nat :=
  w ← get; e ← load k;
  let id := next_registration w in
  modify (set_next (S id));;
  update k (if busy e then set_delayed (delayed e ++ [c_link id l]) else set_listeners (listeners e ++ [(id, l)]));;
  mret id.

Definition remove (k : key) (id : nat) : M unit :=
  e ← load k;
  update k (if busy e then set_delayed (delayed e ++ [c_unlink id])
            else set_listeners (base.filter (λ x, x.1 ≠ id) (listeners e))).

(** [signal::leave]. *)
Fixpoint leave (rounds : nat) (perform : call → M unit) (k : key) : M unit :=
  match rounds with
  | 0 => stuck out_of_fuel
  | S rounds' =>
    e ← load k;
    match delayed e with
    | [] => update k (set_busy false)
    | l => update k (set_delayed []);; for_each (λ c, try_catch (perform c) (λ _, mret tt)) l;; leave rounds' perform k
    end
  end.

(** [signal::invoke], and [signal::operator()], which catches exceptions. *)
Definition invoke (perform : key → call → M unit) (k : key) (c : call) : M unit :=
  e ← load k;
  if busy e then update k (set_delayed (delayed e ++ [c]))
  else
    update k (set_busy true);;
    match c with c_signal => try_catch (perform k c) (λ _, mret tt) | _ => perform k c end;;
    leave 3 (perform k) k.

(** The call of [c] in the order of [k]. *)
Fixpoint perform (fuel : nat) (k : key) (c : call) : M unit :=
  match fuel with
  | 0 => stuck out_of_fuel
  | S fuel' =>
    match c with
    | c_signal =>
      e ← load k;
      for_each (λ x, match x.2 with
        | l_field f => e ← load k; unmarshal_field f (value e)
        | l_child m =>
          c ← load (m, k.2);
          match reg c with
          | None => mret tt
          | Some _ =>
            e ← load k;
            invoke (perform fuel') (m, k.2) (c_set (value e));;
            invoke (perform fuel') (m, k.2) c_signal
          end
        end) (listeners e)
    | c_set v => update k (set_value v)
    | c_link id l => update k (λ e, set_listeners (listeners e ++ [(id, l)]) e)
    | c_unlink id => update k (λ e, set_listeners (base.filter (λ x, x.1 ≠ id) (listeners e)) e)
    | c_register f => append k (l_field f);; e ← load k; unmarshal_field f (value e)
    | c_subscribe child =>
      id ← append k (l_child child);
      update (child, k.2) (set_reg (Some (k.1, id)));;
      e ← load k; invoke (perform fuel') (child, k.2) (c_set (value e))
    end
  end.

(** A level of the tree per unit of fuel. *)
Definition invoke_entry (k : key) (c : call) : M unit :=
  w ← get; invoke (perform (S (length (parents w)))) k c.

(** [ConfigManager(pParent)]. *)
Definition ConfigManager_new (pParent : option nat) : M nat :=
  w ← get;
  let m := length (parents w) in
  modify (set_parents (parents w ++ [pParent]));;
  match pParent with
  | Some _ => mret tt
  | None =>
    for_each (λ d : string * option (field_type * field),
      modify (λ w, set_config (alter (λ e, match d.2 with Some (t, f) => set_value (marshal t f) e | None => e end) (m, d.1)
        (match m_config w !! (m, d.1) with Some _ => m_config w | None => <[(m, d.1) := Entry_new]> (m_config w) end)) w)) registry
  end;; mret m.

(** [reg.clear()]. *)
Definition clear_reg (k : key) : M unit :=
  e ← load k;
  match reg e with
  | Some (p, id) => remove (p, k.2) id;; update k (set_reg None)
  | None => mret tt
  end.

(** [Clear]. *)
Definition Clear (m : nat) : M unit :=
  w ← get;
  for_each clear_reg (base.filter (λ k, k.1 = m) (map_to_list (m_config w)).*1);;
  modify (λ w, set_parents (<[m := None]> (parents w)) w).

(** [GetEntryUnsafe], [GetEntry]. *)
Fixpoint GetEntry (fuel m : nat) (name : string) : M unit :=
  match fuel with
  | 0 => stuck out_of_fuel
  | S fuel' =>
    w ← get;
    match m_config w !! (m, name) with
    | Some _ => mret tt
    | None =>
      modify (λ w, set_config (<[(m, name) := Entry_new]> (m_config w)) w);;
      match parents w !! m with
      | Some (Some p) => GetEntry fuel' p name;; invoke_entry (p, name) (c_subscribe m)
      | _ => mret tt
      end
    end
  end.

(** [Register]: one field, then all of them and the deferred notifications. *)
Definition register_field (m : nat) (d : config_field) : M (list (nat * (nat * nat))) :=
  GetEntry (S m) m (field_name d);;
  invoke_entry (m, field_name d) (c_register (field_address d));;
  w ← get;
  modify (λ w, set_metadata (metadata_collection w ++ ((λ i, (i, field_address d)) <$> field_metadata d)) w);;
  mret (concat ((λ i, (λ x, (x.2, (field_address d, i))) <$> base.filter (λ x, x.1 = i) (watchers w)) <$> field_metadata d)).

Fixpoint register_fields (m : nat) (desc : list config_field) (deferred : list (nat * (nat * nat))) : M (list (nat * (nat * nat))) :=
  match desc with
  | [] => mret deferred
  | d :: desc' => l ← register_field m d; register_fields m desc' (deferred ++ l)
  end.

Definition tell (x : nat * (nat * nat)) : M unit := modify (λ w, set_told (told w ++ [x]) w).

Definition Register (m : nat) (desc : list config_field) : M unit :=
  deferred ← register_fields m desc []; for_each tell deferred.

(** [WhenInternal]: watcher [x] of the metadata [i]. *)
Definition WhenInternal (i x : nat) : M unit :=
  w ← get;
  modify (set_watchers (watchers w ++ [(i, x)]));;
  for_each tell ((λ y, (x, (y.2, i))) <$> base.filter (λ y, y.1 = i) (metadata_collection w)).

(** [Get]: taking the lock of a signal that is asserted never succeeds. *)
Fixpoint Get (fuel m : nat) (name : string) : M string :=
  match fuel with
  | 0 => stuck out_of_fuel
  | S fuel' =>
    w ← get;
    match m_config w !! (m, name) with
    | Some e => if busy e then stuck blocked else mret (value e)
    | None => match parents w !! m with Some (Some p) => Get fuel' p name | _ => mret EmptyString end
    end
  end.

(** [Set]. *)
Definition SetValue (m : nat) (name : string) (v : string) : M unit :=
  w ← get;
  match m_config w !! (m, name) with
  | Some _ => clear_reg (m, name)
  | None => modify (set_config (<[(m, name) := Entry_new]> (m_config w)))
  end;;
  invoke_entry (m, name) (c_set v);;
  invoke_entry (m, name) c_signal.
End config.
