(* ===== verification/ConfigManagerFacts.v ===== *)
(** * ConfigManager: values are those of the nearest override

    The entries, their registrations and the fields against a reference that knows
    no entries: a value is looked up where it was set last, up the tree. *)
From stdpp Require Import base gmap list strings.
From Stdlib Require Import ZArith Lia.
From S2P Require Import Prelude.
From S2P Require Import Marshaller.
From S2P Require Import ConfigManager.
Local Open Scope nat_scope.

Lemma NoDup_fst_elem {A} (l : list (nat * A)) i x y : NoDup l.*1 → (i, x) ∈ l → (i, y) ∈ l → x = y.
Proof.
  induction l as [|[j z] l IH]; [by intros _ ?%elem_of_nil|]. rewrite fmap_cons. intros [Hn Hl]%NoDup_cons Hx Hy.
  apply elem_of_cons in Hx as [[= -> ->]|Hx], Hy as [[= E]|Hy]; try done; [| |by apply IH].
  - destruct Hn. by apply (list_elem_of_fmap_2 fst) in Hy.
  - subst. destruct Hn. by apply (list_elem_of_fmap_2 fst) in Hx.
Qed.

Lemma NoDup_fst_filter {A} (l : list (nat * A)) i : NoDup l.*1 → NoDup (base.filter (λ x, x.1 ≠ i) l).*1.
Proof.
  induction l as [|[j z] l IH]; [done|]. rewrite fmap_cons, filter_cons. intros [Hn Hl]%NoDup_cons. cbn [fst] in *.
  case_decide; [|by apply IH]. rewrite fmap_cons. constructor; [|by apply IH]. cbn [fst].
  intros (x & -> & Hx)%list_elem_of_fmap. apply list_elem_of_filter in Hx as [_ Hx]. destruct Hn. by apply list_elem_of_fmap_2.
Qed.

Section facts.
  Context (types : nat → field_type) (registry : list (string * option (field_type * field))).
  Context (accepts : ∀ f, type_ok (types f) ∧ never_throws (types f)).

(** ** The shape of the entries *)
(** Registrations and listeners of entries fit together; no two entries have the
    same field. *)
Record shape (w : world) : Prop := {
  h_parent : ∀ m p, parents w !! m = Some (Some p) → p < m;
  h_key : ∀ k e, m_config w !! k = Some e → k.1 < length (parents w);
  h_reg : ∀ c n e m id, m_config w !! (c, n) = Some e → reg e = Some (m, id) →
    parents w !! c = Some (Some m) ∧ ∃ e', m_config w !! (m, n) = Some e' ∧ (id, l_child c) ∈ listeners e';
  h_child : ∀ m n e id c, m_config w !! (m, n) = Some e → (id, l_child c) ∈ listeners e →
    ∃ e', m_config w !! (c, n) = Some e' ∧ reg e' = Some (m, id);
  h_once : ∀ k k' e e' id id' f, m_config w !! k = Some e → m_config w !! k' = Some e' →
    (id, l_field f) ∈ listeners e → (id', l_field f) ∈ listeners e' → k = k';
  h_memory : ∀ k e id f, m_config w !! k = Some e → (id, l_field f) ∈ listeners e → is_Some (fields w !! f);
  h_types : ∀ f x, fields w !! f = Some x → has_type (types f) x;
  h_ids : ∀ k e, m_config w !! k = Some e → NoDup (listeners e).*1 ∧ ∀ id l, (id, l) ∈ listeners e → id < next_registration w }.

(** The field has taken the value. *)
Definition reflects (w : world) (v : string) (f : nat) : Prop :=
  ∃ x g, fields w !! f = Some x ∧ unmarshal (types f) g (c_str v) = Ret x.

(** Values agree along registrations, and fields with their entries, but for what
    listens to [k]. *)
Record settled_but (k : option key) (w : world) : Prop := {
  h_value : ∀ c n e m id e', m_config w !! (c, n) = Some e → reg e = Some (m, id) → m_config w !! (m, n) = Some e' →
    Some (m, n) ≠ k → value e = value e';
  h_field : ∀ k' e id f, m_config w !! k' = Some e → (id, l_field f) ∈ listeners e → Some k' ≠ k → reflects w (value e) f }.

(** No entry is asserted. *)
Definition idle (w : world) : Prop := ∀ k e, m_config w !! k = Some e → busy e = false ∧ delayed e = [].

Definition healthy (w : world) : Prop := shape w ∧ settled_but None w ∧ idle w.

(** Manager [c] takes the value of [n] from [m]. *)
Inductive below (w : world) (n : string) (m : nat) : nat → Prop :=
  | below_child c e id : m_config w !! (c, n) = Some e → reg e = Some (m, id) → below w n m c
  | below_step c e p id : m_config w !! (c, n) = Some e → reg e = Some (p, id) → below w n m p → below w n m c.

Lemma below_gt w n m c : shape w → below w n m c → m < c.
Proof.
  intros H. induction 1 as [c e id Hc Hr|c e p id Hc Hr _ IH]; destruct (h_reg _ H _ _ _ _ _ Hc Hr) as [Hp _];
    pose proof (h_parent _ H _ _ Hp); lia.
Qed.

(** Worlds whose entries have the same links. *)
Record similar (w w' : world) : Prop := {
  sm_links : ∀ k, (λ e, (listeners e, reg e)) <$> m_config w' !! k = (λ e, (listeners e, reg e)) <$> m_config w !! k;
  sm_parents : parents w' = parents w;
  sm_next : next_registration w' = next_registration w;
  sm_memory : ∀ f, is_Some (fields w !! f) → is_Some (fields w' !! f);
  sm_types : (∀ f x, fields w !! f = Some x → has_type (types f) x) → ∀ f x, fields w' !! f = Some x → has_type (types f) x }.

Lemma similar_from w w' k e' : similar w w' → m_config w' !! k = Some e' →
  ∃ e, m_config w !! k = Some e ∧ listeners e' = listeners e ∧ reg e' = reg e.
Proof. intros Hs He. pose proof (sm_links _ _ Hs k) as H. rewrite He in H. destruct (m_config w !! k) as [e|]; [|done]. injection H as El Er. by exists e. Qed.

Lemma similar_to w w' k e : similar w w' → m_config w !! k = Some e →
  ∃ e', m_config w' !! k = Some e' ∧ listeners e' = listeners e ∧ reg e' = reg e.
Proof. intros Hs He. pose proof (sm_links _ _ Hs k) as H. rewrite He in H. destruct (m_config w' !! k) as [e'|]; [|done]. injection H as El Er. by exists e'. Qed.

Lemma similar_shape w w' : similar w w' → shape w → shape w'.
Proof.
  intros Hs [H1 H2 H3 H4 H5 H6 H7 H8]. split; rewrite ?(sm_parents _ _ Hs), ?(sm_next _ _ Hs).
  - done.
  - intros k e (e0 & He & _)%(similar_from _ _ _ _ Hs). by eapply H2.
  - intros c n' e m id (e0 & He & _ & Er)%(similar_from _ _ _ _ Hs) Hr. rewrite Er in Hr.
    destruct (H3 _ _ _ _ _ He Hr) as [? (e1 & He1 & Hin)]. split; [done|].
    destruct (similar_to _ _ _ _ Hs He1) as (e2 & He2 & El & _). exists e2. by rewrite El.
  - intros m n' e id c (e0 & He & El & _)%(similar_from _ _ _ _ Hs) Hin. rewrite El in Hin.
    destruct (H4 _ _ _ _ _ He Hin) as (e1 & He1 & Hr). destruct (similar_to _ _ _ _ Hs He1) as (e2 & He2 & _ & Er).
    exists e2. by rewrite Er.
  - intros k k' e e' id id' f (e0 & He & El & _)%(similar_from _ _ _ _ Hs) (e0' & He' & El' & _)%(similar_from _ _ _ _ Hs).
    rewrite El, El'. by apply H5.
  - intros k e id f (e0 & He & El & _)%(similar_from _ _ _ _ Hs). rewrite El. intros Hin. apply (sm_memory _ _ Hs). by eapply H6.
  - by apply (sm_types _ _ Hs).
  - intros k e (e0 & He & El & _)%(similar_from _ _ _ _ Hs). rewrite El. by eapply H8.
Qed.

Lemma similar_below_1 w w' n m c : similar w w' → below w n m c → below w' n m c.
Proof.
  intros Hs. induction 1 as [c e id Hc Hr|c e p id Hc Hr _ IH]; destruct (similar_to _ _ _ _ Hs Hc) as (e0 & He & _ & Er); rewrite <-Er in Hr;
    [by eapply below_child|by eapply below_step].
Qed.

Lemma similar_below_2 w w' n m c : similar w w' → below w' n m c → below w n m c.
Proof.
  intros Hs. induction 1 as [c e id Hc Hr|c e p id Hc Hr _ IH]; destruct (similar_from _ _ _ _ Hs Hc) as (e0 & He & _ & Er); rewrite Er in Hr;
    [by eapply below_child|by eapply below_step].
Qed.

Lemma similar_below w w' n m c : similar w w' → below w' n m c ↔ below w n m c.
Proof. intros Hs. split; [by apply similar_below_2|by apply similar_below_1]. Qed.

(** The fields that take their value from [(m, n)]. *)
Definition fed (w : world) (n : string) (m : nat) (f : nat) : Prop :=
  ∃ c e id, (c = m ∨ below w n m c) ∧ m_config w !! (c, n) = Some e ∧ (id, l_field f) ∈ listeners e.

Lemma similar_fed w w' n m f : similar w w' → fed w' n m f ↔ fed w n m f.
Proof.
  intros Hs. split.
  - intros (c & e & id & Hc & He & Hin). rewrite (similar_below w w') in Hc by done. destruct (similar_from _ _ _ _ Hs He) as (e0 & He0 & El & _).
    exists c, e0, id. by rewrite <-El.
  - intros (c & e & id & Hc & He & Hin). rewrite <-(similar_below w w') in Hc by done. destruct (similar_to _ _ _ _ Hs He) as (e0 & He0 & El & _).
    exists c, e0, id. by rewrite El.
Qed.

Lemma similar_refl w : similar w w.
Proof. by split. Qed.

Lemma similar_trans w1 w2 w3 : similar w1 w2 → similar w2 w3 → similar w1 w3.
Proof. intros [] []. split; try congruence; auto. Qed.

(** Flags and values of an entry. *)
Lemma similar_update w k e e' : m_config w !! k = Some e → listeners e' = listeners e → reg e' = reg e →
  similar w (set_config (<[k := e']> (m_config w)) w).
Proof.
  intros He El Er. split; try done. intros k'. cbn. destruct (decide (k' = k)) as [->|n].
  - rewrite lookup_insert_eq, He. cbn. by rewrite El, Er.
  - by rewrite lookup_insert_ne.
Qed.

(** ** What the assertion of a signal changes *)
(** The entries of [S] take the value [v], and the fields of [F]. *)
Record spread (w w' : world) (n : string) (v : string) (S F : gset nat) : Prop := {
  sp_in : ∀ c, c ∈ S → m_config w' !! (c, n) = set_value v <$> m_config w !! (c, n);
  sp_out : ∀ c n', c ∉ S ∨ n' ≠ n → m_config w' !! (c, n') = m_config w !! (c, n');
  sp_fields : ∀ f, f ∈ F → reflects w' v f;
  sp_rest : ∀ f, f ∉ F → fields w' !! f = fields w !! f;
  sp_types : (∀ f x, fields w !! f = Some x → has_type (types f) x) → ∀ f x, fields w' !! f = Some x → has_type (types f) x;
  sp_same : parents w' = parents w ∧ next_registration w' = next_registration w ∧ metadata_collection w' = metadata_collection w ∧
    watchers w' = watchers w ∧ told w' = told w }.

Lemma spread_refl w n v : spread w w n v ∅ ∅.
Proof. split; try done; intros *; set_solver. Qed.

Lemma spread_trans w w1 w2 n v S1 F1 S2 F2 : spread w w1 n v S1 F1 → spread w1 w2 n v S2 F2 → spread w w2 n v (S1 ∪ S2) (F1 ∪ F2).
Proof.
  intros [A1 A2 A3 A4 A5 A6] [B1 B2 B3 B4 B5 B6]. split.
  - intros c Hc. destruct (decide (c ∈ S2)) as [H2|H2].
    + rewrite B1 by done. destruct (decide (c ∈ S1)); [rewrite A1 by done|rewrite A2 by (by left); done].
      by destruct (m_config w !! (c, n)).
    + rewrite B2 by (by left). apply A1. set_solver.
  - intros c n' H. rewrite B2, A2; [done|destruct H; [left; set_solver|by right]..].
  - intros f Hf. destruct (decide (f ∈ F2)) as [H2|H2]; [by apply B3|]. destruct (A3 f) as (x & g & ? & ?); [set_solver|].
    exists x, g. rewrite B4 by done. by split.
  - intros f Hf. rewrite B4, A4 by set_solver. done.
  - auto.
  - destruct A6 as (? & ? & ? & ? & ?), B6 as (? & ? & ? & ? & ?). split_and!; congruence.
Qed.

(** Everything but the value is as it was. *)
Lemma spread_entry w w' n v S F k e' : spread w w' n v S F → m_config w' !! k = Some e' →
  ∃ e, m_config w !! k = Some e ∧ listeners e' = listeners e ∧ reg e' = reg e ∧ busy e' = busy e ∧ delayed e' = delayed e ∧
    value e' = (if decide (k.2 = n ∧ k.1 ∈ S) then v else value e).
Proof.
  intros Hs. destruct k as [c n']. destruct (decide (n' = n ∧ c ∈ S)) as [[-> Hc]|Hn].
  - rewrite (sp_in _ _ _ _ _ _ Hs) by done. intros (e & He & ->)%fmap_Some_1. exists e. simpl. rewrite decide_True by done. done.
  - rewrite (sp_out _ _ _ _ _ _ Hs) by (destruct (decide (c ∈ S)); [right; tauto|by left]). intros He. exists e'. simpl.
    by rewrite decide_False.
Qed.

Lemma spread_entry' w w' n v S F k e : spread w w' n v S F → m_config w !! k = Some e →
  ∃ e', m_config w' !! k = Some e' ∧ listeners e' = listeners e ∧ reg e' = reg e ∧ busy e' = busy e ∧ delayed e' = delayed e ∧
    value e' = (if decide (k.2 = n ∧ k.1 ∈ S) then v else value e).
Proof.
  intros Hs He. destruct k as [c n']. destruct (decide (n' = n ∧ c ∈ S)) as [[-> Hc]|Hn].
  - exists (set_value v e). rewrite (sp_in _ _ _ _ _ _ Hs), He by done. simpl. by rewrite decide_True by done.
  - exists e. rewrite (sp_out _ _ _ _ _ _ Hs) by (destruct (decide (c ∈ S)); [right; tauto|by left]). simpl.
    by rewrite decide_False.
Qed.

Lemma spread_similar w w' n v S F : spread w w' n v S F → similar w w'.
Proof.
  intros Hs. pose proof (sp_same _ _ _ _ _ _ Hs) as (Ep & En & _). split; [|done|done| |apply Hs].
  - intros [c n']. destruct (m_config w !! (c, n')) as [e|] eqn:He.
    + destruct (spread_entry' _ _ _ _ _ _ _ _ Hs He) as (e' & -> & El & Er & _). cbn. by rewrite El, Er.
    + destruct (m_config w' !! (c, n')) as [e'|] eqn:He'; [|done]. destruct (spread_entry _ _ _ _ _ _ _ _ Hs He') as (? & ? & _). congruence.
  - intros f Hf. destruct (decide (f ∈ F)) as [HF|HF]; [destruct (sp_fields _ _ _ _ _ _ Hs f HF) as (x & _ & ? & _); by exists x|].
    by rewrite (sp_rest _ _ _ _ _ _ Hs).
Qed.

(** ** Running signals *)
Lemma get_run {A} (k : world → M world A) w : (get ≫= k) w = k w w.
Proof. done. Qed.

Lemma modify_run {A} f (k : unit → M world A) w : (modify f ≫= k) w = k tt (f w).
Proof. done. Qed.

Lemma load_run k e w : m_config w !! k = Some e → load k w = (Ret e, w).
Proof. intros H. unfold load. munfold. by rewrite H. Qed.

Lemma update_entry_run k e f w : m_config w !! k = Some e → update k f w = (Ret tt, set_config (<[k := f e]> (m_config w)) w).
Proof. intros H. unfold update. munfold. by rewrite (alter_alt_Some _ _ _ e). Qed.

Lemma set_config_twice c c' w : set_config c (set_config c' w) = set_config c w.
Proof. done. Qed.

Local Abbreviation perform := (ConfigManager.perform types).
Local Abbreviation invoke := ConfigManager.invoke.

(** Leaving when nothing was delayed. *)
Lemma leave_run rounds perf k e w : m_config w !! k = Some e → delayed e = [] →
  leave (S rounds) perf k w = (Ret tt, set_config (<[k := set_busy false e]> (m_config w)) w).
Proof. intros H Hd. cbn [leave]. rewrite (bind_Ret _ _ _ _ _ (load_run _ _ _ H)), Hd. by apply update_entry_run. Qed.

(** Assigning the value of an entry that is not asserted. *)
Lemma invoke_set_run fuel k e v w : m_config w !! k = Some e → busy e = false → delayed e = [] →
  invoke (perform (S fuel)) k (c_set v) w = (Ret tt, set_config (<[k := set_value v e]> (m_config w)) w).
Proof.
  intros H Hb Hd. unfold ConfigManager.invoke. rewrite (bind_Ret _ _ _ _ _ (load_run _ _ _ H)), Hb.
  rewrite (bind_Ret _ _ _ _ _ (update_entry_run _ _ _ _ H)). cbn [ConfigManager.perform].
  erewrite bind_Ret; [|by eapply update_entry_run, lookup_insert_eq].
  erewrite leave_run; [|apply lookup_insert_eq|done]. cbn. rewrite !insert_insert_eq.
  by replace (set_busy false (set_value v (set_busy true e))) with (set_value v e) by (destruct e; simpl in *; by subst).
Qed.

Definition handler (fuel : nat) (k : key) (x : nat * listener) : M world unit :=
  match x.2 with
  | l_field f => e ← load k; unmarshal_field types f (value e)
  | l_child m =>
    c ← load (m, k.2);
    match reg c with
    | None => mret tt
    | Some _ =>
      e ← load k;
      invoke (perform fuel) (m, k.2) (c_set (value e));;
      invoke (perform fuel) (m, k.2) c_signal
    end
  end.

Lemma perform_signal fuel k e w : m_config w !! k = Some e → perform (S fuel) k c_signal w = for_each (handler fuel k) (listeners e) w.
Proof. intros H. cbn [ConfigManager.perform]. by rewrite (bind_Ret _ _ _ _ _ (load_run _ _ _ H)). Qed.

(** No entry of the managers after [m] is asserted. *)
Definition ready (w : world) (n : string) (m : nat) : Prop :=
  ∀ c e, m < c → m_config w !! (c, n) = Some e → busy e = false ∧ delayed e = [].

Lemma spread_ready w w' n v S F m : spread w w' n v S F → ready w n m → ready w' n m.
Proof.
  intros Hs Hr c e Hc (e0 & He & _ & _ & Eb & Ed & _)%(spread_entry _ _ _ _ _ _ _ _ Hs). rewrite Eb, Ed. by eapply Hr.
Qed.

(** The result of asserting the signal of [(m, n)], whose value is [v]. *)
Definition raised (w : world) (n : string) (v : string) (m : nat) (r : outcome unit * world) : Prop :=
  r.1 = Ret tt ∧ ∃ S F, spread w r.2 n v S F ∧ (∀ c, c ∈ S ↔ below w n m c) ∧ (∀ f, f ∈ F ↔ fed w n m f).

Lemma field_ok k id f e w : shape w → m_config w !! k = Some e → (id, l_field f) ∈ listeners e →
  ∃ w', unmarshal_field types f (value e) w = (Ret tt, w') ∧ spread w w' k.2 (value e) ∅ {[f]}.
Proof.
  intros Hw He Hin. destruct (h_memory _ Hw _ _ _ _ He Hin) as [x Hx]. destruct (accepts f) as [Hok Ht].
  destruct (unmarshal_accepts (types f) x (c_str (value e)) Hok Ht (h_types _ Hw _ _ Hx)) as (y & Ey & Hy).
  eexists. split; [unfold unmarshal_field; munfold; rewrite Hx; cbn; rewrite Ey; reflexivity|]. split; try done; cbn.
  - intros f' ->%elem_of_singleton. exists y, x. split; [apply lookup_insert_eq|exact Ey].
  - intros f' Hf'. rewrite lookup_insert_ne; [done|]. set_solver.
  - intros Hall f' z [[<- <-]|[_ H]]%lookup_insert_Some; [done|by eapply Hall].
Qed.

(** Whether an entry is asserted matters to nothing else. *)
Lemma spread_flag w w' n v S F c e : m_config w !! (c, n) = Some e → busy e = false → c ∉ S →
  spread (set_config (<[(c, n) := set_busy true e]> (m_config w)) w) w' n v S F →
  m_config w' !! (c, n) = Some (set_busy true e) ∧
  spread w (set_config (<[(c, n) := e]> (m_config w')) w') n v S F.
Proof.
  intros He Hb Hc [A1 A2 A3 A4 A5 A6]. split.
  - rewrite A2 by (by left). apply lookup_insert_eq.
  - split; cbn; try done.
    + intros c' Hc'. rewrite lookup_insert_ne by congruence. rewrite A1 by done. cbn. by rewrite lookup_insert_ne by congruence.
    + intros c' n' H. destruct (decide ((c', n') = (c, n))) as [[= -> ->]|Hne]; [by rewrite lookup_insert_eq|].
      rewrite lookup_insert_ne by congruence. rewrite A2 by done. cbn. by rewrite lookup_insert_ne by congruence.
Qed.

(** Asserting a signal, given that its handlers do what they should. *)
Lemma invoke_signal_ok fuel n c e w : shape w → ready w n c → m_config w !! (c, n) = Some e → busy e = false → delayed e = [] →
  (∀ w' e', shape w' → ready w' n c → m_config w' !! (c, n) = Some e' → parents w' = parents w →
     raised w' n (value e') c (perform fuel (c, n) c_signal w')) →
  raised w n (value e) c (invoke (perform fuel) (c, n) c_signal w).
Proof.
  intros Hw Hr He Hb Hd IH. unfold ConfigManager.invoke. rewrite (bind_Ret _ _ _ _ _ (load_run _ _ _ He)), Hb.
  rewrite (bind_Ret _ _ _ _ _ (update_entry_run _ _ _ _ He)). set (w1 := set_config _ w).
  assert (similar w w1) as Hsim by (by eapply similar_update).
  destruct (IH w1 (set_busy true e)) as (E1 & S & F & Hsp & HS & HF).
  - by eapply similar_shape.
  - intros c' e' Hc' He'. cbn in He'. rewrite lookup_insert_ne in He' by (intros [= ->]; lia). by eapply Hr.
  - apply lookup_insert_eq.
  - done.
  - destruct (perform fuel (c, n) c_signal w1) as [r w2] eqn:E2. cbn in E1, Hsp. subst r.
    assert (c ∉ S) as Hc by (rewrite HS; intros Hx%(below_gt w1); [lia|by eapply similar_shape]).
    destruct (spread_flag w w2 n (value e) S F c e He Hb Hc Hsp) as [He2 Hsp2].
    erewrite bind_Ret; [|unfold try_catch; by rewrite E2]. rewrite (leave_run _ _ _ _ _ He2 Hd).
    replace (set_busy false (set_busy true e)) with e by (destruct e; simpl in *; by subst). split; [done|].
    exists S, F. split; [done|]. split.
    + intros c'. by rewrite HS, (similar_below w w1).
    + intros f. by rewrite HF, (similar_fed w w1).
Qed.

(** What a part [l] of the listeners of [(m, n)] reaches. *)
Definition reached (w : world) (n : string) (l : list (nat * listener)) (c : nat) : Prop :=
  ∃ id c0, (id, l_child c0) ∈ l ∧ (c = c0 ∨ below w n c0 c).

Definition reached_field (w : world) (n : string) (l : list (nat * listener)) (f : nat) : Prop :=
  (∃ id, (id, l_field f) ∈ l) ∨ ∃ c e id, reached w n l c ∧ m_config w !! (c, n) = Some e ∧ (id, l_field f) ∈ listeners e.

Lemma below_reached w n m e c : shape w → m_config w !! (m, n) = Some e → below w n m c ↔ reached w n (listeners e) c.
Proof.
  intros Hw He. split.
  - induction 1 as [c ec id Hc Hr|c ec p id Hc Hr _ IH].
    + destruct (h_reg _ Hw _ _ _ _ _ Hc Hr) as (_ & e' & He' & Hin). exists id, c. split; [congruence|by left].
    + destruct IH as (i & c0 & Hin & [->|Hb]); exists i, c0; (split; [done|right]); [by eapply below_child|by eapply below_step].
  - intros (id & c0 & Hin & [->|Hb]); destruct (h_child _ Hw _ _ _ _ _ He Hin) as (e0 & He0 & Hr); [by eapply below_child|].
    induction Hb as [c ec id' Hc Hr'|c ec p id' Hc Hr' _ IH]; [|by eapply below_step]. eapply below_step; [exact Hc|exact Hr'|]. by eapply below_child.
Qed.

Lemma fed_reached w n m e f : shape w → m_config w !! (m, n) = Some e → fed w n m f ↔ reached_field w n (listeners e) f.
Proof.
  intros Hw He. split.
  - intros (c & ec & id & [->|Hb] & Hc & Hin); [left; exists id; congruence|right]. exists c, ec, id. by rewrite <-below_reached.
  - intros [[id Hin]|(c & ec & id & Hb & Hc & Hin)]; [exists m, e, id; auto|]. exists c, ec, id. split; [right|done]. by eapply below_reached.
Qed.

(** One handler. *)
Lemma handler_ok fuel m n e id l w : shape w → ready w n m → m_config w !! (m, n) = Some e → (id, l) ∈ listeners e →
  length (parents w) ≤ m + S fuel →
  (∀ c w' e', m < c → shape w' → ready w' n c → m_config w' !! (c, n) = Some e' → parents w' = parents w →
     raised w' n (value e') c (perform fuel (c, n) c_signal w')) →
  ∃ w' (D F : gset nat), handler fuel (m, n) (id, l) w = (Ret tt, w') ∧ spread w w' n (value e) D F ∧
    (∀ c, c ∈ D ↔ reached w n [(id, l)] c) ∧ (∀ f, f ∈ F ↔ reached_field w n [(id, l)] f).
Proof.
  intros Hw Hr He Hin Hlen IH. destruct l as [f|c]; unfold handler; cbn [snd].
  - destruct (field_ok (m, n) id f e w Hw He Hin) as (w' & E & Hs). exists w', ∅, {[f]}. rewrite (bind_Ret _ _ _ _ _ (load_run _ _ _ He)).
    split; [done|]. split; [done|]. split.
    + intros c. split; [set_solver|]. intros (i & c0 & [= _ ?]%list_elem_of_singleton & _).
    + intros f'. rewrite elem_of_singleton. split.
      * intros ->. left. exists id. left.
      * intros [[i [= _ ->]%list_elem_of_singleton]|(c & ? & ? & (i & c0 & [= _ ?]%list_elem_of_singleton & _) & _)]; done.
  - destruct (h_child _ Hw _ _ _ _ _ He Hin) as (ec & Hec & Hreg). pose proof (h_reg _ Hw _ _ _ _ _ Hec Hreg) as [Hp _].
    pose proof (h_parent _ Hw _ _ Hp) as Hlt. destruct (Hr c ec Hlt Hec) as [Hb Hd].
    pose proof (h_key _ Hw _ _ Hec) as Hlen'. cbn [fst] in Hlen'. destruct fuel as [|fuel]; [lia|].
    rewrite (bind_Ret _ _ _ _ _ (load_run _ _ _ Hec)), Hreg, (bind_Ret _ _ _ _ _ (load_run _ _ _ He)).
    rewrite (bind_Ret _ _ _ _ _ (invoke_set_run _ _ _ _ _ Hec Hb Hd)).
    set (w1 := set_config _ w). assert (similar w w1) as Hsim by (by eapply similar_update).
    assert (spread w w1 n (value e) {[c]} ∅) as Hs1.
    { split; try done; cbn.
      - intros c' ->%elem_of_singleton. by rewrite lookup_insert_eq, Hec.
      - intros c' n' Hne. rewrite lookup_insert_ne; [done|]. intros [= -> ->]. destruct Hne; set_solver. }
    assert (ready w1 n c) as Hr1.
    { intros c' e' Hc' He'. cbn in He'. rewrite lookup_insert_ne in He' by (intros [= ->]; lia). eapply Hr; [|exact He']. lia. }
    assert (shape w1) as Hw1 by (by eapply similar_shape).
    destruct (invoke_signal_ok (S fuel) n c (set_value (value e) ec) w1) as (E & D & F & Hs & HS & HF); [done|done|apply lookup_insert_eq|done|done| |].
    { intros w' e' ????. by apply IH. }
    destruct (invoke (perform _) (c, n) c_signal w1) as [r w2]. cbn in E, Hs. subst r. exists w2, ({[c]} ∪ D), (∅ ∪ F).
    split; [done|]. split; [by eapply spread_trans|]. split.
    + intros x. rewrite elem_of_union, elem_of_singleton, HS, (similar_below w w1) by done. split.
      * intros Hx. exists id, c. split; [left|done].
      * by intros (i & c0 & [= _ ->]%list_elem_of_singleton & Hx).
    + intros f. rewrite elem_of_union, HF, (similar_fed w w1) by done. split.
      * intros [H|(x & ex & i & Hx & Hex & Hi)]; [set_solver|]. right. exists x, ex, i. split; [|done]. exists id, c. split; [left|done].
      * intros [[i [= ]%list_elem_of_singleton]|(x & ex & i & (j & c0 & [= _ ->]%list_elem_of_singleton & Hx) & Hex & Hi)].
        right. by exists x, ex, i.
Qed.

Lemma reached_gt w n m e l c : shape w → m_config w !! (m, n) = Some e → l ⊆ listeners e → reached w n l c → m < c.
Proof. intros Hw He Hl (id & c0 & Hin & Hc). apply (below_gt w n); [done|]. rewrite below_reached by done. exists id, c0. split; [by apply Hl|done]. Qed.

Lemma reached_cons w n x l c : reached w n (x :: l) c ↔ reached w n [x] c ∨ reached w n l c.
Proof.
  split.
  - intros (id & c0 & [<-|H]%elem_of_cons & Hc); [left|right]; exists id, c0; (split; [|done]); [left|done].
  - intros [(id & c0 & <-%list_elem_of_singleton & Hc)|(id & c0 & H & Hc)]; exists id, c0; (split; [|done]); [left|by right].
Qed.

Lemma reached_field_cons w n x l f : reached_field w n (x :: l) f ↔ reached_field w n [x] f ∨ reached_field w n l f.
Proof.
  split.
  - intros [[id [<-|H]%elem_of_cons]|(c & e & id & [Hc|Hc]%reached_cons & H)]; [left; left; exists id; left|right; left; by exists id|left; right|right; right];
      by exists c, e, id.
  - intros [[[id <-%list_elem_of_singleton]|(c & e & id & Hc & H)]|[[id H]|(c & e & id & Hc & H)]]; [left; exists id; left|right|left; exists id; by right|right];
      exists c, e, id; rewrite reached_cons; auto.
Qed.

Lemma similar_reached w w' n l c : similar w w' → reached w' n l c ↔ reached w n l c.
Proof. intros Hs. unfold reached. by setoid_rewrite (similar_below w w' n _ c Hs). Qed.

Lemma similar_reached_field w w' n l f : similar w w' → reached_field w' n l f ↔ reached_field w n l f.
Proof.
  intros Hs. unfold reached_field. split; (intros [?|(c & e & id & Hc & He & Hin)]; [by left|right]).
  - rewrite (similar_reached w w') in Hc by done. destruct (similar_from _ _ _ _ Hs He) as (e0 & He0 & El & _). exists c, e0, id. by rewrite <-El.
  - rewrite <-(similar_reached w w') in Hc by done. destruct (similar_to _ _ _ _ Hs He) as (e0 & He0 & El & _). exists c, e0, id. by rewrite El.
Qed.

(** All handlers of an entry, in order. *)
Lemma handlers_ok fuel m n e l w : shape w → ready w n m → m_config w !! (m, n) = Some e → l ⊆ listeners e →
  length (parents w) ≤ m + S fuel →
  (∀ c w' e', m < c → shape w' → ready w' n c → m_config w' !! (c, n) = Some e' → parents w' = parents w →
     raised w' n (value e') c (perform fuel (c, n) c_signal w')) →
  ∃ w' (D F : gset nat), for_each (handler fuel (m, n)) l w = (Ret tt, w') ∧ spread w w' n (value e) D F ∧
    (∀ c, c ∈ D ↔ reached w n l c) ∧ (∀ f, f ∈ F ↔ reached_field w n l f).
Proof.
  revert w. induction l as [|[id x] l IHl]; intros w Hw Hr He Hl Hlen IH.
  - exists w, ∅, ∅. split; [done|]. split; [apply spread_refl|]. split.
    + intros c. split; [set_solver|]. by intros (id & c0 & H%elem_of_nil & _).
    + intros f. split; [set_solver|]. by intros [[id H%elem_of_nil]|(c & ? & ? & (id & c0 & H%elem_of_nil & _) & _)].
  - destruct (handler_ok fuel m n e id x w Hw Hr He) as (w1 & D1 & F1 & E1 & Hs1 & HD1 & HF1); [apply Hl; left|done|done|].
    assert (m_config w1 !! (m, n) = Some e) as He1.
    { rewrite (sp_out _ _ _ _ _ _ Hs1); [done|left]. rewrite HD1. intros Hm%(reached_gt w n m e); [lia|done|done|].
      intros y ->%list_elem_of_singleton. apply Hl. left. }
    pose proof (spread_similar _ _ _ _ _ _ Hs1) as Hsim. pose proof (sm_parents _ _ Hsim) as Ep.
    destruct (IHl w1) as (w2 & D2 & F2 & E2 & Hs2 & HD2 & HF2); [by eapply similar_shape|by eapply spread_ready|done| |congruence| |].
    + intros y Hy. apply Hl. by right.
    + intros c w' e' ???? Ep'. apply IH; try done. congruence.
    + exists w2, (D1 ∪ D2), (F1 ∪ F2). cbn [for_each]. rewrite (bind_Ret _ _ _ _ _ E1). split; [done|]. split; [by eapply spread_trans|]. split.
      * intros c. by rewrite elem_of_union, HD1, HD2, (similar_reached w w1), <-reached_cons.
      * intros f. by rewrite elem_of_union, HF1, HF2, (similar_reached_field w w1), <-reached_field_cons.
Qed.

(** Asserting the signal of an entry: the fuel is the height of the tree below it. *)
Lemma raise_ok fuel : ∀ m n e w, shape w → ready w n m → m_config w !! (m, n) = Some e → length (parents w) ≤ m + fuel →
  raised w n (value e) m (perform fuel (m, n) c_signal w).
Proof.
  induction fuel as [|fuel IH]; intros m n e w Hw Hr He Hlen; [pose proof (h_key _ Hw _ _ He); simpl in *; lia|].
  rewrite (perform_signal _ _ _ _ He).
  destruct (handlers_ok fuel m n e (listeners e) w Hw Hr He) as (w' & D & F & E & Hs & HD & HF); [done|lia| |].
  - intros c w' e' Hc Hw' Hr' He' Ep. apply IH; try done. rewrite Ep. lia.
  - rewrite E. split; [done|]. exists D, F. split; [done|]. split.
    + intros c. by rewrite HD, (below_reached w n m e).
    + intros f. by rewrite HF, (fed_reached w n m e).
Qed.

(** ** Healthy worlds *)
(** What an entry is worth to its manager: a value of its own, or the parent's. *)
Definition own_of (w : world) (k : key) : option (option string) :=
  (λ e, match reg e with None => Some (value e) | Some _ => None end) <$> m_config w !! k.

(** Field [f] listens to [k]. *)
Definition attached (w : world) (k : key) (f : nat) : Prop := ∃ e id, m_config w !! k = Some e ∧ (id, l_field f) ∈ listeners e.

Record frame (w w' : world) : Prop := {
  f_parents : parents w' = parents w;
  f_metadata : metadata_collection w' = metadata_collection w;
  f_watchers : watchers w' = watchers w;
  f_told : told w' = told w;
  f_attached : ∀ k f, attached w' k f ↔ attached w k f;
  f_memory : ∀ f, is_Some (fields w !! f) → is_Some (fields w' !! f) }.

Lemma frame_refl w : frame w w.
Proof. by split. Qed.

Lemma frame_trans w1 w2 w3 : frame w1 w2 → frame w2 w3 → frame w1 w3.
Proof. intros [] []. split; try congruence; auto. intros k f. by rewrite f_attached1. Qed.

Lemma spread_frame w w' n v D F : spread w w' n v D F → frame w w'.
Proof.
  intros Hs. pose proof (sp_same _ _ _ _ _ _ Hs) as (? & ? & ? & ? & ?). split; try done; [|apply (sm_memory _ _ (spread_similar _ _ _ _ _ _ Hs))].
  intros k f. split; intros (e & id & He & Hin).
  - destruct (spread_entry _ _ _ _ _ _ _ _ Hs He) as (e0 & He0 & El & _). exists e0, id. by rewrite <-El.
  - destruct (spread_entry' _ _ _ _ _ _ _ _ Hs He) as (e0 & He0 & El & _). exists e0, id. by rewrite El.
Qed.

(** Asserting the signal of the only entry whose listeners may be behind. *)
Lemma settle w w' m n e D F : shape w → settled_but (Some (m, n)) w → m_config w !! (m, n) = Some e →
  spread w w' n (value e) D F → (∀ c, c ∈ D ↔ below w n m c) → (∀ f, f ∈ F ↔ fed w n m f) → settled_but None w'.
Proof.
  intros Hw Hset He Hs HD HF.
  split.
  - intros c n' ec p id ep Hc Hr Hp _.
    destruct (spread_entry _ _ _ _ _ _ _ _ Hs Hc) as (ec0 & Hc0 & _ & Er & _ & _ & ->).
    destruct (spread_entry _ _ _ _ _ _ _ _ Hs Hp) as (ep0 & Hp0 & _ & _ & _ & _ & ->). rewrite Er in Hr. cbn [fst snd].
    destruct (decide (n' = n)) as [->|Hn]; [|rewrite !decide_False by tauto; eapply (h_value _ _ Hset); [exact Hc0|exact Hr|exact Hp0|congruence]].
    destruct (decide (p = m)) as [->|Hpm].
    + assert (c ∈ D) by (rewrite HD; by eapply below_child). rewrite decide_True by done. assert (ep0 = e) as -> by congruence. by destruct (decide _).
    + destruct (decide (p ∈ D)) as [Hpd|Hpd].
      * assert (c ∈ D) by (rewrite HD; apply HD in Hpd; by eapply below_step). by rewrite !decide_True by done.
      * assert (c ∉ D) by (rewrite HD; intros Hb; destruct Hb as [c ec' id' Hc' Hr'|c ec' p' id' Hc' Hr' Hb]; [|apply HD in Hb]; congruence).
        rewrite !decide_False by tauto. eapply (h_value _ _ Hset); [exact Hc0|exact Hr|exact Hp0|congruence].
  - intros k ek id f Hk Hin _. destruct (spread_entry _ _ _ _ _ _ _ _ Hs Hk) as (ek0 & Hk0 & El & _ & _ & _ & ->). rewrite El in Hin.
    destruct k as [c n']. cbn [fst snd]. destruct (decide (f ∈ F)) as [Hf|Hf].
    + pose proof (sp_fields _ _ _ _ _ _ Hs f Hf) as Href. apply HF in Hf as (c' & e' & id' & Hc' & He' & Hin').
      assert ((c, n') = (c', n)) as [= -> ->] by (by eapply (h_once _ Hw)). assert (e' = ek0) as -> by congruence.
      destruct Hc' as [->|Hb]; [|rewrite decide_True by (by rewrite HD); done]. assert (ek0 = e) as -> by congruence. by destruct (decide _).
    + assert (¬ (n' = n ∧ (c = m ∨ c ∈ D))) as Hno by (rewrite HD; intros [-> Hc]; apply Hf, HF; by exists c, ek0, id).
      rewrite decide_False by tauto. destruct (h_field _ _ Hset _ _ _ _ Hk0 Hin) as (x & g & Hx & Hg).
      * intros [= -> ->]. tauto.
      * exists x, g. by rewrite (sp_rest _ _ _ _ _ _ Hs).
Qed.

Lemma idle_ready w n m : idle w → ready w n m.
Proof. intros H c e _. apply H. Qed.

(** The last step of [Set]. *)
Lemma signal_entry_ok w m n e : shape w → idle w → settled_but (Some (m, n)) w → m_config w !! (m, n) = Some e →
  ∃ w', invoke_entry types (m, n) c_signal w = (Ret tt, w') ∧ healthy w' ∧ frame w w' ∧ ∀ k, own_of w' k = own_of w k.
Proof.
  intros Hw Hi Hset He. unfold invoke_entry. munfold. destruct (Hi _ _ He) as [Hb Hd].
  destruct (invoke_signal_ok (S (length (parents w))) n m e w Hw (idle_ready _ _ _ Hi) He Hb Hd) as (E & D & F & Hs & HD & HF).
  { intros w' e' Hw' Hr' He' Ep. apply raise_ok; try done. rewrite Ep. lia. }
  destruct (invoke _ (m, n) c_signal w) as [r w']. cbn in E, Hs. subst r. exists w'. split; [done|].
  split; [split; [|split]|split; [by eapply spread_frame|]].
  - eapply similar_shape; [by eapply spread_similar|done].
  - by eapply settle.
  - intros k e' (e0 & He0 & _ & _ & -> & -> & _)%(spread_entry _ _ _ _ _ _ _ _ Hs). by eapply Hi.
  - intros [c n']. unfold own_of. destruct (m_config w !! (c, n')) as [e0|] eqn:He0.
    + destruct (spread_entry' _ _ _ _ _ _ _ _ Hs He0) as (e' & -> & _ & Er & _ & _ & Ev). cbn. rewrite Er, Ev. cbn.
      destruct (reg e0) eqn:Hr; [done|]. rewrite decide_False; [done|]. intros [-> Hc]. apply HD in Hc. destruct Hc; congruence.
    + destruct (m_config w' !! (c, n')) eqn:He'; [|done]. destruct (spread_entry _ _ _ _ _ _ _ _ Hs He') as (? & ? & _). congruence.
Qed.

(** A registration ends. *)
Definition unlinked (w : world) (c : nat) (n : string) (e : Entry) : world :=
  match reg e with
  | Some (p, id) =>
    set_config (<[(c, n) := set_reg None e]> (alter (λ ep, set_listeners (base.filter (λ x, x.1 ≠ id) (listeners ep)) ep) (p, n) (m_config w))) w
  | None => w
  end.

Section unlink.
  Context (w : world) (c : nat) (n : string) (e ep : Entry) (p id : nat).
  Context (Hh : healthy w) (He : m_config w !! (c, n) = Some e) (Hr : reg e = Some (p, id)) (Hp : m_config w !! (p, n) = Some ep).
Let w' := unlinked w c n e.

Lemma unlink_ne : p ≠ c.
Proof. destruct Hh as [Hw _]. destruct (h_reg _ Hw _ _ _ _ _ He Hr) as [H _]. pose proof (h_parent _ Hw _ _ H). lia. Qed.

Lemma unlink_lookup k x : m_config w' !! k = Some x →
  k = (c, n) ∧ x = set_reg None e ∨
  k = (p, n) ∧ x = set_listeners (base.filter (λ x, x.1 ≠ id) (listeners ep)) ep ∨
  k ≠ (c, n) ∧ k ≠ (p, n) ∧ m_config w !! k = Some x.
Proof.
  unfold w', unlinked. rewrite Hr. cbn. rewrite (alter_alt_Some _ _ _ ep) by done. rewrite !lookup_insert_Some. naive_solver.
Qed.

Lemma unlink_at : m_config w' !! (c, n) = Some (set_reg None e) ∧
  m_config w' !! (p, n) = Some (set_listeners (base.filter (λ x, x.1 ≠ id) (listeners ep)) ep) ∧
  ∀ k, k ≠ (c, n) → k ≠ (p, n) → m_config w' !! k = m_config w !! k.
Proof.
  pose proof unlink_ne. unfold w', unlinked. rewrite Hr. cbn. rewrite (alter_alt_Some _ _ _ ep) by done. split_and!.
  - apply lookup_insert_eq.
  - by rewrite lookup_insert_ne, lookup_insert_eq by congruence.
  - intros k H1 H2. by rewrite !lookup_insert_ne by congruence.
Qed.

Lemma unlink_listener k x l j : m_config w' !! k = Some x → (j, l) ∈ listeners x →
  ∃ y, m_config w !! k = Some y ∧ (j, l) ∈ listeners y ∧ value x = value y ∧ (k = (p, n) → j ≠ id).
Proof.
  pose proof unlink_ne. intros [[-> ->]|[[-> ->]|(? & ? & Hx)]]%unlink_lookup Hin.
  - exists e. split_and!; try done. congruence.
  - exists ep. cbn in Hin. apply list_elem_of_filter in Hin as [? ?]. by split_and!.
  - exists x. by split_and!.
Qed.

Lemma unlink_kept k y l j : m_config w !! k = Some y → (j, l) ∈ listeners y → (k = (p, n) → j ≠ id) →
  ∃ x, m_config w' !! k = Some x ∧ (j, l) ∈ listeners x.
Proof.
  destruct unlink_at as (H1 & H2 & H3). intros Hy Hin Hk. destruct (decide (k = (c, n))) as [->|]; [|destruct (decide (k = (p, n))) as [->|]].
  - exists (set_reg None e). split; [done|]. cbn. congruence.
  - eexists. split; [exact H2|]. cbn. apply list_elem_of_filter. split; [by apply Hk|]. congruence.
  - exists y. rewrite H3 by done. done.
Qed.

Lemma unlink_reg k x : m_config w' !! k = Some x → ∃ y, m_config w !! k = Some y ∧ value x = value y ∧ busy x = busy y ∧ delayed x = delayed y ∧
  (k ≠ (c, n) → reg x = reg y) ∧ (k = (c, n) → reg x = None).
Proof.
  pose proof unlink_ne. intros [[-> ->]|[[-> ->]|(? & ? & Hx)]]%unlink_lookup; [exists e|exists ep|exists x]; split_and!; try done; congruence.
Qed.

Lemma unlink_shape : shape w'.
Proof.
  destruct Hh as [[H1 H2 H3 H4 H5 H6 H7 H8] _]. assert (parents w' = parents w ∧ fields w' = fields w ∧ next_registration w' = next_registration w) as (E1 & E2 & E3).
  { unfold w', unlinked. by rewrite Hr. }
  split; rewrite ?E1, ?E2, ?E3; try done.
  - intros k x (y & Hy & _)%unlink_reg. by eapply H2.
  - intros c' n' x m i Hx Hrx. destruct (unlink_reg _ _ Hx) as (y & Hy & _ & _ & _ & Hne & Heq).
    assert ((c', n') ≠ (c, n)) as n0 by (intros Ek; specialize (Heq Ek); congruence). rewrite Hne in Hrx by done.
    destruct (H3 _ _ _ _ _ Hy Hrx) as [? (em & Hem & Hin)]. split; [done|]. eapply unlink_kept; [exact Hem|exact Hin|].
    intros [= -> ->] ->. assert (em = ep) as -> by congruence. destruct (H3 _ _ _ _ _ He Hr) as [_ (ep' & Hep' & Hin')].
    assert (ep' = ep) as -> by congruence. destruct (H8 _ _ Hem) as [Hnd _].
    pose proof (NoDup_fst_elem _ _ _ _ Hnd Hin Hin'). congruence.
  - intros m n' x i c' Hx Hin. destruct (unlink_listener _ _ _ _ Hx Hin) as (y & Hy & Hiny & _ & Hid).
    destruct (H4 _ _ _ _ _ Hy Hiny) as (ec & Hec & Hrc). destruct unlink_at as (A1 & A2 & A3).
    destruct (decide ((c', n') = (c, n))) as [[= -> ->]|n0]; [assert (ec = e) as -> by congruence; rewrite Hr in Hrc; injection Hrc as -> ->; by destruct Hid|].
    destruct (decide ((c', n') = (p, n))) as [[= -> ->]|n1]; [eexists; split; [exact A2|]; cbn; congruence|]. exists ec. by rewrite A3.
  - intros k k' x x' i i' f Hx Hx' Hin Hin'. destruct (unlink_listener _ _ _ _ Hx Hin) as (y & Hy & Hiny & _), (unlink_listener _ _ _ _ Hx' Hin') as (y' & Hy' & Hiny' & _).
    by eapply H5.
  - intros k x i f Hx Hin. destruct (unlink_listener _ _ _ _ Hx Hin) as (y & Hy & Hiny & _). by eapply H6.
  - intros k x Hx. split.
    + destruct (unlink_lookup _ _ Hx) as [[-> ->]|[[-> ->]|(? & ? & Hy)]]; [by destruct (H8 _ _ He)| |by destruct (H8 _ _ Hy)].
      destruct (H8 _ _ Hp) as [Hnd _]. cbn. by apply NoDup_fst_filter.
    + intros i l Hin. destruct (unlink_listener _ _ _ _ Hx Hin) as (y & Hy & Hiny & _). by eapply H8.
Qed.

Lemma unlink_healthy : healthy w'.
Proof.
  split; [exact unlink_shape|]. destruct Hh as (Hw & Hset & Hi). split.
  - split.
    + intros c' n' x m i x' Hx Hrx Hx' _. destruct (unlink_reg _ _ Hx) as (y & Hy & -> & _ & _ & Hne & Heq), (unlink_reg _ _ Hx') as (y' & Hy' & -> & _).
      assert ((c', n') ≠ (c, n)) as n0 by (intros Ek; specialize (Heq Ek); congruence). rewrite Hne in Hrx by done.
      by eapply (h_value _ _ Hset).
    + intros k x i f Hx Hin _. destruct (unlink_listener _ _ _ _ Hx Hin) as (y & Hy & Hiny & -> & _).
      destruct (h_field _ _ Hset _ _ _ _ Hy Hiny ltac:(done)) as (z & g & Hz & Hg). exists z, g. split; [|done].
      unfold w', unlinked. by rewrite Hr.
  - intros k x (y & Hy & _ & -> & -> & _)%unlink_reg. by eapply Hi.
Qed.

Lemma unlink_frame : frame w w'.
Proof.
  split; unfold w', unlinked; rewrite ?Hr; try done; fold w'. intros k f. split.
  - intros (x & i & Hx & Hin). destruct (unlink_listener k x (l_field f) i) as (y & Hy & Hiny & _); [unfold w', unlinked; by rewrite Hr|done|]. by exists y, i.
  - intros (y & i & Hy & Hin). destruct (unlink_kept k y (l_field f) i Hy Hin) as (x & Hx & ?).
    + intros -> ->. destruct Hh as [Hw _]. destruct (h_reg _ Hw _ _ _ _ _ He Hr) as [_ (ep' & Hep' & Hin')]. assert (y = ep') as -> by congruence.
      destruct (h_ids _ Hw _ _ Hep') as [Hnd _]. pose proof (NoDup_fst_elem _ _ _ _ Hnd Hin Hin'). congruence.
    + exists x, i. unfold w', unlinked in Hx. by rewrite Hr in Hx.
Qed.
End unlink.

(** [reg.clear()]: the entry keeps its value as its own. *)
Lemma clear_reg_ok w c n e : healthy w → m_config w !! (c, n) = Some e →
  ∃ w', clear_reg (c, n) w = (Ret tt, w') ∧ healthy w' ∧ frame w w' ∧ m_config w' !! (c, n) = Some (set_reg None e) ∧
    ∀ k, k ≠ (c, n) → own_of w' k = own_of w k ∧ value <$> m_config w' !! k = value <$> m_config w !! k.
Proof.
  intros Hh He. unfold clear_reg. rewrite (bind_Ret _ _ _ _ _ (load_run _ _ _ He)).
  destruct (reg e) as [[p id]|] eqn:Hr.
  - pose proof Hh as (Hw & _ & Hi). destruct (h_reg _ Hw _ _ _ _ _ He Hr) as [_ (ep & Hp & _)]. destruct (Hi _ _ Hp) as [Hb _].
    exists (unlinked w c n e). split_and!.
    + cbn [snd]. unfold remove. rewrite bind_assoc, (bind_Ret _ _ _ _ _ (load_run _ _ _ Hp)), Hb.
      rewrite (bind_Ret _ _ _ _ _ (update_entry_run _ _ _ _ Hp)). erewrite update_entry_run; [|cbn; rewrite lookup_insert_ne; [exact He|]].
      * unfold unlinked. rewrite Hr. by rewrite (alter_alt_Some _ (m_config w) _ ep).
      * pose proof (unlink_ne w c n e p id Hh He Hr). congruence.
    + by eapply unlink_healthy.
    + by eapply unlink_frame.
    + by destruct (unlink_at w c n e ep p id Hh He Hr Hp).
    + intros k Hk. destruct (unlink_at w c n e ep p id Hh He Hr Hp) as (_ & H2 & H3). unfold own_of.
      destruct (decide (k = (p, n))) as [->|n1]; [by rewrite H2, Hp|by rewrite H3].
  - exists w. split_and!; try done. rewrite He. f_equal. destruct e; simpl in *; by subst.
Qed.

(** A manager gets an entry of its own. *)
Definition with_entry (w : world) (k : key) : world := set_config (<[k := Entry_new]> (m_config w)) w.

Lemma with_entry_ok w k : healthy w → m_config w !! k = None → k.1 < length (parents w) →
  healthy (with_entry w k) ∧ frame w (with_entry w k) ∧ own_of (with_entry w k) k = Some (Some EmptyString) ∧
  ∀ k', k' ≠ k → m_config (with_entry w k) !! k' = m_config w !! k'.
Proof.
  intros ([H1 H2 H3 H4 H5 H6 H7 H8] & [Hv Hf] & Hi) Hk Hlt. destruct k as [c n]. unfold with_entry.
  split_and!.
  - split; [|split]; cbn.
    + split; cbn; try done.
      * intros k' e [[<- _]|[_ He]]%lookup_insert_Some; [done|by eapply H2].
      * intros c' n' e m id [[_ <-]|[n0 He]]%lookup_insert_Some Hr; [done|]. destruct (H3 _ _ _ _ _ He Hr) as [? (e' & He' & ?)].
        split; [done|]. exists e'. rewrite lookup_insert_ne; [done|]. congruence.
      * intros m n' e id c' [[_ <-]|[n0 He]]%lookup_insert_Some Hin; [by apply elem_of_nil in Hin|]. destruct (H4 _ _ _ _ _ He Hin) as (e' & He' & ?).
        exists e'. rewrite lookup_insert_ne; [done|]. congruence.
      * intros k1 k2 e1 e2 i1 i2 f [[_ <-]|[_ A]]%lookup_insert_Some [[_ <-]|[_ B]]%lookup_insert_Some Hin Hin';
          [by apply elem_of_nil in Hin..|by apply elem_of_nil in Hin'|by eapply H5].
      * intros k' e id f [[_ <-]|[_ A]]%lookup_insert_Some Hin; [by apply elem_of_nil in Hin|by eapply H6].
      * intros k' e [[_ <-]|[_ A]]%lookup_insert_Some; [|by eapply H8]. split; [constructor|]. by intros ?? ?%elem_of_nil.
    + split; cbn.
      * intros c' n' e m id e' [[_ <-]|[_ A]]%lookup_insert_Some Hr; [done|]. intros [[[= -> ->] <-]|[_ B]]%lookup_insert_Some; [|by eapply Hv].
        destruct (H3 _ _ _ _ _ A Hr) as [_ (e' & He' & _)]. congruence.
      * intros k' e id f [[_ <-]|[_ A]]%lookup_insert_Some Hin; [by apply elem_of_nil in Hin|by eapply Hf].
    + unfold idle. cbn. intros k' e [[_ <-]|[_ A]]%lookup_insert_Some; [done|by eapply Hi].
  - split; cbn; try done. intros k' f. unfold attached. cbn. split.
    + intros (e & id & [[_ <-]|[_ A]]%lookup_insert_Some & Hin); [by apply elem_of_nil in Hin|by exists e, id].
    + intros (e & id & A & Hin). exists e, id. rewrite lookup_insert_ne; [done|]. congruence.
  - unfold own_of. cbn. by rewrite lookup_insert_eq.
  - intros k' n0. cbn. by rewrite lookup_insert_ne.
Qed.

(** A value for an entry that is its own. *)
Lemma assign_ok w k e v : healthy w → m_config w !! k = Some e → reg e = None →
  let w1 := set_config (<[k := set_value v e]> (m_config w)) w in
  shape w1 ∧ idle w1 ∧ settled_but (Some k) w1 ∧ frame w w1 ∧ own_of w1 k = Some (Some v) ∧ ∀ k', k' ≠ k → own_of w1 k' = own_of w k'.
Proof.
  intros (Hw & [Hv Hf] & Hi) He Hr w1. assert (similar w w1) as Hs by (by eapply similar_update). split_and!.
  - by eapply similar_shape.
  - unfold idle, w1. cbn. intros k' e' [[_ <-]|[_ A]]%lookup_insert_Some; [exact (Hi _ _ He)|by eapply Hi].
  - split; unfold w1; cbn.
    + intros c n e' m id ep [[-> <-]|[_ A]]%lookup_insert_Some Hr'; [cbn in Hr'; congruence|].
      intros [[E _]|[_ B]]%lookup_insert_Some Hne; [congruence|by eapply Hv].
    + intros k' e' id f [[-> _]|[_ A]]%lookup_insert_Some Hin Hne; [done|by eapply Hf].
  - split; try done. intros k' f. unfold attached. split; intros (x & id & Hx & Hin).
    + destruct (similar_from _ _ _ _ Hs Hx) as (y & Hy & El & _). exists y, id. by rewrite <-El.
    + destruct (similar_to _ _ _ _ Hs Hx) as (y & Hy & El & _). exists y, id. by rewrite El.
  - unfold own_of, w1. cbn. rewrite lookup_insert_eq. cbn. by rewrite Hr.
  - intros k' n0. unfold own_of, w1. cbn. by rewrite lookup_insert_ne.
Qed.

(** [Set]. *)
Lemma SetValue_ok w m n v : healthy w → m < length (parents w) →
  ∃ w', SetValue types m n v w = (Ret tt, w') ∧ healthy w' ∧ frame w w' ∧ own_of w' (m, n) = Some (Some v) ∧
    ∀ k, k ≠ (m, n) → own_of w' k = own_of w k.
Proof.
  intros Hh Hm. unfold SetValue.
  assert (∃ w1 e1, (match m_config w !! (m, n) with Some _ => clear_reg (m, n) | None => modify (set_config (<[(m, n) := Entry_new]> (m_config w))) end) w
    = (Ret tt, w1) ∧ healthy w1 ∧ frame w w1 ∧ m_config w1 !! (m, n) = Some e1 ∧ reg e1 = None ∧ ∀ k, k ≠ (m, n) → own_of w1 k = own_of w k)
    as (w1 & e1 & E1 & Hh1 & Hf1 & He1 & Hr1 & Ho1).
  { destruct (m_config w !! (m, n)) as [e|] eqn:He.
    - destruct (clear_reg_ok w m n e Hh He) as (w1 & E & H1 & H2 & H3 & H4). exists w1, (set_reg None e). split_and!; try done. intros k Hk. by apply H4.
    - destruct (with_entry_ok w (m, n) Hh He Hm) as (H1 & H2 & H3 & H4). exists (with_entry w (m, n)), Entry_new. split_and!; try done.
      + unfold with_entry. cbn. apply lookup_insert_eq.
      + intros k Hk. unfold own_of. by rewrite H4. }
  assert (∀ A (k : world → M world A), (get ≫= k) w = k w w) as Hget by done. rewrite Hget, (bind_Ret _ _ _ _ _ E1).
  destruct (assign_ok w1 (m, n) e1 v Hh1 He1 Hr1) as (A1 & A2 & A3 & A4 & A5 & A6). set (w2 := set_config _ w1) in *.
  destruct Hh1 as (_ & _ & Hi1). destruct (Hi1 _ _ He1) as [Hb Hd].
  assert (invoke_entry types (m, n) (c_set v) w1 = (Ret tt, w2)) as E2 by (unfold invoke_entry; munfold; by apply invoke_set_run).
  rewrite (bind_Ret _ _ _ _ _ E2).
  destruct (signal_entry_ok w2 m n (set_value v e1) A1 A2 A3) as (w3 & E3 & Hh3 & Hf3 & Ho3); [apply lookup_insert_eq|].
  exists w3. split; [done|]. split; [done|]. split; [by eapply frame_trans, frame_trans|]. split; [by rewrite Ho3|].
  intros k Hk. by rewrite Ho3, A6, Ho1.
Qed.

(** ** Subscribing and registering *)
Definition added (l : listener) (w : world) (e : Entry) : Entry := set_listeners (listeners e ++ [(next_registration w, l)]) e.

Lemma perform_link fuel k id l e w : m_config w !! k = Some e →
  perform (S fuel) k (c_link id l) w = (Ret tt, set_config (<[k := set_listeners (listeners e ++ [(id, l)]) e]> (m_config w)) w).
Proof. intros H. cbn [ConfigManager.perform]. by rewrite (update_entry_run _ _ _ _ H). Qed.

(** Leaving when one link was delayed. *)
Lemma leave_link_run fuel k id l e w : m_config w !! k = Some e → delayed e = [c_link id l] →
  leave 3 (perform (S fuel) k) k w = (Ret tt, set_config (<[k := set_busy false (set_listeners (listeners e ++ [(id, l)]) (set_delayed [] e))]> (m_config w)) w).
Proof.
  intros H Hd. cbn [leave]. rewrite (bind_Ret _ _ _ _ _ (load_run _ _ _ H)), Hd.
  rewrite (bind_Ret _ _ _ _ _ (update_entry_run _ _ _ _ H)). cbn [for_each].
  erewrite bind_Ret.
  2: { erewrite bind_Ret; [|unfold try_catch; by erewrite perform_link by apply lookup_insert_eq]. reflexivity. }
  cbn. rewrite insert_insert_eq.
  set (w1 := set_config _ _). erewrite (bind_Ret _ _ w1); [|apply load_run; unfold w1; apply lookup_insert_eq].
  cbn. erewrite update_entry_run by (unfold w1; apply lookup_insert_eq). unfold w1. cbn. by rewrite insert_insert_eq.
Qed.

(** The entry of a child takes the value of its parent's, and follows it. *)
Definition subscribed (w : world) (p m : nat) (n : string) (ep em : Entry) : world :=
  set_next (S (next_registration w))
    (set_config (<[(p, n) := added (l_child m) w ep]>
      (<[(m, n) := set_value (value ep) (set_reg (Some (p, next_registration w)) em)]> (m_config w))) w).

Lemma subscribe_run w p m n ep em : idle w → p ≠ m → 0 < length (parents w) → m_config w !! (p, n) = Some ep → m_config w !! (m, n) = Some em →
  invoke_entry types (p, n) (c_subscribe m) w = (Ret tt, subscribed w p m n ep em).
Proof.
  intros Hi Hpm Hlen Hp Hm. destruct (Hi _ _ Hp) as [Hb Hd], (Hi _ _ Hm) as [Hb' Hd']. unfold invoke_entry. munfold.
  destruct (length (parents w)) as [|N]; [lia|]. unfold ConfigManager.invoke at 1.
  rewrite (bind_Ret _ _ _ _ _ (load_run _ _ _ Hp)), Hb, (bind_Ret _ _ _ _ _ (update_entry_run _ _ _ _ Hp)).
  set (w1 := set_config _ w). assert (m_config w1 !! (p, n) = Some (set_busy true ep)) as Hp1 by apply lookup_insert_eq.
  assert (append (p, n) (l_child m) w1 = (Ret (next_registration w), set_next (S (next_registration w))
    (set_config (<[(p, n) := set_delayed [c_link (next_registration w) (l_child m)] (set_busy true ep)]> (m_config w)) w))) as Ea.
  { unfold append. rewrite get_run, (bind_Ret _ _ _ _ _ (load_run _ _ _ Hp1)), modify_run. cbn [busy set_busy].
    erewrite bind_Ret by (apply update_entry_run, Hp1). unfold w1. cbn. rewrite Hd. cbn. by rewrite insert_insert_eq. }
  set (w2 := set_next _ _) in Ea. assert (m_config w2 !! (p, n) = Some (set_delayed [c_link (next_registration w) (l_child m)] (set_busy true ep))) as Hp2 by apply lookup_insert_eq.
  assert (m_config w2 !! (m, n) = Some em) as Hm2 by (unfold w2; cbn; rewrite lookup_insert_ne; [done|congruence]).
  set (em' := set_reg (Some (p, next_registration w)) em). set (w3 := set_config (<[(m, n) := em']> (m_config w2)) w2).
  assert (m_config w3 !! (p, n) = Some (set_delayed [c_link (next_registration w) (l_child m)] (set_busy true ep))) as Hp3.
  { unfold w3. cbn. rewrite lookup_insert_ne; [apply lookup_insert_eq|congruence]. }
  assert (m_config w3 !! (m, n) = Some em') as Hm3 by apply lookup_insert_eq.
  assert (perform (S (S N)) (p, n) (c_subscribe m) w1 = (Ret tt, set_config (<[(m, n) := set_value (value ep) em']> (m_config w3)) w3)) as Eper.
  { cbn [ConfigManager.perform]. rewrite (bind_Ret _ _ _ _ _ Ea), (bind_Ret _ _ _ _ _ (update_entry_run _ _ _ _ Hm2)).
    rewrite (bind_Ret _ _ _ _ _ (load_run _ _ _ Hp3)). by apply invoke_set_run. }
  rewrite (bind_Ret _ _ _ _ _ Eper). set (w4 := set_config _ w3).
  assert (m_config w4 !! (p, n) = Some (set_delayed [c_link (next_registration w) (l_child m)] (set_busy true ep))) as Hp4.
  { unfold w4. cbn [m_config set_config]. rewrite lookup_insert_ne; [exact Hp3|congruence]. }
  rewrite (leave_link_run _ _ _ _ _ _ Hp4 eq_refl). f_equal. unfold subscribed, w4, w3, w2, set_config, set_next. cbn.
  f_equal. apply map_eq. intros k.
  destruct (decide (k = (p, n))) as [->|n1]; [|destruct (decide (k = (m, n))) as [->|n2]];
    repeat (rewrite lookup_insert_eq || rewrite lookup_insert_ne by congruence); [|done..].
  f_equal. unfold added. destruct ep; simpl in *; by subst.
Qed.

Lemma subscribed_ok w p m n ep em : healthy w → parents w !! m = Some (Some p) → m_config w !! (p, n) = Some ep → m_config w !! (m, n) = Some em →
  reg em = None → listeners em = [] → let w' := subscribed w p m n ep em in
  healthy w' ∧ frame w w' ∧ own_of w' (m, n) = Some None ∧ ∀ k, k ≠ (m, n) → own_of w' k = own_of w k.
Proof.
  intros ([H1 H2 H3 H4 H5 H6 H7 H8] & [Hv Hf] & Hi) Hpar Hp Hm Hr Hl w'. pose proof (H1 _ _ Hpar) as Hlt.
  set (em' := set_value (value ep) (set_reg (Some (p, next_registration w)) em)).
  assert (∀ k x, m_config w' !! k = Some x → k = (p, n) ∧ x = added (l_child m) w ep ∨ k = (m, n) ∧ x = em' ∨
    k ≠ (p, n) ∧ k ≠ (m, n) ∧ m_config w !! k = Some x) as Hcase.
  { intros k x. unfold w', subscribed. cbn. rewrite !lookup_insert_Some. naive_solver. }
  assert (m_config w' !! (p, n) = Some (added (l_child m) w ep) ∧ m_config w' !! (m, n) = Some em' ∧
    ∀ k, k ≠ (p, n) → k ≠ (m, n) → m_config w' !! k = m_config w !! k) as (A1 & A2 & A3).
  { unfold w', subscribed. cbn. split_and!; [apply lookup_insert_eq| |].
    - rewrite lookup_insert_ne, lookup_insert_eq; [done|]. intros [= ->]. lia.
    - intros k ??. by rewrite !lookup_insert_ne by congruence. }
  (* what a listener was before *)
  assert (∀ k x i l, m_config w' !! k = Some x → (i, l) ∈ listeners x →
    k = (p, n) ∧ i = next_registration w ∧ l = l_child m ∨ ∃ y, m_config w !! k = Some y ∧ (i, l) ∈ listeners y ∧ value x = value y) as Hold.
  { intros k x i l [[-> ->]|[[-> ->]|(? & ? & Hx)]]%Hcase Hin.
    - unfold added in Hin. cbn in Hin. apply elem_of_app in Hin as [Hin|[= -> ->]%list_elem_of_singleton]; [right; by exists ep|by left].
    - unfold em' in Hin. cbn in Hin. rewrite Hl in Hin. by apply elem_of_nil in Hin.
    - right. by exists x. }
  assert (∀ k y i l, m_config w !! k = Some y → (i, l) ∈ listeners y → ∃ x, m_config w' !! k = Some x ∧ (i, l) ∈ listeners x) as Hkeep.
  { intros k y i l Hy Hin. destruct (decide (k = (p, n))) as [->|]; [|destruct (decide (k = (m, n))) as [->|]].
    - eexists. split; [exact A1|]. unfold added. cbn. apply elem_of_app. left. congruence.
    - assert (y = em) as -> by congruence. rewrite Hl in Hin. by apply elem_of_nil in Hin.
    - exists y. by rewrite A3. }
  split_and!.
  - split; [split|split; [split|]]; try done.
    + intros k x [[-> ->]|[[-> ->]|(? & ? & Hx)]]%Hcase; [exact (H2 _ _ Hp)|exact (H2 _ _ Hm)|by eapply H2].
    + intros c n' x m' i Hx Hrx. destruct (Hcase _ _ Hx) as [[[= -> ->] ->]|[[[= -> ->] ->]|(? & ? & Hx')]].
      * destruct (H3 _ _ _ _ _ Hp Hrx) as [? (y & Hy & Hin)]. split; [done|]. by eapply Hkeep.
      * cbn in Hrx. injection Hrx as <- <-. split; [done|]. eexists. split; [exact A1|]. cbn. apply elem_of_app. right. left.
      * destruct (H3 _ _ _ _ _ Hx' Hrx) as [? (y & Hy & Hin)]. split; [done|]. by eapply Hkeep.
    + intros m' n' x i c Hx Hin. destruct (Hold _ _ _ _ Hx Hin) as [([= -> ->] & -> & [= ->])|(y & Hy & Hiny & _)]; [by exists em'|].
      destruct (H4 _ _ _ _ _ Hy Hiny) as (z & Hz & Hrz). destruct (decide ((c, n') = (p, n))) as [[= -> ->]|].
      * eexists. split; [exact A1|]. cbn. congruence.
      * destruct (decide ((c, n') = (m, n))) as [[= -> ->]|]; [congruence|]. exists z. by rewrite A3.
    + intros k k' x x' i i' f Hx Hx' Hin Hin'. destruct (Hold _ _ _ _ Hx Hin) as [(_ & _ & [=])|(y & Hy & Hiny & _)].
      destruct (Hold _ _ _ _ Hx' Hin') as [(_ & _ & [=])|(y' & Hy' & Hiny' & _)]. by eapply H5.
    + intros k x i f Hx Hin. destruct (Hold _ _ _ _ Hx Hin) as [(_ & _ & [=])|(y & Hy & Hiny & _)]. by eapply H6.
    + intros k x Hx. destruct (Hcase _ _ Hx) as [[-> ->]|[[-> ->]|(? & ? & Hx')]]; cbn.
      * destruct (H8 _ _ Hp) as [Hnd Hnext]. split.
        -- rewrite fmap_app. apply NoDup_app. split_and!; [done| |apply NoDup_singleton].
           intros i ([j l] & -> & Hin)%list_elem_of_fmap Hi'%list_elem_of_singleton. apply Hnext in Hin. cbn in *. lia.
        -- intros i l [Hin|[= -> _]%list_elem_of_singleton]%elem_of_app; [apply Hnext in Hin; lia|lia].
      * rewrite Hl. split; [constructor|]. by intros ?? ?%elem_of_nil.
      * destruct (H8 _ _ Hx') as [? Hnext]. split; [done|]. intros i l Hin. apply Hnext in Hin. lia.
    + intros c n' x m' i x' Hx Hrx Hx' _. destruct (Hcase _ _ Hx) as [[[= -> ->] ->]|[[[= -> ->] ->]|(? & ? & Hxo)]].
      * cbn in Hrx |- *. destruct (H3 _ _ _ _ _ Hp Hrx) as [Hpp _]. pose proof (H1 _ _ Hpp). rewrite A3 in Hx' by (intros [= ->]; lia). exact (Hv p n ep m' i x' Hp Hrx Hx' ltac:(done)).
      * cbn in Hrx. injection Hrx as <- <-. assert (x' = added (l_child m) w ep) as -> by congruence. done.
      * destruct (Hcase _ _ Hx') as [[[= -> ->] ->]|[[[= -> ->] ->]|(? & ? & Hxo')]]; [exact (Hv c n x p i ep Hxo Hrx Hp ltac:(done))| |by eapply Hv].
        destruct (H3 _ _ _ _ _ Hxo Hrx) as [_ (z & Hz & Hinz)]. assert (z = em) as -> by congruence. rewrite Hl in Hinz. by apply elem_of_nil in Hinz.
    + intros k x i f Hx Hin _. destruct (Hold _ _ _ _ Hx Hin) as [(_ & _ & [=])|(y & Hy & Hiny & ->)]. by eapply Hf.
    + intros k x [[-> ->]|[[-> ->]|(? & ? & Hx)]]%Hcase; [exact (Hi _ _ Hp)|exact (Hi _ _ Hm)|by eapply Hi].
  - split; try done. intros k f. split.
    + intros (x & i & Hx & Hin). destruct (Hold _ _ _ _ Hx Hin) as [(_ & _ & [=])|(y & Hy & Hiny & _)]. by exists y, i.
    + intros (y & i & Hy & Hin). destruct (Hkeep _ _ _ _ Hy Hin) as (x & Hx & ?). by exists x, i.
  - unfold own_of. by rewrite A2.
  - intros k n0. unfold own_of. destruct (decide (k = (p, n))) as [->|]; [by rewrite A1, Hp|by rewrite A3].
Qed.

(** A field is attached to an entry. *)
Definition registered (w : world) (k : key) (f : nat) (e : Entry) (y : field) : world :=
  set_fields (<[f := y]> (fields w))
    (set_next (S (next_registration w)) (set_config (<[k := added (l_field f) w e]> (m_config w)) w)).

Lemma register_field_run w k f e : shape w → idle w → m_config w !! k = Some e → is_Some (fields w !! f) →
  ∃ x y, unmarshal (types f) x (c_str (value e)) = Ret y ∧ has_type (types f) y ∧
    invoke_entry types k (c_register f) w = (Ret tt, registered w k f e y).
Proof.
  intros Hw Hi He [x Hx]. destruct (accepts f) as [Hok Ht].
  destruct (unmarshal_accepts (types f) x (c_str (value e)) Hok Ht (h_types _ Hw _ _ Hx)) as (y & Ey & Hy).
  exists x, y. split; [done|]. split; [done|]. destruct (Hi _ _ He) as [Hb Hd]. unfold invoke_entry, ConfigManager.invoke.
  rewrite get_run, (bind_Ret _ _ _ _ _ (load_run _ _ _ He)), Hb, (bind_Ret _ _ _ _ _ (update_entry_run _ _ _ _ He)).
  set (w1 := set_config _ w). assert (m_config w1 !! k = Some (set_busy true e)) as H1 by apply lookup_insert_eq.
  set (e2 := set_delayed [c_link (next_registration w) (l_field f)] (set_busy true e)).
  set (w2 := set_next (S (next_registration w)) (set_config (<[k := e2]> (m_config w)) w)).
  assert (append k (l_field f) w1 = (Ret (next_registration w), w2)) as Ea.
  { unfold append. rewrite get_run, (bind_Ret _ _ _ _ _ (load_run _ _ _ H1)), modify_run. cbn [busy set_busy].
    erewrite bind_Ret by (apply update_entry_run, H1). unfold w1. cbn. rewrite Hd. cbn. by rewrite insert_insert_eq. }
  assert (m_config w2 !! k = Some e2) as H2 by apply lookup_insert_eq.
  set (w3 := set_fields (<[f := y]> (fields w)) w2).
  assert (perform (S (length (parents w))) k (c_register f) w1 = (Ret tt, w3)) as Ep.
  { cbn [ConfigManager.perform]. rewrite (bind_Ret _ _ _ _ _ Ea), (bind_Ret _ _ _ _ _ (load_run _ _ _ H2)).
    unfold unmarshal_field. rewrite get_run. cbn [fields w2 set_next set_config]. unfold deref. rewrite Hx. cbn [value e2 set_delayed set_busy].
    munfold. by rewrite Ey. }
  rewrite (bind_Ret _ _ _ _ _ Ep). rewrite (leave_link_run _ k (next_registration w) (l_field f) e2 w3 H2 eq_refl).
  unfold registered, w3, w2. cbn. rewrite insert_insert_eq. do 3 f_equal. unfold added, e2. destruct e; simpl in *; by subst.
Qed.

Lemma registered_ok w k f e x y : healthy w → m_config w !! k = Some e → is_Some (fields w !! f) → (∀ k', ¬ attached w k' f) →
  unmarshal (types f) x (c_str (value e)) = Ret y → has_type (types f) y → let w' := registered w k f e y in
  healthy w' ∧ parents w' = parents w ∧ metadata_collection w' = metadata_collection w ∧ watchers w' = watchers w ∧ told w' = told w ∧
  (∀ k' f', attached w' k' f' ↔ attached w k' f' ∨ k' = k ∧ f' = f) ∧ (∀ f', is_Some (fields w !! f') → is_Some (fields w' !! f')) ∧
  ∀ k', own_of w' k' = own_of w k'.
Proof.
  intros ([H1 H2 H3 H4 H5 H6 H7 H8] & [Hv Hf] & Hi) He Hmem Hnew Ey Hy w'.
  assert (∀ k' x, m_config w' !! k' = Some x → ∃ y, m_config w !! k' = Some y ∧ value x = value y ∧ reg x = reg y ∧ busy x = busy y ∧
    delayed x = delayed y ∧ ∀ i l, (i, l) ∈ listeners x → (i, l) ∈ listeners y ∨ k' = k ∧ i = next_registration w ∧ l = l_field f) as Hold.
  { intros k' z Hz. unfold w', registered in Hz. cbn in Hz. apply lookup_insert_Some in Hz as [[<- <-]|[_ Hz]].
    - exists e. split_and!; try done. unfold added. cbn. intros i l [?|[= -> ->]%list_elem_of_singleton]%elem_of_app; [by left|by right].
    - exists z. split_and!; try done. by left. }
  assert (∀ k' z i l, m_config w !! k' = Some z → (i, l) ∈ listeners z → ∃ z', m_config w' !! k' = Some z' ∧ (i, l) ∈ listeners z') as Hkeep.
  { intros k' z i l Hz Hin. unfold w', registered. cbn. destruct (decide (k' = k)) as [->|n].
    - rewrite lookup_insert_eq. eexists. split; [done|]. unfold added. cbn. apply elem_of_app. left. congruence.
    - rewrite lookup_insert_ne by done. by exists z. }
  assert (∀ k' z, m_config w !! k' = Some z → ∃ z', m_config w' !! k' = Some z' ∧ reg z' = reg z ∧ value z' = value z) as Hto.
  { intros k' z Hz. unfold w', registered. cbn. destruct (decide (k' = k)) as [->|n].
    - rewrite lookup_insert_eq. eexists. split; [done|]. unfold added. cbn. by assert (z = e) as -> by congruence.
    - rewrite lookup_insert_ne by done. by exists z. }
  assert (∀ k' z i, m_config w !! k' = Some z → (i, l_field f) ∉ listeners z) as Hno by (intros k' z i Hz Hin; by destruct (Hnew k'); exists z, i).
  assert (∀ f', is_Some (fields w !! f') → is_Some (fields w' !! f')) as Hmem' by (intros f' ?; apply lookup_insert_is_Some'; by right).
  split_and!; try done.
  - split; [split|split; [split|]]; try done.
    + intros k' z (z0 & Hz & _)%Hold. by eapply H2.
    + intros c n' z m i (z0 & Hz & _ & Er & _)%Hold Hr. rewrite Er in Hr. destruct (H3 _ _ _ _ _ Hz Hr) as [? (zm & Hzm & Hin)].
      split; [done|]. by eapply Hkeep.
    + intros m n' z i c (z0 & Hz & _ & _ & _ & _ & Hl)%Hold Hin. apply Hl in Hin as [Hin|(_ & _ & [=])].
      destruct (H4 _ _ _ _ _ Hz Hin) as (zc & Hzc & Hr). destruct (Hto _ _ Hzc) as (zc' & ? & Er & _). exists zc'. by rewrite Er.
    + intros k1 k2 z1 z2 i1 i2 f' (y1 & Hy1 & _ & _ & _ & _ & Hl1)%Hold (y2 & Hy2 & _ & _ & _ & _ & Hl2)%Hold Hin1%Hl1 Hin2%Hl2.
      destruct Hin1 as [Hin1|(-> & _ & [= ->])], Hin2 as [Hin2|(-> & _ & E2)]; try done.
      * by eapply H5.
      * injection E2 as ->. by destruct (Hno _ _ i1 Hy1).
      * by destruct (Hno _ _ i2 Hy2).
    + intros k' z i f' (z0 & Hz & _ & _ & _ & _ & Hl)%Hold Hin%Hl. destruct Hin as [Hin|(_ & _ & [= ->])]; apply Hmem'; [by eapply H6|done].
    + intros f' z. unfold w', registered. cbn. intros [[<- <-]|[_ ?]]%lookup_insert_Some; [done|by eapply H7].
    + intros k' z Hz. unfold w', registered in Hz |- *. cbn in *. apply lookup_insert_Some in Hz as [[<- <-]|[_ Hz]].
      * destruct (H8 _ _ He) as [Hnd Hnext]. unfold added. cbn. split.
        -- rewrite fmap_app. apply NoDup_app. split_and!; [done| |apply NoDup_singleton].
           intros i ([j l] & -> & Hin)%list_elem_of_fmap Hi'%list_elem_of_singleton. apply Hnext in Hin. cbn in *. lia.
        -- intros i l [Hin|[= -> _]%list_elem_of_singleton]%elem_of_app; [apply Hnext in Hin; lia|lia].
      * destruct (H8 _ _ Hz) as [? Hnext]. split; [done|]. intros i l Hin. apply Hnext in Hin. lia.
    + intros c n' z m i z' (y1 & Hy1 & -> & Er & _)%Hold Hr (y2 & Hy2 & -> & _)%Hold _. rewrite Er in Hr. by eapply Hv.
    + intros k' z i f' (z0 & Hz & -> & _ & _ & _ & Hl)%Hold Hin%Hl _. destruct Hin as [Hin|(-> & _ & [= ->])].
      * destruct (Hf _ _ _ _ Hz Hin ltac:(done)) as (u & g & Hu & Hg). exists u, g. split; [|done].
        unfold w', registered. cbn. rewrite lookup_insert_ne; [done|]. intros ->. by destruct (Hno _ _ i Hz).
      * assert (z0 = e) as -> by congruence. exists y, x. split; [|done]. unfold w', registered. cbn. apply lookup_insert_eq.
    + intros k' z (z0 & Hz & _ & _ & -> & -> & _)%Hold. by eapply Hi.
  - intros k' f'. split.
    + intros (z & i & (z0 & Hz & _ & _ & _ & _ & Hl)%Hold & Hin%Hl). destruct Hin as [Hin|(-> & _ & [= ->])]; [left; by exists z0, i|by right].
    + intros [(z & i & Hz & Hin)|[-> ->]].
      * destruct (Hkeep _ _ _ _ Hz Hin) as (z' & ? & ?). by exists z', i.
      * exists (added (l_field f) w e), (next_registration w). split; [unfold w', registered; cbn; apply lookup_insert_eq|].
        unfold added. cbn. apply elem_of_app. right. left.
  - intros k'. unfold own_of. destruct (m_config w !! k') as [z|] eqn:Hz.
    + destruct (Hto _ _ Hz) as (z' & -> & Er & Ev). cbn. by rewrite Er, Ev.
    + destruct (m_config w' !! k') as [z'|] eqn:Hz'; [|done]. destruct (Hold _ _ Hz') as (? & ? & _). congruence.
Qed.
End facts.
