(* ===== verification/ConfigManagerSpec.v ===== *)
(** * ConfigManager refines a tree of overrides

    The reference knows, per manager and name, a value set there or that the value
    of the parent is followed; it has no entries, signals or registrations. *)
From stdpp Require Import base gmap list strings.
From Stdlib Require Import ZArith Lia.
From S2P Require Import Prelude.
From S2P Require Import Marshaller.
From S2P Require Import ConfigManager.
From S2P Require Import ConfigManagerFacts.
Local Open Scope nat_scope.

(** ** The reference *)
(** [s_own]: a value of the manager's own, or [None] for that of the parent;
    [s_fields]: the fields that follow a name of a manager. *)
Record spec := mkSpec {
  s_parents : list (option nat);
  s_own : gmap key (option string);
  s_fields : list (key * nat);
  s_metadata : list (nat * nat);
  s_watchers : list (nat * nat) }.

Definition set_own x s := mkSpec (s_parents s) x (s_fields s) (s_metadata s) (s_watchers s).

(** The value of the nearest override. *)
Fixpoint lookup_value (fuel : nat) (s : spec) (m : nat) (n : string) : string :=
  match fuel with
  | 0 => EmptyString
  | S fuel' =>
    match s_own s !! (m, n), s_parents s !! m with
    | Some (Some v), _ => v
    | _, Some (Some p) => lookup_value fuel' s p n
    | _, _ => EmptyString
    end
  end.

(** A name becomes known to a manager and to all above it that do not know it. *)
Fixpoint follow (fuel m : nat) (n : string) (s : spec) : spec :=
  match fuel with
  | 0 => s
  | S fuel' =>
    match s_own s !! (m, n) with
    | Some _ => s
    | None =>
      let s1 := set_own (<[(m, n) := Some EmptyString]> (s_own s)) s in
      match s_parents s !! m with
      | Some (Some p) => let s2 := follow fuel' p n s1 in set_own (<[(m, n) := None]> (s_own s2)) s2
      | _ => s1
      end
    end
  end.

(** Each watcher is told of each piece of metadata of its type. *)
Definition notifications (metadata watchers : list (nat * nat)) : list (nat * (nat * nat)) :=
  concat ((λ y : nat * nat, (λ x, (x.2, (y.2, y.1))) <$> base.filter (λ x, x.1 = y.1) watchers) <$> metadata).

Inductive config_op :=
  | cf_new (parent : option nat)
  | cf_set (m : nat) (n v : string)
  | cf_register (m : nat) (desc : list config_field)
  | cf_clear (m : nat)
  | cf_when (i x : nat).

Section spec.
  Context (types : nat → field_type) (registry : list (string * option (field_type * field))).

Definition default_own (m : nat) (own : gmap key (option string)) (d : string * option (field_type * field)) : gmap key (option string) :=
  match d.2, own !! (m, d.1) with
  | Some (t, f), _ => <[(m, d.1) := Some (marshal t f)]> own
  | None, Some _ => own
  | None, None => <[(m, d.1) := Some EmptyString]> own
  end.

Definition register_spec (m : nat) (s : spec) (d : config_field) : spec :=
  let s1 := follow (S m) m (field_name d) s in
  mkSpec (s_parents s1) (s_own s1) (((m, field_name d), field_address d) :: s_fields s1)
    (s_metadata s1 ++ ((λ i, (i, field_address d)) <$> field_metadata d)) (s_watchers s1).

Definition spec_step (o : config_op) (s : spec) : spec :=
  match o with
  | cf_new parent =>
    let m := length (s_parents s) in
    mkSpec (s_parents s ++ [parent])
      (match parent with Some _ => s_own s | None => foldl (default_own m) (s_own s) registry end) (s_fields s) (s_metadata s) (s_watchers s)
  | cf_set m n v => set_own (<[(m, n) := Some v]> (s_own s)) s
  | cf_register m desc => foldl (register_spec m) s desc
  | cf_clear m =>
    mkSpec (<[m := None]> (s_parents s))
      (map_imap (λ k o, if decide (k.1 = m) then Some (Some (lookup_value (S m) s m k.2)) else Some o) (s_own s)) (s_fields s) (s_metadata s) (s_watchers s)
  | cf_when i x => mkSpec (s_parents s) (s_own s) (s_fields s) (s_metadata s) (s_watchers s ++ [(i, x)])
  end.

Definition run_op (o : config_op) : M world unit :=
  match o with
  | cf_new parent => _ ← ConfigManager_new registry parent; mret tt
  | cf_set m n v => SetValue types m n v
  | cf_register m desc => Register types m desc
  | cf_clear m => Clear m
  | cf_when i x => WhenInternal i x
  end.

Definition run (l : list config_op) (w : world) : world := foldl (λ w o, (run_op o w).2) w l.
Definition spec_run (l : list config_op) (s : spec) : spec := foldl (λ s o, spec_step o s) s l.

(** Managers exist, and fields are registered once; [memory] has the fields. *)
Definition client_ok (memory : gmap nat field) (s : spec) (o : config_op) : Prop :=
  match o with
  | cf_new parent => match parent with Some p => p < length (s_parents s) | None => True end
  | cf_set m _ _ | cf_clear m => m < length (s_parents s)
  | cf_register m desc => m < length (s_parents s) ∧ NoDup (field_address <$> desc) ∧
      Forall (λ d, is_Some (memory !! field_address d) ∧ field_address d ∉ (s_fields s).*2) desc
  | cf_when _ _ => True
  end.

Fixpoint client (memory : gmap nat field) (s : spec) (l : list config_op) : Prop :=
  match l with
  | [] => True
  | o :: l' => client_ok memory s o ∧ client memory (spec_step o s) l'
  end.

#[export] Instance client_ok_dec memory s o : Decision (client_ok memory s o).
Proof. destruct o as [[p|]| | | |]; unfold client_ok; apply _. Defined.

#[export] Instance client_dec memory s l : Decision (client memory s l).
Proof. revert s. induction l as [|o l IH]; intros s; cbn; [by left|]. apply and_dec; [apply _|apply IH]. Defined.

Definition spec_new : spec := mkSpec [] ∅ [] [] [].

(** ** The refinement *)
Local Abbreviation healthy := (ConfigManagerFacts.healthy types).
Local Abbreviation shape := (ConfigManagerFacts.shape types).
Local Abbreviation settled_but := (ConfigManagerFacts.settled_but types).

(** [owed]: the notifications still to be made. *)
Record refines (memory : gmap nat field) (owed : list (nat * (nat * nat))) (w : world) (s : spec) : Prop := {
  r_parents : parents w = s_parents s;
  r_own : ∀ k, own_of w k = s_own s !! k;
  r_fields : ∀ k f, attached w k f ↔ (k, f) ∈ s_fields s;
  r_metadata : metadata_collection w = s_metadata s;
  r_watchers : watchers w = s_watchers s;
  r_told : told w ++ owed ≡ₚ notifications (s_metadata s) (s_watchers s);
  r_memory : ∀ f, is_Some (memory !! f) → is_Some (fields w !! f) }.

Context (memory : gmap nat field).

Lemma refines_frame owed w w' s k o : frame w w' → refines memory owed w s → own_of w' k = Some o → (∀ k', k' ≠ k → own_of w' k' = own_of w k') →
  refines memory owed w' (set_own (<[k := o]> (s_own s)) s).
Proof.
  intros [F1 F2 F3 F4 F5 F6] [R1 R2 R3 R4 R5 R6 R7] Hk Hother. split; cbn; try congruence.
  - intros k'. destruct (decide (k' = k)) as [->|n]; [by rewrite lookup_insert_eq|]. by rewrite lookup_insert_ne, Hother.
  - intros k' f. by rewrite F5.
  - by rewrite F4.
  - auto.
Qed.

Lemma own_entry owed w s k : refines memory owed w s → match m_config w !! k with
  | Some e => s_own s !! k = Some (match reg e with None => Some (value e) | Some _ => None end)
  | None => s_own s !! k = None end.
Proof. intros R. rewrite <-(r_own _ _ _ _ R). unfold own_of. by destruct (m_config w !! k). Qed.

(** The value of an entry is the value looked up. *)
Lemma value_is owed w s n : healthy w → refines memory owed w s → ∀ fuel m e, m < fuel → m_config w !! (m, n) = Some e → value e = lookup_value fuel s m n.
Proof.
  intros (Hw & Hset & _) R fuel. induction fuel as [|fuel IH]; intros m e Hm He; [lia|]. cbn [lookup_value].
  pose proof (own_entry _ _ _ (m, n) R) as Ho. rewrite He in Ho. rewrite Ho. destruct (reg e) as [[p id]|] eqn:Hr; [|done].
  destruct (h_reg _ _ Hw _ _ _ _ _ He Hr) as [Hp (ep & Hep & _)]. rewrite <-(r_parents _ _ _ _ R), Hp.
  rewrite (h_value _ _ _ Hset _ _ _ _ _ _ He Hr Hep) by done. apply IH; [|done]. pose proof (h_parent _ _ Hw _ _ Hp). lia.
Qed.

Lemma Get_ok owed w s n : healthy w → refines memory owed w s → ∀ fuel m, m < fuel → Get fuel m n w = (Ret (lookup_value fuel s m n), w).
Proof.
  intros Hh R fuel. induction fuel as [|fuel IH]; intros m Hm; [lia|]. cbn [Get]. rewrite get_run.
  destruct (m_config w !! (m, n)) as [e|] eqn:He.
  - rewrite <-(value_is owed w s n Hh R (S fuel) m e Hm He). destruct Hh as (_ & _ & Hi). by destruct (Hi _ _ He) as [-> _].
  - cbn [lookup_value]. pose proof (own_entry _ _ _ (m, n) R) as Ho. rewrite He in Ho. rewrite Ho, <-(r_parents _ _ _ _ R).
    destruct (parents w !! m) as [[p|]|] eqn:Hp; [|done..]. apply IH. destruct Hh as (Hw & _). pose proof (h_parent _ _ Hw _ _ Hp). lia.
Qed.

Context (accepts : ∀ f, type_ok (types f) ∧ never_throws (types f)).

(** [GetEntry]. *)
Lemma GetEntry_ok owed n fuel : ∀ m w s, healthy w → refines memory owed w s → m < length (parents w) → m < fuel →
  ∃ w', GetEntry types fuel m n w = (Ret tt, w') ∧ healthy w' ∧ refines memory owed w' (follow fuel m n s) ∧
    parents w' = parents w ∧ is_Some (m_config w' !! (m, n)) ∧ ∀ k, m < k.1 → m_config w' !! k = m_config w !! k.
Proof.
  induction fuel as [|fuel IH]; intros m w s Hh R Hm Hfuel; [lia|]. cbn [GetEntry follow]. rewrite get_run.
  pose proof (own_entry _ _ _ (m, n) R) as Ho. destruct (m_config w !! (m, n)) as [e|] eqn:He.
  { rewrite Ho. exists w. by rewrite He. }
  rewrite Ho, modify_run. destruct (with_entry_ok types w (m, n) Hh He Hm) as (Hh1 & Hf1 & Ho1 & Hk1).
  change (set_config _ w) with (with_entry w (m, n)). set (w1 := with_entry w (m, n)) in *. set (s1 := set_own _ s).
  assert (m_config w1 !! (m, n) = Some Entry_new) as He1 by apply lookup_insert_eq.
  assert (refines memory owed w1 s1) as R1 by (apply (refines_frame owed w); try done; intros k' n0; unfold own_of; by rewrite Hk1).
  rewrite <-(r_parents _ _ _ _ R). destruct (parents w !! m) as [[p|]|] eqn:Hp.
  2, 3: exists w1; split; [done|]; split; [done|]; split; [done|]; split; [done|]; split; [by rewrite He1|];
    intros [c n'] Hc; apply Hk1; cbn in Hc; intros [= -> _]; lia.
  assert (parents w1 !! m = Some (Some p)) as Hp1 by done.
  pose proof (h_parent _ _ (proj1 Hh1) _ _ Hp1) as Hlt.
  destruct (IH p w1 s1) as (w2 & E2 & Hh2 & R2 & Ep2 & [ep Hep] & Hk2); [done|done|cbn; lia|lia|]. rewrite (bind_Ret _ _ _ _ _ E2).
  assert (m_config w2 !! (m, n) = Some Entry_new) as He2 by (by rewrite Hk2).
  assert (parents w2 !! m = Some (Some p)) as Hp2 by (by rewrite Ep2).
  rewrite (subscribe_run types w2 p m n ep Entry_new); [|by destruct Hh2 as (_ & _ & ?)|lia|rewrite Ep2; cbn; lia|done|done].
  destruct (subscribed_ok types accepts w2 p m n ep Entry_new Hh2 Hp2 Hep He2 eq_refl eq_refl) as (Hh3 & Hf3 & Ho3 & Hk3).
  eexists. split; [done|]. split; [done|]. split; [by apply (refines_frame owed w2)|]. split; [by rewrite (f_parents _ _ Hf3)|]. split.
  - unfold subscribed. cbn. rewrite lookup_insert_ne, lookup_insert_eq; [done|]. intros [= ->]. lia.
  - intros [c n'] Hc. cbn in Hc. unfold subscribed. cbn. rewrite !lookup_insert_ne by (intros [= -> _]; lia).
    rewrite Hk2 by (cbn; lia). apply Hk1. intros [= -> _]. lia.
Qed.

(** ** Registering objects *)
(** Metadata, watchers and what was told are no matter of the entries. *)
Lemma healthy_same w w' : parents w' = parents w → m_config w' = m_config w → fields w' = fields w → next_registration w' = next_registration w →
  healthy w → healthy w'.
Proof.
  destruct w, w'. cbn. intros -> -> -> -> ([H1 H2 H3 H4 H5 H6 H7 H8] & [Hv Hf] & Hi). split; [|split; [|exact Hi]].
  - split; [exact H1|exact H2|exact H3|exact H4|exact H5|exact H6|exact H7|exact H8].
  - split; [exact Hv|exact Hf].
Qed.

Lemma notifications_app m1 m2 ws : notifications (m1 ++ m2) ws = notifications m1 ws ++ notifications m2 ws.
Proof. unfold notifications. by rewrite fmap_app, concat_app. Qed.

Lemma follow_same fuel m n s : s_parents (follow fuel m n s) = s_parents s ∧ s_fields (follow fuel m n s) = s_fields s ∧
  s_metadata (follow fuel m n s) = s_metadata s ∧ s_watchers (follow fuel m n s) = s_watchers s.
Proof.
  revert m s. induction fuel as [|fuel IH]; intros m s; [done|]. cbn [follow]. destruct (s_own s !! (m, n)); [done|].
  destruct (s_parents s !! m) as [[p|]|]; [|done..].
  apply (IH p (set_own (<[(m, n):=Some ""%string]> (s_own s)) s)).
Qed.

Lemma register_field_ok owed m d w s : healthy w → refines memory owed w s → m < length (parents w) →
  is_Some (memory !! field_address d) → (∀ k, (k, field_address d) ∉ s_fields s) →
  ∃ w' l, register_field types m d w = (Ret l, w') ∧ healthy w' ∧ refines memory (owed ++ l) w' (register_spec m s d) ∧ parents w' = parents w.
Proof.
  intros Hh R Hm Hmem Hnew. unfold register_field.
  destruct (GetEntry_ok owed (field_name d) (S m) m w s Hh R Hm) as (w1 & E1 & Hh1 & R1 & Ep1 & [e He] & _); [lia|].
  rewrite (bind_Ret _ _ _ _ _ E1). destruct (follow_same (S m) m (field_name d) s) as (Es1 & Es2 & Es3 & Es4).
  destruct Hh1 as (Hw1 & Hs1 & Hi1). pose proof (r_memory _ _ _ _ R1 _ Hmem) as Hmem1.
  destruct (register_field_run types accepts w1 _ (field_address d) e Hw1 Hi1 He Hmem1) as (x & y & Ey & Hy & E2).
  rewrite (bind_Ret _ _ _ _ _ E2), get_run, modify_run.
  destruct (registered_ok types w1 _ (field_address d) e x y (conj Hw1 (conj Hs1 Hi1)) He Hmem1) as (Hh2 & P1 & P2 & P3 & P4 & P5 & P6 & P7); [|done|done|].
  { intros k' Ha. apply (Hnew k'). rewrite <-Es2. by apply (r_fields _ _ _ _ R1). }
  set (w2 := registered _ _ _ _ _) in *. set (w3 := set_metadata _ w2). eexists w3, _. split; [reflexivity|].
  destruct R1 as [A1 A2 A3 A4 A5 A6 A7]. split; [by apply (healthy_same w2)|]. split; [|by rewrite <-Ep1, <-P1].
  unfold register_spec. split; cbn -[follow]; try congruence.
  - intros k. change (own_of w3 k) with (own_of w2 k). by rewrite P7.
  - intros k f. change (attached w3 k f) with (attached w2 k f). rewrite P5, A3, elem_of_cons. split.
    + intros [?|[-> ->]]; [by right|by left].
    + intros [[= -> ->]|?]; [by right|by left].
  - unfold notifications in *. rewrite fmap_app, concat_app, app_assoc, A6, A5, <-list_fmap_compose. done.
  - intros f Hf. by apply P6, A7.
Qed.

Lemma register_fields_ok owed m desc : ∀ deferred w s, healthy w → refines memory (owed ++ deferred) w s → m < length (parents w) →
  NoDup (field_address <$> desc) → (∀ d, d ∈ desc → is_Some (memory !! field_address d) ∧ ∀ k, (k, field_address d) ∉ s_fields s) →
  ∃ w' l, register_fields types m desc deferred w = (Ret l, w') ∧ healthy w' ∧ refines memory (owed ++ l) w' (foldl (register_spec m) s desc) ∧
    parents w' = parents w.
Proof.
  induction desc as [|d desc IH]; intros deferred w s Hh R Hm Hnd Hnew; [by exists w, deferred|].
  rewrite fmap_cons in Hnd. apply NoDup_cons in Hnd as [Hd Hnd]. cbn [register_fields foldl].
  destruct (register_field_ok (owed ++ deferred) m d w s Hh R Hm) as (w1 & l & E & Hh1 & R1 & Ep); [by apply Hnew; left|by apply Hnew; left|].
  rewrite (bind_Ret _ _ _ _ _ E). rewrite <-app_assoc in R1.
  destruct (IH (deferred ++ l) w1 (register_spec m s d)) as (w2 & l2 & E2 & Hh2 & R2 & Ep2); [done|done|congruence|done| |].
  - intros d' Hd'. split; [by apply Hnew; right|]. intros k. unfold register_spec. cbn -[follow]. destruct (follow_same (S m) m (field_name d) s) as (_ & -> & _).
    rewrite elem_of_cons. intros [[= -> Ea]|Hk]; [|by eapply Hnew; [right|]]. destruct Hd. rewrite <-Ea. by apply list_elem_of_fmap_2.
  - exists w2, l2. split_and!; try done. congruence.
Qed.

Lemma told_run l w : for_each tell l w = (Ret tt, set_told (told w ++ l) w).
Proof.
  revert w. induction l as [|x l IH]; intros w; [by rewrite app_nil_r; destruct w|]. cbn [for_each]. erewrite bind_Ret by done. rewrite IH.
  cbn. by rewrite <-app_assoc.
Qed.

Lemma told_ok l owed w s : healthy w → refines memory (l ++ owed) w s → healthy (set_told (told w ++ l) w) ∧ refines memory owed (set_told (told w ++ l) w) s.
Proof. intros Hh [R1 R2 R3 R4 R5 R6 R7]. split; [by apply (healthy_same w)|]. split; try done. cbn. by rewrite <-app_assoc. Qed.

(** An operation returns, and its effect is that of the reference. *)
Definition implemented (o : config_op) : Prop := ∀ w s, healthy w → refines memory [] w s → client_ok memory s o →
  ∃ w', run_op o w = (Ret tt, w') ∧ healthy w' ∧ refines memory [] w' (spec_step o s).

Lemma set_ok m n v : implemented (cf_set m n v).
Proof.
  intros w s Hh R Hm. cbn in Hm. rewrite <-(r_parents _ _ _ _ R) in Hm.
  destruct (SetValue_ok types accepts w m n v Hh Hm) as (w' & E & Hh' & Hf & Ho & Hk). exists w'. split_and!; [done|done|].
  by apply (refines_frame [] w).
Qed.

Lemma register_all_ok m desc : implemented (cf_register m desc).
Proof.
  intros w s Hh R (Hm & Hnd & Hnew). rewrite <-(r_parents _ _ _ _ R) in Hm.
  destruct (register_fields_ok [] m desc [] w s Hh R Hm Hnd) as (w1 & l & E & Hh1 & R1 & _).
  { intros d [? Hn]%(proj1 (Forall_forall _ _) Hnew). split; [done|]. intros k Hk. apply Hn. by apply (list_elem_of_fmap_2 snd) in Hk. }
  cbn [run_op]. unfold Register. rewrite (bind_Ret _ _ _ _ _ E), told_run. eexists. split; [done|].
  apply told_ok; [done|]. by rewrite app_nil_r.
Qed.

(** ** New managers *)
Lemma new_manager_ok parent w s : healthy w → refines memory [] w s → (∀ p, parent = Some p → p < length (parents w)) →
  let w' := set_parents (parents w ++ [parent]) w in
  healthy w' ∧ refines memory [] w' (mkSpec (s_parents s ++ [parent]) (s_own s) (s_fields s) (s_metadata s) (s_watchers s)).
Proof.
  intros ([H1 H2 H3 H4 H5 H6 H7 H8] & [Hv Hf] & Hi) [R1 R2 R3 R4 R5 R6 R7] Hp w'. split.
  - split; [split|split; [by split|done]]; cbn; try done.
    + intros m p [Hm|[Hle Hm]]%lookup_app_Some; [by eapply H1|]. apply list_lookup_singleton_Some in Hm as [Hm Ep].
      apply Hp in Ep. lia.
    + intros k e He. apply H2 in He. rewrite length_app. cbn. lia.
    + intros c n e m id He Hr. destruct (H3 _ _ _ _ _ He Hr) as [Hc ?]. split; [by apply lookup_app_l_Some|done].
  - split; cbn; try done. by rewrite R1.
Qed.

(** The entries of [m] have no listener and listen to none. *)
Definition bare (m : nat) (w : world) : Prop := ∀ n e, m_config w !! (m, n) = Some e → listeners e = [] ∧ reg e = None.

Definition default_step (m : nat) (d : string * option (field_type * field)) : M world unit :=
  modify (λ w, set_config (alter (λ e, match d.2 with Some (t, f) => set_value (marshal t f) e | None => e end) (m, d.1)
    (match m_config w !! (m, d.1) with Some _ => m_config w | None => <[(m, d.1) := Entry_new]> (m_config w) end)) w).

(** No one follows a bare entry. *)
Lemma bare_settled m n w : shape w → bare m w → settled_but (Some (m, n)) w → settled_but None w.
Proof.
  intros Hw Hb [Hv Hf]. split.
  - intros c n' e m' id e' He Hr He' _. eapply Hv; try done. intros [= -> ->]. destruct (h_reg _ _ Hw _ _ _ _ _ He Hr) as [_ (e1 & He1 & Hin)].
    destruct (Hb _ _ He1) as [Hl _]. rewrite Hl in Hin. by apply elem_of_nil in Hin.
  - intros k e id f He Hin _. eapply Hf; try done. intros [= ->]. destruct (Hb _ _ He) as [Hl _]. rewrite Hl in Hin. by apply elem_of_nil in Hin.
Qed.

Lemma assign_bare_ok m n e v w s : healthy w → refines memory [] w s → bare m w → m_config w !! (m, n) = Some e →
  let w' := set_config (<[(m, n) := set_value v e]> (m_config w)) w in
  healthy w' ∧ refines memory [] w' (set_own (<[(m, n) := Some v]> (s_own s)) s) ∧ bare m w'.
Proof.
  intros Hh R Hb He w'. destruct (Hb _ _ He) as [Hl Hr]. destruct (assign_ok types w (m, n) e v Hh He Hr) as (Hs & Hi & Hset & Hf & Ho & Hk).
  assert (bare m w') as Hb'.
  { intros n' e'. unfold w'. cbn. intros [[_ <-]|[_ He']]%lookup_insert_Some; [done|by eapply Hb]. }
  split; [|split; [by apply (refines_frame [] w)|done]]. split; [done|]. split; [|done]. by eapply bare_settled.
Qed.

Lemma default_step_ok m d w s : healthy w → refines memory [] w s → bare m w → m < length (parents w) →
  ∃ w', default_step m d w = (Ret tt, w') ∧ healthy w' ∧ refines memory [] w' (set_own (default_own m (s_own s) d) s) ∧ bare m w' ∧
    parents w' = parents w.
Proof.
  intros Hh R Hb Hm. destruct d as [n d]. unfold default_step, default_own. cbn [fst snd].
  pose proof (own_entry [] w s (m, n) R) as Ho. eexists. split; [reflexivity|]. destruct (m_config w !! (m, n)) as [e|] eqn:He.
  - destruct d as [[t f]|].
    + rewrite (alter_alt_Some _ _ _ e) by done. by destruct (assign_bare_ok m n e (marshal t f) w s) as (? & ? & ?).
    + rewrite Ho, alter_id by done. by destruct w, s.
  - destruct (with_entry_ok types w (m, n) Hh He Hm) as (Hh1 & Hf1 & Ho1 & Hk1). unfold with_entry in *. set (w1 := set_config _ w) in *.
    assert (bare m w1) as Hb1.
    { intros n' e'. unfold w1. cbn. intros [[_ <-]|[_ He']]%lookup_insert_Some; [done|by eapply Hb]. }
    assert (refines memory [] w1 (set_own (<[(m, n) := Some EmptyString]> (s_own s)) s)) as R1
      by (apply (refines_frame [] w); try done; intros k' n0; unfold own_of; by rewrite Hk1).
    rewrite Ho. destruct d as [[t f]|]; [|by rewrite alter_id].
    rewrite (alter_alt_Some _ _ _ Entry_new) by apply lookup_insert_eq.
    destruct (assign_bare_ok m n Entry_new (marshal t f) w1 _ Hh1 R1 Hb1) as (? & R2 & ?); [apply lookup_insert_eq|].
    split_and!; try done. rewrite <-(insert_insert_eq (s_own s) (m, n) (Some (marshal t f)) (Some EmptyString)). exact R2.
Qed.

Lemma default_steps_ok m ds : ∀ w s, healthy w → refines memory [] w s → bare m w → m < length (parents w) →
  ∃ w', for_each (default_step m) ds w = (Ret tt, w') ∧ healthy w' ∧ refines memory [] w' (set_own (foldl (default_own m) (s_own s) ds) s).
Proof.
  induction ds as [|d ds IH]; intros w s Hh R Hb Hm; [exists w; by destruct s|]. cbn [for_each foldl].
  destruct (default_step_ok m d w s Hh R Hb Hm) as (w1 & E & Hh1 & R1 & Hb1 & Ep). rewrite (bind_Ret _ _ _ _ _ E).
  destruct (IH w1 _ Hh1 R1 Hb1) as (w2 & E2 & Hh2 & R2); [by rewrite Ep|]. by exists w2.
Qed.

Lemma construct_manager_ok parent : implemented (cf_new parent).
Proof.
  intros w s Hh R Hp. cbn in Hp. rewrite <-(r_parents _ _ _ _ R) in Hp.
  destruct (new_manager_ok parent w s Hh R) as [Hh1 R1]; [by intros p ->|].
  cbn [run_op]. unfold ConfigManager_new. rewrite bind_assoc, get_run. set (w1 := set_parents _ w) in *.
  cbn [spec_step]. rewrite <-(r_parents _ _ _ _ R) in *. destruct parent as [p|]; [by exists w1|].
  destruct (default_steps_ok (length (parents w)) registry w1 _ Hh1 R1) as (w2 & E & Hh2 & R2).
  - intros n e He. pose proof (h_key _ _ (proj1 Hh) _ _ He) as H. cbn in H. lia.
  - cbn. rewrite length_app. cbn. lia.
  - exists w2. split; [|done]. set (m := length (parents w)) in *.
    transitivity (((for_each (default_step m) registry ≫= λ _, mret m) ≫= λ _, mret tt) w1); [done|].
    by rewrite bind_assoc, (bind_Ret _ _ _ _ _ E).
Qed.

(** ** Detaching a manager *)
Lemma clear_all_ok ks : ∀ w, healthy w → (∀ k, k ∈ ks → is_Some (m_config w !! k)) →
  ∃ w', for_each clear_reg ks w = (Ret tt, w') ∧ healthy w' ∧ frame w w' ∧ (∀ k, value <$> m_config w' !! k = value <$> m_config w !! k) ∧
    ∀ k, own_of w' k = if decide (k ∈ ks) then Some <$> (value <$> m_config w !! k) else own_of w k.
Proof.
  induction ks as [|[c n] ks IH]; intros w Hh Hks; [by exists w|].
  destruct (Hks (c, n)) as [e He]; [by left|]. cbn [for_each].
  destruct (clear_reg_ok types accepts w c n e Hh He) as (w1 & E & Hh1 & Hf1 & He1 & Ho1). rewrite (bind_Ret _ _ _ _ _ E).
  assert (∀ k, value <$> m_config w1 !! k = value <$> m_config w !! k) as Hv1.
  { intros k. destruct (decide (k = (c, n))) as [->|n0]; [by rewrite He1, He|by apply Ho1]. }
  destruct (IH w1 Hh1) as (w2 & E2 & Hh2 & Hf2 & Hv2 & Ho2).
  { intros k Hk. apply (fmap_is_Some value). rewrite Hv1. apply fmap_is_Some, Hks. by right. }
  exists w2. split_and!; try done.
  - destruct Hf1, Hf2. split; try congruence; [|by auto]. intros k f. by rewrite f_attached0, f_attached.
  - intros k. by rewrite Hv2.
  - intros k. rewrite Ho2, Hv1. destruct (decide (k = (c, n))) as [->|n0].
    + rewrite (decide_True (P := (c, n) ∈ (c, n) :: ks)) by left. case_decide; [done|]. unfold own_of. by rewrite He1, He.
    + rewrite (proj1 (Ho1 k n0)). do 2 case_decide; try done; set_solver.
Qed.

Lemma detached_ok m w w1 s : healthy w → refines memory [] w s → healthy w1 → frame w w1 →
  (∀ k, own_of w1 k = if decide (k.1 = m) then Some <$> (value <$> m_config w !! k) else own_of w k) →
  let w' := set_parents (<[m := None]> (parents w1)) w1 in healthy w' ∧ refines memory [] w' (spec_step (cf_clear m) s).
Proof.
  intros Hh R ([H1 H2 H3 H4 H5 H6 H7 H8] & [Hv Hf] & Hi) [F1 F2 F3 F4 F5 F6] Ho w'.
  assert (∀ n e, m_config w1 !! (m, n) = Some e → reg e = None) as Hm.
  { intros n e He. specialize (Ho (m, n)). unfold own_of in Ho. rewrite He, decide_True in Ho by done. cbn in Ho.
    destruct (reg e); [|done]. destruct (m_config w !! (m, n)); discriminate. }
  split.
  - split; [split|split; [by split|done]]; cbn; try done.
    + intros c p [(-> & [=] & _)|[_ Hc]]%list_lookup_insert_Some. by apply H1.
    + intros k e He. rewrite length_insert. by eapply H2.
    + intros c n e p id He Hr. destruct (H3 _ _ _ _ _ He Hr) as [Hc ?]. split; [|done]. rewrite list_lookup_insert_ne; [done|].
      intros ->. by rewrite (Hm _ _ He) in Hr.
  - pose proof R as [R1 R2 R3 R4 R5 R6 R7]. split; cbn -[lookup_value]; try congruence.
    + intros k. change (own_of w' k) with (own_of w1 k). rewrite Ho, map_lookup_imap. case_decide as Hk; [|rewrite R2; by destruct (s_own s !! k)].
      pose proof (own_entry _ _ _ k R) as Hs. destruct (m_config w !! k) as [e|] eqn:He; rewrite Hs; [|done]. cbn -[lookup_value]. do 2 f_equal.
      apply (value_is _ _ _ _ Hh R); [lia|]. destruct k as [c n]. cbn in *. by subst.
    + intros k f. change (attached w' k f) with (attached w1 k f). by rewrite F5.
    + rewrite F4. done.
    + auto.
Qed.

Lemma clear_ok m : implemented (cf_clear m).
Proof.
  intros w s Hh R _. cbn [run_op]. unfold Clear. rewrite get_run. set (ks := base.filter _ _).
  assert (∀ k, k ∈ ks ↔ k.1 = m ∧ is_Some (m_config w !! k)) as Hks.
  { intros k. unfold ks. rewrite list_elem_of_filter, list_elem_of_fmap. f_equiv. split.
    - intros ([k' e] & -> & He%elem_of_map_to_list). by exists e.
    - intros [e He]. exists (k, e). split; [done|]. by apply elem_of_map_to_list. }
  destruct (clear_all_ok ks w Hh) as (w1 & E & Hh1 & Hf1 & Hv1 & Ho1); [by intros k [_ ?]%Hks|].
  rewrite (bind_Ret _ _ _ _ _ E). eexists. split; [reflexivity|]. apply (detached_ok m w); try done.
  intros k. rewrite Ho1. destruct (m_config w !! k) as [e|] eqn:He.
  - destruct (decide (k.1 = m)) as [Hk|Hk].
    + rewrite decide_True; [done|]. apply Hks. by rewrite He.
    + rewrite decide_False; [done|]. by intros [? _]%Hks.
  - unfold own_of. rewrite He. by repeat case_decide.
Qed.

(** ** Watching *)
Lemma notifications_watcher md ws i x :
  notifications md (ws ++ [(i, x)]) ≡ₚ notifications md ws ++ ((λ y, (x, (y.2, i))) <$> base.filter (λ y, y.1 = i) md).
Proof.
  induction md as [|[j f] md IH]; [done|]. unfold notifications in *. rewrite !fmap_cons. cbn [concat]. rewrite IH.
  rewrite filter_app, fmap_app, filter_cons. cbn [fst snd]. rewrite <-!app_assoc. apply Permutation_app_head.
  destruct (decide (j = i)) as [->|n].
  - rewrite filter_cons_True by done. cbn. rewrite decide_True by done. cbn. apply Permutation_middle.
  - rewrite filter_cons_False by (cbn; congruence). cbn. rewrite decide_False by congruence. done.
Qed.

Lemma when_ok i x : implemented (cf_when i x).
Proof.
  intros w s Hh R _. cbn [run_op]. unfold WhenInternal. rewrite get_run, modify_run, told_run. eexists. split; [done|]. split.
  - by apply (healthy_same w).
  - destruct R as [R1 R2 R3 R4 R5 R6 R7]. split; try done; [cbn; by rewrite R5|].
    rewrite app_nil_r in R6 |- *. cbn [s_metadata s_watchers spec_step told set_told set_watchers].
    by rewrite notifications_watcher, R6, R4.
Qed.

Lemma op_ok o : implemented o.
Proof. destruct o; [apply construct_manager_ok|apply set_ok|apply register_all_ok|apply clear_ok|apply when_ok]. Qed.

Lemma run_ok l : ∀ w s, healthy w → refines memory [] w s → client memory s l →
  healthy (run l w) ∧ refines memory [] (run l w) (spec_run l s) ∧
  ∀ l1 o l2, l = l1 ++ o :: l2 → (run_op o (run l1 w)).1 = Ret tt.
Proof.
  induction l as [|o l IH]; intros w s Hh R Hc; [split_and!; try done; by intros [|??]|].
  destruct Hc as [Ho Hc]. destruct (op_ok o w s Hh R Ho) as (w1 & E & Hh1 & R1). unfold run, spec_run in *. cbn [foldl].
  rewrite E. destruct (IH w1 _ Hh1 R1 Hc) as (Hh2 & R2 & Hr). split_and!; [done|done|].
  intros [|o' l1] o2 l2 [= -> ->]; cbn; rewrite E; [done|]. by eapply Hr.
Qed.
End spec.

(** The program starts without managers; the objects have their fields. *)
Definition world_start (memory : gmap nat field) : world := set_fields memory world_new.

Lemma start_ok types memory : (∀ f x, memory !! f = Some x → has_type (types f) x) →
  ConfigManagerFacts.healthy types (world_start memory) ∧ refines memory [] (world_start memory) spec_new.
Proof.
  intros Hm. split; [split; [|split]|]; [split|split|..]; cbn; try done; try (intros *; by rewrite lookup_empty).
  split; cbn; try done. intros k f. split; [intros (e & id & He & _); cbn in He; by apply lookup_empty_Some in He|by intros ?%elem_of_nil].
Qed.


(** A root manager with a default, a child that follows it and then overrides. *)
Definition example_types (f : nat) : field_type := t_int true 32.
Definition example_registry : list (string * option (field_type * field)) := [("volume"%string, Some (t_int true 32, f_int 50)); ("name"%string, None)].
Definition example_memory : gmap nat field := <[0 := f_int 0]> (<[1 := f_int 0]> ∅).
Definition example_client : list config_op :=
  [cf_new None; cf_new (Some 0); cf_when 7 1; cf_register 1 [mkField "volume" 0 [7]]; cf_set 0 "volume" "70";
   cf_register 0 [mkField "volume" 1 []]; cf_set 1 "volume" "80"; cf_set 0 "volume" "90"; cf_clear 1].

