(* ===== verification/ConfigManagerErrors.v ===== *)
(** * ConfigManager: a field that refuses its value

    An exception thrown by the handler [Register] adds leaves the signal of the
    entry asserted; nothing the managers offer releases it. *)
From stdpp Require Import base gmap list strings.
From Stdlib Require Import ZArith Lia.
From S2P Require Import Prelude.
From S2P Require Import Marshaller.
From S2P Require Import ConfigManager.
From S2P Require Import ConfigManagerFacts.
From S2P Require Import ConfigManagerSpec.
Local Open Scope nat_scope.

(** The entry is asserted, and its value is [v]. *)
Definition wedged (k : key) (v : string) (w : world) : Prop :=
  k.1 < length (parents w) ∧ ∃ e, m_config w !! k = Some e ∧ busy e = true ∧ value e = v.

Section wedged.
  Context (types : nat → field_type) (registry : list (string * option (field_type * field))) (k : key) (v : string).
  Local Abbreviation keeps := (preserves (wedged k v)).

Ltac keep := repeat first [solve [eauto with aw] | match goal with |- ∀ _, _ => intro end | apply preserves_bind | case_match].

Lemma keeps_load k' : keeps (load k').
Proof. unfold load. keep. Qed.

(** Other entries may change at will; this one not in its value and its state. *)
Lemma keeps_update k' f : k' ≠ k ∨ (∀ e, busy (f e) = busy e ∧ value (f e) = value e) → keeps (update k' f).
Proof.
  intros Hf w (Hl & e & He & Hb & Hv). split; [done|]. cbn. destruct (decide (k' = k)) as [->|n].
  - exists (f e). rewrite lookup_alter_eq, He. destruct Hf as [|Hf]; [done|]. destruct (Hf e) as [-> ->]. by split_and!.
  - exists e. by rewrite lookup_alter_ne.
Qed.

Lemma keeps_other k' f : k' ≠ k → keeps (update k' f).
Proof. intros n. apply keeps_update. by left. Qed.

Lemma keeps_queue k' f : (∀ e, busy (f e) = busy e ∧ value (f e) = value e) → keeps (update k' f).
Proof. intros Hf. apply keeps_update. by right. Qed.
Local Hint Resolve keeps_load keeps_other keeps_queue : aw.
Local Hint Extern 1 (busy _ = busy _ ∧ value _ = value _) => done : aw.

Lemma keeps_unmarshal f sz : keeps (unmarshal_field types f sz).
Proof. unfold unmarshal_field. keep. Qed.

Lemma keeps_append k' l : keeps (append k' l).
Proof. unfold append. keep. Qed.

Lemma keeps_remove k' id : keeps (remove k' id).
Proof. unfold remove. keep. Qed.
Local Hint Resolve keeps_unmarshal keeps_append keeps_remove : aw.

Lemma keeps_leave rounds perf k' : k' ≠ k → (∀ c, keeps (perf c)) → keeps (leave rounds perf k').
Proof.
  intros n Hp. induction rounds as [|rounds IH]; cbn [leave]; [apply preserves_stuck|]. keep.
Qed.

Lemma keeps_invoke perf k' c : (k' ≠ k → ∀ c, keeps (perf k' c)) → keeps (invoke perf k' c).
Proof.
  intros Hp. destruct (decide (k' = k)) as [->|n].
  - intros w Hw. pose proof Hw as (_ & e & He & Hb & _). unfold invoke. rewrite (bind_Ret _ _ _ _ _ (load_run _ _ _ He)), Hb.
    by apply (keeps_queue k (set_delayed (delayed e ++ [c]))).
  - unfold invoke. specialize (Hp n). keep; apply keeps_leave || apply preserves_catch; keep.
Qed.

Local Hint Resolve keeps_invoke : aw.

Lemma keeps_perform fuel : ∀ k' c, k' ≠ k → keeps (perform types fuel k' c).
Proof.
  induction fuel as [|fuel IH]; intros k' c n; cbn [perform]; [apply preserves_stuck|].
  destruct c; keep; apply preserves_for_each; keep.
Qed.
Local Hint Resolve keeps_perform : aw.

Lemma keeps_invoke_entry k' c : keeps (invoke_entry types k' c).
Proof. unfold invoke_entry. keep. Qed.

Lemma keeps_clear_reg k' : keeps (clear_reg k').
Proof. unfold clear_reg. keep. Qed.
Local Hint Resolve keeps_invoke_entry keeps_clear_reg : aw.

Lemma with_entry_wedged w k' : m_config w !! k' = None → wedged k v w → wedged k v (with_entry w k').
Proof.
  intros Hk (Hl & e & He & ?). split; [done|]. exists e. split; [|done]. cbn. rewrite lookup_insert_ne by (intros ->; congruence). done.
Qed.

(** A step that looks at the state first. *)
Lemma keeps_from {A B} (m : M world A) (h : A → M world B) w : wedged k v (m w).2 → (∀ a, keeps (h a)) → wedged k v ((m ≫= h) w).2.
Proof. intros Hm Hh. munfold. destruct (m w) as [[a|e|r] w1]; [by apply Hh|done..]. Qed.

Lemma keeps_GetEntry fuel : ∀ m n, keeps (GetEntry types fuel m n).
Proof.
  induction fuel as [|fuel IH]; intros m n w Hw; [done|]. cbn [GetEntry]. rewrite get_run.
  destruct (m_config w !! (m, n)) eqn:He; [done|]. apply keeps_from; [by apply with_entry_wedged|]. keep.
Qed.

Lemma keeps_SetValue m n x : keeps (SetValue types m n x).
Proof.
  intros w Hw. unfold SetValue. rewrite get_run. apply keeps_from; [|keep].
  destruct (m_config w !! (m, n)) eqn:He; [by apply keeps_clear_reg|by apply with_entry_wedged].
Qed.

Lemma keeps_default m d : m ≠ k.1 → keeps (default_step m d).
Proof.
  intros n w (Hl & e & He & ?). split; [done|]. exists e. split; [|done]. assert ((m, d.1) ≠ k) by (intros <-; done). cbn.
  rewrite lookup_alter_ne by done. case_match; [done|by rewrite lookup_insert_ne].
Qed.

Lemma keeps_new parent : keeps (ConfigManager_new registry parent).
Proof.
  intros w Hw. pose proof Hw as (Hl & e & He & ?). unfold ConfigManager_new. rewrite get_run. apply keeps_from.
  - split; [|by exists e]. cbn. rewrite length_app. lia.
  - intros []. apply preserves_bind; [|keep]. destruct parent; [keep|]. apply preserves_for_each. intros d _. apply keeps_default. lia.
Qed.

Lemma keeps_tell_all l : keeps (for_each tell l).
Proof. apply preserves_for_each. intros x _ w Hw. exact Hw. Qed.
Local Hint Resolve keeps_GetEntry keeps_SetValue keeps_new keeps_tell_all : aw.

Lemma keeps_register_fields m desc : ∀ deferred, keeps (register_fields types m desc deferred).
Proof. induction desc as [|d desc IH]; intros deferred; cbn [register_fields]; unfold register_field; keep. Qed.

Lemma keeps_op o : keeps (run_op types registry o).
Proof.
  destruct o as [parent|m n x|m desc|m|i x]; cbn [run_op]; unfold Register, Clear, WhenInternal; keep.
  - apply keeps_register_fields.
  - intros w (Hl & Hw). split; [|exact Hw]. cbn. by rewrite length_insert.
Qed.

Lemma keeps_run l w : wedged k v w → wedged k v (run types registry l w).
Proof. revert w. induction l as [|o l IH]; intros w Hw; [done|]. apply IH. by apply keeps_op. Qed.
End wedged.

(** C40. A field that refuses its value while it is registered breaks its entry for
    good: when the marshaller of the field of a registration throws on the text of
    an entry, [Register] fails with that exception and the signal of the entry stays
    asserted.  After any further operations on any managers, [Get] of that name never
    returns, and its value is the one the field refused: every [Set] is only
    queued. *)
Theorem refused_registration_wedges types registry m d e x ex w l :
  m_config w !! (m, field_name d) = Some e → m < length (parents w) → busy e = false →
  fields w !! field_address d = Some x → unmarshal (types (field_address d)) x (c_str (value e)) = Throw ex →
  ∃ w', run_op types registry (cf_register m [d]) w = (Throw ex, w') ∧
    let w2 := run types registry l w' in
    (Get (S m) m (field_name d) w2).1 = Stuck blocked ∧ value <$> m_config w2 !! (m, field_name d) = Some (value e).
Proof.
  intros He Hm Hb Hx Hex. cbn [run_op]. set (k := (m, field_name d)) in *.
  set (e1 := set_delayed (delayed e ++ [c_link (next_registration w) (l_field (field_address d))]) (set_busy true e)).
  set (w1 := set_next (S (next_registration w)) (set_config (<[k := e1]> (m_config w)) w)).
  assert (GetEntry types (S m) m (field_name d) w = (Ret tt, w)) as Eg by (cbn [GetEntry]; rewrite get_run; fold k; by rewrite He).
  set (wb := set_config (<[k := set_busy true e]> (m_config w)) w).
  assert (append k (l_field (field_address d)) wb = (Ret (next_registration w), w1)) as Ea.
  { unfold append. rewrite get_run. erewrite bind_Ret by (apply load_run, lookup_insert_eq). rewrite modify_run. cbn [busy set_busy].
    erewrite bind_Ret by (apply update_entry_run, lookup_insert_eq). unfold wb, w1. cbn. by rewrite insert_insert_eq. }
  assert (perform types (S (length (parents w))) k (c_register (field_address d)) wb = (Throw ex, w1)) as Ep.
  { cbn [perform]. rewrite (bind_Ret _ _ _ _ _ Ea). erewrite bind_Ret by (apply load_run, lookup_insert_eq).
    unfold unmarshal_field. rewrite get_run. change (fields w1) with (fields w). rewrite Hx. erewrite bind_Ret by done.
    change (value _) with (value e). by rewrite Hex. }
  assert (Register types m [d] w = (Throw ex, w1)) as E.
  { unfold Register. apply bind_Throw. cbn [register_fields]. apply bind_Throw. unfold register_field.
    rewrite (bind_Ret _ _ _ _ _ Eg). apply bind_Throw. unfold invoke_entry, invoke.
    rewrite get_run, (bind_Ret _ _ _ _ _ (load_run _ _ _ He)), Hb, (bind_Ret _ _ _ _ _ (update_entry_run _ _ _ _ He)). by apply bind_Throw. }
  exists w1. split; [exact E|]. assert (wedged k (value e) w1) as Hw by (split; [done|]; exists e1; split; [apply lookup_insert_eq|done]).
  apply (keeps_run types registry _ _ l) in Hw as (_ & e2 & He2 & Hb2 & Hv2). split; [|by rewrite He2, <-Hv2].
  cbn [Get]. rewrite get_run. fold k. by rewrite He2, Hb2.
Qed.

Definition bool_field : config_field := mkField "enabled" 0 [].
Definition refused_world : world := run (λ _, t_bool) [] [cf_new None; cf_set 0 "enabled" "yes"] (world_start {[0 := f_bool false]}).

Lemma refused_registration_wedges_witness :
  m_config refused_world !! (0, "enabled"%string) = Some (mkEntry "yes" [] false [] None) ∧
  ∃ w', run_op (λ _, t_bool) [] (cf_register 0 [bool_field]) refused_world = (Throw bool_error, w') ∧
    (Get 1 0 "enabled" (run (λ _, t_bool) [] [cf_set 0 "enabled" "true"] w')).1 = Stuck blocked.
Proof.
  split; [by vm_compute|].
  destruct (refused_registration_wedges (λ _, t_bool) [] 0 bool_field (mkEntry "yes" [] false [] None) (f_bool false) bool_error refused_world
    [cf_set 0 "enabled" "true"]) as (w' & E & Hg & _); [by vm_compute|vm_compute; lia|done|by vm_compute|by vm_compute|]. by exists w'.
Defined.

(** A field that refuses a new value keeps it from the listeners after it: the child
    goes on with the value its parent had before. *)
Lemma refused_value_stops_propagation :
  let w := run (λ _, t_bool) []
    [cf_new None; cf_new (Some 0); cf_set 0 "enabled" "true"; cf_register 0 [bool_field]; cf_register 1 [mkField "enabled" 1 []];
     cf_set 0 "enabled" "maybe"] (world_start {[0 := f_bool false; 1 := f_bool false]}) in
  (Get 1 0 "enabled" w).1 = Ret "maybe"%string ∧ (Get 2 1 "enabled" w).1 = Ret "true"%string.
Proof. vm_compute. done. Qed.
