(* ===== verification/AutoSignal.v ===== *)
(** * Signals: the wait-free hand-over of calls between threads

    signal<void(Args...)> of src/src/autowiring/auto_signal.h with the atomic_list
    of atomic_list.cpp.  Threads run programs of operations on one signal; a step
    of a thread is one access to the atomic state or to the list of delayed calls,
    or one call of a handler, or one change of the list of listeners.  Atomic
    accesses are sequentially consistent; a weak compare-and-exchange may fail
    without a reason.  An operation made by a handler on its own signal is made,
    like that of another thread, while the signal is asserted. *)
From stdpp Require Import base list.
From Stdlib Require Import ZArith Lia.
From S2P Require Import Prelude.

Inductive SignalState := Free | Updating | Asserting | Deferred.

#[export] Instance SignalState_eq_dec : EqDecision SignalState.
Proof. solve_decision. Defined.

(** Operations have names, and the listener attached by an operation has the name
    of the operation.  [callable_signal], the callables of [invoke],
    [callable_link] and [callable_unlink]. *)
Inductive call := k_signal (id : nat) | k_invoke (id : nat) | k_link (id : nat) | k_unlink (id : nat) (e : nat).

#[export] Instance call_eq_dec : EqDecision call.
Proof. solve_decision. Defined.

Definition call_id (c : call) : nat :=
  match c with k_signal id | k_invoke id | k_link id | k_unlink id _ => id end.

(** The signal.  A delayed link or unlink whose [entry] was cleared is paired with
    [false]; the newest delayed call is first. *)
Record signal := mkSignal {
  m_state : SignalState;
  listeners : list nat;
  m_delayedCalls : list (call * bool);
  m_chainID : nat;
  called : list (nat * nat);
  finished : list nat }.

Definition signal_new : signal := mkSignal Free [] [] 0 [] [].

Definition set_state x s := mkSignal x (listeners s) (m_delayedCalls s) (m_chainID s) (called s) (finished s).
Definition set_listeners l s := mkSignal (m_state s) l (m_delayedCalls s) (m_chainID s) (called s) (finished s).
Definition set_delayed l s := mkSignal (m_state s) (listeners s) l (m_chainID s) (called s) (finished s).
Definition set_chain n s := mkSignal (m_state s) (listeners s) (m_delayedCalls s) n (called s) (finished s).
Definition set_called l s := mkSignal (m_state s) (listeners s) (m_delayedCalls s) (m_chainID s) l (finished s).
Definition finish id s := mkSignal (m_state s) (listeners s) (m_delayedCalls s) (m_chainID s) (called s) (finished s ++ [id]).

(** The 32-bit chain identifier, given the number of chains released. *)
Definition chain_id (n : nat) : Z := Z.of_nat n `mod` 2 ^ 32.

(** [LinkUnsafe] and [UnlinkUnsafe]. *)
Definition LinkUnsafe (e : nat) (s : signal) : signal := set_listeners (listeners s ++ [e]) s.
Definition UnlinkUnsafe (e : nat) (s : signal) : signal := set_listeners (base.filter (λ x, x ≠ e) (listeners s)) s.

(** [push_entry], [release] (in the order of insertion). *)
Definition push_entry (c : call) (s : signal) : signal := set_delayed ((c, true) :: m_delayedCalls s) s.
Definition release (s : signal) : list (call * bool) * signal :=
  (rev (m_delayedCalls s), set_chain (S (m_chainID s)) (set_delayed [] s)).

(** [link->entry = nullptr], [e = std::move(link->entry)]. *)
Definition clear_entry (c : call) (s : signal) : signal :=
  set_delayed ((λ x, if decide (x.1 = c) then (x.1, false) else x) <$> m_delayedCalls s) s.

(** [pFlink]. *)
Fixpoint next_listener (e : nat) (l : list nat) : option nat :=
  match l with
  | [] => None
  | x :: l' => if Nat.eqb x e then head l' else next_listener e l'
  end.

(** [compare_exchange_weak] of the state: whether it succeeded. *)
Definition compare_exchange (weak : bool) (expected desired : SignalState) (s : signal) : bool * signal :=
  if negb weak && bool_decide (m_state s = expected) then (true, set_state desired s) else (false, s).

(** What a thread calls: [operator()], [invoke], [operator+=], [operator-=], or a
    section between [lock] and [unlock]. *)
Inductive op := o_call (c : call) | o_locked (id : nat).

Definition op_id (o : op) : nat := match o with o_call c => call_id c | o_locked id => id end.

(** Where a thread is. *)
Inductive pc :=
  | p_idle
  | p_enter (o : op)                                            (** [try_enter] *)
  | p_run (id : nat) (cur : option nat)                         (** [SignalUnsafe] *)
  | p_do (id : nat)                                             (** the function of [invoke], the section *)
  | p_leave | p_leave2 | p_release                              (** [leave] *)
  | p_dispatch (l : list (call * bool))
  | p_dispatch_run (id : nat) (cur : option nat) (l : list (call * bool))
  | p_push (c : call) | p_hand1 | p_hand2                       (** [handoff] *)
  | p_link (c : call) | p_link_push (c : call)                  (** [Link], [Unlink] *)
  | p_link1 (c : call) (chain : nat) | p_link2 (c : call) (chain : nat)
  | p_link_check (c : call) (chain : nat)
  | p_link_do (c : call) | p_link_free.

Abbreviation thread := (pc * list op)%type (only parsing).

Section signal.
  (** Whether handler [e] throws when it is called by operation [id]. *)
  Context (throws : nat → nat → bool).

(** The effect of a delayed link or unlink. *)
Definition run_link (c : call) (s : signal) : signal :=
  match c with
  | k_link e => finish e (LinkUnsafe e s)
  | k_unlink id e => finish id (UnlinkUnsafe e s)
  | _ => s
  end.

(** Calling the entry [e], and the entry after it; the exception of a handler ends
    the call. *)
Definition call_entry (e id : nat) (s : signal) : option nat * signal :=
  (if throws e id then None else next_listener e (listeners s), set_called (called s ++ [(e, id)]) s).

(** What a step of a thread may be: the place after it, the operations left, the
    signal.  [weak] says that a compare-and-exchange fails although it could
    succeed. *)
Local Abbreviation next := (option (pc * list op * signal)).

(** [operator()], [invoke], [lock] begin with [try_enter]; [operator+=] and
    [operator-=] are [Link] and [Unlink]. *)
Definition start (todo : list op) (s : signal) : next :=
  match todo with
  | [] => None
  | o_call (k_link id as c) :: todo' | o_call (k_unlink id _ as c) :: todo' => Some (p_link c, todo', s)
  | o :: todo' => Some (p_enter o, todo', s)
  end.

Definition try_enter (weak : bool) (o : op) (todo : list op) (s : signal) : next :=
  let '(ok, s') := compare_exchange weak Free Asserting s in
  if ok then
    Some (match o with o_call (k_signal id) => p_run id (head (listeners s')) | _ => p_do (op_id o) end, todo, s')
  else match m_state s, o with
       | (Asserting | Deferred), o_call c => Some (p_push c, todo, s)
       | _, _ => Some (p_enter o, todo, s)
       end.

(** [leave], with the calls it takes over. *)
Definition leave (weak : bool) (p : pc) (todo : list op) (s : signal) : next :=
  match p with
  | p_leave =>
    let '(ok, s') := compare_exchange weak Asserting Free s in
    Some (if ok then p_idle else p_leave2, todo, s')
  | p_leave2 =>
    let '(ok, s') := compare_exchange weak Deferred Asserting s in
    Some (if ok then p_release else p_leave, todo, s')
  | p_release => let '(l, s') := release s in Some (p_dispatch l, todo, s')
  | p_dispatch l =>
    match l with
    | [] => Some (p_leave, todo, s)
    | (k_signal id, _) :: l' => Some (p_dispatch_run id (head (listeners s)) l', todo, s)
    | (k_invoke id, _) :: l' => Some (p_dispatch l', todo, finish id s)
    | (c, live) :: l' => Some (p_dispatch l', todo, if live then run_link c s else s)
    end
  | p_dispatch_run id cur l =>
    match cur with
    | Some e => let '(cur', s') := call_entry e id s in Some (p_dispatch_run id cur' l, todo, s')
    | None => Some (p_dispatch l, todo, finish id s)
    end
  | _ => None
  end.

Definition handoff (weak : bool) (p : pc) (todo : list op) (s : signal) : next :=
  match p with
  | p_push c => Some (p_hand1, todo, push_entry c s)
  | p_hand1 =>
    let '(ok, s') := compare_exchange weak Asserting Deferred s in
    Some (if ok || bool_decide (m_state s = Deferred) then p_idle else p_hand2, todo, s')
  | p_hand2 =>
    let '(ok, s') := compare_exchange weak Free Asserting s in
    Some (if ok then p_leave else p_hand1, todo, s')
  | _ => None
  end.

(** [Link], and [Unlink], which differs in the change it makes. *)
Definition Link (weak : bool) (p : pc) (todo : list op) (s : signal) : next :=
  match p with
  | p_link c =>
    let '(ok, s') := compare_exchange weak Free Updating s in
    Some (if ok then p_link_do c else p_link_push c, todo, s')
  | p_link_push c => Some (p_link1 c (m_chainID s), todo, push_entry c s)
  | p_link1 c chain =>
    let '(ok, s') := compare_exchange weak Asserting Deferred s in
    Some (if ok || bool_decide (m_state s = Deferred) then p_idle else p_link2 c chain, todo, s')
  | p_link2 c chain =>
    let '(ok, s') := compare_exchange weak Free Updating s in
    Some (if ok then p_link_check c chain else p_link1 c chain, todo, s')
  | p_link_check c chain =>
    if negb (Z.eqb (chain_id (m_chainID s)) (chain_id chain)) then Some (p_link_free, todo, s)
    else Some (p_link_do c, todo, clear_entry c s)
  | p_link_do c => Some (p_link_free, todo, run_link c s)
  | p_link_free => Some (p_idle, todo, set_state Free s)
  | _ => None
  end.

(** [SignalUnsafe]: the handlers in order. *)
Definition SignalUnsafe (id : nat) (cur : option nat) (todo : list op) (s : signal) : next :=
  match cur with
  | Some e => let '(cur', s') := call_entry e id s in Some (p_run id cur', todo, s')
  | None => Some (p_leave, todo, finish id s)
  end.

Definition step (weak : bool) (p : pc) (todo : list op) (s : signal) : next :=
  match p with
  | p_idle => start todo s
  | p_enter o => try_enter weak o todo s
  | p_run id cur => SignalUnsafe id cur todo s
  | p_do id => Some (p_leave, todo, finish id s)
  | p_leave | p_leave2 | p_release | p_dispatch _ | p_dispatch_run _ _ _ => leave weak p todo s
  | p_push _ | p_hand1 | p_hand2 => handoff weak p todo s
  | p_link _ | p_link_push _ | p_link1 _ _ | p_link2 _ _ | p_link_check _ _ | p_link_do _ | p_link_free => Link weak p todo s
  end.

(** Some thread takes a step; a thread that has nothing to do, or does not exist,
    takes none. *)
Definition world : Type := signal * list thread.

Definition world_step (c : nat * bool) (w : world) : world :=
  match w.2 !! c.1 with
  | Some (p, todo) =>
    match step c.2 p todo w.1 with
    | Some (p', todo', s') => (s', <[c.1 := (p', todo')]> w.2)
    | None => w
    end
  | None => w
  end.

Definition run (schedule : list (nat * bool)) (w : world) : world := foldl (λ w c, world_step c w) w schedule.

Definition world_new (programs : list (list op)) : world := (signal_new, (λ l, (p_idle, l)) <$> programs).
End signal.
