(* ===== verification/AutoSignalFacts.v ===== *)
(** * Signals: exclusion, conservation of calls, and lost calls

    For all programs and all schedules: handlers exclude each other and the
    changes of the list they are called from, no call is made twice, and
    listeners are never lost.  One schedule loses a call. *)
From stdpp Require Import base list.
From Stdlib Require Import ZArith Lia.
From S2P Require Import Prelude.
From S2P Require Import AutoSignal.

(** ** Sums over threads *)
Section total.
  Context {A : Type} (f : A → nat).

Definition total (l : list A) : nat := foldr (λ x n, f x + n) 0 l.

Lemma total_insert l i x y : l !! i = Some x → total (<[i := y]> l) + f x = total l + f y.
Proof.
  revert i. induction l as [|z l IH]; intros [|i] H; [done|done| |].
  - injection H as ->. unfold total. simpl. lia.
  - specialize (IH i H). unfold total in *. simpl. lia.
Qed.

Lemma total_elem l i x : l !! i = Some x → f x ≤ total l.
Proof.
  revert i. induction l as [|z l IH]; intros [|i] H; [done|done| |]; unfold total in *; simpl.
  - injection H as ->. lia.
  - specialize (IH i H). lia.
Qed.

Lemma total_change l i x y : l !! i = Some x → total (<[i := y]> l) = total l - f x + f y.
Proof. intros H. pose proof (total_insert l i x y H). pose proof (total_elem l i x H). lia. Qed.

Lemma total_two l i j x y : i ≠ j → l !! i = Some x → l !! j = Some y → f x + f y ≤ total l.
Proof.
  revert i j. induction l as [|z l IH]; intros [|i] [|j] n Hx Hy; try done; unfold total in *; simpl in *.
  - injection Hx as ->. pose proof (total_elem l j y Hy). unfold total in *. lia.
  - injection Hy as ->. pose proof (total_elem l i x Hx). unfold total in *. lia.
  - specialize (IH i j ltac:(congruence) Hx Hy). lia.
Qed.
End total.

(** ** Exclusion *)
(** The threads between entering and leaving the asserting state, and those that
    changed the state to [Updating]. *)
Definition holds (t : thread) : nat :=
  match t.1 with
  | p_run _ _ | p_do _ | p_leave | p_leave2 | p_release | p_dispatch _ | p_dispatch_run _ _ _ => 1
  | _ => 0
  end.

Definition updates (t : thread) : nat :=
  match t.1 with p_link_check _ _ | p_link_do _ | p_link_free => 1 | _ => 0 end.

Definition lock_ok (st : SignalState) (h u : nat) : Prop :=
  match st with
  | Free => h = 0 ∧ u = 0
  | Updating => h = 0 ∧ u = 1
  | Asserting | Deferred => h = 1 ∧ u = 0
  end.

Section facts.
  Context (throws : nat → nat → bool).
  Local Abbreviation step := (AutoSignal.step throws).

Lemma compare_exchange_true weak e d s s' : compare_exchange weak e d s = (true, s') → m_state s = e ∧ s' = set_state d s.
Proof.
  unfold compare_exchange. destruct (negb weak && _) eqn:E; [|done]. intros [= <-].
  apply andb_true_iff in E as [_ E]. by apply bool_decide_eq_true in E.
Qed.

Lemma compare_exchange_false weak e d s s' : compare_exchange weak e d s = (false, s') → s' = s.
Proof. unfold compare_exchange. destruct (negb weak && _); congruence. Qed.

(** Case analysis of a step: one goal per branch of the code. *)
Ltac step_cases H :=
  unfold AutoSignal.step, start, try_enter, leave, handoff, Link, SignalUnsafe, call_entry, release in H;
  repeat match type of H with
  | context [match ?x with _ => _ end] =>
    lazymatch x with
    | compare_exchange ?w ?e ?d ?s =>
      let b := fresh "ok" in let s' := fresh "s1" in let E := fresh "E" in
      destruct (compare_exchange w e d s) as [b s'] eqn:E;
      destruct b; [apply compare_exchange_true in E as [? ->]|apply compare_exchange_false in E as ->]
    | _ => destruct x eqn:?
    end
  end; simplify_eq.

Lemma run_link_state c s : m_state (run_link c s) = m_state s.
Proof. by destruct c. Qed.

Lemma step_lock weak p todo s p' todo' s' h u :
  step weak p todo s = Some (p', todo', s') →
  lock_ok (m_state s) (h + holds (p, todo)) (u + updates (p, todo)) →
  lock_ok (m_state s') (h + holds (p', todo')) (u + updates (p', todo')).
Proof.
  intros H Hl. destruct p; step_cases H; unfold holds, updates in *; simpl in *;
    rewrite ?run_link_state; try done.
  all: repeat match goal with H : m_state ?s = _ |- _ => rewrite H in * end; simpl in *; try lia; try done.
  all: destruct (m_state s); simpl in *; lia.
Qed.

(** ** Where a call is *)
Definition is_link (c : call) : bool := match c with k_link _ | k_unlink _ _ => true | _ => false end.

(** The calls of a list that will be made. *)
Definition pend1 (c : call * bool) : list nat := if is_link c.1 && negb c.2 then [] else [call_id c.1].
Definition pend (l : list (call * bool)) : list nat := concat (pend1 <$> l).

(** The operations a thread will make: its own, and those it took over. *)
Definition pc_ids (p : pc) : list nat :=
  match p with
  | p_enter o => [op_id o]
  | p_run id _ | p_do id => [id]
  | p_dispatch l => pend l
  | p_dispatch_run id _ l => id :: pend l
  | p_push c | p_link c | p_link_push c | p_link_do c => [call_id c]
  | _ => []
  end.
Definition thread_ids (t : thread) : list nat := pc_ids t.1 ++ (op_id <$> t.2).

(** The operations a thread issues, or has issued and not returned from. *)
Definition pc_own (p : pc) : list nat :=
  match p with
  | p_enter o => [op_id o]
  | p_push c | p_link c | p_link_push c | p_link1 c _ | p_link2 c _ | p_link_check c _ | p_link_do c => [call_id c]
  | _ => []
  end.
Definition thread_own (t : thread) : list nat := pc_own t.1 ++ (op_id <$> t.2).

(** Links and unlinks take their own way through the code. *)
Definition pc_ok (p : pc) : Prop :=
  match p with
  | p_enter (o_call c) | p_push c => is_link c = false
  | p_link c | p_link_push c | p_link1 c _ | p_link2 c _ | p_link_check c _ | p_link_do c => is_link c = true
  | _ => True
  end.

(** A thread that pushed a link and waits for it to be taken over. *)
Definition waits (p : pc) : option (call * nat) :=
  match p with p_link1 c n | p_link2 c n | p_link_check c n => Some (c, n) | _ => None end.

Local Abbreviation count x l := (count_occ Nat.eq_dec l x).

Lemma pend_cons c l : pend (c :: l) = pend1 c ++ pend l.
Proof. done. Qed.

Lemma count_pend_rev x l : count x (pend (rev l)) = count x (pend l).
Proof.
  assert (∀ l1 l2, pend (l1 ++ l2) = pend l1 ++ pend l2) as Happ by (intros; unfold pend; by rewrite fmap_app, concat_app).
  induction l as [|c l IH]; [done|]. cbn [rev]. rewrite Happ, !pend_cons, !count_occ_app, IH. simpl. lia.
Qed.

Lemma pend_elem c l : (c, true) ∈ l → call_id c ∈ pend l.
Proof.
  intros (l1 & l2 & ->)%list_elem_of_split. unfold pend. rewrite fmap_app, concat_app. apply elem_of_app. right.
  rewrite fmap_cons. cbn [concat]. apply elem_of_app. left. unfold pend1. simpl. rewrite andb_false_r. left.
Qed.

Definition cleared (c : call) (y : call * bool) : call * bool := if decide (y.1 = c) then (y.1, false) else y.

Lemma pend_clear_none c l : is_link c = true → (c, true) ∉ l → pend (cleared c <$> l) = pend l.
Proof.
  intros Hc. induction l as [|[a b] l IH]; [done|]. intros [Hn Hout]%not_elem_of_cons.
  rewrite fmap_cons, !pend_cons, IH by done. f_equal. unfold cleared. case_decide as E; [|done]. simpl in E. subst a.
  by destruct b.
Qed.

Lemma pend_clear c l x : is_link c = true → (c, true) ∈ l → count (call_id c) (pend l) ≤ 1 →
  count x (pend (cleared c <$> l)) + count x [call_id c] = count x (pend l).
Proof.
  intros Hc Hin. induction l as [|[a b] l IH]; [by apply elem_of_nil in Hin|].
  rewrite fmap_cons, !pend_cons, !count_occ_app. intros Hl.
  destruct (decide ((c, true) ∈ l)) as [Hin'|Hout].
  - assert (0 < count (call_id c) (pend l)) as Hpos by (apply (count_occ_In Nat.eq_dec), list_elem_of_In; by apply pend_elem).
    specialize (IH Hin' ltac:(lia)). unfold cleared at 1. case_decide as Ea; cbn [fst] in *; [|lia]. subst a.
    unfold pend1 in Hl |- *. cbn [fst snd] in *. rewrite Hc in *. destruct b; [|simpl in *; lia].
    simpl in Hl. destruct (Nat.eq_dec (call_id c) (call_id c)); [lia|done].
  - apply elem_of_cons in Hin as [[= <- <-]|?]; [|done]. rewrite pend_clear_none by done.
    unfold cleared, pend1. rewrite decide_True by done. cbn [fst snd]. rewrite Hc. simpl. lia.
Qed.

Lemma step_pc_ok weak p todo s p' todo' s' : step weak p todo s = Some (p', todo', s') → pc_ok p → pc_ok p'.
Proof. intros H Hok. destruct p; step_cases H; done. Qed.

Lemma NoDup_fmap_elem {A B} (f : A → B) l x y : NoDup (f <$> l) → x ∈ l → y ∈ l → f x = f y → x = y.
Proof.
  induction l as [|z l IH]; [by intros _ ?%elem_of_nil|]. rewrite fmap_cons. intros [Hn Hl]%NoDup_cons Hx Hy E.
  apply elem_of_cons in Hx as [->|Hx], Hy as [->|Hy]; [done| | |by apply IH].
  - destruct Hn. rewrite E. by apply list_elem_of_fmap_2.
  - destruct Hn. rewrite <- E. by apply list_elem_of_fmap_2.
Qed.

(** All that is accounted for at a thread and the signal. *)
Definition account (x : nat) (t : thread) (s : signal) : nat :=
  count x (finished s) + count x (pend (m_delayedCalls s)) + count x (thread_ids t).

Lemma run_link_account c x s : is_link c = true →
  count x (finished (run_link c s)) = count x (finished s) + count x [call_id c] ∧
  m_delayedCalls (run_link c s) = m_delayedCalls s ∧ m_chainID (run_link c s) = m_chainID s.
Proof. destruct c; intros; try done; simpl; by rewrite count_occ_app. Qed.

Lemma count_pend_cons x c b l : count x (pend ((c, b) :: l)) = (if is_link c && negb b then 0 else count x [call_id c]) + count x (pend l).
Proof. rewrite pend_cons, count_occ_app. unfold pend1. simpl fst. simpl snd. by destruct (_ && _). Qed.

Lemma count_snoc x (a : nat) l : count x (l ++ [a]) = count x l + count x [a].
Proof. apply count_occ_app. Qed.

(** Splits the counts in the goal down to those of single operations. *)
Ltac split_counts :=
  rewrite ?fmap_cons, ?count_occ_app;
  repeat match goal with
  | |- context [count_occ Nat.eq_dec (?a :: ?l) ?x] =>
    lazymatch l with [] => fail | _ => change (a :: l) with ([a] ++ l); rewrite (count_occ_app Nat.eq_dec [a] l) end
  end;
  rewrite ?(count_occ_nil Nat.eq_dec); cbn [op_id call_id].

Lemma step_account weak p todo s p' todo' s' x :
  step weak p todo s = Some (p', todo', s') → pc_ok p →
  (∀ c n, p = p_link_check c n → chain_id (m_chainID s) = chain_id n →
     (c, true) ∈ m_delayedCalls s ∧ count (call_id c) (pend (m_delayedCalls s)) ≤ 1) →
  account x (p', todo') s' = account x (p, todo) s ∧ pc_ok p'.
Proof.
  intros H Hok Hcheck. unfold account, thread_ids.
  destruct p; step_cases H; cbn [fst snd pc_ids];
    split_counts;
    cbn [op_id call_id finished m_delayedCalls set_state set_called set_delayed set_chain AutoSignal.finish push_entry pc_ok set_listeners LinkUnsafe UnlinkUnsafe run_link] in *;
    rewrite ?count_snoc, ?count_pend_cons, ?count_pend_rev; cbn [is_link call_id andb negb].
  all: change (pend []) with (@nil nat) in *; rewrite ?andb_false_r, ?(count_occ_nil Nat.eq_dec x); try (split; [lia|done]).
  - apply negb_false_iff, Z.eqb_eq in Heqb. destruct (Hcheck c chain eq_refl Heqb) as [Hin Hle].
    pose proof (pend_clear c _ x Hok Hin Hle) as Hc. unfold clear_entry. cbn [finished m_delayedCalls set_delayed].
    change (λ y : call * bool, if decide (y.1 = c) then (y.1, false) else y) with (cleared c). split; [lia|done].
  - destruct (run_link_account c x s Hok) as (-> & -> & _). split; [lia|done].
Qed.

Lemma step_own weak p todo s p' todo' s' x : step weak p todo s = Some (p', todo', s') →
  count x (thread_own (p', todo')) ≤ count x (thread_own (p, todo)).
Proof.
  intros H. unfold thread_own. destruct p; step_cases H;
    cbn [fst snd pc_own]; split_counts; lia.
Qed.

(** What a step does to the delayed calls. *)
Inductive delayed_step (p p' : pc) (s s' : signal) : Prop :=
  | ds_same :
      m_delayedCalls s' = m_delayedCalls s → m_chainID s' = m_chainID s → p ≠ p_release →
      (∀ c n, waits p' = Some (c, n) → waits p = Some (c, n)) →
      (∀ c n, waits p = Some (c, n) → waits p' = Some (c, n) ∨ m_state s' = Deferred ∨
         chain_id (m_chainID s) ≠ chain_id n) →
      (m_state s = Deferred → m_state s' = Deferred ∨ p' = p_release ∨ p = p_link_free) → delayed_step p p' s s'
  | ds_push c :
      m_delayedCalls s' = (c, true) :: m_delayedCalls s → m_chainID s' = m_chainID s → m_state s' = m_state s →
      p ≠ p_release → waits p = None → call_id c ∈ pc_own p →
      (p = p_push c ∧ waits p' = None ∨ p = p_link_push c ∧ waits p' = Some (c, m_chainID s)) → delayed_step p p' s s'
  | ds_release :
      m_delayedCalls s' = [] → m_chainID s' = S (m_chainID s) → waits p' = None → delayed_step p p' s s'
  | ds_clear c n :
      p = p_link_check c n → waits p' = None → chain_id (m_chainID s) = chain_id n →
      m_delayedCalls s' = cleared c <$> m_delayedCalls s → m_chainID s' = m_chainID s → m_state s' = m_state s →
      delayed_step p p' s s'.

Lemma run_link_fields c s : m_delayedCalls (run_link c s) = m_delayedCalls s ∧ m_chainID (run_link c s) = m_chainID s.
Proof. by destruct c. Qed.

Lemma step_delayed weak p todo s p' todo' s' :
  step weak p todo s = Some (p', todo', s') → delayed_step p p' s s'.
Proof.
  intros H. destruct p; step_cases H.
  all: try (apply ds_same; rewrite ?run_link_state; simpl; naive_solver (congruence)).
  all: try (by apply ds_release).
  - apply (ds_push _ _ _ _ c); try done; [left|left; done]. 
  - apply (ds_push _ _ _ _ c); try done; [left|right; done].
  - apply ds_same; try done; [|by left]. intros c' n [= <- <-]. right; left. apply orb_true_iff in Heqb as [?|Hb]; [done|].
    by apply bool_decide_eq_true in Hb.
  - apply ds_same; try done; [|by left]. intros c' n [= <- <-]. do 2 right. apply negb_true_iff, Z.eqb_neq in Heqb. done.
  - apply negb_false_iff, Z.eqb_eq in Heqb. by eapply ds_clear.
  - destruct (run_link_fields c s). apply ds_same; rewrite ?run_link_state; try done; by left.
Qed.

(** ** The invariant of a run *)
Section run.
  Context (all : list nat) (all_unique : NoDup all).

(** [k]: the number of steps taken. *)
Record ok (k : nat) (w : world) : Prop := {
  ok_lock : lock_ok (m_state w.1) (total holds w.2) (total updates w.2);
  ok_count : ∀ x, count x (finished w.1) + count x (pend (m_delayedCalls w.1)) +
    total (λ t, count x (thread_ids t)) w.2 = count x all;
  ok_own : ∀ x, total (λ t, count x (thread_own t)) w.2 ≤ count x all;
  ok_pc : ∀ i p todo, w.2 !! i = Some (p, todo) → pc_ok p;
  ok_chain : ∀ i p todo c n, w.2 !! i = Some (p, todo) → waits p = Some (c, n) →
    n ≤ m_chainID w.1 ∧ (n = m_chainID w.1 ↔ (c, true) ∈ m_delayedCalls w.1);
  ok_link : ∀ c, is_link c = true → (c, true) ∈ m_delayedCalls w.1 →
    m_state w.1 = Deferred ∨ (∃ i todo, w.2 !! i = Some (p_release, todo)) ∨
    ∃ i p todo n, w.2 !! i = Some (p, todo) ∧ waits p = Some (c, n);
  ok_steps : m_chainID w.1 ≤ k }.

Lemma all_once x : count x all ≤ 1.
Proof. apply NoDup_count_occ, NoDup_ListNoDup; done. Qed.

Lemma count_in x l : x ∈ l → 0 < count x l.
Proof. intros H. by apply (count_occ_In Nat.eq_dec), list_elem_of_In. Qed.

Lemma waits_own p c n : waits p = Some (c, n) → call_id c ∈ pc_own p.
Proof. destruct p; intros [= <- <-]; left. Qed.

(** Only one thread issues an operation. *)
Lemma own_unique k w i j p q todo todo' x : ok k w → w.2 !! i = Some (p, todo) → w.2 !! j = Some (q, todo') →
  x ∈ pc_own p → x ∈ pc_own q → i = j.
Proof.
  intros Hok Hi Hj Hp Hq. destruct (decide (i = j)) as [|n]; [done|exfalso].
  pose proof (total_two (λ t, count x (thread_own t)) w.2 i j _ _ n Hi Hj) as Ht.
  pose proof (ok_own _ _ Hok x). pose proof (all_once x).
  assert (∀ p todo, x ∈ pc_own p → 0 < count x (thread_own (p, todo))) as Hc.
  { intros p' l Hx. apply count_in. unfold thread_own. apply elem_of_app. by left. }
  pose proof (Hc p todo Hp). pose proof (Hc q todo' Hq). simpl in *. lia.
Qed.

Definition chains_distinct (n : nat) : Prop := (Z.of_nat n < 2 ^ 32)%Z.

Lemma chain_id_small k a b : chains_distinct k → a ≤ k → b ≤ k → chain_id a = chain_id b → a = b.
Proof. unfold chains_distinct. intros Hk Ha Hb. unfold chain_id. rewrite !Z.mod_small by lia. lia. Qed.

Lemma elem_cleared c c' (l : list (call * bool)) : c' ≠ c → (c', true) ∈ cleared c <$> l ↔ (c', true) ∈ l.
Proof.
  intros n. rewrite list_elem_of_fmap. split.
  - intros ([a b] & E & Hin). unfold cleared in E. case_decide; simpl in *; congruence.
  - intros Hin. exists (c', true). split; [|done]. unfold cleared. by rewrite decide_False.
Qed.

Lemma not_cleared c (l : list (call * bool)) : (c, true) ∉ cleared c <$> l.
Proof. intros ([a b] & E & Hin)%list_elem_of_fmap. unfold cleared in E. case_decide; simpl in *; congruence. Qed.

(** Threads that wait know whether their call was taken over. *)
Lemma chain_step k s ts i p todo p' s' todo' : ok k (s, ts) → ts !! i = Some (p, todo) → delayed_step p p' s s' →
  ∀ j q l c n, <[i := (p', todo')]> ts !! j = Some (q, l) → waits q = Some (c, n) →
  n ≤ m_chainID s' ∧ (n = m_chainID s' ↔ (c, true) ∈ m_delayedCalls s').
Proof.
  intros Hok Hi Hds j q l c n Hj Hw.
  assert ((j = i ∧ q = p') ∨ (j ≠ i ∧ ts !! j = Some (q, l))) as Hcase.
  { apply list_lookup_insert_Some in Hj as [(-> & [= <- <-] & _)|[? Hj]]; auto. }
  clear Hj. destruct Hds as [Ed Ec Hnr Hw' Hold Hdef|c0 Ed Ec Es Hnr Hnw Hown Hor|Ed Ec Hnw|c0 n0 Hp Hnw Heq Ed Ec Es].
  - rewrite Ed, Ec. destruct Hcase as [[-> ->]|[_ Hj]]; [|exact (ok_chain _ _ Hok j q l c n Hj Hw)].
    exact (ok_chain _ _ Hok i p todo c n Hi (Hw' _ _ Hw)).
  - rewrite Ed, Ec. destruct Hcase as [[-> ->]|[Hne Hj]].
    + destruct Hor as [[_ Hn]|[_ Hw0]]; [congruence|]. rewrite Hw0 in Hw. injection Hw as <- <-. split; [done|]. split; [left|done].
    + destruct (ok_chain _ _ Hok j q l c n Hj Hw) as [? H]. split; [done|]. simpl in H. rewrite H, elem_of_cons.
      split; [by right|]. intros [[= ->]|?]; [|done]. destruct Hne.
      by eapply own_unique; [exact Hok|exact Hj|exact Hi|eapply waits_own|].
  - rewrite Ed, Ec. destruct Hcase as [[-> ->]|[Hne Hj]]; [congruence|].
    destruct (ok_chain _ _ Hok j q l c n Hj Hw) as [? _]. simpl in *. split; [lia|]. rewrite elem_of_nil. split; [lia|done].
  - rewrite Ed, Ec. destruct Hcase as [[-> ->]|[Hne Hj]]; [congruence|].
    destruct (ok_chain _ _ Hok j q l c n Hj Hw) as [? H]. split; [done|]. simpl in H. rewrite H, elem_cleared; [done|].
    intros ->. destruct Hne. subst p. eapply own_unique; [exact Hok|exact Hj|exact Hi|eapply waits_own; exact Hw|left].
Qed.

(** Somebody sees to every delayed link. *)
Lemma link_step k s ts i p todo p' s' todo' : ok k (s, ts) → chains_distinct k → ts !! i = Some (p, todo) → pc_ok p →
  delayed_step p p' s s' → ∀ c, is_link c = true → (c, true) ∈ m_delayedCalls s' →
  m_state s' = Deferred ∨ (∃ j l, <[i := (p', todo')]> ts !! j = Some (p_release, l)) ∨
  ∃ j q l n, <[i := (p', todo')]> ts !! j = Some (q, l) ∧ waits q = Some (c, n).
Proof.
  intros Hok Hk Hi Hpc Hds c Hc Hin. pose proof (lookup_lt_Some _ _ _ Hi) as Hlt.
  assert (<[i := (p', todo')]> ts !! i = Some (p', todo')) as Hi' by by rewrite list_lookup_insert_eq.
  assert (∀ j t, j ≠ i → ts !! j = Some t → <[i := (p', todo')]> ts !! j = Some t) as Hother by (intros; by rewrite list_lookup_insert_ne).
  assert ((c, true) ∈ m_delayedCalls s → p ≠ p_release →
    (m_state s = Deferred → m_state s' = Deferred ∨ p' = p_release) →
    (∀ n, waits p = Some (c, n) → (∃ n', waits p' = Some (c, n')) ∨ m_state s' = Deferred ∨ chain_id (m_chainID s) ≠ chain_id n) →
    m_state s' = Deferred ∨ (∃ j l, <[i := (p', todo')]> ts !! j = Some (p_release, l)) ∨
    ∃ j q l n, <[i := (p', todo')]> ts !! j = Some (q, l) ∧ waits q = Some (c, n)) as Hkeep.
  { intros Hold Hnr Hdef Hw. destruct (ok_link _ _ Hok c Hc Hold) as [Hd|[(j & l & Hj)|(j & q & l & n & Hj & Hq)]]; simpl in *.
    - destruct (Hdef Hd) as [?| ->]; [by left|]. right; left. by exists i, todo'.
    - right; left. exists j, l. apply Hother; [|done]. intros ->. congruence.
    - destruct (decide (j = i)) as [->|n0]; [|right; right; exists j, q, l, n; split; [by apply Hother|done]].
      rewrite Hi in Hj. injection Hj as <- <-. destruct (Hw n Hq) as [[n' Hn']|[?|Hne]]; [|by left|].
      + right; right. by exists i, p', todo', n'.
      + destruct (ok_chain _ _ Hok i p todo c n Hi Hq) as [_ Hiff]. simpl in Hiff. apply Hiff in Hold. congruence. }
  destruct Hds as [Ed Ec Hnr Hw' Hold Hdef|c0 Ed Ec Es Hnr Hnw Hown Hor|Ed Ec Hnw|c0 n0 Hp Hnw Heq Ed Ec Es]; rewrite Ed in Hin.
  - apply Hkeep; [done|done| |].
    + intros Hd. destruct (Hdef Hd) as [?|[?| ->]]; [by left|by right|]. exfalso.
      pose proof (ok_lock _ _ Hok) as Hl. simpl in Hl. rewrite Hd in Hl. simpl in Hl.
      pose proof (total_elem updates ts i _ Hi) as Hu. unfold updates at 1 in Hu. simpl in Hu. lia.
    + intros n Hn. destruct (Hold c n Hn) as [?|[?|?]]; eauto.
  - apply elem_of_cons in Hin as [[= <-]|Hin].
    + destruct Hor as [[-> _]|[_ Hw]]; [simpl in Hpc; congruence|]. right; right. exists i, p', todo', (m_chainID s). by split.
    + apply Hkeep; [done|done|by rewrite Es; left|]. intros n Hn. congruence.
  - by apply elem_of_nil in Hin.
  - destruct (decide (c = c0)) as [->|Hne]; [by apply not_cleared in Hin|]. rewrite elem_cleared in Hin by done.
    apply Hkeep; [done|by subst|by rewrite Es; left|]. intros n Hn. subst p. simpl in Hn. congruence.
Qed.

Lemma ok_step k w c : ok k w → chains_distinct (S k) → ok (S k) (world_step throws c w).
Proof.
  intros Hok Hk. unfold world_step. destruct w as [s ts]. cbn [fst snd] in *.
  destruct (ts !! c.1) as [[p todo]|] eqn:Hi; [|by destruct Hok; split; try done; simpl in *; lia].
  destruct (step c.2 p todo s) as [[[p' todo'] s']|] eqn:Hstep; [|by destruct Hok; split; try done; simpl in *; lia].
  set (i := c.1) in *. pose proof Hok as [H1 H2 H3 H4 H5 H6 H7]. cbn [fst snd] in *.
  pose proof (H4 i p todo Hi) as Hpc.
  assert (∀ c n, p = p_link_check c n → chain_id (m_chainID s) = chain_id n →
    (c, true) ∈ m_delayedCalls s ∧ count (call_id c) (pend (m_delayedCalls s)) ≤ 1) as Hcheck.
  { intros c0 n -> Heq. destruct (H5 i _ todo c0 n Hi eq_refl) as [Hle Hiff]. split; [apply Hiff; symmetry; apply (chain_id_small (S k)); [done|lia..|done]|].
    pose proof (H2 (call_id c0)). pose proof (all_once (call_id c0)). lia. }
  pose proof (step_delayed _ _ _ _ _ _ _ Hstep) as Hds.
  split; cbn [fst snd].
  - rewrite !(total_change _ _ _ _ _ Hi). eapply step_lock; [exact Hstep|].
    rewrite !Nat.sub_add by (by eapply total_elem). done.
  - intros x. rewrite (total_change _ _ _ _ _ Hi). pose proof (total_elem (λ t, count x (thread_ids t)) ts i _ Hi).
    destruct (step_account _ _ _ _ _ _ _ x Hstep Hpc Hcheck) as [Ha _]. unfold account in Ha. specialize (H2 x). cbn beta in *. lia.
  - intros x. rewrite (total_change _ _ _ _ _ Hi). pose proof (total_elem (λ t, count x (thread_own t)) ts i _ Hi).
    pose proof (step_own _ _ _ _ _ _ _ x Hstep). specialize (H3 x). cbn beta in *. lia.
  - intros j q l [(-> & [= <- <-] & _)|[_ Hj]]%list_lookup_insert_Some; [|by eapply H4].
    by destruct (step_account _ _ _ _ _ _ _ 0 Hstep Hpc Hcheck).
  - by eapply chain_step.
  - eapply link_step; [done| |done..]. unfold chains_distinct in *. lia.
  - destruct Hds; simpl in *; lia.
Qed.

(** ** Runs *)
Lemma run_snoc schedule c w : AutoSignal.run throws (schedule ++ [c]) w = world_step throws c (AutoSignal.run throws schedule w).
Proof. unfold AutoSignal.run. by rewrite foldl_app. Qed.

Lemma ok_run schedule w : ok 0 w → chains_distinct (length schedule) → ok (length schedule) (AutoSignal.run throws schedule w).
Proof.
  intros H0. induction schedule as [|c l IH] using rev_ind; intros Hk; [done|].
  rewrite run_snoc, length_app, Nat.add_comm. apply ok_step.
  - apply IH. unfold chains_distinct in *. rewrite length_app in Hk. simpl in Hk. lia.
  - unfold chains_distinct in *. rewrite length_app in Hk. simpl in *. lia.
Qed.

Lemma total_programs (f : thread → nat) programs (g : list op → nat) :
  (∀ l, f (p_idle, l) = g l) → total f ((λ l, (p_idle, l)) <$> programs) = foldr (λ l n, g l + n) 0 programs.
Proof. intros H. induction programs as [|l ps IH]; [done|]. rewrite fmap_cons. unfold total in *. cbn [foldr]. by rewrite H, IH. Qed.

Lemma count_concat x (programs : list (list op)) :
  foldr (λ l n, count x (op_id <$> l) + n) 0 programs = count x (op_id <$> concat programs).
Proof.
  induction programs as [|l ps IH]; [done|]. cbn [foldr concat]. by rewrite IH, fmap_app, count_occ_app.
Qed.

Lemma total_zero {A} (f : A → nat) l : (∀ x, x ∈ l → f x = 0) → total f l = 0.
Proof.
  induction l as [|x l IH]; intros H; [done|]. unfold total in *. simpl. rewrite H, IH; [done| |left].
  intros y Hy. apply H. by right.
Qed.

Lemma ok_new programs : op_id <$> concat programs = all → ok 0 (world_new programs).
Proof.
  intros E. unfold world_new. split; cbn [fst snd].
  - simpl. rewrite !total_zero; [done|by intros x (l & -> & _)%list_elem_of_fmap..].
  - intros x. rewrite (total_programs _ _ (λ l, count x (op_id <$> l))) by done. rewrite count_concat, E. simpl. lia.
  - intros x. rewrite (total_programs _ _ (λ l, count x (op_id <$> l))) by done. rewrite count_concat, E. simpl. lia.
  - intros i p todo (l & [= -> ->] & _)%list_lookup_fmap_Some. done.
  - intros i p todo c n (l & [= -> ->] & _)%list_lookup_fmap_Some. done.
  - intros c _ H. by apply elem_of_nil in H.
  - done.
Qed.
End run.

(** [lock_ok] alone needs no bound on the run. *)
Lemma lock_run schedule programs : let w := AutoSignal.run throws schedule (world_new programs) in
  lock_ok (m_state w.1) (total holds w.2) (total updates w.2).
Proof.
  induction schedule as [|c l IH] using rev_ind.
  - simpl. rewrite !total_zero; [done|by intros x (l & -> & _)%list_elem_of_fmap..].
  - rewrite run_snoc. set (w := AutoSignal.run throws l (world_new programs)) in *. cbn zeta in *.
    unfold world_step. destruct (w.2 !! c.1) as [[p todo]|] eqn:Hi; [|done].
    destruct (step c.2 p todo w.1) as [[[p' todo'] s']|] eqn:Hstep; [|done]. cbn [fst snd].
    rewrite !(total_change _ _ _ _ _ Hi). eapply step_lock; [exact Hstep|].
    by rewrite !Nat.sub_add by (by eapply total_elem).
Qed.

(** ** Listeners *)
Section listeners.
  (** The listeners that no operation removes. *)
  Context (kept : nat → Prop).

Definition good_call (c : call) : Prop :=
  match c with
  | k_link _ => True
  | k_unlink id e => ¬ kept id ∧ ¬ kept e
  | k_signal id | k_invoke id => ¬ kept id
  end.

Definition good_op (o : op) : Prop := match o with o_call c => good_call c | o_locked id => ¬ kept id end.

Definition good_pc (p : pc) : Prop :=
  match p with
  | p_enter o => good_op o ∧ ¬ kept (op_id o)
  | p_run id _ | p_do id => ¬ kept id
  | p_dispatch l => Forall (λ x, good_call x.1) l
  | p_dispatch_run id _ l => ¬ kept id ∧ Forall (λ x, good_call x.1) l
  | p_push c | p_link c | p_link_push c | p_link1 c _ | p_link2 c _ | p_link_check c _ | p_link_do c => good_call c
  | _ => True
  end.

Definition good_thread (t : thread) : Prop := good_pc t.1 ∧ Forall good_op t.2.

Definition good_signal (s : signal) : Prop :=
  Forall (λ x, good_call x.1) (m_delayedCalls s) ∧ ∀ e, kept e → (e ∈ finished s ↔ e ∈ listeners s).

Lemma good_finish id s : good_signal s → ¬ kept id → good_signal (AutoSignal.finish id s).
Proof.
  intros [Hd H] Hid. split; [done|]. intros e He. cbn [finished listeners AutoSignal.finish].
  rewrite elem_of_app, list_elem_of_singleton, <- (H e He). split; [|auto]. by intros [?| ->].
Qed.

Lemma good_run_link c s : is_link c = true → good_signal s → good_call c → good_signal (run_link c s).
Proof.
  intros Hc [Hd H] Hg. split; [by destruct c|]. intros e He. specialize (H e He). destruct c as [| |e'|id e']; try done;
    cbn [run_link finished listeners AutoSignal.finish LinkUnsafe UnlinkUnsafe set_listeners].
  - by rewrite !elem_of_app, H.
  - destruct Hg as [Hid He']. rewrite elem_of_app, list_elem_of_singleton, list_elem_of_filter, H. naive_solver.
Qed.

Lemma good_step weak p todo s p' todo' s' : step weak p todo s = Some (p', todo', s') → pc_ok p →
  good_thread (p, todo) → good_signal s → good_thread (p', todo') ∧ good_signal s'.
Proof.
  intros H Hok [Hp Ht] Hs. cbn [fst snd] in *.
  destruct p; step_cases H; unfold good_thread; cbn [fst snd good_pc] in *;
    try (apply Forall_cons in Ht as [Ho Ht]); try (apply Forall_cons in Hp as [Hc Hp]);
    repeat match goal with
    | |- _ ∧ _ => split
    | |- good_signal (AutoSignal.finish _ _) => apply good_finish
    | |- good_signal (run_link _ _) => apply good_run_link
    end; try done; try (by destruct Hp); try (by destruct Hs).
  - destruct Hs as [Hd _]. cbn [m_delayedCalls]. by apply Forall_rev.
  - split; [|by destruct Hs]. cbn [push_entry m_delayedCalls set_delayed]. constructor; [done|by destruct Hs].
  - split; [|by destruct Hs]. cbn [push_entry m_delayedCalls set_delayed]. constructor; [done|by destruct Hs].
  - split; [|by destruct Hs]. unfold clear_entry. cbn [m_delayedCalls set_delayed]. apply Forall_fmap.
    destruct Hs as [Hd _]. eapply Forall_impl; [exact Hd|]. intros [a b] Ha. cbn [compose]. unfold compose. by case_decide.
Qed.

Definition good_world (w : world) : Prop :=
  good_signal w.1 ∧ ∀ i t, w.2 !! i = Some t → good_thread t ∧ pc_ok t.1.

Lemma good_world_step c w : good_world w → good_world (world_step throws c w).
Proof.
  intros [Hs Hts]. unfold world_step. destruct (w.2 !! c.1) as [[p todo]|] eqn:Hi; [|done].
  destruct (step c.2 p todo w.1) as [[[p' todo'] s']|] eqn:Hstep; [|done].
  destruct (Hts _ _ Hi) as [Ht Hok]. destruct (good_step _ _ _ _ _ _ _ Hstep Hok Ht Hs) as [Ht' Hs'].
  split; [done|]. cbn [snd]. intros j t [(_ & <- & _)|[_ Hj]]%list_lookup_insert_Some; [|by eapply Hts].
  split; [done|]. by eapply step_pc_ok.
Qed.

Lemma good_run schedule programs : (∀ o, o ∈ concat programs → good_op o) →
  good_world (AutoSignal.run throws schedule (world_new programs)).
Proof.
  intros H. induction schedule as [|c l IH] using rev_ind; [|rewrite run_snoc; by apply good_world_step].
  split; [split; [constructor|done]|]. cbn [snd]. intros i t (l & -> & Hl)%list_lookup_fmap_Some. split; [|done].
  split; [done|]. apply Forall_forall. intros o Ho. apply H. apply list_elem_of_In, in_concat. exists l.
  split; [|by apply list_elem_of_In]. apply list_elem_of_In. by eapply list_elem_of_lookup_2.
Qed.
End listeners.

(** ** Properties *)

(** C35. For all programs of the threads and all schedules: at any time, at most one
    thread is calling handlers, executing a function given to [invoke] or holding
    the lock, or changing the list of listeners; and then the state of the signal
    is not [Free]. *)
Theorem signal_exclusive schedule programs i j t t' :
  let w := AutoSignal.run throws schedule (world_new programs) in
  w.2 !! i = Some t → w.2 !! j = Some t' → holds t + updates t = 1 → holds t' + updates t' = 1 →
  i = j ∧ m_state w.1 ≠ Free ∧ (m_state w.1 = Updating ↔ updates t = 1).
Proof.
  intros w Hi Hj Ht Ht'. pose proof (lock_run schedule programs) as Hl. cbn zeta in Hl. fold w in Hl.
  pose proof (total_elem holds _ _ _ Hi). pose proof (total_elem updates _ _ _ Hi).
  assert (total holds w.2 + total updates w.2 ≤ 1) as Hone by (destruct (m_state w.1); simpl in Hl; lia).
  split; [|destruct (m_state w.1); simpl in Hl; split; try done; try split; intros; try done; lia].
  destruct (decide (i = j)) as [|n]; [done|exfalso].
  pose proof (total_two holds _ _ _ _ _ n Hi Hj). pose proof (total_two updates _ _ _ _ _ n Hi Hj). lia.
Qed.

(** C5. When the operations have different names and there are fewer than 2^32 steps:
    no operation is performed twice.  When all threads have returned from all their
    operations, each operation was performed or is in the list of delayed calls,
    the signal is free, no link or unlink is in that list, and the listeners that
    were to be attached and not to be removed are attached. *)
Theorem signal_conserves_calls schedule programs :
  let ops := concat programs in
  let w := AutoSignal.run throws schedule (world_new programs) in
  NoDup (op_id <$> ops) → chains_distinct (length schedule) →
  NoDup (finished w.1 ++ pend (m_delayedCalls w.1)) ∧
  ((∀ t, t ∈ w.2 → t = (p_idle, [])) →
   finished w.1 ++ pend (m_delayedCalls w.1) ≡ₚ op_id <$> ops ∧ m_state w.1 = Free ∧
   (∀ c, is_link c = true → (c, true) ∉ m_delayedCalls w.1) ∧
   ∀ e, o_call (k_link e) ∈ ops → (∀ id, o_call (k_unlink id e) ∉ ops) → e ∈ listeners w.1).
Proof.
  intros ops w Hnd Hk. pose proof (ok_run _ Hnd schedule _ (ok_new _ programs eq_refl) Hk) as Hok. fold w in Hok.
  assert (∀ x, count x (finished w.1 ++ pend (m_delayedCalls w.1)) ≤ count x (op_id <$> ops)) as Hle.
  { intros x. pose proof (ok_count _ _ _ Hok x) as Hc. rewrite count_occ_app. lia. }
  split.
  { apply NoDup_ListNoDup, (NoDup_count_occ Nat.eq_dec). intros x. pose proof (all_once _ Hnd x). specialize (Hle x). lia. }
  intros Hidle. assert (∀ f : thread → nat, f (p_idle, []) = 0 → total f w.2 = 0) as Hzero.
  { intros f Hf. apply total_zero. by intros t ->%Hidle. }
  assert (finished w.1 ++ pend (m_delayedCalls w.1) ≡ₚ op_id <$> ops) as Hperm.
  { apply (Permutation_count_occ Nat.eq_dec). intros x. pose proof (ok_count _ _ _ Hok x) as Hc.
    rewrite Hzero in Hc by done. rewrite count_occ_app. lia. }
  assert (m_state w.1 = Free) as Hfree.
  { pose proof (ok_lock _ _ _ Hok) as Hl. rewrite !Hzero in Hl by done. destruct (m_state w.1); simpl in Hl; try done; lia. }
  assert (∀ c, is_link c = true → (c, true) ∉ m_delayedCalls w.1) as Hnone.
  { intros c Hc Hin. destruct (ok_link _ _ _ Hok c Hc Hin) as [?|[(i & l & Hi)|(i & q & l & n & Hi & Hq)]]; [congruence| |];
      apply list_elem_of_lookup_2, Hidle in Hi; by simplify_eq. }
  split_and!; try done. intros e He Hun.
  set (kept := λ x, o_call (k_link x) ∈ ops ∧ ∀ id, o_call (k_unlink id x) ∉ ops).
  destruct (good_run kept schedule programs) as [[Hdel Hk'] _].
  { intros o Ho. assert (∀ x, op_id o = x → kept x → o = o_call (k_link x)) as Hsame.
    { intros x Ex [Hx _]. by eapply (NoDup_fmap_elem op_id). }
    destruct o as [[id|id|id|id e']|id]; simpl in *; try (intros Hkept; by specialize (Hsame id eq_refl Hkept)); try done.
    split; intros Hkept; [by specialize (Hsame id eq_refl Hkept)|]. destruct Hkept as [_ Hn]. by apply (Hn id). }
  apply (Hk' e); [done|]. fold w in Hk', Hdel.
  assert (e ∈ finished w.1 ++ pend (m_delayedCalls w.1)) as [?|Hp]%elem_of_app; [|done|].
  { rewrite Hperm. apply list_elem_of_fmap. by exists (o_call (k_link e)). }
  exfalso. unfold pend in Hp. apply list_elem_of_In, in_concat in Hp as (x & (y & -> & Hy)%list_elem_of_In%list_elem_of_fmap & Hx).
  apply list_elem_of_In in Hx. unfold pend1 in Hx. destruct y as [c b]. cbn [fst snd] in Hx.
  rewrite Forall_forall in Hdel. specialize (Hdel _ Hy). cbn [fst] in Hdel.
  destruct (is_link c && negb b) eqn:Ec; [by apply elem_of_nil in Hx|]. apply list_elem_of_singleton in Hx. subst e.
  destruct c as [id|id|id|id e']; simpl in Hdel, Ec; try (by apply Hdel); [|by destruct Hdel as [Hdel _]; apply Hdel].
  destruct b; [|done]. by apply (Hnone (k_link id)).
Qed.

(** When the other thread leaves before the state is examined, [handoff] enters and
    leaves the asserting state and performs none of the delayed calls. *)
Lemma handoff_when_free todo s : m_state s = Free →
  step false p_hand1 todo s = Some (p_hand2, todo, s) ∧
  step false p_hand2 todo s = Some (p_leave, todo, set_state Asserting s) ∧
  step false p_leave todo (set_state Asserting s) = Some (p_idle, todo, set_state Free s).
Proof. intros H. destruct s. simpl in H. subst. done. Qed.

(** A thread attaches the listener 0 and makes the call 1; another thread makes the
    call 2 meanwhile. *)
Definition lost_programs : list (list op) := [[o_call (k_link 0); o_call (k_signal 1)]; [o_call (k_signal 2)]].

Definition lost_schedule : list (nat * bool) :=
  (λ i, (i, false)) <$> [0; 0; 0; 0; 0; 0; 0; 0; 1; 1; 0; 1; 1; 1; 1].

(** A call can be lost: a thread makes a call while another thread is making its
    calls; the other thread leaves before the first has handed its call over.
    Both threads return, without a spurious failure of an exchange, the signal is
    free, and the call was not made: it waits for some later, unrelated call that
    happens to be contended. *)
Theorem lost_signal :
  let w := AutoSignal.run throws lost_schedule (world_new lost_programs) in
  (∀ t, t ∈ w.2 → t = (p_idle, [])) ∧ m_state w.1 = Free ∧ listeners w.1 = [0] ∧
  called w.1 = [(0, 1)] ∧ m_delayedCalls w.1 = [(k_signal 2, true)].
Proof.
  intros w. assert (w = (mkSignal Free [0] [(k_signal 2, true)] 0 [(0, 1)] [0; 1], [(p_idle, []); (p_idle, [])])) as ->.
  { unfold w. change lost_schedule with (take 6 lost_schedule ++ [(0, false)] ++ drop 7 lost_schedule).
    set (w6 := (mkSignal Asserting [0] [] 0 [] [0], [(p_run 1 (Some 0), []); (p_idle, [o_call (k_signal 2)])])).
    set (w7 := (mkSignal Asserting [0] [] 0 [(0, 1)] [0], [(p_run 1 None, []); (p_idle, [o_call (k_signal 2)])])).
    unfold AutoSignal.run. rewrite !foldl_app. trans (foldl (λ w c, world_step throws c w) w7 (drop 7 lost_schedule)); [|reflexivity].
    f_equal. trans (world_step throws (0, false) w6); [reflexivity|].
    unfold w6, w7, world_step. simpl. unfold call_entry. simpl. by destruct (throws 0 1). }
  split_and!; try done. cbn [snd]. intros t. by rewrite !elem_of_cons, elem_of_nil; intros [->|[->|[]]].
Qed.
End facts.

(** ** Witnesses *)
Local Abbreviation quiet := (λ _ _ : nat, false).

Lemma signal_exclusive_witness :
  let w := run quiet (take 8 lost_schedule) (world_new lost_programs) in 0 = 0 ∧ m_state w.1 ≠ Free ∧
  (m_state w.1 = Updating ↔ updates (p_leave, []) = 1).
Proof. eapply (signal_exclusive quiet (take 8 lost_schedule) lost_programs 0 0 _ (p_leave, [])); reflexivity. Defined.

Lemma signal_conserves_calls_witness :
  let w := run quiet lost_schedule (world_new lost_programs) in
  NoDup (finished w.1 ++ pend (m_delayedCalls w.1)) ∧ 0 ∈ listeners w.1.
Proof.
  destruct (signal_conserves_calls quiet lost_schedule lost_programs) as [H1 H2].
  - apply (bool_decide_unpack _). vm_compute. exact I.
  - by vm_compute.
  - split; [exact H1|]. apply H2.
    + intros t H. apply list_elem_of_In in H. vm_compute in H. destruct H as [<-|[<-|[]]]; reflexivity.
    + left.
    + cbn. intros id H. repeat (apply elem_of_cons in H as [H|H]; [discriminate|]). by apply elem_of_nil in H.
Defined.
