(* ===== verification/ObjectPool.v ===== *)
(** * ObjectPool: objects that return to their pool

    src/src/autowiring/ObjectPool.h with the monitor of ObjectPoolMonitor.h.  Pools,
    monitors and pool entries live at addresses that are not reused; the threads'
    critical sections under the mutex of the monitor are atomic, and a thread that
    constructs an object without the mutex holds a reservation meanwhile. *)
From stdpp Require Import base gmap list strings.
From Stdlib Require Import ZArith Lia.
From S2P Require Import Prelude.

(** What the placement, initial and final functions of a pool see, and the
    destruction of objects. *)
Inductive event :=
  | ev_construct (e : nat) | ev_failed | ev_initial (e : nat) | ev_final (e : nat) | ev_destroy (e : nat).

#[export] Instance event_eq_dec : EqDecision event.
Proof. solve_decision. Defined.

Record PoolEntry := mkEntry { entry_monitor : nat; poolVersion : Z }.

(** [ObjectPoolMonitorT]. *)
Record ObjectPoolMonitor := mkMonitor { m_abandoned : bool; owner : nat }.

Record ObjectPool := mkPool {
  m_monitor : option nat;
  m_poolVersion : Z;
  m_objs : list nat;
  m_maxPooled : Z;
  m_limit : Z;
  m_outstanding : Z }.

(** [issued]: the entries some shared pointer holds; [reserved]: the constructions
    under way, with their pool and version; [failed]: the monitors of pools whose
    placement function threw. *)
Record world := mkWorld {
  pools : gmap nat ObjectPool;
  monitors : gmap nat ObjectPoolMonitor;
  entries : gmap nat PoolEntry;
  next_entry : nat;
  issued : list nat;
  reserved : list (nat * Z);
  failed : list nat;
  trace : list event }.

Definition world_new : world := mkWorld ∅ ∅ ∅ 0 [] [] [] [].

Definition set_pools x w := mkWorld x (monitors w) (entries w) (next_entry w) (issued w) (reserved w) (failed w) (trace w).
Definition set_monitors x w := mkWorld (pools w) x (entries w) (next_entry w) (issued w) (reserved w) (failed w) (trace w).
Definition set_entries x w := mkWorld (pools w) (monitors w) x (next_entry w) (issued w) (reserved w) (failed w) (trace w).
Definition set_next x w := mkWorld (pools w) (monitors w) (entries w) x (issued w) (reserved w) (failed w) (trace w).
Definition set_issued x w := mkWorld (pools w) (monitors w) (entries w) (next_entry w) x (reserved w) (failed w) (trace w).
Definition set_reserved x w := mkWorld (pools w) (monitors w) (entries w) (next_entry w) (issued w) x (failed w) (trace w).
Definition set_failed x w := mkWorld (pools w) (monitors w) (entries w) (next_entry w) (issued w) (reserved w) x (trace w).
Definition emit_to ev w := mkWorld (pools w) (monitors w) (entries w) (next_entry w) (issued w) (reserved w) (failed w) (trace w ++ [ev]).

Definition set_objs l q := mkPool (m_monitor q) (m_poolVersion q) l (m_maxPooled q) (m_limit q) (m_outstanding q).
Definition set_version v q := mkPool (m_monitor q) v (m_objs q) (m_maxPooled q) (m_limit q) (m_outstanding q).
Definition set_maxPooled n q := mkPool (m_monitor q) (m_poolVersion q) (m_objs q) n (m_limit q) (m_outstanding q).
Definition set_limit n q := mkPool (m_monitor q) (m_poolVersion q) (m_objs q) (m_maxPooled q) n (m_outstanding q).
Definition set_outstanding n q := mkPool (m_monitor q) (m_poolVersion q) (m_objs q) (m_maxPooled q) (m_limit q) n.

(** [vector::pop_back]. *)
Definition pop_back (l : list nat) : list nat := take (length l - 1) l.

Definition limit_error : exn := autowiring_error "Attempted to set the limit to a nonzero value after it was set to zero".
Definition wait_for_error : exn := autowiring_error "Attempted to perform a timed wait on a pool that is already in rundown".
Definition wait_error : exn := autowiring_error "Attempted to perform a wait on a pool containing no entities".

(** What [ObtainElementUnsafe] comes to when the mutex is released: no object, an
    object of the cache, or an object to be constructed. *)
Inductive obtained := ob_null | ob_entry (e : nat) | ob_construct (version : Z).

Section pool.
  (** Whether the placement function ([ev_construct]) or the initial function throws
      in a history. *)
  Context (throws : list event → event → bool).
  Local Abbreviation M := (M world).

Definition emit (ev : event) : M unit := modify (emit_to ev).
Definition load_pool (p : nat) : M ObjectPool := w ← get; deref (pools w !! p).
Definition update_pool (p : nat) (f : ObjectPool → ObjectPool) : M unit := modify (λ w, set_pools (alter f p (pools w)) w).
Definition load_monitor (m : option nat) : M (nat * ObjectPoolMonitor) :=
  w ← get; i ← deref m; x ← deref (monitors w !! i); mret (i, x).

(** [delete entry]: the destructor of the object, and the memory. *)
Definition delete_entry (e : nat) : M unit := emit (ev_destroy e);; modify (λ w, set_entries (delete e (entries w)) w).

Definition ReturnUnsafe (p e : nat) : M bool :=
  q ← load_pool p;
  w ← get; en ← deref (entries w !! e);
  if Z.eqb (m_outstanding q) 0 then stuck undefined_behavior
  else
    update_pool p (set_outstanding (sz_dec (m_outstanding q)));;
    if Z.eqb (poolVersion en) (m_poolVersion q) && Z.ltb (Z.of_nat (length (m_objs q))) (m_maxPooled q) then
      update_pool p (set_objs (m_objs q ++ [e]));; mret true
    else mret false.

(** [PoolEntry::Return]; [held] is the monitor this thread has locked. *)
Definition Return (held : option nat) (e : nat) : M bool :=
  emit (ev_final e);;
  w ← get; en ← deref (entries w !! e);
  if bool_decide (held = Some (entry_monitor en)) then stuck blocked
  else
    m ← load_monitor (Some (entry_monitor en));
    if m_abandoned m.2 then mret false else ReturnUnsafe (owner m.2) e.

(** The deleter of the shared pointer made by [Wrap]. *)
Definition drop_entry (held : option nat) (e : nat) : M unit :=
  b ← Return held e; if (b : bool) then mret tt else delete_entry e.

Definition Wrap (held : option nat) (p e : nat) : M unit :=
  q ← load_pool p; _ ← load_monitor (m_monitor q);
  w ← get; emit (ev_initial e);;
  if throws (trace w) (ev_initial e) then drop_entry held e;; throw (user_exception e)
  else modify (λ w, set_issued (e :: issued w) w).

Definition ObtainElementUnsafe (p : nat) : M obtained :=
  q ← load_pool p;
  update_pool p (set_outstanding (sz_inc (m_outstanding q)));;
  match last (m_objs q) with
  | None => modify (λ w, set_reserved ((p, m_poolVersion q) :: reserved w) w);; mret (ob_construct (m_poolVersion q))
  | Some e => Wrap (m_monitor q) p e;; update_pool p (λ q, set_objs (pop_back (m_objs q)) q);; mret (ob_entry e)
  end.

(** [return Wrap(new PoolEntry(...))], without the mutex: the [i]-th construction. *)
Definition construct (i : nat) : M nat :=
  w ← get; r ← deref (reserved w !! i);
  modify (set_reserved (base.delete i (reserved w)));;
  q ← load_pool r.1; m ← deref (m_monitor q);
  if throws (trace w) (ev_construct (next_entry w)) then
    emit ev_failed;; modify (set_failed (m :: failed w));; throw (user_exception (next_entry w))
  else
    let e := next_entry w in
    emit (ev_construct e);;
    modify (set_next (S e));; modify (set_entries (<[e := mkEntry m r.2]> (entries w)));;
    Wrap None r.1 e;; mret e.

(** [operator()()], up to the release of the mutex. *)
Definition operator_call (p : nat) : M obtained :=
  q ← load_pool p; _ ← load_monitor (m_monitor q);
  if Z.leb (m_limit q) (m_outstanding q) then mret ob_null else ObtainElementUnsafe p.

(** All of [operator()()], in a thread that is not interrupted. *)
Definition obtain (p : nat) : M (option nat) :=
  r ← operator_call p;
  match r with
  | ob_null => mret None
  | ob_entry e => mret (Some e)
  | ob_construct _ => e ← construct 0; mret (Some e)
  end.

(** The last shared pointer to an object goes away. *)
Definition release (e : nat) : M unit :=
  modify (λ w, set_issued (base.filter (λ x, x ≠ e) (issued w)) w);; drop_entry None e.

Definition ClearCachedEntities (p : nat) : M unit :=
  q ← load_pool p; _ ← load_monitor (m_monitor q);
  for_each delete_entry (m_objs q);;
  update_pool p (set_objs []);; update_pool p (set_version (sz_inc (m_poolVersion q))).

(** The loop of [SetMaximumPooledEntities]; each turn is a critical section. *)
Fixpoint trim_loop (fuel p : nat) : M unit :=
  match fuel with
  | 0 => stuck out_of_fuel
  | S fuel' =>
    q ← load_pool p; _ ← load_monitor (m_monitor q);
    if Z.leb (Z.of_nat (length (m_objs q))) (m_maxPooled q) then mret tt
    else
      e ← deref (last (m_objs q));
      delete_entry e;; update_pool p (set_objs (pop_back (m_objs q)));; trim_loop fuel' p
  end.

Definition SetMaximumPooledEntities (p : nat) (maxPooled : Z) : M unit :=
  q ← load_pool p;
  update_pool p (set_maxPooled maxPooled);; trim_loop (S (length (m_objs q))) p.

Definition SetOutstandingLimit (p : nat) (limit : Z) : M unit :=
  q ← load_pool p; _ ← load_monitor (m_monitor q);
  if Z.eqb (m_limit q) 0 && negb (Z.eqb limit 0) then throw limit_error else update_pool p (set_limit limit).

(** [WaitFor]: whether the time runs out is up to the clock. *)
Definition WaitFor (timeout : bool) (p : nat) : M obtained :=
  q ← load_pool p; _ ← load_monitor (m_monitor q);
  if Z.eqb (m_limit q) 0 then throw wait_for_error
  else if Z.ltb (m_outstanding q) (m_limit q) then ObtainElementUnsafe p
  else if timeout then mret ob_null else stuck blocked.

(** [Wait]; a thread that is blocked evaluates the condition again when it wakes. *)
Definition Wait (p : nat) : M obtained :=
  q ← load_pool p; _ ← load_monitor (m_monitor q);
  if Z.eqb (m_limit q) 0 then throw wait_error
  else if Z.ltb (m_outstanding q) (m_limit q) then ObtainElementUnsafe p else stuck blocked.

(** [Preallocate]: the pointers obtained go away together. *)
Fixpoint obtain_n (n p : nat) (got : list nat) : M (list nat) :=
  match n with
  | 0 => mret got
  | S n' =>
    r ← try_catch (obtain p) (λ ex, for_each release got;; throw ex);
    obtain_n n' p (match r with Some e => e :: got | None => got end)
  end.

Definition Preallocate (p : nat) (reservation : nat) : M unit :=
  q ← load_pool p;
  let reservation := if Z.ltb (m_maxPooled q) (Z.of_nat reservation) then Z.to_nat (m_maxPooled q) else reservation in
  got ← obtain_n reservation p [];
  for_each release got.

Definition Rundown (p : nat) : M unit :=
  SetMaximumPooledEntities p 0;; SetOutstandingLimit p 0;;
  q ← load_pool p;
  if Z.eqb (m_outstanding q) 0 then mret tt else stuck blocked.

(** [Abandon]. *)
Definition Abandon (m : nat) : M unit :=
  modify (λ w, set_monitors (alter (λ x, mkMonitor true (owner x)) m (monitors w)) w).

Definition set_owner (m p : nat) : M unit :=
  modify (λ w, set_monitors (alter (λ x, mkMonitor (m_abandoned x) p) m (monitors w)) w).

(** [ObjectPool(limit, maxPooled, ...)]. *)
Definition ObjectPool_new (limit maxPooled : Z) : M nat :=
  w ← get;
  let p := fresh (dom (pools w)) in let m := fresh (dom (monitors w)) in
  modify (set_monitors (<[m := mkMonitor false p]> (monitors w)));;
  modify (set_pools (<[p := mkPool (Some m) 0 [] maxPooled limit 0]> (pools w)));; mret p.

(** [operator=(ObjectPool&& rhs)], with different objects. *)
Definition move_assign (p rhs : nat) : M unit :=
  q ← load_pool p;
  match m_monitor q with Some m => set_owner m rhs;; Abandon m | None => mret tt end;;
  r ← load_pool rhs; x ← load_monitor (m_monitor r);
  update_pool rhs (λ r, mkPool (m_monitor q) (m_poolVersion r) (m_objs q) (m_maxPooled r) (m_limit r) (m_outstanding r));;
  update_pool p (λ _, mkPool (m_monitor r) (m_poolVersion r) (m_objs r) (m_maxPooled r) (m_limit r) (m_outstanding r));;
  set_owner x.1 p.

(** [ObjectPool(ObjectPool&& rhs)]. *)
Definition ObjectPool_move (rhs : nat) : M nat :=
  w ← get;
  let p := fresh (dom (pools w)) in
  modify (set_pools (<[p := mkPool None 0 [] size_max size_max 0]> (pools w)));; move_assign p rhs;; mret p.

(** [~ObjectPool]. *)
Definition ObjectPool_dtor (p : nat) : M unit :=
  q ← load_pool p;
  match m_monitor q with
  | None => mret tt
  | Some m => Abandon m;; ClearCachedEntities p
  end;;
  modify (λ w, set_pools (delete p (pools w)) w).

(** What the threads of a client do. *)
Inductive pool_op :=
  | po_new (limit maxPooled : Z) | po_move (rhs : nat) | po_assign (p rhs : nat) | po_dtor (p : nat)
  | po_call (p : nat) | po_wait (p : nat) | po_wait_for (timeout : bool) (p : nat) | po_construct (i : nat)
  | po_release (e : nat) | po_clear (p : nat) | po_max (p : nat) (n : Z) | po_limit (p : nat) (n : Z)
  | po_preallocate (p n : nat) | po_rundown (p : nat).

Definition run_op (o : pool_op) : M unit :=
  match o with
  | po_new limit maxPooled => _ ← ObjectPool_new limit maxPooled; mret tt
  | po_move rhs => _ ← ObjectPool_move rhs; mret tt
  | po_assign p rhs => move_assign p rhs
  | po_dtor p => ObjectPool_dtor p
  | po_call p => _ ← operator_call p; mret tt
  | po_wait p => _ ← Wait p; mret tt
  | po_wait_for timeout p => _ ← WaitFor timeout p; mret tt
  | po_construct i => _ ← construct i; mret tt
  | po_release e => release e
  | po_clear p => ClearCachedEntities p
  | po_max p n => SetMaximumPooledEntities p n
  | po_limit p n => SetOutstandingLimit p n
  | po_preallocate p n => Preallocate p n
  | po_rundown p => Rundown p
  end.

Definition run_ops (l : list pool_op) (w : world) : world := foldl (λ w o, (run_op o w).2) w l.
End pool.
