(* ===== verification/ObjectPoolFacts.v ===== *)
(** * ObjectPool: objects are neither lost nor used twice

    For all sequences of operations: the life of every object, and the count of the
    objects outstanding. *)
From stdpp Require Import base gmap list strings.
From Stdlib Require Import ZArith Lia.
From S2P Require Import Prelude.
From S2P Require Import ObjectPool.

(** ** The life of an object *)
(** Never constructed, in the hands of its pool, in the hands of a client,
    destroyed; or some step was not allowed. *)
Inductive stage := s_none | s_idle | s_out | s_dead | s_bad.

#[export] Instance stage_eq_dec : EqDecision stage.
Proof. solve_decision. Defined.

Definition advance (e : nat) (st : stage) (ev : event) : stage :=
  match ev with
  | ev_construct x => if Nat.eqb x e then match st with s_none => s_idle | _ => s_bad end else st
  | ev_initial x => if Nat.eqb x e then match st with s_idle => s_out | _ => s_bad end else st
  | ev_final x => if Nat.eqb x e then match st with s_out => s_idle | _ => s_bad end else st
  | ev_destroy x => if Nat.eqb x e then match st with s_idle => s_dead | _ => s_bad end else st
  | ev_failed => st
  end.

Definition stage_of (t : list event) (e : nat) : stage := foldl (advance e) s_none t.

Lemma stage_snoc t ev e : stage_of (t ++ [ev]) e = advance e (stage_of t e) ev.
Proof. unfold stage_of. by rewrite foldl_app. Qed.

Definition event_of (ev : event) : option nat :=
  match ev with ev_construct e | ev_initial e | ev_final e | ev_destroy e => Some e | ev_failed => None end.

Lemma stage_other t ev e : event_of ev ≠ Some e → stage_of (t ++ [ev]) e = stage_of t e.
Proof. intros H. rewrite stage_snoc. destruct ev; simpl in *; try done; destruct (Nat.eqb_spec e0 e); congruence. Qed.

(** Entries, the next entry, the entries issued, the history, and what each pool
    has cached. *)
Record life (entries : gmap nat PoolEntry) (next : nat) (issued : list nat) (t : list event) (caches : gmap nat (list nat)) : Prop := {
  l_issued : NoDup issued;
  l_nodup : ∀ p l, caches !! p = Some l → NoDup l;
  l_once : ∀ p p' l l' e, caches !! p = Some l → caches !! p' = Some l' → e ∈ l → e ∈ l' → p = p';
  l_out : ∀ e, e ∈ issued → is_Some (entries !! e) ∧ stage_of t e = s_out;
  l_idle : ∀ p l e, caches !! p = Some l → e ∈ l → is_Some (entries !! e) ∧ stage_of t e = s_idle;
  l_live : ∀ e, is_Some (entries !! e) → e < next ∧ (e ∈ issued ∨ ∃ p l, caches !! p = Some l ∧ e ∈ l);
  l_dead : ∀ e, entries !! e = None → stage_of t e = if decide (e < next) then s_dead else s_none }.

Definition drop (e : nat) (l : list nat) : list nat := base.filter (λ x, x ≠ e) l.

Lemma elem_drop e x l : x ∈ drop e l ↔ x ≠ e ∧ x ∈ l.
Proof. unfold drop. by rewrite list_elem_of_filter. Qed.

Section life.
  Context (entries : gmap nat PoolEntry) (next : nat) (issued : list nat) (t : list event) (caches : gmap nat (list nat)).
  Context (L : life entries next issued t caches).

Lemma issued_not_cached e p l : e ∈ issued → caches !! p = Some l → e ∉ l.
Proof. intros He Hp Hl. destruct (l_out _ _ _ _ _ L e He), (l_idle _ _ _ _ _ L p l e Hp Hl). congruence. Qed.

(** A client gives an object back to a cache. *)
Lemma life_return e p l : e ∈ issued → caches !! p = Some l →
  life entries next (drop e issued) (t ++ [ev_final e]) (<[p := l ++ [e]]> caches).
Proof.
  intros He Hp. pose proof (issued_not_cached e) as Hnc. pose proof L as [H1 H2 H3 H4 H5 H6 H7].
  assert (stage_of (t ++ [ev_final e]) e = s_idle) as Hs.
  { rewrite stage_snoc. destruct (H4 e He) as [_ ->]. simpl. by rewrite Nat.eqb_refl. }
  assert (∀ x, x ≠ e → stage_of (t ++ [ev_final e]) x = stage_of t x) as Ho by (intros x n; apply stage_other; simpl; congruence).
  split.
  - by apply NoDup_filter.
  - intros p' l' [[<- <-]|[_ ?]]%lookup_insert_Some; [|by eapply H2]. apply NoDup_app. split_and!; [by eapply H2| |apply NoDup_singleton].
    intros x Hx ->%list_elem_of_singleton. by eapply Hnc.
  - intros p1 p2 l1 l2 x [[<- <-]|[? ?]]%lookup_insert_Some [[<- <-]|[? ?]]%lookup_insert_Some; [done| | |by eapply H3].
    + intros [?| ->%list_elem_of_singleton]%elem_of_app ?; [by eapply H3|]. exfalso. by eapply Hnc.
    + intros ? [?| ->%list_elem_of_singleton]%elem_of_app; [by eapply H3|]. exfalso. by eapply Hnc.
  - intros x [n Hx]%elem_drop. rewrite Ho by done. by apply H4.
  - intros p' l' x [[<- <-]|[_ Hl]]%lookup_insert_Some Hx.
    + apply elem_of_app in Hx as [Hx| ->%list_elem_of_singleton]; [|split; [by apply H4|done]].
      rewrite Ho; [by eapply H5|]. intros ->. by eapply Hnc.
    + rewrite Ho; [by eapply H5|]. intros ->. by eapply Hnc.
  - intros x Hx. destruct (H6 x Hx) as [? Hwhere]. split; [done|]. destruct (decide (x = e)) as [->|n].
    + right. exists p, (l ++ [e]). rewrite lookup_insert_eq. split; [done|]. apply elem_of_app. right. left.
    + destruct Hwhere as [?|(p' & l' & Hl & ?)]; [left; by apply elem_drop|right]. destruct (decide (p' = p)) as [->|np].
      * exists p, (l ++ [e]). rewrite lookup_insert_eq. split; [done|]. apply elem_of_app. left. congruence.
      * exists p', l'. by rewrite lookup_insert_ne.
  - intros x Hx. rewrite Ho; [by apply H7|]. intros ->. destruct (H4 e He) as [[] _]. congruence.
Qed.

(** A client's last pointer goes away, and the object with it. *)
Lemma life_destroy e : e ∈ issued → life (delete e entries) next (drop e issued) ((t ++ [ev_final e]) ++ [ev_destroy e]) caches.
Proof.
  intros He. pose proof (issued_not_cached e) as Hnc. pose proof L as [H1 H2 H3 H4 H5 H6 H7].
  assert (stage_of ((t ++ [ev_final e]) ++ [ev_destroy e]) e = s_dead) as Hs.
  { rewrite !stage_snoc. destruct (H4 e He) as [_ ->]. simpl. by rewrite Nat.eqb_refl. }
  assert (∀ x, x ≠ e → stage_of ((t ++ [ev_final e]) ++ [ev_destroy e]) x = stage_of t x) as Ho.
  { intros x n. rewrite !stage_other by (simpl; congruence). done. }
  split; [by apply NoDup_filter|done|done| | | |].
  - intros x [n Hx]%elem_drop. rewrite Ho, lookup_delete_ne by done. by apply H4.
  - intros p l x Hp Hx. assert (x ≠ e) by (intros ->; by eapply Hnc). rewrite Ho, lookup_delete_ne by done. by eapply H5.
  - intros x Hx. destruct (decide (x = e)) as [->|n]; [rewrite lookup_delete_eq in Hx; by destruct Hx|].
    rewrite lookup_delete_ne in Hx by done. destruct (H6 x Hx) as [? [?|?]]; split; try done; [left; by apply elem_drop|by right].
  - intros x Hx. destruct (decide (x = e)) as [->|n]; [|rewrite Ho by done; apply H7; by rewrite lookup_delete_ne in Hx].
    rewrite Hs. destruct (H4 e He) as [Hl _]. destruct (H6 e Hl) as [? _]. by rewrite decide_True.
Qed.

(** A cached object is issued. *)
Lemma life_issue e p l : caches !! p = Some (l ++ [e]) →
  life entries next (e :: issued) (t ++ [ev_initial e]) (<[p := l]> caches).
Proof.
  intros Hp. pose proof L as [H1 H2 H3 H4 H5 H6 H7].
  assert (e ∈ l ++ [e]) as He by (apply elem_of_app; right; left). destruct (H5 _ _ _ Hp He) as [Hin Hst].
  pose proof (H2 _ _ Hp) as Hnd. apply NoDup_app in Hnd as (Hl & Hnot & _).
  assert (e ∉ l) as Hel by (intros Hx; apply (Hnot e Hx); left).
  assert (e ∉ issued) as Hei by (intros Hx; by apply (issued_not_cached e p (l ++ [e]))).
  assert (stage_of (t ++ [ev_initial e]) e = s_out) as Hs by (rewrite stage_snoc, Hst; simpl; by rewrite Nat.eqb_refl).
  assert (∀ x, x ≠ e → stage_of (t ++ [ev_initial e]) x = stage_of t x) as Ho by (intros x n; apply stage_other; simpl; congruence).
  assert (∀ x, x ∈ l → x ∈ l ++ [e]) as Hsub by (intros; apply elem_of_app; by left).
  split.
  - by constructor.
  - intros p' l' [[<- <-]|[_ ?]]%lookup_insert_Some; [done|by eapply H2].
  - intros p1 p2 l1 l2 x [[<- <-]|[? ?]]%lookup_insert_Some [[<- <-]|[? ?]]%lookup_insert_Some ??;
      [done|eapply (H3 p p2 _ _ x)|eapply (H3 p1 p _ _ x)|eapply (H3 p1 p2 _ _ x)]; eauto.
  - intros x [->|Hx]%elem_of_cons; [by split|]. rewrite Ho; [by apply H4|]. by intros ->.
  - intros p' l' x [[<- <-]|[np Hl']]%lookup_insert_Some Hx.
    + rewrite Ho; [by eapply H5; [exact Hp|auto]|]. by intros ->.
    + rewrite Ho; [by eapply H5|]. intros ->. destruct np. by eapply H3.
  - intros x Hx. destruct (H6 x Hx) as [? Hwhere]. split; [done|]. destruct (decide (x = e)) as [->|n]; [left; left|].
    destruct Hwhere as [?|(p' & l' & Hl' & Hx')]; [left; by right|right]. destruct (decide (p' = p)) as [->|np].
    + exists p, l. rewrite lookup_insert_eq. split; [done|]. rewrite Hp in Hl'. injection Hl' as <-.
      apply elem_of_app in Hx' as [|?%list_elem_of_singleton]; done.
    + exists p', l'. by rewrite lookup_insert_ne.
  - intros x Hx. rewrite Ho; [by apply H7|]. intros ->. destruct Hin. congruence.
Qed.

(** A new object is issued. *)
Lemma life_construct en : life (<[next := en]> entries) (S next) (next :: issued) ((t ++ [ev_construct next]) ++ [ev_initial next]) caches.
Proof.
  pose proof L as [H1 H2 H3 H4 H5 H6 H7].
  assert (entries !! next = None) as Hn by (apply eq_None_not_Some; intros Hs; destruct (H6 _ Hs); lia).
  assert (stage_of ((t ++ [ev_construct next]) ++ [ev_initial next]) next = s_out) as Hs.
  { rewrite !stage_snoc, (H7 _ Hn), decide_False by lia. simpl. by rewrite Nat.eqb_refl. }
  assert (∀ x, x ≠ next → stage_of ((t ++ [ev_construct next]) ++ [ev_initial next]) x = stage_of t x) as Ho.
  { intros x n. rewrite !stage_other by (simpl; congruence). done. }
  assert (∀ x, is_Some (entries !! x) → x ≠ next) as Hne by (intros x [] ->; congruence).
  split; [|done|done| | | |].
  - constructor; [|done]. intros Hx. destruct (H4 _ Hx) as [Hx' _]. by apply Hne in Hx'.
  - intros x [->|Hx]%elem_of_cons; [by rewrite lookup_insert_eq|]. destruct (H4 _ Hx) as [Hx' ?].
    pose proof (Hne _ Hx'). by rewrite lookup_insert_ne, Ho.
  - intros p l x Hp Hx. destruct (H5 _ _ _ Hp Hx) as [Hx' ?]. pose proof (Hne _ Hx'). by rewrite lookup_insert_ne, Ho.
  - intros x Hx. destruct (decide (x = next)) as [->|n]; [split; [lia|left; left]|].
    rewrite lookup_insert_ne in Hx by done. destruct (H6 x Hx) as [? [?|?]]; (split; [lia|]); [left; by right|by right].
  - intros x [Hx n]%lookup_insert_None. rewrite Ho, H7 by done. case_decide as E1; case_decide as E2; try done; lia.
Qed.

(** A cached object is destroyed. *)
Lemma life_uncache e p l1 l2 : caches !! p = Some (l1 ++ e :: l2) →
  life (delete e entries) next issued (t ++ [ev_destroy e]) (<[p := l1 ++ l2]> caches).
Proof.
  intros Hp. pose proof L as [H1 H2 H3 H4 H5 H6 H7].
  assert (e ∈ l1 ++ e :: l2) as He by (apply elem_of_app; right; left). destruct (H5 _ _ _ Hp He) as [Hin Hst].
  pose proof (H2 _ _ Hp) as Hnd. rewrite <-(Permutation_middle l1 l2 e) in Hnd.
  apply NoDup_cons in Hnd as [Hel Hnd].
  assert (e ∉ issued) as Hei by (intros Hx; by eapply issued_not_cached).
  assert (stage_of (t ++ [ev_destroy e]) e = s_dead) as Hs by (rewrite stage_snoc, Hst; simpl; by rewrite Nat.eqb_refl).
  assert (∀ x, x ≠ e → stage_of (t ++ [ev_destroy e]) x = stage_of t x) as Ho by (intros x n; apply stage_other; simpl; congruence).
  assert (∀ x, x ∈ l1 ++ l2 → x ∈ l1 ++ e :: l2) as Hsub by (intros x; rewrite !elem_of_app, elem_of_cons; tauto).
  split; [done| | | | | |].
  - intros p' l' [[<- <-]|[_ ?]]%lookup_insert_Some; [done|by eapply H2].
  - intros p1 p2 m1 m2 x [[<- <-]|[? ?]]%lookup_insert_Some [[<- <-]|[? ?]]%lookup_insert_Some ??;
      [done|eapply (H3 p p2 _ _ x)|eapply (H3 p1 p _ _ x)|eapply (H3 p1 p2 _ _ x)]; eauto.
  - intros x Hx. assert (x ≠ e) by (by intros ->). rewrite Ho, lookup_delete_ne by done. by apply H4.
  - intros p' l' x [[<- <-]|[np Hl']]%lookup_insert_Some Hx.
    + assert (x ≠ e) by (by intros ->). rewrite Ho, lookup_delete_ne by done. eapply H5; [exact Hp|auto].
    + assert (x ≠ e) by (intros ->; destruct np; by eapply H3). rewrite Ho, lookup_delete_ne by done. by eapply H5.
  - intros x Hx. destruct (decide (x = e)) as [->|n]; [rewrite lookup_delete_eq in Hx; by destruct Hx|].
    rewrite lookup_delete_ne in Hx by done. destruct (H6 x Hx) as [? Hwhere]. split; [done|].
    destruct Hwhere as [?|(p' & l' & Hl' & Hx')]; [by left|right]. destruct (decide (p' = p)) as [->|np].
    + exists p, (l1 ++ l2). rewrite lookup_insert_eq. split; [done|]. rewrite Hp in Hl'. injection Hl' as <-.
      rewrite elem_of_app, elem_of_cons in Hx'. rewrite elem_of_app. tauto.
    + exists p', l'. by rewrite lookup_insert_ne.
  - intros x Hx. destruct (decide (x = e)) as [->|n]; [|rewrite Ho by done; apply H7; by rewrite lookup_delete_ne in Hx].
    rewrite Hs. destruct (H6 e Hin) as [? _]. by rewrite decide_True.
Qed.
End life.

Section life_pools.
  Context (entries : gmap nat PoolEntry) (next : nat) (issued : list nat) (t : list event) (caches : gmap nat (list nat)).
  Context (L : life entries next issued t caches).

Lemma life_failed : life entries next issued (t ++ [ev_failed]) caches.
Proof.
  destruct L as [H1 H2 H3 H4 H5 H6 H7].
  split; try done; [intros e|intros p l e|intros e]; rewrite stage_other by done; [apply H4|apply H5|apply H7].
Qed.

(** Pools may be made and unmade while they have nothing cached. *)
Lemma life_empty p : caches !! p = None → life entries next issued t (<[p := []]> caches).
Proof.
  intros Hp. destruct L as [H1 H2 H3 H4 H5 H6 H7]. split; try done.
  - intros p' l' [[<- <-]|[_ ?]]%lookup_insert_Some; [constructor|by eapply H2].
  - intros p1 p2 l1 l2 x [[<- <-]|[? ?]]%lookup_insert_Some [[<- <-]|[? ?]]%lookup_insert_Some Hx Hx';
      [done|by apply elem_of_nil in Hx|by apply elem_of_nil in Hx'|by eapply H3].
  - intros p' l' x [[<- <-]|[_ ?]]%lookup_insert_Some Hx; [by apply elem_of_nil in Hx|by eapply H5].
  - intros x Hx. destruct (H6 x Hx) as [? [?|(p' & l' & Hl & ?)]]; split; try done; [by left|right]. exists p', l'.
    rewrite lookup_insert_ne; [done|]. congruence.
Qed.

Lemma life_unmake p : caches !! p = Some [] → life entries next issued t (delete p caches).
Proof.
  intros Hp. destruct L as [H1 H2 H3 H4 H5 H6 H7]. split; try done.
  - intros p' l' [_ ?]%lookup_delete_Some. by eapply H2.
  - intros p1 p2 l1 l2 x [_ ?]%lookup_delete_Some [_ ?]%lookup_delete_Some. by eapply H3.
  - intros p' l' x [_ ?]%lookup_delete_Some. by eapply H5.
  - intros x Hx. destruct (H6 x Hx) as [? [?|(p' & l' & Hl & Hx')]]; split; try done; [by left|right]. exists p', l'.
    rewrite lookup_delete_ne; [done|]. intros <-. rewrite Hp in Hl. injection Hl as <-. by apply elem_of_nil in Hx'.
Qed.

Lemma life_swap p1 p2 l1 l2 : p1 ≠ p2 → caches !! p1 = Some l1 → caches !! p2 = Some l2 →
  life entries next issued t (<[p1 := l2]> (<[p2 := l1]> caches)).
Proof.
  intros n Hp1 Hp2. destruct L as [H1 H2 H3 H4 H5 H6 H7].
  set (σ := λ p, if decide (p = p1) then p2 else if decide (p = p2) then p1 else p).
  assert (∀ p l, <[p1 := l2]> (<[p2 := l1]> caches) !! p = Some l ↔ caches !! σ p = Some l) as Hσ.
  { intros p l. unfold σ. destruct (decide (p = p1)) as [->|]; [rewrite lookup_insert_eq; split; congruence|].
    rewrite lookup_insert_ne by done. destruct (decide (p = p2)) as [->|]; [rewrite lookup_insert_eq; split; congruence|].
    by rewrite lookup_insert_ne. }
  assert (∀ p, σ (σ p) = p) as Hinv by (intros p; unfold σ; repeat case_decide; congruence).
  split; try done.
  - intros p l Hl%Hσ. by eapply H2.
  - intros p p' l l' x Hl%Hσ Hl'%Hσ ??. rewrite <-(Hinv p), <-(Hinv p'). f_equal. by eapply H3.
  - intros p l x Hl%Hσ. by eapply H5.
  - intros x Hx. destruct (H6 x Hx) as [? [?|(p & l & Hl & ?)]]; split; try done; [by left|right].
    exists (σ p), l. by rewrite Hσ, Hinv.
Qed.
End life_pools.

(** ** Counting *)
Definition issued_in (en : gmap nat PoolEntry) (l : list nat) (m : nat) : nat :=
  length (base.filter (λ e, entry_monitor <$> en !! e = Some m) l).

Definition reserved_in (l : list (nat * Z)) (p : nat) : nat := length (base.filter (λ r, r.1 = p) l).

Definition failed_in (l : list nat) (m : nat) : nat := length (base.filter (λ x, x = m) l).

Arguments issued_in : simpl never.
Arguments reserved_in : simpl never.
Arguments failed_in : simpl never.

Definition one (b : bool) : nat := if b then 1 else 0.

Lemma filter_nil_forall {A} (P : A → Prop) `{∀ x, Decision (P x)} l : (∀ x, x ∈ l → ¬ P x) → base.filter P l = [].
Proof.
  induction l as [|x l IH]; intros Hn; [done|]. rewrite filter_cons_False by (apply Hn; left). apply IH.
  intros y Hy. apply Hn. by right.
Qed.

Lemma issued_in_ext en en' l m : (∀ e, e ∈ l → en !! e = en' !! e) → issued_in en l m = issued_in en' l m.
Proof.
  unfold issued_in. induction l as [|x l IH]; intros H; [done|]. rewrite !filter_cons, <-(H x) by left.
  assert (∀ e, e ∈ l → en !! e = en' !! e) as H' by (intros; apply H; by right). specialize (IH H').
  case_decide; simpl; by rewrite IH.
Qed.

Lemma issued_in_cons en e x l m : en !! e = Some x →
  issued_in en (e :: l) m = one (bool_decide (entry_monitor x = m)) + issued_in en l m.
Proof.
  intros H. unfold issued_in. rewrite filter_cons, H. simpl. case_decide as E; case_bool_decide; simpl; congruence.
Qed.

Lemma issued_in_drop en e x l m : NoDup l → e ∈ l → en !! e = Some x →
  issued_in en l m = one (bool_decide (entry_monitor x = m)) + issued_in en (drop e l) m.
Proof.
  intros Hnd He Hx. rewrite <-(issued_in_cons _ e x) by done. unfold issued_in. apply Permutation_length, filter_Permutation.
  apply NoDup_Permutation; [done| |].
  - constructor; [|by apply NoDup_filter]. by intros [? _]%elem_drop.
  - intros y. rewrite elem_of_cons, elem_drop. destruct (decide (y = e)) as [->|]; tauto.
Qed.

Lemma reserved_in_cons r l p : reserved_in (r :: l) p = one (bool_decide (r.1 = p)) + reserved_in l p.
Proof. unfold reserved_in. rewrite filter_cons. case_decide; case_bool_decide; simpl; congruence. Qed.

Lemma reserved_in_delete i r l p : l !! i = Some r → reserved_in l p = one (bool_decide (r.1 = p)) + reserved_in (base.delete i l) p.
Proof. intros H. rewrite <-reserved_in_cons. unfold reserved_in. apply Permutation_length, filter_Permutation. by apply delete_Permutation. Qed.

Lemma failed_in_cons x l m : failed_in (x :: l) m = one (bool_decide (x = m)) + failed_in l m.
Proof. unfold failed_in. rewrite filter_cons. case_decide; case_bool_decide; simpl; congruence. Qed.

(** ** The invariant *)
Definition abandoned (w : world) (m : nat) : Prop := ∃ mo, monitors w !! m = Some mo ∧ m_abandoned mo = true.

(** An entry of the cache of [q]. *)
Definition tied (w : world) (q : ObjectPool) (en : PoolEntry) : Prop :=
  m_monitor q = Some (entry_monitor en) ∧ (¬ abandoned w (entry_monitor en) → poolVersion en = m_poolVersion q).

Definition in_range (q : ObjectPool) : Prop := in_size (m_outstanding q) ∧ in_size (m_limit q) ∧ in_size (m_maxPooled q).

Record inv (w : world) : Prop := {
  i_life : life (entries w) (next_entry w) (issued w) (trace w) (m_objs <$> pools w);
  i_tied : ∀ p q e, pools w !! p = Some q → e ∈ m_objs q → ∃ en, entries w !! e = Some en ∧ tied w q en;
  i_monitor : ∀ p q m, pools w !! p = Some q → m_monitor q = Some m → is_Some (monitors w !! m);
  i_moved : ∀ p q, pools w !! p = Some q → m_monitor q = None → m_objs q = [];
  i_unique : ∀ p p' q q' m, pools w !! p = Some q → pools w !! p' = Some q' → m_monitor q = Some m → m_monitor q' = Some m → p = p';
  i_owner : ∀ m mo, monitors w !! m = Some mo → m_abandoned mo = false → ∃ q, pools w !! owner mo = Some q ∧ m_monitor q = Some m;
  i_entry : ∀ e en, entries w !! e = Some en → is_Some (monitors w !! entry_monitor en);
  i_reserved : ∀ r, r ∈ reserved w → ∃ q, pools w !! r.1 = Some q ∧ is_Some (m_monitor q);
  i_failed : ∀ m, m ∈ failed w → is_Some (monitors w !! m);
  i_range : ∀ p q, pools w !! p = Some q → in_range q;
  i_count : ∀ p q m, pools w !! p = Some q → m_monitor q = Some m → ¬ abandoned w m →
    m_outstanding q = Z.of_nat (issued_in (entries w) (issued w) m + reserved_in (reserved w) p + failed_in (failed w) m) ∧
    (Z.of_nat (length (m_objs q)) ≤ m_maxPooled q)%Z }.

Lemma caches_insert (p : nat) (q : ObjectPool) (ps : gmap nat ObjectPool) : m_objs <$> <[p := q]> ps = <[p := m_objs q]> (m_objs <$> ps).
Proof. apply fmap_insert. Qed.

Lemma caches_lookup (p : nat) (q : ObjectPool) (ps : gmap nat ObjectPool) : ps !! p = Some q → (m_objs <$> ps) !! p = Some (m_objs q).
Proof. intros H. by rewrite lookup_fmap, H. Qed.

(** A step that concerns one pool, and keeps its monitor. *)
Lemma inv_change w p q q' en' next' is' rs' fl' t' :
  inv w → pools w !! p = Some q → m_monitor q' = m_monitor q →
  life en' next' is' t' (<[p := m_objs q']> (m_objs <$> pools w)) →
  (∀ e, e ∈ m_objs q' → ∃ en, en' !! e = Some en ∧ tied w q' en) →
  (m_monitor q = None → m_objs q' = []) →
  (∀ p2 q2 e, p2 ≠ p → pools w !! p2 = Some q2 → e ∈ m_objs q2 → en' !! e = entries w !! e) →
  (∀ e en, en' !! e = Some en → is_Some (monitors w !! entry_monitor en)) →
  (∀ r, r ∈ rs' → r ∈ reserved w ∨ r.1 = p ∧ is_Some (m_monitor q)) →
  (∀ m, m ∈ fl' → m ∈ failed w ∨ m_monitor q = Some m) →
  in_range q' →
  (∀ m, m_monitor q = Some m → ¬ abandoned w m →
     m_outstanding q' = Z.of_nat (issued_in en' is' m + reserved_in rs' p + failed_in fl' m) ∧
     (Z.of_nat (length (m_objs q')) ≤ m_maxPooled q')%Z) →
  (∀ m, m_monitor q ≠ Some m → issued_in en' is' m = issued_in (entries w) (issued w) m ∧ failed_in fl' m = failed_in (failed w) m) →
  (∀ p', p' ≠ p → reserved_in rs' p' = reserved_in (reserved w) p') →
  inv (mkWorld (<[p := q']> (pools w)) (monitors w) en' next' is' rs' fl' t').
Proof.
  intros [I1 I2 I3 I4 I5 I6 I7 I8 If I9 I10] Hp Hm Hlife Htied Hmoved Hother Hentry Hres Hfail Hrange Hcount Hissued Hreserved.
  split; cbn [pools monitors entries next_entry issued reserved failed trace].
  - by rewrite caches_insert.
  - intros p2 q2 e [[<- <-]|[n H2]]%lookup_insert_Some He; [by apply Htied|].
    destruct (I2 _ _ _ H2 He) as (en & Hen & ?). exists en. split; [|done]. by rewrite (Hother p2 q2 e) by done.
  - intros p2 q2 m [[<- <-]|[n H2]]%lookup_insert_Some Hm2; [rewrite Hm in Hm2|]; by eapply I3.
  - intros p2 q2 [[<- <-]|[n H2]]%lookup_insert_Some Hm2; [rewrite Hm in Hm2; auto|by eapply I4].
  - intros p1 p2 q1 q2 m [[<- <-]|[? ?]]%lookup_insert_Some [[<- <-]|[? ?]]%lookup_insert_Some ??;
      [done|eapply (I5 p p2 q q2)|eapply (I5 p1 p q1 q)|eapply (I5 p1 p2 q1 q2)]; eauto; congruence.
  - intros m mo Hmo Ha. destruct (I6 m mo Hmo Ha) as (q2 & Hq2 & Hm2). destruct (decide (owner mo = p)) as [E|n].
    + exists q'. rewrite E, lookup_insert_eq. split; [done|]. rewrite E in Hq2. congruence.
    + exists q2. by rewrite lookup_insert_ne.
  - done.
  - intros r [Hr|[E Hr]]%Hres.
    + destruct (I8 r Hr) as (q2 & Hq2 & Hm2). destruct (decide (r.1 = p)) as [E|n].
      * exists q'. rewrite E, lookup_insert_eq, Hm. split; [done|]. congruence.
      * exists q2. by rewrite lookup_insert_ne.
    + exists q'. by rewrite E, lookup_insert_eq, Hm.
  - intros m [?|?]%Hfail; [by apply If|by eapply I3].
  - intros p2 q2 [[<- <-]|[n H2]]%lookup_insert_Some; [done|by eapply I9].
  - intros p2 q2 m [[<- <-]|[n H2]]%lookup_insert_Some Hm2 Ha; [apply Hcount; [congruence|done]|].
    destruct (I10 _ _ _ H2 Hm2 Ha) as [-> Hlen]. split; [|done].
    assert (m_monitor q ≠ Some m) as Hne by (intros E; apply n; by eapply I5).
    destruct (Hissued m Hne) as [-> ->]. by rewrite Hreserved.
Qed.

Lemma inv_keep w p q en' next' is' rs' fl' t' :
  inv w → pools w !! p = Some q →
  life en' next' is' t' (m_objs <$> pools w) →
  (∀ p2 q2 e, pools w !! p2 = Some q2 → e ∈ m_objs q2 → en' !! e = entries w !! e) →
  (∀ e en, en' !! e = Some en → is_Some (monitors w !! entry_monitor en)) →
  (∀ r, r ∈ rs' → r ∈ reserved w) →
  (∀ m, m ∈ fl' → m ∈ failed w ∨ m_monitor q = Some m) →
  (∀ m, m_monitor q = Some m → ¬ abandoned w m →
     m_outstanding q = Z.of_nat (issued_in en' is' m + reserved_in rs' p + failed_in fl' m)) →
  (∀ m, m_monitor q ≠ Some m → issued_in en' is' m = issued_in (entries w) (issued w) m ∧ failed_in fl' m = failed_in (failed w) m) →
  (∀ p', p' ≠ p → reserved_in rs' p' = reserved_in (reserved w) p') →
  inv (mkWorld (pools w) (monitors w) en' next' is' rs' fl' t').
Proof.
  intros I Hp Hl He Hen Hr Hf Hc Hi Hres. rewrite <-(insert_id (pools w) p q) by done. apply (inv_change w p q q); try done.
  - by rewrite insert_id by (by apply caches_lookup).
  - intros e Hx. rewrite (He p q) by done. exact (i_tied _ I p q e Hp Hx).
  - by eapply (i_moved _ I).
  - intros p2 q2 e _. apply He.
  - intros r H. left. by apply Hr.
  - by eapply (i_range _ I).
  - intros m Hm Ha. split; [by apply Hc|]. by destruct (i_count _ I _ _ _ Hp Hm Ha).
Qed.

Lemma outstanding_issued w p q e en m : inv w → pools w !! p = Some q → m_monitor q = Some m → ¬ abandoned w m →
  e ∈ issued w → entries w !! e = Some en → entry_monitor en = m → (0 < m_outstanding q)%Z.
Proof.
  intros I Hp Hm Ha He Hen Em. destruct (i_count _ I _ _ _ Hp Hm Ha) as [-> _].
  rewrite (issued_in_drop _ e en) by (done || by destruct (i_life _ I)). rewrite bool_decide_true by done. simpl. lia.
Qed.

Section ops.
  Context (throws : list event → event → bool).
  Context (calm : ∀ t e, throws t (ev_initial e) = false).

(** [m] keeps the invariant and stays defined; [Q] holds of its result, [X] if it
    throws. *)
Definition keeps {A} (m : M world A) (Q : A → world → Prop) (X : world → Prop) (w : world) : Prop :=
  match m w with
  | (Ret a, w') => inv w' ∧ Q a w'
  | (Throw _, w') => inv w' ∧ X w'
  | (Stuck r, w') => r = blocked ∧ inv w'
  end.

Lemma keeps_bind {A B} (m : M world A) (k : A → M world B) Q R X w :
  keeps m Q X w → (∀ a w', inv w' → Q a w' → keeps (k a) R X w') → keeps (m ≫= k) R X w.
Proof. unfold keeps. munfold. intros H Hk. destruct (m w) as [[] ?]; [|done..]. destruct H. by apply Hk. Qed.

Lemma keeps_conseq {A} (m : M world A) (Q R : A → world → Prop) (X Y : world → Prop) w :
  keeps m Q X w → (∀ a w', Q a w' → R a w') → (∀ w', X w' → Y w') → keeps m R Y w.
Proof. unfold keeps. intros H HQ HX. destruct (m w) as [[] ?]; [destruct H; auto..|done]. Qed.

Lemma keeps_catch {A} (m : M world A) h Q X Y w :
  keeps m Q Y w → (∀ ex w', inv w' → Y w' → keeps (h ex) Q X w') → keeps (try_catch m h) Q X w.
Proof. unfold keeps, try_catch. intros H Hh. destruct (m w) as [[] ?]; [done| |done]. destruct H. by apply Hh. Qed.

(** A pool that has a monitor. *)
Definition usable (w : world) (p : nat) : Prop := ∃ q, pools w !! p = Some q ∧ is_Some (m_monitor q).

Definition more_usable (w w' : world) : Prop := ∀ p, usable w p → usable w' p.

Lemma load_monitor_run w p q : inv w → pools w !! p = Some q → is_Some (m_monitor q) →
  ∃ m mo, m_monitor q = Some m ∧ monitors w !! m = Some mo ∧ load_monitor (m_monitor q) w = (Ret (m, mo), w).
Proof.
  intros I Hp [m Hm]. destruct (i_monitor _ I _ _ _ Hp Hm) as [mo Hmo]. exists m, mo. split_and!; [done..|].
  unfold load_monitor. munfold. rewrite Hm. simpl. by rewrite Hmo.
Qed.

Lemma not_abandoned w m mo : monitors w !! m = Some mo → m_abandoned mo = false → ¬ abandoned w m.
Proof. intros H E (mo' & H' & E'). congruence. Qed.

Lemma issued_after_delete en e x l m : NoDup l → e ∈ l → en !! e = Some x →
  issued_in en l m = one (bool_decide (entry_monitor x = m)) + issued_in (delete e en) (drop e l) m.
Proof.
  intros Hnd He Hx. rewrite (issued_in_drop _ e x) by done. f_equal. apply issued_in_ext.
  intros y [n _]%elem_drop. by rewrite lookup_delete_ne.
Qed.

(** The entry of a pool that is gone, or was moved away, is destroyed. *)
Lemma release_abandoned w e en : inv w → e ∈ issued w → entries w !! e = Some en → abandoned w (entry_monitor en) →
  inv (mkWorld (pools w) (monitors w) (delete e (entries w)) (next_entry w) (drop e (issued w)) (reserved w) (failed w)
         ((trace w ++ [ev_final e]) ++ [ev_destroy e])).
Proof.
  intros I He Hen Ha. pose proof I as [I1 I2 I3 I4 I5 I6 I7 I8 If I9 I10].
  assert (∀ p q x, pools w !! p = Some q → x ∈ m_objs q → x ≠ e) as Hne.
  { intros p q x Hp Hx ->. eapply (issued_not_cached _ _ _ _ _ I1); [exact He|by apply caches_lookup|done]. }
  split; cbn [pools monitors entries next_entry issued reserved failed trace]; try done.
  - by apply life_destroy.
  - intros p q x Hp Hx. destruct (I2 _ _ _ Hp Hx) as (en' & Hen' & ?). exists en'.
    rewrite lookup_delete_ne by (symmetry; by eapply Hne). by split.
  - intros x en' [_ Hx]%lookup_delete_Some. by eapply I7.
  - intros p q m Hp Hm Hna. destruct (I10 _ _ _ Hp Hm Hna) as [-> ?]. split; [|done].
    rewrite (issued_after_delete _ e en) by (done || by destruct I1). rewrite bool_decide_false by (intros E; rewrite E in Ha; done). done.
Qed.

Section release.
  Context (w : world) (e p m : nat) (q : ObjectPool) (en : PoolEntry).
  Context (I : inv w) (He : e ∈ issued w) (Hen : entries w !! e = Some en) (Em : entry_monitor en = m).
  Context (Hp : pools w !! p = Some q) (Hm : m_monitor q = Some m) (Ha : ¬ abandoned w m).

Lemma release_range : in_range q → in_range (set_outstanding (sz_dec (m_outstanding q)) q) ∧ sz_dec (m_outstanding q) = (m_outstanding q - 1)%Z.
Proof.
  intros (Ho & ? & ?). pose proof (outstanding_issued w p q e en m I Hp Hm Ha He Hen Em) as Hpos.
  rewrite sz_dec_id by (unfold in_size in *; lia). split; [|done]. split_and!; simpl; [|done..]. unfold in_size in *. lia.
Qed.

(** The entry goes to the cache of its pool. *)
Lemma release_cached : poolVersion en = m_poolVersion q → (Z.of_nat (length (m_objs q)) < m_maxPooled q)%Z →
  inv (mkWorld (<[p := set_objs (m_objs q ++ [e]) (set_outstanding (sz_dec (m_outstanding q)) q)]> (pools w)) (monitors w) (entries w)
         (next_entry w) (drop e (issued w)) (reserved w) (failed w) (trace w ++ [ev_final e])).
Proof.
  intros Hv Hmax. destruct (release_range (i_range _ I _ _ Hp)) as [Hr Hd]. pose proof (i_life _ I) as L.
  apply (inv_change w p q); try done; cbn.
  - apply life_return; [done..|by apply caches_lookup].
  - intros x [Hx| ->%list_elem_of_singleton]%elem_of_app; [exact (i_tied _ I p q x Hp Hx)|]. exists en. split; [done|]. split; [simpl; congruence|done].
  - congruence.
  - intros. by eapply (i_entry _ I).
  - by left.
  - by left.
  - intros m' Hm' _. assert (m' = m) as -> by congruence. destruct (i_count _ I _ _ _ Hp Hm Ha) as [Ho _].
    rewrite Hd, Ho, (issued_in_drop _ e en) by (done || by destruct L). rewrite bool_decide_true by done.
    rewrite length_app. simpl. lia.
  - intros m' Hm'. split; [|done]. rewrite (issued_in_drop _ e en (issued w)) by (done || by destruct L).
    rewrite bool_decide_false by congruence. done.
Qed.

(** The entry is destroyed. *)
Lemma release_deleted :
  inv (mkWorld (<[p := set_outstanding (sz_dec (m_outstanding q)) q]> (pools w)) (monitors w) (delete e (entries w))
         (next_entry w) (drop e (issued w)) (reserved w) (failed w) ((trace w ++ [ev_final e]) ++ [ev_destroy e])).
Proof.
  destruct (release_range (i_range _ I _ _ Hp)) as [Hr Hd]. pose proof (i_life _ I) as L.
  assert (∀ p q x, pools w !! p = Some q → x ∈ m_objs q → x ≠ e) as Hne.
  { intros p' q' x Hp' Hx ->. eapply (issued_not_cached _ _ _ _ _ L); [exact He|by apply caches_lookup|done]. }
  apply (inv_change w p q); try done; cbn.
  - rewrite insert_id by (by apply caches_lookup). by apply life_destroy.
  - intros x Hx. rewrite lookup_delete_ne by (symmetry; by eapply Hne). exact (i_tied _ I p q x Hp Hx).
  - congruence.
  - intros p2 q2 x _ Hp2 Hx. by rewrite lookup_delete_ne by (symmetry; by eapply Hne).
  - intros x en' [_ Hx]%lookup_delete_Some. by eapply (i_entry _ I).
  - by left.
  - by left.
  - intros m' Hm' _. assert (m' = m) as -> by congruence. destruct (i_count _ I _ _ _ Hp Hm Ha) as [Ho Hlen]. split; [|done].
    rewrite Hd, Ho, (issued_after_delete _ e en (issued w)) by (done || by destruct L). rewrite bool_decide_true by done. simpl. lia.
  - intros m' Hm'. split; [|done]. rewrite (issued_after_delete _ e en (issued w)) by (done || by destruct L).
    rewrite bool_decide_false by congruence. done.
Qed.
End release.

Lemma usable_insert w w' p q q' p' : usable w p' → pools w !! p = Some q → m_monitor q' = m_monitor q →
  pools w' = <[p := q']> (pools w) → usable w' p'.
Proof.
  intros (q2 & H2 & Hs) Hp Hm E. unfold usable. rewrite E. destruct (decide (p' = p)) as [->|n].
  - exists q'. rewrite lookup_insert_eq, Hm. split; [done|]. congruence.
  - exists q2. by rewrite lookup_insert_ne.
Qed.

Lemma load_pool_run p q w : pools w !! p = Some q → load_pool p w = (Ret q, w).
Proof. intros H. unfold load_pool. munfold. by rewrite H. Qed.

Lemma release_ok w e : inv w → e ∈ issued w → keeps (release e) (λ _ w', more_usable w w' ∧ issued w' = drop e (issued w)) (λ _, False) w.
Proof.
  intros I He. destruct (l_out _ _ _ _ _ (i_life _ I) e He) as [[en Hen] _]. destruct (i_entry _ I _ _ Hen) as [mo Hmo].
  unfold keeps, release, drop_entry, Return, emit, load_monitor. munfold. cbn. rewrite Hen. cbn.
  rewrite bool_decide_false by done. cbn. rewrite Hmo. cbn.
  destruct (m_abandoned mo) eqn:Ha; cbn.
  - split; [|split; [exact (λ p H, H)|done]]. apply (release_abandoned w e en); try done. by exists mo.
  - destruct (i_owner _ I _ _ Hmo Ha) as (q & Hq & Hm). pose proof (not_abandoned _ _ _ Hmo Ha) as Hna.
    pose proof (outstanding_issued w _ q e en _ I Hq Hm Hna He Hen eq_refl) as Hpos.
    unfold ReturnUnsafe. munfold. erewrite load_pool_run by exact Hq. cbn. rewrite Hen. cbn.
    rewrite (proj2 (Z.eqb_neq _ _)) by lia. unfold update_pool. munfold. cbn.
    destruct (_ && _) eqn:E; cbn.
    + apply andb_true_iff in E as [E1%Z.eqb_eq E2%Z.ltb_lt].
      pose proof (release_cached w e (owner mo) _ q en I He Hen eq_refl Hq Hm Hna E1 E2) as Hinv.
      unfold set_pools. cbn. rewrite (alter_alt_Some _ (pools w) _ q), alter_insert_eq by done. split; [exact Hinv|]. split; [|done].
      intros p' Hp'. by eapply (usable_insert w _ (owner mo) q (set_objs (m_objs q ++ [e]) (set_outstanding (sz_dec (m_outstanding q)) q))).
    + unfold set_pools, set_entries. cbn. rewrite (alter_alt_Some _ _ _ q) by done.
      split; [exact (release_deleted w e (owner mo) _ q en I He Hen eq_refl Hq Hm Hna)|]. split; [|done].
      intros p' Hp'. by eapply (usable_insert w _ (owner mo) q (set_outstanding (sz_dec (m_outstanding q)) q)).
Qed.

(** ** Obtaining objects *)
Section obtain.
  Context (w : world) (p m : nat) (q : ObjectPool).
  Context (I : inv w) (Hp : pools w !! p = Some q) (Hm : m_monitor q = Some m) (Hlt : (m_outstanding q < m_limit q)%Z).

Lemma obtain_range : in_range (set_outstanding (sz_inc (m_outstanding q)) q) ∧ sz_inc (m_outstanding q) = (m_outstanding q + 1)%Z.
Proof.
  destruct (i_range _ I _ _ Hp) as (? & ? & ?). rewrite sz_inc_id by (unfold in_size in *; lia).
  split; [|done]. split_and!; simpl; [|done..]. unfold in_size in *. lia.
Qed.

(** Nothing is cached: a construction begins. *)
Lemma obtain_reserves : inv (set_reserved ((p, m_poolVersion q) :: reserved w) (set_pools (<[p := set_outstanding (sz_inc (m_outstanding q)) q]> (pools w)) w)).
Proof.
  destruct obtain_range as [Hr Hi]. apply (inv_change w p q); try done; cbn.
  - rewrite insert_id by (by apply caches_lookup). apply I.
  - intros x Hx. exact (i_tied _ I p q x Hp Hx).
  - congruence.
  - intros. by eapply (i_entry _ I).
  - intros r [->|Hr']%elem_of_cons; [right; by rewrite Hm|by left].
  - by left.
  - intros m' Hm' Ha. destruct (i_count _ I _ _ _ Hp Hm' Ha) as [Ho Hlen]. split; [|done].
    rewrite Hi, Ho, reserved_in_cons, bool_decide_true by done. simpl. lia.
  - intros p' Hp'. rewrite reserved_in_cons, bool_decide_false by (simpl; congruence). done.
Qed.

(** An object of the cache is issued. *)
Lemma obtain_cached l e : m_objs q = l ++ [e] →
  inv (mkWorld (<[p := set_objs l (set_outstanding (sz_inc (m_outstanding q)) q)]> (pools w)) (monitors w) (entries w) (next_entry w)
         (e :: issued w) (reserved w) (failed w) (trace w ++ [ev_initial e])) ∧ e ∉ issued w.
Proof.
  intros El. destruct obtain_range as [Hr Hi]. pose proof (caches_lookup _ _ _ Hp) as Hc. rewrite El in Hc.
  assert (e ∈ m_objs q) as Hin by (rewrite El; apply elem_of_app; right; left).
  destruct (i_tied _ I p q e Hp Hin) as (en & Hen & Em & _).
  split; [|intros He; eapply (issued_not_cached _ _ _ _ _ (i_life _ I)); [exact He|exact Hc|rewrite <-El; done]].
  apply (inv_change w p q); try done; cbn.
  - eapply life_issue; [apply I|done].
  - intros x Hx. assert (x ∈ m_objs q) as Hx' by (rewrite El; apply elem_of_app; by left). exact (i_tied _ I p q x Hp Hx').
  - congruence.
  - intros. by eapply (i_entry _ I).
  - by left.
  - by left.
  - intros m' Hm' Ha. destruct (i_count _ I _ _ _ Hp Hm' Ha) as [Ho Hlen]. rewrite El, length_app in Hlen. simpl in Hlen.
    rewrite Hi, Ho, (issued_in_cons _ e en), bool_decide_true by (done || congruence). simpl. lia.
  - intros m' Hm'. split; [|done]. rewrite (issued_in_cons _ e en), bool_decide_false by (done || congruence). done.
Qed.
End obtain.

Arguments pop_back : simpl never.

Lemma pop_back_snoc l e : pop_back (l ++ [e]) = l.
Proof. unfold pop_back. rewrite length_app. simpl. rewrite Nat.add_sub. apply take_app_length. Qed.

Lemma Wrap_run held p q e w : pools w !! p = Some q → (∃ m, m_monitor q = Some m ∧ is_Some (monitors w !! m)) →
  Wrap throws held p e w = (Ret tt, set_issued (e :: issued w) (emit_to (ev_initial e) w)).
Proof.
  intros Hp (m & Hm & [mo Hmo]). unfold Wrap. rewrite (bind_Ret _ _ _ _ _ (load_pool_run _ _ _ Hp)).
  unfold load_monitor. munfold. rewrite Hm. cbn. rewrite Hmo. cbn. by rewrite calm.
Qed.

(** What a thread knows after it obtained something. *)
Definition obtained_from (w : world) (p : nat) (r : obtained) (w' : world) : Prop :=
  more_usable w w' ∧
  match r with
  | ob_null => issued w' = issued w ∧ reserved w' = reserved w
  | ob_entry e => issued w' = e :: issued w ∧ e ∉ issued w ∧ reserved w' = reserved w
  | ob_construct v => issued w' = issued w ∧ reserved w' = (p, v) :: reserved w
  end.

Lemma ObtainElementUnsafe_ok w p q : inv w → pools w !! p = Some q → is_Some (m_monitor q) → (m_outstanding q < m_limit q)%Z →
  keeps (ObtainElementUnsafe throws p) (obtained_from w p) (λ _, False) w.
Proof.
  intros I Hp [m Hm] Hlt. unfold keeps, ObtainElementUnsafe. rewrite (bind_Ret _ _ _ _ _ (load_pool_run _ _ _ Hp)).
  unfold update_pool. munfold. cbn. rewrite (alter_alt_Some _ _ _ q) by done.
  assert (∀ p' w' l, usable w p' → pools w' = <[p := set_objs l (set_outstanding (sz_inc (m_outstanding q)) q)]> (pools w) → usable w' p') as Hu.
  { intros p' w' l H E. by apply (usable_insert w w' p q (set_objs l (set_outstanding (sz_inc (m_outstanding q)) q)) p' H Hp eq_refl). }
  destruct (last (m_objs q)) as [e|] eqn:El.
  - apply last_Some in El as [l El]. destruct (obtain_cached w p q I Hp Hlt l e El) as [Hinv Hnew].
    erewrite Wrap_run; [|apply lookup_insert_eq|exists m; split; [done|by eapply (i_monitor _ I)]]. cbn.
    rewrite alter_insert_eq. cbn. rewrite El, pop_back_snoc. split; [exact Hinv|]. split; [|done]. intros p' H'. by eapply Hu.
  - split; [exact (obtain_reserves w p m q I Hp Hm Hlt)|]. split; [|done]. intros p' H'. by eapply (Hu _ _ (m_objs q)).
Qed.

Lemma operator_call_ok w p : inv w → usable w p → keeps (operator_call throws p) (obtained_from w p) (λ _, False) w.
Proof.
  intros I (q & Hp & Hm). destruct (load_monitor_run w p q I Hp Hm) as (m & mo & _ & _ & Hl).
  unfold keeps, operator_call. rewrite (bind_Ret _ _ _ _ _ (load_pool_run _ _ _ Hp)), (bind_Ret _ _ _ _ _ Hl).
  destruct (Z.leb_spec (m_limit q) (m_outstanding q)); [split; [done|]; split; [exact (λ p H, H)|done]|]. by apply (ObtainElementUnsafe_ok w p q).
Qed.

(** A construction ends. *)
Lemma construct_ok w i r : inv w → reserved w !! i = Some r →
  keeps (construct throws i)
    (λ e w', more_usable w w' ∧ issued w' = e :: issued w ∧ e ∉ issued w ∧ reserved w' = base.delete i (reserved w))
    (λ w', more_usable w w' ∧ issued w' = issued w) w.
Proof.
  intros I Hr. destruct (i_reserved _ I r) as (q & Hp & [m Hm]); [by eapply list_elem_of_lookup_2|].
  pose proof (i_life _ I) as L. pose proof (i_monitor _ I _ _ _ Hp Hm) as Hmo.
  assert (entries w !! next_entry w = None) as Hn.
  { apply eq_None_not_Some. intros Hs. destruct (l_live _ _ _ _ _ L _ Hs). lia. }
  assert (next_entry w ∉ issued w) as Hni by (intros Hx; destruct (l_out _ _ _ _ _ L _ Hx) as [[] _]; congruence).
  unfold keeps, construct, emit. munfold. cbn. rewrite Hr. cbn. erewrite load_pool_run by exact Hp. cbn. rewrite Hm. cbn.
  destruct (throws _ _); cbn; [|erewrite Wrap_run by (exact Hp || by exists m); cbn].
  - split; [|split; [exact (λ p H, H)|done]]. apply (inv_keep w r.1 q); try done; cbn.
    + by apply life_failed.
    + intros. by eapply (i_entry _ I).
    + intros r' Hr'. eapply elem_of_submseteq; [exact Hr'|apply sublist_submseteq, sublist_delete].
    + intros m' [->|?]%elem_of_cons; [by right|by left].
    + intros m' Hm' Ha. destruct (i_count _ I _ _ _ Hp Hm' Ha) as [-> _].
      rewrite failed_in_cons, (reserved_in_delete i r (reserved w)) by done. rewrite !bool_decide_true by congruence. simpl. lia.
    + intros m' Hm'. by rewrite failed_in_cons, bool_decide_false by congruence.
    + intros p' Hp'. by rewrite (reserved_in_delete i r (reserved w)), bool_decide_false by congruence.
  - split; [|split; [exact (λ p H, H)|by split_and!]]. apply (inv_keep w r.1 q); try done; cbn.
    + by apply life_construct.
    + intros p2 q2 x Hp2 Hx. destruct (i_tied _ I _ _ x Hp2 Hx) as (en & Hen & ?). by rewrite lookup_insert_ne by congruence.
    + intros x en [[<- <-]|[_ Hx]]%lookup_insert_Some; [done|by eapply (i_entry _ I)].
    + intros r' Hr'. eapply elem_of_submseteq; [exact Hr'|apply sublist_submseteq, sublist_delete].
    + by left.
    + intros m' Hm' Ha. destruct (i_count _ I _ _ _ Hp Hm' Ha) as [-> _].
      rewrite (reserved_in_delete i r (reserved w)), bool_decide_true by done.
      rewrite (issued_in_cons _ (next_entry w) (mkEntry m r.2)) by apply lookup_insert_eq. rewrite bool_decide_true by (simpl; congruence).
      rewrite (issued_in_ext (<[next_entry w := mkEntry m r.2]> (entries w)) (entries w)); [simpl; lia|]. intros x Hx. rewrite lookup_insert_ne; [done|]. by intros <-.
    + intros m' Hm'. split; [|done]. rewrite (issued_in_cons _ (next_entry w) (mkEntry m r.2)) by apply lookup_insert_eq.
      rewrite bool_decide_false by (simpl; congruence). apply issued_in_ext. intros x Hx. rewrite lookup_insert_ne; [done|]. by intros <-.
    + intros p' Hp'. by rewrite (reserved_in_delete i r (reserved w)), bool_decide_false by congruence.
Qed.

Lemma obtain_ok w p : inv w → usable w p →
  keeps (obtain throws p) (λ r w', more_usable w w' ∧
    match r with None => issued w' = issued w | Some e => issued w' = e :: issued w ∧ e ∉ issued w end)
    (λ w', more_usable w w' ∧ issued w' = issued w) w.
Proof.
  intros I Hp. unfold obtain. eapply keeps_bind; [eapply keeps_conseq; [by apply operator_call_ok|exact (λ a w' H, H)|done]|].
  intros [|e|v] w1 I1 [Hu H]; [by destruct H|by destruct H as (? & ? & _)|]. destruct H as [Ei Er].
  eapply keeps_bind; [eapply keeps_conseq; [apply (construct_ok w1 0 (p, v) I1); by rewrite Er|exact (λ a w' H, H)|]|].
  - intros w' [Hu' E]. split; [|congruence]. intros p' H. by apply Hu', Hu.
  - intros e w2 I2 (Hu' & E & Hn & _). split; [done|]. split; [intros p' H; by apply Hu', Hu|]. by rewrite E, Ei, <-Ei.
Qed.

Lemma release_all_ok l w : inv w → NoDup l → l ⊆ issued w → keeps (for_each release l) (λ _, more_usable w) (λ _, False) w.
Proof.
  revert w. induction l as [|e l IH]; intros w I Hnd Hsub; [split; [done|exact (λ p H, H)]|]. apply NoDup_cons in Hnd as [He Hnd]. cbn [for_each].
  eapply keeps_bind; [apply release_ok; [done|apply Hsub; left]|]. intros _ w1 I1 [Hu E]. cbn beta.
  eapply keeps_conseq; [apply IH; [done..|]| |done].
  - rewrite E. intros x Hx. apply elem_drop. split; [by intros ->|]. apply Hsub. by right.
  - intros a w2 Hu2 p H. by apply Hu2, Hu.
Qed.

Lemma obtain_n_ok p n : ∀ got w, inv w → usable w p → NoDup got → got ⊆ issued w →
  keeps (obtain_n throws n p got) (λ got' w', NoDup got' ∧ got' ⊆ issued w') (λ _, True) w.
Proof.
  induction n as [|n IH]; intros got w I Hp Hnd Hsub; [by split|]. cbn [obtain_n].
  eapply keeps_bind; [eapply keeps_catch|].
  - eapply keeps_conseq; [by apply obtain_ok|exact (λ a w' H, H)|exact (λ w' H, H)].
  - intros ex w' I' [Hu E]. eapply keeps_bind; [eapply keeps_conseq; [apply release_all_ok; [done..|by rewrite E]|exact (λ a w' H, H)|done]|].
    by intros a w2 I2 Hw.
  - cbn beta. intros [e|] w' I' [Hu E]; [destruct E as [E Hn]|]; (apply IH; [done|by apply Hu| |rewrite E]); try done.
    + constructor; [|done]. intros He. by apply Hn, Hsub.
    + intros x [->|Hx]%elem_of_cons; [left|right]. by apply Hsub.
Qed.

Lemma Preallocate_ok w p n : inv w → usable w p → keeps (Preallocate throws p n) (λ _ _, True) (λ _, True) w.
Proof.
  intros I Hu. pose proof Hu as (q & Hp & _). unfold Preallocate. unfold keeps. rewrite (bind_Ret _ _ _ _ _ (load_pool_run _ _ _ Hp)).
  eapply (keeps_bind (obtain_n throws _ p []) _ _ (λ _ _, True) (λ _, True) w).
  - apply obtain_n_ok; [done..|constructor|]. intros x Hx. by apply elem_of_nil in Hx.
  - intros got w' I' [Hnd Hsub]. eapply keeps_conseq; [by apply release_all_ok|done..].
Qed.

(** ** Destroying what is cached *)
Lemma uncache_ok w p q l1 e l2 : inv w → pools w !! p = Some q → m_objs q = l1 ++ e :: l2 →
  inv (mkWorld (<[p := set_objs (l1 ++ l2) q]> (pools w)) (monitors w) (delete e (entries w)) (next_entry w) (issued w)
         (reserved w) (failed w) (trace w ++ [ev_destroy e])).
Proof.
  intros I Hp El. pose proof (i_life _ I) as L. pose proof (caches_lookup _ _ _ Hp) as Hc. rewrite El in Hc.
  assert (e ∈ m_objs q) as Hin by (rewrite El; apply elem_of_app; right; left).
  assert (NoDup (m_objs q)) as Hnd by (rewrite El; by eapply (l_nodup _ _ _ _ _ L)). rewrite El, <-Permutation_middle in Hnd.
  apply NoDup_cons in Hnd as [Hel _].
  assert (∀ m, issued_in (delete e (entries w)) (issued w) m = issued_in (entries w) (issued w) m) as Hi.
  { intros m. apply issued_in_ext. intros x Hx. rewrite lookup_delete_ne; [done|]. intros <-.
    eapply (issued_not_cached _ _ _ _ _ L); [exact Hx|exact Hc|by rewrite <-El]. }
  destruct (i_range _ I _ _ Hp) as (Hr1 & Hr2 & Hr3).
  apply (inv_change w p q); try done; cbn.
  - by apply life_uncache.
  - intros x Hx. rewrite lookup_delete_ne by (by intros ->). apply (i_tied _ I p q x Hp). rewrite El.
    rewrite elem_of_app, elem_of_cons. apply elem_of_app in Hx. tauto.
  - intros Hm. pose proof (i_moved _ I _ _ Hp Hm) as E. rewrite El in E. by destruct l1.
  - intros p2 q2 x n Hp2 Hx. rewrite lookup_delete_ne; [done|]. intros <-. apply n.
    eapply (l_once _ _ _ _ _ L p2 p _ _ e); [by apply caches_lookup|by apply caches_lookup|done|done].
  - intros x en [_ Hx]%lookup_delete_Some. by eapply (i_entry _ I).
  - by left.
  - by left.
  - intros m Hm Ha. destruct (i_count _ I _ _ _ Hp Hm Ha) as [-> Hlen]. rewrite Hi. split; [done|].
    rewrite El, length_app in Hlen. rewrite length_app. simpl in Hlen. lia.
Qed.

Definition destroyed (l : list nat) (w : world) : world :=
  foldl (λ w e, set_entries (delete e (entries w)) (emit_to (ev_destroy e) w)) w l.

Lemma delete_all_run l w : for_each delete_entry l w = (Ret tt, destroyed l w).
Proof. revert w. induction l as [|e l IH]; intros w; [done|]. unfold delete_entry, emit. munfold. cbn. apply IH. Qed.

Lemma destroyed_pools l ps w : destroyed l (set_pools ps w) = set_pools ps (destroyed l w) ∧ pools (destroyed l w) = pools w ∧
  monitors (destroyed l w) = monitors w ∧ reserved (destroyed l w) = reserved w.
Proof.
  revert w. induction l as [|e l IH]; intros w; [done|].
  destruct (IH (set_entries (delete e (entries w)) (emit_to (ev_destroy e) w))) as [E1 E2]. by split.
Qed.

Lemma destroyed_ok l r : ∀ w p q, inv w → pools w !! p = Some q → m_objs q = l ++ r →
  inv (set_pools (<[p := set_objs r q]> (pools w)) (destroyed l w)).
Proof.
  induction l as [|e l IH]; intros w p q I Hp El.
  - cbn. replace (set_objs r q) with q by (destruct q; simpl in *; by subst). rewrite insert_id by done. by destruct w.
  - pose proof (uncache_ok w p q [] e (l ++ r) I Hp El) as I1. cbn in I1.
    specialize (IH _ p (set_objs (l ++ r) q) I1 (lookup_insert_eq _ _ _) eq_refl). cbn in IH. rewrite insert_insert_eq in IH.
    set (w1 := set_entries (delete e (entries w)) (emit_to (ev_destroy e) w)).
    change (destroyed (e :: l) w) with (destroyed l w1).
    destruct (destroyed_pools l (<[p := set_objs (l ++ r) q]> (pools w)) w1) as [E _].
    change (mkWorld _ _ _ _ _ _ _ _) with (set_pools (<[p := set_objs (l ++ r) q]> (pools w)) w1) in IH. rewrite E in IH. exact IH.
Qed.

(** Fields that do not matter to what is cached. *)
Lemma inv_tweak w p q q' : inv w → pools w !! p = Some q → m_monitor q' = m_monitor q → m_objs q' = m_objs q →
  m_outstanding q' = m_outstanding q → (m_poolVersion q' = m_poolVersion q ∨ m_objs q = []) → in_range q' →
  (∀ m, m_monitor q = Some m → ¬ abandoned w m → (Z.of_nat (length (m_objs q')) ≤ m_maxPooled q')%Z) →
  inv (set_pools (<[p := q']> (pools w)) w).
Proof.
  intros I Hp Em Eo Eout Hv Hr Hlen. apply (inv_change w p q); try done.
  - rewrite Eo, insert_id by (by apply caches_lookup). apply I.
  - rewrite Eo. intros e He. destruct (i_tied _ I p q e Hp He) as (en & Hen & Hm & Hver). exists en. split; [done|]. split; [congruence|].
    intros Ha. destruct Hv as [->|E]; [by apply Hver|]. rewrite E in He. by apply elem_of_nil in He.
  - rewrite Eo. by eapply (i_moved _ I).
  - intros. by eapply (i_entry _ I).
  - by left.
  - by left.
  - intros m Hm Ha. rewrite Eout. split; [by eapply (i_count _ I)|by eapply Hlen].
Qed.

Lemma usable_tweak w p q q' : pools w !! p = Some q → m_monitor q' = m_monitor q → ∀ w', pools w' = <[p := q']> (pools w) → more_usable w w'.
Proof. intros Hp Em w' E p' H'. by eapply usable_insert. Qed.

Lemma Clear_ok w p : inv w → usable w p →
  keeps (ClearCachedEntities p) (λ _ w', more_usable w w' ∧ ∃ q q', pools w !! p = Some q ∧ m_monitor q' = m_monitor q ∧ m_objs q' = [] ∧
    pools w' = <[p := q']> (pools w) ∧ monitors w' = monitors w ∧ reserved w' = reserved w) (λ _, False) w.
Proof.
  intros I (q & Hp & Hm). destruct (load_monitor_run w p q I Hp Hm) as (m & mo & Em & _ & Hl).
  unfold keeps, ClearCachedEntities. rewrite (bind_Ret _ _ _ _ _ (load_pool_run _ _ _ Hp)), (bind_Ret _ _ _ _ _ Hl).
  rewrite (bind_Ret _ _ _ _ _ (delete_all_run _ _)). unfold update_pool. munfold. cbn.
  pose proof (destroyed_ok (m_objs q) [] w p q I Hp (eq_sym (app_nil_r _))) as I1.
  destruct (destroyed_pools (m_objs q) ∅ w) as (_ & Epools & Emon & Eres).
  rewrite Epools, (alter_alt_Some _ (pools w) _ q), alter_insert_eq by done.
  set (q' := set_version _ _). split.
  - pose proof (inv_tweak _ p (set_objs [] q) q' I1 (lookup_insert_eq _ _ _) eq_refl eq_refl eq_refl (or_intror eq_refl)) as I2.
    cbn in I2. rewrite insert_insert_eq in I2. destruct (i_range _ I _ _ Hp) as (? & ? & ?).
    apply I2; [by split_and!|]. intros m' _ _. unfold in_size in *. lia.
  - split; [by eapply (usable_tweak w p q q')|]. exists q, q'. by rewrite Emon, Eres.
Qed.

(** The pool as it would be if the cache were allowed its size. *)
Definition roomy (w : world) (p : nat) : Prop :=
  ∃ q big, pools w !! p = Some q ∧ inv (set_pools (<[p := set_maxPooled big q]> (pools w)) w) ∧ in_range q ∧ is_Some (m_monitor q).

Lemma trim_loop_ok fuel : ∀ w p q, pools w !! p = Some q → roomy w p → length (m_objs q) < fuel →
  keeps (trim_loop fuel p) (λ _ w', more_usable w w') (λ _, False) w.
Proof.
  induction fuel as [|fuel IH]; intros w p q Hp Hr Hfuel; [lia|].
  destruct Hr as (q1 & big & Hp1 & I & Hrange & [m Hm]). rewrite Hp in Hp1. injection Hp1 as <-.
  pose proof (i_monitor _ I p _ m (lookup_insert_eq _ _ _) Hm) as [mo Hmo]. cbn in Hmo.
  unfold keeps. cbn [trim_loop]. rewrite (bind_Ret _ _ _ _ _ (load_pool_run _ _ _ Hp)).
  assert (load_monitor (m_monitor q) w = (Ret (m, mo), w)) as Hl by (unfold load_monitor; munfold; rewrite Hm; cbn; by rewrite Hmo).
  rewrite (bind_Ret _ _ _ _ _ Hl). destruct (Z.leb_spec (Z.of_nat (length (m_objs q))) (m_maxPooled q)) as [Hle|Hgt].
  - split; [|exact (λ p H, H)].
    pose proof (inv_tweak _ p _ q I (lookup_insert_eq _ _ _) eq_refl eq_refl eq_refl (or_introl eq_refl) Hrange (λ _ _ _, Hle)) as I2.
    cbn in I2. rewrite insert_insert_eq, insert_id in I2 by done. by destruct w.
  - destruct (last (m_objs q)) as [e|] eqn:El; [|apply last_None in El; rewrite El in Hgt; destruct Hrange as (_ & _ & ?); unfold in_size in *; simpl in Hgt; lia].
    apply last_Some in El as [l El]. unfold delete_entry, emit, update_pool. munfold. cbn.
    rewrite El, pop_back_snoc, (alter_alt_Some _ (pools w) _ q) by done.
    set (w1 := set_pools (<[p := set_objs l q]> (pools w)) _).
    pose proof (uncache_ok _ p _ l e [] I (lookup_insert_eq _ _ _) El) as I1. cbn in I1. rewrite app_nil_r, insert_insert_eq in I1.
    assert (keeps (trim_loop fuel p) (λ _ w', more_usable w1 w') (λ _, False) w1) as Hk.
    { apply (IH w1 p (set_objs l q)); [apply lookup_insert_eq| |cbn; rewrite El, length_app in Hfuel; simpl in Hfuel; lia].
      exists (set_objs l q), big. split; [apply lookup_insert_eq|]. split; [|split; [done|by exists m]].
      unfold w1. cbn. rewrite insert_insert_eq. exact I1. }
    unfold keeps in Hk. destruct (trim_loop fuel p w1) as [[] w2]; [|done..]. destruct Hk as [? Hk]. split; [done|].
    intros p' H'. apply Hk. by eapply (usable_tweak w p q (set_objs l q)).
Qed.

Arguments trim_loop : simpl never.

Lemma SetMaximum_ok w p n : inv w → usable w p → in_size n → keeps (SetMaximumPooledEntities p n) (λ _, more_usable w) (λ _, False) w.
Proof.
  intros I (q & Hp & Hm) Hn. unfold SetMaximumPooledEntities, keeps. rewrite (bind_Ret _ _ _ _ _ (load_pool_run _ _ _ Hp)).
  unfold update_pool. munfold. cbn. rewrite (alter_alt_Some _ (pools w) _ q) by done.
  destruct (i_range _ I _ _ Hp) as (? & ? & ?). set (q1 := set_maxPooled n q). set (w1 := set_pools _ w).
  assert (keeps (trim_loop (S (length (m_objs q))) p) (λ _ w', more_usable w1 w') (λ _, False) w1) as Hk.
  { apply (trim_loop_ok _ w1 p q1); [apply lookup_insert_eq| |simpl; lia]. exists q1, (m_maxPooled q).
    split; [apply lookup_insert_eq|]. split; [|by split_and!]. unfold w1, q1. cbn. rewrite insert_insert_eq.
    replace (set_maxPooled (m_maxPooled q) (set_maxPooled n q)) with q by (by destruct q). rewrite insert_id by done. by destruct w. }
  unfold keeps in Hk. destruct (trim_loop _ p w1) as [[] w2]; [|done..]. destruct Hk as [? Hk]. split; [done|].
  intros p' H'. apply Hk. by eapply (usable_tweak w p q q1).
Qed.

Lemma SetLimit_ok w p n : inv w → usable w p → in_size n → keeps (SetOutstandingLimit p n) (λ _, more_usable w) (λ _, True) w.
Proof.
  intros I (q & Hp & Hm) Hn. destruct (load_monitor_run w p q I Hp Hm) as (m & mo & Em & _ & Hl).
  unfold keeps, SetOutstandingLimit. rewrite (bind_Ret _ _ _ _ _ (load_pool_run _ _ _ Hp)), (bind_Ret _ _ _ _ _ Hl).
  destruct (_ && _); [by split|]. unfold update_pool. munfold. cbn. rewrite (alter_alt_Some _ (pools w) _ q) by done.
  destruct (i_range _ I _ _ Hp) as (? & ? & ?). split; [|by eapply (usable_tweak w p q (set_limit n q))].
  apply (inv_tweak w p q); try done; [by left|]. intros m' Hm' Ha. by apply (i_count _ I _ _ _ Hp Hm' Ha).
Qed.

Lemma Rundown_ok w p : inv w → usable w p → keeps (Rundown p) (λ _ _, True) (λ _, True) w.
Proof.
  intros I Hp. unfold Rundown. eapply keeps_bind; [eapply keeps_conseq; [by apply SetMaximum_ok|exact (λ _ w' H, H)|done]|].
  intros [] w1 I1 H1. eapply keeps_bind; [apply SetLimit_ok; [done|by apply H1|done]|]. intros [] w2 I2 H2.
  destruct (H2 p (H1 p Hp)) as (q & Hq & _). unfold keeps. rewrite (bind_Ret _ _ _ _ _ (load_pool_run _ _ _ Hq)).
  by destruct (Z.eqb _ _); split.
Qed.

Lemma waits_ok w p timeout : inv w → usable w p →
  keeps (Wait throws p) (λ _ _, True) (λ _, True) w ∧ keeps (WaitFor throws timeout p) (λ _ _, True) (λ _, True) w.
Proof.
  intros I (q & Hp & Hm). destruct (load_monitor_run w p q I Hp Hm) as (m & mo & _ & _ & Hl).
  unfold Wait, WaitFor, keeps. rewrite !(bind_Ret _ _ _ _ _ (load_pool_run _ _ _ Hp)), !(bind_Ret _ _ _ _ _ Hl).
  destruct (Z.eqb _ _); [by split|]. destruct (Z.ltb_spec (m_outstanding q) (m_limit q)) as [Hlt|]; [|by destruct timeout].
  pose proof (ObtainElementUnsafe_ok w p q I Hp Hm Hlt) as Hk. unfold keeps in Hk.
  destruct (ObtainElementUnsafe throws p w) as [[] ?]; [|by destruct Hk|done]. destruct Hk. by split.
Qed.

(** ** Making, moving and unmaking pools *)
Lemma new_ok w limit maxPooled : inv w → in_size limit → in_size maxPooled →
  inv (ObjectPool_new limit maxPooled w).2 ∧ is_ret (ObjectPool_new limit maxPooled w).1 = true.
Proof.
  intros I Hl Hx. unfold ObjectPool_new. munfold. cbn. set (p := fresh (dom (pools w))). set (m := fresh (dom (monitors w))).
  assert (pools w !! p = None) as Hp by (apply not_elem_of_dom, is_fresh).
  assert (monitors w !! m = None) as Hm by (apply not_elem_of_dom, is_fresh).
  split; [|done]. pose proof I as [I1 I2 I3 I4 I5 I6 I7 I8 If I9 I10].
  assert (∀ p q, pools w !! p = Some q → m_monitor q ≠ Some m) as Hne.
  { intros p' q' Hp' E. destruct (I3 _ _ _ Hp' E). congruence. }
  assert (∀ m', m' ≠ m → abandoned (set_monitors (<[m:=mkMonitor false p]> (monitors w)) w) m' ↔ abandoned w m') as Hab.
  { intros m' n. unfold abandoned. cbn. by rewrite lookup_insert_ne. }
  split; cbn [pools monitors entries next_entry issued reserved failed trace set_pools set_monitors]; try done.
  - rewrite caches_insert. apply life_empty; [done|]. by rewrite lookup_fmap, Hp.
  - intros p' q' e [[<- <-]|[_ Hp']]%lookup_insert_Some He; [by apply elem_of_nil in He|].
    destruct (I2 _ _ _ Hp' He) as (en & Hen & Em & Hv). exists en. split; [done|]. split; [done|]. intros Ha. apply Hv.
    intros Ha'. apply Ha. apply Hab; [|done]. intros E. eapply Hne; [exact Hp'|congruence].
  - intros p' q' m' [[<- <-]|[_ Hp']]%lookup_insert_Some E; [injection E as <-; by rewrite lookup_insert_eq|].
    rewrite lookup_insert_ne; [by eapply I3|]. intros <-. by eapply Hne.
  - intros p' q' [[<- <-]|[_ Hp']]%lookup_insert_Some E; [done|by eapply I4].
  - intros p1 p2 q1 q2 m' [[<- <-]|[_ H1]]%lookup_insert_Some [[<- <-]|[_ H2]]%lookup_insert_Some E1 E2; try done; [..|by eapply I5].
    + injection E1 as <-. by destruct (Hne _ _ H2).
    + injection E2 as <-. by destruct (Hne _ _ H1).
  - intros m' mo [[<- <-]|[n Hmo]]%lookup_insert_Some Ha; [eexists; by rewrite lookup_insert_eq|].
    destruct (I6 _ _ Hmo Ha) as (q' & Hq' & ?). exists q'. rewrite lookup_insert_ne; [done|]. congruence.
  - intros e en He. destruct (I7 _ _ He) as [mo Hmo]. exists mo. rewrite lookup_insert_ne; [done|]. congruence.
  - intros r Hr. destruct (I8 _ Hr) as (q' & Hq' & ?). exists q'. rewrite lookup_insert_ne; [done|]. congruence.
  - intros m' Hm'. destruct (If _ Hm') as [mo Hmo]. exists mo. rewrite lookup_insert_ne; [done|]. congruence.
  - intros p' q' [[<- <-]|[_ Hp']]%lookup_insert_Some; [by split_and!|by eapply I9].
  - intros p' q' m' [[<- <-]|[_ Hp']]%lookup_insert_Some E Ha.
    + injection E as <-. cbn. unfold issued_in, reserved_in, failed_in. rewrite !filter_nil_forall; [split; [done|unfold in_size in *; lia]|..].
      * intros x Hin ->. destruct (If _ Hin). congruence.
      * intros r Hr E. destruct (I8 _ Hr) as (q' & Hq' & _). congruence.
      * intros e He E. destruct (entries w !! e) as [en|] eqn:Hen; [|done]. injection E as E. destruct (I7 _ _ Hen). congruence.
    + eapply I10; [done..|]. intros Ha'. apply Ha. apply Hab; [|done]. intros ->. by eapply Hne.
Qed.

Lemma abandoned_insert w m mo m' : monitors w !! m = Some mo →
  abandoned (set_monitors (<[m := mkMonitor true (owner mo)]> (monitors w)) w) m' ↔ m' = m ∨ abandoned w m'.
Proof.
  intros Hm. unfold abandoned. cbn. destruct (decide (m' = m)) as [->|n].
  - rewrite lookup_insert_eq. split; [by left|]. intros _. by eexists.
  - rewrite lookup_insert_ne by done. split; [by right|by intros [?|?]].
Qed.

(** An abandoned monitor promises less. *)
Lemma abandon_ok w m mo o : inv w → monitors w !! m = Some mo →
  inv (set_monitors (<[m := mkMonitor true o]> (monitors w)) w).
Proof.
  intros I Hm. pose proof I as [I1 I2 I3 I4 I5 I6 I7 I8 If I9 I10].
  assert (∀ m', is_Some (monitors w !! m') → is_Some (<[m := mkMonitor true o]> (monitors w) !! m')) as Hs.
  { intros m' ?. apply lookup_insert_is_Some'. by right. }
  assert (∀ m', ¬ abandoned (set_monitors (<[m := mkMonitor true o]> (monitors w)) w) m' → ¬ abandoned w m') as Hab.
  { intros m' H (mo' & Hmo' & Ha'). apply H. unfold abandoned. cbn. destruct (decide (m = m')) as [->|n].
    - eexists. by rewrite lookup_insert_eq.
    - exists mo'. by rewrite lookup_insert_ne. }
  split; cbn [pools monitors entries next_entry issued reserved failed trace set_monitors]; try done; eauto.
  - intros p q e Hp He. destruct (I2 _ _ _ Hp He) as (en & Hen & Em & Hv). exists en. split; [done|]. split; [done|]. intros Ha. by apply Hv, Hab.
  - intros m' mo' [[<- <-]|[n Hm']]%lookup_insert_Some Ha; [done|by eapply I6].
Qed.

(** Nothing of the pool is under construction. *)
Definition quiet (w : world) (p : nat) : Prop := ∀ r, r ∈ reserved w → r.1 ≠ p.

Lemma quiet_reserved w p : quiet w p → reserved_in (reserved w) p = 0.
Proof. intros H. unfold reserved_in. rewrite filter_nil_forall; [done|]. intros r Hr. by apply H. Qed.

Lemma Abandon_run w m mo : monitors w !! m = Some mo →
  Abandon m w = (Ret tt, set_monitors (<[m := mkMonitor true (owner mo)]> (monitors w)) w).
Proof. intros H. unfold Abandon. munfold. by rewrite (alter_alt_Some _ _ _ mo). Qed.

(** The pool goes, once its monitor is abandoned and its cache empty. *)
Lemma remove_ok w p q : inv w → pools w !! p = Some q → m_objs q = [] → (∀ m, m_monitor q = Some m → abandoned w m) → quiet w p →
  inv (set_pools (delete p (pools w)) w).
Proof.
  intros I Hp Eo Ha Hquiet. pose proof I as [I1 I2 I3 I4 I5 I6 I7 I8 If I9 I10].
  split; cbn [pools monitors entries next_entry issued reserved failed trace set_pools]; try done.
  - rewrite fmap_delete. apply life_unmake; [done|]. by rewrite (caches_lookup p q), Eo.
  - intros p' q' e [_ H]%lookup_delete_Some. by eapply I2.
  - intros p' q' m [_ H]%lookup_delete_Some. by eapply I3.
  - intros p' q' [_ H]%lookup_delete_Some. by eapply I4.
  - intros p1 p2 q1 q2 m [_ ?]%lookup_delete_Some [_ ?]%lookup_delete_Some. by eapply I5.
  - intros m mo Hmo Hna. destruct (I6 _ _ Hmo Hna) as (q' & Hq' & Em). exists q'. rewrite lookup_delete_ne; [done|].
    intros E. rewrite <-E, Hp in Hq'. injection Hq' as <-. by apply (not_abandoned _ _ _ Hmo Hna), Ha.
  - intros r Hr. destruct (I8 _ Hr) as (q' & ? & ?). exists q'. rewrite lookup_delete_ne; [done|]. intros E. by apply (Hquiet r).
  - intros p' q' [_ H]%lookup_delete_Some. by eapply I9.
  - intros p' q' m [_ H]%lookup_delete_Some. by eapply I10.
Qed.

Lemma dtor_ok w p q : inv w → pools w !! p = Some q → quiet w p → keeps (ObjectPool_dtor p) (λ _ _, True) (λ _, False) w.
Proof.
  intros I Hp Hquiet. unfold ObjectPool_dtor, keeps. rewrite (bind_Ret _ _ _ _ _ (load_pool_run _ _ _ Hp)).
  destruct (m_monitor q) as [m|] eqn:Hm.
  - destruct (i_monitor _ I _ _ _ Hp Hm) as [mo Hmo]. rewrite bind_assoc, (bind_Ret _ _ _ _ _ (Abandon_run _ _ _ Hmo)).
    pose proof (abandon_ok w m mo (owner mo) I Hmo) as I1. set (w1 := set_monitors _ w) in *.
    assert (keeps (ClearCachedEntities p) (λ _ w', more_usable w1 w' ∧ ∃ q0 q', pools w1 !! p = Some q0 ∧ m_monitor q' = m_monitor q0 ∧
      m_objs q' = [] ∧ pools w' = <[p := q']> (pools w1) ∧ monitors w' = monitors w1 ∧ reserved w' = reserved w1) (λ _, False) w1) as Hk
      by (apply Clear_ok; [done|]; exists q; by rewrite Hm).
    unfold keeps in Hk. munfold. destruct (ClearCachedEntities p w1) as [[] w2]; [|by destruct Hk|done].
    destruct Hk as (I2 & _ & q0 & q' & Hq0 & Em & Eo & Ep & Emon & Eres). split; [|done].
    apply (remove_ok w2 p q'); try done; [by rewrite Ep, lookup_insert_eq| |by intros r; rewrite Eres; apply Hquiet].
    intros m' Hm'. unfold abandoned. rewrite Emon. unfold w1. cbn. cbn in Hq0. assert (m' = m) as -> by congruence.
    eexists. by rewrite lookup_insert_eq.
  - munfold. split; [|done]. apply (remove_ok w p q); try done; [by eapply (i_moved _ I)|]. congruence.
Qed.

(** The pool moved to, the pool moved from. *)
Definition moved_to (r : ObjectPool) : ObjectPool :=
  mkPool (m_monitor r) (m_poolVersion r) (m_objs r) (m_maxPooled r) (m_limit r) (m_outstanding r).
Definition moved_from (q r : ObjectPool) : ObjectPool :=
  mkPool (m_monitor q) (m_poolVersion r) (m_objs q) (m_maxPooled r) (m_limit r) (m_outstanding r).

Lemma swap_ok w p rhs q r m mo : inv w → p ≠ rhs → pools w !! p = Some q → pools w !! rhs = Some r →
  (∀ m, m_monitor q = Some m → abandoned w m) → m_monitor r = Some m → monitors w !! m = Some mo → quiet w p → quiet w rhs →
  inv (mkWorld (<[p := moved_to r]> (<[rhs := moved_from q r]> (pools w))) (<[m := mkMonitor (m_abandoned mo) p]> (monitors w))
    (entries w) (next_entry w) (issued w) (reserved w) (failed w) (trace w)).
Proof.
  intros I Hne Hp Hr Ha Hm Hmo Hq1 Hq2. pose proof I as [I1 I2 I3 I4 I5 I6 I7 I8 If I9 I10].
  set (w' := mkWorld _ _ _ _ _ _ _ _).
  assert (∀ m', is_Some (monitors w !! m') → is_Some (monitors w' !! m')) as Hs by (intros; apply lookup_insert_is_Some'; by right).
  assert (∀ m', abandoned w' m' ↔ abandoned w m') as Hab.
  { intros m'. unfold abandoned, w'. cbn. destruct (decide (m' = m)) as [->|n]; [|by rewrite lookup_insert_ne].
    rewrite lookup_insert_eq, Hmo. split; intros (x & [= <-] & ?); by eexists. }
  (* a pool of the new world: the two that moved, or another *)
  assert (∀ p' x, pools w' !! p' = Some x →
    p' = p ∧ x = moved_to r ∨ p' = rhs ∧ x = moved_from q r ∨ p' ≠ p ∧ p' ≠ rhs ∧ pools w !! p' = Some x) as Hcase.
  { intros p' x. unfold w'. cbn. rewrite !lookup_insert_Some. naive_solver. }
  assert (∀ p' x m', pools w' !! p' = Some x → m_monitor x = Some m' →
    ∃ p0 x0, pools w !! p0 = Some x0 ∧ m_monitor x0 = Some m' ∧ (p' = p ∧ p0 = rhs ∨ p' = rhs ∧ p0 = p ∨ p' ≠ p ∧ p' ≠ rhs ∧ p0 = p')) as Hold.
  { intros p' x m' [[-> ->]|[[-> ->]|(? & ? & ?)]]%Hcase E; [exists rhs, r|exists p, q|exists p', x]; split_and!; auto. }
  split; fold w'; cbn [entries next_entry issued reserved failed trace w']; try done.
  - unfold w'. cbn [pools]. rewrite !caches_insert. apply (life_swap _ _ _ _ _ I1 p rhs (m_objs q) (m_objs r)); [done|by apply caches_lookup..].
  - intros p' x e [[-> ->]|[[-> ->]|(? & ? & Hx)]]%Hcase He; unfold tied.
    + destruct (I2 _ _ _ Hr He) as (en & Hen & Em & Hv). exists en. rewrite Hab. by split_and!.
    + destruct (I2 _ _ _ Hp He) as (en & Hen & Em & _). exists en. rewrite Hab. split_and!; [done..|]. intros Hna. by destruct Hna; apply Ha.
    + destruct (I2 _ _ _ Hx He) as (en & Hen & Em & Hv). exists en. rewrite Hab. by split_and!.
  - intros p' x m' Hx E. destruct (Hold _ _ _ Hx E) as (p0 & x0 & H0 & E0 & _). apply Hs. by eapply I3.
  - intros p' x [[-> ->]|[[-> ->]|(? & ? & Hx)]]%Hcase; [exact (I4 _ _ Hr)|exact (I4 _ _ Hp)|by eapply I4].
  - intros p1 p2 x1 x2 m' H1 H2 E1 E2. destruct (Hold _ _ _ H1 E1) as (a & y & Ha1 & Hy1 & Hc1), (Hold _ _ _ H2 E2) as (b & z & Hb1 & Hz1 & Hc2).
    pose proof (I5 _ _ _ _ _ Ha1 Hb1 Hy1 Hz1). subst b. naive_solver.
  - intros m' mo' H' Hna. unfold w' in H'. cbn in H'. apply lookup_insert_Some in H' as [[<- <-]|[n H']].
    + exists (moved_to r). unfold w'. cbn. by rewrite lookup_insert_eq.
    + destruct (I6 _ _ H' Hna) as (x & Hx & E). exists x. unfold w'. cbn. rewrite !lookup_insert_ne; [done| |].
      * intros E'. rewrite <-E' in Hx. congruence.
      * intros E'. rewrite <-E', Hp in Hx. injection Hx as <-. by apply (not_abandoned _ _ _ H' Hna), Ha.
  - intros e en He. apply Hs. by eapply I7.
  - intros x Hx. destruct (I8 _ Hx) as (y & Hy & ?). exists y. unfold w'. cbn. rewrite !lookup_insert_ne; [done|..]; intros E; [by apply (Hq2 x)|by apply (Hq1 x)].
  - intros m' Hm'. apply Hs. by apply If.
  - intros p' x [[-> ->]|[[-> ->]|(? & ? & Hx)]]%Hcase; [exact (I9 _ _ Hr)|exact (I9 _ _ Hr)|by eapply I9].
  - intros p' x m' Hx E Hna. rewrite Hab in Hna. destruct (Hcase _ _ Hx) as [[-> ->]|[[-> ->]|(? & ? & Hx')]].
    + destruct (I10 _ _ _ Hr E Hna) as [Ho ?]. split; [|done]. rewrite quiet_reserved in * by done. exact Ho.
    + by destruct Hna; apply Ha.
    + by apply (I10 _ _ _ Hx' E).
Qed.

Lemma move_assign_ok w p rhs : inv w → p ≠ rhs → is_Some (pools w !! p) → usable w rhs → quiet w p → quiet w rhs →
  keeps (move_assign p rhs) (λ _ _, True) (λ _, False) w.
Proof.
  intros I Hne [q Hp] (r & Hr & [m Hm]) Hq1 Hq2. unfold move_assign, keeps. rewrite (bind_Ret _ _ _ _ _ (load_pool_run _ _ _ Hp)).
  assert (∃ w1, (match m_monitor q with Some m => set_owner m rhs;; Abandon m | None => mret tt end) w = (Ret tt, w1) ∧ inv w1 ∧
    (∀ m, m_monitor q = Some m → abandoned w1 m) ∧ pools w1 = pools w ∧ reserved w1 = reserved w) as (w1 & E & I1 & Ha & Ep & Er).
  { destruct (m_monitor q) as [mq|] eqn:Hmq; [|exists w; split_and!; try done].
    destruct (i_monitor _ I _ _ _ Hp Hmq) as [mo Hmo]. exists (set_monitors (<[mq := mkMonitor true rhs]> (monitors w)) w).
    unfold set_owner, Abandon. munfold. cbn. rewrite (alter_alt_Some _ (monitors w) _ mo), alter_insert_eq by done.
    split_and!; try done; [by eapply abandon_ok|]. intros m' [= <-]. eexists. cbn. by rewrite lookup_insert_eq. }
  rewrite (bind_Ret _ _ _ _ _ E). rewrite <-Ep in Hr, Hp. rewrite (bind_Ret _ _ _ _ _ (load_pool_run _ _ _ Hr)).
  destruct (load_monitor_run w1 rhs r I1 Hr) as (m' & mo & Em & Hmo & Hl); [by rewrite Hm|].
  rewrite (bind_Ret _ _ _ _ _ Hl). unfold update_pool, set_owner. munfold. cbn. split; [|done].
  rewrite (alter_alt_Some _ (pools w1) _ r), alter_insert_ne, (alter_alt_Some _ (pools w1) _ q), (alter_alt_Some _ (monitors w1) _ mo) by done.
  rewrite insert_insert_ne by done.
  apply (swap_ok w1 p rhs q r m' mo); try done; intros x; rewrite Er; [apply Hq1|apply Hq2].
Qed.

Lemma insert_empty_ok w p q : inv w → pools w !! p = None → m_monitor q = None → m_objs q = [] → in_range q →
  inv (set_pools (<[p := q]> (pools w)) w).
Proof.
  intros I Hp Em Eo Hr. pose proof I as [I1 I2 I3 I4 I5 I6 I7 I8 If I9 I10].
  split; cbn [pools monitors entries next_entry issued reserved failed trace set_pools]; try done.
  - rewrite caches_insert, Eo. apply life_empty; [done|]. by rewrite lookup_fmap, Hp.
  - intros p' q' e [[<- <-]|[_ H]]%lookup_insert_Some He; [rewrite Eo in He; by apply elem_of_nil in He|by eapply I2].
  - intros p' q' m [[<- <-]|[_ H]]%lookup_insert_Some E; [congruence|by eapply I3].
  - intros p' q' [[<- <-]|[_ H]]%lookup_insert_Some E; [done|by eapply I4].
  - intros p1 p2 q1 q2 m [[<- <-]|[_ ?]]%lookup_insert_Some [[<- <-]|[_ ?]]%lookup_insert_Some ??; [congruence..|by eapply I5].
  - intros m mo Hmo Ha. destruct (I6 _ _ Hmo Ha) as (x & Hx & ?). exists x. rewrite lookup_insert_ne; [done|]. intros ->. congruence.
  - intros r Hr'. destruct (I8 _ Hr') as (x & Hx & ?). exists x. rewrite lookup_insert_ne; [done|]. intros ->. congruence.
  - intros p' q' [[<- <-]|[_ H]]%lookup_insert_Some; [done|by eapply I9].
  - intros p' q' m [[<- <-]|[_ H]]%lookup_insert_Some E; [congruence|by apply (I10 p' q')].
Qed.

Lemma ObjectPool_move_ok w rhs : inv w → usable w rhs → quiet w rhs → keeps (ObjectPool_move rhs) (λ _ _, True) (λ _, False) w.
Proof.
  intros I (r & Hr & Hm) Hq. unfold ObjectPool_move, keeps. munfold. cbn. set (p := fresh (dom (pools w))).
  assert (pools w !! p = None) as Hp by (apply not_elem_of_dom, is_fresh).
  set (q := mkPool None 0 [] size_max size_max 0). assert (in_range q) as Hrange by (split_and!; by vm_compute).
  pose proof (insert_empty_ok w p q I Hp eq_refl eq_refl Hrange) as I1. set (w1 := set_pools (<[p := q]> (pools w)) w) in *.
  assert (p ≠ rhs) as Hne by congruence.
  assert (keeps (move_assign p rhs) (λ _ _, True) (λ _, False) w1) as Hk.
  { apply move_assign_ok; [done|done|eexists; apply lookup_insert_eq| |intros x Hx E|exact Hq].
    - exists r. unfold w1. cbn. by rewrite lookup_insert_ne.
    - destruct (i_reserved _ I x Hx) as (y & Hy & _). congruence. }
  unfold keeps in Hk. destruct (move_assign p rhs w1) as [[] ?]; [|by destruct Hk|done]. by destruct Hk.
Qed.

(** ** All programs *)
(** A client uses pools that were not moved away, gives back what it holds, and
    does not move or destroy a pool while one of its threads is in it. *)
Definition client_ok (w : world) (o : pool_op) : Prop :=
  match o with
  | po_new limit maxPooled => in_size limit ∧ in_size maxPooled
  | po_move rhs => usable w rhs ∧ quiet w rhs
  | po_assign p rhs => p ≠ rhs ∧ is_Some (pools w !! p) ∧ usable w rhs ∧ quiet w p ∧ quiet w rhs
  | po_dtor p => is_Some (pools w !! p) ∧ quiet w p
  | po_call p | po_wait p | po_wait_for _ p | po_clear p | po_preallocate p _ | po_rundown p => usable w p
  | po_construct i => is_Some (reserved w !! i)
  | po_release e => e ∈ issued w
  | po_max p n | po_limit p n => usable w p ∧ in_size n
  end.

Fixpoint client (w : world) (l : list pool_op) : Prop :=
  match l with
  | [] => True
  | o :: l' => client_ok w o ∧ client (run_op throws o w).2 l'
  end.

Lemma keeps_unit {A} (m : M world A) Q X w : keeps m Q X w → keeps (m ≫= λ _, mret tt) (λ _ _, True) (λ _, True) w.
Proof. unfold keeps. munfold. destruct (m w) as [[] ?]; naive_solver. Qed.

Lemma run_op_ok w o : inv w → client_ok w o → keeps (run_op throws o) (λ _ _, True) (λ _, True) w.
Proof.
  intros I. destruct o; simpl.
  - intros [? ?]. destruct (new_ok w limit maxPooled) as [Hnew E]; [done..|]. unfold keeps. munfold.
    destruct (ObjectPool_new limit maxPooled w) as [[] ?]; [by split|done..].
  - intros [? ?]. eapply keeps_unit. by apply ObjectPool_move_ok.
  - intros (? & ? & ? & ? & ?). eapply keeps_conseq; [by apply move_assign_ok|done..].
  - intros [[q Hp] ?]. eapply keeps_conseq; [by eapply dtor_ok|done..].
  - intros ?. eapply keeps_unit. by apply operator_call_ok.
  - intros ?. eapply keeps_unit. by apply (waits_ok w p true).
  - intros ?. eapply keeps_unit. by apply waits_ok.
  - intros [r Hr]. eapply keeps_unit. by eapply construct_ok.
  - intros ?. eapply keeps_conseq; [by apply release_ok|done..].
  - intros ?. eapply keeps_conseq; [by apply Clear_ok|done..].
  - intros [? ?]. eapply keeps_conseq; [by apply SetMaximum_ok|done..].
  - intros [? ?]. eapply keeps_conseq; [by apply SetLimit_ok|done..].
  - intros ?. by apply Preallocate_ok.
  - intros ?. by apply Rundown_ok.
Qed.

Lemma inv_new : inv world_new.
Proof.
  assert (life ∅ 0 [] [] ∅) as L.
  { split; try (by intros *; rewrite lookup_empty); try (by intros * Hin%elem_of_nil); try done.
    constructor. }
  split; cbn; try (by intros *; rewrite lookup_empty); try (by intros * Hin%elem_of_nil). by rewrite fmap_empty.
Qed.

Definition defined {A} (r : outcome A) : Prop := match r with Stuck x => x = blocked | _ => True end.

Lemma inv_step w o : inv w → client_ok w o → inv (run_op throws o w).2 ∧ defined (run_op throws o w).1.
Proof.
  intros I Ho. pose proof (run_op_ok w o I Ho) as H. unfold keeps in H.
  destruct (run_op throws o w) as [[| |r] ?]; simpl; by destruct H.
Qed.

Lemma inv_run l : ∀ w, inv w → client w l → inv (run_ops throws l w).
Proof. induction l as [|o l IH]; intros w I; [done|]. intros [Ho Hl]. apply IH; [|done]. by apply inv_step. Qed.
End ops.

(** What has become of entry [e]. *)
Definition accounted (w : world) (e : nat) : Prop :=
  match stage_of (trace w) e with
  | s_none => next_entry w ≤ e
  | s_out => e ∈ issued w
  | s_idle => ∃ p q, pools w !! p = Some q ∧ e ∈ m_objs q
  | s_dead => entries w !! e = None ∧ e ∉ issued w
  | s_bad => False
  end.

Lemma inv_accounted w e : inv w → accounted w e.
Proof.
  intros I. pose proof (i_life _ I) as L. unfold accounted. destruct (entries w !! e) as [en|] eqn:He.
  - destruct (l_live _ _ _ _ _ L e ltac:(by eexists)) as [_ [Hi|(p & l & Hl & Hx)]].
    + by destruct (l_out _ _ _ _ _ L e Hi) as [_ ->].
    + destruct (l_idle _ _ _ _ _ L p l e Hl Hx) as [_ ->]. apply lookup_fmap_Some in Hl as (q & <- & Hq). by exists p, q.
  - rewrite (l_dead _ _ _ _ _ L e He). case_decide; [|lia]. split; [done|]. intros Hi.
    destruct (l_out _ _ _ _ _ L e Hi) as [[] _]. congruence.
Qed.


(** ** Failures *)
Section failures.
  Context (p : nat) (n : Z).

(** The pool counts [n] outstanding. *)
Definition counts (w : world) : Prop := ∃ q, pools w !! p = Some q ∧ m_outstanding q = n.

Lemma counts_update f : (∀ q, m_outstanding (f q) = m_outstanding q) → preserves counts (update_pool p f).
Proof. intros Hf w (q & Hp & E). exists (f q). unfold update_pool. munfold. cbn. by rewrite lookup_alter_eq, Hp, Hf. Qed.

Ltac preserve_counts :=
  unfold load_pool, load_monitor, delete_entry, emit;
  repeat first [apply preserves_bind; [|intros ?]|case_match|apply preserves_get|apply preserves_deref|apply preserves_ret|done
    |apply preserves_modify; intros w H; exact H|by apply counts_update].

Lemma counts_trim fuel : preserves counts (trim_loop fuel p).
Proof. induction fuel as [|fuel IH]; [apply preserves_stuck|]. unfold trim_loop. fold trim_loop. preserve_counts. Qed.

Lemma counts_SetMaximum k : preserves counts (SetMaximumPooledEntities p k).
Proof. unfold SetMaximumPooledEntities. pose proof counts_trim. preserve_counts. Qed.
End failures.

(** A construction that fails is counted as outstanding for ever, since
    ObtainElementUnsafe increments the count before the object is constructed and
    nothing decrements it: whatever the client does afterwards, even when it has
    given back every object, Rundown does not return. *)
Theorem failed_construction_blocks_rundown throws l p q m mo :
  (∀ t e, throws t (ev_initial e) = false) → client throws world_new l →
  let w := run_ops throws l world_new in
  pools w !! p = Some q → m_monitor q = Some m → monitors w !! m = Some mo → m_abandoned mo = false →
  0 < failed_in (failed w) m → (Rundown p w).1 = Stuck blocked.
Proof.
  intros calm Hl w Hp Hm Hmo Ha Hf. pose proof (inv_run throws calm l _ inv_new Hl) as I. fold w in I.
  destruct (i_count _ I _ _ _ Hp Hm (not_abandoned _ _ _ Hmo Ha)) as [Ho _].
  assert (keeps (SetMaximumPooledEntities p 0) (λ _, more_usable w) (λ _, False) w) as Hk.
  { apply SetMaximum_ok; [done|exists q; by rewrite Hm|done]. }
  destruct (counts_SetMaximum p (m_outstanding q) 0 w) as (q1 & Hq1 & E1); [by exists q|].
  unfold keeps in Hk. unfold Rundown. destruct (SetMaximumPooledEntities p 0 w) as [[[]|e|r] w1] eqn:E.
  2: by destruct Hk.
  2: { munfold. rewrite E. by destruct Hk as [-> _]. }
  destruct Hk as [I1 Hu]. rewrite (bind_Ret _ _ _ _ _ E). cbn [snd] in *.
  destruct (Hu p) as (q2 & Hq2 & Hm2); [exists q; by rewrite Hm|]. assert (q2 = q1) as -> by congruence.
  destruct (load_monitor_run w1 p q1 I1 Hq1 Hm2) as (m1 & mo1 & _ & _ & Hl1).
  unfold SetOutstandingLimit. rewrite !bind_assoc, (bind_Ret _ _ _ _ _ (load_pool_run _ _ _ Hq1)), bind_assoc, (bind_Ret _ _ _ _ _ Hl1).
  rewrite andb_false_r. unfold update_pool. munfold. cbn. rewrite (alter_alt_Some _ (pools w1) _ q1) by done.
  unfold load_pool. munfold. cbn. rewrite lookup_insert_eq. cbn. rewrite E1, (proj2 (Z.eqb_neq _ _)) by lia. done.
Qed.

(** ** Witnesses and examples *)
Local Abbreviation calm := (λ (_ : list event) (_ : event), false).

(** Two objects, a cache for one. *)
Definition two_objects : list pool_op :=
  [po_new 2 1; po_call 0; po_construct 0; po_call 0; po_construct 0; po_release 0; po_release 1].

Lemma two_objects_client : client calm world_new two_objects.
Proof.
  cbn [client two_objects client_ok]. split_and!; try done.
  all: try (eexists; split; [vm_compute; reflexivity|vm_compute; by eexists]).
  all: try (vm_compute; by eexists).
  all: apply (bool_decide_unpack _); vm_compute; exact I.
Qed.


(** The first construction fails. *)
Definition fails_once (t : list event) (ev : event) : bool :=
  match ev, t with ev_construct _, [] => true | _, _ => false end.

Definition after_failure : list pool_op := [po_new 2 1; po_call 0; po_construct 0; po_call 0; po_construct 0; po_release 0].

Lemma after_failure_client : client fails_once world_new after_failure.
Proof.
  cbn [client after_failure client_ok]. split_and!; try done.
  all: try (eexists; split; [vm_compute; reflexivity|vm_compute; by eexists]).
  all: try (vm_compute; by eexists).
  all: apply (bool_decide_unpack _); vm_compute; exact I.
Qed.

Lemma failed_construction_blocks_rundown_witness :
  let w := run_ops fails_once after_failure world_new in
  issued w = [] ∧ reserved w = [] ∧ (Rundown 0 w).1 = Stuck blocked.
Proof.
  split; [vm_compute; reflexivity|]. split; [vm_compute; reflexivity|].
  eapply (failed_construction_blocks_rundown fails_once after_failure 0 _ 0 _); [done|exact after_failure_client|vm_compute; reflexivity..|].
  apply Nat.ltb_lt. vm_compute. reflexivity.
Defined.

(** When the initial function throws for a cached object, the deleter of the shared
    pointer locks the mutex that [operator()] holds. *)
Lemma throwing_initializer_deadlocks throws w p q l e :
  inv w → pools w !! p = Some q → is_Some (m_monitor q) → m_objs q = l ++ [e] → (m_outstanding q < m_limit q)%Z →
  (∀ t, throws t (ev_initial e) = true) → (operator_call throws p w).1 = Stuck blocked.
Proof.
  intros I Hp Hm El Hlt Hthrow. destruct (load_monitor_run w p q I Hp Hm) as (m & mo & Em & Hmo & Hl).
  destruct (i_tied _ I p q e Hp) as (en & Hen & Ht & _); [rewrite El; apply elem_of_app; right; left|].
  unfold operator_call. rewrite (bind_Ret _ _ _ _ _ (load_pool_run _ _ _ Hp)), (bind_Ret _ _ _ _ _ Hl).
  destruct (Z.leb_spec (m_limit q) (m_outstanding q)); [lia|].
  unfold ObtainElementUnsafe. rewrite (bind_Ret _ _ _ _ _ (load_pool_run _ _ _ Hp)), El, last_snoc.
  unfold update_pool, Wrap, drop_entry, Return, load_pool, load_monitor, emit. munfold. cbn.
  rewrite (alter_alt_Some _ (pools w) _ q) by done. rewrite lookup_insert_eq. cbn. rewrite Em. cbn. rewrite Hmo. cbn. rewrite Hthrow. cbn.
  rewrite Hen. cbn. rewrite bool_decide_true by congruence. done.
Qed.
