(* ===== verification/TeardownNotifier.v ===== *)
(** * TeardownNotifier: listeners that are told of a teardown

    src/src/autowiring/TeardownNotifier.{h,cpp}: the list of listeners as entries at
    addresses, added by any number of threads, one step per access to the atomic head;
    the compare-and-exchange may also fail spuriously.  What teardown calls is exactly
    determined by which of these calls failed. *)
From stdpp Require Import base gmap list.
From Stdlib Require Import Lia.
From S2P Require Import Prelude.
Local Open Scope nat_scope.

Definition listener : Type := nat.
Definition entry_addr : Type := nat.
Bind Scope nat_scope with listener entry_addr.

Record EntryBase := mkEntryBase { pFlink : option entry_addr; fx : listener }.

(** A thread in [AddTeardownListenerInternal]: its entry, [priorHead], and whether its
    [compare_exchange_weak] failed before.  Between calls it has listeners yet to add. *)
Inductive adder := idle | adding (e : entry_addr) (priorHead : option entry_addr) (failed : bool).

(** [added]: the listeners added so far, the last one first, each with whether its
    compare-and-exchange failed before it succeeded. *)
Record notifier := mkNotifier {
  m_pFirstTeardownListener : option entry_addr;
  entries : gmap entry_addr EntryBase;
  next_entry : entry_addr;
  adders : list (adder * list listener);
  added : list (listener * bool);
  called : list listener }.

Definition TeardownNotifier_new (programs : list (list listener)) : notifier :=
  mkNotifier None ∅ 0 (map (pair idle) programs) [] [].

Definition set_first x w := mkNotifier x (entries w) (next_entry w) (adders w) (added w) (called w).
Definition set_entries x w := mkNotifier (m_pFirstTeardownListener w) x (next_entry w) (adders w) (added w) (called w).
Definition set_next x w := mkNotifier (m_pFirstTeardownListener w) (entries w) x (adders w) (added w) (called w).
Definition set_adders x w := mkNotifier (m_pFirstTeardownListener w) (entries w) (next_entry w) x (added w) (called w).
Definition set_added x w := mkNotifier (m_pFirstTeardownListener w) (entries w) (next_entry w) (adders w) x (called w).
Definition set_called x w := mkNotifier (m_pFirstTeardownListener w) (entries w) (next_entry w) (adders w) (added w) x.

Local Abbreviation M := (M notifier).

(** [AddTeardownListener]: the new entry, and the first read of the head. *)
Definition AddTeardownListener (f : listener) : M adder :=
  w ← get;
  modify (set_next (S (next_entry w)));;
  modify (set_entries (<[next_entry w := mkEntryBase None f]> (entries w)));;
  mret (adding (next_entry w) (m_pFirstTeardownListener w) false).

(** A turn of the loop; a failure writes the head to [priorHead], and the body links the
    entry, which no other thread can see yet. *)
Definition AddTeardownListenerInternal (spurious : bool) (e : entry_addr) (priorHead : option entry_addr) (failed : bool) : M adder :=
  w ← get;
  if bool_decide (m_pFirstTeardownListener w = priorHead) && negb spurious then
    x ← deref (entries w !! e);
    modify (set_first (Some e));; modify (set_added ((fx x, failed) :: added w));; mret idle
  else
    let priorHead := m_pFirstTeardownListener w in
    x ← deref (entries w !! e);
    modify (set_entries (<[e := mkEntryBase priorHead (fx x)]> (entries w)));; mret (adding e priorHead true).

(** Thread [n] takes a step. *)
Definition step (n : nat) (spurious : bool) : M unit :=
  w ← get;
  match adders w !! n with
  | Some (idle, f :: fs) => a ← AddTeardownListener f; modify (λ w, set_adders (<[n := (a, fs)]> (adders w)) w)
  | Some (adding e p b, fs) => a ← AddTeardownListenerInternal spurious e p b; modify (λ w, set_adders (<[n := (a, fs)]> (adders w)) w)
  | _ => mret tt
  end.

Fixpoint run (schedule : list (nat * bool)) : M unit :=
  match schedule with
  | [] => mret tt
  | x :: schedule' => step x.1 x.2;; run schedule'
  end.

(** [NotifyTeardownListeners], with listeners that add none; the destructor calls it. *)
Fixpoint notify_loop (fuel : nat) (cur : option entry_addr) : M unit :=
  match fuel, cur with
  | _, None => mret tt
  | O, _ => stuck out_of_fuel
  | S fuel', Some c =>
    w ← get; x ← deref (entries w !! c);
    modify (set_called (called w ++ [fx x]));;
    modify (set_entries (delete c (entries w)));;
    notify_loop fuel' (pFlink x)
  end.

Definition NotifyTeardownListeners (fuel : nat) : M unit :=
  w ← get; notify_loop fuel (m_pFirstTeardownListener w);; modify (set_first None).

(** ** The list *)
(** An entry keeps those before it only if its compare-and-exchange failed once. *)
Fixpoint kept (l : list (listener * bool)) : list listener :=
  match l with
  | [] => []
  | (f, failed) :: l' => f :: (if failed : bool then kept l' else [])
  end.

Fixpoint chain (m : gmap entry_addr EntryBase) (p : option entry_addr) (l : list (entry_addr * listener)) : Prop :=
  match l with
  | [] => p = None
  | (a, f) :: l' => p = Some a ∧ ∃ q, m !! a = Some (mkEntryBase q f) ∧ chain m q l'
  end.

Lemma chain_frame m m' p l : (∀ a, a ∈ l.*1 → m' !! a = m !! a) → chain m p l → chain m' p l.
Proof.
  revert p. induction l as [|[a f] l IH]; intros p Hm; [done|]. intros (-> & q & E & Hc). split; [done|]. exists q.
  split; [rewrite Hm; [done|left]|]. apply IH; [|done]. intros b Hb. apply Hm. by right.
Qed.

Lemma notified_chain_live m p l a : chain m p l → a ∈ l.*1 → is_Some (m !! a).
Proof.
  revert p. induction l as [|[b f] l IH]; intros p Hc Ha; [by apply elem_of_nil in Ha|]. destruct Hc as (_ & q & E & Hc).
  apply elem_of_cons in Ha as [-> |Ha]; [by eexists|by eapply IH].
Qed.

Definition adder_at (l : list (adder * list listener)) (n : nat) (e : entry_addr) (p : option entry_addr) (b : bool) : Prop := ∃ fs, l !! n = Some (adding e p b, fs).

Record notifier_inv (l : list (entry_addr * listener)) (w : notifier) : Prop := {
  t_chain : chain (entries w) (m_pFirstTeardownListener w) l;
  t_kept : l.*2 = kept (added w);
  t_nodup : NoDup l.*1;
  t_fresh : ∀ a, is_Some (entries w !! a) → a < next_entry w;
  t_adder : ∀ n e p b, adder_at (adders w) n e p b → e ∉ l.*1 ∧ ∃ f, entries w !! e = Some (mkEntryBase (if b then p else None) f);
  t_apart : ∀ n n' e p b p' b', adder_at (adders w) n e p b → adder_at (adders w) n' e p' b' → n = n' }.

(** A thread other than the one that took a step. *)
Lemma adder_insert l n x m e p b : adder_at (<[n := x]> l) m e p b → m = n ∧ x.1 = adding e p b ∨ m ≠ n ∧ adder_at l m e p b.
Proof.
  intros [fs Hm]. apply list_lookup_insert_Some in Hm as [(-> & -> & _)|[Hne Hm]]; [by left|right]. split; [done|by exists fs].
Qed.

Lemma AddTeardownListener_ok l w n f fs fs' : notifier_inv l w → adders w !! n = Some (idle, fs) →
  ∃ a w', AddTeardownListener f w = (Ret a, w') ∧ adders w' = adders w ∧ added w' = added w ∧ called w' = called w ∧ notifier_inv l (set_adders (<[n := (a, fs')]> (adders w')) w').
Proof.
  intros [H1 H2 H3 H4 H5 H6] Hn. assert (entries w !! next_entry w = None) as Hnone by (apply eq_None_not_Some; intros ?%H4; lia).
  assert (∀ a, a ∈ l.*1 → a ≠ next_entry w) as Hl by (intros a Ha ->; eapply notified_chain_live in Ha; [|done]; rewrite Hnone in Ha; by destruct Ha).
  eexists _, _. split; [done|]. split_and!; [done..|]. cbn. split; cbn; try done.
  - eapply chain_frame; [|done]. intros a Ha. apply lookup_insert_ne. intros <-. by eapply Hl.
  - intros a. rewrite lookup_insert_is_Some'. intros [<-|?%H4]; lia.
  - intros m e p b [(_ & [= <- <- <-])|[_ Hm]]%adder_insert; cbn; [split; [by intros ?%Hl|exists f; apply lookup_insert_eq]|].
    destruct (H5 _ _ _ _ Hm) as [He [g Hg]]. split; [done|exists g]. rewrite lookup_insert_ne; [done|]. intros <-. congruence.
  - assert (∀ m p b, ¬ adder_at (adders w) m (next_entry w) p b) as Hno by (intros m p b Hm; destruct (H5 _ _ _ _ Hm) as [_ [g Hg]]; congruence).
    intros m m' e p b p' b' [(-> & E)|[_ Hm]]%adder_insert [(-> & E')|[_ Hm']]%adder_insert; cbn in *; simplify_eq; [done|by destruct (Hno _ _ _ Hm')| |by eapply H6].
    by destruct (Hno _ _ _ Hm).
Qed.

Lemma AddTeardownListenerInternal_ok l w n s e p b fs : notifier_inv l w → adders w !! n = Some (adding e p b, fs) →
  ∃ a w' l', AddTeardownListenerInternal s e p b w = (Ret a, w') ∧ adders w' = adders w ∧ called w' = called w ∧ notifier_inv l' (set_adders (<[n := (a, fs)]> (adders w')) w').
Proof.
  intros [H1 H2 H3 H4 H5 H6] Hn. assert (adder_at (adders w) n e p b) as Ha by (by exists fs). destruct (H5 _ _ _ _ Ha) as [He [f Hf]].
  unfold AddTeardownListenerInternal. erewrite bind_Ret by done. destruct (bool_decide (m_pFirstTeardownListener w = p) && negb s) eqn:E.
  - apply andb_true_iff in E as [Ep%bool_decide_eq_true _]. rewrite Hf. erewrite bind_Ret by done.
    set (l' := (e, f) :: if b then l else []). assert (∀ a, a ∈ l'.*1 → a = e ∨ a ∈ l.*1) as Hl' by (intros a; destruct b; cbn; rewrite elem_of_cons, ?elem_of_nil; naive_solver).
    eexists _, _, l'. split; [done|]. split_and!; [done..|]. split; cbn.
    + split; [done|]. eexists. split; [exact Hf|]. destruct b; [by rewrite <-Ep|done].
    + f_equal. by destruct b.
    + apply NoDup_cons. destruct b; [by split|]. split; [by intros ?%elem_of_nil|constructor].
    + done.
    + intros m e' p' b' [(_ & [=])|[Hm Hm']]%adder_insert. destruct (H5 _ _ _ _ Hm') as [He' Hf']. split; [|done]. intros [-> |?]%Hl'; [|done].
      destruct Hm. eapply H6; [exact Hm'|exact Ha].
    + intros m m' e' p1 b1 p2 b2 [(_ & [=])|[_ Hm]]%adder_insert [(_ & [=])|[_ Hm']]%adder_insert. by eapply H6.
  - rewrite Hf. erewrite bind_Ret by done. eexists _, _, l. split; [done|]. split_and!; [done..|]. split; cbn; try done.
    + eapply chain_frame; [|done]. intros a Hin. apply lookup_insert_ne. by intros <-.
    + intros a. rewrite lookup_insert_is_Some'. intros [<-|?]; apply H4; [by eexists|done].
    + intros m e' p' b' [(_ & [= <- <- <-])|[Hm Hm']]%adder_insert; [split; [done|exists f; apply lookup_insert_eq]|].
      destruct (H5 _ _ _ _ Hm') as [He' [g Hg]]. split; [done|exists g]. rewrite lookup_insert_ne; [done|]. intros <-. destruct Hm. eapply H6; [exact Hm'|exact Ha].
    + intros m m' e' p1 b1 p2 b2 [(-> & E1)|[Hne Hm]]%adder_insert [(-> & E2)|[Hne' Hm']]%adder_insert; cbn in *; simplify_eq; [done| | |by eapply H6].
      * destruct Hne'. eapply H6; [exact Hm'|exact Ha].
      * destruct Hne. eapply H6; [exact Hm|exact Ha].
Qed.

Lemma step_ok n s l w : notifier_inv l w → ∃ w' l', step n s w = (Ret tt, w') ∧ notifier_inv l' w' ∧ called w' = called w.
Proof.
  intros Hi. unfold step. rewrite (bind_Ret _ _ _ w w) by done. destruct (adders w !! n) as [[[|e p b] [|f fs]]|] eqn:En; try by exists w, l.
  - destruct (AddTeardownListener_ok l w n f _ fs Hi En) as (a & w' & E & _ & _ & Ec & Hi'). rewrite (bind_Ret _ _ _ _ _ E). by eexists _, _.
  - destruct (AddTeardownListenerInternal_ok l w n s e p b _ Hi En) as (a & w' & l' & E & _ & Ec & Hi'). rewrite (bind_Ret _ _ _ _ _ E). by eexists _, _.
  - destruct (AddTeardownListenerInternal_ok l w n s e p b _ Hi En) as (a & w' & l' & E & _ & Ec & Hi'). rewrite (bind_Ret _ _ _ _ _ E). by eexists _, _.
Qed.

Lemma notifier_run_ok schedule l w : notifier_inv l w → ∃ w' l', run schedule w = (Ret tt, w') ∧ notifier_inv l' w' ∧ called w' = called w.
Proof.
  revert l w. induction schedule as [|[n s] schedule IH]; intros l w Hi; [by exists w, l|]. cbn.
  destruct (step_ok n s l w Hi) as (w1 & l1 & E & Hi1 & Ec). rewrite (bind_Ret _ _ _ _ _ E). destruct (IH _ _ Hi1) as (w2 & l2 & E2 & Hi2 & Ec2).
  exists w2, l2. split_and!; [done|done|congruence].
Qed.

Lemma notify_loop_ok fuel l p w : chain (entries w) p l → NoDup l.*1 → length l ≤ fuel →
  ∃ m, notify_loop fuel p w = (Ret tt, set_called (called w ++ l.*2) (set_entries m w)).
Proof.
  revert fuel p w. induction l as [|[a f] l IH]; intros fuel p w Hc Hnd Hf; [rewrite Hc; exists (entries w); cbn; rewrite app_nil_r; by destruct fuel, w|].
  destruct fuel as [|fuel]; [cbn in Hf; lia|]. destruct Hc as (-> & q & E & Hc). apply NoDup_cons in Hnd as [Ha Hnd]. cbn [notify_loop].
  rewrite (bind_Ret _ _ _ w w) by done. rewrite E. do 3 erewrite bind_Ret by done. cbn [pFlink fx].
  destruct (IH fuel q (set_entries (delete a (entries w)) (set_called (called w ++ [f]) w))) as [m Em]; [|done|cbn in Hf; lia|].
  - eapply chain_frame; [|done]. intros b Hb. apply lookup_delete_ne. by intros ->.
  - rewrite Em. exists m. cbn. by rewrite <-app_assoc.
Qed.

Lemma notifier_inv_new programs : notifier_inv [] (TeardownNotifier_new programs).
Proof.
  assert (∀ n e p b, ¬ adder_at (map (pair idle) programs) n e p b) as Hno by (intros n e p b [fs Hn]; by apply list_lookup_fmap_Some in Hn as (? & [= <- _] & _)).
  split; cbn; try done; [constructor|by intros a [? ?%lookup_empty_Some]|by intros n e p b ?%Hno|by intros n n' e p b p' b' ?%Hno].
Qed.


(** One thread, whose compare-and-exchange never fails, loses all listeners but the last. *)
Lemma one_adder fs w : adders w = [(idle, fs)] → (∀ a, is_Some (entries w !! a) → a < next_entry w) →
  ∃ w', run (replicate (2 * length fs) (0, false)) w = (Ret tt, w') ∧ added w' = map (λ f, (f, false)) (rev fs) ++ added w.
Proof.
  revert w. induction fs as [|f fs IH]; intros w Ha Hf; [by exists w|]. replace (2 * length (f :: fs)) with (S (S (2 * length fs))) by (cbn; lia). cbn [replicate run fst snd].
  set (w1 := set_adders [(adding (next_entry w) (m_pFirstTeardownListener w) false, fs)] (set_entries (<[next_entry w := mkEntryBase None f]> (entries w)) (set_next (S (next_entry w)) w))).
  assert (step 0 false w = (Ret tt, w1)) as E1. { unfold step. rewrite (bind_Ret _ _ _ w w) by done. rewrite Ha. cbn. unfold AddTeardownListener. munfold. cbn. by rewrite Ha. }
  rewrite (bind_Ret _ _ _ _ _ E1). set (w2 := set_adders [(idle, fs)] (set_added ((f, false) :: added w) (set_first (Some (next_entry w)) w1))).
  assert (step 0 false w1 = (Ret tt, w2)) as E2.
  { unfold step. rewrite (bind_Ret _ _ _ w1 w1) by done. cbn [adders w1 set_adders lookup list_lookup]. unfold AddTeardownListenerInternal. munfold. cbn.
    rewrite bool_decide_true by done. cbn. by rewrite lookup_insert_eq. }
  rewrite (bind_Ret _ _ _ _ _ E2). destruct (IH w2) as (w3 & E3 & Ea); [done| |].
  - intros a. cbn. rewrite lookup_insert_is_Some'. intros [<-|?%Hf]; lia.
  - exists w3. split; [done|]. rewrite Ea. cbn. rewrite map_app. cbn. by rewrite <-app_assoc.
Qed.

Theorem TeardownNotifier_loses_listeners (fs : list listener) (f : listener) (fuel : nat) : length fs < fuel →
  ∃ w w', run (replicate (2 * length (fs ++ [f])) (0, false)) (TeardownNotifier_new [fs ++ [f]]) = (Ret tt, w) ∧
    NotifyTeardownListeners fuel w = (Ret tt, w') ∧ called w' = [f].
Proof.
  intros Hf. destruct (one_adder (fs ++ [f]) (TeardownNotifier_new [fs ++ [f]])) as (w & E & Ea); [done|intros a [x Hx]; cbn in Hx; by rewrite lookup_empty in Hx|].
  assert (kept (added w) = [f]) as Ek by (by rewrite Ea, rev_app_distr).
  destruct (notifier_run_ok (replicate (2 * length (fs ++ [f])) (0, false)) _ _ (notifier_inv_new [fs ++ [f]])) as (w1 & l & E1 & Hi & Ec).
  assert (w1 = w) as -> by congruence. assert (length l = 1) as Hl by (by rewrite <-(length_fmap snd l), (t_kept _ _ Hi), Ek).
  destruct (notify_loop_ok fuel l _ w (t_chain _ _ Hi) (t_nodup _ _ Hi) ltac:(lia)) as [m Em].
  eexists w, _. split; [done|]. unfold NotifyTeardownListeners. rewrite (bind_Ret _ _ _ w w) by done. rewrite (bind_Ret _ _ _ _ _ Em). split; [done|].
  cbn. by rewrite Ec, (t_kept _ _ Hi), Ek.
Qed.
