(* ===== verification/Optional.v ===== *)
(** * optional: a value in raw storage, or nothing

    src/src/autowiring/optional.h.  The storage of an optional has an object or not,
    [m_valid] is a flag beside it; the lifetimes of the objects are explicit.  The
    values of the objects and what moving does to them are parameters.  The
    specification is a variable that has a value or not. *)
From stdpp Require Import base gmap list strings.
From Stdlib Require Import Lia.
From S2P Require Import Prelude.
Local Open Scope nat_scope.

Section optional.
  Context {V : Type} `{EqDecision V} (lt : V → V → bool).
  Context (moved self_moved : V → V).
  Context (trivial : bool).

(** [moved]: what a value is after it was moved from, [self_moved]: after it was
    assigned to itself by move.  [trivial]: copying the bytes of an object of [T] makes
    another object.  [val]: the object in the storage. *)
Record optional := mkOptional { val : option V; m_valid : bool }.

(** The variables there are; objects made and destroyed. *)
Record world := mkWorld { vars : gmap nat optional; constructed : nat; destroyed : nat }.

Definition set_vars x w := mkWorld x (constructed w) (destroyed w).

(** What a client does with the variables, by their names. *)
Inductive op :=
  | oo_default (i : nat) | oo_copy (i j : nat) | oo_move (i j : nat) | oo_of (i : nat) (v : V) | oo_delete (i : nat)
  | oo_value (i : nat) | oo_test (i : nat) | oo_equal (i j : nat) | oo_equal_value (i : nat) (v : V) | oo_less (i j : nat)
  | oo_placement (i : nat) (v : V)
  | oo_assign_move (i j : nat) | oo_assign_copy (i j : nat) | oo_assign (i : nat) (v : V)
  | oo_swap (i j : nat)
  | oo_emplace (i : nat) (v : option V).

Inductive result := r_none | r_bool (b : bool) | r_value (v : V).

Local Abbreviation M := (M world).

(** The variable [i], which is there; a new one. *)
Definition var (i : nat) : M optional := w ← get; deref (vars w !! i).
Definition put_var (i : nat) (o : optional) : M unit := modify (λ w, set_vars (<[i := o]> (vars w)) w).
Definition new_var (i : nat) : M unit :=
  w ← get;
  match vars w !! i with
  | None => put_var i (mkOptional None false)
  | Some _ => stuck undefined_behavior
  end.

Definition set_valid (i : nat) (b : bool) : M unit := o ← var i; put_var i (mkOptional (val o) b).

(** The object in the storage of a variable: placement new, the destructor, [_value()],
    assignment. *)
Definition construct (i : nat) (v : V) : M unit :=
  o ← var i; put_var i (mkOptional (Some v) (m_valid o));; modify (λ w, mkWorld (vars w) (S (constructed w)) (destroyed w)).
Definition destroy (i : nat) : M unit :=
  o ← var i; _ ← deref (val o); put_var i (mkOptional None (m_valid o));; modify (λ w, mkWorld (vars w) (constructed w) (S (destroyed w))).
Definition _value (i : nat) : M V := o ← var i; deref (val o).
Definition assign_value (i : nat) (v : V) : M unit := o ← var i; _ ← deref (val o); put_var i (mkOptional (Some v) (m_valid o)).

(** [std::move] of the object of [j], into a new object or an old one. *)
Definition move_from (j : nat) : M V := v ← _value j; assign_value j (moved v);; mret v.

Definition optional_default (i : nat) : M unit := new_var i.

(** The copy constructor is the default one: it copies bytes. *)
Definition optional_copy (i j : nat) : M unit :=
  o ← var j;
  new_var i;;
  put_var i (mkOptional (if trivial then val o else None) (m_valid o));;
  if trivial then match val o with Some _ => modify (λ w, mkWorld (vars w) (S (constructed w)) (destroyed w)) | None => mret tt end else mret tt.

Definition optional_move (i j : nat) : M unit :=
  o ← var j;
  new_var i;;
  set_valid i (m_valid o);;
  when (m_valid o) (v ← move_from j; construct i v;; destroy j;; set_valid j false).

Definition optional_of (i : nat) (v : V) : M unit := new_var i;; set_valid i true;; construct i v.

Definition optional_dtor (i : nat) : M unit :=
  o ← var i; when (m_valid o) (destroy i);; modify (λ w, set_vars (delete i (vars w)) w).

Definition value (i : nat) : M V :=
  o ← var i;
  if negb (m_valid o) then throw (runtime_error "Attempted to access an uninitialized optional value")
  else _value i.

Definition placement (i : nat) (v : V) : M unit := construct i v;; set_valid i true.

(** [operator==], [operator<]. *)
Definition equal (i j : nat) : M bool :=
  a ← var i; b ← var j;
  if negb (m_valid a) && negb (m_valid b) then mret true
  else if m_valid a && m_valid b then x ← _value i; y ← _value j; mret (bool_decide (x = y))
  else mret false.
Definition equal_value (i : nat) (v : V) : M bool :=
  a ← var i; if m_valid a then x ← _value i; mret (bool_decide (x = v)) else mret false.
Definition less (i j : nat) : M bool :=
  a ← var i; b ← var j;
  if negb (m_valid a) && negb (m_valid b) then mret true
  else if m_valid a && m_valid b then x ← _value i; y ← _value j; mret (lt x y)
  else mret false.

(** [operator=] of a value, copied or moved. *)
Definition assign (i : nat) (v : V) : M unit :=
  o ← var i;
  if m_valid o then assign_value i v else construct i v;; set_valid i true.

Definition invalidate (i : nat) : M unit := o ← var i; when (m_valid o) (set_valid i false;; destroy i).

Definition assign_move (i j : nat) : M unit :=
  b ← var j;
  if m_valid b
  then if decide (i = j) then v ← _value i; assign_value i (self_moved v) else v ← move_from j; assign i v
  else invalidate i.

Definition assign_copy (i j : nat) : M unit :=
  b ← var j;
  if m_valid b then v ← _value j; assign i v else invalidate i.

Definition swap (i j : nat) : M unit :=
  a ← var i; b ← var j;
  if m_valid a then
    if m_valid b then x ← _value i; y ← _value j; assign_value i y;; assign_value j x
    else v ← move_from i; construct j v;; set_valid j true;; set_valid i false;; destroy i
  else when (m_valid b) (v ← move_from j; construct i v;; set_valid i true;; set_valid j false;; destroy j).

(** [None]: the constructor throws. *)
Definition emplace (i : nat) (v : option V) : M unit :=
  a ← var i;
  (if m_valid a then destroy i else set_valid i true);;
  match v with Some v => construct i v | None => throw (user_exception 0) end.

Definition exec (o : op) : M result :=
  match o with
  | oo_default i => optional_default i;; mret r_none
  | oo_copy i j => optional_copy i j;; mret r_none
  | oo_move i j => optional_move i j;; mret r_none
  | oo_of i v => optional_of i v;; mret r_none
  | oo_delete i => optional_dtor i;; mret r_none
  | oo_value i => v ← value i; mret (r_value v)
  | oo_test i => o ← var i; mret (r_bool (m_valid o))
  | oo_equal i j => b ← equal i j; mret (r_bool b)
  | oo_equal_value i v => b ← equal_value i v; mret (r_bool b)
  | oo_less i j => b ← less i j; mret (r_bool b)
  | oo_placement i v => placement i v;; mret r_none
  | oo_assign_move i j => assign_move i j;; mret r_none
  | oo_assign_copy i j => assign_copy i j;; mret r_none
  | oo_assign i v => assign i v;; mret r_none
  | oo_swap i j => swap i j;; mret r_none
  | oo_emplace i v => emplace i v;; mret r_none
  end.
End optional.
