(* ===== verification/OptionalFacts.v ===== *)
(** * optional: what it promises

    An optional is a variable that has a value or not: the specification, the
    simulation of each operation, and what is not as specified. *)
From stdpp Require Import base gmap list strings.
From Stdlib Require Import Lia.
From S2P Require Import Prelude.
From S2P Require Import Optional.
Local Open Scope nat_scope.

Section spec.
  Context {V : Type} `{EqDecision V} (lt : V → V → bool) (moved self_moved : V → V).

(** [leaked]: objects that [placement] made others over. *)
Record spec := mkSpec { values : gmap nat (option V); leaked : nat }.

Local Abbreviation M := (M spec).

Definition get_value (i : nat) : M (option V) := s ← get; deref (values s !! i).
Definition put_value (i : nat) (a : option V) : M unit := modify (λ s, mkSpec (<[i := a]> (values s)) (leaked s)).
Definition new_value (i : nat) (a : option V) : M unit :=
  s ← get; match values s !! i with None => put_value i a | Some _ => stuck undefined_behavior end.

Definition spec_exec (o : op (V := V)) : M (result (V := V)) :=
  match o with
  | oo_default i => new_value i None;; mret r_none
  | oo_copy i j => a ← get_value j; new_value i a;; mret r_none
  | oo_move i j => a ← get_value j; new_value i a;; put_value j None;; mret r_none
  | oo_of i v => new_value i (Some v);; mret r_none
  | oo_delete i => _ ← get_value i; modify (λ s, mkSpec (delete i (values s)) (leaked s));; mret r_none
  | oo_value i =>
    a ← get_value i;
    match a with Some v => mret (r_value v) | None => throw (runtime_error "Attempted to access an uninitialized optional value") end
  | oo_test i => a ← get_value i; mret (r_bool (bool_decide (is_Some a)))
  | oo_equal i j => a ← get_value i; b ← get_value j; mret (r_bool (bool_decide (a = b)))
  | oo_equal_value i v => a ← get_value i; mret (r_bool (bool_decide (a = Some v)))
  | oo_less i j => a ← get_value i; b ← get_value j; mret (r_bool (match a, b with Some x, Some y => lt x y | None, None => true | _, _ => false end))
  | oo_placement i v => a ← get_value i; put_value i (Some v);; modify (λ s, mkSpec (values s) (leaked s + match a with Some _ => 1 | None => 0 end));; mret r_none
  | oo_assign_move i j =>
    b ← get_value j; _ ← get_value i;
    match b with
    | None => put_value i None
    | Some v => if decide (i = j) then put_value i (Some (self_moved v)) else put_value j (Some (moved v));; put_value i (Some v)
    end;;
    mret r_none
  | oo_assign_copy i j => b ← get_value j; _ ← get_value i; put_value i b;; mret r_none
  | oo_assign i v => _ ← get_value i; put_value i (Some v);; mret r_none
  | oo_swap i j => a ← get_value i; b ← get_value j; put_value i b;; put_value j a;; mret r_none
  | oo_emplace i v => _ ← get_value i; put_value i v;; mret r_none
  end.

(** ** What an optional looks like *)
Context (trivial : bool).
Local Abbreviation exec := (Optional.exec lt moved self_moved trivial).

Definition enc (a : option V) : optional := mkOptional a (bool_decide (is_Some a)).

(** How many variables have a value. *)
Definition live (m : gmap nat (option V)) : nat := size (omap id m).
Definition has (a : option (option V)) : nat := match a with Some (Some _) => 1 | _ => 0 end.

Lemma live_assigned i a m : live (<[i := a]> m) + has (m !! i) = live m + has (Some a).
Proof.
  unfold live. destruct a as [v|].
  - rewrite (omap_insert_Some _ _ _ _ v) by done. destruct (m !! i) as [[x|]|] eqn:E.
    + rewrite map_size_insert_Some by (rewrite lookup_omap, E; by eexists). done.
    + rewrite map_size_insert_None by (by rewrite lookup_omap, E). cbn. lia.
    + rewrite map_size_insert_None by (by rewrite lookup_omap, E). cbn. lia.
  - rewrite omap_insert_None by done. destruct (m !! i) as [[x|]|] eqn:E.
    + rewrite map_size_delete_Some by (rewrite lookup_omap, E; by eexists). cbn.
      assert (size (omap id m) ≠ 0); [|lia]. apply map_size_non_empty_iff. intros Hx. assert (omap id m !! i = Some x) as Hy by (by rewrite lookup_omap, E).
      by rewrite Hx, lookup_empty in Hy.
    + rewrite map_size_delete_None by (by rewrite lookup_omap, E). cbn. lia.
    + rewrite map_size_delete_None by (by rewrite lookup_omap, E). cbn. lia.
Qed.

Lemma live_delete i m : live (delete i m) + has (m !! i) = live m.
Proof.
  pose proof (live_assigned i None (delete i m)) as H1. rewrite insert_delete_eq, lookup_delete_eq in H1. pose proof (live_assigned i None m) as H2. cbn in *. lia.
Qed.

Record related (w : world) (s : spec) : Prop := {
  r_vars : vars w = enc <$> values s;
  r_objects : constructed w = destroyed w + live (values s) + leaked s }.

(** The same result as specified. *)
Definition simulated {A} (r : outcome A * world) (r' : outcome A * spec) : Prop :=
  r.1 = r'.1 ∧ match r.1 with Stuck _ => True | _ => related r.2 r'.2 end.

(** What an operation asks for: no bytes copied of an object that is more than bytes, and no
    constructor that throws in [emplace]. *)
Definition allowed (o : op (V := V)) (s : spec) : bool :=
  match o with
  | oo_copy i j => trivial || match values s !! j with Some None => true | _ => false end
  | oo_emplace _ None => false
  | _ => true
  end.

(** Looks variables up, runs what is known; compares maps; counts. *)
Ltac look := repeat (cbn; munfold; cbn; first [rewrite lookup_fmap | rewrite lookup_insert_eq | rewrite lookup_insert_ne by done
  | match goal with Hl : ?m !! ?i = _ |- context [?m !! ?i] => rewrite Hl end]); cbn; munfold; cbn.
Ltac same_map := apply map_eq; intros ?k; rewrite ?lookup_fmap, ?lookup_insert, ?lookup_delete, ?lookup_fmap; repeat (case_decide; simplify_eq); look; try done.
Ltac counts i a m := pose proof (live_assigned i a m); let x := fresh "n" in set (x := live (<[i := a]> m)) in *; clearbody x.
Ltac counted := repeat match goal with
  | |- context [live (<[?i := ?a]> ?m)] => counts i a m
  | _ : context [live (<[?i := ?a]> ?m)] |- _ => counts i a m
  | |- context [live (delete ?i ?m)] => pose proof (live_delete i m); let x := fresh "n" in set (x := live (delete i m)) in *; clearbody x
  end; repeat match goal with H : context [has (<[_ := _]> _ !! _)] |- _ => rewrite lookup_insert_eq in H || rewrite lookup_insert_ne in H by done end;
  repeat match goal with Hl : ?m !! ?i = _, H : context [?m !! ?i] |- _ => rewrite Hl in H end; cbn in *; lia.
Ltac simulates := split; [look; try done; do 2 f_equal; apply bool_decide_ext; naive_solver|look; try (split; [cbn; same_map|cbn; counted]); try done].

Ltac opened := unfold optional_default, optional_copy, optional_move, optional_of, optional_dtor, value, placement, equal, equal_value, less, assign_move, assign_copy, invalidate, assign, swap, emplace,
  set_valid, construct, destroy, move_from, _value, assign_value, new_var, var, put_var, get_value, new_value, put_value, simulated; munfold.

Lemma simulate_one i o w s : related w s → allowed o s = true →
  match o with oo_default i' | oo_of i' _ | oo_delete i' | oo_value i' | oo_test i' | oo_equal_value i' _ | oo_placement i' _ | oo_assign i' _ | oo_emplace i' _ => i' = i | _ => False end →
  simulated (exec o w) (spec_exec o s).
Proof.
  intros [Ev Ec] Ha Hi. destruct w as [vs c d], s as [m k]. cbn in Ev, Ec. subst vs c.
  destruct o as [| | | | | | | | | | | | | | |i' [v'|]]; try done; subst; cbn in Ha |- *; opened; cbn; rewrite lookup_fmap; destruct (m !! i) as [[x|]|] eqn:E; by simulates.
Qed.

Lemma simulate_copy i j w s : related w s → allowed (oo_copy i j) s = true → simulated (exec (oo_copy i j) w) (spec_exec (oo_copy i j) s).
Proof.
  intros [Ev Ec] Ha. destruct w as [vs c d], s as [m k]. cbn in Ev, Ec. subst vs c.
  cbn in Ha |- *; opened; cbn; rewrite !lookup_fmap. destruct (decide (i = j)) as [<-|Hij]; [destruct (m !! i) as [[x|]|] eqn:E; by simulates|].
  assert (j ≠ i) by done. destruct trivial; destruct (m !! i) as [[x|]|] eqn:E, (m !! j) as [[y|]|] eqn:E'; try (by simulates); by rewrite E' in Ha.
Qed.

Lemma simulate_two o i j w s : related w s → allowed o s = true → match o with oo_move i' j' | oo_equal i' j' | oo_less i' j' | oo_assign_move i' j' | oo_assign_copy i' j' | oo_swap i' j' => i' = i ∧ j' = j | _ => False end →
  simulated (exec o w) (spec_exec o s).
Proof.
  intros [Ev Ec] Ha Hi. destruct w as [vs c d], s as [m k]. cbn in Ev, Ec. subst vs c.
  destruct o; try done; destruct Hi as [-> ->]; cbn in Ha |- *; opened; cbn; rewrite !lookup_fmap; (destruct (decide (i = j)) as [<-|Hij]; [destruct (m !! i) as [[x|]|] eqn:E|assert (j ≠ i) by done; destruct (m !! i) as [[x|]|] eqn:E, (m !! j) as [[y|]|] eqn:E']); rewrite ?(decide_True _ _ (eq_refl i)), ?(decide_False _ _ Hij); try (by simulates).
Qed.

Lemma simulate o w s : related w s → allowed o s = true → simulated (exec o w) (spec_exec o s).
Proof.
  intros Hw Ha. destruct o; (by eapply simulate_copy) || (by eapply simulate_one) || (by eapply simulate_two).
Qed.

(** ** Clients *)
(** What clients do one after the other; they catch exceptions. *)
Definition attempt {S A} (m : Prelude.M S A) : Prelude.M S (A + exn) := try_catch (x ← m; mret (inl x)) (λ e, mret (inr e)).

Fixpoint run (ops : list (op (V := V))) : Prelude.M (world (V := V)) (list (result (V := V) + exn)) :=
  match ops with [] => mret [] | o :: ops' => r ← attempt (exec o); rs ← run ops'; mret (r :: rs) end.
Fixpoint spec_run (ops : list (op (V := V))) : M (list (result (V := V) + exn)) :=
  match ops with [] => mret [] | o :: ops' => r ← attempt (spec_exec o); rs ← spec_run ops'; mret (r :: rs) end.

Definition world_new : world (V := V) := mkWorld ∅ 0 0.
Definition spec_new : spec := mkSpec ∅ 0.

Fixpoint all_allowed (ops : list (op (V := V))) (s : spec) : bool :=
  match ops with [] => true | o :: ops' => allowed o s && all_allowed ops' (spec_exec o s).2 end.

Lemma run_simulated ops w s : related w s → all_allowed ops s = true → simulated (run ops w) (spec_run ops s).
Proof.
  revert w s. induction ops as [|o ops IH]; intros w s Hw; [done|]. intros [Ha Hn]%andb_true_iff. destruct (simulate o w s Hw Ha) as [E Hr].
  cbn. unfold simulated, attempt, try_catch in *. munfold. destruct (exec o w) as [[r|e|x] w1], (spec_exec o s) as [[r'|e'|x'] s1]; cbn in *; simplify_eq; try done.
  all: destruct (IH w1 s1 Hr Hn) as [E1 H1]; destruct (run ops w1) as [[l|e1|y] w2], (spec_run ops s1) as [[l'|e2|y'] s2]; cbn in *; by simplify_eq.
Qed.

Lemma related_new : related world_new spec_new.
Proof. split; [cbn; by rewrite fmap_empty|done]. Qed.
End spec.

Section theorems.
  Context {V : Type} `{EqDecision V} (lt : V → V → bool) (moved self_moved : V → V) (trivial : bool).

(** C25. [optional] implements variables that have a value or not, whatever the values are
    and whatever moving does to them: for any sequence of operations of clients that
    catch its exceptions, as long as no object that is more than its bytes is copied by
    the copy constructor and no constructor throws in [emplace], the results are those
    of the specification, undefined where that is; and the storage of each variable has
    an object exactly if it has a value, so that objects are destroyed once, and all that
    were made are in variables, were destroyed, or were made over by [placement]. *)
Theorem optional_refines (ops : list (op (V := V))) : all_allowed lt moved self_moved trivial ops spec_new = true →
  let r := run lt moved self_moved trivial ops world_new in
  let s := spec_run lt moved self_moved ops spec_new in
  r.1 = s.1 ∧
  ((∀ x, r.1 ≠ Stuck x) → vars r.2 = enc <$> values s.2 ∧ constructed r.2 = destroyed r.2 + live (values s.2) + leaked s.2).
Proof.
  intros Ha r s. destruct (run_simulated lt moved self_moved trivial ops _ _ related_new Ha) as [E Hr]. fold r s in E, Hr. split; [done|]. intros Hx.
  destruct r as [[a|e|x] w]; cbn in *; [by destruct Hr|by destruct Hr|by destruct (Hx x)].
Qed.
End theorems.

(** ** Examples *)
Definition text_moved (s : string) : string := ""%string.
Definition optional_demo (trivial : bool) (ops : list (op (V := string))) := run (λ _ _, false) text_moved id trivial ops world_new.

Definition optional_demo_ops : list (op (V := string)) :=
  [oo_of 0 "a"%string; oo_default 1; oo_swap 0 1; oo_value 0; oo_value 1; oo_move 2 1; oo_test 1; oo_assign_move 1 2; oo_equal 1 2; oo_emplace 0 (Some "b"%string);
   oo_copy 3 4; oo_delete 2].
Definition optional_demo_clients : list (op (V := string)) := oo_default 4 :: optional_demo_ops.

Lemma optional_refines_witness : let r := optional_demo false optional_demo_clients in
  r.1 = Ret [inl r_none; inl r_none; inl r_none; inl r_none; inr (runtime_error "Attempted to access an uninitialized optional value"); inl (r_value "a"%string);
    inl r_none; inl (r_bool false); inl r_none; inl (r_bool false); inl r_none; inl r_none; inl r_none] ∧ r.1 = (spec_run (λ _ _, false) text_moved id optional_demo_clients spec_new).1.
Proof.
  split; [vm_compute; reflexivity|].
  assert (all_allowed (λ _ _, false) text_moved id false optional_demo_clients spec_new = true) as Ha by (vm_compute; reflexivity).
  exact (proj1 (optional_refines (λ _ _, false) text_moved id false optional_demo_clients Ha)).
Defined.

(** The copy constructor copies bytes: what it makes of a string is no string. *)
Lemma copied_string_is_undefined : (optional_demo false [oo_of 0 "a"%string; oo_copy 1 0; oo_value 1]).1 = Stuck undefined_behavior ∧
  (optional_demo false [oo_of 0 "a"%string; oo_copy 1 0; oo_delete 1]).1 = Stuck undefined_behavior.
Proof. split; vm_compute; reflexivity. Qed.

(** A constructor that throws in [emplace] leaves a flag without an object. *)
Lemma failed_emplace_is_undefined : (optional_demo false [oo_of 0 "a"%string; oo_emplace 0 None; oo_delete 0]).1 = Stuck undefined_behavior ∧
  (optional_demo false [oo_default 0; oo_emplace 0 None; oo_delete 0]).1 = Stuck undefined_behavior.
Proof. split; vm_compute; reflexivity. Qed.

(** An optional without a value is less than another one, and than itself. *)
Lemma empty_less_than_itself : (optional_demo false [oo_default 0; oo_less 0 0]).1 = Ret [inl r_none; inl (r_bool true)].
Proof. vm_compute. reflexivity. Qed.
