(* ===== verification/ContextMap.v ===== *)
(** * ContextMap: contexts by key, as long as they live

    src/src/autowiring/ContextMap.h for any number of threads.  A step of a thread is a
    critical section of the code, or a part of one between two points at which a
    reference to a context may go; [tracker::lock] is held between such parts.  A
    context is alive as long as some thread holds a reference to it; the thread that
    lets the last one go runs the handlers of [onTeardown]. *)
From stdpp Require Import base gmap list strings.
From Stdlib Require Import Lia.
From S2P Require Import Prelude.
Local Open Scope nat_scope.

Definition Key : Type := nat.
Definition context : Type := nat.
Bind Scope nat_scope with Key context.

(** ** [std::map]: an ascending list *)
Abbreviation t_mpType := (list (Key * context)).

Fixpoint map_find (k : Key) (m : t_mpType) : option context :=
  match m with
  | [] => None
  | (k', c) :: m' => if decide (k' = k) then Some c else map_find k m'
  end.

Fixpoint map_assign (k : Key) (c : context) (m : t_mpType) : t_mpType :=
  match m with
  | [] => [(k, c)]
  | (k', c') :: m' => if decide (k = k') then (k, c) :: m' else if decide (k < k') then (k, c) :: m else (k', c') :: map_assign k c m'
  end.

Definition map_erase (k : Key) (m : t_mpType) : t_mpType := base.filter (λ x, x.1 ≠ k) m.

(** The entries after the one at [k]. *)
Definition map_after (k : Key) (m : t_mpType) : t_mpType := base.filter (λ x, k < x.1) m.

(** ** Threads *)
(** What clients call: [Add], [Find], [Enumerate], [begin], [++] and the end of an
    iterator, [clear], the destructor of the map; a reference of the thread goes. *)
Inductive client_op := co_add (k : Key) (c : context) | co_find (k : Key) | co_enumerate | co_begin | co_next | co_iterator_end | co_clear | co_destroy | co_release (c : context).

Inductive instr :=
  | i_add (k : Key) (c : context) | i_find (k : Key) | i_clear | i_destroy | i_release (c : context)
  | i_enumerate | i_at (rest : t_mpType) | i_fn (k : Key) (c : context) (rest : t_mpType)
  | i_begin | i_next | i_iterator_end
  | i_evict (k : Key) | i_drop (c : context) | i_unlock.

Definition instr_of (o : client_op) : instr :=
  match o with
  | co_add k c => i_add k c | co_find k => i_find k | co_enumerate => i_enumerate | co_begin => i_begin | co_next => i_next
  | co_iterator_end => i_iterator_end | co_clear => i_clear | co_destroy => i_destroy | co_release c => i_release c
  end.

(** An iterator: at an entry, whose context it holds, or at the end. *)
Inductive iterator := it_none | it_end | it_at (k : Key) (c : context).

(** The references of a thread: of its client, of locals of the code, of its iterator. *)
Record thread := mkThread { code : list instr; held : list context; locals : list context; iter : iterator }.

Definition iter_refs (i : iterator) : list context := match i with it_at _ c => [c] | _ => [] end.
Definition refs (t : thread) : list context := held t ++ locals t ++ iter_refs (iter t).

(** [lock]: the thread that holds the lock of the tracker.  [handlers]: the keys that
    the handlers of a context will evict.  [visited]: the calls of the functions that
    clients passed to [Enumerate]. *)
Record world := mkWorld {
  m_contexts : t_mpType;
  destroyed : bool;
  lock : option nat;
  handlers : gmap context (list Key);
  threads : list thread;
  visited : list (Key * context) }.

Definition set_contexts x w := mkWorld x (destroyed w) (lock w) (handlers w) (threads w) (visited w).
Definition set_destroyed x w := mkWorld (m_contexts w) x (lock w) (handlers w) (threads w) (visited w).
Definition set_lock x w := mkWorld (m_contexts w) (destroyed w) x (handlers w) (threads w) (visited w).
Definition set_handlers x w := mkWorld (m_contexts w) (destroyed w) (lock w) x (threads w) (visited w).
Definition set_threads x w := mkWorld (m_contexts w) (destroyed w) (lock w) (handlers w) x (visited w).
Definition set_visited x w := mkWorld (m_contexts w) (destroyed w) (lock w) (handlers w) (threads w) x.

(** Threads that begin with references to contexts. *)
Definition world_new (programs : list (list client_op * list context)) : world :=
  mkWorld [] false None ∅ (map (λ p, mkThread (map instr_of p.1) p.2 [] it_none) programs) [].

(** [weak_ptr::expired]. *)
Definition alive (w : world) (c : context) : bool := existsb (λ t, bool_decide (c ∈ refs t)) (threads w).

Local Abbreviation M := (M world).

Definition remove_one (c : context) (l : list context) : list context :=
  match list_find (c =.) l with Some (i, _) => delete i l | None => l end.

Section thread.
  Context (fn : Key → context → bool) (n : nat).

Definition this : M thread := w ← get; deref (threads w !! n).
Definition update (f : thread → thread) : M unit := modify (λ w, set_threads (alter f n (threads w)) w).

Definition hold (c : context) : M unit := update (λ t, mkThread (code t) (c :: held t) (locals t) (iter t)).
Definition hold_local (c : context) : M unit := update (λ t, mkThread (code t) (held t) (c :: locals t) (iter t)).
Definition set_iter (i : iterator) : M unit := update (λ t, mkThread (code t) (held t) (locals t) i).

(** The critical section of an operation of a map that is there. *)
Definition locked : M unit := w ← get; if bool_decide (lock w = None) then mret tt else stuck blocked.
Definition operation : M unit := locked;; w ← get; if destroyed w then stuck undefined_behavior else mret tt.

(** A reference went: its context tears down if it was the last one. *)
Definition teardown (c : context) : M (list instr) :=
  w ← get; mret (if alive w c then [] else map i_evict (default [] (handlers w !! c))).

(** [Add], with the exception for a key that is taken. *)
Definition Add (k : Key) (c : context) : M unit :=
  operation;;
  w ← get;
  if match map_find k (m_contexts w) with Some c' => alive w c' | None => false end
  then throw (autowiring_error "Specified key is already associated with another context")
  else
    modify (set_contexts (map_assign k c (m_contexts w)));;
    modify (set_handlers (<[c := default [] (handlers w !! c) ++ [k]]> (handlers w))).

(** [Find]; the client keeps what it returns. *)
Definition Find (k : Key) : M (option context) :=
  operation;;
  w ← get;
  match map_find k (m_contexts w) with
  | Some c => if alive w c then hold c;; mret (Some c) else mret None
  | None => mret None
  end.

Definition clear : M unit := operation;; modify (set_contexts []).
Definition ContextMap_dtor : M unit := operation;; modify (set_destroyed true).

(** The handler of [onTeardown]; the lock it takes on a context that is alive goes
    before the lock of the tracker. *)
Definition evict (k : Key) : M (list instr) :=
  locked;;
  w ← get;
  if destroyed w then mret []
  else
    match map_find k (m_contexts w) with
    | None => mret []
    | Some c =>
      if alive w c then hold_local c;; modify (set_lock (Some n));; mret [i_drop c; i_unlock]
      else modify (set_contexts (map_erase k (m_contexts w)));; mret []
    end.

(** The loop of [Enumerate]. *)
Definition Enumerate : M (list instr) := operation;; modify (set_lock (Some n));; w ← get; mret [i_at (m_contexts w)].

Definition Enumerate_at (rest : t_mpType) : M (list instr) :=
  match rest with
  | [] => mret [i_unlock]
  | (k, c) :: rest' => w ← get; if alive w c then hold_local c;; mret [i_fn k c rest'] else mret [i_at rest']
  end.

Definition Enumerate_fn (k : Key) (c : context) (rest : t_mpType) : M (list instr) :=
  modify (λ w, set_visited (visited w ++ [(k, c)]) w);;
  mret [i_drop c; if fn k c then i_at rest else i_unlock].

(** The first entry that can be locked; [begin] and [++], which lets its old context go
    when it is done. *)
Definition first_alive (w : world) (m : t_mpType) : iterator :=
  match list_find (λ x, alive w x.2) m with Some (_, (k, c)) => it_at k c | None => it_end end.

Definition begin : M unit := operation;; w ← get; set_iter (first_alive w (m_contexts w)).

Definition iterator_inc (k : Key) (c : context) : M (list instr) :=
  operation;;
  w ← get;
  match map_find k (m_contexts w) with
  | None => stuck undefined_behavior
  | Some _ => hold_local c;; set_iter (first_alive w (map_after k (m_contexts w)));; mret [i_drop c]
  end.

(** A step: what the thread does next, before the rest of its code. *)
Definition exec (i : instr) : M (list instr) :=
  t ← this;
  match i with
  | i_add k c => if bool_decide (c ∈ held t) then try_catch (Add k c) (λ _, mret tt);; mret [] else mret []
  | i_find k => Find k;; mret []
  | i_clear => clear;; mret []
  | i_destroy => ContextMap_dtor;; mret []
  | i_release c => if bool_decide (c ∈ held t) then update (λ t, mkThread (code t) (remove_one c (held t)) (locals t) (iter t));; teardown c else mret []
  | i_enumerate => Enumerate
  | i_at rest => Enumerate_at rest
  | i_fn k c rest => Enumerate_fn k c rest
  | i_begin => match iter t with it_none => begin;; mret [] | _ => mret [] end
  | i_next => match iter t with it_at k c => iterator_inc k c | _ => mret [] end
  | i_iterator_end => match iter t with it_at k c => set_iter it_none;; teardown c | _ => set_iter it_none;; mret [] end
  | i_evict k => evict k
  | i_drop c => update (λ t, mkThread (code t) (held t) (remove_one c (locals t)) (iter t));; teardown c
  | i_unlock => modify (set_lock None);; mret []
  end.

(** Thread [n] takes a step. *)
Definition step (w : world) : outcome world :=
  match threads w !! n with
  | Some t =>
    match code t with
    | i :: rest =>
      match exec i w with
      | (Ret l, w') => Ret (set_threads (alter (λ t, mkThread (l ++ rest) (held t) (locals t) (iter t)) n (threads w')) w')
      | (Throw e, _) => Throw e
      | (Stuck r, _) => Stuck r
      end
    | [] => Stuck blocked
    end
  | None => Stuck blocked
  end.
End thread.

(** A schedule: a thread that cannot take a step is passed over. *)
Fixpoint run (fn : Key → context → bool) (schedule : list nat) (w : world) : outcome world :=
  match schedule with
  | [] => Ret w
  | n :: schedule' =>
    match step fn n w with
    | Ret w' => run fn schedule' w'
    | Stuck blocked => run fn schedule' w
    | r => r
    end
  end.
