(* ===== verification/ContextMapFacts.v ===== *)
(** * ContextMap: what its steps keep

    A key whose context has expired is going to be evicted; an iterator is at an entry
    of the map; a lock is given back. *)
From stdpp Require Import base gmap list strings sorting.
From Stdlib Require Import Lia.
From S2P Require Import Prelude.
From S2P Require Import ContextMap.
Local Open Scope nat_scope.

(** ** The map *)
Lemma map_find_assign k k' c m : map_find k (map_assign k' c m) = if decide (k' = k) then Some c else map_find k m.
Proof.
  induction m as [|[k1 c1] m IH]; cbn; [done|]. destruct (decide (k' = k1)) as [-> |Hne]; cbn; [by case_decide|].
  destruct (decide (k' < k1)); cbn; [done|]. rewrite IH. repeat case_decide; congruence || done.
Qed.

Lemma map_find_erase k k' m : map_find k (map_erase k' m) = if decide (k' = k) then None else map_find k m.
Proof.
  unfold map_erase. induction m as [|[k1 c1] m IH]; [cbn; by case_decide|]. rewrite filter_cons. cbn [fst]. destruct (decide (k1 ≠ k')) as [Hne|Heq%dec_stable]; cbn [map_find]; rewrite IH; repeat case_decide; congruence || done.
Qed.

(** Keys are in ascending order. *)
Definition ascending (m : t_mpType) : Prop := StronglySorted (λ x y, x.1 < y.1) m.

Lemma ascending_find m k c : ascending m → (k, c) ∈ m → map_find k m = Some c.
Proof.
  induction m as [|[k1 c1] m IH]; intros Hs Hin; [by apply elem_of_nil in Hin|]. apply StronglySorted_inv in Hs as [Hs Hf]. cbn.
  apply elem_of_cons in Hin as [[= <- <-]|Hin]; [by rewrite decide_True|]. rewrite decide_False; [by apply IH|]. intros ->.
  rewrite Forall_forall in Hf. specialize (Hf _ Hin). cbn in Hf. lia.
Qed.

Lemma map_assign_in k c m x : x ∈ map_assign k c m → x = (k, c) ∨ x ∈ m.
Proof.
  induction m as [|[k1 c1] m IH]; cbn; [by rewrite list_elem_of_singleton; left|]. destruct (decide (k = k1)); [rewrite !elem_of_cons; naive_solver|].
  destruct (decide (k < k1)); rewrite !elem_of_cons; naive_solver.
Qed.

Lemma ascending_assign k c m : ascending m → ascending (map_assign k c m).
Proof.
  intros Hs. induction m as [|[k1 c1] m IH]; [by repeat constructor|]. apply StronglySorted_inv in Hs as [Hs Hf]. cbn. rewrite Forall_forall in Hf.
  destruct (decide (k = k1)) as [-> |Hne]; [constructor; [done|by rewrite Forall_forall]|]. destruct (decide (k < k1)).
  - constructor; [constructor; [done|by rewrite Forall_forall]|]. rewrite Forall_forall. intros x [-> |Hx]%elem_of_cons; [done|]. specialize (Hf _ Hx). cbn in *. lia.
  - constructor; [by apply IH|]. rewrite Forall_forall. intros x [-> |Hx]%map_assign_in; [cbn; lia|by apply Hf].
Qed.

Lemma ascending_filter P `{∀ x, Decision (P x)} m : ascending m → ascending (base.filter P m).
Proof. unfold ascending. intros Hs. induction Hs as [|x m Hs IH Hf]; [constructor|]. rewrite filter_cons. case_decide; [|done]. constructor; [done|]. rewrite Forall_forall in *. intros y [_ Hy]%list_elem_of_filter. by apply Hf. Qed.

(** ** References *)
Lemma alive_spec w c : alive w c = true ↔ ∃ n t, threads w !! n = Some t ∧ c ∈ refs t.
Proof.
  unfold alive. rewrite existsb_exists. split.
  - intros (t & Hin & Hc%bool_decide_eq_true). apply list_elem_of_In, list_elem_of_lookup in Hin as [n Hn]. by exists n, t.
  - intros (n & t & Hn & Hc). exists t. split; [by apply list_elem_of_In, (list_elem_of_lookup_2 _ n)|by apply bool_decide_eq_true].
Qed.

Lemma alter_insert {A} (f : A → A) (n : nat) (l : list A) x : l !! n = Some x → alter f n l = <[n := f x]> l.
Proof. revert n. induction l as [|y l IH]; intros [|n] Hn; try done; [by injection Hn as ->|]. cbn. f_equal. by apply IH. Qed.

Lemma remove_one_elem c l x : x ∈ remove_one c l → x ∈ l.
Proof.
  unfold remove_one. destruct (list_find (c =.) l) as [[i y]|] eqn:E; [|done]. apply list_find_Some in E as (Hi & _). intros Hx.
  rewrite (delete_Permutation _ _ _ Hi). by right.
Qed.

Lemma remove_one_other c l x : x ∈ l → x ≠ c → x ∈ remove_one c l.
Proof.
  unfold remove_one. destruct (list_find (c =.) l) as [[i y]|] eqn:E; [|done]. apply list_find_Some in E as (Hi & <- & _).
  intros Hx Hne. rewrite (delete_Permutation _ _ _ Hi) in Hx. apply elem_of_cons in Hx. naive_solver.
Qed.

Lemma remove_one_cons c l : remove_one c (c :: l) = l.
Proof. unfold remove_one. cbn. by rewrite decide_True. Qed.

(** ** Steps that leave the map alone *)
Definition evicting (k : Key) (t : thread) : Prop := i_evict k ∈ code t.
Definition keys_of (w : world) (c : context) : list Key := default [] (handlers w !! c).

(** The map without what threads are about to evict has contexts that are alive. *)
Record evicts (w : world) : Prop := {
  e_handlers : ∀ k c, map_find k (m_contexts w) = Some c → alive w c = true → k ∈ keys_of w c;
  e_pending : destroyed w = false → ∀ k c, map_find k (m_contexts w) = Some c → alive w c = false → ∃ n t, threads w !! n = Some t ∧ evicting k t;
  e_sorted : ascending (m_contexts w) }.

(** Iterators are at entries of the map. *)
Definition iterators_ok (w : world) : Prop := ∀ n t k c, threads w !! n = Some t → iter t = it_at k c → map_find k (m_contexts w) = Some c.

(** Thread [n] becomes [t']: what it may not do. *)
Record quiet (w : world) (n : nat) (t t' : thread) (w' : world) : Prop := {
  q_thread : threads w !! n = Some t;
  q_threads : threads w' = <[n := t']> (threads w);
  q_gain : ∀ c, c ∈ refs t' → alive w c = true;
  q_evicts : ∀ k, evicting k t → evicting k t' ∨ destroyed w = true ∨ ∀ c, map_find k (m_contexts w) = Some c → alive w' c = true;
  q_loss : ∀ c, c ∈ refs t → alive w' c = true ∨ ∀ k, k ∈ keys_of w c → evicting k t' }.

Lemma alive_after w n t t' w' c : quiet w n t t' w' → alive w' c = true → alive w c = true.
Proof.
  intros Hq. rewrite alive_spec at 1. intros (m & u & Hm & Hc). rewrite (q_threads _ _ _ _ _ Hq) in Hm.
  apply list_lookup_insert_Some in Hm as [(-> & <- & _)|[_ Hm]]; [by eapply q_gain|]. apply alive_spec. by exists m, u.
Qed.

Lemma dead_after w n t t' w' c : quiet w n t t' w' → alive w c = true → alive w' c = false → ∀ k, k ∈ keys_of w c → evicting k t'.
Proof.
  intros Hq Ha Hd. apply alive_spec in Ha as (m & u & Hm & Hc). destruct (decide (m = n)) as [-> |Hne].
  - rewrite (q_thread _ _ _ _ _ Hq) in Hm. injection Hm as <-. destruct (q_loss _ _ _ _ _ Hq c Hc) as [?|?]; [congruence|done].
  - assert (alive w' c = true); [|congruence]. apply alive_spec. exists m, u. split; [|done]. by rewrite (q_threads _ _ _ _ _ Hq), list_lookup_insert_ne.
Qed.

Lemma thread_after w n t t' w' m u : quiet w n t t' w' → threads w' !! m = Some u → m = n ∧ u = t' ∨ m ≠ n ∧ threads w !! m = Some u.
Proof.
  intros Hq. rewrite (q_threads _ _ _ _ _ Hq). intros [(-> & <- & _)|[? ?]]%list_lookup_insert_Some; auto.
Qed.

Lemma evicting_after w n t t' w' k c : quiet w n t t' w' → destroyed w = false → map_find k (m_contexts w) = Some c → alive w' c = false →
  (∃ m u, threads w !! m = Some u ∧ evicting k u) → ∃ m u, threads w' !! m = Some u ∧ evicting k u.
Proof.
  intros Hq Hdes Hk Hd (m & u & Hm & Hu). rewrite (q_threads _ _ _ _ _ Hq). destruct (decide (m = n)) as [-> |Hne].
  - rewrite (q_thread _ _ _ _ _ Hq) in Hm. injection Hm as <-. exists n, t'. split.
    + apply list_lookup_insert_eq. eapply lookup_lt_Some, (q_thread _ _ _ _ _ Hq).
    + destruct (q_evicts _ _ _ _ _ Hq k Hu) as [?|[?|Ha]]; [done|congruence|]. specialize (Ha _ Hk). congruence.
  - exists m, u. split; [|done]. by rewrite list_lookup_insert_ne.
Qed.

Lemma quiet_evicts w n t t' w' : quiet w n t t' w' → m_contexts w' = m_contexts w → handlers w' = handlers w → destroyed w' = destroyed w → evicts w → evicts w'.
Proof.
  intros Hq Em Eh Ed [H1 H2 H3]. assert (∀ c, keys_of w' c = keys_of w c) as Ek by (intros c; unfold keys_of; by rewrite Eh). split; rewrite Em; [| |done].
  - intros k c Hk Ha. rewrite Ek. apply H1; [done|by eapply alive_after].
  - intros Hd k c Hk Ha. rewrite Ed in Hd. destruct (alive w c) eqn:Ea; [|by eapply evicting_after; [done..|eapply H2]].
    exists n, t'. split; [|by eapply dead_after; [done..|apply H1]]. rewrite (q_threads _ _ _ _ _ Hq). apply list_lookup_insert_eq. eapply lookup_lt_Some, (q_thread _ _ _ _ _ Hq).
Qed.

Lemma quiet_iterators w n t t' w' : quiet w n t t' w' → m_contexts w' = m_contexts w → iterators_ok w →
  (∀ k c, iter t' = it_at k c → iter t = iter t' ∨ map_find k (m_contexts w) = Some c) → iterators_ok w'.
Proof.
  intros Hq Em Hi Ht m u k c Hm Hu. rewrite Em. destruct (thread_after _ _ _ _ _ _ _ Hq Hm) as [[-> ->]|[_ Hm']]; [|by eapply Hi].
  destruct (Ht _ _ Hu) as [E|?]; [|done]. eapply Hi; [apply (q_thread _ _ _ _ _ Hq)|congruence].
Qed.

(** ** The steps *)
Definition goes (t : thread) (l : list instr) : thread := mkThread l (held t) (locals t) (iter t).

Section steps.
  Context (fn : Key → context → bool) (n : nat).

(** What the steps that change the map do to it. *)
Definition map_effect (i : instr) (t : thread) (w w' : world) : Prop :=
  match i with
  | i_add k c => c ∈ held t ∧ m_contexts w' = map_assign k c (m_contexts w) ∧ handlers w' = <[c := keys_of w c ++ [k]]> (handlers w) ∧ destroyed w' = destroyed w ∧
      ∀ c', map_find k (m_contexts w) = Some c' → alive w c' = false
  | i_clear => m_contexts w' = [] ∧ handlers w' = handlers w ∧ destroyed w' = destroyed w
  | i_destroy => m_contexts w' = m_contexts w ∧ handlers w' = handlers w ∧ destroyed w' = true
  | i_evict k => m_contexts w' = map_erase k (m_contexts w) ∧ handlers w' = handlers w ∧ destroyed w' = destroyed w ∧
      ∀ c', map_find k (m_contexts w) = Some c' → alive w c' = false
  | _ => False
  end.

(** What a step does: it leaves the map, or the references of the thread. *)
Definition effect (i : instr) (rest : list instr) (t : thread) (w w' : world) : Prop :=
  (∃ t', quiet w n t t' w' ∧ m_contexts w' = m_contexts w ∧ handlers w' = handlers w ∧ destroyed w' = destroyed w ∧
     ∀ k c, iter t' = it_at k c → iter t = iter t' ∨ map_find k (m_contexts w) = Some c) ∨
  (threads w' = <[n := goes t rest]> (threads w) ∧ map_effect i t w w').

Lemma update_thread f t w : threads w !! n = Some t → update n f w = (Ret tt, set_threads (<[n := f t]> (threads w)) w).
Proof. intros Hn. unfold update. munfold. by rewrite (alter_insert _ _ _ _ Hn). Qed.

Lemma alter_put f (t : thread) (l : list thread) t0 : l !! n = Some t0 → alter f n (<[n := t]> l) = <[n := f t]> l.
Proof.
  intros Hn. rewrite (alter_insert _ _ _ t); [by rewrite list_insert_insert_eq|]. apply list_lookup_insert_eq. by eapply lookup_lt_Some.
Qed.

(** A thread gets references to contexts that are alive. *)
Lemma quiet_more w t t' i rest w' : threads w !! n = Some t → code t = i :: rest → (∀ k, i = i_evict k → destroyed w = true ∨ ∀ c, map_find k (m_contexts w) = Some c → alive w c = true) →
  threads w' = <[n := t']> (threads w) → (∀ c, c ∈ refs t' → c ∈ refs t ∨ alive w c = true) → (∀ c, c ∈ refs t → c ∈ refs t') → (∀ x, x ∈ rest → x ∈ code t') →
  quiet w n t t' w'.
Proof.
  intros Hn Hc Hi Et Hg Hl Hr. assert (∀ c, alive w c = true → alive w' c = true) as Ha.
  { intros c (m & u & Hm & Hu)%alive_spec. apply alive_spec. rewrite Et. destruct (decide (m = n)) as [E|Hne].
    - rewrite E, Hn in Hm. injection Hm as <-. exists n, t'. split; [|by apply Hl]. apply list_lookup_insert_eq. by eapply lookup_lt_Some.
    - exists m, u. split; [|done]. by rewrite list_lookup_insert_ne. }
  split; [done|done| | |].
  - intros c [Hc'|?]%Hg; [|done]. apply alive_spec. exists n, t. by split.
  - intros k Hk. unfold evicting in *. rewrite Hc in Hk. apply elem_of_cons in Hk as [<-|Hk]; [right|left; by apply Hr].
    destruct (Hi k eq_refl) as [?|Hk]; [by left|right]. intros c Hc'. by eapply Ha, Hk.
  - intros c Hc'. left. apply Ha, alive_spec. exists n, t. by split.
Qed.

(** A thread lets a reference go, and evicts what has to be evicted. *)
Lemma quiet_less w t t' i rest w1 w' c l : threads w !! n = Some t → code t = i :: rest → (∀ k, i ≠ i_evict k) →
  threads w1 !! n = Some t' → handlers w1 = handlers w → (∀ x, alive w' x = alive w1 x) →
  teardown c w1 = (Ret l, w1) → threads w' = <[n := goes t' (l ++ rest)]> (threads w) →
  (∀ x, x ∈ refs t' → x ∈ refs t) → (∀ x, x ∈ refs t → x = c ∨ x ∈ refs t') → quiet w n t (goes t' (l ++ rest)) w'.
Proof.
  intros Hn Hc Hi Hn1 Eh Ea Etd Et Hg Hl. split; [done|done| | |].
  - intros x Hx. apply alive_spec. exists n, t. split; [done|by apply Hg].
  - intros k Hk. left. unfold evicting in *. rewrite Hc in Hk. apply elem_of_cons in Hk as [E|Hk]; [by destruct (Hi k)|]. apply elem_of_app. by right.
  - intros x Hx. destruct (alive w' x) eqn:E; [by left|right]. rewrite Ea in E. destruct (Hl x Hx) as [-> |Hx'].
    + intros k Hk. unfold teardown in Etd. munfold. rewrite E in Etd. injection Etd as <-. unfold keys_of in Hk. rewrite <-Eh in Hk.
      apply elem_of_app. left. by apply list_elem_of_fmap_2.
    + assert (alive w1 x = true); [|congruence]. apply alive_spec. by exists n, t'.
Qed.

Lemma goes_same (t : thread) l : ∀ c, c ∈ refs (goes t l) ↔ c ∈ refs t.
Proof. done. Qed.

(** Steps that only go on. *)
Lemma effect_same i rest t w l w' : threads w !! n = Some t → code t = i :: rest → (∀ k, i = i_evict k → destroyed w = true ∨ ∀ c, map_find k (m_contexts w) = Some c → alive w c = true) →
  threads w' = <[n := goes t (l ++ rest)]> (threads w) → m_contexts w' = m_contexts w → handlers w' = handlers w → destroyed w' = destroyed w → effect i rest t w w'.
Proof.
  intros Hn Hc Hi Et Em Eh Ed. left. exists (goes t (l ++ rest)). split_and!; [|done..|by left]. eapply quiet_more; [done|done|done|done|by left|done|].
  intros x Hx. apply elem_of_app. by right.
Qed.

Lemma finish_threads (f g : thread → thread) (t : thread) w : threads w !! n = Some t → alter g n (threads (set_threads (<[n := f t]> (threads w)) w)) = <[n := g (f t)]> (threads w).
Proof. intros Hn. cbn. by rewrite (alter_put _ _ _ _ Hn). Qed.

Lemma first_alive_spec w m k c : first_alive w m = it_at k c → (k, c) ∈ m ∧ alive w c = true.
Proof.
  unfold first_alive. destruct (list_find _ m) as [[j [k' c']]|] eqn:E; [|done]. intros [= -> ->]. apply list_find_Some in E as (Hj & Ha & _).
  split; [by eapply list_elem_of_lookup_2|]. cbn in Ha. by destruct (alive w c).
Qed.

Lemma iter_refs_alive w m x : x ∈ iter_refs (first_alive w m) → alive w x = true.
Proof.
  destruct (first_alive w m) as [| |k c] eqn:Ef; cbn; [by intros ?%elem_of_nil..|]. apply first_alive_spec in Ef as [_ Ha]. by intros ->%list_elem_of_singleton.
Qed.

(** Steps after which the thread holds one more context that is alive. *)
Lemma effect_more i rest t t' w w' : threads w !! n = Some t → code t = i :: rest → (∀ k, i = i_evict k → destroyed w = true ∨ ∀ c, map_find k (m_contexts w) = Some c → alive w c = true) →
  threads w' = <[n := t']> (threads w) → (∀ c, c ∈ refs t' → c ∈ refs t ∨ alive w c = true) → (∀ c, c ∈ refs t → c ∈ refs t') → (∀ x, x ∈ rest → x ∈ code t') →
  (∀ k c, iter t' = it_at k c → iter t = iter t' ∨ map_find k (m_contexts w) = Some c) →
  m_contexts w' = m_contexts w → handlers w' = handlers w → destroyed w' = destroyed w → effect i rest t w w'.
Proof. intros. left. exists t'. split_and!; try done. by eapply quiet_more. Qed.

Lemma alive_ext w w' : threads w' = threads w → ∀ c, alive w' c = alive w c.
Proof. intros E c. unfold alive. by rewrite E. Qed.

(** Only the references count. *)
Lemma alive_goes w t l c : threads w !! n = Some t → alive (set_threads (<[n := goes t l]> (threads w)) w) c = alive w c.
Proof.
  intros Hn. apply eq_true_iff_eq. rewrite !alive_spec. cbn. split.
  - intros (m & u & Hm & Hu). apply list_lookup_insert_Some in Hm as [(_ & <- & _)|[_ Hm]]; [by exists n, t|by exists m, u].
  - intros (m & u & Hm & Hu). destruct (decide (m = n)) as [E|Hne]; [|exists m, u; by rewrite list_lookup_insert_ne].
    rewrite E, Hn in Hm. injection Hm as <-. exists n, (goes t l). split; [|done]. apply list_lookup_insert_eq. by eapply lookup_lt_Some.
Qed.

(** Steps that let a context go. *)
Lemma effect_less i rest t f w l w1 c : threads w !! n = Some t → code t = i :: rest → (∀ k, i ≠ i_evict k) →
  (update n f;; teardown c) w = (Ret l, w1) → code (f t) = code t →
  (∀ x, x ∈ refs (f t) → x ∈ refs t) → (∀ x, x ∈ refs t → x = c ∨ x ∈ refs (f t)) → (∀ k c, iter (f t) = it_at k c → iter t = iter (f t)) →
  effect i rest t w (set_threads (alter (λ t, goes t (l ++ rest)) n (threads w1)) w1).
Proof.
  intros Hn Hc Hi E Hcode Hg Hl Hit. rewrite (bind_Ret _ _ _ _ _ (update_thread _ _ _ Hn)) in E. set (w2 := set_threads _ w) in E.
  assert (w1 = w2) as -> by (unfold teardown in E; munfold; by injection E). assert (threads w2 !! n = Some (f t)) as Hn2 by (apply list_lookup_insert_eq; by eapply lookup_lt_Some).
  rewrite (alter_insert _ _ _ _ Hn2). left. exists (goes (f t) (l ++ rest)). split_and!; [|done..|intros k c' Ek; left; by eapply Hit].
  eapply quiet_less; [done|done|done|exact Hn2|done| |exact E| |done|done].
  - intros x. by rewrite alive_goes.
  - cbn. by rewrite list_insert_insert_eq.
Qed.

Lemma exec_effect i rest t w l w1 : ascending (m_contexts w) → threads w !! n = Some t → code t = i :: rest → ContextMap.exec fn n i w = (Ret l, w1) →
  effect i rest t w (set_threads (alter (λ t, goes t (l ++ rest)) n (threads w1)) w1).
Proof.
  intros Hs Hn Hc E. assert (this n w = (Ret t, w)) as Et by (unfold this; munfold; by rewrite Hn).
  unfold ContextMap.exec in E. rewrite (bind_Ret _ _ _ _ _ Et) in E. pose proof (alter_insert (λ t, goes t (l ++ rest)) n _ _ Hn) as Hfin.
  assert (∀ f, alter (λ t, goes t (l ++ rest)) n (alter f n (threads w)) = <[n := goes (f t) (l ++ rest)]> (threads w)) as Hfin2.
  { intros f. rewrite (alter_insert f n _ _ Hn). by rewrite (alter_put _ _ _ _ Hn). }
  destruct i.
  - unfold try_catch, Add, operation, locked in E. munfold. repeat (case_match; simplify_eq/=); try (eapply (effect_same _ _ _ _ []); first [exact Hfin|done]).
    + right. split; [exact Hfin|]. split_and!; try done; [by eapply bool_decide_eq_true_1|]. intros c' Hc'. congruence.
    + right. split; [exact Hfin|]. split_and!; try done; [by eapply bool_decide_eq_true_1|]. intros c' Hc'. congruence.
  - unfold Find, operation, locked in E. munfold. repeat (case_match; simplify_eq/=); try (eapply (effect_same _ _ _ _ []); first [exact Hfin|done]).
    eapply effect_more; [done|done|done|apply Hfin2|..]; try done.
    + intros x [-> |?]%elem_of_cons; [by right|by left].
    + intros x Hx. by right.
    + by left.
  - unfold clear, operation, locked in E. munfold. repeat (case_match; simplify_eq/=). right. split; [exact Hfin|done].
  - unfold ContextMap_dtor, operation, locked in E. munfold. repeat (case_match; simplify_eq/=). right. split; [exact Hfin|done].
  - destruct (bool_decide (c ∈ held t)) eqn:Eb; [|munfold; simplify_eq/=; eapply (effect_same _ _ _ _ []); first [exact Hfin|done]].
    eapply effect_less; [done|done|done|exact E|done|..].
    + intros x. unfold refs. cbn. rewrite !elem_of_app. intros [?%remove_one_elem|?]; auto.
    + intros x. unfold refs. cbn. rewrite !elem_of_app. destruct (decide (x = c)); [by left|]. intros [?|?]; right; [left; by apply remove_one_other|auto].
    + done.
  - unfold Enumerate, operation, locked in E. munfold. repeat (case_match; simplify_eq/=). eapply (effect_same _ _ _ _ [_]); first [exact Hfin|done].
  - unfold Enumerate_at in E. munfold. repeat (case_match; simplify_eq/=); try (eapply (effect_same _ _ _ _ [_]); first [exact Hfin|done]).
    eapply effect_more; [done|done|done|apply Hfin2|..]; try done.
    + intros x. unfold refs. cbn. rewrite !elem_of_app, elem_of_cons, !elem_of_app. naive_solver.
    + intros x. unfold refs. cbn. rewrite !elem_of_app, elem_of_cons, !elem_of_app. naive_solver.
    + intros x Hx. by right.
    + by left.
  - unfold Enumerate_fn in E. munfold. simplify_eq/=. eapply (effect_same _ _ _ _ [_; _]); first [exact Hfin|done].
  - destruct (iter t) eqn:Ei; [|munfold; simplify_eq/=; eapply (effect_same _ _ _ _ []); first [exact Hfin|done]..].
    unfold begin, operation, locked, set_iter, update in E. munfold. repeat (case_match; simplify_eq/=).
    eapply effect_more; [done|done|done|apply Hfin2|..]; try done.
    + intros x. unfold refs. cbn. rewrite Ei, !elem_of_app. intros [?|[?|Hx]]; auto. right. by eapply iter_refs_alive.
    + intros x. unfold refs. cbn. rewrite Ei, !elem_of_app. intros [?|[?|?%elem_of_nil]]; auto; done.
    + intros k c. cbn. intros [Hin _]%first_alive_spec. right. by apply ascending_find.
  - destruct (iter t) as [| |k c] eqn:Ei; [munfold; simplify_eq/=; eapply (effect_same _ _ _ _ []); first [exact Hfin|done]..|].
    unfold iterator_inc, operation, locked, hold_local, set_iter, update in E. munfold. repeat (case_match; simplify_eq/=). rewrite (alter_insert _ _ _ _ Hn), (alter_put _ _ _ _ Hn).
    eapply effect_more; [done|done|done|cbn; by rewrite (alter_put _ _ _ _ Hn)|..]; try done.
    + intros x. unfold refs. cbn. rewrite Ei, !elem_of_app, elem_of_cons, !elem_of_app. intros [?|[->|[?|Hx]]]; auto; [left; right; right; left|]. right.
      by apply iter_refs_alive in Hx.
    + intros x. unfold refs. cbn. rewrite Ei, !elem_of_app, elem_of_cons, !elem_of_app. cbn. rewrite list_elem_of_singleton. naive_solver.
    + intros x Hx. by right.
    + intros k' c'. cbn. intros [Hin _]%first_alive_spec. right. apply list_elem_of_filter in Hin as [_ Hin]. by apply ascending_find.
  - destruct (iter t) as [| |k c] eqn:Ei.
    + munfold. unfold set_iter, update in E. munfold. simplify_eq/=. eapply effect_more; [done|done|done|apply Hfin2|..]; try done;
        [intros x; unfold refs; cbn; rewrite Ei; by left|intros x; unfold refs; cbn; by rewrite Ei].
    + munfold. unfold set_iter, update in E. munfold. simplify_eq/=. eapply effect_more; [done|done|done|apply Hfin2|..]; try done;
        [intros x; unfold refs; cbn; rewrite Ei; by left|intros x; unfold refs; cbn; by rewrite Ei].
    + eapply effect_less; [done|done|done|exact E|done|..]; [|intros x|done]; unfold refs; cbn; rewrite Ei; [intros x|]; rewrite !elem_of_app; cbn; rewrite ?elem_of_nil, ?list_elem_of_singleton; naive_solver.
  - unfold evict, locked, hold_local, update in E. munfold. repeat (case_match; simplify_eq/=).
    + eapply (effect_same _ _ _ _ []); [done|done|intros ? [= <-]; by left|exact Hfin|done..].
    + eapply effect_more; [done|done|intros ? [= <-]; right; intros ? ?; congruence|cbn; apply Hfin2|..]; try done.
      * intros x. unfold refs. cbn. rewrite !elem_of_app, elem_of_cons, !elem_of_app. naive_solver.
      * intros x. unfold refs. cbn. rewrite !elem_of_app, elem_of_cons, !elem_of_app. naive_solver.
      * intros x Hx. by do 2 right.
      * by left.
    + right. split; [exact Hfin|]. split_and!; try done. intros c' Hc'. congruence.
    + eapply (effect_same _ _ _ _ []); [done|done|intros ? [= <-]; right; intros ? ?; congruence|exact Hfin|done..].
  - eapply effect_less; [done|done|done|exact E|done|..].
    + intros x. unfold refs. cbn. rewrite !elem_of_app. intros [?|[?%remove_one_elem|?]]; auto.
    + intros x. unfold refs. cbn. rewrite !elem_of_app. destruct (decide (x = c)); [by left|]. intros [?|[?|?]]; right; auto. right. left. by apply remove_one_other.
    + done.
  - munfold. simplify_eq/=. eapply (effect_same _ _ _ _ []); first [exact Hfin|done].
Qed.
End steps.

(** ** Invariants *)
Section invariants.
  Context (fn : Key → context → bool).

Lemma step_inv_map n w w' : step fn n w = Ret w' →
  ∃ t i rest l w1, threads w !! n = Some t ∧ code t = i :: rest ∧ exec fn n i w = (Ret l, w1) ∧ w' = set_threads (alter (λ t, goes t (l ++ rest)) n (threads w1)) w1.
Proof.
  unfold step. destruct (threads w !! n) as [t|] eqn:Hn; [|done]. destruct (code t) as [|i rest] eqn:Hc; [done|].
  destruct (exec fn n i w) as [[l|e|r] w1] eqn:E; try done. intros [= <-]. by exists t, i, rest, l, w1.
Qed.

(** Steps that change the map. *)
Lemma map_effect_evicts n i rest t w w' : threads w !! n = Some t → code t = i :: rest → threads w' = <[n := goes t rest]> (threads w) → map_effect i t w w' →
  evicts w → evicts w'.
Proof.
  intros Hn Hc Et Hm [H1 H2 H3]. assert (∀ c, alive w' c = alive w c) as Ha by (intros c; rewrite <-(alive_goes n w t rest c Hn); by apply alive_ext).
  assert (∀ k, i ≠ i_evict k → (∃ m u, threads w !! m = Some u ∧ evicting k u) → ∃ m u, threads w' !! m = Some u ∧ evicting k u) as Hev.
  { intros k Hi (m & u & Hmu & Hk). rewrite Et. destruct (decide (m = n)) as [-> |Hne].
    - rewrite Hn in Hmu. injection Hmu as <-. exists n, (goes t rest). split; [apply list_lookup_insert_eq; by eapply lookup_lt_Some|].
      unfold evicting in *. rewrite Hc in Hk. apply elem_of_cons in Hk as [<-|Hk]; [done|exact Hk].
    - exists m, u. split; [|done]. by rewrite list_lookup_insert_ne. }
  destruct i; try done.
  - destruct Hm as (Hheld & Em & Eh & Ed & _). assert (alive w c = true) as Hac by (apply alive_spec; exists n, t; split; [done|]; apply elem_of_app; by left).
    split; rewrite Em; [| |by apply ascending_assign].
    + intros k' c'. rewrite map_find_assign, Ha. unfold keys_of. rewrite Eh. case_decide as Hk; [intros [= <-] _|intros Hk' Ha'].
      * rewrite lookup_insert_eq. subst. apply elem_of_app. right. left.
      * pose proof (H1 _ _ Hk' Ha') as Hin. destruct (decide (c = c')) as [<-|Hne]; [rewrite lookup_insert_eq; apply elem_of_app; by left|by rewrite lookup_insert_ne].
    + intros Hd k' c'. rewrite map_find_assign, Ha. case_decide; [intros [= <-]; congruence|]. intros Hk' Ha'. apply Hev; [done|]. eapply H2; [congruence|done|done].
  - destruct Hm as (Em & Eh & Ed). split; rewrite Em; try done. constructor.
  - destruct Hm as (Em & Eh & Ed). split; rewrite Em; [|by rewrite Ed|done]. intros k c. rewrite Ha. unfold keys_of. rewrite Eh. apply H1.
  - destruct Hm as (Em & Eh & Ed & _). split; rewrite Em; [| |by apply ascending_filter].
    + intros k' c'. rewrite map_find_erase, Ha. case_decide; [done|]. unfold keys_of. rewrite Eh. apply H1.
    + intros Hd k' c'. rewrite map_find_erase, Ha. case_decide; [done|]. intros Hk' Ha'. apply Hev; [congruence|]. eapply H2; [congruence|done|done].
Qed.

Lemma step_evicts n w w' : evicts w → step fn n w = Ret w' → evicts w'.
Proof.
  intros He (t & i & rest & l & w1 & Hn & Hc & E & ->)%step_inv_map. destruct (exec_effect fn n i rest t w l w1 (e_sorted _ He) Hn Hc E) as [(t' & Hq & Em & Eh & Ed & _)|[Et Hm]].
  - by eapply quiet_evicts.
  - by eapply map_effect_evicts.
Qed.

Lemma run_evicts schedule w w' : evicts w → run fn schedule w = Ret w' → evicts w'.
Proof.
  revert w. induction schedule as [|n schedule IH]; intros w He E; cbn in E; [by injection E as <-|].
  destruct (step fn n w) as [w1|e|[]] eqn:E1; try done; [|by eapply IH]. eapply IH; [|done]. by eapply step_evicts.
Qed.

Lemma evicts_new programs : evicts (world_new programs).
Proof. split; [done|done|constructor]. Qed.

(** ** Clients that neither clear nor destroy the map *)
Definition tame (i : instr) : Prop := i ≠ i_clear ∧ i ≠ i_destroy.

Record tame_world (w : world) : Prop := {
  w_evicts : evicts w;
  w_iterators : iterators_ok w;
  w_there : destroyed w = false;
  w_tame : ∀ n t i, threads w !! n = Some t → i ∈ code t → tame i }.

Lemma exec_tame n i w l w1 : exec fn n i w = (Ret l, w1) → ∀ x, x ∈ l → tame x.
Proof.
  assert (∀ ks x, x ∈ map i_evict ks → tame x) as Hev by (by intros ks x (k & -> & _)%list_elem_of_fmap).
  assert (∀ x, x ∈ [] → tame x) as Hnil by (by intros x ?%elem_of_nil).
  assert (∀ c w0 l0 w2, teardown c w0 = (Ret l0, w2) → ∀ x, x ∈ l0 → tame x) as Htd.
  { intros c w0 l0 w2 E. unfold teardown in E. munfold. injection E as <- _. destruct (alive w0 c); [done|apply Hev]. }
  unfold exec, this. munfold. destruct (threads w !! n) as [t|]; [|done].
  destruct i; unfold try_catch, Add, Find, clear, ContextMap_dtor, Enumerate, Enumerate_at, Enumerate_fn, begin, iterator_inc, evict, operation, locked, hold, hold_local, set_iter, update in *; munfold;
    intros E; simplify_eq/=; repeat (case_match; simplify_eq/=); try done; try (by eapply Hev); try (eapply Htd; eassumption); intros x Hx; repeat (apply elem_of_cons in Hx as [-> |Hx]; [done|]); by apply elem_of_nil in Hx.
Qed.

Lemma exec_defined n i w t : tame_world w → threads w !! n = Some t → tame i →
  match exec fn n i w with (Ret _, _) | (Stuck blocked, _) => True | _ => False end.
Proof.
  intros [He Hi Hd _] Hn [H1 H2]. unfold exec, this. munfold. rewrite Hn.
  destruct i; try done; unfold try_catch, Add, Find, clear, ContextMap_dtor, Enumerate, Enumerate_at, Enumerate_fn, begin, iterator_inc, evict, teardown, operation, locked, update, hold, hold_local, set_iter;
    munfold; repeat (case_match; simplify_eq/=); try done; try congruence.
  all: match goal with H : iter _ = it_at _ _, H' : map_find _ _ = None |- _ => by rewrite (Hi _ _ _ _ Hn H) in H' end.
Qed.

Lemma step_tame n w w' : tame_world w → step fn n w = Ret w' → tame_world w'.
Proof.
  intros Hw Hstep. pose proof Hw as [He Hi Hd Ht]. pose proof (step_evicts _ _ _ He Hstep) as He'.
  destruct (step_inv_map _ _ _ Hstep) as (t & i & rest & l & w1 & Hn & Hc & E & Ew).
  assert (tame i) as Hti by (eapply Ht; [done|rewrite Hc; left]). pose proof (exec_tame _ _ _ _ _ E) as Hl.
  pose proof (exec_effect fn n i rest t w l w1 (e_sorted _ He) Hn Hc E) as Heff. rewrite <-Ew in Heff.
  assert (∀ t', (∀ x, x ∈ code t' → tame x) → threads w' = <[n := t']> (threads w) → ∀ m u x, threads w' !! m = Some u → x ∈ code u → tame x) as Htame.
  { intros t' Ht' Et m u x Hm Hx. rewrite Et in Hm. apply list_lookup_insert_Some in Hm as [(_ & <- & _)|[_ Hm]]; [by apply Ht'|by eapply Ht]. }
  assert (∀ x, x ∈ rest → tame x) as Hrest by (intros x Hx; eapply Ht; [exact Hn|rewrite Hc; by right]).
  destruct Heff as [(t' & Hq & Em & Eh & Ed & Hit)|[Et Hm]].
  - split; [done|by eapply quiet_iterators|congruence|]. eapply Htame; [|apply (q_threads _ _ _ _ _ Hq)].
    assert (threads w' !! n = Some t') as Hn' by (rewrite (q_threads _ _ _ _ _ Hq); apply list_lookup_insert_eq; by eapply lookup_lt_Some).
    rewrite Ew in Hn'. cbn in Hn'. rewrite list_lookup_alter_eq in Hn'. destruct (threads w1 !! n) as [u|]; [|done]. injection Hn' as <-. cbn.
    intros x [Hx|Hx]%elem_of_app; [by apply Hl|by apply Hrest].
  - split; [done| | |eapply Htame; [|exact Et]; exact Hrest].
    + assert (∀ m u k c, threads w' !! m = Some u → iter u = it_at k c → map_find k (m_contexts w) = Some c ∧ alive w c = true) as Hold.
      { intros m u k c Hmu Hu. rewrite Et in Hmu. apply list_lookup_insert_Some in Hmu as [(-> & <- & _)|[_ Hmu]].
        - split; [by eapply Hi|]. apply alive_spec. exists m, t. split; [done|]. unfold refs. cbn in Hu. rewrite Hu, !elem_of_app. right. right. left.
        - split; [by eapply Hi|]. apply alive_spec. exists m, u. split; [done|]. unfold refs. rewrite Hu, !elem_of_app. right. right. left. }
      intros m u k c Hmu Hu. destruct (Hold _ _ _ _ Hmu Hu) as [Hf Ha]. destruct i; try done; [|by destruct Hti..|].
      * destruct Hm as (_ & -> & _ & _ & Hdead). rewrite map_find_assign. case_decide as Hk; [|done]. subst. rewrite (Hdead _ Hf) in Ha. done.
      * destruct Hm as (-> & _ & _ & Hdead). rewrite map_find_erase. case_decide as Hk; [|done]. subst. rewrite (Hdead _ Hf) in Ha. done.
    + destruct i; try done; [by destruct Hm as (_ & _ & _ & -> & _)|by destruct Hti..|by destruct Hm as (_ & _ & -> & _)].
Qed.

Lemma step_tame_defined n w : tame_world w → match step fn n w with Ret w' => tame_world w' | Stuck blocked => True | _ => False end.
Proof.
  intros Hw. destruct (step fn n w) as [w'|e|r] eqn:E; [by eapply step_tame|..]; unfold step in E.
  all: destruct (threads w !! n) as [t|] eqn:Hn; [|by simplify_eq]; destruct (code t) as [|i rest] eqn:Hc; [by simplify_eq|].
  all: assert (tame i) as Hti by (eapply (w_tame _ Hw); [done|rewrite Hc; left]); pose proof (exec_defined _ _ _ _ Hw Hn Hti) as Hx.
  all: by destruct (exec fn n i w) as [[l|e'|r'] w1]; simplify_eq.
Qed.

Lemma run_tame schedule w : tame_world w → ∃ w', run fn schedule w = Ret w' ∧ tame_world w'.
Proof.
  revert w. induction schedule as [|n schedule IH]; intros w Hw; cbn; [by exists w|]. pose proof (step_tame_defined n w Hw) as Hs.
  destruct (step fn n w) as [w1|e|[]]; try done; by apply IH.
Qed.

(** ** The lock *)
(** Code of a thread that does not hold the lock, and of one that does. *)
Definition plain_instr (i : instr) : Prop := match i with i_at _ | i_fn _ _ _ | i_unlock => False | _ => True end.
Abbreviation plain := (Forall plain_instr).

Inductive holding : list instr → Prop :=
  | holding_at m rest : plain rest → holding (i_at m :: rest)
  | holding_fn k c m rest : plain rest → holding (i_fn k c m :: rest)
  | holding_unlock rest : plain rest → holding (i_unlock :: rest)
  | holding_drop c l : holding l → holding (i_drop c :: l)
  | holding_evict k l : holding l → holding (i_evict k :: l).

Definition code_fits (o : option nat) (n : nat) (l : list instr) : Prop := if decide (o = Some n) then holding l else plain l.

Definition locks_ok (w : world) : Prop :=
  (∀ n t, threads w !! n = Some t → code_fits (lock w) n (code t)) ∧ (∀ n, lock w = Some n → is_Some (threads w !! n)).

Lemma fits_holder n l : code_fits (Some n) n l ↔ holding l.
Proof. unfold code_fits. by rewrite decide_True. Qed.

Lemma fits_free n l : code_fits None n l ↔ plain l.
Proof. unfold code_fits. by rewrite decide_False. Qed.

Lemma holding_evictions ks l : holding l → holding (map i_evict ks ++ l).
Proof. induction ks; [done|]. intros Hl. constructor. auto. Qed.

Lemma fits_evictions o n ks l : code_fits o n l → code_fits o n (map i_evict ks ++ l).
Proof.
  unfold code_fits. destruct (decide (o = Some n)); [apply holding_evictions|]. intros Hl. apply Forall_app. split; [|done].
  apply Forall_forall. by intros x (k & -> & _)%list_elem_of_fmap.
Qed.

Lemma fits_tail o n i l : plain_instr i → code_fits o n (i :: l) → code_fits o n l.
Proof. unfold code_fits. intros Hi. destruct (decide (o = Some n)); [by inversion 1; subst|by inversion 1]. Qed.

Lemma fits_drop o n c l : code_fits o n l → code_fits o n (i_drop c :: l).
Proof. unfold code_fits. destruct (decide (o = Some n)); by constructor. Qed.

Lemma fits_teardown o n c w l rest w1 : teardown c w = (Ret l, w1) → lock w = o → code_fits o n rest → code_fits (lock w1) n (l ++ rest) ∧ ∀ m, m ≠ n → lock w1 = Some m ↔ o = Some m.
Proof. unfold teardown. munfold. intros [= <- <-] <- Hf. split; [|done]. destruct (alive w c); [done|by apply fits_evictions]. Qed.

Lemma fits_plain o n l : o ≠ Some n → plain l → code_fits o n l.
Proof. intros Ho Hl. unfold code_fits. by rewrite decide_False. Qed.

Lemma fits_locks n i l l' : code_fits None n (i :: l) → (plain l → holding (l' ++ l)) → code_fits (Some n) n (l' ++ l).
Proof. rewrite fits_free, fits_holder. intros [_ Hl]%Forall_cons. auto. Qed.

Lemma fits_unlocks o n i l : ¬ plain_instr i → code_fits o n (i :: l) → o = Some n ∧ plain l.
Proof.
  intros Hi. unfold code_fits. destruct (decide (o = Some n)); [|by intros [? _]%Forall_cons]. inversion 1; subst; cbn in Hi; tauto.
Qed.

Lemma fits_next o n i l l' : ¬ plain_instr i → code_fits o n (i :: l) → (plain l → holding (l' ++ l)) → code_fits o n (l' ++ l).
Proof. intros Hi Hf Hl. destruct (fits_unlocks _ _ _ _ Hi Hf) as [-> ?]. rewrite fits_holder. auto. Qed.

(** What the thread that takes a step does to the lock. *)
Lemma exec_lock n i w l w1 rest : exec fn n i w = (Ret l, w1) → code_fits (lock w) n (i :: rest) →
  code_fits (lock w1) n (l ++ rest) ∧ ∀ m, m ≠ n → lock w1 = Some m ↔ lock w = Some m.
Proof.
  intros E Hf. assert (plain_instr i → code_fits (lock w) n rest) as Htl by (intros ?; by eapply fits_tail).
  unfold exec, this in E. munfold. destruct (threads w !! n) as [t|]; [|done].
  destruct i; unfold try_catch, Add, Find, clear, ContextMap_dtor, Enumerate, Enumerate_at, Enumerate_fn, begin, iterator_inc, evict, operation, locked, hold, hold_local, set_iter, update in *; munfold;
   simplify_eq/=; repeat (case_match; simplify_eq/=).
  all: try (split; [by apply Htl|done]).
  all: try (eapply fits_teardown; [eassumption|done|by apply Htl]).
  all: try (split; [|done]; first [eapply (fits_next _ _ _ _ [_]); [|exact Hf|by constructor]|eapply (fits_next _ _ _ _ [_; _]); [|exact Hf|by repeat constructor]]; exact (λ x, x)).
  all: try match goal with Hb : bool_decide _ = true |- _ => apply bool_decide_eq_true_1 in Hb; rewrite Hb in Hf, Htl |- *; split; [|by intros m ?; split; congruence] end.
  - by apply (fits_locks n _ rest [_] Hf); constructor.
  - by apply fits_drop, Htl.
  - by apply (fits_locks n _ rest [_; _] Hf); repeat constructor.
  - destruct (fits_unlocks _ _ i_unlock _ (λ x, x) Hf) as [-> ?]. split; [by rewrite fits_free|]. intros m ?. split; congruence.
Qed.

Lemma exec_threads n i w l w1 : exec fn n i w = (Ret l, w1) → ∃ f, (∀ t, code (f t) = code t) ∧ threads w1 = alter f n (threads w).
Proof.
  assert (∀ c w0 l0 w2, teardown c w0 = (Ret l0, w2) → w2 = w0) as Htd by (intros; unfold teardown in *; munfold; by simplify_eq/=).
  assert (∀ l : list thread, alter id n l = l) as Hid by (intros l0; by apply list_alter_id).
  intros E. unfold exec, this in E. munfold. destruct (threads w !! n) as [t|]; [|done].
  destruct i; unfold try_catch, Add, Find, clear, ContextMap_dtor, Enumerate, Enumerate_at, Enumerate_fn, begin, iterator_inc, evict, operation, locked, hold, hold_local, set_iter, update in *; munfold;
   simplify_eq/=; repeat (case_match; simplify_eq/=).
  all: try match goal with H : teardown _ _ = _ |- _ => apply Htd in H as -> end.
  all: try (exists id; split; [done|]; cbn; by rewrite Hid).
  all: try (eexists; split; [|reflexivity]; done).
  eexists. split; [|by rewrite list_alter_alter_eq]. done.
Qed.

Lemma step_locks n w w' : locks_ok w → step fn n w = Ret w' → locks_ok w'.
Proof.
  intros [Hc Hl] (t & i & rest & l & w1 & Hn & Hcode & E & ->)%step_inv_map. pose proof (Hc _ _ Hn) as Hf. rewrite Hcode in Hf.
  destruct (exec_lock _ _ _ _ _ _ E Hf) as [Hf' Ho]. destruct (exec_threads _ _ _ _ _ E) as (f & Hcf & Et).
  assert (∀ m, is_Some (threads w !! m) → is_Some (alter (λ t, goes t (l ++ rest)) n (threads w1) !! m)) as Hsome.
  { intros m Hm. apply lookup_lt_is_Some in Hm. apply lookup_lt_is_Some. by rewrite length_alter, Et, length_alter. }
  split; cbn.
  - intros m u. rewrite Et. destruct (decide (m = n)) as [-> |Hne].
    + rewrite !list_lookup_alter_eq, Hn. by intros [= <-].
    + rewrite !list_lookup_alter_ne by done. intros Hm. specialize (Hc _ _ Hm). unfold code_fits in *. destruct (decide (lock w1 = Some m)) as [Hm'|Hm'].
      * apply Ho in Hm'; [|done]. by rewrite decide_True in Hc.
      * rewrite decide_False in Hc; [done|]. intros Hx. by apply Hm', Ho.
  - intros m Hm. apply Hsome. destruct (decide (m = n)) as [-> |Hne]; [by eexists|]. by apply Hl, Ho.
Qed.

Lemma run_locks schedule w w' : locks_ok w → run fn schedule w = Ret w' → locks_ok w'.
Proof.
  revert w. induction schedule as [|n schedule IH]; intros w He E; cbn in E; [by injection E as <-|].
  destruct (step fn n w) as [w1|e|[]] eqn:E1; try done; [|by eapply IH]. eapply IH; [|done]. by eapply step_locks.
Qed.

Lemma locks_new programs : locks_ok (world_new programs).
Proof.
  split; [|done]. intros n t (p & -> & _)%list_elem_of_lookup_2%list_elem_of_fmap. rewrite fits_free. cbn. apply Forall_forall.
  by intros x ([] & -> & _)%list_elem_of_fmap.
Qed.

(** ** Progress *)
(** The thread that holds the lock is about to take it again. *)
Definition self_deadlock (w : world) : Prop := ∃ n t k rest, lock w = Some n ∧ threads w !! n = Some t ∧ code t = i_evict k :: rest.

Definition takes_no_lock (i : instr) : Prop := match i with i_at _ | i_fn _ _ _ | i_unlock | i_drop _ | i_release _ => True | _ => False end.

Lemma exec_goes n i w t : tame_world w → threads w !! n = Some t → tame i → lock w = None ∨ takes_no_lock i → ∃ l w1, exec fn n i w = (Ret l, w1).
Proof.
  intros [He Hi Hd _] Hn [H1 H2] Hlock. unfold exec, this. munfold. rewrite Hn.
  destruct i; try done; unfold try_catch, Add, Find, clear, ContextMap_dtor, Enumerate, Enumerate_at, Enumerate_fn, begin, iterator_inc, evict, teardown, operation, locked, hold, hold_local, set_iter, update;
    munfold; repeat (case_match; simplify_eq/=); try (by eauto); try (exfalso; congruence).
  all: try match goal with H : bool_decide _ = false |- _ => apply bool_decide_eq_false_1 in H; by destruct Hlock end.
  match goal with H : iter _ = it_at _ _, H' : map_find _ _ = None |- _ => by rewrite (Hi _ _ _ _ Hn H) in H' end.
Qed.

Lemma step_goes n w t i rest : tame_world w → threads w !! n = Some t → code t = i :: rest → lock w = None ∨ takes_no_lock i → ∃ w', step fn n w = Ret w'.
Proof.
  intros Hw Hn Hc Hlock. assert (tame i) as Hti by (eapply (w_tame _ Hw); [done|rewrite Hc; left]). destruct (exec_goes _ _ _ _ Hw Hn Hti Hlock) as (l & w1 & E).
  unfold step. rewrite Hn, Hc, E. by eexists.
Qed.

Lemma progress w : tame_world w → locks_ok w → (∃ n w', step fn n w = Ret w') ∨ self_deadlock w ∨ lock w = None ∧ ∀ n t, threads w !! n = Some t → code t = [].
Proof.
  intros Hw [Hc Hl]. destruct (lock w) as [n|] eqn:E.
  - destruct (Hl n eq_refl) as [t Hn]. pose proof (Hc _ _ Hn) as Hf. rewrite fits_holder in Hf.
    assert (∃ i rest, code t = i :: rest ∧ (takes_no_lock i ∨ ∃ k, i = i_evict k)) as (i & rest & Hcode & Hi) by (inversion Hf; do 2 eexists; (split; [reflexivity|]); cbn; eauto).
    destruct Hi as [Hi|[k ->]]; [left; exists n; by eapply step_goes; eauto|]. right. left. by exists n, t, k, rest.
  - destruct (decide (Exists (λ t, 0 < length (code t)) (threads w))) as [(t & [n Hn]%list_elem_of_lookup & Hne)%Exists_exists|Hno].
    + left. exists n. destruct (code t) as [|i rest] eqn:Hcode; [cbn in Hne; lia|]. by eapply step_goes; eauto.
    + right. right. split; [done|]. intros n t Hn. destruct (code t) as [|i rest] eqn:Hcode; [done|]. destruct Hno. apply Exists_exists.
      exists t. split; [by eapply list_elem_of_lookup_2|rewrite Hcode; cbn; lia].
Qed.

(** It waits for itself, and the others for it. *)
Lemma self_deadlock_step n w w' : locks_ok w → self_deadlock w → step fn n w = Ret w' → self_deadlock w'.
Proof.
  intros [Hc Hl] (m & u & k & r & Elock & Hm & Hu) (t & i & rest & l & w1 & Hn & Hcode & E & ->)%step_inv_map. pose proof (Hc _ _ Hn) as Hf. rewrite Hcode in Hf.
  destruct (exec_lock _ _ _ _ _ _ E Hf) as [_ Ho]. destruct (exec_threads _ _ _ _ _ E) as (f & Hcf & Et). destruct (decide (m = n)) as [Emn|Hne].
  - subst m. rewrite Hm in Hn. injection Hn as <-. rewrite Hu in Hcode. injection Hcode as <- <-. unfold exec, this, evict, locked in E. munfold. rewrite Hm in E. munfold. rewrite bool_decide_eq_false_2 in E by congruence. done.
  - exists m, u, k, r. split_and!; [by apply Ho|cbn; rewrite Et, !list_lookup_alter_ne by done; done|done].
Qed.

Lemma self_deadlock_run schedule w w' : locks_ok w → self_deadlock w → run fn schedule w = Ret w' → self_deadlock w'.
Proof.
  revert w. induction schedule as [|n schedule IH]; intros w Hl Hd E; cbn in E; [by injection E as <-|].
  destruct (step fn n w) as [w1|e|[]] eqn:E1; try done; [|by eapply IH]. eapply IH; [by eapply step_locks|by eapply self_deadlock_step|done].
Qed.

Lemma new_tame programs : (∀ p o, p ∈ programs → o ∈ p.1 → o ≠ co_clear ∧ o ≠ co_destroy) → tame_world (world_new programs).
Proof.
  intros Hp. split; [apply evicts_new| |done|].
  - intros n t k c (p & -> & _)%list_elem_of_lookup_2%list_elem_of_fmap. done.
  - intros n t i (p & -> & Hin)%list_elem_of_lookup_2%list_elem_of_fmap (o & -> & Ho)%list_elem_of_fmap. destruct (Hp _ _ Hin Ho) as [H1 H2].
    unfold tame. by destruct o.
Qed.

(** ** A context that is alive stays in the map *)
Lemma step_keeps n w w' k c : tame_world w → step fn n w = Ret w' → alive w' c = true →
  alive w c = true ∧ (map_find k (m_contexts w) = Some c → map_find k (m_contexts w') = Some c).
Proof.
  intros [He Hi Hd Ht] (t & i & rest & l & w1 & Hn & Hc & E & Ew)%step_inv_map Ha. assert (tame i) as Hti by (eapply Ht; [done|rewrite Hc; left]).
  destruct (exec_effect fn n i rest t w l w1 (e_sorted _ He) Hn Hc E) as [(t' & Hq & Em & _)|[Et Hm]]; rewrite <-Ew in *.
  - split; [by eapply alive_after|by rewrite Em].
  - assert (alive w c = true) as Ha'. { rewrite <-(alive_goes n w t rest c Hn), <-Ha. by apply alive_ext. }
    split; [done|]. intros Hf. destruct i; try done; [|by destruct Hti..|].
    + destruct Hm as (_ & -> & _ & _ & Hdead). rewrite map_find_assign. case_decide; [|done]. subst. rewrite (Hdead _ Hf) in Ha'. done.
    + destruct Hm as (-> & _ & _ & Hdead). rewrite map_find_erase. case_decide; [|done]. subst. rewrite (Hdead _ Hf) in Ha'. done.
Qed.

Lemma run_keeps schedule w w' k c : tame_world w → run fn schedule w = Ret w' → alive w' c = true →
  alive w c = true ∧ (map_find k (m_contexts w) = Some c → map_find k (m_contexts w') = Some c).
Proof.
  revert w. induction schedule as [|n schedule IH]; intros w Hw E Ha; cbn in E; [by injection E as <-|].
  destruct (step fn n w) as [w1|e|[]] eqn:E1; try done; [|by apply IH].
  destruct (IH w1 (step_tame _ _ _ Hw E1) E Ha) as [Ha1 Hk1]. destruct (step_keeps _ _ _ k _ Hw E1 Ha1). auto.
Qed.
End invariants.

(** ** [Enumerate] on its own *)
Section enumerate.
  Context (fn : Key → context → bool) (n : nat) (w : world) (t : thread).
  Context (Hn : threads w !! n = Some t).

(** The world when thread [n] is [u] and all the others are where they were. *)
Definition world_at (u : thread) (v : list (Key * context)) (x : option nat) : world :=
  mkWorld (m_contexts w) (destroyed w) x (handlers w) (<[n := u]> (threads w)) v.

(** The calls of [fn]: the contexts that are alive, as far as [fn] goes on. *)
Fixpoint visits (live : context → bool) (m : t_mpType) : list (Key * context) :=
  match m with
  | [] => []
  | (k, c) :: m' => if live c then (k, c) :: (if fn k c then visits live m' else []) else visits live m'
  end.

Lemma world_at_thread u v x : threads (world_at u v x) !! n = Some u.
Proof. cbn. apply list_lookup_insert_eq. by eapply lookup_lt_Some. Qed.

Lemma world_at_alive l v x c : alive (world_at (goes t l) v x) c = alive w c.
Proof. rewrite <-(alive_goes n w t l c Hn). by apply alive_ext. Qed.

Lemma world_at_step u v x i l rest u' v' x' : code u = i :: rest → exec fn n i (world_at u v x) = (Ret l, world_at u' v' x') →
  step fn n (world_at u v x) = Ret (world_at (goes u' (l ++ rest)) v' x').
Proof.
  intros Hc E. unfold step. rewrite world_at_thread, Hc, E. f_equal. unfold world_at, set_threads. cbn. f_equal.
  rewrite (alter_insert _ _ _ u'); [by rewrite list_insert_insert_eq|]. apply list_lookup_insert_eq. by eapply lookup_lt_Some.
Qed.

Lemma reaches_step w1 w2 w3 : step fn n w1 = Ret w2 → (∃ count, run fn (replicate count n) w2 = Ret w3) → ∃ count, run fn (replicate count n) w1 = Ret w3.
Proof. intros E [count Hc]. exists (S count). cbn. by rewrite E. Qed.

Definition holds_local (c : context) (l : list instr) : thread := mkThread l (held t) (c :: locals t) (iter t).

Lemma world_at_update f u v x : update n f (world_at u v x) = (Ret tt, world_at (f u) v x).
Proof.
  unfold update. munfold. do 2 f_equal. unfold world_at, set_threads. cbn. f_equal. rewrite (alter_insert _ _ _ u); [by rewrite list_insert_insert_eq|].
  apply list_lookup_insert_eq. by eapply lookup_lt_Some.
Qed.

Lemma world_at_this u v x : this n (world_at u v x) = (Ret u, world_at u v x).
Proof. unfold this. munfold. by rewrite world_at_thread. Qed.

Lemma step_at_alive k c m rest v : alive w c = true →
  step fn n (world_at (goes t (i_at ((k, c) :: m) :: rest)) v (Some n)) = Ret (world_at (holds_local c (i_fn k c m :: rest)) v (Some n)).
Proof.
  intros Ha. eapply (world_at_step _ _ _ _ [_] _ (holds_local c (i_at ((k, c) :: m) :: rest))); [done|]. unfold exec. rewrite (bind_Ret _ _ _ _ _ (world_at_this _ _ _)).
  unfold Enumerate_at, hold_local. munfold. rewrite world_at_alive, Ha. by rewrite world_at_update.
Qed.

Lemma step_at_dead k c m rest v : alive w c = false →
  step fn n (world_at (goes t (i_at ((k, c) :: m) :: rest)) v (Some n)) = Ret (world_at (goes t (i_at m :: rest)) v (Some n)).
Proof.
  intros Ha. eapply (world_at_step _ _ _ _ [_] _ (goes t (i_at ((k, c) :: m) :: rest))); [done|]. unfold exec. rewrite (bind_Ret _ _ _ _ _ (world_at_this _ _ _)).
  unfold Enumerate_at, hold_local. munfold. by rewrite world_at_alive, Ha.
Qed.

Lemma step_at_end rest v : step fn n (world_at (goes t (i_at [] :: rest)) v (Some n)) = Ret (world_at (goes t (i_unlock :: rest)) v (Some n)).
Proof.
  eapply (world_at_step _ _ _ _ [_] _ (goes t (i_at [] :: rest))); [done|]. unfold exec. by rewrite (bind_Ret _ _ _ _ _ (world_at_this _ _ _)).
Qed.

Lemma step_fn k c m rest v : step fn n (world_at (holds_local c (i_fn k c m :: rest)) v (Some n)) =
  Ret (world_at (holds_local c (i_drop c :: (if fn k c then i_at m else i_unlock) :: rest)) (v ++ [(k, c)]) (Some n)).
Proof.
  eapply (world_at_step _ _ _ _ [_; _] _ (holds_local c (i_fn k c m :: rest))); [done|]. unfold exec. by rewrite (bind_Ret _ _ _ _ _ (world_at_this _ _ _)).
Qed.

Lemma step_drop c l v : alive w c = true → step fn n (world_at (holds_local c (i_drop c :: l)) v (Some n)) = Ret (world_at (goes t l) v (Some n)).
Proof.
  intros Ha. eapply (world_at_step _ _ _ _ [] _ (goes t (i_drop c :: l))); [done|]. unfold exec. rewrite (bind_Ret _ _ _ _ _ (world_at_this _ _ _)).
  rewrite (bind_Ret _ _ _ _ _ (world_at_update _ _ _ _)). cbn. rewrite remove_one_cons. unfold teardown. munfold. 
  change (mkThread _ _ _ _) with (goes t (i_drop c :: l)). by rewrite world_at_alive, Ha.
Qed.

Lemma step_unlock l v : step fn n (world_at (goes t (i_unlock :: l)) v (Some n)) = Ret (world_at (goes t l) v None).
Proof.
  eapply (world_at_step _ _ _ _ [] _ (goes t (i_unlock :: l))); [done|]. unfold exec. by rewrite (bind_Ret _ _ _ _ _ (world_at_this _ _ _)).
Qed.

Lemma enumerate_loop m rest v : ∃ count, run fn (replicate count n) (world_at (goes t (i_at m :: rest)) v (Some n)) = Ret (world_at (goes t rest) (v ++ visits (alive w) m) None).
Proof.
  revert v. induction m as [|[k c] m IH]; intros v; cbn.
  - eapply reaches_step; [apply step_at_end|]. eapply reaches_step; [apply step_unlock|]. exists 0. by rewrite app_nil_r.
  - destruct (alive w c) eqn:Ha; [|eapply reaches_step; [by apply step_at_dead|apply IH]]. eapply reaches_step; [by apply step_at_alive|].
    eapply reaches_step; [apply step_fn|]. eapply reaches_step; [by apply step_drop|]. destruct (fn k c).
    + destruct (IH (v ++ [(k, c)])) as [count Hc]. exists count. by rewrite Hc, <-app_assoc.
    + eapply reaches_step; [apply step_unlock|]. by exists 0.
Qed.

Lemma world_at_here : world_at t (visited w) (lock w) = w.
Proof. unfold world_at. rewrite list_insert_id by done. by destruct w. Qed.

Lemma enumerate_alone rest : code t = i_enumerate :: rest → destroyed w = false → lock w = None →
  ∃ count, run fn (replicate count n) w = Ret (world_at (goes t rest) (visited w ++ visits (alive w) (m_contexts w)) None).
Proof.
  intros Hc Hd Hl. eapply reaches_step; [|apply enumerate_loop]. pose proof world_at_here as E. rewrite Hl in E. rewrite <-E at 1.
  eapply (world_at_step _ _ _ _ [_] _ t); [done|]. unfold exec. rewrite (bind_Ret _ _ _ _ _ (world_at_this _ _ _)).
  unfold Enumerate, operation, locked. munfold. cbn. by rewrite Hd.
Qed.
End enumerate.
