(* ===== verification/ContextMapSpec.v ===== *)
(** * ContextMap: what it promises

    Contexts that are alive stay in the map, contexts that have expired leave it; what
    [Enumerate] visits; no iterator dangles unless the map is cleared; and the one way
    to lock up: the last reference to a context goes while the lock is held. *)
From stdpp Require Import base gmap list strings.
From S2P Require Import Prelude.
From S2P Require Import ContextMap.
From S2P Require Import ContextMapFacts.
Local Open Scope nat_scope.

(** Clients that neither clear nor destroy the map. *)
Definition no_clear (programs : list (list client_op * list context)) : Prop :=
  ∀ p o, p ∈ programs → o ∈ p.1 → o ≠ co_clear ∧ o ≠ co_destroy.

(** C18. However clients interleave, a run of clients that neither clear nor destroy the
    map is defined, and never throws beyond [Add]: an iterator that is at an entry is at
    an entry of the map, with the key and the context it had; and a context that is
    alive at the end and was in the map at any time is there still, under its key. *)
Theorem ContextMap_keeps_contexts fn programs earlier later : no_clear programs →
  ∃ w w', run fn earlier (world_new programs) = Ret w ∧ run fn later w = Ret w' ∧
    (∀ n t k c, threads w' !! n = Some t → iter t = it_at k c → map_find k (m_contexts w') = Some c) ∧
    ∀ k c, map_find k (m_contexts w) = Some c → alive w' c = true → map_find k (m_contexts w') = Some c.
Proof.
  intros Hp%new_tame. destruct (run_tame fn earlier _ Hp) as (w & E & Hw). destruct (run_tame fn later _ Hw) as (w' & E' & Hw').
  exists w, w'. split_and!; try done; [apply (w_iterators _ Hw')|]. intros k c Hk Ha. by apply (run_keeps fn later w w' k c Hw E' Ha).
Qed.

(** C19. Whatever clients do, as long as the map is not destroyed, a key whose context
    has expired is about to be evicted by some thread: when no thread has anything left
    to do, the map has contexts that are alive, in ascending order of their keys. *)
Theorem ContextMap_evicts fn programs schedule w : run fn schedule (world_new programs) = Ret w → destroyed w = false →
  ascending (m_contexts w) ∧
  (∀ k c, map_find k (m_contexts w) = Some c → alive w c = true ∨ ∃ n t, threads w !! n = Some t ∧ evicting k t) ∧
  ((∀ n t, threads w !! n = Some t → code t = []) → ∀ k c, map_find k (m_contexts w) = Some c → alive w c = true).
Proof.
  intros E Hd. pose proof (run_evicts fn schedule _ _ (evicts_new programs) E) as [_ H2 H3].
  assert (∀ k c, map_find k (m_contexts w) = Some c → alive w c = true ∨ ∃ n t, threads w !! n = Some t ∧ evicting k t) as H.
  { intros k c Hk. destruct (alive w c) eqn:Ha; [by left|right]. by eapply H2. }
  split_and!; [done|done|]. intros Hend k c Hk. destruct (H k c Hk) as [?|(n & t & Hn & Ht)]; [done|].
  unfold evicting in Ht. rewrite (Hend _ _ Hn) in Ht. by apply elem_of_nil in Ht.
Qed.

(** C20. Clients that neither clear nor destroy the map only ever wait for a lock that is
    given back, with one exception: at any time some thread can take a step, or all are
    done and the lock is free, or the thread that holds the lock is about to run a
    handler that takes it again; then it will never do anything else. *)
Theorem ContextMap_progress fn programs schedule : no_clear programs →
  ∃ w, run fn schedule (world_new programs) = Ret w ∧
    ((∃ n w', step fn n w = Ret w') ∨ (lock w = None ∧ ∀ n t, threads w !! n = Some t → code t = []) ∨
     self_deadlock w ∧ ∀ later w', run fn later w = Ret w' → self_deadlock w').
Proof.
  intros Hp%new_tame. destruct (run_tame fn schedule _ Hp) as (w & E & Hw). exists w. split; [done|].
  pose proof (run_locks fn schedule _ _ (locks_new programs) E) as Hl. destruct (progress fn w Hw Hl) as [?|[Hd|?]]; [by left| |by right; left].
  right. right. split; [done|]. intros later w' E'. by eapply self_deadlock_run.
Qed.

(** C21. [Enumerate], when no other thread runs, calls the function for the contexts of
    the map that are alive, in ascending order of their keys, up to the first for which
    it returns [false], and changes nothing. *)
Theorem ContextMap_Enumerate fn programs schedule n w t rest : run fn schedule (world_new programs) = Ret w → destroyed w = false → lock w = None →
  threads w !! n = Some t → code t = i_enumerate :: rest →
  ascending (m_contexts w) ∧ ∃ count, run fn (replicate count n) w = Ret (world_at n w (goes t rest) (visited w ++ visits fn (alive w) (m_contexts w)) None).
Proof.
  intros E Hd Hl Hn Hc. split; [by apply (run_evicts fn schedule _ _ (evicts_new programs) E)|]. by apply enumerate_alone.
Qed.

(** ** Clients *)
Definition yes (k : Key) (c : context) : bool := true.
Definition until_2 (k : Key) (c : context) : bool := bool_decide (k < 2).

(** A client adds two contexts and looks at them; another lets its references go. *)
Definition two_clients : list (list client_op * list context) :=
  [([co_add 2 20; co_add 1 10; co_add 3 30; co_add 1 30; co_enumerate; co_begin; co_next; co_iterator_end], [10; 20; 30]); ([co_release 10; co_find 2], [10])].

Lemma two_clients_no_clear : no_clear two_clients.
Proof. intros p o. unfold two_clients. rewrite !elem_of_cons, elem_of_nil. intros [-> |[-> |[]]]; cbn; rewrite !elem_of_cons, elem_of_nil; naive_solver. Qed.

(** What [two_clients] get to, with the first one at its iterator. *)
Definition two_clients_schedule : list nat := [0; 0; 0; 0; 0; 0; 0; 0; 0; 0; 0; 0; 0; 0; 0; 0; 0; 1; 1].

Lemma ContextMap_keeps_contexts_witness : ∃ w w', run until_2 [0; 0] (world_new two_clients) = Ret w ∧ run until_2 two_clients_schedule w = Ret w' ∧
  (∀ n t k c, threads w' !! n = Some t → iter t = it_at k c → map_find k (m_contexts w') = Some c) ∧
  ∀ k c, map_find k (m_contexts w) = Some c → alive w' c = true → map_find k (m_contexts w') = Some c.
Proof. apply (ContextMap_keeps_contexts until_2 two_clients [0; 0] two_clients_schedule two_clients_no_clear). Defined.

(** A client adds a context and lets it go, another clears the map meanwhile. *)
Definition gone_client : list (list client_op * list context) := [([co_add 1 10; co_release 10; co_add 2 20], [10; 20]); ([co_clear], [])].

Definition gone_world : world := Eval vm_compute in match run yes [1; 0; 0; 0; 0] (world_new gone_client) with Ret w => w | _ => world_new [] end.

Lemma ContextMap_evicts_witness : m_contexts gone_world = [(2, 20)] ∧ ascending (m_contexts gone_world) ∧
  (∀ k c, map_find k (m_contexts gone_world) = Some c → alive gone_world c = true ∨ ∃ n t, threads gone_world !! n = Some t ∧ evicting k t) ∧
  ((∀ n t, threads gone_world !! n = Some t → code t = []) → ∀ k c, map_find k (m_contexts gone_world) = Some c → alive gone_world c = true).
Proof. split; [reflexivity|]. apply (ContextMap_evicts yes gone_client [1; 0; 0; 0; 0] gone_world); reflexivity. Defined.

Lemma ContextMap_progress_witness : ∃ w, run until_2 two_clients_schedule (world_new two_clients) = Ret w ∧
  ((∃ n w', step until_2 n w = Ret w') ∨ (lock w = None ∧ ∀ n t, threads w !! n = Some t → code t = []) ∨
   self_deadlock w ∧ ∀ later w', run until_2 later w = Ret w' → self_deadlock w').
Proof. apply (ContextMap_progress until_2 two_clients two_clients_schedule two_clients_no_clear). Defined.

Definition enumerate_world : world := Eval vm_compute in match run until_2 [0; 0; 0; 0] (world_new two_clients) with Ret w => w | _ => world_new [] end.
Definition enumerate_thread : thread := Eval vm_compute in match threads enumerate_world with t :: _ => t | [] => mkThread [] [] [] it_none end.

Lemma ContextMap_Enumerate_witness : visits until_2 (alive enumerate_world) (m_contexts enumerate_world) = [(1, 10); (2, 20)] ∧
  ascending (m_contexts enumerate_world) ∧
  ∃ count, run until_2 (replicate count 0) enumerate_world =
    Ret (world_at 0 enumerate_world (goes enumerate_thread [i_begin; i_next; i_iterator_end]) (visited enumerate_world ++ visits until_2 (alive enumerate_world) (m_contexts enumerate_world)) None).
Proof. split; [reflexivity|]. apply (ContextMap_Enumerate until_2 two_clients [0; 0; 0; 0]); reflexivity. Defined.

(** ** What goes wrong *)
(** The last reference goes while [Enumerate] has the lock: the thread waits for itself,
    for good. *)
Definition enumerating_client : list (list client_op * list context) := [([co_enumerate; co_find 1], []); ([co_add 1 10; co_release 10], [10])].

Definition self_deadlocked (w : world) : bool :=
  match lock w with
  | Some n => match threads w !! n with Some (mkThread (i_evict _ :: _) _ _ _) => true | _ => false end
  | None => false
  end.

Lemma Enumerate_deadlocks : ∃ w, run yes [1; 0; 0; 1; 0; 0] (world_new enumerating_client) = Ret w ∧ self_deadlocked w = true ∧ run yes [0; 1; 0; 1] w = Ret w.
Proof. eexists. split; [vm_compute; reflexivity|]. split; reflexivity. Qed.

(** The handler itself does it: with a reference to the context that has taken its key. *)
Definition evicting_client : list (list client_op * list context) := [([co_add 1 10; co_release 10], [10]); ([co_add 1 20; co_release 20], [20])].

Lemma evict_deadlocks : ∃ w, run yes [0; 0; 1; 0; 1; 0] (world_new evicting_client) = Ret w ∧ self_deadlocked w = true.
Proof. eexists. split; [vm_compute; reflexivity|reflexivity]. Qed.

(** [clear] leaves the iterators of its clients behind. *)
Lemma clear_dangles : run yes [0; 0; 0; 0] (world_new [([co_add 1 10; co_begin; co_clear; co_next], [10])]) = Stuck undefined_behavior.
Proof. reflexivity. Qed.
