(* ===== verification/HeteroBlock.v ===== *)
(** * HeteroBlock: objects of several types in one allocation

    src/src/autowiring/HeteroBlock.{h,cpp}, and the fields of auto_id.h it uses: the
    layout in [size_t] arithmetic, the headers as memory at addresses, which the objects
    of clients may overwrite where they overlap, and the chain of headers that the
    deleter follows. *)
From stdpp Require Import base gmap list strings.
From Stdlib Require Import ZArith Lia.
From S2P Require Import Prelude.
Local Open Scope Z_scope.

(** [sizeof(void* )], [sizeof(BlockHeader)]. *)
Definition sizeof_ptr : Z := 8.
Definition sizeof_header : Z := 16.

(** A type, by the address of its [auto_id_block]; the size and the alignment there. *)
Definition auto_id : Type := nat.
Bind Scope nat_scope with auto_id.
Record auto_id_block := mkIdBlock { ncb : Z; align : Z }.

(** Constructors and destructors go with the type. *)
Record HeteroBlockEntry := mkEntry { id : auto_id; index : Z }.
Definition entry_key (e : HeteroBlockEntry) : auto_id * Z := (id e, index e).

Record BlockHeader := mkHeader { pfnDtor : option auto_id; nextSize : Z }.

(** An [entry] of the map: its offset, and whether its shared pointer is there. *)
Record entry := mkMapEntry { offset : Z; ptr : bool }.
Abbreviation entry_map := (gmap (auto_id * Z) entry).

(** The calls of constructors and destructors at addresses. *)
Inductive event := ev_ctor (t : auto_id) (p : Z) | ev_threw (t : auto_id) (p : Z) | ev_dtor (t : auto_id) (p : Z) | ev_free (p : Z).

(** The memory of one block: the bounds of the allocation, the headers that are intact,
    the count of shared pointers to the block, and the size that the deleter captured. *)
Record world := mkWorld {
  allocated : option (Z * Z);
  headers_at : gmap Z BlockHeader;
  log : list event;
  use_count : nat;
  first_size : Z }.

Definition world_new : world := mkWorld None ∅ [] 0 0.

Definition set_allocated x w := mkWorld x (headers_at w) (log w) (use_count w) (first_size w).
Definition set_headers x w := mkWorld (allocated w) x (log w) (use_count w) (first_size w).
Definition set_log x w := mkWorld (allocated w) (headers_at w) x (use_count w) (first_size w).
Definition set_uses x w := mkWorld (allocated w) (headers_at w) (log w) x (first_size w).
Definition set_first x w := mkWorld (allocated w) (headers_at w) (log w) (use_count w) x.

Local Abbreviation M := (M world).

Section block.
  Context (s_block : auto_id → auto_id_block).
  (** Whether a constructor throws, which may depend on everything before. *)
  Context (ctor_throws : list event → auto_id → Z → bool).
  Context (aligned_malloc : Z → Z → option Z).

(** ** The layout *)
(** The locals of the loop; [sizePrior] points at [temp] or at the [nextSize] of a header. *)
Record layout := mkLayout {
  entries : entry_map;
  headers : list BlockHeader;
  cur_ncb : Z;
  maxAlign : Z;
  temp : Z;
  sizePrior : option nat }.

Definition layout_new (n : nat) : layout := mkLayout ∅ (replicate n (mkHeader None 0)) 0 sizeof_ptr 0 None.

Definition load_prior (l : layout) : Z :=
  match sizePrior l with
  | None => temp l
  | Some k => from_option nextSize 0 (headers l !! k)
  end.

Definition store_prior (x : Z) (l : layout) : layout :=
  match sizePrior l with
  | None => mkLayout (entries l) (headers l) (cur_ncb l) (maxAlign l) x None
  | Some k => mkLayout (entries l) (alter (λ h, mkHeader (pfnDtor h) x) k (headers l)) (cur_ncb l) (maxAlign l) (temp l) (Some k)
  end.

Definition entry_align (e : HeteroBlockEntry) : Z :=
  let a := align (s_block (id e)) in if Z.leb a sizeof_ptr then sizeof_ptr else a.

(** [x += (align - x) % align]. *)
Definition shift_over (x a : Z) : Z := sz_add x (sz_sub a x `mod` a).

(** A turn of the loop. *)
Definition layout_entry (i : nat) (e : HeteroBlockEntry) (l : layout) : layout :=
  let a := entry_align e in
  let maxAlign' := if Z.leb (align (s_block (id e))) sizeof_ptr then maxAlign l else if Z.ltb (maxAlign l) a then a else maxAlign l in
  let l := store_prior (cur_ncb l) l in
  let start := shift_over (cur_ncb l) a in
  let stop := sz_add start (ncb (s_block (id e))) in
  let l := store_prior (sz_sub stop (load_prior l)) l in
  mkLayout (<[entry_key e := mkMapEntry start false]> (entries l))
    (alter (λ h, mkHeader (Some (id e)) (nextSize h)) i (headers l))
    (sz_add stop sizeof_header) maxAlign' (temp l) (Some i).

Fixpoint layout_loop (i : nat) (es : list HeteroBlockEntry) (l : layout) : layout :=
  match es with
  | [] => l
  | e :: es' => layout_loop (S i) es' (layout_entry i e l)
  end.

(** ** Memory *)
(** [n] bytes at [p] are in the allocation. *)
Definition in_block (p n : Z) (w : world) : bool :=
  match allocated w with
  | Some (b, size) => Z.leb b p && Z.leb (p + n) (b + size)
  | None => false
  end.

(** Headers that share a byte with [n] bytes at [p] are gone. *)
Definition clobber (p n : Z) (m : gmap Z BlockHeader) : gmap Z BlockHeader :=
  filter (λ kv, ¬ (kv.1 < p + n ∧ p < kv.1 + sizeof_header)) m.

Definition access (p n : Z) : M unit := w ← get; if in_block p n w then mret tt else stuck undefined_behavior.

Definition store_header (p : Z) (h : BlockHeader) : M unit :=
  access p sizeof_header;; modify (λ w, set_headers (<[p := h]> (clobber p sizeof_header (headers_at w))) w).

Definition load_header (p : Z) : M BlockHeader := access p sizeof_header;; w ← get; deref (headers_at w !! p).

(** [pfnDtor = nullptr], which leaves the other field. *)
Definition zero_dtor (p : Z) : M unit :=
  w ← get; store_header p (mkHeader None (from_option nextSize 0 (headers_at w !! p))).

(** A constructor may write to the bytes of its object; so may a destructor. *)
Definition construct (t : auto_id) (p : Z) : M unit :=
  let n := ncb (s_block t) in
  access p n;; w ← get;
  put (set_headers (clobber p n (headers_at w)) w);;
  if ctor_throws (log w) t p then modify (set_log (log w ++ [ev_threw t p]));; throw (user_exception 0)
  else modify (set_log (log w ++ [ev_ctor t p])).

Definition destroy (t : auto_id) (p : Z) : M unit :=
  let n := ncb (s_block t) in
  access p n;; modify (λ w, set_log (log w ++ [ev_dtor t p]) (set_headers (clobber p n (headers_at w)) w)).

(** ** The deleter of the block *)
Fixpoint deleter_loop (fuel : nat) (pCur curSize : Z) : M unit :=
  match fuel with
  | O => stuck out_of_fuel
  | S fuel' =>
    h ← load_header pCur;
    match pfnDtor h with
    | None => mret tt
    | Some t =>
      destroy t (pCur - curSize);;
      h ← load_header pCur;
      deleter_loop fuel' (pCur + nextSize h + sizeof_header) (nextSize h)
    end
  end.

Definition deleter (fuel : nat) (p : Z) : M unit :=
  w ← get;
  deleter_loop fuel (p + first_size w) (first_size w);;
  modify (λ w, set_log (log w ++ [ev_free p]) (set_allocated None (set_headers ∅ w))).

(** A shared pointer to the block goes. *)
Definition release (fuel : nat) (p : Z) : M unit :=
  modify (λ w, set_uses (pred (use_count w)) w);;
  w ← get; if Nat.eqb (use_count w) 0 then deleter fuel p else mret tt.

(** ** HeteroBlock *)
Record HeteroBlock := mkBlock { block : Z; block_entries : entry_map }.

Fixpoint construct_loop (es : list HeteroBlockEntry) (hs : list BlockHeader) (pCurHeader curSize : Z) : M unit :=
  match es, hs with
  | e :: es', h :: hs' =>
    try_catch (construct (id e) (pCurHeader - curSize)) (λ x, zero_dtor pCurHeader;; throw x);;
    store_header pCurHeader h;;
    construct_loop es' hs' (pCurHeader + nextSize h + sizeof_header) (nextSize h)
  | _, _ => mret tt
  end.

(** The constructor; an exception releases the block. *)
Definition HeteroBlock_new (fuel : nat) (es : list HeteroBlockEntry) : M HeteroBlock :=
  match es with
  | [] => stuck undefined_behavior
  | pFirst :: _ =>
    let l := layout_loop 0 es (layout_new (length es)) in
    let alignedRequest := shift_over (sz_add (cur_ncb l) sizeof_header) (maxAlign l) in
    match aligned_malloc alignedRequest (maxAlign l) with
    | None => throw bad_alloc
    | Some pBlock =>
      modify (set_allocated (Some (pBlock, alignedRequest)));;
      store_header (pBlock + cur_ncb l) (mkHeader None 0);;
      let firstSize := ncb (s_block (id pFirst)) in
      modify (λ w, set_uses 1 (set_first firstSize w));;
      try_catch (construct_loop es (headers l) (pBlock + firstSize) firstSize) (λ x, release fuel pBlock;; throw x);;
      mret (mkBlock pBlock (entries l))
    end
  end.

(** [get] and [get_shared], up to the reference they return. *)
Definition not_initialized : exn := runtime_error "Attempted to obtain a type or index not initialized on this block".

Definition get_ref (b : HeteroBlock) (t : auto_id) (index : Z) : M Z :=
  match block_entries b !! (t, index) with
  | None => throw not_initialized
  | Some q => mret (block b + offset q)
  end.

Definition get_shared (b : HeteroBlock) (t : auto_id) (index : Z) : M (HeteroBlock * Z) :=
  match block_entries b !! (t, index) with
  | None => throw not_initialized
  | Some q =>
    if ptr q then mret (b, block b + offset q)
    else
      modify (λ w, set_uses (S (use_count w)) w);;
      mret (mkBlock (block b) (<[(t, index) := mkMapEntry (offset q) true]> (block_entries b)), block b + offset q)
  end.

(** A client copies a shared pointer. *)
Definition copy_shared : M unit := modify (λ w, set_uses (S (use_count w)) w).

(** The destructor: the map, then the pointer to the block. *)
Definition HeteroBlock_dtor (fuel : nat) (b : HeteroBlock) : M unit :=
  for_each (λ kv, if ptr kv.2 : bool then release fuel (block b) else mret tt) (map_to_list (block_entries b));;
  release fuel (block b).

(** ** Clients *)
(** [auto p = block.get_shared<T>(i)], and the end of such a [p]. *)
Inductive client_op := co_share (t : auto_id) (index : Z) | co_drop.

(** A step of a client that has [k] copies. *)
Definition client_step (fuel : nat) (o : client_op) (bk : HeteroBlock * nat) : M (HeteroBlock * nat) :=
  match o, bk.2 with
  | co_share t index, k => try_catch (x ← get_shared bk.1 t index; copy_shared;; mret (x.1, S k)) (λ _, mret bk)
  | co_drop, O => mret bk
  | co_drop, S k => release fuel (block bk.1);; mret (bk.1, k)
  end.

Fixpoint client_run (fuel : nat) (os : list client_op) (bk : HeteroBlock * nat) : M (HeteroBlock * nat) :=
  match os with
  | [] => mret bk
  | o :: os' => bk ← client_step fuel o bk; client_run fuel os' bk
  end.

(** A block on the stack of a client, who keeps some copies after its end. *)
Definition client (fuel : nat) (es : list HeteroBlockEntry) (os : list client_op) : M (Z * nat) :=
  b ← HeteroBlock_new fuel es;
  bk ← client_run fuel os (b, 0%nat);
  HeteroBlock_dtor fuel bk.1;;
  mret (block bk.1, bk.2).

Fixpoint drop_all (fuel : nat) (p : Z) (k : nat) : M unit :=
  match k with
  | O => mret tt
  | S k' => release fuel p;; drop_all fuel p k'
  end.
End block.
