(* ===== verification/HeteroBlockFacts.v ===== *)
(** * HeteroBlock: layout and lifetimes

    The layout is the one of the comment in HeteroBlock.h, without overflow; objects are
    destroyed where they were constructed, in any case exactly once; what [get] returns
    is aligned and in bounds, and is the object if the layout needs no padding. *)
From stdpp Require Import base gmap list strings.
From Stdlib Require Import ZArith Znumtheory ZifyBool Lia.
From S2P Require Import Prelude.
From S2P Require Import HeteroBlock.
Local Open Scope Z_scope.

(** Sizes are positive, alignments are powers of two. *)
Definition type_ok (b : auto_id_block) : Prop := 0 < ncb b ∧ ∃ k, 0 ≤ k < 64 ∧ align b = 2 ^ k.

Lemma divide_power k : 0 ≤ k < 64 → (2 ^ k | size_mod).
Proof. intros Hk. exists (2 ^ (64 - k)). unfold size_mod. rewrite <-Z.pow_add_r by lia. f_equal. lia. Qed.

Lemma power_divide j k : 0 ≤ j ≤ k → (2 ^ j | 2 ^ k).
Proof. intros Hk. exists (2 ^ (k - j)). rewrite <-Z.pow_add_r by lia. f_equal. lia. Qed.

(** ** The layout *)
Section facts.
  Context (s_block : auto_id → auto_id_block) (blocks_ok : ∀ t, type_ok (s_block t)).
  Local Abbreviation entry_align := (HeteroBlock.entry_align s_block).
  Local Abbreviation size e := (ncb (s_block (id e))).

(** Padding, the part before the header, and what follows, when [cur] bytes are taken. *)
Definition slack (cur a : Z) : Z := (- cur) `mod` a.
Definition next (e : HeteroBlockEntry) (cur : Z) : Z := cur + slack cur (entry_align e) + size e + sizeof_header.
Definition part (es : list HeteroBlockEntry) (cur : Z) : Z :=
  match es with [] => 0 | e :: _ => slack cur (entry_align e) + size e end.

Fixpoint end_of (es : list HeteroBlockEntry) (cur : Z) : Z :=
  match es with [] => cur | e :: es' => end_of es' (next e cur) end.

Fixpoint headers_of (es : list HeteroBlockEntry) (cur : Z) : list BlockHeader :=
  match es with [] => [] | e :: es' => mkHeader (Some (id e)) (part es' (next e cur)) :: headers_of es' (next e cur) end.

Fixpoint entries_of (es : list HeteroBlockEntry) (cur : Z) (m : entry_map) : entry_map :=
  match es with
  | [] => m
  | e :: es' => entries_of es' (next e cur) (<[entry_key e := mkMapEntry (cur + slack cur (entry_align e)) false]> m)
  end.

Definition max_align (es : list HeteroBlockEntry) (a : Z) : Z := foldl (λ x e, Z.max x (entry_align e)) a es.

Lemma entry_align_power e : ∃ k, 3 ≤ k < 64 ∧ entry_align e = 2 ^ k.
Proof.
  unfold HeteroBlock.entry_align. destruct (blocks_ok (id e)) as [_ (k & Hk & E)]. destruct (Z.leb_spec (align (s_block (id e))) sizeof_ptr) as [Hle|Hlt].
  - exists 3. split; [lia|done].
  - exists k. split; [|done]. destruct (decide (k < 3)); [|lia]. rewrite E in Hlt. unfold sizeof_ptr in Hlt.
    assert (2 ^ k ≤ 2 ^ 3) by (apply Z.pow_le_mono_r; lia). lia.
Qed.

Lemma slack_range cur e : 0 ≤ slack cur (entry_align e) < entry_align e.
Proof. destruct (entry_align_power e) as (k & Hk & ->). apply Z.mod_pos_bound. by apply Z.pow_pos_nonneg; lia. Qed.

Lemma slack_aligns cur e : (entry_align e | cur + slack cur (entry_align e)).
Proof.
  destruct (entry_align_power e) as (k & Hk & ->). assert (0 < 2 ^ k) by (apply Z.pow_pos_nonneg; lia).
  apply Z.mod_divide; [lia|]. unfold slack. rewrite Zplus_mod_idemp_r. replace (cur + - cur) with 0 by lia. by apply Zmod_0_l.
Qed.

Lemma size_pos e : 0 < size e.
Proof. apply blocks_ok. Qed.

Lemma next_cur e cur : cur + size e + sizeof_header ≤ next e cur.
Proof. unfold next. pose proof (slack_range cur e). lia. Qed.

Lemma end_of_ge es cur : cur ≤ end_of es cur.
Proof.
  revert cur. induction es as [|e es IH]; intros cur; cbn; [lia|]. specialize (IH (next e cur)).
  pose proof (next_cur e cur). pose proof (size_pos e). unfold sizeof_header in *. lia.
Qed.

Lemma shift_over_slack x a k : 0 ≤ k < 64 → a = 2 ^ k → 0 ≤ x → x + a < size_mod → shift_over x a = x + slack x a.
Proof.
  intros Hk -> Hx Hfit. assert (0 < 2 ^ k) by (apply Z.pow_pos_nonneg; lia). pose proof (divide_power k Hk) as Hd.
  unfold shift_over, sz_sub, sz_add, slack, sz_wrap. rewrite (Z.mod_mod_divide (2 ^ k - x) size_mod (2 ^ k)) by done.
  assert ((2 ^ k - x) mod 2 ^ k = (- x) mod 2 ^ k) as ->.
  { replace (2 ^ k - x) with (- x + 1 * 2 ^ k) by lia. by apply Z_mod_plus_full. }
  apply Z.mod_small. pose proof (Z.mod_pos_bound (- x) (2 ^ k)). lia.
Qed.

(** The list element that a pointer of the loop is about. *)
Lemma alter_at {A} (f : A → A) hs h l k : k = length hs → alter f k (hs ++ h :: l) = hs ++ f h :: l.
Proof. intros ->. induction hs as [|x hs IH]; [done|]. cbn. by f_equal. Qed.

Lemma lookup_at {A} (hs : list A) h l k : k = length hs → (hs ++ h :: l) !! k = Some h.
Proof. intros ->. by rewrite lookup_app_r, Nat.sub_diag by lia. Qed.

(** The sums of a turn do not wrap. *)
Lemma turn_sums e cur : 0 ≤ cur → next e cur + entry_align e < size_mod →
  shift_over cur (entry_align e) = cur + slack cur (entry_align e) ∧
  sz_add (cur + slack cur (entry_align e)) (size e) = cur + part [e] cur ∧
  sz_sub (cur + part [e] cur) cur = part [e] cur ∧ sz_add (cur + part [e] cur) sizeof_header = next e cur.
Proof.
  intros Hcur Hfit. pose proof (next_cur e cur) as Hn. pose proof (slack_range cur e) as Hs. pose proof (size_pos e) as Hp.
  destruct (entry_align_power e) as (k & Hk & Ek). unfold sz_add, sz_sub, next, part, sizeof_header in *.
  split_and!; [apply (shift_over_slack _ _ k); lia || done|rewrite sz_wrap_id; unfold in_size; lia..].
Qed.

Lemma max_align_turn a e : sizeof_ptr ≤ a →
  (if Z.leb (align (s_block (id e))) sizeof_ptr then a else if Z.ltb a (entry_align e) then entry_align e else a) = Z.max a (entry_align e).
Proof. intros Ha. unfold HeteroBlock.entry_align. destruct (Z.leb_spec (align (s_block (id e))) sizeof_ptr); [lia|]. destruct (Z.ltb_spec a (align (s_block (id e)))); lia. Qed.

(** One turn of the loop, after the first. *)
Lemma layout_entry_spec m hs h n cur a t e : 0 ≤ cur → sizeof_ptr ≤ a → next e cur + entry_align e < size_mod →
  layout_entry s_block (S (length hs)) e (mkLayout m (hs ++ h :: replicate (S n) (mkHeader None 0)) cur a t (Some (length hs))) =
  mkLayout (<[entry_key e := mkMapEntry (cur + slack cur (entry_align e)) false]> m)
    ((hs ++ [mkHeader (pfnDtor h) (part [e] cur)]) ++ mkHeader (Some (id e)) 0 :: replicate n (mkHeader None 0))
    (next e cur) (Z.max a (entry_align e)) t (Some (S (length hs))).
Proof.
  intros Hcur Ha Hfit. destruct (turn_sums e cur Hcur Hfit) as (E1 & E2 & E3 & E4).
  unfold layout_entry, store_prior, load_prior. cbn [sizePrior headers entries maxAlign temp cur_ncb].
  rewrite E1, E2. rewrite !alter_at by done. rewrite lookup_at by done. cbn [from_option nextSize]. rewrite E3, E4, max_align_turn by done.
  f_equal. cbn [replicate]. rewrite <-app_assoc. cbn [app pfnDtor].
  assert (∀ x y l, hs ++ x :: y :: l = (hs ++ [x]) ++ y :: l) as Eapp by (intros; by rewrite <-app_assoc). rewrite !Eapp, alter_at; [done|].
  rewrite length_app. cbn. lia.
Qed.

Definition set_part (h : BlockHeader) (x : Z) : BlockHeader := mkHeader (pfnDtor h) x.

Lemma layout_loop_spec es m hs h cur a t : 0 ≤ cur → sizeof_ptr ≤ a → (∀ e, e ∈ es → end_of es cur + entry_align e < size_mod) → (es = [] → nextSize h = 0) →
  layout_loop s_block (S (length hs)) es (mkLayout m (hs ++ h :: replicate (length es) (mkHeader None 0)) cur a t (Some (length hs))) =
  mkLayout (entries_of es cur m) (hs ++ set_part h (part es cur) :: headers_of es cur) (end_of es cur) (max_align es a) t (Some (length es + length hs)%nat).
Proof.
  revert m hs h cur a. induction es as [|e es IH]; intros m hs h cur a Hcur Ha Hfit Hh.
  - cbn. specialize (Hh eq_refl). destruct h as [d x]. cbn in Hh. by subst x.
  - cbn [layout_loop length]. pose proof (end_of_ge es (next e cur)). rewrite layout_entry_spec; [|done|done|].
    2: { specialize (Hfit e ltac:(left)). cbn in Hfit. lia. }
    assert (S (length hs) = length (hs ++ [mkHeader (pfnDtor h) (part [e] cur)])) as El by (rewrite length_app; cbn; lia). rewrite El, IH.
    + cbn [entries_of end_of max_align foldl headers_of]. f_equal; [|rewrite length_app; cbn; f_equal; lia]. by rewrite <-app_assoc.
    + pose proof (next_cur e cur). pose proof (size_pos e). unfold sizeof_header in *. lia.
    + lia.
    + intros e' He'. apply (Hfit e'). by right.
    + done.
Qed.

(** The whole loop. *)
Lemma layout_spec e es : (∀ e', e' ∈ e :: es → end_of (e :: es) 0 + entry_align e' < size_mod) →
  ∃ t, layout_loop s_block 0 (e :: es) (layout_new (length (e :: es))) =
  mkLayout (entries_of (e :: es) 0 ∅) (headers_of (e :: es) 0) (end_of (e :: es) 0) (max_align (e :: es) sizeof_ptr) t (Some (length es)).
Proof.
  intros Hfit. cbn [layout_loop]. pose proof (end_of_ge es (next e 0)). destruct (turn_sums e 0) as (E1 & E2 & E3 & E4).
  { done. } { specialize (Hfit e ltac:(left)). cbn in Hfit. lia. }
  unfold layout_entry, layout_new, store_prior, load_prior. cbn [sizePrior headers entries maxAlign temp cur_ncb length replicate].
  rewrite E1, E2, E3, E4, max_align_turn by done. eexists.
  pose proof (layout_loop_spec es (<[entry_key e := mkMapEntry (0 + slack 0 (entry_align e)) false]> ∅) [] (mkHeader (Some (id e)) 0) (next e 0)
    (Z.max sizeof_ptr (entry_align e)) (part [e] 0)) as Hl. cbn [length app] in Hl. cbn [alter list_alter pfnDtor nextSize]. rewrite Hl.
  - cbn [entries_of end_of max_align foldl headers_of]. by rewrite Nat.add_0_r.
  - pose proof (next_cur e 0). pose proof (size_pos e). unfold sizeof_header in *. lia.
  - lia.
  - intros e' He'. apply (Hfit e'). by right.
  - done.
Qed.

(** ** Construction and destruction *)
Context (ctor_throws : list event → auto_id → Z → bool).

(** Objects go before their padding, at [cur]. *)
Fixpoint ctors (base : Z) (es : list HeteroBlockEntry) (cur : Z) : list event :=
  match es with [] => [] | e :: es' => ev_ctor (id e) (base + cur) :: ctors base es' (next e cur) end.
Fixpoint dtors (base : Z) (es : list HeteroBlockEntry) (cur : Z) : list event :=
  match es with [] => [] | e :: es' => ev_dtor (id e) (base + cur) :: dtors base es' (next e cur) end.

(** Where the header of the first of [es] is, if [cur] bytes are taken. *)
Definition header_at (base : Z) (es : list HeteroBlockEntry) (cur : Z) : Z := base + cur + part es cur.

(** The headers of [es] are there, and one that ends the list; [rest] was to follow. *)
Fixpoint built (m : gmap Z BlockHeader) (base : Z) (es rest : list HeteroBlockEntry) (cur : Z) : Prop :=
  match es with
  | [] => ∃ h, m !! header_at base rest cur = Some h ∧ pfnDtor h = None
  | e :: es' => m !! header_at base (e :: es' ++ rest) cur = Some (mkHeader (Some (id e)) (part (es' ++ rest) (next e cur))) ∧ built m base es' rest (next e cur)
  end.

Lemma part_range es cur : 0 ≤ part es cur.
Proof. destruct es as [|e es]; [done|]. unfold part. pose proof (slack_range cur e). pose proof (size_pos e). lia. Qed.

Lemma header_at_cons base e es cur : header_at base (e :: es) cur + sizeof_header = base + next e cur.
Proof. unfold header_at, part, next. lia. Qed.

Lemma clobber_lookup p n m q : q + sizeof_header ≤ p ∨ p + n ≤ q → clobber p n m !! q = m !! q.
Proof.
  intros Hq. unfold clobber. destruct (m !! q) as [h|] eqn:E; [apply map_lookup_filter_Some_2; [done|cbn; lia]|]. apply map_lookup_filter_None_2. by left.
Qed.

(** Whatever is before [base + cur] does not matter. *)
Lemma built_mono m m' base es rest cur : (∀ q, base + cur ≤ q → m' !! q = m !! q) → built m base es rest cur → built m' base es rest cur.
Proof.
  revert cur. induction es as [|e es IH]; intros cur Hm; cbn.
  - intros (h & E & Hh). exists h. split; [|done]. rewrite Hm; [done|]. unfold header_at. pose proof (part_range rest cur). lia.
  - intros [E Hb]. split; [rewrite Hm; [done|]; unfold header_at; pose proof (part_range (e :: es ++ rest) cur); lia|].
    apply IH; [|done]. intros q Hq. apply Hm. pose proof (next_cur e cur). pose proof (size_pos e). unfold sizeof_header in *. lia.
Qed.

Lemma end_of_app es es' cur : end_of (es ++ es') cur = end_of es' (end_of es cur).
Proof. revert cur. induction es as [|e es IH]; intros cur; [done|apply IH]. Qed.

(** The room that [es] and the last header take. *)
Definition roomy (base : Z) (es : list HeteroBlockEntry) (cur : Z) (w : world) : Prop :=
  ∃ b size, allocated w = Some (b, size) ∧ b ≤ base + cur ∧ base + end_of es cur + sizeof_header ≤ b + size.

Lemma roomy_header base es cur w : roomy base es cur w → in_block (header_at base es cur) sizeof_header w = true.
Proof.
  intros (b & size & E & Hb & Hs). unfold in_block. rewrite E. apply andb_true_iff. pose proof (part_range es cur).
  destruct es as [|e es]; [unfold header_at in *; cbn in *; lia|]. pose proof (header_at_cons base e es cur). cbn in Hs. pose proof (end_of_ge es (next e cur)).
  unfold header_at, sizeof_header in *. lia.
Qed.

Lemma roomy_object base e es cur w : roomy base (e :: es) cur w → in_block (base + cur) (size e) w = true.
Proof.
  intros (b & n & E & Hb & Hs). unfold in_block. rewrite E. apply andb_true_iff. cbn in Hs.
  pose proof (end_of_ge es (next e cur)). pose proof (next_cur e cur). unfold sizeof_header in *. lia.
Qed.

Lemma roomy_next base e es cur w w' : roomy base (e :: es) cur w → allocated w' = allocated w → roomy base es (next e cur) w'.
Proof.
  intros (b & n & E & Hb & Hs) Ew. exists b, n. cbn in Hs. split_and!; [congruence| |done]. pose proof (next_cur e cur). pose proof (size_pos e). unfold sizeof_header in *. lia.
Qed.

Lemma access_ok p n w : in_block p n w = true → access p n w = (Ret tt, w).
Proof. intros E. unfold access. munfold. by rewrite E. Qed.

Lemma deleter_loop_spec fuel base es rest cur w : built (headers_at w) base es rest cur → roomy base (es ++ rest) cur w → (length es < fuel)%nat →
  ∃ m, deleter_loop s_block fuel (header_at base (es ++ rest) cur) (part (es ++ rest) cur) w = (Ret tt, set_log (log w ++ dtors base es cur) (set_headers m w)).
Proof.
  revert fuel cur w. induction es as [|e es IH]; intros fuel cur w Hb Hr Hf; destruct fuel as [|fuel]; [cbn in Hf; lia| |cbn in Hf; lia|].
  - destruct Hb as (h & Eh & Hh). exists (headers_at w). cbn [deleter_loop]. unfold load_header. rewrite bind_assoc.
    rewrite (bind_Ret _ _ _ tt w) by by apply access_ok, roomy_header. rewrite bind_assoc, (bind_Ret _ _ _ w w) by done. cbn [app]. rewrite Eh.
    erewrite bind_Ret by done. rewrite Hh. rewrite app_nil_r. by destruct w.
  - destruct Hb as [Eh Hb]. cbn [deleter_loop]. set (p := header_at base ((e :: es) ++ rest) cur). assert (in_block p sizeof_header w = true) as Hp by by apply roomy_header.
    assert (∀ w', in_block p sizeof_header w' = true → headers_at w' !! p = headers_at w !! p → load_header p w' = (Ret (mkHeader (Some (id e)) (part (es ++ rest) (next e cur))), w')) as Hload.
    { intros w' Hw' E. unfold load_header. rewrite (bind_Ret _ _ _ tt w') by by apply access_ok. rewrite (bind_Ret _ _ _ w' w') by done. rewrite E. unfold p. cbn [app]. by rewrite Eh. }
    rewrite (bind_Ret _ _ _ _ w (Hload w Hp eq_refl)). cbn [pfnDtor nextSize].
    assert (p - part ((e :: es) ++ rest) cur = base + cur) as -> by (unfold p, header_at; lia). unfold destroy.
    rewrite bind_assoc, (bind_Ret _ _ _ tt w) by by (eapply access_ok, roomy_object; exact Hr).
    set (w1 := set_log (log w ++ [ev_dtor (id e) (base + cur)]) (set_headers (clobber (base + cur) (size e) (headers_at w)) w)).
    rewrite (bind_Ret _ _ _ tt w1) by done. assert (base + cur + size e ≤ p) as Hend by (unfold p, header_at; cbn; pose proof (slack_range cur e); lia).
    rewrite (bind_Ret _ _ _ _ w1 (Hload w1 Hp (clobber_lookup _ _ _ _ (or_intror Hend)))). cbn [nextSize].
    assert (p + part (es ++ rest) (next e cur) + sizeof_header = header_at base (es ++ rest) (next e cur)) as ->.
    { pose proof (header_at_cons base e (es ++ rest) cur). unfold p. cbn [app]. unfold header_at in *. lia. }
    destruct (IH fuel (next e cur) w1) as [m ->].
    + eapply built_mono; [|exact Hb]. intros q Hq. apply clobber_lookup. right. pose proof (next_cur e cur). unfold sizeof_header in *. lia.
    + by eapply roomy_next.
    + cbn in Hf. lia.
    + exists m. cbn. by rewrite <-app_assoc.
Qed.

(** How construction ends: all objects are there, or one constructor threw. *)
Definition constructed (base : Z) (es : list HeteroBlockEntry) (cur : Z) (w : world) (r : outcome unit) (w' : world) : Prop :=
  match r with
  | Ret _ => ∃ m, w' = set_log (log w ++ ctors base es cur) (set_headers m w) ∧ built m base es [] cur ∧
      ∀ q, q + sizeof_header ≤ base + cur → m !! q = headers_at w !! q
  | Throw x => ∃ m es1 e es2, x = user_exception 0 ∧ es = es1 ++ e :: es2 ∧
      w' = set_log (log w ++ ctors base es1 cur ++ [ev_threw (id e) (base + end_of es1 cur)]) (set_headers m w) ∧ built m base es1 (e :: es2) cur ∧
      ∀ q, q + sizeof_header ≤ base + cur → m !! q = headers_at w !! q
  | Stuck _ => False
  end.

Lemma store_header_run p h w : in_block p sizeof_header w = true → store_header p h w = (Ret tt, set_headers (<[p := h]> (clobber p sizeof_header (headers_at w))) w).
Proof. intros E. unfold store_header. by rewrite (bind_Ret _ _ _ tt w) by by apply access_ok. Qed.

(** A constructor that throws, and the header after it. *)
Lemma construct_throws base e es cur w m : roomy base (e :: es) cur w → ctor_throws (log w) (id e) (base + cur) = true →
  m = clobber (base + cur) (size e) (headers_at w) →
  ∃ h, pfnDtor h = None ∧ let p := header_at base (e :: es) cur in
    try_catch (construct s_block ctor_throws (id e) (base + cur)) (λ x, zero_dtor p;; throw x) w =
    (Throw (user_exception 0), set_headers (<[p := h]> (clobber p sizeof_header m)) (set_log (log w ++ [ev_threw (id e) (base + cur)]) w)).
Proof.
  intros Hr Ht ->. set (p := header_at base (e :: es) cur). unfold try_catch, construct.
  rewrite (bind_Ret _ _ _ tt w) by by (eapply access_ok, roomy_object; exact Hr). rewrite (bind_Ret _ _ _ w w) by done. erewrite bind_Ret by done. rewrite Ht.
  erewrite bind_Ret by done. cbn [throw]. unfold throw at 1. set (w1 := set_log _ _). unfold zero_dtor. rewrite bind_assoc, (bind_Ret _ _ _ w1 w1) by done.
  eexists (mkHeader None _). split; [done|]. rewrite (bind_Ret _ _ _ _ _ (store_header_run p _ w1 (roomy_header base (e :: es) cur w1 Hr))). done.
Qed.

Lemma construct_loop_spec base es cur w : roomy base es cur w → (∃ h, headers_at w !! (base + end_of es cur) = Some h ∧ pfnDtor h = None) →
  let rw := construct_loop s_block ctor_throws es (headers_of es cur) (header_at base es cur) (part es cur) w in constructed base es cur w rw.1 rw.2.
Proof.
  revert cur w. induction es as [|e es IH]; intros cur w Hr Hend.
  - cbn. exists (headers_at w). rewrite app_nil_r. split_and!; [by destruct w| |done]. unfold header_at. cbn. by rewrite Z.add_0_r.
  - cbn [construct_loop headers_of]. set (p := header_at base (e :: es) cur).
    assert (p - part (e :: es) cur = base + cur) as -> by (unfold p, header_at; lia). set (m1 := clobber (base + cur) (size e) (headers_at w)).
    pose proof (slack_range cur e) as Hs. pose proof (size_pos e) as Hz. pose proof (next_cur e cur) as Hn.
    assert (p + sizeof_header = base + next e cur) as Ep by apply header_at_cons. assert (base + cur + size e ≤ p) as Hlt by (unfold p, header_at, part; lia).
    destruct (ctor_throws (log w) (id e) (base + cur)) eqn:Et.
    + destruct (construct_throws base e es cur w m1 Hr Et eq_refl) as (h & Hh & E). cbv zeta in E. fold p in E.
      cbv zeta. rewrite (bind_Throw _ _ _ _ _ E). cbn [fst snd]. exists (<[p := h]> (clobber p sizeof_header m1)), [], e, es. split_and!; [done..| |].
      * exists h. split; [apply lookup_insert_eq|done].
      * intros q Hq. unfold sizeof_header in *. rewrite lookup_insert_ne by lia. rewrite clobber_lookup by (unfold sizeof_header; lia). unfold m1. apply clobber_lookup. unfold sizeof_header. lia.
    + set (w1 := set_log (log w ++ [ev_ctor (id e) (base + cur)]) (set_headers m1 w)).
      assert (try_catch (construct s_block ctor_throws (id e) (base + cur)) (λ x, zero_dtor p;; throw x) w = (Ret tt, w1)) as E.
      { unfold try_catch, construct. rewrite (bind_Ret _ _ _ tt w) by by (eapply access_ok, roomy_object; exact Hr). rewrite (bind_Ret _ _ _ w w) by done.
        erewrite bind_Ret by done. by rewrite Et. }
      rewrite (bind_Ret _ _ _ _ _ E). set (h := mkHeader (Some (id e)) (part es (next e cur))).
      rewrite (bind_Ret _ _ _ _ _ (store_header_run p h w1 (roomy_header base (e :: es) cur w1 Hr))). cbn [nextSize h].
      set (w2 := set_headers (<[p := h]> (clobber p sizeof_header (headers_at w1))) w1).
      assert (∀ q, q + sizeof_header ≤ base + cur ∨ base + next e cur ≤ q → headers_at w2 !! q = headers_at w !! q) as Hkeep.
      { intros q Hq. unfold sizeof_header in *. cbn. rewrite lookup_insert_ne by lia. rewrite clobber_lookup by (unfold sizeof_header; lia). unfold m1. apply clobber_lookup. unfold sizeof_header. lia. }
      assert (p + part es (next e cur) + sizeof_header = header_at base es (next e cur)) as -> by (unfold header_at in *; lia).
      pose proof (end_of_ge es (next e cur)). specialize (IH (next e cur) w2). cbv zeta in IH |- *.
      destruct (construct_loop _ _ es _ _ _ w2) as [r w3]. cbn [fst snd] in *. assert (headers_at w2 !! p = Some h) as Ehp by apply lookup_insert_eq.
      destruct r as [u|x|r]; cbn [constructed] in *.
      * destruct IH as (m & -> & Hb & Hm); [by eapply roomy_next|rewrite Hkeep by lia; exact Hend|]. exists m. split_and!; [cbn; by rewrite <-app_assoc| |].
        { split; [|done]. rewrite app_nil_r. fold p. rewrite Hm by lia. exact Ehp. }
        intros q Hq. rewrite Hm by (unfold sizeof_header in *; lia). apply Hkeep. by left.
      * destruct IH as (m & es1 & e2 & es2 & -> & -> & -> & Hb & Hm); [by eapply roomy_next|rewrite Hkeep by lia; exact Hend|].
        exists m, (e :: es1), e2, es2. split_and!; [done|done|cbn; by rewrite <-app_assoc| |].
        { split; [|done]. fold p. rewrite Hm by lia. exact Ehp. }
        intros q Hq. rewrite Hm by (unfold sizeof_header in *; lia). apply Hkeep. by left.
      * apply IH; [by eapply roomy_next|rewrite Hkeep by lia; exact Hend].
Qed.

(** ** The constructor and the pointers to the block *)
Definition fits (es : list HeteroBlockEntry) : Prop := end_of es 0 + sizeof_header + max_align es sizeof_ptr < size_mod.

Lemma max_align_power es a : (∃ k, 3 ≤ k < 64 ∧ a = 2 ^ k) → (∃ k, 3 ≤ k < 64 ∧ max_align es a = 2 ^ k) ∧ (a | max_align es a) ∧ ∀ e, e ∈ es → (entry_align e | max_align es a).
Proof.
  revert a. induction es as [|e es IH]; intros a Ha; [split_and!; [done|by exists 1; rewrite Z.mul_1_l|by intros e ?%elem_of_nil]|].
  destruct (entry_align_power e) as (j & Hj & Ej). destruct Ha as (k & Hk & ->). cbn.
  assert (Z.max (2 ^ k) (entry_align e) = 2 ^ Z.max k j) as Em.
  { rewrite Ej. destruct (Z.max_spec k j) as [[? ->]|[? ->]]; [|].
    - assert (2 ^ k ≤ 2 ^ j) by (apply Z.pow_le_mono_r; lia). lia.
    - assert (2 ^ j ≤ 2 ^ k) by (apply Z.pow_le_mono_r; lia). lia. }
  destruct (IH (2 ^ Z.max k j)) as (Hp & Hd & He); [by exists (Z.max k j); split; [lia|]|]. rewrite Em. split_and!; [done| |].
  - etrans; [apply (power_divide k (Z.max k j)); lia|done].
  - intros e' [-> |?]%elem_of_cons; [|by apply He]. rewrite Ej. etrans; [apply (power_divide j (Z.max k j)); lia|done].
Qed.

Lemma ptr_power : ∃ k, 3 ≤ k < 64 ∧ sizeof_ptr = 2 ^ k.
Proof. exists 3. by split. Qed.

Lemma entry_align_max es e : e ∈ es → entry_align e ≤ max_align es sizeof_ptr.
Proof.
  intros He. destruct (max_align_power es sizeof_ptr ptr_power) as ((k & Hk & E) & _ & Hd). apply Z.divide_pos_le; [rewrite E; by apply Z.pow_pos_nonneg; lia|by apply Hd].
Qed.

(** The block is there, with [n] pointers to it. *)
Record alive (base : Z) (es : list HeteroBlockEntry) (n : nat) (w : world) : Prop := {
  a_built : built (headers_at w) base es [] 0;
  a_roomy : roomy base es 0 w;
  a_first : first_size w = part es 0;
  a_uses : use_count w = n }.

Lemma deleter_run fuel base es rest w : built (headers_at w) base es rest 0 → roomy base (es ++ rest) 0 w → first_size w = part (es ++ rest) 0 → (length es < fuel)%nat →
  deleter s_block fuel base w = (Ret tt, set_log (log w ++ dtors base es 0 ++ [ev_free base]) (set_allocated None (set_headers ∅ w))).
Proof.
  intros Hb Hr Hf Hlen. unfold deleter. rewrite (bind_Ret _ _ _ w w) by done. rewrite Hf.
  destruct (deleter_loop_spec fuel base es rest 0 w Hb Hr Hlen) as [m E]. unfold header_at in E. rewrite Z.add_0_r in E.
  rewrite (bind_Ret _ _ _ _ _ E). munfold. cbn. by rewrite <-app_assoc.
Qed.

Lemma release_run fuel base es n w : alive base es (S n) w → (length es < fuel)%nat →
  ∃ w', release s_block fuel base w = (Ret tt, w') ∧
    if Nat.eqb n 0 then log w' = log w ++ dtors base es 0 ++ [ev_free base] ∧ allocated w' = None else log w' = log w ∧ alive base es n w'.
Proof.
  intros [Hb Hr Hf Hu] Hlen. unfold release. erewrite bind_Ret by done. erewrite bind_Ret by done. cbn [use_count set_uses]. rewrite Hu. cbn [pred].
  destruct (Nat.eqb n 0) eqn:E.
  - rewrite (deleter_run fuel base es []); rewrite ?app_nil_r; try done. eexists. by split.
  - eexists. split; [done|]. split; [done|]. by split.
Qed.

(** What [HeteroBlock_new] does. *)
Definition new_result (aligned_malloc : Z → Z → option Z) (es : list HeteroBlockEntry) (r : outcome HeteroBlock) (w : world) : Prop :=
  match r with
  | Ret b => block_entries b = entries_of es 0 ∅ ∧ log w = ctors (block b) es 0 ∧ alive (block b) es 1 w ∧
      ∃ n, aligned_malloc n (max_align es sizeof_ptr) = Some (block b) ∧ allocated w = Some (block b, n) ∧ end_of es 0 + sizeof_header ≤ n
  | Throw x => log w = [] ∧ x = bad_alloc ∨
      x = user_exception 0 ∧ allocated w = None ∧ ∃ base es1 e es2, es = es1 ++ e :: es2 ∧
        log w = ctors base es1 0 ++ [ev_threw (id e) (base + end_of es1 0)] ++ dtors base es1 0 ++ [ev_free base]
  | Stuck _ => False
  end.

Lemma request_size es : es ≠ [] → fits es → let m := max_align es sizeof_ptr in
  shift_over (sz_add (end_of es 0) sizeof_header) m = end_of es 0 + sizeof_header + slack (end_of es 0 + sizeof_header) m ∧
  0 ≤ slack (end_of es 0 + sizeof_header) m.
Proof.
  intros Hne Hfit. unfold fits in Hfit. destruct (max_align_power es sizeof_ptr ptr_power) as ((k & Hk & E) & _). cbv zeta. rewrite E in *.
  assert (0 < 2 ^ k) by (apply Z.pow_pos_nonneg; lia). pose proof (end_of_ge es 0).
  assert (sz_add (end_of es 0) sizeof_header = end_of es 0 + sizeof_header) as ->.
  { unfold sz_add. rewrite sz_wrap_id; unfold in_size, sizeof_header in *; lia. }
  split; [apply (shift_over_slack _ _ k); unfold sizeof_header in *; lia || done|]. by apply Z.mod_pos_bound.
Qed.

Lemma HeteroBlock_new_run aligned_malloc fuel es : es ≠ [] → fits es → (length es < fuel)%nat →
  let rw := HeteroBlock_new s_block ctor_throws aligned_malloc fuel es world_new in new_result aligned_malloc es rw.1 rw.2.
Proof.
  intros Hne Hfit Hfuel. destruct es as [|e es]; [done|]. destruct (layout_spec e es) as [t El].
  { intros e' He'. unfold fits in Hfit. pose proof (entry_align_max _ _ He'). unfold sizeof_header in *. lia. }
  destruct (request_size (e :: es) Hne Hfit) as [Ereq Hslack]. cbv zeta in Ereq, Hslack |- *. unfold HeteroBlock_new. rewrite El. cbn [cur_ncb headers entries maxAlign].
  rewrite Ereq. set (n := end_of (e :: es) 0 + sizeof_header + _). set (a := max_align (e :: es) sizeof_ptr) in *.
  destruct (aligned_malloc n a) as [base|] eqn:Em; [|by left]. set (w1 := set_allocated (Some (base, n)) world_new). rewrite (bind_Ret _ _ _ tt w1) by done.
  assert (∀ w, allocated w = Some (base, n) → roomy base (e :: es) 0 w) as Hroomy by (intros w Ew; exists base, n; split_and!; [done|lia|unfold n; lia]).
  pose proof (end_of_ge (e :: es) 0) as Hge.
  assert (in_block (base + end_of (e :: es) 0) sizeof_header w1 = true) as Hin by (unfold in_block; cbn [allocated w1 set_allocated]; unfold n, sizeof_header in *; lia).
  rewrite (bind_Ret _ _ _ _ _ (store_header_run _ (mkHeader None 0) w1 Hin)). set (w2 := set_headers _ w1).
  set (w3 := set_uses 1 (set_first (size e) w2)). rewrite (bind_Ret _ _ _ tt w3) by done.
  assert (part (e :: es) 0 = size e) as Epart by (unfold part; by rewrite Z.add_0_l). rewrite <-Epart.
  pose proof (construct_loop_spec base (e :: es) 0 w3 (Hroomy w3 eq_refl)) as Hc. cbv zeta in Hc. assert (header_at base (e :: es) 0 = base + part (e :: es) 0) as Eh by (unfold header_at; lia). rewrite Eh in Hc.
  specialize (Hc (ex_intro _ (mkHeader None 0) (conj (lookup_insert_eq _ _ _) eq_refl))).
  destruct (construct_loop s_block ctor_throws (e :: es) _ _ _ w3) as [[[]|x|r] w4] eqn:Eloop; cbn [fst snd constructed] in Hc; [| |done].
  - destruct Hc as (m & -> & Hb & _). erewrite bind_Ret by (unfold try_catch; by rewrite Eloop). split_and!; [done|done| |exists n; split_and!; [done..|unfold n; lia]].
    split; [done|by apply Hroomy|cbn; by rewrite <-Epart|done].
  - destruct Hc as (m & es1 & e1 & es2 & -> & Ees & -> & Hb & _). set (w5 := set_log _ _) in Eloop.
    assert (release s_block fuel base w5 = deleter s_block fuel base (set_uses 0 w5)) as Erel by (unfold release; erewrite bind_Ret by done; by erewrite bind_Ret by done).
    erewrite bind_Throw; [|unfold try_catch; rewrite Eloop; erewrite bind_Ret; [done|]; rewrite Erel; apply (deleter_run fuel base es1 (e1 :: es2))].
    + right. split_and!; [done|done|]. exists base, es1, e1, es2. split; [done|]. cbn. by rewrite <-app_assoc.
    + done.
    + rewrite <-Ees. by apply Hroomy.
    + rewrite <-Ees. cbn. by rewrite <-Epart.
    + rewrite Ees, length_app in Hfuel. lia.
Qed.

(** ** Clients *)
Definition shares (m : entry_map) : nat := cnt (λ kv, ptr kv.2) (map_to_list m).

Lemma shares_none m : (∀ k x, m !! k = Some x → ptr x = false) → shares m = 0%nat.
Proof. intros Hm. apply cnt_none. intros [k x] Hx. by apply elem_of_map_to_list, Hm in Hx. Qed.

Lemma shares_entries_of es cur m : (∀ k x, m !! k = Some x → ptr x = false) → ∀ k x, entries_of es cur m !! k = Some x → ptr x = false.
Proof.
  revert cur m. induction es as [|e es IH]; intros cur m Hm; [done|]. cbn. apply IH. intros k x [[_ <-]|[_ Hx]]%lookup_insert_Some; [done|by eapply Hm].
Qed.

Lemma shares_insert m k x : m !! k = Some x → ptr x = false → shares (<[k := mkMapEntry (offset x) true]> m) = S (shares m).
Proof.
  intros Hk Hx. unfold shares. rewrite <-(insert_delete_eq m k). etrans; [apply cnt_perm, map_to_list_insert, lookup_delete_eq|].
  rewrite cnt_cons. cbn. f_equal. symmetry. rewrite <-(insert_delete_id m k x Hk) at 1. etrans; [apply cnt_perm, map_to_list_insert, lookup_delete_eq|].
  rewrite cnt_cons. cbn. by rewrite Hx.
Qed.

(** What a client knows between its steps. *)
Definition client_inv (base : Z) (es : list HeteroBlockEntry) (l : list event) (bk : HeteroBlock * nat) (w : world) : Prop :=
  block bk.1 = base ∧ log w = l ∧ alive base es (S (shares (block_entries bk.1) + bk.2)) w.

Lemma alive_uses base es n n' w : alive base es n w → alive base es n' (set_uses n' w).
Proof. intros []. by split. Qed.

Lemma client_step_ok fuel base es l o bk w : (length es < fuel)%nat → client_inv base es l bk w →
  ∃ bk' w', client_step s_block fuel o bk w = (Ret bk', w') ∧ client_inv base es l bk' w'.
Proof.
  intros Hfuel (Eb & El & Ha). destruct bk as [b k]. cbn [fst snd] in *. destruct o as [t i|]; unfold client_step; cbn [fst snd].
  - unfold try_catch, get_shared. destruct (block_entries b !! (t, i)) as [q|] eqn:Eq; [|by exists (b, k), w].
    destruct (ptr q) eqn:Ep.
    + do 2 erewrite bind_Ret by done. eexists _, _. split; [done|]. split_and!; [done|done|]. cbn [fst snd].
      rewrite Nat.add_succ_r, <-(a_uses _ _ _ _ Ha). eapply alive_uses. exact Ha.
    + rewrite bind_assoc. do 3 erewrite bind_Ret by done. eexists _, _. split; [done|]. split_and!; [done|done|]. cbn [fst snd block_entries].
      rewrite (shares_insert _ _ _ Eq Ep). cbn [Nat.add]. rewrite Nat.add_succ_r, <-(a_uses _ _ _ _ Ha). do 2 eapply alive_uses. exact Ha.
  - destruct k as [|k]; [by exists (b, 0%nat), w|]. rewrite Nat.add_succ_r in Ha. destruct (release_run fuel base es _ w Ha Hfuel) as (w' & E & Hw'). cbn in Hw'.
    subst base. rewrite (bind_Ret _ _ _ _ _ E). exists (b, k), w'. split; [done|]. destruct Hw' as [El' Ha']. split_and!; [done|congruence|done].
Qed.

Lemma client_run_ok fuel base es l os bk w : (length es < fuel)%nat → client_inv base es l bk w →
  ∃ bk' w', client_run s_block fuel os bk w = (Ret bk', w') ∧ client_inv base es l bk' w'.
Proof.
  intros Hfuel. revert bk w. induction os as [|o os IH]; intros bk w Hi; [by exists bk, w|]. cbn [client_run].
  destruct (client_step_ok fuel base es l o bk w Hfuel Hi) as (bk1 & w1 & E & Hi1). rewrite (bind_Ret _ _ _ _ _ E). by apply IH.
Qed.

(** The pointers in the map are not the last ones. *)
Lemma release_map fuel base es n l (kvs : list ((auto_id * Z) * entry)) w : (length es < fuel)%nat → log w = l →
  alive base es (cnt (λ kv, ptr kv.2) kvs + S n) w →
  ∃ w', for_each (λ kv, if ptr kv.2 : bool then release s_block fuel base else mret tt) kvs w = (Ret tt, w') ∧ log w' = l ∧ alive base es (S n) w'.
Proof.
  intros Hfuel. revert w. induction kvs as [|kv kvs IH]; intros w El Ha; [by exists w|]. cbn [for_each]. rewrite cnt_cons in Ha.
  destruct (ptr kv.2); [|erewrite bind_Ret by done; by apply IH]. cbn [Nat.add] in Ha. destruct (release_run fuel base es _ w Ha Hfuel) as (w' & E & Hw').
  rewrite (bind_Ret _ _ _ _ _ E). rewrite Nat.add_succ_r in Hw'. cbn in Hw'. destruct Hw' as [El' Ha']. apply IH; [congruence|]. by rewrite Nat.add_succ_r.
Qed.

Definition gone (base : Z) (es : list HeteroBlockEntry) (w : world) : Prop := log w = ctors base es 0 ++ dtors base es 0 ++ [ev_free base] ∧ allocated w = None.

Lemma drop_all_run fuel base es k w : (length es < fuel)%nat → log w = ctors base es 0 → alive base es (S k) w →
  ∃ w', drop_all s_block fuel base (S k) w = (Ret tt, w') ∧ gone base es w'.
Proof.
  intros Hfuel. revert w. induction k as [|k IH]; intros w El Ha; cbn [drop_all]; destruct (release_run fuel base es _ w Ha Hfuel) as (w' & E & Hw'); cbn in Hw'.
  - rewrite (bind_Ret _ _ _ _ _ E). exists w'. split; [done|]. unfold gone. by rewrite <-El.
  - rewrite (bind_Ret _ _ _ _ _ E). destruct Hw' as [El' Ha']. apply IH; [congruence|done].
Qed.

(** ** Where objects are *)
(** The bytes taken before the entry [i]; the address that [get] returns. *)
Definition start_of (es : list HeteroBlockEntry) (i : nat) : Z := end_of (take i es) 0.
Definition place_of (es : list HeteroBlockEntry) (i : nat) (e : HeteroBlockEntry) : Z := start_of es i + slack (start_of es i) (entry_align e).

Lemma start_of_lt es i j e : (i < j)%nat → es !! i = Some e → next e (start_of es i) ≤ start_of es j.
Proof.
  intros Hij Hi. unfold start_of. replace j with (S i + (j - S i))%nat by lia. rewrite <-take_take_drop, (take_S_r _ _ _ Hi), !end_of_app. cbn.
  apply end_of_ge.
Qed.

Lemma start_of_end es i e : es !! i = Some e → next e (start_of es i) ≤ end_of es 0.
Proof. intros Hi. pose proof (start_of_lt es i (length es) e (lookup_lt_Some _ _ _ Hi) Hi) as H. unfold start_of in H at 2. by rewrite firstn_all in H. Qed.

Lemma entries_of_lookup es cur m k x : entries_of es cur m !! k = Some x →
  m !! k = Some x ∨ ∃ i e, es !! i = Some e ∧ entry_key e = k ∧ offset x = end_of (take i es) cur + slack (end_of (take i es) cur) (entry_align e).
Proof.
  revert cur m. induction es as [|e es IH]; intros cur m; [by left|]. cbn. intros [Hk|(i & e' & Hi & Ek & Eo)]%IH.
  - apply lookup_insert_Some in Hk as [[Ek <-]|[_ Hk]]; [right|by left]. by exists 0%nat, e.
  - right. by exists (S i), e'.
Qed.

Lemma entries_of_other es cur m k : k ∉ entry_key <$> es → entries_of es cur m !! k = m !! k.
Proof.
  revert cur m. induction es as [|e es IH]; intros cur m Hk; [done|]. cbn in *. apply not_elem_of_cons in Hk as [Hk Hk']. rewrite IH by done. by rewrite lookup_insert_ne.
Qed.

Lemma entries_of_nth es cur m i e : NoDup (entry_key <$> es) → es !! i = Some e →
  entries_of es cur m !! entry_key e = Some (mkMapEntry (end_of (take i es) cur + slack (end_of (take i es) cur) (entry_align e)) false).
Proof.
  revert cur m i. induction es as [|e' es IH]; intros cur m i Hnd Hi; [done|]. cbn in Hnd. apply NoDup_cons in Hnd as [Hn Hnd].
  destruct i as [|i]; [injection Hi as ->; cbn; rewrite entries_of_other by done; apply lookup_insert_eq|]. cbn. by apply IH.
Qed.

Lemma ctors_nth base es cur i e : es !! i = Some e → ctors base es cur !! i = Some (ev_ctor (id e) (base + end_of (take i es) cur)).
Proof. revert cur i. induction es as [|e' es IH]; intros cur i Hi; [done|]. destruct i as [|i]; [by injection Hi as ->|]. cbn. by apply IH. Qed.

Lemma place_in es i e : es !! i = Some e → 0 ≤ place_of es i e ∧ place_of es i e + size e + sizeof_header ≤ end_of es 0.
Proof.
  intros Hi. pose proof (start_of_end es i e Hi). pose proof (end_of_ge (take i es) 0). pose proof (slack_range (start_of es i) e).
  unfold place_of, next, start_of in *. lia.
Qed.

Lemma places_apart es i j e e' : (i < j)%nat → es !! i = Some e → es !! j = Some e' → place_of es i e + size e ≤ place_of es j e'.
Proof.
  intros Hij Hi Hj. pose proof (start_of_lt es i j e Hij Hi). pose proof (slack_range (start_of es j) e'). unfold place_of, next, sizeof_header in *. lia.
Qed.

Lemma align_divides e : (align (s_block (id e)) | entry_align e).
Proof.
  unfold HeteroBlock.entry_align. destruct (blocks_ok (id e)) as [_ (k & Hk & E)]. destruct (Z.leb_spec (align (s_block (id e))) sizeof_ptr) as [Hle|Hlt]; [|done].
  rewrite E in *. change sizeof_ptr with (2 ^ 3). apply power_divide. destruct (decide (k ≤ 3)); [lia|].
  assert (2 ^ 4 ≤ 2 ^ k) by (apply Z.pow_le_mono_r; lia). unfold sizeof_ptr in Hle. lia.
Qed.

(** Words need no padding. *)
Lemma no_padding es i e : es !! i = Some e → (∀ t, (sizeof_ptr | ncb (s_block t)) ∧ align (s_block t) ≤ sizeof_ptr) → slack (start_of es i) (entry_align e) = 0.
Proof.
  intros Hi Hw. assert (∀ e, entry_align e = sizeof_ptr) as Ha.
  { intros e'. unfold HeteroBlock.entry_align. destruct (Hw (id e')) as [_ Hle]. by apply Z.leb_le in Hle as ->. }
  assert (∀ es cur, (sizeof_ptr | cur) → (sizeof_ptr | end_of es cur)) as Hd.
  { intros es'. induction es' as [|e' es' IH]; intros cur Hc; [done|]. cbn. apply IH. unfold next. destruct (Hw (id e')) as [Hs _]. pose proof (slack_aligns cur e') as Hsl.
    rewrite Ha in *. repeat apply Z.divide_add_r; try done; [|by exists 2]. replace (slack cur sizeof_ptr) with (cur + slack cur sizeof_ptr - cur) by lia. by apply Z.divide_sub_r. }
  rewrite Ha. unfold slack. apply Z.mod_divide; [done|]. apply Z.divide_opp_r, Hd. by exists 0.
Qed.
End facts.
