(* ===== verification/HeteroBlockSpec.v ===== *)
(** * HeteroBlock: what clients may rely on

    For types of any sizes and power-of-two alignments whose layout fits into
    [size_t], constructors that throw or not, and any allocator. *)
From stdpp Require Import base gmap list strings.
From Stdlib Require Import ZArith ZifyBool Lia.
From S2P Require Import Prelude.
From S2P Require Import HeteroBlock.
From S2P Require Import HeteroBlockFacts.
Local Open Scope Z_scope.

Section theorems.
  Context (s_block : auto_id → auto_id_block) (blocks_ok : ∀ t, type_ok (s_block t)).
  Context (ctor_throws : list event → auto_id → Z → bool) (aligned_malloc : Z → Z → option Z).

(** C15. Objects of a block live and die together: while any constructor may throw and
    clients share objects and drop their shares in any order, nothing outside of the
    allocation and no header that an object overwrote is used; each object that was
    constructed is destroyed exactly once, at the address of its construction, in the
    order of construction and before the memory is freed: when the constructor of the
    block fails, or when the block and all shares of clients are gone, not before. *)
Theorem HeteroBlock_lifetimes (fuel : nat) (es : list HeteroBlockEntry) (os : list client_op) :
  es ≠ [] → fits s_block es → (length es < fuel)%nat →
  match client s_block ctor_throws aligned_malloc fuel es os world_new with
  | (Ret (p, 0%nat), w) => gone s_block p es w
  | (Ret (p, k), w) => log w = ctors s_block p es 0 ∧ ∃ w', drop_all s_block fuel p k w = (Ret tt, w') ∧ gone s_block p es w'
  | (Throw x, w) => x = bad_alloc ∧ log w = [] ∨
      x = user_exception 0 ∧ allocated w = None ∧ ∃ p es1 e es2, es = es1 ++ e :: es2 ∧
        log w = ctors s_block p es1 0 ++ [ev_threw (id e) (p + end_of s_block es1 0)] ++ dtors s_block p es1 0 ++ [ev_free p]
  | (Stuck _, _) => False
  end.
Proof.
  intros Hne Hfit Hfuel. pose proof (HeteroBlock_new_run s_block blocks_ok ctor_throws aligned_malloc fuel es Hne Hfit Hfuel) as Hnew. cbv zeta in Hnew.
  unfold client. destruct (HeteroBlock_new _ _ _ _ _ world_new) as [[b|x|r] w] eqn:E; cbn [fst snd new_result] in Hnew; [| |done].
  - rewrite (bind_Ret _ _ _ _ _ E). destruct Hnew as (Ee & El & Ha & _).
    destruct (client_run_ok s_block blocks_ok fuel (block b) es (ctors s_block (block b) es 0) os (b, 0%nat) w Hfuel) as ([b' k] & w1 & E1 & Eb & El1 & Ha1).
    { split_and!; [done|done|]. cbn [fst snd]. rewrite Ee, shares_none; [done|]. by apply shares_entries_of. }
    rewrite (bind_Ret _ _ _ _ _ E1). cbn [fst snd] in *. unfold HeteroBlock_dtor. rewrite bind_assoc, Eb.
    rewrite <-Nat.add_succ_r in Ha1. destruct (release_map s_block blocks_ok fuel (block b) es k _ _ w1 Hfuel El1 Ha1) as (w2 & E2 & El2 & Ha2).
    rewrite (bind_Ret _ _ _ _ _ E2). destruct (release_run s_block blocks_ok fuel (block b) es k w2 Ha2 Hfuel) as (w3 & E3 & Hw3).
    rewrite (bind_Ret _ _ _ _ _ E3). cbn. destruct k as [|k]; cbn in Hw3.
    + unfold gone. by rewrite <-El2.
    + destruct Hw3 as [El3 Ha3]. split; [congruence|]. apply drop_all_run; [done|done|congruence|done].
  - rewrite (bind_Throw _ _ _ _ _ E). destruct Hnew as [[? ?]|Hnew]; [by left|right]. exact Hnew.
Qed.

(** C16. Layout: what [get] returns is aligned for its type, in the bounds of the
    allocation, and apart from what it returns for any other entry, if the allocator
    returns memory aligned as it was asked. *)
Theorem HeteroBlock_layout (fuel : nat) (es : list HeteroBlockEntry) (b : HeteroBlock) (w : world) (t : auto_id) (i p : Z) :
  (∀ n a q, aligned_malloc n a = Some q → (a | q)) → es ≠ [] → fits s_block es → (length es < fuel)%nat →
  HeteroBlock_new s_block ctor_throws aligned_malloc fuel es world_new = (Ret b, w) → get_ref b t i w = (Ret p, w) →
  (align (s_block t) | p) ∧ in_block p (ncb (s_block t)) w = true ∧
  ∀ t' i' p', (t', i') ≠ (t, i) → get_ref b t' i' w = (Ret p', w) → p + ncb (s_block t) ≤ p' ∨ p' + ncb (s_block t') ≤ p.
Proof.
  intros Hmalloc Hne Hfit Hfuel E. pose proof (HeteroBlock_new_run s_block blocks_ok ctor_throws aligned_malloc fuel es Hne Hfit Hfuel) as Hnew. cbv zeta in Hnew.
  rewrite E in Hnew. cbn in Hnew. destruct Hnew as (Ee & _ & _ & n & Em & Ea & Hn).
  assert (∀ t i p, get_ref b t i w = (Ret p, w) → ∃ k e, es !! k = Some e ∧ entry_key e = (t, i) ∧ p = block b + place_of s_block es k e) as Hget.
  { intros t0 i0 p0. unfold get_ref. rewrite Ee. destruct (entries_of s_block es 0 ∅ !! (t0, i0)) as [q|] eqn:Eq; [|done]. intros [= <-].
    destruct (entries_of_lookup _ _ _ _ _ _ Eq) as [?|(k & e & Hk & Ek & Eo)]; [done|]. exists k, e. split_and!; [done|done|]. by rewrite Eo. }
  intros (k & e & Hk & Ek & ->)%Hget. injection Ek as <- <-. destruct (place_in s_block blocks_ok es k e Hk) as [H1 H2]. unfold sizeof_header in *. split_and!.
  - etrans; [by apply align_divides|]. apply Z.divide_add_r; [|by apply slack_aligns]. etrans; [|by eapply Hmalloc].
    apply (max_align_power s_block blocks_ok es sizeof_ptr ptr_power). by eapply list_elem_of_lookup_2.
  - unfold in_block. rewrite Ea. lia.
  - intros t' i' p' Hdiff (k' & e' & Hk' & Ek' & ->)%Hget. injection Ek' as <- <-. destruct (Nat.lt_trichotomy k k') as [Hlt|[<-|Hlt]].
    + left. pose proof (places_apart s_block blocks_ok es k k' e e' Hlt Hk Hk'). lia.
    + rewrite Hk in Hk'. injection Hk' as <-. by destruct Hdiff.
    + right. pose proof (places_apart s_block blocks_ok es k' k e' e Hlt Hk' Hk). lia.
Qed.

(** [get] returns the object that was constructed for the entry exactly if no
    padding precedes it, as when all sizes are multiples of a word and no alignment is
    larger than one; the constructor runs at the address before the padding, the offset
    in the map is the one after it. *)
Theorem HeteroBlock_get_is_object (fuel : nat) (es : list HeteroBlockEntry) (b : HeteroBlock) (w : world) (i : nat) (e : HeteroBlockEntry) :
  es ≠ [] → fits s_block es → (length es < fuel)%nat → NoDup (entry_key <$> es) →
  HeteroBlock_new s_block ctor_throws aligned_malloc fuel es world_new = (Ret b, w) → es !! i = Some e →
  ∃ p, get_ref b (id e) (index e) w = (Ret p, w) ∧
    (log w !! i = Some (ev_ctor (id e) p) ↔ slack (start_of s_block es i) (entry_align s_block e) = 0) ∧
    ((∀ t, (sizeof_ptr | ncb (s_block t)) ∧ align (s_block t) ≤ sizeof_ptr) → log w !! i = Some (ev_ctor (id e) p)).
Proof.
  intros Hne Hfit Hfuel Hnd E Hi. pose proof (HeteroBlock_new_run s_block blocks_ok ctor_throws aligned_malloc fuel es Hne Hfit Hfuel) as Hnew. cbv zeta in Hnew.
  rewrite E in Hnew. cbn in Hnew. destruct Hnew as (Ee & El & _). exists (block b + place_of s_block es i e).
  assert (log w !! i = Some (ev_ctor (id e) (block b + place_of s_block es i e)) ↔ slack (start_of s_block es i) (entry_align s_block e) = 0) as Hiff.
  { rewrite El, (ctors_nth s_block _ _ _ _ _ Hi). unfold place_of. fold (start_of s_block es i). split; [intros [= Ep]; lia|intros Hs; do 2 f_equal; lia]. }
  split_and!; [|done|by intros Hw; apply Hiff, no_padding].
  unfold get_ref. rewrite Ee. pose proof (entries_of_nth s_block es 0 ∅ i e Hnd Hi) as Hn. unfold entry_key in Hn. by rewrite Hn.
Qed.
End theorems.

(** ** Examples *)
(** Type 0 is a byte, 1 a word, 2 sixteen bytes aligned to sixteen, others two words. *)
Definition demo_types (t : auto_id) : auto_id_block :=
  match t with 0%nat => mkIdBlock 1 1 | 1%nat => mkIdBlock 8 8 | 2%nat => mkIdBlock 16 16 | _ => mkIdBlock 16 8 end.

Lemma demo_types_ok t : type_ok (demo_types t).
Proof. destruct t as [|[|[|t]]]; (split; [done|]); [by exists 0|by exists 3|by exists 4|by exists 3]. Qed.

Definition demo_malloc (n a : Z) : option Z := Some (1024 * a).
Definition demo_entries : list HeteroBlockEntry := [mkEntry 1 0; mkEntry 3 0; mkEntry 1 1; mkEntry 2 0].
Definition demo_share : list client_op := [co_share 1 0; co_share 3 0; co_share 1 7; co_drop].

Lemma demo_fits : fits demo_types demo_entries.
Proof. reflexivity. Qed.

Lemma HeteroBlock_lifetimes_witness :
  (client demo_types (λ _ _ _, false) demo_malloc 5 demo_entries demo_share world_new).1 = Ret (16384, 1%nat) ∧
  match client demo_types (λ _ _ _, false) demo_malloc 5 demo_entries demo_share world_new with
  | (Ret (p, 0%nat), w) => gone demo_types p demo_entries w
  | (Ret (p, k), w) => log w = ctors demo_types p demo_entries 0 ∧ ∃ w', drop_all demo_types 5 p k w = (Ret tt, w') ∧ gone demo_types p demo_entries w'
  | (Throw x, w) => x = bad_alloc ∧ log w = [] ∨
      x = user_exception 0 ∧ allocated w = None ∧ ∃ p es1 e es2, demo_entries = es1 ++ e :: es2 ∧
        log w = ctors demo_types p es1 0 ++ [ev_threw (id e) (p + end_of demo_types es1 0)] ++ dtors demo_types p es1 0 ++ [ev_free p]
  | (Stuck _, _) => False
  end.
Proof.
  split; [vm_compute; reflexivity|].
  apply (HeteroBlock_lifetimes demo_types demo_types_ok (λ _ _ _, false) demo_malloc 5 demo_entries demo_share); [done|apply demo_fits|cbn; lia].
Defined.

Definition demo_block : HeteroBlock * world :=
  match HeteroBlock_new demo_types (λ _ _ _, false) demo_malloc 5 demo_entries world_new with (Ret b, w) => (b, w) | _ => (mkBlock 0 ∅, world_new) end.

Lemma HeteroBlock_layout_witness : (align (demo_types 2) | 16464) ∧ in_block 16464 (ncb (demo_types 2)) demo_block.2 = true ∧
  ∀ t' i' p', (t', i') ≠ (2%nat, 0) → get_ref demo_block.1 t' i' demo_block.2 = (Ret p', demo_block.2) → 16464 + ncb (demo_types 2) ≤ p' ∨ p' + ncb (demo_types t') ≤ 16464.
Proof.
  apply (HeteroBlock_layout demo_types demo_types_ok (λ _ _ _, false) demo_malloc 5 demo_entries demo_block.1 demo_block.2 2 0 16464); [|done|apply demo_fits|cbn; lia|vm_compute; reflexivity..].
  intros n a q [= <-]. by exists 1024.
Defined.

Lemma HeteroBlock_get_is_object_witness : ∃ p, get_ref demo_block.1 1 1 demo_block.2 = (Ret p, demo_block.2) ∧
    (log demo_block.2 !! 2%nat = Some (ev_ctor 1 p) ↔ slack (start_of demo_types demo_entries 2) (entry_align demo_types (mkEntry 1 1)) = 0) ∧
    ((∀ t, (sizeof_ptr | ncb (demo_types t)) ∧ align (demo_types t) ≤ sizeof_ptr) → log demo_block.2 !! 2%nat = Some (ev_ctor 1 p)).
Proof.
  apply (HeteroBlock_get_is_object demo_types demo_types_ok (λ _ _ _, false) demo_malloc 5 demo_entries demo_block.1 demo_block.2 2 (mkEntry 1 1));
    [done|apply demo_fits|cbn; lia| |vm_compute; reflexivity|reflexivity].
  repeat constructor; set_solver.
Defined.

(** A byte and a word: the word is constructed at an odd address, and [get] returns an
    address seven bytes behind it. *)
Theorem HeteroBlock_get_misses_object : let r := HeteroBlock_new demo_types (λ _ _ _, false) demo_malloc 3 [mkEntry 0 0; mkEntry 1 0] world_new in
  log r.2 = [ev_ctor 0 8192; ev_ctor 1 8209] ∧
  match r.1 with Ret b => (get_ref b 1 0 r.2).1 = Ret 8216 | _ => False end.
Proof. split; vm_compute; reflexivity. Qed.
